(* ===== verification/_CoqProject ===== *)
-Q . S2P
Prelude.v
GoPost.v
PoolDiff.v
TicketPool.v
AddressRows.v
AddressCache.v
Heap.v
ApiCache.v
Locks.v
Charts.v
ActiveMiners.v
ChartSeries.v
PoolInfoCache.v
StakeTx.v
StakeDatabase.v
StakeSync.v
HeightWaiters.v
Digits.v
PgArray.v
Semver.v
SSFee.v
TxAmounts.v
MempoolVotes.v
CoinStats.v
MempoolAddr.v
Mempool.v
BlockTxns.v
UtxoStore.v
TicketSpends.v
TxOutData.v
StoreTree.v
StoreFacts.v
StoreSafe.v
Reorg.v
Prefetch.v
ChainWalk.v
Notifier.v
PubSubTypes.v
PubSubHub.v
StoreBlock.v
ChainMonitor.v
AnonymitySet.v
AddrBalance.v
AddrHistory.v
Indexes.v
SyncDB.v
