(* ===== verification/Prelude.v ===== *)
(** * Monetarium Explorer: a verified model of its core

    The explorer follows a blockchain node, stores what it sees in PostgreSQL
    and serves web pages and an HTTP API.  This library models what it computes
    itself between the node, the database and the wire: the in-memory state and
    its caches, the rows that a block becomes and the order in which they are
    written, reorganizations, notifications and subscriptions.  There is one
    file per component.  Paths are relative to the source directory of the
    repository.

    ** The parts

    Foundations:
    - [Prelude]: outcomes of Go calls ([res]: value, error, panic), methods of
      a mutable receiver ([goM], state passing in which the writes made before
      an error stay), loops with fuel ([while]), machine integers with their
      wrap-around ([u64], [i64], ...), bytes and hashes, decimal strings of big
      integers, map iteration in an unspecified order ([RangeOrder]), slices
      with their index panics, lexicographic order, sums over maps.
    - [GoPost]: a Hoare logic for [goM], used where a method is long.
    - [Heap] (Go's container/heap), [Digits] (strconv), [PgArray]
      (db/dbtypes/internal/arrays.go), [Semver] (semver/semver.go).

    The stake database, which follows the best chain of the node:
    - [PoolDiff], [TicketPool] (stakedb/ticketpool.go): the tickets that enter
      and leave the live pool in a block, their encoding and their store (the
      interface [Badger]); the pool with its tip and its cursor.
    - [PoolInfoCache] (stakedb/stakedb.go): ticket pool infos by block.
    - [StakeTx] (txhelpers/staketree.go): tickets, votes and revocations of a
      block.
    - [StakeDatabase], [StakeSync] (stakedb/stakedb.go,
      stakedb/chainmonitor.go): connecting, disconnecting, rewinding,
      recovering; the theorems are in the second file.
    - [HeightWaiters] (stakedb/stakedb.go, WaitForHeight).

    The mempool:
    - [SSFee], [TxAmounts] (txhelpers): fee rewards, amounts, fee rates.
    - [MempoolVotes] (explorer/types/explorertypes.go), [CoinStats],
      [MempoolAddr], [Mempool] (mempool/monitor.go, mempool/collector.go): votes,
      statistics by coin, the index by address, and the inventory made of them.

    Storing a block in PostgreSQL (db/dcrpg):
    - [BlockTxns] (db/dbtypes/extraction.go, txhelpers/cspp.go): the rows of the
      transactions of a tree.
    - [UtxoStore], [TicketSpends], [TxOutData]: the caches of unspent outputs
      and of ticket rows; the status of every ticket a block touches; the text
      form of addresses.
    - [StoreTree]: storeBlockTxnTree with what it calls; [StoreFacts] and
      [StoreSafe] hold its theorems.
    - [StoreBlock]: StoreBlock and updateLastBlock.
    - [Reorg]: TipToSideChain over the tables it changes.
    - [ChainMonitor] (db/dcrpg/chainmonitor.go): the reorganization of the
      database.
    - [AnonymitySet]: the series of the value of unspent mixed outputs.
    - [Indexes] (db/dcrpg/indexing.go): the indexes of the tables, the statements
      that create and drop them, and the lists in which they are run.
    - [SyncDB] (db/dcrpg/sync.go): SyncChainDB, which brings the stake database
      and the tables to the node's best block.

    Addresses:
    - [AddressRows] (db/dbtypes/types.go): rows of the addresses table, their
      compact and merged forms, pages by view, merging by transaction.
    - [AddressCache] (db/cache/addresscache.go): balances, rows, UTXOs and
      charts per address, with eviction.
    - [Locks] (trylock/trylock.go, CacheLock of db/cache/addresscache.go).
    - [AddrBalance] (db/dcrpg/queries.go, db/dbtypes/types.go): the two ways to
      compute a balance.
    - [AddrHistory] (db/dcrpg/pgblockchain.go): the queries of an address as
      concurrent processes.

    Blocks and charts:
    - [ApiCache] (api/types/apicache.go): block summaries and stake data, with
      the priority queue that chooses what to evict.
    - [Charts], [ActiveMiners], [ChartSeries] (db/cache/charts.go).

    The node and the clients:
    - [Prefetch], [ChainWalk] (rpcutils): fetching ahead; common ancestors and
      side chains.
    - [Notifier] (cmd/dcrdata/internal/notification/notifier.go): the queue of
      notifications and the groups of handlers.
    - [PubSubTypes], [PubSubHub] (pubsub): subscriptions and the websocket hub.

    ** How the parts interact

    The notifier processes one message after the other: a connected block is
    handed to the groups of handlers in order, a reorganization is given as the
    walk that [ChainWalk] finds to the handlers of the stake database
    ([StakeSync], ReorgHandler), of the charts and of the database
    ([ChainMonitor]).  The stake database keeps its pool in [TicketPool] and
    caches its answers in [PoolInfoCache].  Storing a block extracts the rows
    ([BlockTxns]), reads and fills the caches of [UtxoStore] and [TicketSpends]
    while it stores the trees ([StoreTree]), and last drops the addresses it
    touched from [AddressCache]; so does TipToSideChain ([Reorg]).
    [ChainMonitor] is proved against two classes, of a store of blocks and of
    a switch of the tip, and [StoreBlock] and [Reorg] implement them; [SyncDB]
    against a database that follows a chain, as [StakeDatabase] does
    ([stake_chain]), and a store of blocks, of which no instance is given: what
    it is to answer is in the laws of [ChainStore].  [SyncDB] runs the lists of
    [Indexes] around its import.  The
    queries of [AddrHistory] use [AddressCache] with its rows and pages, the
    locks of [Locks] and the balances of [AddrBalance], at the same time as
    blocks are stored.  The mempool monitor uses the address index, the votes
    and the statistics.  A file requires those whose code it calls.

    ** How code is represented

    A struct is a record, a pointer or slice that may be nil an [option], a map
    a [gmap], a uint64 or int64 a [Z] with [u64] or [i64] where the code can
    leave its range, a float64 an IEEE value of SpecFloat or its bits.  A slice
    used as an object shared by reference is named by its place: an item of the
    address cache by its key, a merged row by its index, an element of the queue
    by its position.  An error is [Err], a run-time panic [Panic]; a loop whose
    fuel runs out gives [NoFuel], and the theorems show that this never is the
    result.  Methods that hold their mutex from start to end are one step.
    Goroutines are threads of a step relation ([Locks], [HeightWaiters],
    [Prefetch], [Notifier], [PubSubHub]) or processes under a scheduler
    ([AddrHistory]).  The two goroutines in which StoreBlock stores its trees
    are run one after the other, in either order.

    The clock, the order of map iteration, the order that sort leaves among
    equal elements, the key-value store, the stake node, the node's answers and
    scripts are parameters with their documented behaviour as laws; the
    witnesses instantiate each of them.  SQL: in [StoreTree] and [StoreBlock]
    the statements are operations of an abstract database, of which each may
    fail; in [Indexes] and [SyncDB] what is kept of the tables beside the blocks
    is the set of indexes, the flag of a complete download and the heights whose
    spending information is missing, and a statement fails at times that are a
    parameter, as are the node's answers and the cancellation; in [Reorg] the tables are maps and each statement is what its text
    says; in [AddrBalance] the query is its groups; in [AddrHistory] the rows of
    an address are a function of an abstract table that blocks change.

    Fuel: the ticket pool moves its cursor by one per iteration, so the
    distance to the target is enough; the eviction loops of the address cache
    remove an address per iteration, so the number of addresses is enough; the
    heap loops double or halve an index, so the length is enough; the binary
    search shrinks its interval, so the length is enough; shrinking the pool info
    cache removes a queued hash per iteration, so the queue length is enough;
    TipToSideChain takes a block off per iteration, so the number of blocks is;
    CommonAncestor has a bound of its own; the loops over heights of the
    anonymity set end after as many steps as there are heights; a query of an
    address retries when another one holds its lock, and alone one attempt is
    enough ([AddressHistory_alone]); an import of blocks ends after as many steps
    as the node will ever have blocks, rewinding and the bulk update after as
    many as there are heights ([SyncChainDB_completes]).

    ** What the theorems show

    - Stake database: the stake node, the ticket pool and the live ticket cache
      agree along every run ([stake_database_in_step]); disconnecting undoes
      connecting ([DisconnectBlock_undoes_ConnectBlock]); opening after a crash
      brings all to one height ([NewStakeDatabase_recovers]); a reorganization
      leaves the state of the new chain ([ReorgHandler_follows]).  Ticket pool:
      the live set is what the diffs below the cursor produce
      ([pool_matches_cursor]), Pool ends ([Pool_total]), Trim undoes Append
      ([Trim_undoes_Append]), a diff survives its encoding
      ([encode_decode_diff]), and what a failed write leaves behind
      ([Append_store_failure_breaks_reopen]).  Waiters never block the stake
      database ([signalWaiters_never_blocks]).
    - Mempool: the inventory describes its history
      ([inventory_describes_history]); statistics that are updated equal those
      that are rebuilt ([incremental_equals_batch]); the address index is the
      one specified ([index_after_tx]).
    - Storing: which outputs are cached after a tree ([cache_after_store]), the
      change of the mix set ([mix_set_accounting]), when storing does not panic
      ([stored_tree_returns]), what a stored block leaves
      ([StoreBlock_commits]) and what a failure leaves ([StoreBlock_failure]);
      the cache of outputs is one map ([utxoStore_refines_map]); cached ticket
      rows change nothing ([spent_tickets_cache_transparent]); rows line up
      ([extracted_rows_aligned]).
    - Reorganizations: which rows leave the main chain
      ([TipToSideChain_orphans_branch]), when the walk never ends
      ([TipToSideChain_runs_away]), when a reorganization is done
      ([ReorgHandler_done], [ReorgHandler_succeeds]); the series of the
      anonymity set is the same from memory and from the database
      ([anonymity_sets_agree]).
    - Synchronization: where it ends when it succeeds ([SyncChainDB_synced]),
      when it does ([SyncChainDB_completes]) and which blocks it leaves without
      spending information ([SyncChainDB_unspent]); dropping and creating the
      indexes leaves out none, but the one of the miners' last use where an
      upgrade has not created it ([reindex_complete]).
    - Addresses: merging gives one row per transaction with exact totals
      ([MergeRows_by_transaction], [merged_row_totals]); counts and pages are
      the ones specified ([CountMergedRows_counts], [SliceAddressRows_page]);
      capacities of the cache ([address_and_utxo_capacity]) and where it exceeds
      them ([row_capacity_exceeded]); balances from groups and from rows agree
      ([balances_agree]); a request alone is answered from the table
      ([AddressHistory_alone]), concurrently with what the table once had
      ([replies_were_true]), which can be stale ([stale_rows_stay]).
    - Block cache: cache map, height map and queue agree and no call panics
      ([cache_invariant]).  Locks: exclusion, no panic, no lost wake-up
      ([mutex_exclusion], [cachelock_exclusion]).
    - Charts: lengths ([Lengthen_lengths]), what a day bin holds
      ([Lengthen_conserves]), reorganization ([ReorgHandler_keeps]), the miner
      sweep ([activeMinersCounts_counts]), daily exact fees and supply
      ([aggregateSKAFees_daily], [aggregateSKASupply_daily]).
    - Node and clients: the prefetcher answers what the node answers
      ([prefetch_refines_node]); the common ancestor is found
      ([CommonAncestor_finds]); the notifier does what a sequential dispatch
      does ([notifier_refines_dispatch]) and ends ([notifier_drains]); the hub
      never panics, and the goroutine of a connection only at a pointer that no
      store has set yet ([hub_never_panics]); a client's transactions are sent in
      order, lost in the one write that failed, or still buffered
      ([transactions_in_order]); the hub delivers to the subscribed
      ([broadcast_delivers], [isSubscribed_wanted]), and does not stop while it
      serves a client ([stop_never_ends]).
    - Texts: printed reward rates are exact ([FormatSKAPerVAR_exact]); arrays,
      versions and digits survive printing and parsing.

    ** What is not modelled

    Log output, tickers and goroutines that only call a modelled method, JSON,
    gob files, HTTP, templates, what is written to websockets (of a write only whether it fails)
    and the configuration.
    The V0 format of the ticket pool and its upgrade; the chart makers with
    their cache of encoded charts and the series of floating point values; the
    statements that fill charts; the view data of an address (AddressData,
    FillAddressTransactions); proposals and agendas, which copy data of remote
    services into a store; the web server and the HTTP API, which format what
    the components above return; of the synchronization the progress and the
    statistics, the pages it updates, which rows are duplicates, and the message
    about a ticket that is not known. *)
From stdpp Require Export base list gmap sets strings numbers fin_maps option sorting.
From Stdlib Require Export ZArith Lia.
From Stdlib Require Export SpecFloat.
From Stdlib Require Import Ascii DecimalString DecimalFacts DecimalZ DecimalPos.

#[export] Set Default Goal Selector "!".
#[export] Set Warnings "-clear-no-such-hyp".
#[global] Open Scope Z_scope.

Create HintDb tickets.

(** ** Outcomes of Go code

    A Go call returns a value, returns a non-nil [error], or panics.  The
    fourth constructor is not a Go outcome: it is what a loop of the model
    yields when its fuel runs out, and the termination theorems show that it
    is never the result. *)
Inductive res (E A : Type) : Type :=
| Ok (a : A)
| Err (e : E)
| Panic
| NoFuel.
Arguments Ok {E A} a.
Arguments Err {E A} e.
Arguments Panic {E A}.
Arguments NoFuel {E A}.

(** A method of a mutable receiver of type [S]: state passing with an outcome.
    As in Go, the receiver keeps the writes made before an error. *)
Definition goM (S E A : Type) : Type := S → res E A * S.

#[global] Instance goM_ret {S E} : MRet (goM S E) := λ A a s, (Ok a, s).
#[global] Instance goM_bind {S E} : MBind (goM S E) := λ A B k m s,
  match m s with
  | (Ok a, s') => k a s'
  | (Err e, s') => (Err e, s')
  | (Panic, s') => (Panic, s')
  | (NoFuel, s') => (NoFuel, s')
  end.

Definition gets {S E A} (f : S → A) : goM S E A := λ s, (Ok (f s), s).
Definition modify {S E} (f : S → S) : goM S E unit := λ s, (Ok tt, f s).
Definition fail {S E A} (e : E) : goM S E A := λ s, (Err e, s).
Definition panic {S E A} : goM S E A := λ s, (Panic, s).

Lemma bind_Ok {S E A B} (m : goM S E A) (k : A → goM S E B) s x s' :
  m s = (Ok x, s') → (m ≫= k) s = k x s'.
Proof. unfold mbind, goM_bind. by intros ->. Qed.

Lemma bind_modify {S E B} (f : S → S) (k : unit → goM S E B) s :
  (modify f ≫= k) s = k tt (f s).
Proof. reflexivity. Qed.
Lemma bind_gets {S E A B} (f : S → A) (k : A → goM S E B) s : (gets f ≫= k) s = k (f s) s.
Proof. reflexivity. Qed.

Lemma bind_inv {S E A B} (m : goM S E A) (k : A → goM S E B) s r s' :
  (m ≫= k) s = (r, s') →
  (∃ x s1, m s = (Ok x, s1) ∧ k x s1 = (r, s')) ∨ (∃ e, m s = (Err e, s') ∧ r = Err e) ∨
  (m s = (Panic, s') ∧ r = Panic) ∨ (m s = (NoFuel, s') ∧ r = NoFuel).
Proof.
  unfold mbind, goM_bind. destruct (m s) as [[x|e| |] s1].
  - intros H. left. by exists x, s1.
  - intros [= <- <-]. right. left. by exists e.
  - intros [= <- <-]. auto.
  - intros [= <- <-]. auto.
Qed.

(** Takes the first step of [H : (m ≫= k) s = (r, s')] apart: the run goes on
    with [x] in state [s1], or it ends with an error, a panic, no fuel. *)
Tactic Notation "go_step" ident(H) "as" ident(x) ident(s1) ident(E) :=
  apply bind_inv in H as [(x & s1 & E & H)|[(x & E & ->)|[[E ->]|[E ->]]]].

Lemma bind_inv_Ok {S E A B} (m : goM S E A) (k : A → goM S E B) s y s' :
  (m ≫= k) s = (Ok y, s') → ∃ x s1, m s = (Ok x, s1) ∧ k x s1 = (Ok y, s').
Proof. unfold mbind, goM_bind. destruct (m s) as [[x|e| |] s1]; [|done..]. intros H. by exists x, s1. Qed.

(** The same for a run known to succeed. *)
Tactic Notation "go_ok" ident(H) "as" ident(x) ident(s1) ident(E) :=
  apply bind_inv_Ok in H as (x & s1 & E & H).

(** [for cond { body }] with a fuel bound. *)
Fixpoint while {S E} (fuel : nat) (cond : S → bool) (body : goM S E unit)
    : goM S E unit := λ s,
  if cond s then
    match fuel with
    | O => (NoFuel, s)
    | Datatypes.S n => (body ≫= λ _, while n cond body) s
    end
  else (Ok tt, s).

(** A loop whose body keeps [I], never fails and decreases [mu] ends within
    [mu] iterations in a state that satisfies [I] and not the condition. *)
Lemma while_total {S E} (I : S → Prop) (mu : S → nat) cond (body : goM S E unit) fuel s :
  (∀ s, I s → cond s = true → ∃ s', body s = (Ok tt, s') ∧ I s' ∧ (mu s' < mu s)%nat) →
  I s → (mu s <= fuel)%nat →
  ∃ s', while fuel cond body s = (Ok tt, s') ∧ I s' ∧ cond s' = false.
Proof.
  intros Hbody. revert s. induction fuel as [|fuel IH]; intros s HI Hfuel; cbn [while].
  - destruct (cond s) eqn:Hc; [|eauto].
    destruct (Hbody s HI Hc) as (s' & _ & _ & Hmu). lia.
  - destruct (cond s) eqn:Hc; [|eauto].
    destruct (Hbody s HI Hc) as (s' & Hb & HI' & Hmu). unfold mbind, goM_bind. rewrite Hb.
    apply IH; [done|lia].
Qed.

(** ** Machine integers *)
Definition wrap_u (w z : Z) : Z := z mod 2 ^ w.
Definition wrap_s (w z : Z) : Z := (z + 2 ^ (w - 1)) mod 2 ^ w - 2 ^ (w - 1).

Definition u8 := wrap_u 8.
Definition u16 := wrap_u 16.
Definition u32 := wrap_u 32.
Definition u64 := wrap_u 64.
Definition i32 := wrap_s 32.
Definition i64 := wrap_s 64.

Definition MaxInt64 : Z := 2 ^ 63 - 1.

Lemma wrap_u_range w z : 0 <= w → 0 <= wrap_u w z < 2 ^ w.
Proof. intros. apply Z.mod_pos_bound. lia. Qed.

Lemma wrap_u_small w z : 0 <= z < 2 ^ w → wrap_u w z = z.
Proof. intros. by apply Z.mod_small. Qed.

Lemma wrap_s_range w z : 0 < w → - 2 ^ (w - 1) <= wrap_s w z < 2 ^ (w - 1).
Proof.
  intros. unfold wrap_s. assert (2 ^ w = 2 * 2 ^ (w - 1)) as E.
  { rewrite <- Z.pow_succ_r by lia. f_equal. lia. }
  pose proof (Z.mod_pos_bound (z + 2 ^ (w - 1)) (2 ^ w)). lia.
Qed.

Lemma wrap_s_small w z : 0 < w → - 2 ^ (w - 1) <= z < 2 ^ (w - 1) → wrap_s w z = z.
Proof.
  intros. unfold wrap_s. assert (2 ^ w = 2 * 2 ^ (w - 1)) as E.
  { rewrite <- Z.pow_succ_r by lia. f_equal. lia. }
  rewrite Z.mod_small; lia.
Qed.

Lemma wrap_u_add_idemp_l w a b : wrap_u w (wrap_u w a + b) = wrap_u w (a + b).
Proof. unfold wrap_u. apply Zplus_mod_idemp_l. Qed.

Lemma wrap_s_add_idemp_l w a b : 0 < w → wrap_s w (wrap_s w a + b) = wrap_s w (a + b).
Proof.
  intros Hw. unfold wrap_s. set (h := 2 ^ (w - 1)).
  replace ((a + h) mod 2 ^ w - h + b + h) with ((a + h) mod 2 ^ w + b) by lia.
  rewrite Zplus_mod_idemp_l. f_equal. f_equal. lia.
Qed.

Lemma wrap_s_sub_idemp w a b : 0 < w → wrap_s w (wrap_s w a - wrap_s w b) = wrap_s w (a - b).
Proof.
  intros Hw. unfold wrap_s. set (h := 2 ^ (w - 1)). assert (2 ^ w ≠ 0) as Hn by (apply Z.pow_nonzero; lia).
  rewrite (Z.mod_eq (a + h)), (Z.mod_eq (b + h)) by done. f_equal.
  match goal with |- ?x mod _ = _ => replace x with (a - b + h + ((b + h) / 2 ^ w - (a + h) / 2 ^ w) * 2 ^ w) by ring end.
  apply Z_mod_plus_full.
Qed.

Lemma wrap_u_mod_eq w a b : wrap_u w a = wrap_u w b → ∀ c, wrap_u w (a + c) = wrap_u w (b + c).
Proof. intros E c. rewrite <- (wrap_u_add_idemp_l w a), E. apply wrap_u_add_idemp_l. Qed.

(** ** Floating point

    [float64] is the IEEE binary64 format of the Standard Library's [SpecFloat],
    which computes exactly and rounds to nearest even. *)
Abbreviation float64 := spec_float.
Definition f64_of_Z (z : Z) : float64 := binary_normalize 53 1024 z 0 false.
Definition f64_div : float64 → float64 → float64 := SFdiv 53 1024.
Definition f64_mul : float64 → float64 → float64 := SFmul 53 1024.
Definition f64_add : float64 → float64 → float64 := SFadd 53 1024.

(** [int64(f)]: truncation; a value out of range (where Go leaves the result to
    the implementation) is the minimum, as on amd64. *)
Definition f64_to_i64 (f : float64) : Z :=
  match f with
  | S754_zero _ => 0
  | S754_finite s m e =>
    let a := if 0 <=? e then Z.pos m * 2 ^ e else Z.pos m / 2 ^ (- e) in
    let v := if s : bool then - a else a in
    if (- 2 ^ 63 <=? v) && (v <? 2 ^ 63) then v else - 2 ^ 63
  | _ => - 2 ^ 63
  end.

Lemma f64_to_i64_range f : - 2 ^ 63 <= f64_to_i64 f < 2 ^ 63.
Proof.
  unfold f64_to_i64. destruct f; try done. cbv zeta.
  match goal with |- context [if ?b then ?v else _] => destruct b eqn:E; [|done] end.
  apply andb_true_iff in E as [E1%Z.leb_le E2%Z.ltb_lt]. done.
Qed.

(** ** Bytes and hashes

    A byte is a [Z] in [0, 256); [chainhash.Hash] is an array of
    [chainhash.HashSize] = 32 bytes. *)
Abbreviation bytes := (list Z).
Abbreviation Hash := (list Z).
Definition HashSize : nat := 32.
Definition is_byte (b : Z) : Prop := 0 <= b < 256.
Definition is_hash (h : Hash) : Prop := length h = HashSize ∧ Forall is_byte h.
Definition zeroHash : Hash := replicate HashSize 0.

(** [binary.BigEndian.PutUint64] and friends: [n] bytes, most significant first. *)
Fixpoint be_bytes (n : nat) (v : Z) : bytes :=
  match n with
  | O => []
  | S m => be_bytes m (v / 256) ++ [v mod 256]
  end.

(** [binary.BigEndian.Uint64] and friends. *)
Definition be_val (l : bytes) : Z := foldl (λ acc b, acc * 256 + b) 0 l.

Lemma length_be_bytes n v : length (be_bytes n v) = n.
Proof. revert v. induction n; intros v; simpl; [done|]. rewrite length_app, IHn. simpl. lia. Qed.

Lemma be_bytes_byte n v : Forall is_byte (be_bytes n v).
Proof.
  revert v. induction n; intros v; simpl; [constructor|].
  apply Forall_app; split; [done|]. constructor; [|constructor].
  unfold is_byte. pose proof (Z.mod_pos_bound v 256). lia.
Qed.

Lemma be_val_snoc l b : be_val (l ++ [b]) = be_val l * 256 + b.
Proof. unfold be_val. by rewrite foldl_app. Qed.

Lemma pow256_S (n : nat) : 256 ^ Z.of_nat (S n) = 256 * 256 ^ Z.of_nat n.
Proof. rewrite Nat2Z.inj_succ, Z.pow_succ_r; lia. Qed.

Lemma be_val_bytes n v : 0 <= v < 256 ^ Z.of_nat n → be_val (be_bytes n v) = v.
Proof.
  revert v. induction n; intros v Hv; cbn [be_bytes].
  - simpl in Hv. change (be_val []) with 0. lia.
  - rewrite be_val_snoc, IHn.
    + pose proof (Z.div_mod v 256). lia.
    + rewrite pow256_S in Hv. split; [apply Z.div_pos; lia|].
      apply Z.div_lt_upper_bound; lia.
Qed.

(** [binary.LittleEndian.Uint32] and friends. *)
Definition le_val (l : bytes) : Z := be_val (rev l).

(** [[]byte(s)]. *)
Definition bytes_of_string (s : string) : bytes :=
  (λ c, Z.of_N (Ascii.N_of_ascii c)) <$> String.list_ascii_of_string s.

(** ** Decimal strings

    [new(big.Int).SetString(s, 10)]: an optional sign, then one or more
    decimal digits up to the end of the string. *)
Definition parse_digits (s : string) : option Z :=
  Z.of_uint <$> NilZero.uint_of_string s.

Definition SetString10 (s : string) : option Z :=
  match s with
  | String "-"%char r => Z.opp <$> parse_digits r
  | String "+"%char r => parse_digits r
  | _ => parse_digits s
  end.

(** [big.Int.String]. *)
Definition bigString (z : Z) : string := NilZero.string_of_int (Z.to_int z).

Lemma Z_to_int_cases z :
  (∃ u, Z.to_int z = Decimal.Pos u ∧ u ≠ Decimal.Nil ∧ Z.of_uint u = z) ∨
  (∃ u, Z.to_int z = Decimal.Neg u ∧ u ≠ Decimal.Nil ∧ - Z.of_uint u = z).
Proof.
  pose proof (DecimalZ.of_to z) as Hz. destruct z as [|p|p]; simpl in Hz |- *.
  - left. by exists (Decimal.D0 Decimal.Nil).
  - left. exists (Pos.to_uint p). split; [done|]. split; [|exact Hz].
    intros E. rewrite E in Hz. discriminate.
  - right. exists (Pos.to_uint p). split; [done|]. split; [|exact Hz].
    intros E. rewrite E in Hz. discriminate.
Qed.

Lemma NilZero_uint_round u :
  u ≠ Decimal.Nil → NilZero.uint_of_string (NilZero.string_of_uint u) = Some u.
Proof. apply NilZero.usu. Qed.

Lemma string_of_uint_head u :
  ∃ c r, NilZero.string_of_uint u = String c r ∧ c ≠ "-"%char ∧ c ≠ "+"%char.
Proof. destruct u; simpl; repeat eexists; discriminate. Qed.

(** Printing a big integer and parsing it back is the identity. *)
Lemma SetString10_bigString z : SetString10 (bigString z) = Some z.
Proof.
  unfold bigString, SetString10, parse_digits.
  destruct (Z_to_int_cases z) as [(u & -> & Hu & <-)|(u & -> & Hu & <-)].
  - destruct (string_of_uint_head u) as (c & r & E & Hm & Hp).
    unfold NilZero.string_of_int. pose proof (NilZero_uint_round u Hu) as R.
    rewrite E in R |- *. destruct c as [[] [] [] [] [] [] [] []]; try done;
      rewrite R; reflexivity.
  - simpl. by rewrite NilZero_uint_round.
Qed.

Lemma bigString_nonempty z : bigString z ≠ ""%string.
Proof. unfold bigString. intros E. destruct (Z_to_int_cases z) as [(u & Hu & Hn & _)|(u & Hu & Hn & _)]; rewrite Hu in E; by destruct u. Qed.

(** ** Go maps

    [for k, v := range m] visits every entry once in an unspecified order:
    each use of [range] is governed by one of these enumerations. *)
Class RangeOrder (K V : Type) `{Countable K} := {
  range_of : gmap K V → list (K * V);
  range_perm : ∀ m, range_of m ≡ₚ map_to_list m
}.

(** One particular order, for evaluating examples. *)
Definition canonical_range {K V} `{Countable K} : RangeOrder K V :=
  {| range_of := map_to_list; range_perm := λ m, Permutation_refl _ |}.

Lemma elem_of_range {K V} `{Countable K} {R : RangeOrder K V} (m : gmap K V) k v :
  (k, v) ∈ range_of m ↔ m !! k = Some v.
Proof. rewrite range_perm. apply elem_of_map_to_list. Qed.

Lemma length_range {K V} `{Countable K} {R : RangeOrder K V} (m : gmap K V) :
  length (range_of m) = size m.
Proof. rewrite range_perm. apply length_map_to_list. Qed.

(** ** Slices *)
(** [l[i]] with a Go [int] index; [None] is the run-time panic. *)
Definition slice_at {A} (l : list A) (i : Z) : option A :=
  if i <? 0 then None else l !! Z.to_nat i.

(** [int(len(l))]. *)
Definition zlen {A} (l : list A) : Z := Z.of_nat (length l).

Lemma zlen_nonneg {A} (l : list A) : 0 <= zlen l.
Proof. unfold zlen. lia. Qed.
Lemma zlen_app {A} (l k : list A) : zlen (l ++ k) = zlen l + zlen k.
Proof. unfold zlen. rewrite length_app. lia. Qed.

Lemma zlen_cons {A} (x : A) l : zlen (x :: l) = zlen l + 1.
Proof. unfold zlen. cbn [length]. lia. Qed.

Lemma slice_at_Some {A} (l : list A) i :
  0 <= i < zlen l → ∃ x, slice_at l i = Some x.
Proof.
  unfold slice_at, zlen. intros Hi. destruct (Z.ltb_spec i 0); [lia|].
  apply lookup_lt_is_Some. lia.
Qed.

(** [bytes.Compare(a, b) < 0]. *)
Fixpoint lex_ltb (a b : bytes) : bool :=
  match a, b with
  | _, [] => false
  | [], _ :: _ => true
  | x :: a', y :: b' => (x <? y) || ((x =? y) && lex_ltb a' b')
  end.
Definition lex_lt (a b : bytes) : Prop := lex_ltb a b = true.

Lemma lex_lt_irrefl a : ¬ lex_lt a a.
Proof.
  unfold lex_lt. induction a as [|x a IH]; simpl; [done|].
  rewrite Z.ltb_irrefl, Z.eqb_refl. done.
Qed.

Lemma lex_lt_trans : Transitive lex_lt.
Proof.
  unfold lex_lt. intros a b c. revert b c.
  induction a as [|x a IH]; intros [|y b] [|z c]; simpl; try done.
  rewrite !orb_true_iff, !andb_true_iff, !Z.ltb_lt, !Z.eqb_eq.
  intros [?|[-> Hab]] [?|[-> Hbc]]; [left; lia..|]. right. eauto.
Qed.

Lemma lex_lt_antisymm : AntiSymm (=) lex_lt.
Proof. intros a b Hab Hba. destruct (lex_lt_irrefl a). by eapply lex_lt_trans. Qed.

Lemma lex_lt_total a b : a ≠ b → lex_lt a b ∨ lex_lt b a.
Proof.
  unfold lex_lt. revert b. induction a as [|x a IH]; intros [|y b] Hne; simpl; auto.
  rewrite !orb_true_iff, !andb_true_iff, !Z.ltb_lt, !Z.eqb_eq.
  destruct (Z.lt_trichotomy x y) as [?|[->|?]]; auto.
  destruct (IH b) as [?|?]; auto. congruence.
Qed.

Lemma lex_lt_snoc a b x y :
  length a = length b → lex_lt a b ∨ (a = b ∧ x < y) → lex_lt (a ++ [x]) (b ++ [y]).
Proof.
  unfold lex_lt. revert b. induction a as [|u a IH]; intros [|v b] Hlen; simpl; try done.
  - rewrite orb_true_iff, Z.ltb_lt. intros [?|[_ ?]]; [done|auto].
  - rewrite !orb_true_iff, !andb_true_iff, !Z.ltb_lt, !Z.eqb_eq.
    intros [[?|[-> Hl]]|[[= -> ->] Hlt]]; [auto|right|right].
    + split; [done|]. apply IH; [simpl in Hlen; lia|auto].
    + split; [done|]. apply IH; [simpl in Hlen; lia|auto].
Qed.

(** Big-endian keys of one width compare as the numbers they encode. *)
Lemma be_bytes_lex n a b :
  0 <= a < b → b < 256 ^ Z.of_nat n → lex_lt (be_bytes n a) (be_bytes n b).
Proof.
  revert a b. induction n as [|n IH]; intros a b Hab Hb; cbn [be_bytes].
  - simpl in Hb. lia.
  - apply lex_lt_snoc; [by rewrite !length_be_bytes|].
    rewrite pow256_S in Hb.
    assert (a / 256 <= b / 256) as Hle by (apply Z.div_le_mono; lia).
    destruct (decide (a / 256 = b / 256)) as [E|Hne].
    + right. rewrite E. split; [done|].
      pose proof (Z.div_mod a 256). pose proof (Z.div_mod b 256). lia.
    + left. apply IH.
      * pose proof (Z.div_pos a 256). lia.
      * apply Z.div_lt_upper_bound; lia.
Qed.

(** ** Sums *)
Definition zsum (l : list Z) : Z := foldr Z.add 0 l.

Lemma zsum_app a b : zsum (a ++ b) = zsum a + zsum b.
Proof. unfold zsum. induction a as [|x a IH]; cbn; [done|]. rewrite IH. lia. Qed.
Lemma zsum_snoc l x : zsum (l ++ [x]) = zsum l + x.
Proof. rewrite zsum_app. cbn. lia. Qed.
#[export] Instance zsum_perm : Proper ((≡ₚ) ==> (=)) zsum.
Proof. unfold zsum. intros l l' H. induction H; cbn; lia. Qed.

(** ** Sums over a map *)
Definition map_sum {K V} `{Countable K} (f : V → Z) (m : gmap K V) : Z :=
  map_fold (λ _ v acc, f v + acc) 0 m.

Section MapSum.
Context {K V : Type} `{Countable K} (f : V → Z).
Implicit Types m : gmap K V.

Lemma map_sum_empty : map_sum f (∅ : gmap K V) = 0.
Proof. apply map_fold_empty. Qed.

Lemma map_sum_insert m k v : m !! k = None → map_sum f (<[k := v]> m) = f v + map_sum f m.
Proof. intros Hk. unfold map_sum. rewrite map_fold_insert_L; [done|intros; lia|done]. Qed.

Lemma map_sum_delete m k v : m !! k = Some v → map_sum f m = f v + map_sum f (delete k m).
Proof.
  intros Hk. rewrite <- (insert_delete_id m k v) at 1 by done.
  apply map_sum_insert, lookup_delete_eq.
Qed.

Lemma map_sum_insert_eq m k v :
  map_sum f (<[k := v]> m) = f v - default 0 (f <$> m !! k) + map_sum f m.
Proof.
  destruct (m !! k) as [w|] eqn:Hk; cbn.
  - rewrite <- insert_delete_eq, map_sum_insert by apply lookup_delete_eq.
    rewrite (map_sum_delete m k w) by done. lia.
  - rewrite map_sum_insert by done. lia.
Qed.

Lemma map_sum_nonneg m : (∀ v, 0 <= f v) → 0 <= map_sum f m.
Proof.
  intros Hf. induction m as [|k v m Hk IH] using map_ind; [by rewrite map_sum_empty|].
  rewrite map_sum_insert by done. specialize (Hf v). lia.
Qed.

Lemma map_sum_elem m k v : (∀ v, 0 <= f v) → m !! k = Some v → f v <= map_sum f m.
Proof.
  intros Hf Hk. rewrite (map_sum_delete m k v Hk).
  pose proof (map_sum_nonneg (delete k m) Hf). lia.
Qed.

Lemma map_sum_pos m : (∀ v, 0 <= f v) → 0 < map_sum f m → ∃ k v, m !! k = Some v ∧ 0 < f v.
Proof.
  intros Hf. induction m as [|k v m Hk IH] using map_ind; [by rewrite map_sum_empty|].
  rewrite map_sum_insert by done. intros Hp. destruct (decide (0 < f v)).
  - exists k, v. by rewrite lookup_insert_eq.
  - destruct IH as (k' & v' & Hk' & Hv'); [specialize (Hf v); lia|].
    exists k', v'. rewrite lookup_insert_ne; [done|]. congruence.
Qed.

Lemma map_sum_le m (c : Z) :
  (∀ k v, m !! k = Some v → f v <= c) → map_sum f m <= c * Z.of_nat (size m).
Proof.
  induction m as [|k v m Hk IH] using map_ind; intros Hc.
  - rewrite map_sum_empty, map_size_empty. lia.
  - rewrite map_sum_insert, map_size_insert_None by done.
    assert (f v <= c) by (apply (Hc k); apply lookup_insert_eq).
    assert (map_sum f m <= c * Z.of_nat (size m)).
    { apply IH. intros k' v' Hk'. apply (Hc k'). rewrite lookup_insert_ne; [done|]. congruence. }
    lia.
Qed.

Lemma map_sum_subseteq m m' : (∀ v, 0 <= f v) → m ⊆ m' → map_sum f m <= map_sum f m'.
Proof.
  intros Hf. revert m'. induction m as [|k v m Hk IH] using map_ind; intros m' Hsub.
  - rewrite map_sum_empty. by apply map_sum_nonneg.
  - assert (m' !! k = Some v) as Hk' by (eapply lookup_weaken; [apply lookup_insert_eq|done]).
    rewrite map_sum_insert, (map_sum_delete m' k v) by done.
    assert (map_sum f m <= map_sum f (delete k m')); [|lia].
    apply IH. rewrite <- (delete_insert_id m k v) by done. by apply delete_mono.
Qed.
End MapSum.
