(* ===== verification/GoPost.v ===== *)
(** * Postconditions of Go calls

    A small program logic for the state monad of the Prelude: what a call that
    succeeds returns and leaves behind, whatever the errors, and whether it may
    panic; and the parts of the state a call does not touch.  The rules follow
    the shape of the definitions, so that a proof about a method applies the
    rule of its first statement and goes on. *)
From S2P Require Import Prelude.
Open Scope Z_scope.

(** [post P m s Q]: from [s], if [m] succeeds then [Q] holds of the result and
    the state, and it panics (or runs out of fuel) only if [P]. *)
Definition post {S E A} (P : Prop) (m : goM S E A) (s : S) (Q : A → S → Prop) : Prop :=
  match m s with
  | (Ok a, s') => Q a s'
  | (Err _, _) => True
  | (Panic, _) | (NoFuel, _) => P
  end.

Section Rules.
Context {S E : Type} (P : Prop).

Lemma post_ret {A} (a : A) (s : S) (Q : A → S → Prop) : Q a s → post P (mret a : goM S E A) s Q.
Proof. done. Qed.

Lemma post_bind {A B} (m : goM S E A) (k : A → goM S E B) s (Q : B → S → Prop) :
  post P m s (λ a s', post P (k a) s' Q) → post P (m ≫= k) s Q.
Proof. unfold post, mbind, goM_bind. destruct (m s) as [[a|e| |] s']; auto. Qed.

Lemma post_mono {A} (m : goM S E A) s (Q Q' : A → S → Prop) :
  post P m s Q → (∀ a s', Q a s' → Q' a s') → post P m s Q'.
Proof. unfold post. destruct (m s) as [[a|e| |] s']; auto. Qed.

Lemma post_and {A} (m : goM S E A) s (Q Q' : A → S → Prop) :
  post P m s Q → post P m s Q' → post P m s (λ a s', Q a s' ∧ Q' a s').
Proof. unfold post. destruct (m s) as [[a|e| |] s']; auto. Qed.

Lemma post_fail {A} (e : E) s (Q : A → S → Prop) : post P (fail e : goM S E A) s Q.
Proof. done. Qed.

Lemma post_Ok {A} (m : goM S E A) s (Q : A → S → Prop) a s' : post P m s Q → m s = (Ok a, s') → Q a s'.
Proof. unfold post. intros H E0. by rewrite E0 in H. Qed.
End Rules.

Lemma post_safe {S E A} (m : goM S E A) s (Q : A → S → Prop) s' : post False m s Q → m s ≠ (Panic, s').
Proof. unfold post. intros H E0. by rewrite E0 in H. Qed.

Lemma post_weaken {S E A} (P : Prop) (m : goM S E A) s (Q : A → S → Prop) : post False m s Q → post P m s Q.
Proof. unfold post. by destruct (m s) as [[a|e| |] s']. Qed.

(** ** What a call leaves alone *)
Definition keeps {S E A T} (f : S → T) (m : goM S E A) : Prop := ∀ s, f (m s).2 = f s.

Lemma kept_ret {S E A T} (f : S → T) (a : A) : keeps f (mret a : goM S E A).
Proof. done. Qed.
Lemma kept_fail {S E A T} (f : S → T) (e : E) : keeps f (fail e : goM S E A).
Proof. done. Qed.
Lemma kept_panic {S E A T} (f : S → T) : keeps f (panic : goM S E A).
Proof. done. Qed.
Lemma kept_gets {S E A T} (f : S → T) (g : S → A) : keeps f (gets g : goM S E A).
Proof. done. Qed.
Lemma kept_bind {S E A B T} (f : S → T) (m : goM S E A) (k : A → goM S E B) :
  keeps f m → (∀ a, keeps f (k a)) → keeps f (m ≫= k).
Proof.
  intros Hm Hk s. unfold mbind, goM_bind. specialize (Hm s). destruct (m s) as [[a|e| |] s']; cbn in *; try done.
  by rewrite (Hk a s').
Qed.

Lemma keeps_post {S E A T} (P : Prop) (f : S → T) (m : goM S E A) s (Q : A → S → Prop) :
  keeps f m → post P m s Q → post P m s (λ a s', Q a s' ∧ f s' = f s).
Proof. unfold keeps, post. intros H. specialize (H s). by destruct (m s) as [[a|e| |] s']. Qed.

Create HintDb keeps.
#[export] Hint Resolve kept_ret kept_fail kept_panic kept_gets kept_bind : keeps.
(** Descends through the statements of a definition. *)
Ltac solve_keeps :=
  repeat first
    [ progress intros
    | solve [auto with keeps]
    | apply kept_bind
    | match goal with |- keeps _ (match ?x with _ => _ end) => destruct x end
    | match goal with |- keeps _ (let _ := _ in _) => cbv zeta end ].
