(* ===== verification/PoolDiff.v ===== *)
(** * Ticket pool diffs and their on-disk form (stakedb/ticketpool.go)

    The [PoolDiff] record, the byte encoding of a diff, the V1 loader that
    reads every stored diff back, and the interface of the badger key-value
    store the package writes to.  The main results are the codec round trip
    and the theorem that the loader returns exactly the stored diffs. *)
From S2P Require Import Prelude.
Open Scope Z_scope.

Record PoolDiff := mkDiff { dIn : list Hash; dOut : list Hash }.

#[global] Instance PoolDiff_eq_dec : EqDecision PoolDiff.
Proof. solve_decision. Defined.

(** The well-formedness that Go's array type gives: every hash has 32 bytes. *)
Definition diff_ok (d : PoolDiff) : Prop :=
  Forall is_hash (dIn d) ∧ Forall is_hash (dOut d).

(** ** The badger store

    badger is a third-party package: the development is parametric in a store
    with these operations.  [bdg_set] is one [db.Update] transaction that sets
    one entry (with its user meta byte); [None] is a non-nil error.
    [bdg_items] is what an iterator without options visits, in order. *)
Class Badger (DB : Type) := {
  bdg_get : DB → bytes → option (bytes * Z);
  bdg_set : DB → bytes → bytes → Z → option DB;
  bdg_items : DB → list (bytes * (bytes * Z))
}.

(** Documented behaviour: a successful write is seen by later reads and
    changes no other key; iteration visits every key in byte-sorted order. *)
Class BadgerLaws (DB : Type) `{Badger DB} : Prop := {
  bdg_get_set : ∀ d k v m d' k',
    bdg_set d k v m = Some d' →
    bdg_get d' k' = if decide (k = k') then Some (v, m) else bdg_get d k';
  bdg_items_get : ∀ d k x, (k, x) ∈ bdg_items d ↔ bdg_get d k = Some x;
  bdg_items_sorted : ∀ d, StronglySorted lex_lt (fst <$> bdg_items d)
}.

Inductive DiffErr :=
| EStore            (** db.Update returned an error *)
| EReadInLen        (** failed to ready In length (end of value) *)
| EShortInLen (n : Z)
| EReadOutLen       (** failed to ready Out length *)
| EReadHash         (** end of value in a hash list *)
| EShortHash (n : Z)
| ETrailing (n : Z) (** not at the end of the value *)
| EVersion (v : Z)  (** unrecognized pool DB version *)
| EVersionSize (n : Z).

#[global] Instance DiffErr_eq_dec : EqDecision DiffErr.
Proof. solve_decision. Defined.

(** ** Encoding *)
Definition uint64Bytes (v : Z) : bytes := be_bytes 8 (u64 v).
#[global] Arguments uint64Bytes : simpl never.

Definition encodeDiff (d : PoolDiff) : res DiffErr bytes :=
  let numIn := zlen (dIn d) in
  let numOut := zlen (dOut d) in
  let dataLen := 16 + Z.of_nat HashSize * (numIn + numOut) in
  let buf := uint64Bytes numIn ++ concat (dIn d) ++ uint64Bytes numOut ++ concat (dOut d) in
  if decide (zlen buf = dataLen) then Ok buf else Panic.

Definition versionKey : bytes := [118; 101; 114; 115; 105; 111; 110].  (* version *)
Definition currentVersion : Z := 1.

Section Store.
Context {DB : Type} `{BDB : Badger DB}.

Definition setVersion (db : DB) : res DiffErr DB :=
  match bdg_set db versionKey (be_bytes 4 currentVersion) 1 with
  | Some db' => Ok db'
  | None => Err EStore
  end.

Definition dbVersion (db : DB) : res DiffErr Z :=
  match bdg_get db versionKey with
  | None => Ok 0
  | Some (v, _) => if decide (length v = 4%nat) then Ok (be_val v) else Err (EVersionSize (zlen v))
  end.

Definition storeDiff (db : DB) (d : PoolDiff) (height : Z) : res DiffErr DB :=
  let heightBytes := uint64Bytes height in
  match encodeDiff d with
  | Ok diffData =>
    match bdg_set db heightBytes diffData 0 with
    | Some db' => Ok db'
    | None => Err EStore
    end
  | Err e => Err e
  | Panic => Panic
  | NoFuel => NoFuel
  end.
End Store.

(** ** Decoding

    [bytes.Reader] over [v] at position [pos]. *)
Definition maxAlloc : Z := 2 ^ 48.

(** [r.Read(p)] with [len(p) = n]: [None] is io.EOF, otherwise the bytes
    copied (possibly fewer than [n]) and the new position. *)
Definition reader_read (v : bytes) (pos : Z) (n : nat) : option (bytes * Z) :=
  if zlen v <=? pos then None
  else let out := take n (drop (Z.to_nat pos) v) in Some (out, pos + zlen out).

(** [r.ReadAt(p, off)]: an error unless all [n] bytes are there. *)
Definition reader_readAt (v : bytes) (off : Z) (n : nat) : option bytes :=
  if off <? 0 then None
  else if zlen v <=? off then None
  else let out := take n (drop (Z.to_nat off) v) in
       if decide (length out = n) then Some out else None.

(** The loops [for i := range poolDiff.In] and [for i := range poolDiff.Out]. *)
Fixpoint read_hashes (n : nat) (v : bytes) (pos : Z) : res DiffErr (list Hash * Z) :=
  match n with
  | O => Ok ([], pos)
  | S m =>
    match reader_read v pos HashSize with
    | None => Err EReadHash
    | Some (h, pos') =>
      if decide (length h = HashSize) then
        match read_hashes m v pos' with
        | Ok (hs, pos'') => Ok (h :: hs, pos'')
        | r => r
        end
      else Err (EShortHash (zlen h))
    end
  end.

(** [make([]chainhash.Hash, n)] panics when the length is out of range. *)
Definition make_ok (n : Z) : bool := Z.of_nat HashSize * n <=? maxAlloc.

Definition decodeDiff (v : bytes) : res DiffErr PoolDiff :=
  match reader_read v 0 8 with
  | None => Err EReadInLen
  | Some (inLenBytes, pos) =>
    if negb (zlen inLenBytes =? 8) then Err (EShortInLen (zlen inLenBytes)) else
    let inLen := be_val inLenBytes in
    match reader_readAt v (i64 (8 + i64 (i64 inLen * Z.of_nat HashSize))) 8 with
    | None => Err EReadOutLen
    | Some outLenBytes =>
      let outLen := be_val outLenBytes in
      if negb (make_ok inLen && make_ok outLen) then Panic else
      match read_hashes (Z.to_nat inLen) v pos with
      | Ok (ins, pos1) =>
        let pos2 := pos1 + 8 in
        match read_hashes (Z.to_nat outLen) v pos2 with
        | Ok (outs, pos3) =>
          let remaining := if zlen v <=? pos3 then 0 else zlen v - pos3 in
          if negb (remaining =? 0) then Err (ETrailing remaining)
          else Ok (mkDiff ins outs)
        | Err e => Err e
        | Panic => Panic
        | NoFuel => NoFuel
        end
      | Err e => Err e
      | Panic => Panic
      | NoFuel => NoFuel
      end
    end
  end.

(** The iterator loop of the V1 loader.  The key is read with
    [binary.BigEndian.Uint64], which panics on fewer than 8 bytes; heights
    must be consecutive from 1. *)
Fixpoint loadV1_loop (items : list (bytes * (bytes * Z))) (lastheight : Z)
    (poolDiffs : list PoolDiff) (heights : list Z)
    : res DiffErr (list PoolDiff * list Z * Z) :=
  match items with
  | [] => Ok (poolDiffs, heights, lastheight)
  | (key, (v, meta)) :: rest =>
    if meta =? 1 then loadV1_loop rest lastheight poolDiffs heights
    else if zlen key <? 8 then Panic
    else
      let height := be_val (take 8 key) in
      match decodeDiff v with
      | Ok d =>
        if negb (u64 (lastheight + 1) =? height) then Panic
        else loadV1_loop rest height (poolDiffs ++ [d]) (heights ++ [height])
      | Err e => Err e
      | Panic => Panic
      | NoFuel => NoFuel
      end
  end.

Definition loadAllPoolDiffsV1 {DB} `{Badger DB} (db : DB)
    : res DiffErr (list PoolDiff * list Z) :=
  match loadV1_loop (bdg_items db) 0 [] [] with
  | Ok (poolDiffs, heights, lastheight) =>
    let poolDiffLen := zlen poolDiffs in
    if (0 <? poolDiffLen) && negb (poolDiffLen =? lastheight) then Panic
    else Ok (poolDiffs, heights)
  | Err e => Err e
  | Panic => Panic
  | NoFuel => NoFuel
  end.

(** ** The codec round trip *)
Lemma length_concat_hashes hs :
  Forall is_hash hs → length (concat hs) = (HashSize * length hs)%nat.
Proof.
  induction 1 as [|h hs [Hh _] _ IH]; cbn [concat length]; [done|].
  rewrite length_app, IH, Hh. lia.
Qed.

Lemma zlen_uint64Bytes v : zlen (uint64Bytes v) = 8.
Proof. unfold zlen, uint64Bytes. by rewrite length_be_bytes. Qed.

Lemma be_val_uint64Bytes v : 0 <= v < 2 ^ 64 → be_val (uint64Bytes v) = v.
Proof.
  intros Hv. unfold uint64Bytes. rewrite be_val_bytes.
  - by apply wrap_u_small.
  - apply (wrap_u_range 64). lia.
Qed.

Lemma encodeDiff_bytes d :
  diff_ok d →
  encodeDiff d = Ok (uint64Bytes (zlen (dIn d)) ++ concat (dIn d) ++
                     uint64Bytes (zlen (dOut d)) ++ concat (dOut d)).
Proof.
  intros [Hin Hout]. unfold encodeDiff. rewrite decide_True; [done|].
  rewrite !zlen_app, !zlen_uint64Bytes. unfold zlen at 1 2.
  rewrite !length_concat_hashes by done. unfold zlen. lia.
Qed.

(** Reading [n] bytes at the position where they start. *)
Lemma reader_read_at v pre mid post (n : nat) :
  v = pre ++ mid ++ post → length mid = n → (0 < n)%nat →
  reader_read v (zlen pre) n = Some (mid, zlen pre + Z.of_nat n).
Proof.
  intros -> Hmid Hn. unfold reader_read.
  destruct (Z.leb_spec (zlen (pre ++ mid ++ post)) (zlen pre)) as [Hle|_].
  { rewrite !zlen_app in Hle. pose proof (zlen_nonneg post). unfold zlen in *. lia. }
  unfold zlen. rewrite Nat2Z.id, drop_app_length, <- Hmid, take_app_length. done.
Qed.

Lemma reader_readAt_at v pre mid post (n : nat) off :
  v = pre ++ mid ++ post → length mid = n → (0 < n)%nat → off = zlen pre →
  reader_readAt v off n = Some mid.
Proof.
  intros -> Hmid Hn ->. unfold reader_readAt. pose proof (zlen_nonneg pre).
  destruct (Z.ltb_spec (zlen pre) 0); [lia|].
  destruct (Z.leb_spec (zlen (pre ++ mid ++ post)) (zlen pre)) as [Hle|_].
  { rewrite !zlen_app in Hle. pose proof (zlen_nonneg post). unfold zlen in *. lia. }
  unfold zlen. rewrite Nat2Z.id, drop_app_length, <- Hmid, take_app_length.
  by rewrite decide_True.
Qed.

Lemma read_hashes_concat hs v pre post :
  Forall is_hash hs → v = pre ++ concat hs ++ post →
  read_hashes (length hs) v (zlen pre) =
    Ok (hs, zlen pre + Z.of_nat HashSize * zlen hs).
Proof.
  intros Hhs. revert pre. induction Hhs as [|h hs [Hh Hb] Hhs IH]; intros pre Hv.
  - cbn [read_hashes length]. do 2 f_equal. unfold zlen. simpl. lia.
  - cbn [read_hashes length].
    rewrite (reader_read_at v pre h (concat hs ++ post)); [|by rewrite Hv; cbn [concat]; rewrite <- app_assoc|done|unfold HashSize; lia].
    rewrite decide_True by done.
    replace (zlen pre + Z.of_nat HashSize) with (zlen (pre ++ h)) by (rewrite zlen_app; unfold zlen; lia).
    rewrite (IH (pre ++ h)); [|by rewrite Hv; cbn [concat]; rewrite <- !app_assoc].
    do 2 f_equal. rewrite zlen_app. unfold zlen. cbn [length]. lia.
Qed.

Lemma i64_small z : - 2 ^ 63 <= z < 2 ^ 63 → i64 z = z.
Proof. intros. by apply (wrap_s_small 64). Qed.

Lemma decodeDiff_encoded d :
  diff_ok d → make_ok (zlen (dIn d)) = true → make_ok (zlen (dOut d)) = true →
  decodeDiff (uint64Bytes (zlen (dIn d)) ++ concat (dIn d) ++
              uint64Bytes (zlen (dOut d)) ++ concat (dOut d)) = Ok d.
Proof.
  destruct d as [ins outs]. cbn [dIn dOut]. intros [Hin Hout] Mi Mo.
  cbn [dIn dOut] in Hin, Hout.
  pose proof Mi as Mi'. pose proof Mo as Mo'. unfold make_ok, maxAlloc, HashSize in Mi', Mo'.
  apply Z.leb_le in Mi', Mo'. pose proof (zlen_nonneg ins). pose proof (zlen_nonneg outs).
  set (A := uint64Bytes (zlen ins)). set (B := uint64Bytes (zlen outs)).
  set (v := A ++ concat ins ++ B ++ concat outs).
  assert (zlen A = 8) as HA by apply zlen_uint64Bytes.
  assert (zlen B = 8) as HB by apply zlen_uint64Bytes.
  assert (zlen (concat ins) = 32 * zlen ins) as HCi.
  { unfold zlen. rewrite length_concat_hashes by done. unfold HashSize. lia. }
  assert (zlen (concat outs) = 32 * zlen outs) as HCo.
  { unfold zlen. rewrite length_concat_hashes by done. unfold HashSize. lia. }
  assert (be_val A = zlen ins) as VA by (apply be_val_uint64Bytes; lia).
  assert (be_val B = zlen outs) as VB by (apply be_val_uint64Bytes; lia).
  clearbody A B. unfold decodeDiff. change 0 with (zlen (A:=Z) []) at 1.
  rewrite (reader_read_at v [] A (concat ins ++ B ++ concat outs) 8); [|done|unfold zlen in HA; lia|lia].
  rewrite HA, VA. cbn [Z.eqb Pos.eqb negb]. change (Z.of_nat HashSize) with 32.
  rewrite (i64_small (zlen ins)), (i64_small (zlen ins * 32)), (i64_small (8 + _)) by lia.
  rewrite (reader_readAt_at v (A ++ concat ins) B (concat outs) 8);
    [|by unfold v; rewrite <- app_assoc|unfold zlen in HB; lia|lia|rewrite zlen_app, HA, HCi; lia].
  rewrite VB, Mi, Mo. cbn [andb negb].
  replace (zlen [] + Z.of_nat 8) with (zlen A) by (rewrite HA; reflexivity).
  replace (Z.to_nat (zlen ins)) with (length ins) by (unfold zlen; lia).
  replace (Z.to_nat (zlen outs)) with (length outs) by (unfold zlen; lia).
  rewrite (read_hashes_concat ins v A (B ++ concat outs)) by done.
  change (Z.of_nat HashSize) with 32.
  replace (zlen A + 32 * zlen ins + 8) with (zlen (A ++ concat ins ++ B))
    by (rewrite !zlen_app, HA, HB, HCi; lia).
  rewrite (read_hashes_concat outs v (A ++ concat ins ++ B) []);
    [|done|by unfold v; rewrite app_nil_r, <- !app_assoc].
  change (Z.of_nat HashSize) with 32.
  destruct (Z.leb_spec (zlen v) (zlen (A ++ concat ins ++ B) + 32 * zlen outs)) as [_|Hlt]; [done|].
  exfalso. unfold v in Hlt. rewrite !zlen_app, HA, HB, HCi, HCo in Hlt. lia.
Qed.

(** ** Loading what was stored *)
Definition diff_fits (d : PoolDiff) : Prop :=
  diff_ok d ∧ make_ok (zlen (dIn d)) = true ∧ make_ok (zlen (dOut d)) = true.

(** The value bytes of a well-formed diff. *)
Definition enc (d : PoolDiff) : bytes :=
  uint64Bytes (zlen (dIn d)) ++ concat (dIn d) ++
  uint64Bytes (zlen (dOut d)) ++ concat (dOut d).

Lemma encodeDiff_enc d : diff_fits d → encodeDiff d = Ok (enc d).
Proof. intros [Hd _]. unfold enc. apply encodeDiff_bytes, Hd. Qed.

Lemma decodeDiff_enc d : diff_fits d → decodeDiff (enc d) = Ok d.
Proof. intros (Hd & ? & ?). unfold enc. apply decodeDiff_encoded; assumption. Qed.

#[export] Hint Resolve encodeDiff_enc decodeDiff_enc : tickets.

(** The entries of diffs [ds] at heights [k+1], [k+2], ... in key order. *)
Fixpoint entries (k : Z) (ds : list PoolDiff) : list (bytes * (bytes * Z)) :=
  match ds with
  | [] => []
  | d :: ds' => (uint64Bytes (k + 1), (enc d, 0)) :: entries (k + 1) ds'
  end.

Definition key_lt (x y : bytes * (bytes * Z)) : Prop := lex_lt x.1 y.1.

Lemma elem_of_entries k ds x :
  x ∈ entries k ds ↔
  ∃ i d, ds !! i = Some d ∧ x = (uint64Bytes (k + 1 + Z.of_nat i), (enc d, 0)).
Proof.
  revert k. induction ds as [|d ds IH]; intros k; cbn [entries].
  - split; [by intros ?%not_elem_of_nil|]. intros (i & d & Hi & _). done.
  - rewrite elem_of_cons, IH. split.
    + intros [->|(i & e & Hi & ->)].
      * exists 0%nat, d. split; [done|]. do 2 f_equal; lia.
      * exists (S i), e. split; [done|]. do 2 f_equal; lia.
    + intros ([|i] & e & Hi & ->).
      * left. injection Hi as ->. do 2 f_equal; lia.
      * right. exists i, e. split; [done|]. do 2 f_equal; lia.
Qed.

Lemma uint64Bytes_lex a b :
  0 <= a < b → b < 2 ^ 64 → lex_lt (uint64Bytes a) (uint64Bytes b).
Proof.
  intros Hab Hb. unfold uint64Bytes, u64. rewrite !wrap_u_small by lia.
  apply be_bytes_lex; [lia|]. change (256 ^ Z.of_nat 8) with (2 ^ 64). lia.
Qed.

Lemma uint64Bytes_inj a b :
  0 <= a < 2 ^ 64 → 0 <= b < 2 ^ 64 → uint64Bytes a = uint64Bytes b → a = b.
Proof. intros Ha Hb E. by rewrite <- (be_val_uint64Bytes a), E, be_val_uint64Bytes. Qed.

Lemma entries_sorted k ds :
  0 <= k → k + zlen ds < 2 ^ 64 → StronglySorted key_lt (entries k ds).
Proof.
  revert k. induction ds as [|d ds IH]; intros k Hk Hlen; cbn [entries]; [constructor|].
  unfold zlen in *. cbn [length] in Hlen. constructor; [apply IH; lia|].
  apply Forall_forall. intros x (i & e & Hi & ->)%elem_of_entries.
  apply lookup_lt_Some in Hi. apply uint64Bytes_lex; lia.
Qed.

Lemma loadV1_loop_skip items k acc hs :
  loadV1_loop items k acc hs =
  loadV1_loop (filter (λ x, x.2.2 ≠ 1) items) k acc hs.
Proof.
  revert k acc hs. induction items as [|[key [v m]] items IH]; intros k acc hs; [done|].
  rewrite filter_cons. cbn [fst snd]. case_decide as Hm; cbn [loadV1_loop].
  - destruct (Z.eqb_spec m 1); [done|]. destruct (zlen key <? 8); [done|].
    destruct (decodeDiff v); [|done..]. by destruct (negb _).
  - destruct (Z.eqb_spec m 1); [apply IH|]. tauto.
Qed.

Lemma loadV1_loop_entries k ds acc hs :
  0 <= k → k + zlen ds < 2 ^ 64 → Forall diff_fits ds →
  loadV1_loop (entries k ds) k acc hs =
    Ok (acc ++ ds, hs ++ seqZ (k + 1) (zlen ds), k + zlen ds).
Proof.
  intros Hk Hlen Hds. revert k acc hs Hk Hlen.
  induction Hds as [|d ds Hd Hds IH]; intros k acc hs Hk Hlen; cbn [entries loadV1_loop].
  - rewrite !app_nil_r. unfold zlen. simpl. do 2 f_equal. lia.
  - assert (zlen (d :: ds) = 1 + zlen ds) as E by (unfold zlen; simpl; lia).
    rewrite E in *. pose proof (zlen_nonneg ds).
    rewrite zlen_uint64Bytes. cbn [Z.eqb Z.ltb Z.compare Pos.compare Pos.compare_cont].
    rewrite take_ge by (unfold uint64Bytes; rewrite length_be_bytes; lia).
    rewrite be_val_uint64Bytes, decodeDiff_enc by (done || lia).
    unfold u64. rewrite wrap_u_small, Z.eqb_refl by lia. cbn [negb].
    rewrite IH by lia. rewrite (seqZ_cons (k + 1)) by lia. rewrite <- !app_assoc.
    cbn [app]. unfold Z.succ. repeat (f_equal; try lia).
Qed.

Lemma loadV1_loop_app l1 l2 k acc hs :
  loadV1_loop (l1 ++ l2) k acc hs =
  match loadV1_loop l1 k acc hs with
  | Ok (acc', hs', k') => loadV1_loop l2 k' acc' hs'
  | Err e => Err e
  | Panic => Panic
  | NoFuel => NoFuel
  end.
Proof.
  revert k acc hs. induction l1 as [|[key [v m]] l1 IH]; intros k acc hs; cbn; [done|].
  destruct (m =? 1); [done|]. destruct (zlen key <? 8); [done|].
  destruct (decodeDiff v); try done. by destruct (negb _).
Qed.

Section Load.
Context {DB : Type} `{BL : BadgerLaws DB}.

(** The store holds exactly the diffs [ds], keyed by height from 1, beside
    entries marked with user meta 1 (the version entry). *)
Definition db_holds (db : DB) (ds : list PoolDiff) : Prop :=
  ∀ k v m, m ≠ 1 →
    bdg_get db k = Some (v, m) ↔ (k, (v, m)) ∈ entries 0 ds.

(** A sorted list with the store's unmarked entries is what the iterator
    yields once the marked ones are skipped. *)
Lemma items_eq db l :
  StronglySorted key_lt l →
  (∀ k v m, m ≠ 1 → bdg_get db k = Some (v, m) ↔ (k, (v, m)) ∈ l) →
  (∀ k v m, (k, (v, m)) ∈ l → m ≠ 1) →
  filter (λ x, x.2.2 ≠ 1) (bdg_items db) = l.
Proof.
  intros S2 Hdb Hl.
  assert (AntiSymm (=) key_lt) as AS.
  { intros x y Hxy Hyx. destruct (lex_lt_irrefl x.1). by eapply lex_lt_trans. }
  assert (∀ l, StronglySorted key_lt l → NoDup l) as ND.
  { intros l'. induction 1 as [|x l' _ IH Hx]; constructor; [|done].
    intros Hin. rewrite Forall_forall in Hx. by apply (lex_lt_irrefl x.1), Hx. }
  assert (StronglySorted key_lt (filter (λ x, x.2.2 ≠ 1) (bdg_items db))) as S1.
  { pose proof (bdg_items_sorted db) as Hs. clear Hdb Hl S2.
    induction (bdg_items db) as [|x l' IH]; [constructor|].
    cbn in Hs. apply StronglySorted_inv in Hs as [Hs Hx]. rewrite filter_cons.
    case_decide; [|auto]. constructor; [auto|].
    apply Forall_forall. intros y [_ Hy]%list_elem_of_filter.
    refine (proj1 (Forall_forall _ _) Hx y.1 _). apply list_elem_of_fmap. eauto. }
  apply (StronglySorted_unique key_lt); [done..|].
  apply NoDup_Permutation; [by apply ND..|]. intros [k [v m]].
  rewrite list_elem_of_filter, bdg_items_get. cbn [snd]. split.
  - intros [Hm Hg]. by apply Hdb.
  - intros Hin. pose proof (Hl _ _ _ Hin). split; [done|]. by apply Hdb.
Qed.

Lemma db_holds_items db ds :
  db_holds db ds → zlen ds < 2 ^ 64 →
  filter (λ x, x.2.2 ≠ 1) (bdg_items db) = entries 0 ds.
Proof.
  intros Hdb Hlen. apply items_eq; [apply entries_sorted; lia|done|].
  intros k v m (i & d & _ & [_ [_ ->]%pair_eq]%pair_eq)%elem_of_entries. lia.
Qed.

(** What the store holds is what the loader returns, in height order. *)
Lemma load_db_holds db ds :
  db_holds db ds → zlen ds < 2 ^ 64 → Forall diff_fits ds →
  loadAllPoolDiffsV1 db = Ok (ds, seqZ 1 (zlen ds)).
Proof.
  intros Hdb Hlen Hds. unfold loadAllPoolDiffsV1.
  rewrite loadV1_loop_skip, (db_holds_items db ds) by done.
  rewrite loadV1_loop_entries by (done || lia). cbn [app].
  rewrite Z.add_0_l, Z.eqb_refl, andb_false_r. done.
Qed.

(** [storeDiff] at a height from 1 to one past the end replaces or appends. *)
Lemma storeDiff_holds db ds d (i : nat) db' :
  db_holds db ds → diff_fits d → (i <= length ds)%nat → zlen ds + 1 < 2 ^ 64 →
  storeDiff db d (Z.of_nat i + 1) = Ok db' →
  db_holds db' (take i ds ++ d :: drop (S i) ds).
Proof.
  intros Hdb Hd Hi Hlen Hst. unfold storeDiff in Hst. rewrite encodeDiff_enc in Hst by done.
  destruct (bdg_set db _ _ _) as [db2|] eqn:Eset; [|done]. injection Hst as ->.
  intros k v m Hm. rewrite (bdg_get_set _ _ _ _ _ k Eset). rewrite elem_of_entries.
  assert (∀ j e, (take i ds ++ d :: drop (S i) ds) !! j = Some e ↔
                 (j = i ∧ e = d) ∨ (j ≠ i ∧ ds !! j = Some e)) as Hlook.
  { intros j e. destruct (decide (j = i)) as [->|Hne].
    - rewrite list_lookup_middle by (rewrite length_take; lia).
      split; [intros [= ->]; auto|]. intros [[_ ->]|[? _]]; [done|lia].
    - destruct (decide (j < i)%nat).
      + rewrite lookup_app_l, lookup_take by (rewrite ?length_take; lia).
        rewrite decide_True by lia. split; [auto|]. intros [[? _]|[_ ?]]; [lia|done].
      + rewrite lookup_app_r by (rewrite length_take; lia).
        rewrite length_take, Nat.min_l by lia.
        replace (j - i)%nat with (S (j - i - 1)) by lia.
        change ((d :: drop (S i) ds) !! S (j - i - 1)) with (drop (S i) ds !! (j - i - 1)%nat).
        rewrite lookup_drop. replace (S i + (j - i - 1))%nat with j by lia.
        split; [auto|]. intros [[? _]|[_ ?]]; [lia|done]. }
  assert (∀ j : nat, (j < length ds + 1)%nat →
    uint64Bytes (Z.of_nat i + 1) = uint64Bytes (0 + 1 + Z.of_nat j) → j = i) as Hinj.
  { intros j Hj E. unfold zlen in Hlen. apply uint64Bytes_inj in E; lia. }
  setoid_rewrite Hlook. case_decide as Ek; subst.
  - split.
    + intros [= <- <-]. exists i, d. split; [auto|]. do 2 f_equal; lia.
    + intros (j & e & [[-> ->]|[Hne Hj]] & [E [-> ->]%pair_eq]%pair_eq); [done|].
      apply lookup_lt_Some in Hj. destruct Hne. apply Hinj; [lia|done].
  - assert (bdg_get db k = Some (v, m) ↔ (k, (v, m)) ∈ entries 0 ds) as -> by by apply Hdb.
    rewrite elem_of_entries. split.
    + intros (j & e & Hj & [-> [-> ->]%pair_eq]%pair_eq). exists j, e. split; [|done].
      right. split; [|done]. intros ->. apply Ek. f_equal. lia.
    + intros (j & e & [[-> ->]|[Hne Hj]] & [-> [-> ->]%pair_eq]%pair_eq).
      * destruct Ek. f_equal. lia.
      * eauto.
Qed.

(** A diff stored one height too far: the loader reaches the gap and panics. *)
Lemma loadV1_gap db db' ds d :
  db_holds db ds → Forall diff_fits ds → diff_fits d → zlen ds + 2 < 2 ^ 64 →
  bdg_set db (uint64Bytes (zlen ds + 2)) (enc d) 0 = Some db' →
  loadV1_loop (bdg_items db') 0 [] [] = Panic.
Proof.
  intros Hdb Hds Hd Hlen Eset. pose proof (zlen_nonneg ds).
  rewrite loadV1_loop_skip, (items_eq db' (entries 0 ds ++ entries (zlen ds + 1) [d])).
  - rewrite loadV1_loop_app, loadV1_loop_entries by (done || lia).
    cbn [entries loadV1_loop]. rewrite zlen_uint64Bytes. cbn [Z.eqb Z.ltb Z.compare Pos.compare Pos.compare_cont].
    rewrite take_ge by (unfold uint64Bytes; rewrite length_be_bytes; lia).
    rewrite be_val_uint64Bytes, decodeDiff_enc by (done || lia).
    unfold u64. rewrite wrap_u_small by lia.
    destruct (Z.eqb_spec (0 + zlen ds + 1) (zlen ds + 1 + 1)); [lia|done].
  - apply StronglySorted_app_2; [|by apply entries_sorted; lia|].
    + intros x y (i & e & Hi & ->)%elem_of_entries (j & f & Hj & ->)%elem_of_entries.
      apply lookup_lt_Some in Hi. apply uint64Bytes_lex; unfold zlen in *; cbn [length] in *.
      * lia.
      * apply lookup_lt_Some in Hj. cbn in Hj. lia.
    + apply entries_sorted; [lia|]. unfold zlen in *. cbn [length]. lia.
  - intros k v m Hm. rewrite elem_of_app, (bdg_get_set _ _ _ _ _ k Eset).
    replace (zlen ds + 2) with (zlen ds + 1 + 1) by lia.
    cbn [entries]. rewrite list_elem_of_singleton.
    case_decide as Ek; subst.
    + split; [intros [= <- <-]; auto|]. intros [Hin|E].
      * exfalso. apply elem_of_entries in Hin as (i & e & Hi & [E _]%pair_eq).
        apply lookup_lt_Some in Hi. apply uint64Bytes_inj in E; unfold zlen in *; lia.
      * apply pair_eq in E as [_ ->]. done.
    + rewrite <- (Hdb k v m Hm). split; [auto|]. intros [?|[E _]%pair_eq]; congruence.
  - intros k v m [Hin|Hin]%elem_of_app;
      apply elem_of_entries in Hin as (i & e & _ & [_ [_ ->]%pair_eq]%pair_eq); lia.
Qed.
End Load.

(** C30: for every diff whose hashes are 32 bytes and whose lists fit in memory,
    encodeDiff succeeds (its length check never panics) and decoding the bytes
    gives the diff back. *)
Theorem encode_decode_diff d :
  diff_fits d → ∃ b, encodeDiff d = Ok b ∧ decodeDiff b = Ok d.
Proof. eauto with tickets. Qed.

Lemma encode_decode_diff_witness :
  let d := mkDiff [replicate 32 7] [replicate 32 9; replicate 32 0] in
  ∃ b, encodeDiff d = Ok b ∧ decodeDiff b = Ok d.
Proof.
  intros d. apply (encode_decode_diff d). unfold diff_fits, diff_ok, is_hash, is_byte.
  repeat split; try (vm_compute; reflexivity); repeat constructor; vm_compute; congruence.
Defined.

(** ** A store that satisfies the laws

    An in-memory map whose iterator sorts the keys; writes never fail. *)
Module MapStore.
Abbreviation store := (gmap bytes (bytes * Z)).

Definition key_le (x y : bytes * (bytes * Z)) : Prop := lex_ltb y.1 x.1 = false.
#[export] Instance key_le_dec : RelDecision key_le.
Proof. intros x y. unfold key_le. apply _. Defined.

Lemma key_le_alt x y : key_le x y ↔ lex_lt x.1 y.1 ∨ x.1 = y.1.
Proof.
  unfold key_le. split.
  - intros H. destruct (decide (x.1 = y.1)) as [|Hne]; [auto|].
    destruct (lex_lt_total _ _ Hne) as [?|Hlt]; [auto|]. unfold lex_lt in Hlt. congruence.
  - intros [H| ->]; apply not_true_iff_false; intros Hlt.
    + apply (lex_lt_irrefl x.1). by eapply lex_lt_trans.
    + by apply (lex_lt_irrefl y.1).
Qed.

#[export] Instance key_le_total : Total key_le.
Proof.
  intros x y. rewrite !key_le_alt. destruct (decide (x.1 = y.1)) as [|Hne]; [auto|].
  destruct (lex_lt_total _ _ Hne); auto.
Qed.

#[export] Instance key_le_trans : Transitive key_le.
Proof.
  intros x y z. rewrite !key_le_alt. intros [H1|E1] [H2|E2]; rewrite ?E1, <- ?E2; auto.
  left. by eapply lex_lt_trans.
Qed.

#[export] Instance map_store : Badger store := {|
  bdg_get d k := d !! k;
  bdg_set d k v m := Some (<[k := (v, m)]> d);
  bdg_items d := merge_sort key_le (map_to_list d)
|}.

Lemma sorted_strict l :
  StronglySorted key_le l → NoDup l.*1 → StronglySorted lex_lt l.*1.
Proof.
  induction 1 as [|x l Hs IH Hx]; cbn; intros HN; [constructor|].
  apply NoDup_cons in HN as [Hni HN]. constructor; [auto|].
  apply Forall_forall. intros k (y & -> & Hy)%list_elem_of_fmap.
  rewrite Forall_forall in Hx. destruct (proj1 (key_le_alt x y) (Hx y Hy)) as [|E]; [done|].
  destruct Hni. apply list_elem_of_fmap. eauto.
Qed.

#[export] Instance map_store_laws : BadgerLaws store.
Proof.
  split.
  - intros d k v m d' k' [= <-]. cbn. by rewrite lookup_insert.
  - intros d k x. cbn. by rewrite merge_sort_Permutation, elem_of_map_to_list.
  - intros d. cbn. apply sorted_strict.
    + apply (StronglySorted_merge_sort _).
    + rewrite merge_sort_Permutation. apply NoDup_fst_map_to_list.
Qed.
End MapStore.
