(* ===== verification/TicketPool.v ===== *)
(** * The live ticket pool (stakedb/ticketpool.go, type TicketPool)

    The pool keeps the diffs of every connected block, a cursor into them and
    the set of live tickets at the cursor.  The specification is the pool
    obtained by applying the first [n] diffs to the empty set ([pool_at]); the
    theorems show that every operation keeps the set equal to that pool, that
    [Pool] returns it for any connected height wherever the cursor was, and
    that the on-disk diffs always extend those in memory. *)
From S2P Require Import Prelude PoolDiff.
Open Scope Z_scope.

(** ** Model *)
Section Model.
Context {DB : Type} `{BDB : Badger DB}.

Record TicketPool := mkTP {
  cursor : Z;            (** location of the next unapplied diff *)
  tip : Z;               (** number of blocks connected over genesis *)
  diffs : list PoolDiff;
  pool : gset Hash;
  diffDB : DB
}.

Inductive TPErr :=
| ENotBuild (height tip : Z)   (** block height does not build on tip *)
| ENotConnected (height tip : Z)
| EAtTip                       (** cursor at tip, unable to advance *)
| EAtGenesis                   (** cursor at genesis, unable to retreat *)
| EPoolSize (got expected : Z)
| EPastTip                     (** cannot advance past tip *)
| EBadCursor (height : Z)      (** invalid destination cursor *)
| EDiffDB (e : DiffErr).

Abbreviation TPM := (goM TicketPool TPErr).

Definition set_cursor (c : Z) (tp : TicketPool) : TicketPool :=
  mkTP c (tip tp) (diffs tp) (pool tp) (diffDB tp).
Definition set_tip (t : Z) (tp : TicketPool) : TicketPool :=
  mkTP (cursor tp) t (diffs tp) (pool tp) (diffDB tp).
Definition set_diffs (ds : list PoolDiff) (tp : TicketPool) : TicketPool :=
  mkTP (cursor tp) (tip tp) ds (pool tp) (diffDB tp).
Definition set_pool (p : gset Hash) (tp : TicketPool) : TicketPool :=
  mkTP (cursor tp) (tip tp) (diffs tp) p (diffDB tp).
Definition set_diffDB (db : DB) (tp : TicketPool) : TicketPool :=
  mkTP (cursor tp) (tip tp) (diffs tp) (pool tp) db.

(** The tail of NewTicketPool for a DB that is already at currentVersion:
    load the diffs and construct the pool with an empty map and cursor 0. *)
Definition openTicketPool (db : DB) : res DiffErr TicketPool :=
  match loadAllPoolDiffsV1 db with
  | Ok (poolDiffs, _) => Ok (mkTP 0 (zlen poolDiffs) poolDiffs ∅ db)
  | Err e => Err e
  | Panic => Panic
  | NoFuel => NoFuel
  end.

(** [for i := range in { tp.pool[in[i]] = struct{}{} }] and the delete loop. *)
Definition add_all (hs : list Hash) (p : gset Hash) : gset Hash :=
  foldl (λ q h, {[ h ]} ∪ q) p hs.
Definition delete_all (hs : list Hash) (p : gset Hash) : gset Hash :=
  foldl (λ q h, q ∖ {[ h ]}) p hs.

Definition applyDiff (ins outs : list Hash) (tp : TicketPool) : TicketPool :=
  set_pool (delete_all outs (add_all ins (pool tp))) tp.

Definition poolSize (tp : TicketPool) : Z := Z.of_nat (size (pool tp)).

Definition maxCursor (tp : TicketPool) : Z :=
  if tip tp =? 0 then 0 else tip tp - 1.

Definition advance : TPM () :=
  tp ← gets id;
  if maxCursor tp <? cursor tp then fail EAtTip else
  match slice_at (diffs tp) (cursor tp) with
  | None => panic
  | Some diffToNext =>
    let initPoolSize := poolSize tp in
    let expectedFinalSize := initPoolSize + zlen (dIn diffToNext) - zlen (dOut diffToNext) in
    modify (applyDiff (dIn diffToNext) (dOut diffToNext));;
    modify (λ tp, set_cursor (cursor tp + 1) tp);;
    sz ← gets poolSize;
    if sz =? expectedFinalSize then mret () else fail (EPoolSize sz expectedFinalSize)
  end.

Definition retreat : TPM () :=
  tp ← gets id;
  if cursor tp =? 0 then fail EAtGenesis else
  match slice_at (diffs tp) (cursor tp - 1) with
  | None => panic
  | Some diffFromPrev =>
    let initPoolSize := poolSize tp in
    let expectedFinalSize := initPoolSize - zlen (dIn diffFromPrev) + zlen (dOut diffFromPrev) in
    modify (applyDiff (dOut diffFromPrev) (dIn diffFromPrev));;
    modify (λ tp, set_cursor (cursor tp - 1) tp);;
    sz ← gets poolSize;
    if sz =? expectedFinalSize then mret () else fail (EPoolSize sz expectedFinalSize)
  end.

(** [for height > tp.cursor { tp.advance() }]: the cursor moves by one per
    iteration, so the distance to [height] is fuel enough. *)
Definition advance_loop (height : Z) : TPM () := λ tp,
  while (Z.to_nat (height - cursor tp)) (λ tp, cursor tp <? height) advance tp.
Definition retreat_loop (height : Z) : TPM () := λ tp,
  while (Z.to_nat (cursor tp - height)) (λ tp, height <? cursor tp) retreat tp.

Definition advanceTo (height : Z) : TPM () :=
  t ← gets tip;
  if t <? height then fail EPastTip else advance_loop height.

Definition retreatTo (height : Z) : TPM () :=
  t ← gets tip;
  if (height <? 0) || (t <? height) then fail (EBadCursor height) else retreat_loop height.

(** [AdvanceToTip] returns the cursor and the error. *)
Definition AdvanceToTip (tp : TicketPool) : Z * res TPErr () * TicketPool :=
  let '(r, tp') := advanceTo (tip tp) tp in (cursor tp', r, tp').

(** A retreatTo error is only logged; a panic propagates. *)
Definition trim (tp : TicketPool) : res TPErr (Z * PoolDiff) * TicketPool :=
  if (tip tp =? 0) || (zlen (diffs tp) =? 0) then (Ok (tip tp, mkDiff [] []), tp) else
  let tp1 := set_tip (tip tp - 1) tp in
  let newMaxCursor := maxCursor tp1 in
  let '(r, tp2) :=
    if newMaxCursor <? cursor tp1 then retreatTo newMaxCursor tp1 else (Ok (), tp1) in
  match r with
  | Panic => (Panic, tp2)
  | NoFuel => (NoFuel, tp2)
  | _ =>
    match slice_at (diffs tp2) (zlen (diffs tp2) - 1) with
    | None => (Panic, tp2)
    | Some undo =>
      let tp3 := set_diffs (take (length (diffs tp2) - 1) (diffs tp2)) tp2 in
      (Ok (tip tp3, undo), tp3)
    end
  end.

Definition append (diff : PoolDiff) (tp : TicketPool) : TicketPool :=
  set_diffs (diffs tp ++ [diff]) (set_tip (tip tp + 1) tp).

(** The method [storeDiff] of the pool. *)
Definition storeDiffTP (diff : PoolDiff) (height : Z) : TPM () := λ tp,
  match storeDiff (diffDB tp) diff (u64 height) with
  | Ok db' => (Ok (), set_diffDB db' tp)
  | Err e => (Err (EDiffDB e), tp)
  | Panic => (Panic, tp)
  | NoFuel => (NoFuel, tp)
  end.

Definition Append (diff : PoolDiff) (height : Z) : TPM () :=
  t ← gets tip;
  if negb (height =? t + 1) then fail (ENotBuild height t) else
  modify (append diff);;
  storeDiffTP diff height.

Definition AppendAndAdvancePool (diff : PoolDiff) (height : Z) : TPM () :=
  t ← gets tip;
  if negb (height =? t + 1) then fail (ENotBuild height t) else
  modify (append diff);;
  storeDiffTP diff height;;
  advance.

(** The order of the returned tickets is the unspecified order of the map. *)
Definition currentPool (tp : TicketPool) : list Hash * Z := (elements (pool tp), cursor tp).

Definition Pool (height : Z) : TPM (list Hash) :=
  t ← gets tip;
  if t <? height then fail (ENotConnected height t) else
  advance_loop height;;
  retreat_loop height;;
  cp ← gets currentPool;
  mret (fst cp).
End Model.
Arguments TicketPool DB : clear implicits.

(** ** Specification: the pool after the first [n] diffs *)
Definition diff_step (p : gset Hash) (d : PoolDiff) : gset Hash :=
  (p ∪ list_to_set (dIn d)) ∖ list_to_set (dOut d).
Definition pool_at (ds : list PoolDiff) (n : nat) : gset Hash :=
  foldl diff_step ∅ (take n ds).

(** A diff is valid on a pool when it adds only new tickets, removes only
    tickets that are there, and lists none twice. *)
Definition diff_valid (p : gset Hash) (d : PoolDiff) : Prop :=
  NoDup (dIn d) ∧ NoDup (dOut d) ∧
  p ## list_to_set (dIn d) ∧ list_to_set (dOut d) ⊆ p ∪ list_to_set (dIn d).
Definition chain_valid (ds : list PoolDiff) : Prop :=
  ∀ i d, ds !! i = Some d → diff_valid (pool_at ds i) d.

Lemma pool_at_S ds n d :
  ds !! n = Some d → pool_at ds (S n) = diff_step (pool_at ds n) d.
Proof. intros Hd. unfold pool_at. by rewrite (take_S_r ds n d Hd), foldl_app. Qed.

Lemma pool_at_prefix ds ds' n :
  (n <= length ds)%nat → pool_at (ds ++ ds') n = pool_at ds n.
Proof. intros Hn. unfold pool_at. by rewrite take_app_le. Qed.

Lemma pool_at_take ds m n : (n <= m)%nat → pool_at (take m ds) n = pool_at ds n.
Proof. intros Hn. unfold pool_at. by rewrite take_take, Nat.min_l. Qed.

Lemma add_all_union hs p : add_all hs p = p ∪ list_to_set hs.
Proof.
  unfold add_all. revert p. induction hs as [|h hs IH]; intros p; cbn; [set_solver|].
  rewrite IH. set_solver.
Qed.

Lemma delete_all_difference hs p : delete_all hs p = p ∖ list_to_set hs.
Proof.
  unfold delete_all. revert p. induction hs as [|h hs IH]; intros p; cbn; [set_solver|].
  rewrite IH. set_solver.
Qed.

Lemma diff_step_size p d :
  diff_valid p d →
  Z.of_nat (size (diff_step p d)) = Z.of_nat (size p) + zlen (dIn d) - zlen (dOut d).
Proof.
  intros (Hni & Hno & Hdis & Hsub). unfold diff_step.
  rewrite size_difference by done. rewrite size_union by done.
  pose proof (subseteq_size _ _ Hsub) as Hle. rewrite size_union in Hle by done.
  rewrite !size_list_to_set in * by done. unfold zlen. lia.
Qed.

(** Applying a diff backwards undoes it. *)
Lemma diff_step_undo p d :
  diff_valid p d →
  (diff_step p d ∪ list_to_set (dOut d)) ∖ list_to_set (dIn d) = p.
Proof.
  intros (_ & _ & Hdis & Hsub). unfold diff_step. apply set_eq. intros x.
  destruct (decide (x ∈ (list_to_set (dOut d) : gset Hash))); set_solver.
Qed.

(** ** The invariant *)
Section Invariant.
Context {DB : Type} `{BDB : Badger DB}.
Abbreviation TP := (TicketPool DB).

Record TP_ok (tp : TP) : Prop := {
  ok_tip : tip tp = zlen (diffs tp);
  ok_cursor : 0 <= cursor tp <= tip tp;
  ok_pool : pool tp = pool_at (diffs tp) (Z.to_nat (cursor tp));
  ok_chain : chain_valid (diffs tp)
}.

(** [tp] with the cursor, and the pool that belongs there, moved to [c]. *)
Definition at_cursor (c : Z) (tp : TP) : TP :=
  set_cursor c (set_pool (pool_at (diffs tp) (Z.to_nat c)) tp).

Lemma at_cursor_ok c tp : TP_ok tp → 0 <= c <= tip tp → TP_ok (at_cursor c tp).
Proof. intros [] Hc. by split. Qed.

Lemma at_cursor_id tp : TP_ok tp → at_cursor (cursor tp) tp = tp.
Proof. intros []. unfold at_cursor. rewrite <- ok_pool0. by destruct tp. Qed.

Lemma at_cursor_twice c c' tp : at_cursor c (at_cursor c' tp) = at_cursor c tp.
Proof. done. Qed.

Lemma slice_at_lookup {A} (l : list A) i x :
  slice_at l i = Some x → l !! Z.to_nat i = Some x.
Proof. unfold slice_at. by destruct (i <? 0). Qed.

Lemma advance_ok tp :
  TP_ok tp → cursor tp < tip tp → advance tp = (Ok (), at_cursor (cursor tp + 1) tp).
Proof.
  intros [Ht Hc Hp Hv] Hlt. unfold advance, gets, mbind, goM_bind. cbn.
  unfold maxCursor. destruct (Z.eqb_spec (tip tp) 0); [lia|].
  destruct (Z.ltb_spec (tip tp - 1) (cursor tp)); [lia|].
  destruct (slice_at_Some (diffs tp) (cursor tp)) as [d Hd]; [lia|]. rewrite Hd.
  apply slice_at_lookup in Hd. specialize (Hv _ _ Hd). cbn.
  assert (pool_at (diffs tp) (Z.to_nat (cursor tp + 1)) = diff_step (pool tp) d) as E.
  { rewrite Hp. replace (Z.to_nat (cursor tp + 1)) with (S (Z.to_nat (cursor tp))) by lia.
    by apply pool_at_S. }
  rewrite <- Hp in Hv. unfold at_cursor, applyDiff, poolSize. cbn.
  rewrite add_all_union, delete_all_difference, E. fold (diff_step (pool tp) d).
  rewrite diff_step_size, Z.eqb_refl by done. done.
Qed.

Lemma retreat_ok tp :
  TP_ok tp → 0 < cursor tp → retreat tp = (Ok (), at_cursor (cursor tp - 1) tp).
Proof.
  intros [Ht Hc Hp Hv] Hlt. unfold retreat, gets, mbind, goM_bind. cbn.
  destruct (Z.eqb_spec (cursor tp) 0); [lia|].
  destruct (slice_at_Some (diffs tp) (cursor tp - 1)) as [d Hd]; [lia|]. rewrite Hd.
  apply slice_at_lookup in Hd. specialize (Hv _ _ Hd). cbn.
  set (p := pool_at (diffs tp) (Z.to_nat (cursor tp - 1))) in *.
  assert (pool tp = diff_step p d) as Hp'.
  { rewrite Hp. replace (Z.to_nat (cursor tp)) with (S (Z.to_nat (cursor tp - 1))) by lia.
    by apply pool_at_S. }
  unfold at_cursor, applyDiff, poolSize. cbn.
  rewrite add_all_union, delete_all_difference, Hp', diff_step_undo, diff_step_size by done.
  replace (Z.of_nat (size p) + zlen (dIn d) - zlen (dOut d) - zlen (dIn d) + zlen (dOut d))
    with (Z.of_nat (size p)) by lia.
  by rewrite Z.eqb_refl.
Qed.

Lemma advance_loop_ok tp h :
  TP_ok tp → cursor tp <= h <= tip tp → advance_loop h tp = (Ok (), at_cursor h tp).
Proof.
  unfold advance_loop. remember (Z.to_nat (h - cursor tp)) as n eqn:Hn. revert tp Hn.
  induction n as [|n IH]; intros tp Hn Hok Hh; cbn [while].
  - destruct (Z.ltb_spec (cursor tp) h); [lia|].
    replace h with (cursor tp) by lia. by rewrite at_cursor_id.
  - destruct (Z.ltb_spec (cursor tp) h); [|lia].
    unfold mbind, goM_bind. rewrite advance_ok by (done || lia).
    rewrite IH; [done|cbn; lia|apply at_cursor_ok; [done|destruct Hok; lia]|cbn; lia].
Qed.

Lemma retreat_loop_ok tp h :
  TP_ok tp → 0 <= h <= cursor tp → retreat_loop h tp = (Ok (), at_cursor h tp).
Proof.
  unfold retreat_loop. remember (Z.to_nat (cursor tp - h)) as n eqn:Hn. revert tp Hn.
  induction n as [|n IH]; intros tp Hn Hok Hh; cbn [while].
  - destruct (Z.ltb_spec h (cursor tp)); [lia|].
    replace h with (cursor tp) by lia. by rewrite at_cursor_id.
  - destruct (Z.ltb_spec h (cursor tp)); [|lia].
    unfold mbind, goM_bind. rewrite retreat_ok by (done || lia).
    rewrite IH; [done|cbn; lia|apply at_cursor_ok; [done|destruct Hok; lia]|cbn; lia].
Qed.

(** The loop of [trim] runs after the tip was decremented; retreating does not
    look at the tip. *)
Lemma retreat_tip t (tp : TP) :
  retreat (set_tip t tp) = let '(r, tp') := retreat tp in (r, set_tip t tp').
Proof.
  unfold retreat, gets, mbind, goM_bind. cbn. destruct (cursor tp =? 0); [done|].
  destruct (slice_at _ _); [|done]. cbn. unfold poolSize. cbn. by destruct (_ =? _).
Qed.

Lemma retreat_loop_tip t (tp : TP) h :
  TP_ok tp → 0 <= h <= cursor tp →
  retreat_loop h (set_tip t tp) = (Ok (), set_tip t (at_cursor h tp)).
Proof.
  intros Hok Hh. pose proof (retreat_loop_ok tp h Hok Hh) as R. revert R.
  unfold retreat_loop. cbn [cursor set_tip].
  generalize (Z.to_nat (cursor tp - h)) (at_cursor h tp). intros n. clear Hok Hh.
  revert tp. induction n as [|n IH]; intros tp tp'; cbn [while cursor set_tip].
  - destruct (h <? cursor tp); [done|]. by intros [= ->].
  - destruct (h <? cursor tp); [|by intros [= ->]].
    unfold mbind, goM_bind. rewrite retreat_tip. destruct (retreat tp) as [[| | |] tp1]; try done.
    apply IH.
Qed.

(** ** Functional behaviour of the operations *)
Lemma Pool_spec tp h :
  TP_ok tp → 0 <= h <= tip tp →
  Pool h tp = (Ok (elements (pool_at (diffs tp) (Z.to_nat h))), at_cursor h tp).
Proof.
  intros Hok Hh. unfold Pool, gets, mbind, goM_bind. cbn.
  destruct (Z.ltb_spec (tip tp) h); [lia|].
  destruct (Z.le_gt_cases (cursor tp) h) as [Hle|Hgt].
  - rewrite advance_loop_ok by (done || lia).
    rewrite retreat_loop_ok by (cbn; (lia || by apply at_cursor_ok)). done.
  - assert (advance_loop h tp = (Ok (), tp)) as ->.
    { unfold advance_loop. replace (Z.to_nat (h - cursor tp)) with O by lia. cbn.
      destruct (Z.ltb_spec (cursor tp) h); [lia|done]. }
    rewrite retreat_loop_ok by (done || lia). done.
Qed.

Lemma AdvanceToTip_spec tp :
  TP_ok tp → AdvanceToTip tp = (tip tp, Ok (), at_cursor (tip tp) tp).
Proof.
  intros Hok. unfold AdvanceToTip, advanceTo, gets, mbind, goM_bind. cbn.
  rewrite Z.ltb_irrefl, advance_loop_ok by (destruct Hok; done || lia). done.
Qed.

Lemma chain_valid_take ds n : chain_valid ds → chain_valid (take n ds).
Proof.
  intros Hv i d Hi. assert (i < n)%nat as Hin.
  { apply lookup_lt_Some in Hi. rewrite length_take in Hi. lia. }
  rewrite lookup_take, decide_True in Hi by done.
  rewrite pool_at_take by lia. by apply Hv.
Qed.

Lemma chain_valid_snoc ds d :
  chain_valid ds → diff_valid (pool_at ds (length ds)) d → chain_valid (ds ++ [d]).
Proof.
  intros Hv Hd i e Hi. apply lookup_app_Some in Hi as [Hi|[Hlen Hi]].
  - rewrite pool_at_prefix by (apply lookup_lt_Some in Hi; lia). by apply Hv.
  - destruct (i - length ds)%nat eqn:Ei; [|done]. injection Hi as <-.
    replace i with (length ds) by lia. by rewrite pool_at_prefix.
Qed.

(** Where [trim] leaves the cursor. *)
Definition trim_cursor (tp : TP) : Z := Z.min (cursor tp) (Z.max 0 (tip tp - 2)).

Lemma trim_spec tp d :
  TP_ok tp → last (diffs tp) = Some d →
  trim tp = (Ok (tip tp - 1, d),
             set_diffs (take (length (diffs tp) - 1) (diffs tp))
               (set_tip (tip tp - 1) (at_cursor (trim_cursor tp) tp))).
Proof.
  intros Hok Hlast. pose proof (ok_tip _ Hok) as Ht. pose proof (ok_cursor _ Hok) as Hc.
  rewrite last_lookup in Hlast. apply lookup_lt_Some in Hlast as Hlen.
  unfold trim, zlen in *. destruct (Z.eqb_spec (tip tp) 0); [lia|].
  destruct (Z.eqb_spec (Z.of_nat (length (diffs tp))) 0); [lia|]. cbn [orb].
  unfold maxCursor. cbn [tip set_tip cursor].
  set (m := if tip tp - 1 =? 0 then 0 else tip tp - 1 - 1).
  assert (m = Z.max 0 (tip tp - 2)) as Hm by (unfold m; destruct (Z.eqb_spec (tip tp - 1) 0); lia).
  assert (slice_at (diffs tp) (Z.of_nat (length (diffs tp)) - 1) = Some d) as Hsl.
  { unfold slice_at. destruct (Z.ltb_spec (Z.of_nat (length (diffs tp)) - 1) 0); [lia|].
    rewrite <- Hlast. f_equal. lia. }
  assert ((if m <? cursor tp then retreatTo m (set_tip (tip tp - 1) tp) else (Ok (), set_tip (tip tp - 1) tp))
          = (Ok (), set_tip (tip tp - 1) (at_cursor (trim_cursor tp) tp))) as ->.
  { unfold trim_cursor. rewrite <- Hm. destruct (Z.ltb_spec m (cursor tp)).
    - rewrite Z.min_r by lia. unfold retreatTo, gets, mbind, goM_bind. cbn.
      destruct (Z.ltb_spec m 0), (Z.ltb_spec (tip tp - 1) m); try lia. cbn.
      apply retreat_loop_tip; (done || lia).
    - rewrite Z.min_l by lia. by rewrite at_cursor_id. }
  cbn. rewrite Hsl. done.
Qed.

(** ** Preservation *)
Lemma append_ok d tp :
  TP_ok tp → diff_valid (pool_at (diffs tp) (length (diffs tp))) d → TP_ok (append d tp).
Proof.
  intros [Ht Hc Hp Hv] Hd. unfold zlen in *. split; cbn.
  - rewrite zlen_app. unfold zlen. cbn. lia.
  - lia.
  - rewrite pool_at_prefix by lia. done.
  - by apply chain_valid_snoc.
Qed.

Lemma set_diffDB_ok db tp : TP_ok tp → TP_ok (set_diffDB db tp).
Proof. intros []. by split. Qed.

Lemma storeDiffTP_ok d h tp r tp' : TP_ok tp → storeDiffTP d h tp = (r, tp') → TP_ok tp'.
Proof.
  unfold storeDiffTP. intros Hok. destruct (storeDiff _ _ _); intros [= <- <-]; try done.
  by apply set_diffDB_ok.
Qed.

Lemma trim_empty tp : TP_ok tp → diffs tp = [] → trim tp = (Ok (tip tp, mkDiff [] []), tp).
Proof. intros [Ht _ _ _] E. unfold trim. rewrite Ht, E. done. Qed.

Lemma trim_ok tp r tp' : TP_ok tp → trim tp = (r, tp') → TP_ok tp'.
Proof.
  intros Hok. destruct (last (diffs tp)) as [d|] eqn:Hl.
  - rewrite (trim_spec tp d Hok Hl). intros [= <- <-]. rewrite last_lookup in Hl.
    apply lookup_lt_Some in Hl. destruct Hok as [Ht Hc Hp Hv]. unfold trim_cursor, zlen in *.
    split; cbn.
    + unfold zlen. rewrite length_take. lia.
    + lia.
    + rewrite pool_at_take by lia. done.
    + by apply chain_valid_take.
  - apply last_None in Hl. rewrite trim_empty by done. by intros [= <- <-].
Qed.

(** [Pool] outside the range of connected heights. *)
Lemma retreat_loop_negative tp h :
  TP_ok tp → h < 0 → retreat_loop h tp = (Err EAtGenesis, at_cursor 0 tp).
Proof.
  unfold retreat_loop. intros Hok Hh.
  assert (∃ k, Z.to_nat (cursor tp - h) = S (k + Z.to_nat (cursor tp)))%nat as [k ->].
  { exists (Z.to_nat (- h - 1)). destruct Hok. lia. }
  remember (Z.to_nat (cursor tp)) as n eqn:Hn. revert tp Hok Hn.
  induction n as [|n IH]; intros tp Hok Hn; cbn [while].
  - pose proof (ok_cursor _ Hok). replace (cursor tp) with 0 by lia.
    destruct (Z.ltb_spec h 0); [|lia]. unfold mbind, goM_bind.
    assert (retreat tp = (Err EAtGenesis, tp)) as ->.
    { unfold retreat, gets, mbind, goM_bind. cbn. replace (cursor tp) with 0 by lia. done. }
    replace 0 with (cursor tp) by lia. by rewrite at_cursor_id.
  - pose proof (ok_cursor _ Hok). destruct (Z.ltb_spec h (cursor tp)); [|lia].
    unfold mbind, goM_bind. rewrite retreat_ok by (done || lia).
    replace (k + S n)%nat with (S (k + n)) by lia.
    rewrite IH; [done|apply at_cursor_ok; [done|lia]|cbn; lia].
Qed.

Lemma Pool_too_high (tp : TP) h : tip tp < h → Pool h tp = (Err (ENotConnected h (tip tp)), tp).
Proof.
  intros Hh. unfold Pool, gets, mbind, goM_bind. cbn. by destruct (Z.ltb_spec (tip tp) h); [|lia].
Qed.

Lemma Pool_negative tp h :
  TP_ok tp → h < 0 → Pool h tp = (Err EAtGenesis, at_cursor 0 tp).
Proof.
  intros Hok Hh. pose proof (ok_cursor _ Hok). unfold Pool, gets, mbind, goM_bind. cbn.
  destruct (Z.ltb_spec (tip tp) h); [lia|].
  assert (advance_loop h tp = (Ok (), tp)) as ->.
  { unfold advance_loop. replace (Z.to_nat (h - cursor tp)) with O by lia. cbn.
    destruct (Z.ltb_spec (cursor tp) h); [lia|done]. }
  by rewrite retreat_loop_negative.
Qed.

Lemma Pool_ok tp h r tp' : TP_ok tp → Pool h tp = (r, tp') → TP_ok tp'.
Proof.
  intros Hok. destruct (Z.lt_ge_cases (tip tp) h).
  { rewrite Pool_too_high by done. by intros [= <- <-]. }
  destruct (Z.lt_ge_cases h 0).
  - rewrite Pool_negative by done. intros [= <- <-]. apply at_cursor_ok; [done|].
    destruct Hok. lia.
  - rewrite Pool_spec by (done || lia). intros [= <- <-]. apply at_cursor_ok; [done|lia].
Qed.

Lemma Append_ok d h tp r tp' :
  TP_ok tp → diff_valid (pool_at (diffs tp) (length (diffs tp))) d →
  Append d h tp = (r, tp') → TP_ok tp'.
Proof.
  intros Hok Hd. unfold Append, gets, modify, fail, mbind, goM_bind. cbn.
  destruct (h =? tip tp + 1); cbn; [|by intros [= <- <-]].
  apply storeDiffTP_ok. by apply append_ok.
Qed.

Lemma storeDiffTP_frame d h (tp : TP) r tp' :
  storeDiffTP d h tp = (r, tp') → tip tp' = tip tp ∧ cursor tp' = cursor tp ∧ diffs tp' = diffs tp.
Proof. unfold storeDiffTP. destruct (storeDiff _ _ _); by intros [= <- <-]. Qed.

Lemma AppendAndAdvancePool_ok d h tp r tp' :
  TP_ok tp → diff_valid (pool_at (diffs tp) (length (diffs tp))) d →
  AppendAndAdvancePool d h tp = (r, tp') → TP_ok tp'.
Proof.
  intros Hok Hd. unfold AppendAndAdvancePool, gets, modify, fail, mbind, goM_bind. cbn.
  destruct (h =? tip tp + 1); cbn; [|by intros [= <- <-]].
  pose proof (append_ok d tp Hok Hd) as Hap.
  destruct (storeDiffTP d h (append d tp)) as [r1 tp1] eqn:E1.
  pose proof (storeDiffTP_ok _ _ _ _ _ Hap E1) as Hok1.
  apply storeDiffTP_frame in E1 as (Et & Ec & _).
  destruct r1; try by intros [= <- <-].
  rewrite advance_ok; [|done|destruct Hok; rewrite Et, Ec; cbn; lia].
  intros [= <- <-]. apply at_cursor_ok; [done|]. destruct Hok. rewrite Et, Ec. cbn. lia.
Qed.

(** An [Append] at the right height appends in memory and then stores. *)
Lemma Append_next d (tp : TP) :
  Append d (tip tp + 1) tp = storeDiffTP d (tip tp + 1) (append d tp).
Proof. unfold Append, gets, modify, mbind, goM_bind. cbn. by rewrite Z.eqb_refl. Qed.

(** One call of an exported operation, with any outcome.  Diffs come from
    connected blocks: they are valid on the pool at the tip. *)
Inductive tp_step (tp : TP) : TP → Prop :=
| st_Append d h r tp' :
    diff_valid (pool_at (diffs tp) (length (diffs tp))) d →
    Append d h tp = (r, tp') → tp_step tp tp'
| st_AppendAndAdvancePool d h r tp' :
    diff_valid (pool_at (diffs tp) (length (diffs tp))) d →
    AppendAndAdvancePool d h tp = (r, tp') → tp_step tp tp'
| st_Trim r tp' : trim tp = (r, tp') → tp_step tp tp'
| st_Pool h r tp' : Pool h tp = (r, tp') → tp_step tp tp'
| st_AdvanceToTip c r tp' : AdvanceToTip tp = (c, r, tp') → tp_step tp tp'.

Lemma tp_step_ok tp tp' : TP_ok tp → tp_step tp tp' → TP_ok tp'.
Proof.
  intros Hok. inversion 1; subst.
  - by eapply Append_ok.
  - by eapply AppendAndAdvancePool_ok.
  - by eapply trim_ok.
  - by eapply Pool_ok.
  - rewrite AdvanceToTip_spec in * by done. simplify_eq.
    apply at_cursor_ok; [done|]. destruct Hok. lia.
Qed.

Lemma reach_ok tp tp' : TP_ok tp → rtc tp_step tp tp' → TP_ok tp'.
Proof. intros Hok. induction 1; eauto using tp_step_ok. Qed.

Lemma new_pool_ok (db : DB) : TP_ok (mkTP 0 0 [] ∅ db).
Proof. split; cbn; try done. Qed.
End Invariant.

#[export] Hint Resolve at_cursor_ok append_ok set_diffDB_ok trim_ok Pool_ok Append_ok
  AppendAndAdvancePool_ok new_pool_ok : tickets.

(** ** Main theorems *)
Section Theorems.
Context {DB : Type} `{BL : BadgerLaws DB}.
Abbreviation TP := (TicketPool DB).

(** C21: whatever sequence of Append, AppendAndAdvancePool, Trim, Pool and
    AdvanceToTip calls is made on a new ticket pool, with any outcome of each
    call, the tip is the number of diffs, the cursor stays between genesis and
    the tip, and the live ticket map is exactly the pool that the diffs below
    the cursor produce. *)
Theorem pool_matches_cursor (db : DB) (tp : TP) :
  rtc tp_step (mkTP 0 0 [] ∅ db) tp →
  tip tp = zlen (diffs tp) ∧ 0 <= cursor tp <= tip tp ∧
  pool tp = pool_at (diffs tp) (Z.to_nat (cursor tp)).
Proof.
  intros Hr. destruct (reach_ok _ _ (new_pool_ok db) Hr) as [? ? ? _]. done.
Qed.

(** Pool answers every height: a connected height gives exactly the
    tickets live at that height, without duplicates, wherever the cursor was,
    and leaves the cursor there; a height above the tip is refused with the
    pool unchanged; a negative height is refused with the pool at genesis.
    The loops always finish. *)
Theorem Pool_total (tp : TP) (h : Z) :
  TP_ok tp →
  (0 <= h <= tip tp →
     ∃ l, Pool h tp = (Ok l, at_cursor h tp) ∧ NoDup l ∧
          list_to_set l = pool_at (diffs tp) (Z.to_nat h)) ∧
  (tip tp < h → Pool h tp = (Err (ENotConnected h (tip tp)), tp)) ∧
  (h < 0 → Pool h tp = (Err EAtGenesis, at_cursor 0 tp)).
Proof.
  intros Hok. split; [|split].
  - intros Hh. eexists. split; [by apply Pool_spec|]. split; [apply NoDup_elements|].
    apply list_to_set_elements_L.
  - apply Pool_too_high.
  - by apply Pool_negative.
Qed.

(** Trim undoes Append: it returns the appended diff and the previous tip
    and diffs, and the pool is again the one at the (possibly moved) cursor. *)
Theorem Trim_undoes_Append (tp tp1 : TP) (d : PoolDiff) :
  TP_ok tp → diff_valid (pool_at (diffs tp) (length (diffs tp))) d →
  Append d (tip tp + 1) tp = (Ok (), tp1) →
  ∃ tp2, trim tp1 = (Ok (tip tp, d), tp2) ∧
    diffs tp2 = diffs tp ∧ tip tp2 = tip tp ∧ diffDB tp2 = diffDB tp1 ∧
    cursor tp2 = Z.min (cursor tp) (Z.max 0 (tip tp - 1)) ∧
    pool tp2 = pool_at (diffs tp) (Z.to_nat (cursor tp2)).
Proof.
  intros Hok Hd Hap. pose proof (Append_ok _ _ _ _ _ Hok Hd Hap) as Hok1.
  rewrite Append_next in Hap. apply storeDiffTP_frame in Hap as (Et & Ec & Ed).
  cbn in Et, Ec, Ed. pose proof (ok_cursor _ Hok) as Hc. pose proof (ok_tip _ Hok) as Ht.
  rewrite (trim_spec tp1 d Hok1) by (rewrite Ed; apply last_snoc).
  eexists. split; [by rewrite Et, Z.add_simpl_r|]. cbn. unfold trim_cursor.
  rewrite Et, Ec, Ed, length_app. cbn [length]. rewrite Nat.add_sub, take_app_length.
  unfold zlen in Ht. split; [done|]. split; [lia|]. split; [done|]. split; [f_equal; lia|].
  apply pool_at_prefix. lia.
Qed.

(** After a successful Append, reopening the database gives back every
    diff in memory, in order, followed only by the diffs of blocks that were
    disconnected earlier and are still stored ([ds] is what the store held). *)
Theorem reopen_after_Append (tp tp1 : TP) (d : PoolDiff) (ds : list PoolDiff) :
  TP_ok tp → db_holds (diffDB tp) ds → diffs tp `prefix_of` ds →
  Forall diff_fits ds → diff_fits d → zlen ds + 2 < 2 ^ 64 →
  Append d (tip tp + 1) tp = (Ok (), tp1) →
  openTicketPool (diffDB tp1) =
    Ok (mkTP 0 (zlen (diffs tp1 ++ drop (length (diffs tp1)) ds))
          (diffs tp1 ++ drop (length (diffs tp1)) ds) ∅ (diffDB tp1)).
Proof.
  intros Hok Hdb [ds' Hpre] Hds Hd Hlen Hap. pose proof (ok_tip _ Hok) as Ht.
  rewrite Append_next in Hap. unfold storeDiffTP in Hap. cbn in Hap.
  destruct (storeDiff _ _ _) as [db'| | |] eqn:Est; try done. injection Hap as <-. cbn.
  assert (length (diffs tp) <= length ds)%nat as Hle by (rewrite Hpre, length_app; lia).
  unfold zlen in Ht, Hlen. unfold u64 in Est. rewrite wrap_u_small in Est by lia.
  rewrite Ht in Est. pose proof (storeDiff_holds _ ds d (length (diffs tp)) db' Hdb Hd Hle) as Hst.
  unfold zlen in Hst. specialize (Hst ltac:(lia) Est).
  rewrite Hpre, take_app_length, <- Hpre in Hst.
  unfold openTicketPool. rewrite (load_db_holds db' _ Hst).
  - rewrite length_app. cbn [length]. rewrite <- !app_assoc. cbn [app].
    replace (length (diffs tp) + 1)%nat with (S (length (diffs tp))) by lia. done.
  - unfold zlen. rewrite length_app. cbn [length]. rewrite length_drop. lia.
  - apply Forall_app. split; [by rewrite Hpre in Hds; apply Forall_app in Hds as [? _]|].
    constructor; [done|]. by apply Forall_drop.
Qed.

(** An Append whose store write fails returns the error but has already
    advanced the tip in memory; if the next Append then succeeds, the stored
    heights have a gap and reopening the database panics. *)
Theorem Append_store_failure_breaks_reopen (tp : TP) (d1 d2 : PoolDiff) tp1 tp2 :
  TP_ok tp → db_holds (diffDB tp) (diffs tp) → Forall diff_fits (diffs tp) →
  diff_fits d1 → diff_fits d2 → tip tp + 3 < 2 ^ 64 →
  Append d1 (tip tp + 1) tp = (Err (EDiffDB EStore), tp1) →
  Append d2 (tip tp1 + 1) tp1 = (Ok (), tp2) →
  tip tp1 = tip tp + 1 ∧ openTicketPool (diffDB tp2) = Panic.
Proof.
  intros Hok Hdb Hds Hd1 Hd2 Hlen Ha1 Ha2. pose proof (ok_tip _ Hok) as Ht.
  pose proof (zlen_nonneg (diffs tp)).
  assert (tp1 = append d1 tp) as ->.
  { rewrite Append_next in Ha1. unfold storeDiffTP in Ha1.
    by destruct (storeDiff _ _ _); simplify_eq. }
  split; [done|]. rewrite Append_next in Ha2. unfold storeDiffTP, storeDiff in Ha2. cbn in Ha2.
  rewrite encodeDiff_enc in Ha2 by done.
  destruct (bdg_set _ _ (enc d2) _) as [db2|] eqn:Eset; [|done]. injection Ha2 as <-. cbn.
  unfold u64 in Eset. rewrite wrap_u_small in Eset by lia.
  replace (tip tp + 1 + 1) with (zlen (diffs tp) + 2) in Eset by lia.
  unfold openTicketPool, loadAllPoolDiffsV1.
  by rewrite (loadV1_gap (diffDB tp) db2 (diffs tp) d2) by (done || lia).
Qed.
End Theorems.

(** ** Witnesses: a pool over the in-memory store *)
#[global] Instance diff_valid_dec p d : Decision (diff_valid p d).
Proof. unfold diff_valid. apply _. Defined.
#[global] Instance is_hash_dec h : Decision (is_hash h).
Proof. unfold is_hash, is_byte. apply _. Defined.
#[global] Instance diff_fits_dec d : Decision (diff_fits d).
Proof. unfold diff_fits, diff_ok. apply _. Defined.

Module Witness.
Import MapStore.

(** Three tickets; the first block adds two, the second swaps one. *)
Definition h1 : Hash := replicate 32 1.
Definition h2 : Hash := replicate 32 2.
Definition h3 : Hash := replicate 32 3.
Definition d1 : PoolDiff := mkDiff [h1; h2] [].
Definition d2 : PoolDiff := mkDiff [h3] [h1].

Definition tp0 : TicketPool store := mkTP 0 0 [] ∅ ∅.
Definition tp1 : TicketPool store := snd (Append d1 1 tp0).
Definition tp2 : TicketPool store := snd (AppendAndAdvancePool d2 2 tp1).

Lemma run : rtc tp_step tp0 tp2.
Proof.
  apply (rtc_l _ tp0 tp1).
  { apply (st_Append _ d1 1 (Ok ())); [apply (bool_decide_unpack _); vm_compute; exact I|].
    vm_compute. reflexivity. }
  apply rtc_once. apply (st_AppendAndAdvancePool _ d2 2 (Ok ())).
  - apply (bool_decide_unpack _). vm_compute. exact I.
  - vm_compute. reflexivity.
Defined.

Lemma tp2_ok : TP_ok tp2.
Proof. apply (reach_ok tp0 tp2); [apply new_pool_ok|apply run]. Qed.

Lemma empty_holds : db_holds (∅ : store) [].
Proof. intros k v m _. cbn. rewrite lookup_empty. split; [done|]. by intros ?%not_elem_of_nil. Qed.

Lemma pool_matches_cursor_witness : cursor tp2 = 1 ∧ tip tp2 = zlen (diffs tp2).
Proof.
  split; [vm_compute; reflexivity|].
  exact (proj1 (pool_matches_cursor (∅ : store) tp2 run)).
Defined.

Lemma Pool_total_witness : ∃ l, Pool 2 tp2 = (Ok l, at_cursor 2 tp2) ∧ NoDup l ∧
  list_to_set l = pool_at (diffs tp2) (Z.to_nat 2).
Proof.
  apply (proj1 (Pool_total tp2 2 tp2_ok)). split; vm_compute; discriminate.
Defined.

Lemma Trim_undoes_Append_witness : ∃ tp', trim tp1 = (Ok (0, d1), tp') ∧ diffs tp' = [].
Proof.
  destruct (Trim_undoes_Append tp0 tp1 d1) as (tp' & E & Ed & _).
  - apply new_pool_ok.
  - apply (bool_decide_unpack _). vm_compute. exact I.
  - vm_compute. reflexivity.
  - exists tp'. split; [exact E|exact Ed].
Defined.

Lemma reopen_after_Append_witness :
  openTicketPool (diffDB tp1) = Ok (mkTP 0 1 [d1] ∅ (diffDB tp1)).
Proof.
  apply (reopen_after_Append tp0 tp1 d1 []).
  - apply new_pool_ok.
  - apply empty_holds.
  - exists []. reflexivity.
  - constructor.
  - apply (bool_decide_unpack _). vm_compute. exact I.
  - vm_compute. reflexivity.
  - vm_compute. reflexivity.
Defined.
End Witness.

(** A store whose write of height 1 fails. *)
Module FlakyWitness.
Import MapStore.
Record flaky := Flaky { inner : store }.

#[export] Instance flaky_store : Badger flaky := {|
  bdg_get d k := inner d !! k;
  bdg_set d k v m :=
    if decide (k = uint64Bytes 1) then None else Some (Flaky (<[k := (v, m)]> (inner d)));
  bdg_items d := bdg_items (inner d)
|}.

#[export] Instance flaky_laws : BadgerLaws flaky.
Proof.
  split.
  - intros d k v m d' k' E. cbn in E. case_decide; [done|]. injection E as <-.
    cbn. by rewrite lookup_insert.
  - intros d k x. exact (bdg_items_get (inner d) k x).
  - intros d. exact (bdg_items_sorted (inner d)).
Qed.

Definition tp0 : TicketPool flaky := mkTP 0 0 [] ∅ (Flaky ∅).
Definition tp1 : TicketPool flaky := snd (Append Witness.d1 1 tp0).
Definition tp2 : TicketPool flaky := snd (Append Witness.d2 2 tp1).

Lemma Append_store_failure_witness :
  tip tp1 = 1 ∧ openTicketPool (diffDB tp2) = Panic.
Proof.
  apply (Append_store_failure_breaks_reopen tp0 Witness.d1 Witness.d2 tp1 tp2).
  - apply new_pool_ok.
  - intros k v m _. cbn. rewrite lookup_empty. split; [done|]. by intros ?%not_elem_of_nil.
  - constructor.
  - apply (bool_decide_unpack _). vm_compute. exact I.
  - apply (bool_decide_unpack _). vm_compute. exact I.
  - vm_compute. reflexivity.
  - vm_compute. reflexivity.
  - vm_compute. reflexivity.
Defined.
End FlakyWitness.
