(* ===== verification/AddressRows.v ===== *)
(** * Address table rows (db/dbtypes/types.go)

    The three row types, their conversions, the selection of a page of rows
    by view ([Slice*]), and the merging of rows by transaction hash
    ([MergeRows] and its variants).  A Go slice that may be nil is an
    [option (list A)] with [None] for nil.  The merged rows are heap objects
    reached both from the result slice and from a hash map: the map holds the
    index of the object in the slice. *)
From S2P Require Import Prelude.
Open Scope Z_scope.

(** ** Data *)
(** [TimeDef] wraps a [time.Time]: an instant and whether its location is UTC. *)
Record TimeDef := mkTime { tSec : Z; tNsec : Z; tUTC : bool }.

Definition UNIX (t : TimeDef) : Z := tSec t.
Definition NewTimeDefFromUNIX (t : Z) : TimeDef := mkTime t 0 true.

Record AddressRow := mkRow {
  Address : string;
  ValidMainChain : bool;
  MatchingTxHash : option Hash;
  IsFunding : bool;
  TxBlockTime : TimeDef;
  TxHash : Hash;
  TxVinVoutIndex : Z;   (* uint32 *)
  Value : Z;            (* uint64 *)
  VinVoutDbID : Z;      (* uint64 *)
  MergedCount : Z;      (* uint64 *)
  TxType : Z;           (* int16 *)
  AtomsCredit : Z;      (* uint64 *)
  AtomsDebit : Z;       (* uint64 *)
  CoinType : Z;         (* uint8 *)
  SKAValue : string
}.

Record AddressRowCompact := mkCompact {
  c_Address : string;
  c_TxBlockTime : Z;    (* int64 *)
  c_TxHash : Hash;
  c_MatchingTxHash : option Hash;
  c_TxVinVoutIndex : Z;
  c_TxType : Z;
  c_ValidMainChain : bool;
  c_IsFunding : bool;
  c_Value : Z;
  c_CoinType : Z;
  c_SKAValue : string
}.

Record AddressRowMerged := mkMerged {
  m_Address : string;
  m_TxBlockTime : Z;
  m_TxHash : Hash;
  m_AtomsCredit : Z;              (* uint64 *)
  m_AtomsDebit : Z;               (* uint64 *)
  m_SKAAtomsCredit : option Z;    (* *big.Int, may be nil *)
  m_SKAAtomsDebit : option Z;
  m_MergedCount : Z;              (* int32 *)
  m_TxType : Z;
  m_ValidMainChain : bool;
  m_CoinType : Z
}.

#[global] Instance TimeDef_eq_dec : EqDecision TimeDef.
Proof. solve_decision. Defined.
#[global] Instance AddressRow_eq_dec : EqDecision AddressRow.
Proof. solve_decision. Defined.
#[global] Instance AddressRowCompact_eq_dec : EqDecision AddressRowCompact.
Proof. solve_decision. Defined.
#[global] Instance AddressRowMerged_eq_dec : EqDecision AddressRowMerged.
Proof. solve_decision. Defined.

(** The recognized AddrTxnViewType values; any other integer is invalid. *)
Inductive AddrTxnViewType :=
| AddrTxnAll
| AddrTxnCredit
| AddrTxnDebit
| AddrMergedTxnDebit
| AddrMergedTxnCredit
| AddrMergedTxn
| AddrUnspentTxn
| AddrTxnUnknown
| AddrTxnOther (n : Z).

#[global] Instance AddrTxnViewType_eq_dec : EqDecision AddrTxnViewType.
Proof. solve_decision. Defined.

(** [None] is the non-nil error. *)
Definition IsMergedView (a : AddrTxnViewType) : option bool :=
  match a with
  | AddrTxnAll | AddrTxnCredit | AddrTxnDebit | AddrUnspentTxn => Some false
  | AddrMergedTxn | AddrMergedTxnCredit | AddrMergedTxnDebit => Some true
  | _ => None
  end.

Inductive RowErr :=
| EInvalidRange (offset N : Z)
| EMergedInput
| ENonMergedView
| EUnrecognizedView.

#[global] Instance RowErr_eq_dec : EqDecision RowErr.
Proof. solve_decision. Defined.

Definition IsZero (h : option Hash) : bool :=
  match h with None => true | Some h => bool_decide (h = zeroHash) end.

Definition IsMerged (ar : AddressRow) : bool := 0 <? MergedCount ar.

(** ** Accumulating into a merged row *)
Definition BigAddSKA (acc : Z) (s : string) : Z :=
  if bool_decide (s = "") || bool_decide (s = "0") then acc
  else match SetString10 s with Some v => acc + v | None => acc end.

Definition add (coinType : Z) (isFunding : bool) (value : Z) (skaValue : string)
    (arm : AddressRowMerged) : AddressRowMerged :=
  let cr := m_AtomsCredit arm in let db := m_AtomsDebit arm in
  let scr := m_SKAAtomsCredit arm in let sdb := m_SKAAtomsDebit arm in
  let put cr db scr sdb :=
    mkMerged (m_Address arm) (m_TxBlockTime arm) (m_TxHash arm) cr db scr sdb
      (m_MergedCount arm) (m_TxType arm) (m_ValidMainChain arm) coinType in
  if coinType =? 0 then
    if isFunding then put (u64 (cr + value)) db scr sdb
    else put cr (u64 (db + value)) scr sdb
  else
    if isFunding then put cr db (Some (BigAddSKA (default 0 scr) skaValue)) sdb
    else put cr db scr (Some (BigAddSKA (default 0 sdb) skaValue)).

Definition skaNet (arm : AddressRowMerged) : Z :=
  default 0 (m_SKAAtomsCredit arm) - default 0 (m_SKAAtomsDebit arm).

Definition m_IsFunding (arm : AddressRowMerged) : bool :=
  if negb (m_CoinType arm =? 0) then 0 <? skaNet arm
  else m_AtomsDebit arm <? m_AtomsCredit arm.

Definition m_Value (arm : AddressRowMerged) : Z :=
  if m_AtomsDebit arm <? m_AtomsCredit arm
  then u64 (m_AtomsCredit arm - m_AtomsDebit arm)
  else u64 (m_AtomsDebit arm - m_AtomsCredit arm).

Definition SKAValueStr (arm : AddressRowMerged) : string :=
  if m_CoinType arm =? 0 then "" else bigString (Z.abs (skaNet arm)).

(** ** Counting *)
(** [CountCreditDebitRows] and [CountCreditDebitRowsCompact], over the field
    that says whether the row is funding. *)
Definition CountCreditDebit {A} (funding : A → bool) (rows : list A) : Z * Z :=
  foldl (λ '(c, d) r, if funding r then (c + 1, d) else (c, d + 1)) (0, 0) rows.

Definition CountUnspent {A} (unspent : A → bool) (rows : list A) : Z :=
  foldl (λ c r, if unspent r then c + 1 else c) 0 rows.

Definition CountCreditDebitRows (rows : list AddressRow) : Z * Z :=
  CountCreditDebit IsFunding rows.
Definition CountUnspentCreditRows (rows : list AddressRow) : Z :=
  CountUnspent (λ r, IsFunding r && bool_decide (MatchingTxHash r = None)) rows.

(** ** Selecting a page *)
(** The loop shared by the credit, debit and unspent selections: skip rows
    that are not kept, then [offset] kept rows, and append until [N]. *)
Fixpoint pick_loop {A} (keep : A → bool) (N offset skipped : Z) (out rows : list A) : list A :=
  match rows with
  | [] => out
  | row :: rest =>
    if negb (keep row) then pick_loop keep N offset skipped out rest
    else if skipped <? offset then pick_loop keep N offset (skipped + 1) out rest
    else
      let out' := out ++ [row] in
      if zlen out' =? N then out' else pick_loop keep N offset skipped out' rest
  end.

(** [make([]T, 0, N)] for a pointer type panics when [N] is out of range. *)
Definition cap_ok (N : Z) : bool := (0 <=? N) && (8 * N <=? 2 ^ 48).

(** The body around the loop.  [num] is the number of matching rows that was
    counted beforehand; [nil_past] tells whether the function returns nil when
    the offset is past them. *)
Definition slice_matching {A} (num : list A → Z) (keep : A → bool) (nil_past : bool)
    (rows : option (list A)) (N offset : Z) : res RowErr (option (list A)) :=
  match rows with
  | None => Ok None
  | Some rs =>
    if zlen rs <=? offset then Ok (Some []) else
    let n := num rs in
    let N := if n <? N then n else N in
    if nil_past && (n <=? offset) then Ok None else
    if cap_ok N then Ok (Some (pick_loop keep N offset 0 [] rs)) else Panic
  end.

Definition SliceAddressCreditRows : option (list AddressRow) → Z → Z → res RowErr (option (list AddressRow)) :=
  slice_matching (λ rs, fst (CountCreditDebitRows rs)) IsFunding true.
Definition SliceAddressDebitRows : option (list AddressRow) → Z → Z → res RowErr (option (list AddressRow)) :=
  slice_matching (λ rs, snd (CountCreditDebitRows rs)) (λ r, negb (IsFunding r)) true.
(** The rows are counted with the unspent test but kept on [IsFunding] only. *)
Definition SliceAddressUnspentCreditRows : option (list AddressRow) → Z → Z → res RowErr (option (list AddressRow)) :=
  slice_matching CountUnspentCreditRows IsFunding true.

(** [SliceAddressRowsAll], and [addressRows] of the address cache, which is
    the same code on compact rows.  [offset + N] is a 64-bit addition. *)
Definition slice_all {A} (rows : option (list A)) (N offset : Z) : res RowErr (option (list A)) :=
  match rows with
  | None => Ok None
  | Some rs =>
    let numRows := zlen rs in
    if numRows <=? offset then Ok (Some []) else
    let e := i64 (offset + N) in
    let e := if numRows <? e then numRows else e in
    if offset <? e then
      if offset <? 0 then Panic
      else Ok (Some (take (Z.to_nat (e - offset)) (drop (Z.to_nat offset) rs)))
    else Ok (Some [])
  end.
Definition SliceAddressRowsAll (rows : option (list AddressRow)) (N offset : Z) :=
  slice_all rows N offset.

(** ** Merging *)
(** What merging reads of a non-merged row; both row types provide it. *)
Class TxRow (A : Type) := {
  r_Address : A → string;
  r_Unix : A → Z;
  r_TxHash : A → Hash;
  r_TxType : A → Z;
  r_ValidMainChain : A → bool;
  r_CoinType : A → Z;
  r_IsFunding : A → bool;
  r_Value : A → Z;
  r_SKAValue : A → string;
  (** the row is already merged (only [AddressRow] can be) *)
  r_Merged : A → bool
}.

#[global] Instance AddressRow_TxRow : TxRow AddressRow := {|
  r_Address := Address; r_Unix r := UNIX (TxBlockTime r); r_TxHash := TxHash;
  r_TxType := TxType; r_ValidMainChain := ValidMainChain; r_CoinType := CoinType;
  r_IsFunding := IsFunding; r_Value := Value; r_SKAValue := SKAValue;
  r_Merged r := negb (MergedCount r =? 0)
|}.

#[global] Instance AddressRowCompact_TxRow : TxRow AddressRowCompact := {|
  r_Address := c_Address; r_Unix := c_TxBlockTime; r_TxHash := c_TxHash;
  r_TxType := c_TxType; r_ValidMainChain := c_ValidMainChain; r_CoinType := c_CoinType;
  r_IsFunding := c_IsFunding; r_Value := c_Value; r_SKAValue := c_SKAValue;
  r_Merged _ := false
|}.

Section Merge.
Context {A : Type} `{TxRow A}.

Definition addRow (r : A) (arm : AddressRowMerged) : AddressRowMerged :=
  add (r_CoinType r) (r_IsFunding r) (r_Value r) (r_SKAValue r) arm.

(** A new merged row, started with MergedCount = 1. *)
Definition newMerged (r : A) : AddressRowMerged :=
  addRow r (mkMerged (r_Address r) (r_Unix r) (r_TxHash r) 0 0 None None 1
              (r_TxType r) (r_ValidMainChain r) 0).

(** [row.MergedCount++; row.add(...)]. *)
Definition updateMerged (r : A) (arm : AddressRowMerged) : AddressRowMerged :=
  addRow r (mkMerged (m_Address arm) (m_TxBlockTime arm) (m_TxHash arm)
              (m_AtomsCredit arm) (m_AtomsDebit arm) (m_SKAAtomsCredit arm)
              (m_SKAAtomsDebit arm) (i32 (m_MergedCount arm + 1)) (m_TxType arm)
              (m_ValidMainChain arm) (m_CoinType arm)).

(** [hashMap] maps a hash to the position of its row in [mergedRows]. *)
Record mergeState := mkMS { hashMap : gmap Hash nat; mergedRows : list AddressRowMerged }.

Definition merge_new (r : A) (st : mergeState) : mergeState :=
  mkMS (<[ r_TxHash r := length (mergedRows st) ]> (hashMap st))
       (mergedRows st ++ [newMerged r]).
Definition merge_update (i : nat) (r : A) (st : mergeState) : mergeState :=
  mkMS (hashMap st) (alter (updateMerged r) i (mergedRows st)).

Fixpoint MergeRows_loop (rows : list A) (st : mergeState) : res RowErr mergeState :=
  match rows with
  | [] => Ok st
  | r :: rest =>
    if r_Merged r then Err EMergedInput else
    match hashMap st !! r_TxHash r with
    | None => MergeRows_loop rest (merge_new r st)
    | Some i => MergeRows_loop rest (merge_update i r st)
    end
  end.

(** [MergeRows] on [AddressRow] and [MergeRowsCompact] on [AddressRowCompact]. *)
Definition MergeRows (rows : list A) : res RowErr (list AddressRowMerged) :=
  match MergeRows_loop rows (mkMS ∅ []) with
  | Ok st => Ok (mergedRows st)
  | Err e => Err e
  | Panic => Panic
  | NoFuel => NoFuel
  end.

(** [wrongDirection] for a merged view; [None] for any other view. *)
Definition wrongDirection (txnView : AddrTxnViewType) : option (bool → bool) :=
  match txnView with
  | AddrMergedTxn => Some (λ _, false)
  | AddrMergedTxnCredit => Some (λ funding, negb funding)
  | AddrMergedTxnDebit => Some (λ funding, funding)
  | _ => None
  end.

(** [CountMergedRows] and [CountMergedRowsCompact]. *)
Fixpoint CountMerged_loop (wrong : bool → bool) (rows : list A)
    (numMerged : Z) (merged : gset Hash) : res RowErr Z :=
  match rows with
  | [] => Ok numMerged
  | r :: rest =>
    if r_Merged r then Err EMergedInput
    else if wrong (r_IsFunding r) then CountMerged_loop wrong rest numMerged merged
    else if decide (r_TxHash r ∈ merged) then CountMerged_loop wrong rest numMerged merged
    else CountMerged_loop wrong rest (numMerged + 1) ({[ r_TxHash r ]} ∪ merged)
  end.

Definition CountMergedRows (rows : list A) (txnView : AddrTxnViewType) : res RowErr Z :=
  match wrongDirection txnView with
  | None => Err ENonMergedView
  | Some wrong => CountMerged_loop wrong rows 0 ∅
  end.

(** The loop of [MergeRowsRange] and [MergeRowsCompactRange]. *)
Fixpoint MergeRowsRange_loop (wrong : bool → bool) (N offset : Z) (rows : list A)
    (skipped : Z) (seen : gset Hash) (st : mergeState) : res RowErr mergeState :=
  match rows with
  | [] => Ok st
  | r :: rest =>
    if wrong (r_IsFunding r) then MergeRowsRange_loop wrong N offset rest skipped seen st
    else if r_Merged r then Err EMergedInput
    else
    match hashMap st !! r_TxHash r with
    | None =>
      if zlen (mergedRows st) =? N then MergeRowsRange_loop wrong N offset rest skipped seen st
      else if skipped <? offset then
        if decide (r_TxHash r ∈ seen)
        then MergeRowsRange_loop wrong N offset rest skipped seen st
        else MergeRowsRange_loop wrong N offset rest (skipped + 1) ({[ r_TxHash r ]} ∪ seen) st
      else MergeRowsRange_loop wrong N offset rest skipped seen (merge_new r st)
    | Some i => MergeRowsRange_loop wrong N offset rest skipped seen (merge_update i r st)
    end
  end.

(** The body after the argument checks. *)
Definition MergeRowsRange_body (wrong : bool → bool) (rows : list A) (N offset : Z)
    : res RowErr (list AddressRowMerged) :=
  if (N =? 0) || (zlen rows =? 0) then Ok [] else
  if negb (cap_ok N) then Panic else
  match MergeRowsRange_loop wrong N offset rows 0 ∅ (mkMS ∅ []) with
  | Ok st => Ok (mergedRows st)
  | Err e => Err e
  | Panic => Panic
  | NoFuel => NoFuel
  end.

Definition MergeRowsRange (rows : list A) (N offset : Z) (txnView : AddrTxnViewType)
    : res RowErr (list AddressRowMerged) :=
  if (offset <? 0) || (N <? 0) then Err (EInvalidRange N offset) else
  match wrongDirection txnView with
  | None => Err EUnrecognizedView
  | Some wrong => MergeRowsRange_body wrong rows N offset
  end.
End Merge.
Arguments mergeState : clear implicits.

(** [MergeRowsCompactRange] returns nil where [MergeRowsRange] returns an
    argument error; a compact row is never merged already, so there is no
    other error. *)
Definition MergeRowsCompactRange (rows : list AddressRowCompact) (N offset : Z)
    (txnView : AddrTxnViewType) : res RowErr (option (list AddressRowMerged)) :=
  if (offset <? 0) || (N <? 0) then Ok None else
  match wrongDirection txnView with
  | None => Ok None
  | Some wrong =>
    match MergeRowsRange_body wrong rows N offset with
    | Ok l => Ok (Some l)
    | Err e => Err e
    | Panic => Panic
    | NoFuel => NoFuel
    end
  end.

(** ** Conversions *)
Definition CompactRow (r : AddressRow) : AddressRowCompact :=
  {| c_Address := Address r; c_TxBlockTime := UNIX (TxBlockTime r);
     c_MatchingTxHash := MatchingTxHash r; c_TxHash := TxHash r;
     c_TxVinVoutIndex := TxVinVoutIndex r; c_TxType := TxType r;
     c_ValidMainChain := ValidMainChain r; c_IsFunding := IsFunding r;
     c_Value := Value r; c_CoinType := CoinType r; c_SKAValue := SKAValue r |}.
Definition CompactRows (rows : list AddressRow) : list AddressRowCompact :=
  CompactRow <$> rows.

Definition UncompactRow (r : AddressRowCompact) : AddressRow :=
  {| Address := c_Address r; ValidMainChain := c_ValidMainChain r;
     MatchingTxHash := c_MatchingTxHash r; IsFunding := c_IsFunding r;
     TxBlockTime := NewTimeDefFromUNIX (c_TxBlockTime r); TxHash := c_TxHash r;
     TxVinVoutIndex := c_TxVinVoutIndex r; Value := c_Value r; CoinType := c_CoinType r;
     SKAValue := c_SKAValue r; TxType := c_TxType r;
     VinVoutDbID := 0; MergedCount := 0; AtomsCredit := 0; AtomsDebit := 0 |}.
Definition UncompactRows (compact : option (list AddressRowCompact)) : option (list AddressRow) :=
  (λ rows : list AddressRowCompact, UncompactRow <$> rows) <$> compact.

Definition UncompactMergedRow (r : AddressRowMerged) : AddressRow :=
  {| Address := m_Address r; ValidMainChain := m_ValidMainChain r;
     MatchingTxHash := None; IsFunding := m_IsFunding r;
     TxBlockTime := NewTimeDefFromUNIX (m_TxBlockTime r); TxHash := m_TxHash r;
     TxVinVoutIndex := 0; Value := m_Value r; VinVoutDbID := 0;
     MergedCount := u64 (m_MergedCount r); TxType := m_TxType r;
     CoinType := m_CoinType r; SKAValue := SKAValueStr r;
     AtomsCredit := 0; AtomsDebit := 0 |}.
Definition UncompactMergedRows (merged : option (list AddressRowMerged)) : option (list AddressRow) :=
  (λ rows : list AddressRowMerged, UncompactMergedRow <$> rows) <$> merged.

(** ** [SliceAddressRows] *)
Definition SliceAddressRows (rows : option (list AddressRow)) (N offset : Z)
    (txnView : AddrTxnViewType) : res RowErr (option (list AddressRow)) :=
  if (offset <? 0) || (N <? 0) then Err (EInvalidRange offset N) else
  let numRows := zlen (default [] rows) in
  if (N =? 0) || (numRows =? 0) || (numRows <=? offset) then Ok (Some []) else
  match txnView with
  | AddrTxnAll => SliceAddressRowsAll rows N offset
  | AddrTxnCredit => SliceAddressCreditRows rows N offset
  | AddrTxnDebit => SliceAddressDebitRows rows N offset
  | AddrMergedTxn | AddrMergedTxnCredit | AddrMergedTxnDebit =>
    match MergeRowsRange (default [] rows) N offset txnView with
    | Ok mergedRows => Ok (UncompactMergedRows (Some mergedRows))
    | Err e => Err e
    | Panic => Panic
    | NoFuel => NoFuel
    end
  | AddrUnspentTxn => SliceAddressUnspentCreditRows rows N offset
  | _ => Err EUnrecognizedView
  end.

(** ** Paging: the loops compute filter, drop and take *)
Lemma pick_loop_spec {A} (keep : A → bool) N offset skipped (out rows : list A) :
  zlen out < N →
  pick_loop keep N offset skipped out rows =
  out ++ take (Z.to_nat (N - zlen out))
           (drop (Z.to_nat (offset - skipped)) (List.filter keep rows)).
Proof.
  revert skipped out. induction rows as [|r rows IH]; intros sk out Hout; cbn.
  { by rewrite drop_nil, take_nil, app_nil_r. }
  destruct (keep r); cbn [negb]; [|by apply IH].
  destruct (Z.ltb_spec sk offset).
  - rewrite IH by done. replace (Z.to_nat (offset - sk)) with (S (Z.to_nat (offset - (sk + 1)))) by lia.
    done.
  - replace (Z.to_nat (offset - sk)) with O by lia. rewrite drop_0, zlen_app.
    replace (Z.to_nat (N - zlen out)) with (S (Z.to_nat (N - zlen out - 1))) by lia.
    change (zlen [r]) with 1. cbn [take].
    destruct (Z.eqb_spec (zlen out + 1) N).
    + replace (Z.to_nat (N - zlen out - 1)) with O by lia. by rewrite take_0.
    + rewrite IH by (rewrite zlen_app; change (zlen [r]) with 1; lia).
      replace (Z.to_nat (offset - sk)) with O by lia. rewrite drop_0, <- app_assoc, zlen_app.
      change (zlen [r]) with 1. cbn. do 3 f_equal. lia.
Qed.

Lemma CountCreditDebit_filter {A} (f : A → bool) rows :
  CountCreditDebit f rows =
  (zlen (List.filter f rows), zlen (List.filter (λ r, negb (f r)) rows)).
Proof.
  unfold CountCreditDebit. assert (∀ c d,
    foldl (λ '(c, d) r, if f r then (c + 1, d) else (c, d + 1)) (c, d) rows =
    (c + zlen (List.filter f rows), d + zlen (List.filter (λ r, negb (f r)) rows))) as E.
  { induction rows as [|r rows IH]; intros c d; cbn.
    - unfold zlen. cbn. f_equal; lia.
    - destruct (f r); cbn; rewrite IH; unfold zlen; cbn [length]; f_equal; lia. }
  by rewrite E.
Qed.

Lemma CountUnspent_filter {A} (f : A → bool) rows :
  CountUnspent f rows = zlen (List.filter f rows).
Proof.
  unfold CountUnspent. assert (∀ c,
    foldl (λ c r, if f r then c + 1 else c) c rows = c + zlen (List.filter f rows)) as E.
  { induction rows as [|r rows IH]; intros c; cbn.
    - unfold zlen. cbn. lia.
    - destruct (f r); rewrite IH; unfold zlen; cbn [length]; lia. }
  by rewrite E.
Qed.

(** A page of rows: the [N] kept rows after the first [offset] kept rows. *)
Definition page {A} (keep : A → bool) (rows : list A) (N offset : Z) : list A :=
  take (Z.to_nat N) (drop (Z.to_nat offset) (List.filter keep rows)).

Lemma length_filter_le {A} (f : A → bool) l : zlen (List.filter f l) <= zlen l.
Proof. unfold zlen. pose proof (List.filter_length_le f l). lia. Qed.

Lemma slice_matching_page {A} num (keep : A → bool) nil_past rs N offset :
  num rs = zlen (List.filter keep rs) → 0 < N → 0 <= offset → 8 * zlen rs <= 2 ^ 48 →
  ∃ o, slice_matching num keep nil_past (Some rs) N offset = Ok o ∧
       default [] o = page keep rs N offset.
Proof.
  intros Hnum HN Hoff Hmem. unfold slice_matching, page.
  pose proof (length_filter_le keep rs) as Hle.
  destruct (Z.leb_spec (zlen rs) offset).
  { eexists. split; [done|]. cbn. rewrite drop_ge by (unfold zlen in *; lia). by rewrite take_nil. }
  rewrite Hnum. set (n := zlen (List.filter keep rs)) in *.
  assert (0 <= n) by apply zlen_nonneg.
  destruct (nil_past && (n <=? offset)) eqn:Enil.
  { apply andb_true_iff in Enil as [_ Hn%Z.leb_le]. eexists. split; [done|]. cbn.
    rewrite drop_ge by (unfold n, zlen in *; lia). by rewrite take_nil. }
  assert (cap_ok (if n <? N then n else N) = true) as ->.
  { unfold cap_ok. destruct (Z.ltb_spec n N); apply andb_true_iff; split; apply Z.leb_le; lia. }
  eexists. split; [done|]. cbn [default].
  destruct (decide (n = 0)) as [E0|Hn0].
  - assert (List.filter keep rs = []) as E by (apply length_zero_iff_nil; unfold n, zlen in E0; lia).
    rewrite E, drop_nil, take_nil. clear -E. generalize (if n <? N then n else N). intros M.
    generalize 0 at 1. revert E. induction rs as [|r rs IH]; cbn; [done|].
    destruct (keep r); [done|]. intros E sk. cbn. by apply IH.
  - rewrite pick_loop_spec by (change (zlen []) with 0; destruct (Z.ltb_spec n N); lia).
    change (zlen []) with 0. rewrite !Z.sub_0_r. cbn [app].
    destruct (Z.ltb_spec n N); [|done].
    rewrite !take_ge; [done|rewrite length_drop; unfold n, zlen in *; lia..].
Qed.

(** ** Merging: specification by grouping *)
(** Distinct hashes in order of first appearance. *)
Definition uniq (hs : list Hash) : list Hash :=
  foldl (λ acc h, if decide (h ∈ acc) then acc else acc ++ [h]) [] hs.

Section MergeSpec.
Context {A : Type} `{TxRow A}.

Definition hashes (rows : list A) : list Hash := r_TxHash <$> rows.
Definition group (h : Hash) (rows : list A) : list A :=
  List.filter (λ r, bool_decide (r_TxHash r = h)) rows.

(** All rows of one transaction folded into one merged row. *)
Definition mergeGroup (rows : list A) : AddressRowMerged :=
  match rows with
  | [] => mkMerged "" 0 [] 0 0 None None 0 0 false 0
  | r :: rest => foldl (λ arm r, updateMerged r arm) (newMerged r) rest
  end.

(** One merged row per distinct hash, in order of first appearance. *)
Definition merged_by_tx (rows : list A) : list AddressRowMerged :=
  (λ h, mergeGroup (group h rows)) <$> uniq (hashes rows).
End MergeSpec.

Lemma uniq_snoc hs h :
  uniq (hs ++ [h]) = if decide (h ∈ uniq hs) then uniq hs else uniq hs ++ [h].
Proof. unfold uniq. by rewrite foldl_app. Qed.

Lemma elem_of_uniq hs h : h ∈ uniq hs ↔ h ∈ hs.
Proof.
  induction hs as [|x hs IH] using rev_ind; [done|].
  rewrite uniq_snoc, elem_of_app, list_elem_of_singleton. case_decide as Hx.
  - rewrite IH. split; [auto|]. intros [?| ->]; [done|]. by apply IH.
  - by rewrite elem_of_app, list_elem_of_singleton, IH.
Qed.

Lemma NoDup_uniq hs : NoDup (uniq hs).
Proof.
  induction hs as [|x hs IH] using rev_ind; [constructor|].
  rewrite uniq_snoc. case_decide; [done|].
  apply NoDup_app. split; [done|]. split; [|apply NoDup_singleton].
  intros y Hy ->%list_elem_of_singleton. done.
Qed.

Lemma uniq_NoDup hs : NoDup hs → uniq hs = hs.
Proof.
  induction hs as [|x hs IH] using rev_ind; [done|].
  rewrite NoDup_app, uniq_snoc. intros (Hn & Hd & _). rewrite IH by done.
  case_decide as Hx; [|done]. destruct (Hd x Hx). by apply list_elem_of_singleton.
Qed.

Lemma length_uniq_le hs : (length (uniq hs) <= length hs)%nat.
Proof.
  induction hs as [|x hs IH] using rev_ind; [done|].
  rewrite uniq_snoc, length_app. cbn. case_decide; rewrite ?length_app; cbn; lia.
Qed.

Section MergeProofs.
Context {A : Type} `{TxRow A}.
Implicit Types (rows done : list A) (r : A).

Lemma group_snoc h rows r :
  group h (rows ++ [r]) = group h rows ++ (if decide (r_TxHash r = h) then [r] else []).
Proof.
  unfold group. rewrite List.filter_app. cbn. case_decide.
  - by rewrite bool_decide_true.
  - by rewrite bool_decide_false.
Qed.

Lemma group_nil h rows : h ∉ hashes rows → group h rows = [].
Proof.
  unfold hashes, group. induction rows as [|r rows IH]; cbn; [done|].
  rewrite not_elem_of_cons. intros [Hne Hni]. rewrite bool_decide_false by congruence. auto.
Qed.

Lemma group_not_nil h rows : h ∈ hashes rows → group h rows ≠ [].
Proof.
  unfold hashes, group. induction rows as [|r rows IH]; cbn; [by intros ?%not_elem_of_nil|].
  intros [->|Hin]%elem_of_cons; [by rewrite bool_decide_true|].
  case_bool_decide; [done|auto].
Qed.

Lemma mergeGroup_snoc rows r :
  rows ≠ [] → mergeGroup (rows ++ [r]) = updateMerged r (mergeGroup rows).
Proof. destruct rows as [|x rows]; [done|]. intros _. cbn. by rewrite foldl_app. Qed.

Lemma hashes_snoc rows r : hashes (rows ++ [r]) = hashes rows ++ [r_TxHash r].
Proof. unfold hashes. by rewrite fmap_app. Qed.

Lemma merged_by_tx_new rows r :
  r_TxHash r ∉ uniq (hashes rows) →
  merged_by_tx (rows ++ [r]) = merged_by_tx rows ++ [newMerged r].
Proof.
  intros Hni. unfold merged_by_tx. rewrite hashes_snoc, uniq_snoc, decide_False by done.
  rewrite fmap_app. f_equal.
  - apply list_fmap_ext. intros i h Hh. f_equal. rewrite group_snoc.
    rewrite decide_False; [apply app_nil_r|]. intros <-.
    apply Hni. by eapply list_elem_of_lookup_2.
  - cbn. rewrite group_snoc, decide_True by done.
    rewrite group_nil; [done|]. by rewrite <- elem_of_uniq.
Qed.

Lemma merged_by_tx_old rows r i :
  uniq (hashes rows) !! i = Some (r_TxHash r) →
  merged_by_tx (rows ++ [r]) = alter (updateMerged r) i (merged_by_tx rows).
Proof.
  intros Hi. pose proof (list_elem_of_lookup_2 _ _ _ Hi) as Hin.
  unfold merged_by_tx. rewrite hashes_snoc, uniq_snoc, decide_True by done.
  apply list_eq. intros j. rewrite list_lookup_fmap.
  destruct (decide (i = j)) as [<-|Hne].
  - rewrite list_lookup_alter_eq, list_lookup_fmap, Hi. cbn. f_equal.
    rewrite group_snoc, decide_True by done. apply mergeGroup_snoc, group_not_nil.
    by rewrite <- elem_of_uniq.
  - rewrite list_lookup_alter_ne, list_lookup_fmap by done.
    destruct (uniq (hashes rows) !! j) as [h|] eqn:Hj; [|done]. cbn. do 2 f_equal.
    rewrite group_snoc, decide_False; [apply app_nil_r|]. intros <-.
    apply Hne. by eapply NoDup_lookup; [apply NoDup_uniq|..].
Qed.

Lemma length_merged_by_tx rows : length (merged_by_tx rows) = length (uniq (hashes rows)).
Proof. unfold merged_by_tx. apply length_fmap. Qed.

(** The loop state after the rows [done], when at most [n] rows are kept. *)
Definition rep (n : nat) done (st : mergeState) : Prop :=
  mergedRows st = take n (merged_by_tx done) ∧
  ∀ h i, hashMap st !! h = Some i ↔ (i < n)%nat ∧ uniq (hashes done) !! i = Some h.

Lemma rep_nil n : rep n [] (mkMS ∅ []).
Proof.
  split; [by destruct n|]. intros h i. cbn. rewrite lookup_empty. split; [done|].
  by intros [_ ?].
Qed.

Lemma rep_length n done st : rep n done st → length (mergedRows st) = (n `min` length (uniq (hashes done)))%nat.
Proof. intros [-> _]. by rewrite length_take, length_merged_by_tx. Qed.

Lemma rep_new n done st r :
  rep n done st → hashMap st !! r_TxHash r = None → (length (mergedRows st) < n)%nat →
  rep n (done ++ [r]) (merge_new r st).
Proof.
  intros Hrep Hnone Hlt. pose proof (rep_length _ _ _ Hrep) as Hlen.
  destruct Hrep as [Hm Hh].
  assert (r_TxHash r ∉ uniq (hashes done)) as Hni.
  { intros [i Hi]%list_elem_of_lookup_1. apply lookup_lt_Some in Hi as Hl.
    assert (hashMap st !! r_TxHash r = Some i) by (apply Hh; split; [lia|done]). congruence. }
  split; cbn.
  - rewrite merged_by_tx_new by done. rewrite Hm, !take_ge; [done|..];
      rewrite ?length_app, ?length_merged_by_tx; cbn; lia.
  - intros h i. rewrite hashes_snoc, uniq_snoc, decide_False by done.
    rewrite lookup_insert. case_decide as Eh; subst.
    + split.
      * intros [= <-]. split; [done|]. rewrite Hlen, Nat.min_r by lia.
        by rewrite list_lookup_middle.
      * intros [Hi Hl]. apply lookup_app_Some in Hl as [Hl|[Hge Hl]].
        { destruct Hni. by eapply list_elem_of_lookup_2. }
        apply lookup_lt_Some in Hl. cbn in Hl. f_equal. lia.
    + rewrite Hh. split.
      * intros [Hi Hl]. split; [done|]. by apply lookup_app_l_Some.
      * intros [Hi Hl]. split; [done|]. apply lookup_app_Some in Hl as [Hl|[Hge Hl]]; [done|].
        destruct (i - _)%nat; [|done]. injection Hl as Hl. congruence.
Qed.

Lemma rep_full n done st r :
  rep n done st → hashMap st !! r_TxHash r = None → length (mergedRows st) = n →
  rep n (done ++ [r]) st.
Proof.
  intros Hrep Hnone Hfull. pose proof (rep_length _ _ _ Hrep) as Hlen.
  destruct Hrep as [Hm Hh]. split.
  - destruct (decide (r_TxHash r ∈ uniq (hashes done))) as [Hin|Hni].
    + apply list_elem_of_lookup_1 in Hin as [i Hi]. rewrite (merged_by_tx_old _ _ i Hi), Hm.
      apply list_eq. intros j. rewrite !lookup_take. case_decide; [|done].
      rewrite list_lookup_alter_ne; [done|]. intros ->.
      assert (hashMap st !! r_TxHash r = Some j) by (apply Hh; done). congruence.
    + rewrite merged_by_tx_new by done. rewrite take_app_le; [done|].
      rewrite length_merged_by_tx. lia.
  - intros h i. rewrite Hh, hashes_snoc, uniq_snoc. case_decide; [done|]. split.
    + intros [Hi Hl]. split; [done|]. by apply lookup_app_l_Some.
    + intros [Hi Hl]. split; [done|]. apply lookup_app_Some in Hl as [Hl|[Hge Hl]]; [done|]. lia.
Qed.

Lemma rep_update n done st r i :
  rep n done st → hashMap st !! r_TxHash r = Some i →
  rep n (done ++ [r]) (merge_update i r st).
Proof.
  intros [Hm Hh] Hi. pose proof Hi as [Hlt Hl]%Hh. split; cbn.
  - rewrite (merged_by_tx_old _ _ i Hl), Hm. apply list_eq. intros j.
    destruct (decide (i = j)) as [<-|Hne].
    + rewrite list_lookup_alter_eq, !lookup_take, list_lookup_alter_eq. by rewrite !decide_True by done.
    + rewrite list_lookup_alter_ne, !lookup_take by done. case_decide; [|done].
      by rewrite list_lookup_alter_ne.
  - intros h j. rewrite Hh, hashes_snoc, uniq_snoc, decide_True; [done|].
    by eapply list_elem_of_lookup_2.
Qed.

Lemma MergeRows_loop_rep n rows done st :
  rep n done st → (length done + length rows < n)%nat →
  Forall (λ r, r_Merged r = false) rows →
  ∃ st', MergeRows_loop rows st = Ok st' ∧ rep n (done ++ rows) st'.
Proof.
  intros Hrep Hn Hm. revert done st Hrep Hn.
  induction Hm as [|r rows Hr Hm IH]; intros done st Hrep Hn; cbn [MergeRows_loop].
  { exists st. by rewrite app_nil_r. }
  rewrite Hr, cons_middle, app_assoc. cbn [length] in Hn.
  assert (length (mergedRows st) < n)%nat.
  { rewrite (rep_length _ _ _ Hrep). pose proof (length_uniq_le (hashes done)).
    unfold hashes in *. rewrite length_fmap in *. lia. }
  destruct (hashMap st !! r_TxHash r) as [i|] eqn:Ei.
  - apply IH; [by apply rep_update|rewrite length_app; cbn; lia].
  - apply IH; [by apply rep_new|rewrite length_app; cbn; lia].
Qed.

Lemma MergeRows_ok rows :
  Forall (λ r, r_Merged r = false) rows → MergeRows rows = Ok (merged_by_tx rows).
Proof.
  intros Hm. unfold MergeRows.
  destruct (MergeRows_loop_rep (S (length rows)) rows [] (mkMS ∅ [])) as (st & -> & [-> _]);
    [apply rep_nil|cbn; lia|done|].
  cbn [app]. rewrite take_ge; [done|]. rewrite length_merged_by_tx.
  pose proof (length_uniq_le (hashes rows)). unfold hashes in *. rewrite length_fmap in *. lia.
Qed.

Lemma MergeRows_loop_err rows st :
  Exists (λ r, r_Merged r = true) rows → MergeRows_loop rows st = Err EMergedInput.
Proof.
  intros He. revert st. induction rows as [|r rows IH]; intros st; [by inversion He|].
  cbn. destruct (r_Merged r) eqn:Er; [done|]. assert (Exists (λ r, r_Merged r = true) rows).
  { inversion He; subst; [congruence|done]. }
  destruct (hashMap st !! _); auto.
Qed.

(** ** The range loop *)
(** Rows whose direction is right for the view. *)
Definition right_rows (wrong : bool → bool) rows : list A :=
  List.filter (λ r, negb (wrong (r_IsFunding r))) rows.

(** What the offset really skips: every row up to and including the one that
    brings the number of distinct hashes to [k]. *)
Fixpoint skip_distinct (k : nat) (seen : gset Hash) rows : list A :=
  match k, rows with
  | O, _ => rows
  | _, [] => []
  | S k', r :: rest =>
    if decide (r_TxHash r ∈ seen) then skip_distinct k seen rest
    else skip_distinct k' ({[ r_TxHash r ]} ∪ seen) rest
  end.

Lemma range_loop_right wrong N offset rows sk seen st :
  MergeRowsRange_loop wrong N offset rows sk seen st =
  MergeRowsRange_loop (λ _, false) N offset (right_rows wrong rows) sk seen st.
Proof.
  revert sk seen st. induction rows as [|r rows IH]; intros sk seen st; [done|].
  cbn. destruct (wrong (r_IsFunding r)); cbn; [done|].
  destruct (r_Merged r); [done|]. destruct (hashMap st !! _); [done|].
  destruct (_ =? N); [done|]. destruct (sk <? offset); [|done]. by case_decide.
Qed.

Lemma range_loop_skip N offset rows sk seen :
  N ≠ 0 → sk <= offset → Forall (λ r, r_Merged r = false) rows →
  ∃ seen', MergeRowsRange_loop (λ _, false) N offset rows sk seen (mkMS ∅ []) =
  MergeRowsRange_loop (λ _, false) N offset
    (skip_distinct (Z.to_nat (offset - sk)) seen rows) offset seen' (mkMS ∅ []).
Proof.
  intros HN Hsk Hm. revert sk seen Hsk. induction Hm as [|r rows Hr Hm IH]; intros sk seen Hsk.
  { exists seen. by destruct (Z.to_nat _). }
  destruct (decide (sk = offset)) as [->|Hne].
  { exists seen. by rewrite Z.sub_diag. }
  replace (Z.to_nat (offset - sk)) with (S (Z.to_nat (offset - (sk + 1)))) by lia.
  cbn [skip_distinct MergeRowsRange_loop]. rewrite Hr. cbn [mergedRows hashMap].
  rewrite lookup_empty. destruct (Z.eqb_spec (zlen (A:=AddressRowMerged) []) N) as [E|_].
  { destruct HN. symmetry. exact E. }
  destruct (Z.ltb_spec sk offset); [|lia]. case_decide.
  - destruct (IH sk seen Hsk) as [seen' ->]. exists seen'. do 2 f_equal.
    f_equal. lia.
  - apply IH. lia.
Qed.

Lemma range_loop_rep N offset seen rows done st :
  0 <= N → rep (Z.to_nat N) done st → Forall (λ r, r_Merged r = false) rows →
  ∃ st', MergeRowsRange_loop (λ _, false) N offset rows offset seen st = Ok st' ∧
         rep (Z.to_nat N) (done ++ rows) st'.
Proof.
  intros HN Hrep Hm. revert done st Hrep.
  induction Hm as [|r rows Hr Hm IH]; intros done st Hrep; cbn [MergeRowsRange_loop].
  { exists st. by rewrite app_nil_r. }
  rewrite Hr, cons_middle, app_assoc, Z.ltb_irrefl.
  pose proof (rep_length _ _ _ Hrep) as Hlen.
  destruct (hashMap st !! r_TxHash r) as [i|] eqn:Ei; [by apply IH, rep_update|].
  destruct (Z.eqb_spec (zlen (mergedRows st)) N) as [E|E]; unfold zlen in E.
  - apply IH, rep_full; [done..|lia].
  - apply IH, rep_new; [done..|lia].
Qed.

Lemma skip_distinct_incl (P : A → Prop) k seen rows :
  Forall P rows → Forall P (skip_distinct k seen rows).
Proof.
  intros HP. revert k seen. induction HP; intros [|k] seen; cbn; auto. by case_decide.
Qed.

(** The range functions compute the first [N] merged rows of what is left
    after skipping. *)
Lemma MergeRowsRange_body_spec wrong rows N offset :
  0 <= N → cap_ok N = true → 0 <= offset → Forall (λ r, r_Merged r = false) (right_rows wrong rows) →
  MergeRowsRange_body wrong rows N offset =
  Ok (take (Z.to_nat N) (merged_by_tx (skip_distinct (Z.to_nat offset) ∅ (right_rows wrong rows)))).
Proof.
  intros HN Hcap Hoff Hm. unfold MergeRowsRange_body.
  destruct (Z.eqb_spec N 0) as [->|HN0]; [done|]. cbn [orb].
  destruct (Z.eqb_spec (zlen rows) 0) as [E|_].
  { assert (rows = []) as -> by (apply length_zero_iff_nil; unfold zlen in E; lia). cbn.
    destruct (Z.to_nat offset); cbn; by rewrite take_nil. }
  rewrite Hcap. cbn [negb]. rewrite range_loop_right.
  destruct (range_loop_skip N offset (right_rows wrong rows) 0 ∅) as [seen' ->]; [done..|].
  rewrite Z.sub_0_r.
  destruct (range_loop_rep N offset seen' (skip_distinct (Z.to_nat offset) ∅ (right_rows wrong rows)) [] (mkMS ∅ []))
    as (st & -> & [-> _]); [done|apply rep_nil|by apply skip_distinct_incl|done].
Qed.

(** With one row per transaction the skip is the documented offset. *)
Lemma skip_distinct_NoDup k seen rows :
  NoDup (hashes rows) → (∀ r, r ∈ rows → r_TxHash r ∉ seen) →
  skip_distinct k seen rows = drop k rows.
Proof.
  revert k seen. induction rows as [|r rows IH]; intros k seen HN Hs; [by destruct k|].
  destruct k as [|k]; [done|]. cbn in HN. apply NoDup_cons in HN as [Hni HN].
  cbn [skip_distinct drop]. rewrite decide_False by (apply Hs; left).
  apply IH; [done|]. intros r' Hr' [Heq|Hin]%elem_of_union.
  - apply elem_of_singleton in Heq. apply Hni. rewrite <- Heq. by apply list_elem_of_fmap_2.
  - apply (Hs r'); [by right|done].
Qed.

Lemma merged_by_tx_NoDup rows : NoDup (hashes rows) → merged_by_tx rows = newMerged <$> rows.
Proof.
  induction rows as [|r rows IH] using rev_ind; intros HN; [done|].
  rewrite hashes_snoc in HN. pose proof HN as (HN1 & Hd & _)%NoDup_app.
  rewrite merged_by_tx_new, fmap_app, IH by (done || (rewrite elem_of_uniq; intros Hin;
    apply (Hd _ Hin), list_elem_of_singleton; done)). done.
Qed.
End MergeProofs.

(** ** What a merged row adds up to *)
Section Totals.
Context {A : Type} `{TxRow A}.

Definition sumZ (f : A → Z) (rows : list A) : Z := foldr (λ r acc, f r + acc) 0 rows.

Definition skaAmount (r : A) : Z := default 0 (SetString10 (r_SKAValue r)).

(** The contribution of one row to each accumulator. *)
Definition varPart (funding : bool) (r : A) : Z :=
  if (r_CoinType r =? 0) && eqb (r_IsFunding r) funding then r_Value r else 0.
Definition skaPart (funding : bool) (r : A) : Z :=
  if negb (r_CoinType r =? 0) && eqb (r_IsFunding r) funding then skaAmount r else 0.

Lemma sumZ_snoc f rows r : sumZ f (rows ++ [r]) = sumZ f rows + f r.
Proof. unfold sumZ. induction rows as [|x rows IH]; cbn in *; lia. Qed.

Lemma BigAddSKA_amount acc (r : A) : BigAddSKA acc (r_SKAValue r) = acc + skaAmount r.
Proof.
  unfold BigAddSKA, skaAmount. case_bool_decide as E1; [rewrite E1; cbn; lia|].
  case_bool_decide as E2; [rewrite E2; cbn; lia|]. cbn.
  destruct (SetString10 _); cbn; lia.
Qed.

(** The accumulated fields of [arm] account for the rows [g]. *)
Record totals (g : list A) (arm : AddressRowMerged) : Prop := {
  tot_credit : m_AtomsCredit arm = u64 (sumZ (varPart true) g);
  tot_debit : m_AtomsDebit arm = u64 (sumZ (varPart false) g);
  tot_ska_credit : default 0 (m_SKAAtomsCredit arm) = sumZ (skaPart true) g;
  tot_ska_debit : default 0 (m_SKAAtomsDebit arm) = sumZ (skaPart false) g;
  tot_count : m_MergedCount arm = i32 (zlen g)
}.

Lemma i32_succ z : i32 (i32 z + 1) = i32 (z + 1).
Proof.
  unfold i32, wrap_s. change (2 ^ (32 - 1)) with 2147483648. change (2 ^ 32) with 4294967296.
  f_equal. replace ((z + 2147483648) mod 4294967296 - 2147483648 + 1 + 2147483648)
    with ((z + 2147483648) mod 4294967296 + 1) by lia.
  rewrite Zplus_mod_idemp_l. f_equal. lia.
Qed.

Lemma addRow_totals g r arm :
  totals g arm → totals (g ++ [r]) (updateMerged r arm).
Proof.
  intros [Hc Hd Hsc Hsd Hn]. unfold updateMerged, addRow, add. cbn.
  destruct (r_CoinType r =? 0) eqn:Ect; destruct (r_IsFunding r) eqn:Ef; split; cbn;
    rewrite ?sumZ_snoc, ?BigAddSKA_amount, ?Hc, ?Hd, ?Hsc, ?Hsd;
    unfold varPart, skaPart; rewrite ?Ect, ?Ef; cbn [eqb andb negb];
    rewrite ?Z.add_0_r; try done; try apply wrap_u_add_idemp_l.
  all: by rewrite Hn, i32_succ, zlen_app.
Qed.

Lemma newMerged_totals r : totals [r] (newMerged r).
Proof.
  unfold newMerged, addRow, add. cbn.
  destruct (r_CoinType r =? 0) eqn:Ect; destruct (r_IsFunding r) eqn:Ef; split; cbn;
    rewrite ?BigAddSKA_amount; unfold varPart, skaPart; rewrite ?Ect, ?Ef;
    cbn [eqb andb negb]; rewrite ?Z.add_0_r; done.
Qed.

Lemma mergeGroup_totals g : g ≠ [] → totals g (mergeGroup g).
Proof.
  induction g as [|r g IH] using rev_ind; [done|]. intros _.
  destruct g as [|x g]; [apply newMerged_totals|].
  rewrite mergeGroup_snoc by done. by apply addRow_totals, IH.
Qed.

(** Fields taken from the first row of the transaction. *)
Lemma mergeGroup_head r g :
  m_TxHash (mergeGroup (r :: g)) = r_TxHash r ∧
  m_TxBlockTime (mergeGroup (r :: g)) = r_Unix r ∧
  m_Address (mergeGroup (r :: g)) = r_Address r ∧
  m_TxType (mergeGroup (r :: g)) = r_TxType r ∧
  m_ValidMainChain (mergeGroup (r :: g)) = r_ValidMainChain r.
Proof.
  assert (∀ x arm, m_TxHash (updateMerged x arm) = m_TxHash arm ∧
    m_TxBlockTime (updateMerged x arm) = m_TxBlockTime arm ∧
    m_Address (updateMerged x arm) = m_Address arm ∧
    m_TxType (updateMerged x arm) = m_TxType arm ∧
    m_ValidMainChain (updateMerged x arm) = m_ValidMainChain arm) as Hup.
  { intros x arm. unfold updateMerged, addRow, add.
    destruct (r_CoinType x =? 0), (r_IsFunding x); done. }
  induction g as [|x g IH] using rev_ind.
  - cbn. unfold newMerged, addRow, add. destruct (r_CoinType r =? 0), (r_IsFunding r); done.
  - rewrite app_comm_cons, mergeGroup_snoc by done.
    destruct (Hup x (mergeGroup (r :: g))) as (-> & -> & -> & -> & ->). done.
Qed.

Lemma group_hash h rows : Forall (λ r, r_TxHash r = h) (group h rows).
Proof.
  unfold group. induction rows as [|r rows IH]; cbn; [constructor|].
  case_bool_decide; [by constructor|done].
Qed.

Lemma merged_hashes rows : m_TxHash <$> merged_by_tx rows = uniq (hashes rows).
Proof.
  unfold merged_by_tx. rewrite <- list_fmap_compose. apply list_eq. intros i.
  rewrite list_lookup_fmap. destruct (uniq (hashes rows) !! i) as [h|] eqn:Hi; [|done].
  cbn. f_equal. apply list_elem_of_lookup_2 in Hi. rewrite elem_of_uniq in Hi.
  pose proof (group_not_nil _ _ Hi). pose proof (group_hash h rows) as Hg.
  destruct (group h rows) as [|r g]; [done|]. destruct (mergeGroup_head r g) as [-> _].
  by inversion Hg.
Qed.

Lemma CountMerged_loop_spec wrong rows done n :
  Forall (λ r, r_Merged r = false) rows →
  CountMerged_loop wrong rows (Z.of_nat (length (uniq (hashes done))))
    (list_to_set (uniq (hashes done))) = Ok n →
  n = zlen (uniq (hashes (done ++ right_rows wrong rows))).
Proof.
  intros Hm. revert done. induction Hm as [|r rows Hr Hm IH]; intros done; cbn.
  { intros [= <-]. rewrite app_nil_r. done. }
  rewrite Hr. destruct (wrong (r_IsFunding r)); cbn; [apply IH|].
  rewrite cons_middle, app_assoc. case_decide as Hin; rewrite elem_of_list_to_set in Hin; intros Hl.
  - apply IH. by rewrite hashes_snoc, uniq_snoc, decide_True.
  - apply IH. rewrite hashes_snoc, uniq_snoc, decide_False, length_app by done. cbn.
    rewrite <- Hl. f_equal; [lia|]. set_solver.
Qed.

Lemma CountMerged_loop_ok wrong rows n s :
  Forall (λ r, r_Merged r = false) rows → ∃ k, CountMerged_loop wrong rows n s = Ok k.
Proof.
  intros Hm. revert n s. induction Hm as [|r rows Hr Hm IH]; intros n s; cbn; [eauto|].
  rewrite Hr. destruct (wrong _); [done|]. by case_decide.
Qed.
End Totals.

(** ** Main theorems *)
(** C26: merging rows through the hash map of shared row objects gives exactly
    one merged row per distinct transaction hash, in order of first
    appearance, each the fold of all rows of that transaction; if any input
    row is itself merged, the result is the error. *)
Theorem MergeRows_by_transaction {A} `{TxRow A} (rows : list A) :
  MergeRows rows =
  if forallb (λ r, negb (r_Merged r)) rows then Ok (merged_by_tx rows) else Err EMergedInput.
Proof.
  destruct (forallb _ rows) eqn:E.
  - apply MergeRows_ok, Forall_forall. intros r Hr. rewrite forallb_forall in E.
    apply negb_true_iff, E. by apply list_elem_of_In.
  - unfold MergeRows. rewrite MergeRows_loop_err; [done|].
    apply Exists_exists. apply not_true_iff_false in E. rewrite forallb_forall in E.
    destruct (decide (Exists (λ r, r_Merged r = true) rows)) as [Hex|Hn]; [by apply Exists_exists|].
    destruct E. intros r Hr. apply negb_true_iff, not_true_iff_false. intros Hr'. apply Hn.
    apply Exists_exists. exists r. split; [by apply list_elem_of_In|done].
Qed.

(** Every merged row carries the totals of its transaction: VAR credits
    and debits modulo 2^64, SKA credits and debits exactly, and the number of
    rows; its hash is the transaction's and no hash appears twice. *)
Theorem merged_row_totals {A} `{TxRow A} (rows : list A) (ms : list AddressRowMerged) :
  MergeRows rows = Ok ms →
  NoDup (m_TxHash <$> ms) ∧
  ∀ arm, arm ∈ ms → totals (group (m_TxHash arm) rows) arm.
Proof.
  intros Hm. assert (ms = merged_by_tx rows) as ->.
  { destruct (decide (Exists (λ r, r_Merged r = true) rows)) as [He|Hn].
    - unfold MergeRows in Hm. by rewrite MergeRows_loop_err in Hm.
    - rewrite MergeRows_ok in Hm; [by injection Hm|].
      apply Forall_forall. intros r Hr. apply not_true_iff_false. intros Hr'. apply Hn.
      apply Exists_exists. eauto. }
  rewrite merged_hashes. split; [apply NoDup_uniq|]. intros arm Hin.
  apply list_elem_of_lookup_1 in Hin as [i Hi]. pose proof Hi as Hi'.
  apply (f_equal (fmap m_TxHash)) in Hi. rewrite <- list_lookup_fmap, merged_hashes in Hi.
  unfold merged_by_tx in Hi'. rewrite list_lookup_fmap, Hi in Hi'. cbn in Hi'.
  injection Hi' as Ha. rewrite <- Ha at 2. apply mergeGroup_totals, group_not_nil.
  rewrite <- elem_of_uniq. by eapply list_elem_of_lookup_2.
Qed.

(** CountMergedRows on a merged view is the number of merged rows of the
    rows with that view's direction. *)
Theorem CountMergedRows_counts {A} `{TxRow A} (rows : list A) view wrong :
  wrongDirection view = Some wrong → Forall (λ r, r_Merged r = false) rows →
  ∃ ms, MergeRows (right_rows wrong rows) = Ok ms ∧ CountMergedRows rows view = Ok (zlen ms).
Proof.
  intros Hw Hm. eexists. split.
  { apply MergeRows_ok. unfold right_rows. apply Forall_forall. intros r Hr.
    rewrite Forall_forall in Hm. apply Hm, list_elem_of_In.
    apply list_elem_of_In, List.filter_In in Hr as [? _]. done. }
  unfold CountMergedRows. rewrite Hw.
  destruct (CountMerged_loop_ok wrong rows 0 ∅ Hm) as [k Hk]. rewrite Hk.
  apply (CountMerged_loop_spec wrong rows []) in Hk; [|done]. rewrite Hk. cbn [app].
  unfold zlen. by rewrite length_merged_by_tx.
Qed.

(** A page of merged rows.  MergeRowsCompactRange never fails on valid
    arguments and returns the first N merged rows of the rows left after the
    skip, which drops rows up to the one that shows the offset-th distinct
    transaction. *)
Theorem MergeRowsCompactRange_page rows N offset view wrong :
  wrongDirection view = Some wrong → 0 <= N → cap_ok N = true → 0 <= offset →
  MergeRowsCompactRange rows N offset view =
  Ok (Some (take (Z.to_nat N)
       (merged_by_tx (skip_distinct (Z.to_nat offset) ∅ (right_rows wrong rows))))).
Proof.
  intros Hw HN Hcap Hoff. unfold MergeRowsCompactRange. rewrite Hw.
  destruct (Z.ltb_spec offset 0), (Z.ltb_spec N 0); try lia. cbn [orb].
  rewrite MergeRowsRange_body_spec; [done..|]. by apply Forall_true.
Qed.

(** When every transaction has one row for the address, the page is the
    documented slice of the full merged result. *)
Theorem MergeRowsCompactRange_documented rows N offset view wrong :
  wrongDirection view = Some wrong → 0 <= N → cap_ok N = true → 0 <= offset →
  NoDup (hashes (right_rows wrong rows)) →
  MergeRowsCompactRange rows N offset view =
  Ok (Some (take (Z.to_nat N) (drop (Z.to_nat offset) (merged_by_tx (right_rows wrong rows))))).
Proof.
  intros Hw HN Hcap Hoff HND. unfold MergeRowsCompactRange. rewrite Hw.
  destruct (Z.ltb_spec offset 0), (Z.ltb_spec N 0); try lia. cbn [orb].
  rewrite MergeRowsRange_body_spec by (done || by apply Forall_true).
  rewrite skip_distinct_NoDup by (done || set_solver).
  rewrite !merged_by_tx_NoDup; [by rewrite fmap_drop|done|].
  unfold hashes. rewrite fmap_drop. eapply sublist_NoDup; [done|apply sublist_drop].
Qed.

(** With two rows of one transaction, an offset of 1 does not skip the
    transaction: the page shows a merged row built from the second row alone,
    while the full result has a single row, so the documented page is empty. *)
Theorem MergeRowsCompactRange_partial_row (r1 r2 : AddressRowCompact) N :
  c_TxHash r1 = c_TxHash r2 → 1 <= N → cap_ok N = true →
  MergeRowsCompactRange [r1; r2] N 1 AddrMergedTxn = Ok (Some [newMerged r2]) ∧
  drop 1 (merged_by_tx [r1; r2]) = [].
Proof.
  intros Hh HN Hcap. split.
  - unfold MergeRowsCompactRange. destruct (Z.ltb_spec N 0); [lia|]. cbn [orb Z.ltb wrongDirection].
    rewrite MergeRowsRange_body_spec; [|lia|done|lia|by apply Forall_true].
    change (Z.to_nat 1) with 1%nat. change (right_rows _ [r1; r2]) with [r1; r2].
    cbn [skip_distinct]. rewrite decide_False by set_solver.
    rewrite merged_by_tx_NoDup by apply NoDup_singleton.
    by rewrite take_ge by (cbn; lia).
  - unfold merged_by_tx, hashes. cbn. rewrite Hh. unfold uniq. cbn.
    rewrite !decide_True by (apply list_elem_of_singleton; done). done.
Qed.

(** ** Pages of a plain view *)
(** The rows a plain view shows. *)
Definition view_keep (view : AddrTxnViewType) : option (AddressRow → bool) :=
  match view with
  | AddrTxnAll => Some (λ _, true)
  | AddrTxnCredit => Some IsFunding
  | AddrTxnDebit => Some (λ r, negb (IsFunding r))
  | _ => None
  end.

Lemma filter_all {A} (l : list A) : List.filter (λ _, true) l = l.
Proof. induction l; cbn; by f_equal. Qed.

Lemma slice_all_page {A} (rs : list A) N offset :
  0 < N → 0 <= offset → offset + N <= MaxInt64 →
  slice_all (Some rs) N offset = Ok (Some (page (λ _, true) rs N offset)).
Proof.
  intros HN Hoff Hmax. unfold slice_all, page. rewrite filter_all.
  destruct (Z.leb_spec (zlen rs) offset).
  { rewrite drop_ge by (unfold zlen in *; lia). by rewrite take_nil. }
  unfold i64. rewrite wrap_s_small by (unfold MaxInt64 in *; lia).
  destruct (Z.ltb_spec (zlen rs) (offset + N)).
  - destruct (Z.ltb_spec offset (zlen rs)), (Z.ltb_spec offset 0); try lia.
    rewrite !take_ge; [done|rewrite length_drop; unfold zlen in *; lia..].
  - destruct (Z.ltb_spec offset (offset + N)), (Z.ltb_spec offset 0); try lia.
    do 3 f_equal. lia.
Qed.

(** A page of the all, credit or debit view.  For every slice that fits
    in memory and every window that fits an int, SliceAddressRows returns
    exactly the N rows after the first offset rows of the view (fewer at the
    end), with no panic. *)
Theorem SliceAddressRows_page rs N offset view keep :
  view_keep view = Some keep → 0 <= N → 0 <= offset → offset + N <= MaxInt64 →
  8 * zlen rs <= 2 ^ 48 →
  ∃ o, SliceAddressRows (Some rs) N offset view = Ok o ∧
       default [] o = page keep rs N offset.
Proof.
  intros Hv HN Hoff Hmax Hmem. unfold SliceAddressRows. cbn [default from_option id].
  destruct (Z.ltb_spec offset 0), (Z.ltb_spec N 0); try lia. cbn [orb].
  destruct (Z.eqb_spec N 0) as [->|HN0]; [by eexists|]. cbn [orb].
  destruct ((zlen rs =? 0) || (zlen rs <=? offset)) eqn:E.
  { eexists. split; [done|]. cbn. unfold page. rewrite drop_ge, take_nil; [done|].
    pose proof (length_filter_le keep rs). rewrite orb_true_iff, Z.eqb_eq, Z.leb_le in E.
    unfold zlen in *. lia. }
  destruct view; try done; injection Hv as <-.
  - eexists. split; [apply slice_all_page; lia|done].
  - apply slice_matching_page; [|lia..]. by unfold CountCreditDebitRows; rewrite CountCreditDebit_filter.
  - apply slice_matching_page; [|lia..]. by unfold CountCreditDebitRows; rewrite CountCreditDebit_filter.
Qed.

(** The unspent view counts the unspent credits but then selects every
    credit: with a spent credit in front and [n] unspent credits among the
    rows, a page of [N >= n] rows from offset 0 has length [n] and starts with
    the spent credit. *)
Theorem SliceAddressUnspentCreditRows_spent r rs N :
  IsFunding r = true → MatchingTxHash r ≠ None →
  0 < CountUnspentCreditRows rs <= N → 8 * (1 + zlen rs) <= 2 ^ 48 →
  ∃ out, SliceAddressRows (Some (r :: rs)) N 0 AddrUnspentTxn = Ok (Some (r :: out)) ∧
         zlen (r :: out) = CountUnspentCreditRows rs.
Proof.
  intros Hf Hs Hn Hmem. unfold CountUnspentCreditRows in *.
  set (u := λ r : AddressRow, _) in Hn |- *.
  assert (CountUnspent u (r :: rs) = CountUnspent u rs) as Hc.
  { rewrite !CountUnspent_filter. cbn. unfold u at 1. by rewrite bool_decide_false, andb_false_r. }
  pose proof (CountUnspent_filter u rs) as Hu. rewrite Hu in *.
  pose proof (length_filter_le u rs) as Hle.
  assert (zlen (List.filter u rs) <= zlen (List.filter IsFunding rs)) as Hle2.
  { clear. unfold zlen. induction rs as [|x rs IH]; cbn; [lia|]. unfold u at 1.
    destruct (IsFunding x); cbn; [|lia]. case_bool_decide; cbn; lia. }
  set (n := zlen (List.filter u rs)) in *.
  assert (zlen (r :: rs) = 1 + zlen rs) as Hlen by (unfold zlen; cbn; lia).
  unfold SliceAddressRows, SliceAddressUnspentCreditRows, slice_matching. cbn [default from_option id orb Z.ltb Z.compare].
  change (CountUnspentCreditRows (r :: rs)) with (CountUnspent u (r :: rs)).
  rewrite Hc, Hlen.
  destruct (Z.ltb_spec N 0), (Z.eqb_spec N 0), (Z.eqb_spec (1 + zlen rs) 0),
    (Z.leb_spec (1 + zlen rs) 0), (Z.leb_spec n 0); try lia. cbn [orb andb Z.compare].
  assert ((if n <? N then n else N) = n) as -> by (destruct (Z.ltb_spec n N); lia).
  replace (cap_ok n) with true by (symmetry; apply andb_true_iff; split; apply Z.leb_le; lia).
  rewrite pick_loop_spec by (change (zlen []) with 0; lia). change (zlen []) with 0.
  rewrite Z.sub_0_r. cbn [app List.filter]. rewrite Hf.
  replace (Z.to_nat n) with (S (Z.to_nat (n - 1))) by lia.
  change (Z.to_nat (0 - 0)) with O. rewrite drop_0, firstn_cons.
  eexists. split; [done|]. unfold zlen in *. cbn [length]. rewrite length_take. lia.
Qed.

(** ** Compaction *)
Lemma MergeRows_loop_compact rows st :
  Forall (λ r, r_Merged r = false) rows →
  MergeRows_loop (CompactRows rows) st = MergeRows_loop rows st.
Proof.
  intros Hm. revert st. induction Hm as [|r rows Hr Hm IH]; intros st; [done|].
  cbn [CompactRows fmap list_fmap MergeRows_loop]. rewrite Hr. cbn [r_Merged AddressRowCompact_TxRow].
  change (r_TxHash (CompactRow r)) with (r_TxHash r).
  destruct (hashMap st !! r_TxHash r); apply IH.
Qed.

(** A row as it is read from the database for the cache: not merged, no
    table id, and a time in whole seconds UTC. *)
Definition db_row (r : AddressRow) : Prop :=
  MergedCount r = 0 ∧ VinVoutDbID r = 0 ∧ AtomsCredit r = 0 ∧ AtomsDebit r = 0 ∧
  TxBlockTime r = NewTimeDefFromUNIX (UNIX (TxBlockTime r)).

(** The compact form loses nothing the application uses: expanding it
    gives the rows back, compacting an expanded slice is the identity, and
    merging the compact rows gives the merge of the full rows. *)
Theorem compact_round_trip rows (c : list AddressRowCompact) :
  Forall db_row rows →
  UncompactRows (Some (CompactRows rows)) = Some rows ∧
  (CompactRows <$> UncompactRows (Some c)) = Some c ∧
  MergeRows (CompactRows rows) = MergeRows rows.
Proof.
  intros Hdb. split_and!.
  - cbn. f_equal. induction Hdb as [|r rows (H1 & H2 & H3 & H4 & H5) _ IH]; [done|].
    cbn [CompactRows fmap list_fmap]. f_equal; [|exact IH]. destruct r; cbn in *.
    unfold UncompactRow. cbn. congruence.
  - cbn. f_equal. induction c as [|r c IH]; [done|]. cbn [CompactRows fmap list_fmap].
    f_equal; [by destruct r|exact IH].
  - unfold MergeRows. rewrite MergeRows_loop_compact; [done|].
    eapply Forall_impl; [done|]. intros r (Hr & _). cbn. by rewrite Hr.
Qed.

(** ** Witnesses *)
Module Witness.
Definition mk (h : Z) (funding : bool) (v : Z) (spent : bool) : AddressRow :=
  mkRow "a" true (if spent then Some [9] else None) funding (NewTimeDefFromUNIX 7) [h] 0 v 0 0 0 0 0 0 "".
Definition rows : list AddressRow :=
  [mk 1 true 5 false; mk 2 false 3 false; mk 1 true 6 true; mk 1 false 4 false].
Definition crows := CompactRows rows.

Lemma merged_row_totals_witness :
  MergeRows rows = Ok (merged_by_tx rows) ∧
  (zlen (merged_by_tx rows) = 2) ∧
  NoDup (m_TxHash <$> merged_by_tx rows).
Proof.
  split; [vm_compute; reflexivity|]. split; [vm_compute; reflexivity|].
  apply (merged_row_totals rows (merged_by_tx rows)). vm_compute; reflexivity.
Defined.

Lemma CountMergedRows_counts_witness :
  ∃ ms, MergeRows (right_rows (λ f, negb f) rows) = Ok ms ∧
        CountMergedRows rows AddrMergedTxnCredit = Ok (zlen ms) ∧ zlen ms = 1.
Proof.
  destruct (CountMergedRows_counts rows AddrMergedTxnCredit (λ f, negb f)) as (ms & Hm & Hc).
  - reflexivity.
  - repeat constructor.
  - exists ms. split; [exact Hm|]. split; [exact Hc|].
    assert (Ok (zlen ms) = @Ok RowErr Z 1) as E by (rewrite <- Hc; vm_compute; reflexivity).
    by injection E.
Defined.

Lemma MergeRowsCompactRange_page_witness :
  MergeRowsCompactRange crows 1 1 AddrMergedTxn =
  Ok (Some (take 1 (merged_by_tx (skip_distinct 1 ∅ (right_rows (λ _, false) crows))))).
Proof. apply (MergeRowsCompactRange_page crows 1 1 AddrMergedTxn (λ _, false)); reflexivity || lia. Defined.

Lemma MergeRowsCompactRange_documented_witness :
  MergeRowsCompactRange (take 2 crows) 1 1 AddrMergedTxn =
  Ok (Some (take 1 (drop 1 (merged_by_tx (right_rows (λ _, false) (take 2 crows)))))).
Proof.
  apply (MergeRowsCompactRange_documented (take 2 crows) 1 1 AddrMergedTxn (λ _, false));
    [reflexivity|lia|reflexivity|lia|].
  apply (bool_decide_unpack _). vm_compute. exact I.
Defined.

Lemma MergeRowsCompactRange_partial_row_witness :
  let r1 := CompactRow (mk 1 true 5 false) in let r2 := CompactRow (mk 1 true 6 true) in
  MergeRowsCompactRange [r1; r2] 10 1 AddrMergedTxn = Ok (Some [newMerged r2]) ∧
  drop 1 (merged_by_tx [r1; r2]) = [].
Proof. apply MergeRowsCompactRange_partial_row; [reflexivity|lia|reflexivity]. Defined.

Lemma SliceAddressRows_page_witness :
  ∃ o, SliceAddressRows (Some rows) 1 1 AddrTxnCredit = Ok o ∧
       default [] o = page IsFunding rows 1 1.
Proof.
  apply (SliceAddressRows_page rows 1 1 AddrTxnCredit IsFunding);
    [reflexivity|lia|lia|vm_compute; congruence|vm_compute; congruence].
Defined.

Lemma SliceAddressUnspentCreditRows_spent_witness :
  ∃ out, SliceAddressRows (Some (mk 4 true 1 true :: rows)) 3 0 AddrUnspentTxn
         = Ok (Some (mk 4 true 1 true :: out)) ∧
  zlen (mk 4 true 1 true :: out) = CountUnspentCreditRows rows.
Proof.
  apply SliceAddressUnspentCreditRows_spent;
    [reflexivity|discriminate|vm_compute; split; congruence|vm_compute; congruence].
Defined.

Lemma compact_round_trip_witness :
  UncompactRows (Some (CompactRows rows)) = Some rows ∧
  (CompactRows <$> UncompactRows (Some crows)) = Some crows ∧
  MergeRows (CompactRows rows) = MergeRows rows.
Proof. apply compact_round_trip. repeat constructor. Defined.
End Witness.
