(* ===== verification/AddressCache.v ===== *)
(** * The address cache (db/cache/addresscache.go)

    Cached balances, rows, UTXOs and history charts per address, with the
    block they belong to, a capacity in addresses and in rows and a per-address
    UTXO limit.  Each exported method is one atomic step: the cache mutex is
    held by every method that writes.  The map holds pointers to items; an
    item reached through [ac.a[addr]] is modelled by its key, so a write to an
    item that was evicted in between is lost, as it is in the program.  A nil
    pointer or slice is [None]. *)
From S2P Require Import Prelude.
From S2P Require Import AddressRows.

(** ** Data *)
(** [dbtypes.AddressTxnOutput]. *)
Record AddressTxnOutput := mkOut {
  o_Address : string;
  o_PkScript : bytes;
  o_TxHash : Hash;
  o_Vout : Z;
  o_Height : Z;
  o_BlockTime : Z;
  o_Atoms : Z
}.

(** [dbtypes.CoinBalance]; the two fractions are kept as IEEE bit patterns. *)
Record CoinBalance := mkCB {
  cb_CoinType : Z;
  cb_NumSpent : Z;
  cb_NumUnspent : Z;
  cb_TotalSpent : Z;
  cb_TotalUnspent : Z;
  cb_TotalSpentSKA : string;
  cb_TotalUnspentSKA : string;
  cb_TotalReceived : Z;
  cb_TotalReceivedSKA : string;
  cb_FromStake : Z;
  cb_ToStake : Z
}.

(** [dbtypes.AddressBalance]. *)
Record AddressBalance := mkBal {
  b_Address : string;
  b_Coins : gmap Z CoinBalance;
  b_TotalOutputs : Z;
  b_TotalInputs : Z
}.

(** [dbtypes.ChartsData]; the cache stores it without looking inside.  A
    float64 is kept as its IEEE bit pattern. *)
Record ChartsData := mkCD {
  cd_Time : list TimeDef;
  cd_SentRtx : list Z;
  cd_ReceivedRtx : list Z;
  cd_Tickets : list Z;
  cd_Votes : list Z;
  cd_RevokeTx : list Z;
  cd_Received : list Z;
  cd_Sent : list Z;
  cd_Net : list Z;
  cd_Balance : list Z;
  cd_BalanceAtoms : list string;
  cd_ReceivedAtoms : list string;
  cd_SentAtoms : list string;
  cd_NetAtoms : list string
}.
Definition emptyChartsData : ChartsData := mkCD [] [] [] [] [] [] [] [] [] [] [] [] [] [].

#[global] Instance AddressTxnOutput_eq_dec : EqDecision AddressTxnOutput.
Proof. solve_decision. Defined.
#[global] Instance CoinBalance_eq_dec : EqDecision CoinBalance.
Proof. solve_decision. Defined.
#[global] Instance AddressBalance_eq_dec : EqDecision AddressBalance.
Proof. solve_decision. Defined.
#[global] Instance ChartsData_eq_dec : EqDecision ChartsData.
Proof. solve_decision. Defined.

Definition NumIntervals : nat := 5.
Definition CoinTypeAll : Z := 255.

Inductive HistoryChartType := TxsType | AmountFlow | ChartUnknown.

(** One [map[uint8]*ChartsData] per interval; [None] is a nil map. *)
Record TxHistory := mkHist {
  TypeByInterval : list (option (gmap Z ChartsData));
  AmtFlowByInterval : list (option (gmap Z ChartsData))
}.
Definition emptyHistory : TxHistory :=
  mkHist (replicate NumIntervals None) (replicate NumIntervals None).

Record BlockID := mkBlockID { blk_Hash : Hash; blk_Height : Z }.
Definition NewBlockID (hash : Hash) (height : Z) : BlockID := mkBlockID hash height.

Record AddressCacheItem := mkItem {
  balance : option AddressBalance;
  rows : option (list AddressRowCompact);
  utxos : option (list AddressTxnOutput);
  history : TxHistory;
  height : Z;
  hash : Hash
}.

#[global] Instance TxHistory_eq_dec : EqDecision TxHistory.
Proof. solve_decision. Defined.
#[global] Instance BlockID_eq_dec : EqDecision BlockID.
Proof. solve_decision. Defined.
#[global] Instance AddressCacheItem_eq_dec : EqDecision AddressCacheItem.
Proof. solve_decision. Defined.

(** [len] of a slice that may be nil. *)
Definition olen {A} (l : option (list A)) : Z := zlen (default [] l).

(** ** Pages of compact and merged rows *)
Definition CountCreditDebitRowsCompact (rs : list AddressRowCompact) : Z * Z :=
  CountCreditDebit c_IsFunding rs.
Definition unspentCompact (r : AddressRowCompact) : bool :=
  c_IsFunding r && IsZero (c_MatchingTxHash r).
Definition CountUnspentCreditRowsCompact (rs : list AddressRowCompact) : Z :=
  CountUnspent unspentCompact rs.
Definition CountCreditDebitRowsMerged (rs : list AddressRowMerged) : Z * Z :=
  CountCreditDebit m_IsFunding rs.

Definition addressRows (rs : option (list AddressRowCompact)) (N offset : Z) :=
  slice_all rs N offset.
Definition creditAddressRows : option (list AddressRowCompact) → Z → Z → res RowErr (option (list AddressRowCompact)) :=
  slice_matching (λ rs, fst (CountCreditDebitRowsCompact rs)) c_IsFunding true.
Definition creditAddressRowsMerged : option (list AddressRowMerged) → Z → Z → res RowErr (option (list AddressRowMerged)) :=
  slice_matching (λ rs, fst (CountCreditDebitRowsMerged rs)) m_IsFunding true.
(** The two debit functions have no nil return for an offset past the debits. *)
Definition debitAddressRows : option (list AddressRowCompact) → Z → Z → res RowErr (option (list AddressRowCompact)) :=
  slice_matching (λ rs, snd (CountCreditDebitRowsCompact rs)) (λ r, negb (c_IsFunding r)) false.
Definition debitAddressRowsMerged : option (list AddressRowMerged) → Z → Z → res RowErr (option (list AddressRowMerged)) :=
  slice_matching (λ rs, snd (CountCreditDebitRowsMerged rs)) (λ r, negb (m_IsFunding r)) false.
Definition unspentCreditAddressRows : option (list AddressRowCompact) → Z → Z → res RowErr (option (list AddressRowCompact)) :=
  slice_matching CountUnspentCreditRowsCompact unspentCompact true.

(** The dynamic type of an [interface{}] that holds rows. *)
Inductive rowsIface :=
| RowsCompact (rs : option (list AddressRowCompact))
| RowsMerged (rs : option (list AddressRowMerged))
| RowsNil.

Definition res_map {E A B} (f : A → B) (r : res E A) : res E B :=
  match r with Ok a => Ok (f a) | Err e => Err e | Panic => Panic | NoFuel => NoFuel end.

Definition CreditAddressRows (rs : rowsIface) (N offset : Z) : res RowErr rowsIface :=
  match rs with
  | RowsCompact r => res_map RowsCompact (creditAddressRows r N offset)
  | RowsMerged r => res_map RowsMerged (creditAddressRowsMerged r N offset)
  | RowsNil => Ok RowsNil
  end.
Definition DebitAddressRows (rs : rowsIface) (N offset : Z) : res RowErr rowsIface :=
  match rs with
  | RowsCompact r => res_map RowsCompact (debitAddressRows r N offset)
  | RowsMerged r => res_map RowsMerged (debitAddressRowsMerged r N offset)
  | RowsNil => Ok RowsNil
  end.

(** [AllCreditAddressRows] and [AllDebitAddressRows]: the loop appends the
    matching rows, after an early return when there is none. *)
Definition AllCreditAddressRows (rs : list AddressRow) : list AddressRow :=
  if fst (CountCreditDebitRows rs) =? 0 then []
  else foldl (λ out r, if IsFunding r then out ++ [r] else out) [] rs.
Definition AllDebitAddressRows (rs : list AddressRow) : list AddressRow :=
  if snd (CountCreditDebitRows rs) =? 0 then []
  else foldl (λ out r, if negb (IsFunding r) then out ++ [r] else out) [] rs.

(** ** One cache item *)
Definition blockID (d : AddressCacheItem) : BlockID := mkBlockID (hash d) (height d).

Definition item_Balance (d : AddressCacheItem) : option AddressBalance * option BlockID :=
  match balance d with None => (None, None) | Some b => (Some b, Some (blockID d)) end.
Definition item_UTXOs (d : AddressCacheItem) : option (list AddressTxnOutput) * option BlockID :=
  match utxos d with None => (None, None) | Some u => (Some u, Some (blockID d)) end.
Definition item_Rows (d : AddressCacheItem) : option (list AddressRowCompact) * option BlockID :=
  match rows d with None => (None, None) | Some r => (Some r, Some (blockID d)) end.
Definition item_NumRows (d : AddressCacheItem) : Z * option BlockID :=
  match rows d with None => (-1, None) | Some r => (zlen r, Some (blockID d)) end.

(** The array of an interval chart. *)
Definition chartsOf (h : TxHistory) (c : HistoryChartType) : option (list (option (gmap Z ChartsData))) :=
  match c with
  | TxsType => Some (TypeByInterval h)
  | AmountFlow => Some (AmtFlowByInterval h)
  | ChartUnknown => None
  end.

(** An index of an array of [NumIntervals] panics when negative; values past
    the end are refused first. *)
Definition item_HistoryChart (d : AddressCacheItem) (addrChart : HistoryChartType)
    (chartGrouping coinType : Z) : res RowErr (option ChartsData * option BlockID) :=
  if Z.of_nat NumIntervals <=? chartGrouping then Ok (None, None) else
  match chartsOf (history d) addrChart with
  | None => Ok (None, None)
  | Some arr =>
    match slice_at arr chartGrouping with
    | None => Panic
    | Some m =>
      match m ≫= λ m, m !! coinType with
      | None => Ok (None, None)
      | Some cd => Ok (Some cd, Some (blockID d))
      end
    end
  end.

Inductive CacheErr :=
| EInvalidArgs (offset N : Z)
| EInvalidView (view : AddrTxnViewType)
| EWrongRowType
| ERows (e : RowErr).

(** The selection after the checks, on the main chain rows. *)
Definition selectRows (filteredRows : list AddressRowCompact) (N offset : Z)
    (txnView : AddrTxnViewType) : res CacheErr rowsIface :=
  let lift {A} (f : A → rowsIface) (r : res RowErr A) : res CacheErr rowsIface :=
    match r with
    | Ok a => Ok (f a) | Err e => Err (ERows e) | Panic => Panic | NoFuel => NoFuel
    end in
  match txnView with
  | AddrTxnAll => lift RowsCompact (addressRows (Some filteredRows) N offset)
  | AddrTxnCredit => lift RowsCompact (creditAddressRows (Some filteredRows) N offset)
  | AddrTxnDebit => lift RowsCompact (debitAddressRows (Some filteredRows) N offset)
  | AddrMergedTxn | AddrMergedTxnCredit | AddrMergedTxnDebit =>
    lift RowsMerged (MergeRowsCompactRange filteredRows N offset txnView)
  | AddrUnspentTxn => lift RowsCompact (unspentCreditAddressRows (Some filteredRows) N offset)
  | _ => Err (EInvalidView txnView)
  end.

Definition item_Transactions (d : AddressCacheItem) (N offset : Z)
    (txnView : AddrTxnViewType) : res CacheErr (rowsIface * option BlockID) :=
  if (offset <? 0) || (N <? 0) then Err (EInvalidArgs offset N) else
  match IsMergedView txnView with
  | None => Err (EInvalidView txnView)
  | Some merged =>
    match rows d with
    | None => Ok (if merged then RowsMerged None else RowsCompact None, None)
    | Some rs =>
      let filteredRows := List.filter c_ValidMainChain rs in
      let numRows := zlen filteredRows in
      if (N =? 0) || (numRows =? 0) || (numRows <=? offset) then
        Ok (if merged then RowsMerged (Some []) else RowsCompact (Some []), Some (blockID d))
      else res_map (λ r, (r, Some (blockID d))) (selectRows filteredRows N offset txnView)
    end
  end.

Definition setBlock (block : BlockID) (d : AddressCacheItem) : AddressCacheItem :=
  if decide (blk_Hash block = hash d) then d
  else mkItem None None None emptyHistory (blk_Height block) (blk_Hash block).

Definition set_rows (r : option (list AddressRowCompact)) (d : AddressCacheItem) :=
  mkItem (balance d) r (utxos d) (history d) (height d) (hash d).
Definition set_utxos (u : option (list AddressTxnOutput)) (d : AddressCacheItem) :=
  mkItem (balance d) (rows d) u (history d) (height d) (hash d).
Definition set_balance (b : option AddressBalance) (d : AddressCacheItem) :=
  mkItem b (rows d) (utxos d) (history d) (height d) (hash d).
Definition set_history (h : TxHistory) (d : AddressCacheItem) :=
  mkItem (balance d) (rows d) (utxos d) h (height d) (hash d).

Definition SetRows (block : BlockID) (r : option (list AddressRowCompact)) (d : AddressCacheItem) :=
  set_rows r (setBlock block d).
Definition SetUTXOs (block : BlockID) (u : option (list AddressTxnOutput)) (d : AddressCacheItem) :=
  set_utxos u (setBlock block d).
Definition SetBalance (block : BlockID) (b : option AddressBalance) (d : AddressCacheItem) :=
  set_balance b (setBlock block d).

(** ** Hit and miss counters *)
Record cacheCounts := mkCounts { hits : Z; misses : Z }.
Record cacheMetrics := mkMetrics {
  rowMetrics : cacheCounts;
  utxoMetrics : cacheCounts;
  balanceMetrics : cacheCounts;
  historyMetrics : cacheCounts
}.
Definition hit (c : cacheCounts) : cacheCounts := mkCounts (i64 (hits c + 1)) (misses c).
Definition miss (c : cacheCounts) : cacheCounts := mkCounts (hits c) (i64 (misses c + 1)).

Definition onRow (f : cacheCounts → cacheCounts) (cm : cacheMetrics) : cacheMetrics :=
  mkMetrics (f (rowMetrics cm)) (utxoMetrics cm) (balanceMetrics cm) (historyMetrics cm).
Definition onUtxo (f : cacheCounts → cacheCounts) (cm : cacheMetrics) : cacheMetrics :=
  mkMetrics (rowMetrics cm) (f (utxoMetrics cm)) (balanceMetrics cm) (historyMetrics cm).
Definition onBalance (f : cacheCounts → cacheCounts) (cm : cacheMetrics) : cacheMetrics :=
  mkMetrics (rowMetrics cm) (utxoMetrics cm) (f (balanceMetrics cm)) (historyMetrics cm).
Definition onHistory (f : cacheCounts → cacheCounts) (cm : cacheMetrics) : cacheMetrics :=
  mkMetrics (rowMetrics cm) (utxoMetrics cm) (balanceMetrics cm) (f (historyMetrics cm)).

(** ** The cache *)
Record AddressCache := mkAC {
  a : gmap string AddressCacheItem;
  cap : Z;
  capAddr : Z;
  maxUTXOsPerAddr : Z;
  metrics : cacheMetrics
}.

Definition approxTxnOutSize : Z := 180.

(** Go's integer division truncates toward zero. *)
Definition NewAddressCache (rowCapacity addressCapacity utxoCapacityBytes : Z) : AddressCache :=
  let c0 := mkCounts 0 0 in
  mkAC ∅ rowCapacity addressCapacity
    (if 0 <? addressCapacity
     then Z.quot (Z.quot utxoCapacityBytes approxTxnOutSize) addressCapacity else 0)
    (mkMetrics c0 c0 c0 c0).

Abbreviation AC := (goM AddressCache CacheErr).

Definition set_a (m : gmap string AddressCacheItem) (ac : AddressCache) : AddressCache :=
  mkAC m (cap ac) (capAddr ac) (maxUTXOsPerAddr ac) (metrics ac).
Definition set_metrics (cm : cacheMetrics) (ac : AddressCache) : AddressCache :=
  mkAC (a ac) (cap ac) (capAddr ac) (maxUTXOsPerAddr ac) cm.
Definition count (f : cacheMetrics → cacheMetrics) : AC unit :=
  modify (λ ac, set_metrics (f (metrics ac)) ac).

Definition addressCacheItem (addr : string) : AC (option AddressCacheItem) :=
  gets (λ ac, a ac !! addr).

Definition ClearAll : AC Z :=
  numCleared ← gets (λ ac, Z.of_nat (size (a ac)));
  _ ← modify (set_a ∅);
  mret numCleared.

Fixpoint Clear_loop (addrs : list string) (numCleared : Z) : AC Z :=
  match addrs with
  | [] => mret numCleared
  | addr :: rest =>
    found ← gets (λ ac, a ac !! addr);
    match found with
    | None => Clear_loop rest numCleared
    | Some _ => _ ← modify (λ ac, set_a (delete addr (a ac)) ac); Clear_loop rest (numCleared + 1)
    end
  end.

Definition Clear (addrs : option (list string)) : AC Z :=
  match addrs with
  | None => ClearAll
  | Some addrs => Clear_loop addrs 0
  end.

Definition Balance (addr : string) : AC (option AddressBalance * option BlockID) :=
  aci ← addressCacheItem addr;
  match aci with
  | None => _ ← count (onBalance miss); mret (None, None)
  | Some aci => _ ← count (onBalance hit); mret (item_Balance aci)
  end.

Definition UTXOs (addr : string) : AC (option (list AddressTxnOutput) * option BlockID) :=
  aci ← addressCacheItem addr;
  match aci with
  | None => _ ← count (onUtxo miss); mret (None, None)
  | Some aci => _ ← count (onUtxo hit); mret (item_UTXOs aci)
  end.

Definition HistoryChart (addr : string) (addrChart : HistoryChartType) (chartGrouping coinType : Z)
    : AC (option ChartsData * option BlockID) :=
  aci ← addressCacheItem addr;
  match aci with
  | None => _ ← count (onHistory miss); mret (None, None)
  | Some aci =>
    match item_HistoryChart aci addrChart chartGrouping coinType with
    | Ok (Some cd, Some blk) => _ ← count (onHistory hit); mret (Some cd, Some blk)
    | Ok _ => _ ← count (onHistory miss); mret (None, None)
    | Err e => fail (ERows e)
    | _ => panic
    end
  end.

(** A slice built by appending to a nil slice stays nil when nothing is kept. *)
Definition nil_if_empty {A} (l : list A) : option (list A) :=
  match l with [] => None | _ => Some l end.

Definition Rows (addr : string) (coinType : Z) : AC (option (list AddressRowCompact) * option BlockID) :=
  aci ← addressCacheItem addr;
  match aci with
  | None => _ ← count (onRow miss); mret (None, None)
  | Some aci =>
    match fst (item_Rows aci) with
    | None => _ ← count (onRow miss); mret (None, None)
    | Some rs =>
      _ ← count (onRow hit);
      if coinType =? CoinTypeAll then mret (Some rs, Some (blockID aci))
      else mret (nil_if_empty (List.filter (λ r, c_CoinType r =? coinType) rs), Some (blockID aci))
    end
  end.

Definition NumRows (addr : string) : AC (Z * option BlockID) :=
  aci ← addressCacheItem addr;
  match aci with
  | None => mret (-1, None)
  | Some aci => mret (item_NumRows aci)
  end.

Definition liftRes {A} (r : res CacheErr A) : AC A :=
  match r with
  | Ok x => mret x | Err e => fail e | Panic => panic | NoFuel => λ ac, (NoFuel, ac)
  end.

Definition TransactionsMerged (addr : string) (N offset : Z) (txnType : AddrTxnViewType)
    : AC (option (list AddressRowMerged) * option BlockID) :=
  aci ← addressCacheItem addr;
  match aci with
  | None => _ ← count (onRow miss); mret (None, None)
  | Some aci =>
    _ ← count (onRow hit);
    rb ← liftRes (item_Transactions aci N offset txnType);
    match rb with
    | (RowsMerged r, blk) => mret (r, blk)
    | _ => fail EWrongRowType
    end
  end.

Definition TransactionsCompact (addr : string) (N offset : Z) (txnType : AddrTxnViewType)
    : AC (option (list AddressRowCompact) * option BlockID) :=
  aci ← addressCacheItem addr;
  match aci with
  | None => _ ← count (onRow miss); mret (None, None)
  | Some aci =>
    _ ← count (onRow hit);
    rb ← liftRes (item_Transactions aci N offset txnType);
    match rb with
    | (RowsCompact r, blk) => mret (r, blk)
    | _ => fail EWrongRowType
    end
  end.

Definition Transactions (addr : string) (N offset : Z) (txnType : AddrTxnViewType)
    : AC (option (list AddressRow) * option BlockID) :=
  match IsMergedView txnType with
  | None => fail (EInvalidView txnType)
  | Some true =>
    rb ← TransactionsMerged addr N offset txnType;
    mret (UncompactMergedRows (fst rb), snd rb)
  | Some false =>
    rb ← TransactionsCompact addr N offset txnType;
    mret (UncompactRows (fst rb), snd rb)
  end.

Definition numRows (m : gmap string AddressCacheItem) : Z := map_sum (λ aci, olen (rows aci)) m.
Definition numUTXOs (m : gmap string AddressCacheItem) : Z := map_sum (λ aci, olen (utxos aci)) m.
Definition length_ (ac : AddressCache) : Z * Z * Z :=
  (Z.of_nat (size (a ac)), numRows (a ac), numUTXOs (a ac)).
Definition Length : AC (Z * Z * Z) := gets length_.
Definition NumAddresses : AC Z := gets (λ ac, Z.of_nat (size (a ac))).

(** ** Eviction and stores *)
Section Stores.
(** The order in which [range ac.a] visits the map. *)
Context {R : RangeOrder string AddressCacheItem}.

(** [for a := range ac.a { delete(ac.a, a); break }]. *)
Definition evict_any : AC unit := modify (λ ac,
  match range_of (a ac) with
  | [] => ac
  | (k, _) :: _ => set_a (delete k (a ac)) ac
  end).

(** The inner loop of the row purge: delete the first item with rows. *)
Definition evict_rows : AC unit := modify (λ ac,
  match List.find (λ kv, negb (olen (rows kv.2) =? 0)) (range_of (a ac)) with
  | None => ac
  | Some (k, _) => set_a (delete k (a ac)) ac
  end).

Definition disabled (ac : AddressCache) : bool := (cap ac <? 1) || (capAddr ac <? 1).

Definition over_addrs (ac : AddressCache) : bool := capAddr ac <=? Z.of_nat (size (a ac)).
Definition over_rows (numNew : Z) (ac : AddressCache) : bool :=
  (0 <? numRows (a ac)) && (cap ac <? numRows (a ac) + numNew).

(** Each iteration of either loop removes an entry, so the number of entries
    is enough fuel. *)
Definition purgeRowsToFit (numNew : Z) : AC bool :=
  off ← gets (A:=bool) disabled;
  if off : bool then mret false else
  fuel1 ← gets (λ ac, size (a ac));
  _ ← while fuel1 over_addrs evict_any;
  fuel2 ← gets (λ ac, size (a ac));
  _ ← while fuel2 (over_rows numNew) evict_rows;
  gets (λ ac, (numRows (a ac) + numNew <=? cap ac) && (Z.of_nat (size (a ac)) <? capAddr ac)).

Definition addCacheItem (addr : string) (aci : AddressCacheItem) : AC bool :=
  off ← gets (A:=bool) disabled;
  if off : bool then mret false else
  aci0 ← gets (λ ac, a ac !! addr);
  let alreadyStored := match aci0 with None => 0 | Some aci0 => olen (rows aci0) end in
  haveSpace ← purgeRowsToFit (olen (rows aci) - alreadyStored);
  if haveSpace : bool then
    _ ← modify (λ ac, set_a (<[addr := aci]> (a ac)) ac); mret true
  else mret false.

(** [aci.f = v] for the item that was read at [ac.a[addr]]: the map entry, if
    the map still has it, is that item. *)
Definition write_item (addr : string) (f : AddressCacheItem → AddressCacheItem) : AC unit :=
  modify (λ ac, set_a (alter f addr (a ac)) ac).

(** [AddressCacheItem{height: .., hash: ..}]. *)
Definition newItem (block : BlockID) : AddressCacheItem :=
  mkItem None None None emptyHistory (blk_Height block) (blk_Hash block).

(** [aci == nil || aci.BlockHash() != block.Hash]. *)
Definition stale (aci : option AddressCacheItem) (block : BlockID) : bool :=
  match aci with None => true | Some aci => negb (bool_decide (hash aci = blk_Hash block)) end.

Definition setCacheItemRows (addr : string) (rs : list AddressRowCompact) (block : option BlockID) : AC bool :=
  off ← gets (A:=bool) disabled;
  match block with
  | None => mret false
  | Some block =>
    if off : bool then mret false else
    aci ← gets (λ ac, a ac !! addr);
    match aci with
    | None => addCacheItem addr (set_rows (Some rs) (newItem block))
    | Some item =>
      if stale aci block then addCacheItem addr (set_rows (Some rs) (newItem block)) else
      let alreadyStored := olen (rows item) in
      if bool_decide (is_Some (rows item)) && (alreadyStored =? zlen rs) then mret true else
      haveSpace ← purgeRowsToFit (zlen rs - alreadyStored);
      if haveSpace : bool then
        _ ← write_item addr (set_rows (Some rs)); mret true
      else mret false
    end
  end.

Definition StoreRowsCompact (addr : string) (rs : option (list AddressRowCompact)) (block : option BlockID) : AC bool :=
  off ← gets (A:=bool) disabled;
  if bool_decide (block = None) || off then mret false
  else setCacheItemRows addr (default [] rs) block.

Definition StoreRows (addr : string) (rs : option (list AddressRow)) (block : option BlockID) : AC bool :=
  off ← gets (A:=bool) disabled;
  if bool_decide (block = None) || off then mret false
  else StoreRowsCompact addr (Some (match rs with None => [] | Some rs => CompactRows rs end)) block.

(** [arr[i][coinType] = cd], making the map first when it is nil. *)
Definition storeChart (i : nat) (coinType : Z) (cd : ChartsData)
    (arr : list (option (gmap Z ChartsData))) : list (option (gmap Z ChartsData)) :=
  alter (λ m, Some (<[coinType := cd]> (default ∅ m))) i arr.

Definition setChart (c : HistoryChartType) (i : nat) (coinType : Z) (cd : ChartsData) (h : TxHistory) : TxHistory :=
  match c with
  | TxsType => mkHist (storeChart i coinType cd (TypeByInterval h)) (AmtFlowByInterval h)
  | AmountFlow => mkHist (TypeByInterval h) (storeChart i coinType cd (AmtFlowByInterval h))
  | ChartUnknown => h
  end.

Definition StoreHistoryChart (addr : string) (addrChart : HistoryChartType)
    (chartGrouping coinType : Z) (cd : option ChartsData) (block : option BlockID) : AC bool :=
  off ← gets (A:=bool) disabled;
  match block with
  | None => mret false
  | Some block =>
    if off : bool then mret false else
    if Z.of_nat NumIntervals <=? chartGrouping then mret false else
    let cd := default emptyChartsData cd in
    aci ← gets (λ ac, a ac !! addr);
    ready ← match aci return AC bool with
            | None => addCacheItem addr (newItem block)
            | Some _ => mret true
            end;
    if negb ready then mret false else
    match addrChart with
    | ChartUnknown => mret false
    | _ =>
      if chartGrouping <? 0 then panic else
      _ ← write_item addr (λ aci,
            set_history (setChart addrChart (Z.to_nat chartGrouping) coinType cd (history aci)) aci);
      mret true
    end
  end.

Definition StoreBalance (addr : string) (bal : option AddressBalance) (block : option BlockID) : AC bool :=
  off ← gets (A:=bool) disabled;
  match block with
  | None => mret false
  | Some block =>
    if off : bool then mret false else
    aci ← gets (λ ac, a ac !! addr);
    let b := match bal with None => mkBal addr ∅ 0 0 | Some b => b end in
    if stale aci block then addCacheItem addr (set_balance (Some b) (newItem block))
    else _ ← write_item addr (set_balance (Some b)); mret true
  end.

Definition StoreUTXOs (addr : string) (us : option (list AddressTxnOutput)) (block : option BlockID) : AC bool :=
  off ← gets (A:=bool) disabled;
  match block with
  | None => mret false
  | Some block =>
    if off : bool then mret false else
    tooMany ← gets (λ ac, maxUTXOsPerAddr ac <? olen us);
    if tooMany : bool then mret false else
    aci ← gets (λ ac, a ac !! addr);
    let us := Some (default [] us) in
    match aci with
    | None => addCacheItem addr (set_utxos us (newItem block))
    | Some _ => _ ← write_item addr (set_utxos us); mret true
    end
  end.

Definition ClearUTXOs (addr : string) : AC unit :=
  aci ← gets (λ ac, a ac !! addr);
  match aci with None => mret tt | Some _ => write_item addr (set_utxos None) end.

Definition ClearRows (addr : string) : AC unit :=
  aci ← gets (λ ac, a ac !! addr);
  match aci with None => mret tt | Some _ => write_item addr (set_rows None) end.
End Stores.

(** ** Behaviour of eviction *)
Lemma gets_bind {A B} (f : AddressCache → A) (k : A → AC B) ac : (gets f ≫= k) ac = k (f ac) ac.
Proof. done. Qed.

Lemma olen_nonneg {A} (l : option (list A)) : 0 <= olen l.
Proof. apply zlen_nonneg. Qed.

Lemma set_a_id ac : set_a (a ac) ac = ac.
Proof. by destruct ac. Qed.
Lemma set_a_twice m m' ac : set_a m (set_a m' ac) = set_a m ac.
Proof. done. Qed.

Section Eviction.
Context {R : RangeOrder string AddressCacheItem}.

Lemma evict_any_spec ac :
  a ac ≠ ∅ → ∃ m, evict_any ac = (Ok tt, set_a m ac) ∧ m ⊆ a ac ∧ (size m < size (a ac))%nat.
Proof.
  intros Hne. unfold evict_any, modify. destruct (range_of (a ac)) as [|[k it] l] eqn:E.
  - destruct Hne. apply map_size_empty_iff. rewrite <- length_range, E. done.
  - assert (a ac !! k = Some it) as Hk by (apply elem_of_range; rewrite E; left).
    eexists. split; [done|]. split; [apply delete_subseteq|].
    rewrite (map_size_delete_Some (M:=gmap string)) by eauto.
    destruct (size (a ac)) eqn:Es; [|cbn; lia].
    apply map_size_empty_iff in Es. rewrite Es in Hk. by rewrite lookup_empty in Hk.
Qed.

Lemma evict_rows_spec ac :
  0 < numRows (a ac) →
  ∃ m, evict_rows ac = (Ok tt, set_a m ac) ∧ m ⊆ a ac ∧ (size m < size (a ac))%nat.
Proof.
  intros Hpos. unfold evict_rows, modify.
  destruct (map_sum_pos _ _ (λ it, olen_nonneg (rows it)) Hpos) as (k & it & Hk & Hr).
  destruct (List.find _ _) as [[k' it']|] eqn:E.
  - apply find_some in E as [Hin _]. apply list_elem_of_In, elem_of_range in Hin.
    eexists. split; [done|]. split; [apply delete_subseteq|].
    rewrite (map_size_delete_Some (M:=gmap string)) by eauto.
    destruct (size (a ac)) eqn:Es; [|cbn; lia].
    apply map_size_empty_iff in Es. rewrite Es in Hk. by rewrite lookup_empty in Hk.
  - apply (find_none _ _) with (x := (k, it)) in E.
    + cbn in E. destruct (Z.eqb_spec (olen (rows it)) 0); [lia|done].
    + by apply list_elem_of_In, elem_of_range.
Qed.

Lemma purgeRowsToFit_spec n ac :
  disabled ac = false →
  ∃ m, purgeRowsToFit n ac = (Ok (numRows m + n <=? cap ac), set_a m ac) ∧
       m ⊆ a ac ∧ Z.of_nat (size m) < capAddr ac ∧
       (numRows m = 0 ∨ numRows m + n <= cap ac).
Proof.
  intros Hd. unfold purgeRowsToFit, gets, mbind, goM_bind. rewrite Hd.
  unfold disabled in Hd. apply orb_false_iff in Hd as [Hc%Z.ltb_ge Ha%Z.ltb_ge].
  destruct (while_total (λ s, ∃ m, s = set_a m ac ∧ m ⊆ a ac) (λ s, size (a s))
    over_addrs evict_any (size (a ac)) ac) as (s1 & -> & (m1 & -> & Hm1) & Hc1).
  { intros s (m & -> & Hm) Ho. unfold over_addrs in Ho. apply Z.leb_le in Ho. cbn in Ho.
    destruct (evict_any_spec (set_a m ac)) as (m' & -> & Hm' & Hs').
    { cbn. intros ->. rewrite map_size_empty in Ho. lia. }
    eexists. split; [done|]. split; [|done]. exists m'. split; [done|]. by etrans. }
  { exists (a ac). by rewrite set_a_id. }
  { done. }
  destruct (while_total (λ s, ∃ m, s = set_a m ac ∧ m ⊆ m1) (λ s, size (a s))
    (over_rows n) evict_rows (size (a (set_a m1 ac))) (set_a m1 ac)) as (s2 & -> & (m2 & -> & Hm2) & Hc2).
  { intros s (m & -> & Hm) Ho. unfold over_rows in Ho.
    apply andb_true_iff in Ho as [Ho%Z.ltb_lt _]. cbn in Ho.
    destruct (evict_rows_spec (set_a m ac)) as (m' & -> & Hm' & Hs'); [done|].
    eexists. split; [done|]. split; [|done]. exists m'. split; [done|]. by etrans. }
  { by exists m1. }
  { done. }
  exists m2. unfold over_addrs in Hc1. unfold over_rows in Hc2.
  apply Z.leb_gt in Hc1. cbn in *. pose proof (map_subseteq_size _ _ Hm2).
  destruct (Z.ltb_spec (Z.of_nat (size m2)) (capAddr ac)); [|lia].
  rewrite andb_true_r. split; [done|]. split; [by etrans|]. split; [done|].
  pose proof (map_sum_nonneg _ m2 (λ it, olen_nonneg (rows it))) as Hnn.
  apply andb_false_iff in Hc2 as [Hz%Z.ltb_ge|Hz%Z.ltb_ge]; [|by right].
  left. unfold numRows in *. lia.
Qed.

(** What [alreadyStored] is. *)
Definition stored (ac : AddressCache) (addr : string) : Z :=
  match a ac !! addr with None => 0 | Some it => olen (rows it) end.

Lemma addCacheItem_spec addr it ac :
  disabled ac = false →
  ∃ m, m ⊆ a ac ∧ Z.of_nat (size m) < capAddr ac ∧
    let n := olen (rows it) - stored ac addr in
    (numRows m = 0 ∨ numRows m + n <= cap ac) ∧
    addCacheItem addr it ac =
      if numRows m + n <=? cap ac then (Ok true, set_a (<[addr := it]> m) ac)
      else (Ok false, set_a m ac).
Proof.
  intros Hd. destruct (purgeRowsToFit_spec (olen (rows it) - stored ac addr) ac Hd)
    as (m & Hp & Hsub & Hs & Hr).
  exists m. do 3 (split; [done|]). unfold addCacheItem, gets, mbind, goM_bind. rewrite Hd.
  unfold stored in Hp |- *. rewrite Hp. by destruct (_ <=? _).
Qed.
End Eviction.

(** ** Calls as steps *)
Inductive op :=
| OpStoreRows (addr : string) (rs : option (list AddressRow)) (block : option BlockID)
| OpStoreRowsCompact (addr : string) (rs : option (list AddressRowCompact)) (block : option BlockID)
| OpStoreHistoryChart (addr : string) (c : HistoryChartType) (grouping coinType : Z)
    (cd : option ChartsData) (block : option BlockID)
| OpStoreBalance (addr : string) (bal : option AddressBalance) (block : option BlockID)
| OpStoreUTXOs (addr : string) (us : option (list AddressTxnOutput)) (block : option BlockID)
| OpClearUTXOs (addr : string)
| OpClearRows (addr : string)
| OpClear (addrs : option (list string))
| OpBalance (addr : string)
| OpUTXOs (addr : string)
| OpHistoryChart (addr : string) (c : HistoryChartType) (grouping coinType : Z)
| OpRows (addr : string) (coinType : Z)
| OpTransactions (addr : string) (N offset : Z) (view : AddrTxnViewType).

Definition run {A} (m : AC A) : AC unit := _ ← m; mret tt.

Definition exec (R : RangeOrder string AddressCacheItem) (o : op) : AC unit :=
  match o with
  | OpStoreRows addr rs block => run (StoreRows addr rs block)
  | OpStoreRowsCompact addr rs block => run (StoreRowsCompact addr rs block)
  | OpStoreHistoryChart addr c g ct cd block => run (StoreHistoryChart addr c g ct cd block)
  | OpStoreBalance addr bal block => run (StoreBalance addr bal block)
  | OpStoreUTXOs addr us block => run (StoreUTXOs addr us block)
  | OpClearUTXOs addr => ClearUTXOs addr
  | OpClearRows addr => ClearRows addr
  | OpClear addrs => run (Clear addrs)
  | OpBalance addr => run (Balance addr)
  | OpUTXOs addr => run (UTXOs addr)
  | OpHistoryChart addr c g ct => run (HistoryChart addr c g ct)
  | OpRows addr ct => run (Rows addr ct)
  | OpTransactions addr N offset view => run (Transactions addr N offset view)
  end.

(** The states of a cache after a sequence of calls, with the calls made, the
    latest first.  Each call ranges over the map in its own order. *)
Inductive reached (rowCap addrCap utxoBytes : Z) : list op → AddressCache → Prop :=
| reached_new : reached rowCap addrCap utxoBytes [] (NewAddressCache rowCap addrCap utxoBytes)
| reached_step R o tr ac :
    reached rowCap addrCap utxoBytes tr ac →
    reached rowCap addrCap utxoBytes (o :: tr) (exec R o ac).2.

(** ** A shared invariant

    [I] is a property of the items; the address bound comes with it. *)
Definition same_config (ac ac' : AddressCache) : Prop :=
  cap ac' = cap ac ∧ capAddr ac' = capAddr ac ∧ maxUTXOsPerAddr ac' = maxUTXOsPerAddr ac.

Record good (I : string → AddressCacheItem → Prop) (ac : AddressCache) : Prop := {
  good_size : Z.of_nat (size (a ac)) <= Z.max 0 (capAddr ac);
  good_items : map_Forall I (a ac)
}.

(** [f] keeps [good I] and the configuration, and never runs out of fuel. *)
Definition keeps {A} (I : string → AddressCacheItem → Prop) (f : AC A) (ac : AddressCache) : Prop :=
  good I ac → good I (f ac).2 ∧ same_config ac (f ac).2 ∧ (f ac).1 ≠ NoFuel.

Section Keeps.
Context {R : RangeOrder string AddressCacheItem} (I : string → AddressCacheItem → Prop).

Lemma same_config_refl ac : same_config ac ac.
Proof. done. Qed.
Lemma good_shrink ac m : good I ac → m ⊆ a ac → good I (set_a m ac).
Proof.
  intros [Hs Hi] Hm. split; cbn.
  - pose proof (map_subseteq_size _ _ Hm). lia.
  - intros k it Hk. apply Hi. by eapply lookup_weaken.
Qed.
Lemma good_put ac m addr it :
  good I ac → m ⊆ a ac → Z.of_nat (size m) < capAddr ac → I addr it →
  good I (set_a (<[addr := it]> m) ac).
Proof.
  intros Hg Hm Hs Hit. destruct (good_shrink ac m Hg Hm) as [_ Hi]. split; cbn in *.
  - rewrite map_size_insert. destruct (m !! addr); cbn; lia.
  - by apply map_Forall_insert_2.
Qed.

Lemma keeps_ret {A} (x : A) ac : keeps I (mret x) ac.
Proof. intros ?. done. Qed.
Lemma keeps_bind {A B} (f : AC A) (k : A → AC B) ac :
  keeps I f ac → (∀ x ac', keeps I (k x) ac') → keeps I (f ≫= k) ac.
Proof.
  intros Hf Hk Hg. destruct (Hf Hg) as (Hg' & (? & ? & ?) & Hn). unfold mbind, goM_bind.
  destruct (f ac) as [[x|e| |] ac']; try done. cbn in *.
  destruct (Hk x ac' Hg') as (? & (? & ? & ?) & ?). split_and!; [done| |done].
  split_and!; congruence.
Qed.
Lemma keeps_count {A} g (k : AC A) ac :
  keeps I k (set_metrics (g (metrics ac)) ac) → keeps I (count g ≫= λ _, k) ac.
Proof. intros Hk [Hs Hi]. apply Hk. by split. Qed.
Lemma keeps_gets {A B} (f : AddressCache → A) (k : A → AC B) ac :
  keeps I (k (f ac)) ac → keeps I (gets f ≫= k) ac.
Proof. done. Qed.
Lemma keeps_run {A} (f : AC A) ac : keeps I f ac → keeps I (run f) ac.
Proof.
  intros Hf Hg. destruct (Hf Hg) as (H1 & H2 & H3). unfold run, mbind, goM_bind.
  destruct (f ac) as [[] ?]; done.
Qed.
Lemma keeps_fail {A} e ac : keeps I (fail e : AC A) ac.
Proof. intros ?. done. Qed.
Lemma keeps_panic {A} ac : keeps I (panic : AC A) ac.
Proof. intros ?. done. Qed.

Lemma keeps_write addr f ac :
  (∀ it, a ac !! addr = Some it → I addr it → I addr (f it)) → keeps I (write_item addr f) ac.
Proof.
  intros Hf [Hs Hi]. unfold write_item, modify. cbn. split; [|done]. split; cbn.
  - by rewrite <- (size_dom (alter f addr (a ac))), dom_alter_L, size_dom.
  - intros k it. destruct (decide (k = addr)) as [->|Hne].
    + rewrite lookup_alter_eq. intros (it0 & E & ->)%fmap_Some.
      apply Hf; [done|]. by apply Hi.
    + rewrite lookup_alter_ne by done. apply Hi.
Qed.

Lemma keeps_write_ret {A} addr f (x : A) ac :
  (∀ it, a ac !! addr = Some it → I addr it → I addr (f it)) →
  keeps I (write_item addr f ≫= λ _, mret x) ac.
Proof. intros Hf Hg. by destruct (keeps_write addr f ac Hf Hg) as (? & ? & _). Qed.

Lemma keeps_addCacheItem addr it ac : I addr it → keeps I (addCacheItem addr it) ac.
Proof.
  intros Hit Hg. destruct (disabled ac) eqn:Hd.
  { unfold addCacheItem, gets, mbind, goM_bind. by rewrite Hd. }
  destruct (addCacheItem_spec addr it ac Hd) as (m & Hm & Hs & _ & ->).
  destruct (_ <=? _); cbn; (split; [|done]); [by apply good_put|by apply good_shrink].
Qed.

Lemma keeps_purge {A} n (k : bool → AC A) ac :
  disabled ac = false → (∀ m b, m ⊆ a ac → keeps I (k b) (set_a m ac)) →
  keeps I (purgeRowsToFit n ≫= k) ac.
Proof.
  intros Hd Hk Hg. destruct (purgeRowsToFit_spec n ac Hd) as (m & E & Hm & _ & _).
  unfold mbind, goM_bind. rewrite E. by apply (Hk m), good_shrink.
Qed.

Lemma keeps_setCacheItemRows addr rs b ac :
  I addr (set_rows (Some rs) (newItem b)) →
  (∀ it, I addr it → hash it = blk_Hash b → I addr (set_rows (Some rs) it)) →
  keeps I (setCacheItemRows addr rs (Some b)) ac.
Proof.
  intros Hnew Hupd. unfold setCacheItemRows. apply keeps_gets.
  destruct (disabled ac) eqn:Hd; [apply keeps_ret|]. apply keeps_gets.
  destruct (a ac !! addr) as [item|] eqn:Ei; [|by apply keeps_addCacheItem].
  destruct (stale (Some item) b) eqn:Est; [by apply keeps_addCacheItem|].
  assert (hash item = blk_Hash b) as Hh.
  { cbn in Est. by apply negb_false_iff, bool_decide_eq_true in Est. }
  destruct (_ && _); [apply keeps_ret|]. apply keeps_purge; [done|]. intros m [] Hm; [|apply keeps_ret].
  apply keeps_write_ret. intros it Hit HI. cbn in Hit. assert (it = item) as -> by
    (eapply lookup_weaken in Hit; [|done]; congruence). by apply Hupd.
Qed.

(** What the item property must satisfy for a call to keep it. *)
Definition op_ok (maxU : Z) (o : op) : Prop :=
  match o with
  | OpStoreRows addr rs (Some b) =>
    let rs := match rs with None => [] | Some rs => CompactRows rs end in
    I addr (set_rows (Some rs) (newItem b)) ∧
    ∀ it, I addr it → hash it = blk_Hash b → I addr (set_rows (Some rs) it)
  | OpStoreRowsCompact addr rs (Some b) =>
    I addr (set_rows (Some (default [] rs)) (newItem b)) ∧
    ∀ it, I addr it → hash it = blk_Hash b → I addr (set_rows (Some (default [] rs)) it)
  | OpStoreHistoryChart addr _ _ _ _ (Some b) =>
    I addr (newItem b) ∧ ∀ it h, I addr it → I addr (set_history h it)
  | OpStoreBalance addr bal (Some b) =>
    let bl := Some (default (mkBal addr ∅ 0 0) bal) in
    I addr (set_balance bl (newItem b)) ∧
    ∀ it, I addr it → hash it = blk_Hash b → I addr (set_balance bl it)
  | OpStoreUTXOs addr us (Some b) =>
    olen us <= maxU →
    I addr (set_utxos (Some (default [] us)) (newItem b)) ∧
    ∀ it, I addr it → I addr (set_utxos (Some (default [] us)) it)
  | OpClearUTXOs addr => ∀ it, I addr it → I addr (set_utxos None it)
  | OpClearRows addr => ∀ it, I addr it → I addr (set_rows None it)
  | _ => True
  end.

Lemma keeps_Clear_loop addrs n ac : keeps I (Clear_loop addrs n) ac.
Proof.
  revert n ac. induction addrs as [|x addrs IH]; intros n ac; [apply keeps_ret|].
  cbn [Clear_loop]. apply keeps_gets. destruct (a ac !! x); [|apply IH].
  intros Hg. destruct (IH (n + 1) (set_a (delete x (a ac)) ac)) as (? & ? & ?);
    [apply good_shrink, delete_subseteq; done|done].
Qed.

Lemma keeps_item_txs {A} (r : res CacheErr (rowsIface * option BlockID)) (k : _ → AC A) ac :
  r ≠ NoFuel → (∀ x, keeps I (k x) ac) → keeps I (liftRes r ≫= k) ac.
Proof.
  intros Hr Hk Hg. destruct r as [x|e| |]; [by apply Hk|done|done|done].
Qed.
End Keeps.

Lemma MergeRowsRange_loop_fuel {A} `{TxRow A} w N o (rs : list A) sk seen st :
  MergeRowsRange_loop w N o rs sk seen st ≠ NoFuel.
Proof.
  revert sk seen st. induction rs as [|r rs IH]; intros sk seen st; cbn; [done|].
  destruct (w _); [done|]. destruct (r_Merged r); [done|]. destruct (_ !! _); [done|].
  destruct (_ =? N); [done|]. destruct (sk <? o); [|done]. by case_decide.
Qed.

Lemma MergeRowsCompactRange_fuel rs N o v : MergeRowsCompactRange rs N o v ≠ NoFuel.
Proof.
  unfold MergeRowsCompactRange. destruct (_ || _); [done|].
  destruct (wrongDirection v) as [w|]; [|done]. unfold MergeRowsRange_body.
  destruct (_ || _); [done|]. destruct (negb _); [done|].
  pose proof (MergeRowsRange_loop_fuel w N o rs 0 ∅ (mkMS ∅ [])).
  by destruct (MergeRowsRange_loop _ _ _ _ _ _ _).
Qed.

Lemma slice_fuel {A} num (keep : A → bool) np rs N o :
  slice_matching num keep np rs N o ≠ NoFuel ∧ slice_all rs N o ≠ NoFuel.
Proof.
  unfold slice_matching, slice_all. destruct rs as [rs|]; [|done].
  destruct (_ <=? o); [done|]. split.
  - destruct (_ && _); [done|]. by destruct (cap_ok _).
  - destruct (o <? _); [|done]. by destruct (o <? 0).
Qed.

Lemma item_Transactions_fuel d N o v : item_Transactions d N o v ≠ NoFuel.
Proof.
  unfold item_Transactions. destruct (_ || _); [done|].
  destruct (IsMergedView v); [|done]. destruct (rows d); [|done]. destruct (_ || _); [done|].
  set (fr := List.filter _ _). unfold selectRows.
  assert (∀ num keep np, slice_matching num keep np (Some fr) N o ≠ NoFuel) as H1
    by (intros num keep np; apply slice_fuel).
  assert (slice_all (Some fr) N o ≠ NoFuel) as H2 by (apply (slice_fuel (λ _, 0) (λ _, true) true)).
  pose proof (MergeRowsCompactRange_fuel fr N o v) as H3.
  unfold addressRows, creditAddressRows, debitAddressRows, unspentCreditAddressRows.
  destruct v; try done;
    match goal with
    | |- context [slice_matching ?n ?k ?np (Some fr) N o] =>
      specialize (H1 n k np); by destruct (slice_matching n k np (Some fr) N o)
    | |- context [slice_all (Some fr) N o] => by destruct (slice_all (Some fr) N o)
    | |- context [MergeRowsCompactRange fr N o ?v] => by destruct (MergeRowsCompactRange fr N o v)
    end.
Qed.

(** ** Each call keeps the invariant *)
Section ExecKeeps.
Context {R : RangeOrder string AddressCacheItem} (I : string → AddressCacheItem → Prop).

Lemma keeps_StoreRowsCompact addr rs block ac :
  op_ok I (maxUTXOsPerAddr ac) (OpStoreRowsCompact addr rs block) →
  keeps I (StoreRowsCompact addr rs block) ac.
Proof.
  unfold StoreRowsCompact. intros Hok. apply keeps_gets. destruct block as [b|].
  - rewrite bool_decide_false by done. destruct (disabled ac); [apply keeps_ret|].
    destruct Hok. by apply keeps_setCacheItemRows.
  - rewrite bool_decide_true by done. apply keeps_ret.
Qed.

Lemma keeps_StoreRows addr rs block ac :
  op_ok I (maxUTXOsPerAddr ac) (OpStoreRows addr rs block) → keeps I (StoreRows addr rs block) ac.
Proof.
  unfold StoreRows. intros Hok. apply keeps_gets. destruct (_ || _); [apply keeps_ret|].
  by apply keeps_StoreRowsCompact.
Qed.

Lemma keeps_StoreHistoryChart addr c g ct cd block ac :
  op_ok I (maxUTXOsPerAddr ac) (OpStoreHistoryChart addr c g ct cd block) →
  keeps I (StoreHistoryChart addr c g ct cd block) ac.
Proof.
  unfold StoreHistoryChart. intros Hok. apply keeps_gets.
  destruct block as [b|]; [destruct Hok as [Hn Hu]|apply keeps_ret].
  destruct (disabled ac); [apply keeps_ret|]. destruct (_ <=? g); [apply keeps_ret|].
  apply keeps_gets. apply keeps_bind.
  - destruct (a ac !! addr); [apply keeps_ret|by apply keeps_addCacheItem].
  - intros ready ac'. destruct ready; [|apply keeps_ret]. cbn [negb].
    destruct c; try apply keeps_ret; (destruct (g <? 0); [apply keeps_panic|]);
      apply keeps_write_ret; auto.
Qed.

Lemma keeps_StoreBalance addr bal block ac :
  op_ok I (maxUTXOsPerAddr ac) (OpStoreBalance addr bal block) →
  keeps I (StoreBalance addr bal block) ac.
Proof.
  unfold StoreBalance. intros Hok. apply keeps_gets.
  destruct block as [b|]; [destruct Hok as [Hn Hu]|apply keeps_ret].
  destruct (disabled ac); [apply keeps_ret|]. apply keeps_gets.
  destruct (stale _ b) eqn:Est; [by apply keeps_addCacheItem; destruct bal|].
  apply keeps_write_ret. intros it Hit HI. rewrite Hit in Est. cbn in Est.
  apply negb_false_iff, bool_decide_eq_true in Est. destruct bal; by apply Hu.
Qed.

Lemma keeps_StoreUTXOs addr us block ac :
  op_ok I (maxUTXOsPerAddr ac) (OpStoreUTXOs addr us block) → keeps I (StoreUTXOs addr us block) ac.
Proof.
  unfold StoreUTXOs. cbn. intros Hok. apply keeps_gets. destruct block as [b|]; [|apply keeps_ret].
  destruct (disabled ac); [apply keeps_ret|]. apply keeps_gets.
  destruct (Z.ltb_spec (maxUTXOsPerAddr ac) (olen us)); [apply keeps_ret|].
  destruct Hok as [Hn Hu]; [done|]. apply keeps_gets.
  destruct (a ac !! addr); [|by apply keeps_addCacheItem]. apply keeps_write_ret; auto.
Qed.

Lemma keeps_HistoryChart addr c g ct ac : keeps I (HistoryChart addr c g ct) ac.
Proof.
  unfold HistoryChart. apply keeps_gets. destruct (a ac !! addr); [|apply keeps_count, keeps_ret].
  destruct (item_HistoryChart _ _ _ _) as [[[?|] [?|]]|e| |];
    (apply keeps_fail || apply keeps_panic || apply keeps_count, keeps_ret).
Qed.

Lemma keeps_Rows addr ct ac : keeps I (Rows addr ct) ac.
Proof.
  unfold Rows. apply keeps_gets. destruct (a ac !! addr); [|apply keeps_count, keeps_ret].
  destruct (fst _); apply keeps_count; [destruct (_ =? _)|]; apply keeps_ret.
Qed.

Lemma keeps_Transactions addr N o v ac : keeps I (Transactions addr N o v) ac.
Proof.
  unfold Transactions. destruct (IsMergedView v) as [[]|]; [..|apply keeps_fail];
    (apply keeps_bind; [|intros; apply keeps_ret]).
  - unfold TransactionsMerged. apply keeps_gets.
    destruct (a ac !! addr) as [it|]; apply keeps_count; [|apply keeps_ret].
    apply keeps_item_txs; [apply item_Transactions_fuel|].
    intros [[] ?]; (apply keeps_ret || apply keeps_fail).
  - unfold TransactionsCompact. apply keeps_gets.
    destruct (a ac !! addr) as [it|]; apply keeps_count; [|apply keeps_ret].
    apply keeps_item_txs; [apply item_Transactions_fuel|].
    intros [[] ?]; (apply keeps_ret || apply keeps_fail).
Qed.

Lemma keeps_Clear addrs ac : keeps I (Clear addrs) ac.
Proof.
  destruct addrs as [addrs|]; [apply keeps_Clear_loop|].
  unfold Clear, ClearAll. apply keeps_gets. intros Hg.
  destruct (good_shrink I ac ∅ Hg) as [Hs Hi]; [apply map_empty_subseteq|]. done.
Qed.
End ExecKeeps.

Lemma exec_keeps R I o ac : op_ok I (maxUTXOsPerAddr ac) o → keeps I (exec R o) ac.
Proof.
  intros Hok. destruct o; cbn [exec]; try apply keeps_run.
  - by apply keeps_StoreRows.
  - by apply keeps_StoreRowsCompact.
  - by apply keeps_StoreHistoryChart.
  - by apply keeps_StoreBalance.
  - by apply keeps_StoreUTXOs.
  - unfold ClearUTXOs. apply keeps_gets. destruct (a ac !! addr); [|apply keeps_ret].
    apply keeps_write; auto.
  - unfold ClearRows. apply keeps_gets. destruct (a ac !! addr); [|apply keeps_ret].
    apply keeps_write; auto.
  - apply keeps_Clear.
  - unfold Balance. apply keeps_gets. destruct (a ac !! addr); apply keeps_count, keeps_ret.
  - unfold UTXOs. apply keeps_gets. destruct (a ac !! addr); apply keeps_count, keeps_ret.
  - apply keeps_HistoryChart.
  - apply keeps_Rows.
  - apply keeps_Transactions.
Qed.

Lemma reached_good I rc acap ub tr st :
  reached rc acap ub tr st →
  (∀ o, o ∈ tr → op_ok I (maxUTXOsPerAddr (NewAddressCache rc acap ub)) o) →
  good I st ∧ same_config (NewAddressCache rc acap ub) st.
Proof.
  intros Hr Hok. induction Hr as [|R o tr ac Hr IH].
  - split; [|done]. split; cbn; [rewrite map_size_empty; lia|apply map_Forall_empty].
  - destruct IH as [Hg Hc]; [intros; apply Hok; by right|]. destruct Hc as (H1 & H2 & H3).
    destruct (exec_keeps R I o ac) as (Hg' & (? & ? & ?) & _); [|done|].
    + rewrite H3. apply Hok. left.
    + split; [done|]. split_and!; congruence.
Qed.

(** ** Capacity *)
(** C27: whatever sequence of calls is made and whatever the map iteration
    order, the cache never holds more than addressCapacity addresses, its
    UTXOs never exceed the byte capacity it was built with (at 180 bytes
    each), and the eviction loops always end. *)
Theorem address_and_utxo_capacity rc acap ub tr st :
  0 <= ub → reached rc acap ub tr st →
  Z.of_nat (size (a st)) <= Z.max 0 acap ∧
  numUTXOs (a st) * approxTxnOutSize <= ub ∧
  ∀ R o, (exec R o st).1 ≠ NoFuel.
Proof.
  intros Hub Hr. set (mx := maxUTXOsPerAddr (NewAddressCache rc acap ub)).
  assert (0 <= mx ∧ mx * Z.max 0 acap * approxTxnOutSize <= ub) as [Hmx Hb].
  { unfold mx, NewAddressCache, approxTxnOutSize. cbn. destruct (Z.ltb_spec 0 acap); [|lia].
    rewrite !Z.quot_div_nonneg by (try apply Z.quot_pos; lia).
    pose proof (Z.mul_div_le ub 180). pose proof (Z.div_pos ub 180).
    pose proof (Z.mul_div_le (ub / 180) acap). pose proof (Z.div_pos (ub / 180) acap). lia. }
  destruct (reached_good (λ _ it, olen (utxos it) <= mx) rc acap ub tr st Hr) as [[Hs Hi] (_ & Hc & _)].
  { intros o _. destruct o as [?? [?|]|?? [?|]|????? [?|]|?? [?|]|? us [?|]|?|?| | | | | |];
      cbn; try done; try (by intros; split; intros; cbn in *; lia). }
  cbn in Hc. rewrite Hc in Hs. split; [done|]. split.
  - assert (numUTXOs (a st) <= mx * Z.of_nat (size (a st))).
    { apply map_sum_le. intros k it Hk. exact (Hi k it Hk). }
    assert (mx * Z.of_nat (size (a st)) <= mx * Z.max 0 acap) by (apply Z.mul_le_mono_nonneg_l; lia).
    unfold approxTxnOutSize in *. lia.
  - intros R o. destruct (exec_keeps R (λ _ _, True) o st) as (_ & _ & Hn).
    + destruct o as [?? [?|]|?? [?|]|????? [?|]|?? [?|]|?? [?|]|?|?| | | | | |]; cbn; auto.
    + split; [by rewrite Hc|done].
    + done.
Qed.

(** ** Provenance *)
(** The call [o] stored [rs] as the rows of [addr] at block [h]. *)
Definition stores_rows (addr : string) (rs : list AddressRowCompact) (h : Hash) (o : op) : Prop :=
  match o with
  | OpStoreRows addr' rs' (Some b) =>
    addr' = addr ∧ blk_Hash b = h ∧ rs = match rs' with None => [] | Some l => CompactRows l end
  | OpStoreRowsCompact addr' rs' (Some b) =>
    addr' = addr ∧ blk_Hash b = h ∧ rs = default [] rs'
  | _ => False
  end.
Definition stores_balance (addr : string) (bal : AddressBalance) (h : Hash) (o : op) : Prop :=
  match o with
  | OpStoreBalance addr' bal' (Some b) =>
    addr' = addr ∧ blk_Hash b = h ∧ bal = default (mkBal addr ∅ 0 0) bal'
  | _ => False
  end.

Definition from_trace (tr : list op) (addr : string) (it : AddressCacheItem) : Prop :=
  (∀ rs, rows it = Some rs → ∃ o, o ∈ tr ∧ stores_rows addr rs (hash it) o) ∧
  (∀ b, balance it = Some b → ∃ o, o ∈ tr ∧ stores_balance addr b (hash it) o).

Lemma from_trace_op_ok tr o mx : o ∈ tr → op_ok (from_trace tr) mx o.
Proof.
  intros Hin. destruct o as [? rs [b|]|? rs [b|]|????? [b|]|?? [b|]|?? [b|]|?|?| | | | | |];
    cbn; try done.
  - split.
    + split; cbn; [|done]. intros ? [= <-]. eexists. by split; [exact Hin|].
    + intros it [Hr Hb] Hh. split; cbn; [|done]. intros ? [= <-]. eexists. by split; [exact Hin|].
  - split.
    + split; cbn; [|done]. intros ? [= <-]. eexists. by split; [exact Hin|].
    + intros it [Hr Hb] Hh. split; cbn; [|done]. intros ? [= <-]. eexists. by split; [exact Hin|].
  - split.
    + split; cbn; [done|]. intros ? [= <-]. eexists. by split; [exact Hin|].
    + intros it [Hr Hb] Hh. split; cbn; [done|]. intros ? [= <-]. eexists. by split; [exact Hin|].
  - intros it [? ?]. by split.
Qed.

(** Rows and balances are never served under the wrong block: if Rows or
    Balance hits for an address, an earlier call stored exactly those rows
    (that balance) for that address at the block whose hash is returned. *)
Theorem cached_data_provenance rc acap ub tr st addr :
  reached rc acap ub tr st →
  (∀ rs blk, (Rows addr CoinTypeAll st).1 = Ok (Some rs, Some blk) →
     ∃ o, o ∈ tr ∧ stores_rows addr rs (blk_Hash blk) o) ∧
  (∀ b blk, (Balance addr st).1 = Ok (Some b, Some blk) →
     ∃ o, o ∈ tr ∧ stores_balance addr b (blk_Hash blk) o).
Proof.
  intros Hr. destruct (reached_good (from_trace tr) rc acap ub tr st Hr) as [[_ Hi] _].
  { intros o Hin. by apply from_trace_op_ok. }
  unfold Rows, Balance, addressCacheItem, gets, mbind, goM_bind.
  destruct (a st !! addr) as [it|] eqn:E; [|done]. destruct (Hi _ _ E) as [H1 H2].
  unfold item_Rows, item_Balance. split; intros x blk Hx.
  - destruct (rows it) as [rs|]; [|done]. cbn in Hx. injection Hx as -> <-. by apply H1.
  - destruct (balance it) as [b|]; [|done]. cbn in Hx. injection Hx as -> <-. by apply H2.
Qed.

(** ** Row capacity *)
Definition rows_ok (ac : AddressCache) : Prop := numRows (a ac) <= cap ac.
Definition keeps_rows {A} (f : AC A) (ac : AddressCache) : Prop := rows_ok ac → rows_ok (f ac).2.

Lemma numRows_subseteq m m' : m ⊆ m' → numRows m <= numRows m'.
Proof. apply (map_sum_subseteq (λ it, olen (rows it))). intros. apply olen_nonneg. Qed.

Lemma numRows_insert m addr it :
  numRows (<[addr := it]> m) =
  olen (rows it) - default 0 ((λ it, olen (rows it)) <$> m !! addr) + numRows m.
Proof. exact (map_sum_insert_eq (λ it, olen (rows it)) m addr it). Qed.

Lemma alter_as_insert (m : gmap string AddressCacheItem) addr f it :
  m !! addr = Some it → alter f addr m = <[addr := f it]> m.
Proof.
  intros E. apply map_eq. intros k. destruct (decide (k = addr)) as [->|].
  - by rewrite lookup_insert_eq, lookup_alter_eq, E.
  - by rewrite lookup_insert_ne, lookup_alter_ne by done.
Qed.

Lemma numRows_alter m addr f c :
  (∀ it, m !! addr = Some it → olen (rows (f it)) <= olen (rows it) + c) → 0 <= c →
  numRows (alter f addr m) <= numRows m + c.
Proof.
  intros Hf Hc. destruct (m !! addr) as [it|] eqn:E.
  - rewrite (alter_as_insert m addr f it E), numRows_insert, E. cbn. specialize (Hf it eq_refl). lia.
  - rewrite alter_id by (intros ? Hx; congruence). lia.
Qed.

Section RowCapacity.
Context {R : RangeOrder string AddressCacheItem}.

Lemma kr_ret {A} (x : A) ac : keeps_rows (mret x) ac.
Proof. by intros ?. Qed.
Lemma kr_gets {A B} (f : AddressCache → A) (k : A → AC B) ac :
  keeps_rows (k (f ac)) ac → keeps_rows (gets f ≫= k) ac.
Proof. done. Qed.
Lemma kr_bind {A B} (f : AC A) (k : A → AC B) ac :
  keeps_rows f ac → (∀ x ac', keeps_rows (k x) ac') → keeps_rows (f ≫= k) ac.
Proof.
  intros Hf Hk Hok. specialize (Hf Hok). unfold mbind, goM_bind.
  destruct (f ac) as [[x|e| |] ac']; try done. by apply Hk.
Qed.
Lemma kr_write addr f ac :
  (∀ it, a ac !! addr = Some it → olen (rows (f it)) <= olen (rows it)) → keeps_rows (write_item addr f) ac.
Proof.
  intros Hf Hok. unfold rows_ok in *. cbn.
  pose proof (numRows_alter (a ac) addr f 0) as Hn. rewrite !Z.add_0_r in Hn.
  etrans; [apply Hn; [|done]|done]. intros it Hit. rewrite Z.add_0_r. by apply Hf.
Qed.
Lemma kr_write_ret {A} addr f (x : A) ac :
  (∀ it, a ac !! addr = Some it → olen (rows (f it)) <= olen (rows it)) →
  keeps_rows (write_item addr f ≫= λ _, mret x) ac.
Proof. intros Hf Hok. exact (kr_write addr f ac Hf Hok). Qed.
Lemma kr_read {A} (f : AC A) ac : a (f ac).2 = a ac → cap (f ac).2 = cap ac → keeps_rows f ac.
Proof. unfold keeps_rows, rows_ok. intros -> ->. done. Qed.

Lemma kr_addCacheItem addr it ac :
  rows it = None ∨ stored ac addr = 0 → keeps_rows (addCacheItem addr it) ac.
Proof.
  intros Hrow Hok. destruct (disabled ac) eqn:Hd.
  { unfold addCacheItem, gets, mbind, goM_bind. by rewrite Hd. }
  destruct (addCacheItem_spec addr it ac Hd) as (m & Hm%numRows_subseteq & _ & _ & ->).
  unfold rows_ok in *. destruct (Z.leb_spec (numRows m + (olen (rows it) - stored ac addr)) (cap ac));
    cbn; [|lia]. rewrite numRows_insert.
  assert (0 <= default 0 ((λ it, olen (rows it)) <$> m !! addr)).
  { destruct (m !! addr); cbn; [apply olen_nonneg|lia]. }
  destruct Hrow as [Hr|Hs].
  - rewrite Hr. change (olen (A:=AddressRowCompact) None) with 0. lia.
  - rewrite Hs in *. lia.
Qed.

Lemma kr_setCacheItemRows addr rs b ac :
  (stored ac addr = 0 ∨ stale (a ac !! addr) b = false) →
  keeps_rows (setCacheItemRows addr rs (Some b)) ac.
Proof.
  intros Hf. unfold setCacheItemRows. apply kr_gets.
  destruct (disabled ac) eqn:Hd; [by intros ?|]. apply kr_gets.
  destruct (a ac !! addr) as [item|] eqn:Ei.
  2:{ apply kr_addCacheItem. right. unfold stored. by rewrite Ei. }
  destruct (stale (Some item) b) eqn:Est.
  { apply kr_addCacheItem. right. by destruct Hf. }
  destruct (_ && _); [by intros ?|]. intros Hok.
  destruct (purgeRowsToFit_spec (zlen rs - olen (rows item)) ac Hd) as (m & E & Hm & _ & _).
  unfold mbind, goM_bind. rewrite E. unfold rows_ok in *. apply numRows_subseteq in Hm as Hle.
  destruct (Z.leb_spec (numRows m + (zlen rs - olen (rows item))) (cap ac)); cbn; [|lia].
  destruct (m !! addr) as [it|] eqn:Em.
  - assert (it = item) as -> by (eapply lookup_weaken in Em; [|done]; congruence).
    rewrite (alter_as_insert m addr _ item Em), numRows_insert, Em. cbn. unfold olen at 1. cbn. lia.
  - rewrite alter_id by (intros ? Hx; congruence). lia.
Qed.

Lemma kr_StoreRowsCompact addr rs block ac :
  match block with None => True | Some b => stored ac addr = 0 ∨ stale (a ac !! addr) b = false end →
  keeps_rows (StoreRowsCompact addr rs block) ac.
Proof.
  intros Hf. unfold StoreRowsCompact. apply kr_gets.
  destruct (_ || _) eqn:E; [apply kr_ret|]. destruct block as [b|]; [|done].
  by apply kr_setCacheItemRows.
Qed.

Lemma kr_StoreHistoryChart addr c g ct cd block ac :
  keeps_rows (StoreHistoryChart addr c g ct cd block) ac.
Proof.
  unfold StoreHistoryChart. apply kr_gets. destruct block as [b|]; [|apply kr_ret].
  destruct (disabled ac); [apply kr_ret|]. destruct (_ <=? g); [apply kr_ret|].
  apply kr_gets, kr_bind.
  - destruct (a ac !! addr); [apply kr_ret|]. apply kr_addCacheItem. by left.
  - intros [] ac'; [|apply kr_ret]. cbn [negb].
    destruct c; try apply kr_ret; (destruct (g <? 0); [by intros ?|]); by apply kr_write_ret.
Qed.

Lemma kr_StoreBalance addr bal block ac : keeps_rows (StoreBalance addr bal block) ac.
Proof.
  unfold StoreBalance. apply kr_gets. destruct block as [b|]; [|apply kr_ret].
  destruct (disabled ac); [apply kr_ret|]. apply kr_gets.
  destruct (stale _ b); [apply kr_addCacheItem; by left|]. by apply kr_write_ret.
Qed.

Lemma kr_StoreUTXOs addr us block ac : keeps_rows (StoreUTXOs addr us block) ac.
Proof.
  unfold StoreUTXOs. apply kr_gets. destruct block as [b|]; [|apply kr_ret].
  destruct (disabled ac); [apply kr_ret|]. apply kr_gets. destruct (_ <? _); [apply kr_ret|].
  apply kr_gets. destruct (a ac !! addr); [by apply kr_write_ret|apply kr_addCacheItem; by left].
Qed.

Lemma kr_Clear addrs ac : 0 <= cap ac → keeps_rows (Clear addrs) ac.
Proof.
  intros Hc. destruct addrs as [addrs|].
  - cbn [Clear]. generalize 0 at 1. clear Hc. revert ac.
    induction addrs as [|x addrs IH]; intros ac n; [apply kr_ret|]. cbn [Clear_loop]. apply kr_gets.
    destruct (a ac !! x); [|apply IH]. apply kr_bind; [|intros; apply IH].
    intros Hok. unfold rows_ok in *. cbn. etrans; [|done].
    apply numRows_subseteq, delete_subseteq.
  - intros _. change (map_sum (λ it, olen (rows it)) (∅ : gmap string AddressCacheItem) <= cap ac).
    by rewrite map_sum_empty.
Qed.

Lemma kr_liftRes {A} (r : res CacheErr A) ac : keeps_rows (liftRes r) ac.
Proof. destruct r; by intros ?. Qed.
Lemma kr_count g ac : keeps_rows (count g) ac.
Proof. by apply kr_read. Qed.

Lemma kr_Transactions addr N o v ac : keeps_rows (Transactions addr N o v) ac.
Proof.
  unfold Transactions. destruct (IsMergedView v) as [[]|]; [..|by intros ?];
    (apply kr_bind; [|intros; apply kr_ret]); apply kr_gets;
    destruct (a ac !! addr); (apply kr_bind; [apply kr_count|intros _ ac1]);
    try apply kr_ret; (apply kr_bind; [apply kr_liftRes|]); intros [[] ?] ac2; by intros ?.
Qed.
End RowCapacity.

(** The store replaces cached rows of the same address that belong to another
    block. *)
Definition replaces_rows (o : op) (ac : AddressCache) : bool :=
  match o with
  | OpStoreRows addr _ (Some b) | OpStoreRowsCompact addr _ (Some b) =>
    negb (stored ac addr =? 0) && stale (a ac !! addr) b
  | _ => false
  end.

(** The row capacity holds over every call except one that replaces the
    cached rows of an address by its rows at another block. *)
Theorem row_capacity_preserved R o ac :
  0 <= cap ac → numRows (a ac) <= cap ac → replaces_rows o ac = false →
  numRows (a (exec R o ac).2) <= cap (exec R o ac).2.
Proof.
  intros Hc Hok Hrep. change (rows_ok (exec R o ac).2). revert Hok.
  change (keeps_rows (exec R o) ac).
  assert (∀ addr b, negb (stored ac addr =? 0) && stale (a ac !! addr) b = false →
    stored ac addr = 0 ∨ stale (a ac !! addr) b = false) as Hrep'.
  { intros addr b [Hs%negb_false_iff%Z.eqb_eq|Hs]%andb_false_iff; auto. }
  destruct o as [addr rs block|addr rs block| | | | | | | | | | |]; cbn [exec];
    try (apply kr_bind; [|intros; apply kr_ret]).
  - unfold StoreRows. apply kr_gets. destruct (_ || _); [apply kr_ret|].
    apply kr_StoreRowsCompact. destruct block; auto.
  - apply kr_StoreRowsCompact. destruct block; auto.
  - apply kr_StoreHistoryChart.
  - apply kr_StoreBalance.
  - apply kr_StoreUTXOs.
  - apply kr_gets. destruct (a ac !! addr); [by apply kr_write|apply kr_ret].
  - apply kr_gets. destruct (a ac !! addr); [|apply kr_ret]. apply kr_write. intros it _.
    apply olen_nonneg.
  - by apply kr_Clear.
  - apply kr_gets. destruct (a ac !! addr); (apply kr_bind; [apply kr_count|intros; apply kr_ret]).
  - apply kr_gets. destruct (a ac !! addr); (apply kr_bind; [apply kr_count|intros; apply kr_ret]).
  - apply kr_gets. destruct (a ac !! addr) as [it|];
      [|apply kr_bind; [apply kr_count|intros; apply kr_ret]].
    destruct (item_HistoryChart _ _ _ _) as [[[?|] [?|]]|e| |]; try (by intros ?);
      (apply kr_bind; [apply kr_count|intros; apply kr_ret]).
  - apply kr_gets. destruct (a ac !! addr); [|apply kr_bind; [apply kr_count|intros; apply kr_ret]].
    destruct (fst _); (apply kr_bind; [apply kr_count|intros]); [destruct (_ =? _)|]; apply kr_ret.
  - apply kr_Transactions.
Qed.

(** ** Stores on a known state *)
Section StoreSpecs.
Context {R : RangeOrder string AddressCacheItem}.

Lemma StoreRowsCompact_stale addr rs b ac :
  disabled ac = false → stale (a ac !! addr) b = true →
  StoreRowsCompact addr (Some rs) (Some b) ac = addCacheItem addr (set_rows (Some rs) (newItem b)) ac.
Proof.
  intros Hd Hst. unfold StoreRowsCompact, setCacheItemRows. rewrite gets_bind, Hd.
  rewrite bool_decide_false by done. cbn [orb default from_option id].
  rewrite !gets_bind, Hd, gets_bind. destruct (a ac !! addr); [|done]. by rewrite Hst.
Qed.

(** The rows of an address that is not cached yet are stored if they fit. *)
Lemma StoreRowsCompact_new addr rs b ac :
  disabled ac = false → a ac !! addr = None → zlen rs <= cap ac →
  ∃ m, m ⊆ a ac ∧ numRows m + zlen rs <= cap ac ∧
    StoreRowsCompact addr (Some rs) (Some b) ac =
    (Ok true, set_a (<[addr := set_rows (Some rs) (newItem b)]> m) ac).
Proof.
  intros Hd Hn Hfit. rewrite StoreRowsCompact_stale by (done || by rewrite Hn).
  destruct (addCacheItem_spec addr (set_rows (Some rs) (newItem b)) ac Hd) as (m & Hm & _ & Hr & ->).
  unfold stored in *. rewrite Hn in *. cbn in Hr |- *. unfold olen in *. cbn in *.
  exists m. split; [done|]. destruct (Z.leb_spec (numRows m + (zlen rs - 0)) (cap ac)); [|lia].
  split; [lia|done].
Qed.

Lemma subseteq_singleton m addr (it : AddressCacheItem) :
  m ⊆ ({[addr := it]} : gmap string AddressCacheItem) → m = ∅ ∨ m = {[addr := it]}.
Proof.
  intros Hm. assert (∀ k, k ≠ addr → m !! k = None) as Hk.
  { intros k Hne. eapply lookup_weaken_None; [|done]. by rewrite lookup_singleton_ne. }
  destruct (m !! addr) as [it'|] eqn:E.
  - right. pose proof (lookup_weaken _ _ _ _ E Hm) as E'. rewrite lookup_singleton_eq in E'.
    apply map_eq. intros k. destruct (decide (k = addr)) as [->|Hne].
    + by rewrite E, lookup_singleton_eq.
    + by rewrite Hk, lookup_singleton_ne.
  - left. apply map_eq. intros k. rewrite lookup_empty.
    destruct (decide (k = addr)) as [->|Hne]; auto.
Qed.

Lemma numRows_singleton addr it : numRows {[addr := it]} = olen (rows it).
Proof.
  change ({[addr := it]} : gmap string AddressCacheItem) with (<[addr := it]> (∅ : gmap string AddressCacheItem)).
  rewrite numRows_insert, lookup_empty. cbn. unfold numRows. rewrite map_sum_empty. lia.
Qed.

(** One more row at a new block always replaces the only item. *)
Lemma grow_one addr it rs b ac :
  disabled ac = false → a ac = {[addr := it]} → hash it ≠ blk_Hash b →
  zlen rs = olen (rows it) + 1 →
  StoreRowsCompact addr (Some rs) (Some b) ac =
  (Ok true, set_a {[addr := set_rows (Some rs) (newItem b)]} ac).
Proof.
  intros Hd Ha Hh Hl. rewrite StoreRowsCompact_stale; [|done|].
  2:{ rewrite Ha, lookup_singleton_eq. cbn. by rewrite bool_decide_false. }
  destruct (addCacheItem_spec addr (set_rows (Some rs) (newItem b)) ac Hd) as (m & Hm & _ & Hr & ->).
  unfold stored in *. rewrite Ha, lookup_singleton_eq in *.
  change (olen (rows (set_rows (Some rs) (newItem b)))) with (zlen rs) in *.
  apply orb_false_iff in Hd as [Hc%Z.ltb_ge _].
  destruct (Z.leb_spec (numRows m + (zlen rs - olen (rows it))) (cap ac)); [|lia].
  do 2 f_equal. destruct (subseteq_singleton _ _ _ Hm) as [->| ->]; [done|].
  apply insert_singleton_eq.
Qed.
End StoreSpecs.

(** A store that fits is retrievable.  For an address that is not cached,
    whatever is evicted, storing rows that fit the capacity succeeds; a lookup
    then returns exactly these rows and block, the capacity holds, and every
    other item is unchanged or evicted. *)
Theorem StoreRows_then_Rows R addr rs b ac :
  1 <= cap ac → 1 <= capAddr ac → a ac !! addr = None → zlen rs <= cap ac →
  ∃ ac', @StoreRowsCompact R addr (Some rs) (Some b) ac = (Ok true, ac') ∧
    (Rows addr CoinTypeAll ac').1 = Ok (Some rs, Some b) ∧
    numRows (a ac') <= cap ac ∧
    ∀ k, k ≠ addr → a ac' !! k = a ac !! k ∨ a ac' !! k = None.
Proof.
  intros Hc Hca Hn Hfit. destruct (StoreRowsCompact_new addr rs b ac) as (m & Hm & Hr & E); [|done..|].
  { unfold disabled. apply orb_false_iff. split; apply Z.ltb_ge; lia. }
  eexists. split; [exact E|]. split_and!.
  - unfold Rows, addressCacheItem, gets, mbind, goM_bind. cbn. rewrite lookup_insert_eq. cbn.
    by destruct b.
  - cbn. rewrite numRows_insert.
    replace (m !! addr) with (@None AddressCacheItem) by (symmetry; by eapply lookup_weaken_None).
    unfold olen. cbn. lia.
  - intros k Hk. cbn. rewrite lookup_insert_ne by done. destruct (m !! k) as [it|] eqn:Ek; [|by right].
    left. symmetry. by eapply lookup_weaken.
Qed.

(** The row capacity is not an absolute limit.  For any positive
    capacities and any [n], some sequence of stores of one address, one row
    more at each new block, leaves [n] rows in the cache. *)
Theorem row_capacity_exceeded rc acap ub (n : nat) :
  1 <= rc → 1 <= acap → ∃ tr st, reached rc acap ub tr st ∧ numRows (a st) = Z.of_nat n.
Proof.
  intros Hrc Hac. set (R := @canonical_range string AddressCacheItem _ _).
  set (r := mkCompact "a" 0 [] None 0 0 true true 0 0 "").
  set (h := λ k : nat, replicate HashSize (if Nat.even k then 0 else 1)).
  assert (∀ ac, same_config (NewAddressCache rc acap ub) ac → disabled ac = false) as Hd.
  { intros ac (H1 & H2 & _). cbn in H1, H2. unfold disabled. rewrite H1, H2.
    apply orb_false_iff. split; apply Z.ltb_ge; lia. }
  assert (∀ k : nat, h (S k) ≠ h k) as Hh.
  { intros k E. unfold h in E. rewrite Nat.even_succ, <- Nat.negb_even in E. by destruct (Nat.even k). }
  assert (∃ tr st it, reached rc acap ub tr st ∧ same_config (NewAddressCache rc acap ub) st ∧
    a st = {["a" := it]} ∧ olen (rows it) = Z.of_nat n ∧ hash it = h n)
    as (tr & st & it & Hre & _ & Ha & Hl & _).
  { induction n as [|n (tr & st & it & Hre & Hcfg & Ha & Hl & Hhash)].
    - destruct (StoreRowsCompact_new (R:=R) "a" [] (mkBlockID (h O) 0) (NewAddressCache rc acap ub))
        as (m & Hm & _ & E); [by apply Hd|done|change (0 <= rc); lia|].
      eexists _, _, _. split; [apply (reached_step _ _ _ R (OpStoreRowsCompact "a" (Some [])
        (Some (mkBlockID (h O) 0)))), reached_new|].
      cbn [exec]. unfold run, mbind, goM_bind. rewrite E. split; [done|].
      assert (m = ∅) as -> by (apply map_empty; intros k; by eapply lookup_weaken_None; [apply lookup_empty|]). done.
    - eexists _, _, _. split; [apply (reached_step _ _ _ R (OpStoreRowsCompact "a"
        (Some (replicate (S n) r)) (Some (mkBlockID (h (S n)) 0)))), Hre|].
      cbn [exec]. unfold run, mbind, goM_bind. erewrite grow_one; [|by apply Hd|exact Ha| |].
      + split; [done|]. split; [done|]. split; [|done]. unfold olen, zlen. cbn [default from_option id rows set_rows].
        by rewrite length_replicate.
      + rewrite Hhash. intros E. exact (Hh n (eq_sym E)).
      + unfold zlen. rewrite length_replicate. lia. }
  exists tr, st. split; [done|]. by rewrite Ha, numRows_singleton, Hl.
Qed.

(** A store that reports success can lose everything.  With a single
    cached address, storing more rows than the capacity for the same block
    (but at most the capacity more than are cached) evicts the very item it
    updates: the call returns true and the cache is empty. *)
Theorem StoreRowsCompact_lost_update R addr it rs b ac :
  1 <= cap ac → 1 <= capAddr ac → a ac = {[addr := it]} → hash it = blk_Hash b →
  0 < olen (rows it) → cap ac < zlen rs → zlen rs - olen (rows it) <= cap ac →
  zlen rs ≠ olen (rows it) →
  @StoreRowsCompact R addr (Some rs) (Some b) ac = (Ok true, set_a ∅ ac).
Proof.
  intros Hc Hca Ha Hh Hp Hbig Hdiff Hne.
  assert (disabled ac = false) as Hd.
  { unfold disabled. apply orb_false_iff. split; apply Z.ltb_ge; lia. }
  unfold StoreRowsCompact, setCacheItemRows. rewrite gets_bind, Hd.
  rewrite bool_decide_false by done. cbn [orb default from_option id].
  rewrite !gets_bind, Hd, gets_bind.
  rewrite Ha, lookup_singleton_eq. cbn [stale]. rewrite bool_decide_true by done. cbn [negb].
  destruct (Z.eqb_spec (olen (rows it)) (zlen rs)); [lia|]. rewrite andb_false_r.
  destruct (purgeRowsToFit_spec (zlen rs - olen (rows it)) ac Hd) as (m & E & Hm & _ & Hr).
  unfold mbind, goM_bind. rewrite E.
  rewrite Ha in Hm. destruct (subseteq_singleton _ _ _ Hm) as [->| ->].
  - replace (numRows ∅) with 0 by (symmetry; apply map_sum_empty).
    destruct (Z.leb_spec (0 + (zlen rs - olen (rows it))) (cap ac)); [done|lia].
  - rewrite numRows_singleton in Hr. lia.
Qed.

(** ** Pages served from the cache *)
Definition cache_keep (view : AddrTxnViewType) : option (AddressRowCompact → bool) :=
  match view with
  | AddrTxnAll => Some (λ _, true)
  | AddrTxnCredit => Some c_IsFunding
  | AddrTxnDebit => Some (λ r, negb (c_IsFunding r))
  | AddrUnspentTxn => Some unspentCompact
  | _ => None
  end.

(** A plain view of a cached address is served as the requested page of
    its main chain rows, filtered by direction or by being unspent, together
    with the block of the cached rows. *)
Theorem TransactionsCompact_page addr it rs N offset view keep ac :
  a ac !! addr = Some it → rows it = Some rs → cache_keep view = Some keep →
  0 <= N → 0 <= offset → offset + N <= MaxInt64 → 8 * zlen rs <= 2 ^ 48 →
  ∃ o, (TransactionsCompact addr N offset view ac).1 = Ok (o, Some (blockID it)) ∧
       default [] o = page keep (List.filter c_ValidMainChain rs) N offset.
Proof.
  intros Ha Hrows Hk HN Hoff Hmax Hmem.
  unfold TransactionsCompact, addressCacheItem, gets, mbind, goM_bind. rewrite Ha. cbn.
  unfold item_Transactions. destruct (Z.ltb_spec offset 0), (Z.ltb_spec N 0); [lia..|]. cbn [orb].
  rewrite Hrows. set (fr := List.filter c_ValidMainChain rs).
  pose proof (length_filter_le c_ValidMainChain rs) as Hle. fold fr in Hle.
  assert (IsMergedView view = Some false) as -> by (by destruct view).
  destruct (Z.eqb_spec N 0) as [->|HN0]; [by exists (Some [])|]. cbn [orb].
  destruct ((zlen fr =? 0) || (zlen fr <=? offset)) eqn:E.
  { exists (Some []). split; [done|]. cbn. unfold page. rewrite drop_ge, take_nil; [done|].
    pose proof (length_filter_le keep fr). rewrite orb_true_iff, Z.eqb_eq, Z.leb_le in E.
    unfold zlen in *. lia. }
  assert (∀ num np, num fr = zlen (List.filter keep fr) → ∃ o,
    slice_matching num keep np (Some fr) N offset = Ok o ∧ default [] o = page keep fr N offset) as Hs.
  { intros num np Hnum. apply slice_matching_page; [done|lia..]. }
  unfold selectRows, addressRows, creditAddressRows, debitAddressRows, unspentCreditAddressRows.
  destruct view; try done; injection Hk as <-.
  - rewrite slice_all_page by lia. by eexists.
  - destruct (Hs (λ rs, fst (CountCreditDebitRowsCompact rs)) true) as (o & -> & Ho);
      [by unfold CountCreditDebitRowsCompact; rewrite CountCreditDebit_filter|]. by exists o.
  - destruct (Hs (λ rs, snd (CountCreditDebitRowsCompact rs)) false) as (o & -> & Ho);
      [by unfold CountCreditDebitRowsCompact; rewrite CountCreditDebit_filter|]. by exists o.
  - destruct (Hs CountUnspentCreditRowsCompact true) as (o & -> & Ho);
      [apply CountUnspent_filter|]. by exists o.
Qed.

(** ** Witnesses *)
Module Witness.
#[local] Instance R : RangeOrder string AddressCacheItem := canonical_range.
Definition row (h : Z) (funding valid : bool) : AddressRowCompact :=
  mkCompact "a" 0 [h] None 0 0 valid funding 5 0 "".
Definition b1 : BlockID := NewBlockID (replicate HashSize 1) 10.
Definition b2 : BlockID := NewBlockID (replicate HashSize 2) 11.
Definition rs1 := [row 1 true true; row 2 false true; row 3 true false; row 4 true true].
Definition ac0 : AddressCache := NewAddressCache 5 2 3600.
Definition tr1 : list op := [OpStoreRowsCompact "a" (Some rs1) (Some b1)].
Definition ac1 : AddressCache := (exec R (OpStoreRowsCompact "a" (Some rs1) (Some b1)) ac0).2.

Lemma reached1 : reached 5 2 3600 tr1 ac1.
Proof. apply reached_step, reached_new. Qed.

Lemma address_and_utxo_capacity_witness :
  Z.of_nat (size (a ac1)) <= Z.max 0 2 ∧ numUTXOs (a ac1) * approxTxnOutSize <= 3600 ∧
  ∀ R o, (exec R o ac1).1 ≠ NoFuel.
Proof. apply (address_and_utxo_capacity 5 2 3600 tr1 ac1); [lia|exact reached1]. Defined.

Lemma cached_data_provenance_witness :
  (Rows "a" CoinTypeAll ac1).1 = Ok (Some rs1, Some b1) ∧
  ∃ o, o ∈ tr1 ∧ stores_rows "a" rs1 (blk_Hash b1) o.
Proof.
  assert ((Rows "a" CoinTypeAll ac1).1 = Ok (Some rs1, Some b1)) as E by (vm_compute; reflexivity).
  split; [exact E|].
  exact (proj1 (cached_data_provenance 5 2 3600 tr1 ac1 "a" reached1) rs1 b1 E).
Defined.

Lemma row_capacity_preserved_witness :
  let o := OpStoreRowsCompact "b" (Some (take 2 rs1)) (Some b2) in
  numRows (a (exec R o ac1).2) <= cap (exec R o ac1).2.
Proof.
  apply row_capacity_preserved.
  - vm_compute; discriminate.
  - vm_compute; discriminate.
  - vm_compute; reflexivity.
Defined.

Lemma StoreRows_then_Rows_witness :
  ∃ ac', @StoreRowsCompact R "b" (Some (take 2 rs1)) (Some b2) ac1 = (Ok true, ac') ∧
    (Rows "b" CoinTypeAll ac').1 = Ok (Some (take 2 rs1), Some b2) ∧
    numRows (a ac') <= cap ac1 ∧
    ∀ k, k ≠ "b" → a ac' !! k = a ac1 !! k ∨ a ac' !! k = None.
Proof.
  apply StoreRows_then_Rows.
  - vm_compute; discriminate.
  - vm_compute; discriminate.
  - vm_compute; reflexivity.
  - vm_compute; discriminate.
Defined.

Lemma row_capacity_exceeded_witness :
  ∃ tr st, reached 5 2 3600 tr st ∧ numRows (a st) = 12.
Proof. apply (row_capacity_exceeded 5 2 3600 12); lia. Defined.

Lemma StoreRowsCompact_lost_update_witness :
  @StoreRowsCompact R "a" (Some (rs1 ++ rs1)) (Some b1) ac1 = (Ok true, set_a ∅ ac1).
Proof.
  apply (StoreRowsCompact_lost_update R "a" (set_rows (Some rs1) (newItem b1))).
  - vm_compute; discriminate.
  - vm_compute; discriminate.
  - vm_compute; reflexivity.
  - reflexivity.
  - vm_compute; reflexivity.
  - vm_compute; reflexivity.
  - vm_compute; discriminate.
  - vm_compute; discriminate.
Defined.

Lemma TransactionsCompact_page_witness :
  ∃ o, (TransactionsCompact "a" 1 1 AddrTxnCredit ac1).1 = Ok (o, Some b1) ∧
       default [] o = page c_IsFunding (List.filter c_ValidMainChain rs1) 1 1.
Proof.
  apply (TransactionsCompact_page "a" (set_rows (Some rs1) (newItem b1)) rs1 1 1 AddrTxnCredit c_IsFunding).
  - vm_compute; reflexivity.
  - reflexivity.
  - reflexivity.
  - lia.
  - lia.
  - vm_compute; discriminate.
  - vm_compute; discriminate.
Defined.
End Witness.
