(* ===== verification/Heap.v ===== *)
(** * Array heaps

    The functions of Go's [container/heap] that the block cache uses (Init,
    Push, Fix, Remove, with their helpers up and down), over an arbitrary
    element type with a comparison and a [Swap] that records the new position
    in the element.  The theorems of this file are the contract the priority
    queue of the block cache relies on: for a strict weak order the heap order
    is established and kept, for any comparison the elements are only
    permuted, and the loops end. *)
From S2P Require Import Prelude.

Section Heap.
Context {A : Type} (less : A → A → bool) (setIdx : nat → A → A).

(** [h.Swap(i, j)]: exchange, then record both positions. *)
Definition swap (i j : nat) (l : list A) : res unit (list A) :=
  match l !! i, l !! j with
  | Some x, Some y =>
    let l1 := <[j := x]> (<[i := y]> l) in
    let l2 := alter (setIdx i) i l1 in
    Ok (alter (setIdx j) j l2)
  | _, _ => Panic
  end.

(** [h.Less(i, j)]. *)
Definition less_at (l : list A) (i j : nat) : res unit bool :=
  match l !! i, l !! j with
  | Some x, Some y => Ok (less x y)
  | _, _ => Panic
  end.

Definition rbind {X Y} (r : res unit X) (k : X → res unit Y) : res unit Y :=
  match r with Ok x => k x | Err e => Err e | Panic => Panic | NoFuel => NoFuel end.

(** [(j - 1) / 2], which is 0 for [j = 0] in Go. *)
Definition parent (j : nat) : nat := ((j - 1) / 2)%nat.

Fixpoint up (fuel j : nat) (l : list A) : res unit (list A) :=
  let i := parent j in
  if (i =? j)%nat then Ok l else
  rbind (less_at l j i) (λ lt,
  if negb lt then Ok l else
  match fuel with
  | O => NoFuel
  | S fuel => rbind (swap i j l) (up fuel i)
  end).

(** The loop of down from [i] over the first [n] elements; the result also
    tells where it stopped. *)
Fixpoint down_loop (fuel i n : nat) (l : list A) : res unit (list A * nat) :=
  let j1 := (2 * i + 1)%nat in
  if (n <=? j1)%nat then Ok (l, i) else
  let j2 := (j1 + 1)%nat in
  rbind (if (j2 <? n)%nat then less_at l j2 j1 else Ok false) (λ right,
  let j := if right : bool then j2 else j1 in
  rbind (less_at l j i) (λ lt,
  if negb lt then Ok (l, i) else
  match fuel with
  | O => NoFuel
  | S fuel => rbind (swap i j l) (down_loop fuel j n)
  end)).

Definition down (i n : nat) (l : list A) : res unit (list A * bool) :=
  rbind (down_loop n i n l) (λ '(l', i'), Ok (l', (i <? i')%nat)).

(** [for i := n/2 - 1; i >= 0; i--]: [k] counts the iterations left. *)
Fixpoint init_loop (k n : nat) (l : list A) : res unit (list A) :=
  match k with
  | O => Ok l
  | S k => rbind (down k n l) (λ '(l', _), init_loop k n l')
  end.
Definition heap_Init (l : list A) : res unit (list A) :=
  init_loop (length l / 2) (length l) l.

(** [heap.Push] after the interface's Push has appended the element. *)
Definition heap_PushUp (l : list A) : res unit (list A) :=
  up (length l) (length l - 1) l.

Definition heap_Fix (i : Z) (l : list A) : res unit (list A) :=
  if i <? 0 then Panic else
  let i := Z.to_nat i in
  rbind (down i (length l) l) (λ '(l', moved), if moved : bool then Ok l' else up i i l').

(** [heap.Remove] up to the call of the interface's Pop, which drops the last
    element. *)
Definition heap_RemoveToEnd (i : nat) (l : list A) : res unit (list A) :=
  let n := (length l - 1)%nat in
  if (n =? i)%nat then Ok l else
  rbind (swap i n l) (λ l,
  rbind (down i n l) (λ '(l', moved), if moved : bool then Ok l' else up i i l')).
End Heap.

(** ** Shape: the loops end and only permute *)
Section Shape.
Context {A B : Type} (less : A → A → bool) (setIdx : nat → A → A) (strip : A → B).
Hypothesis strip_setIdx : ∀ i x, strip (setIdx i x) = strip x.
Variable idx : A → Z.
Hypothesis idx_setIdx : ∀ i x, idx (setIdx i x) = Z.of_nat i.

(** Every element knows its position. *)
Definition idx_ok (l : list A) : Prop := ∀ i x, l !! i = Some x → idx x = Z.of_nat i.

(** What every heap function guarantees. *)
Record moved (l l' : list A) : Prop := {
  moved_perm : strip <$> l' ≡ₚ strip <$> l;
  moved_idx : idx_ok l → idx_ok l'
}.

Lemma moved_refl l : moved l l.
Proof. by split. Qed.
Lemma moved_trans l1 l2 l3 : moved l1 l2 → moved l2 l3 → moved l1 l3.
Proof. intros [H1 H2] [H3 H4]. split; [by rewrite H3|auto]. Qed.
Lemma moved_length l l' : moved l l' → length l' = length l.
Proof. intros [Hp _]. apply Permutation_length in Hp. by rewrite !length_fmap in Hp. Qed.

Lemma list_fmap_insert_alter i k (l : list A) : strip <$> alter (setIdx k) i l = strip <$> l.
Proof.
  apply list_eq. intros m. rewrite !list_lookup_fmap. destruct (decide (i = m)) as [->|].
  - rewrite list_lookup_alter_eq. destruct (l !! m); cbn; [by rewrite strip_setIdx|done].
  - by rewrite list_lookup_alter_ne.
Qed.

Lemma swap_lookup i j l x y :
  l !! i = Some x → l !! j = Some y → i ≠ j →
  ∃ l', swap setIdx i j l = Ok l' ∧ l' !! i = Some (setIdx i y) ∧ l' !! j = Some (setIdx j x) ∧
    (∀ k, k ≠ i → k ≠ j → l' !! k = l !! k) ∧ length l' = length l.
Proof.
  intros Hi Hj Hne. unfold swap. rewrite Hi, Hj. eexists. split; [done|].
  pose proof (lookup_lt_Some _ _ _ Hi). pose proof (lookup_lt_Some _ _ _ Hj). split_and!.
  - rewrite list_lookup_alter_ne, list_lookup_alter_eq by done.
    by rewrite list_lookup_insert_ne, list_lookup_insert_eq.
  - rewrite list_lookup_alter_eq, list_lookup_alter_ne by done.
    by rewrite list_lookup_insert_eq by (by rewrite length_insert).
  - intros k Hki Hkj. by rewrite !list_lookup_alter_ne, !list_lookup_insert_ne.
  - by rewrite !length_alter, !length_insert.
Qed.

Lemma swap_moved i j l l' : swap setIdx i j l = Ok l' → i ≠ j → moved l l'.
Proof.
  intros Hs Hne. unfold swap in Hs.
  destruct (l !! i) as [x|] eqn:Hi; [|done]. destruct (l !! j) as [y|] eqn:Hj; [|done].
  pose proof (swap_lookup i j l x y Hi Hj Hne) as (l2 & Hs2 & Hli & Hlj & Hk & Hlen).
  unfold swap in Hs2. rewrite Hi, Hj in Hs2. rewrite Hs in Hs2. injection Hs2 as <-. split.
  - rewrite <- (Permutation_insert_swap (strip <$> l) i j (strip x) (strip y))
      by (rewrite list_lookup_fmap, ?Hi, ?Hj; done).
    injection Hs as <-. by rewrite !list_fmap_insert_alter, !list_fmap_insert.
  - intros Hok k z. destruct (decide (k = i)) as [->|]; [|destruct (decide (k = j)) as [->|]].
    + rewrite Hli. intros [= <-]. apply idx_setIdx.
    + rewrite Hlj. intros [= <-]. apply idx_setIdx.
    + rewrite Hk by done. apply Hok.
Qed.

Lemma swap_ok i j l :
  (i < length l)%nat → (j < length l)%nat → i ≠ j →
  ∃ l', swap setIdx i j l = Ok l' ∧ moved l l' ∧
    ∀ k, k ≠ i → k ≠ j → l' !! k = l !! k.
Proof.
  intros [x Hx]%lookup_lt_is_Some_2 [y Hy]%lookup_lt_is_Some_2 Hne.
  destruct (swap_lookup i j l x y Hx Hy Hne) as (l' & Hs & _ & _ & Hk & _).
  exists l'. split; [done|]. split; [by eapply swap_moved|done].
Qed.

Lemma less_at_ok l i j : (i < length l)%nat → (j < length l)%nat → ∃ b, less_at less l i j = Ok b.
Proof.
  intros [x Hx]%lookup_lt_is_Some_2 [y Hy]%lookup_lt_is_Some_2. unfold less_at. rewrite Hx, Hy. eauto.
Qed.

Lemma parent_lt j : (0 < j)%nat → (parent j < j)%nat.
Proof. intros Hj. unfold parent. apply Nat.Div0.div_lt_upper_bound. lia. Qed.

Lemma up_shape fuel j l :
  (j < length l)%nat → (j <= fuel)%nat →
  ∃ l', up less setIdx fuel j l = Ok l' ∧ moved l l' ∧ ∀ k, (j < k)%nat → l' !! k = l !! k.
Proof.
  revert j l. induction fuel as [|fuel IH]; intros j l Hj Hf; cbn [up].
  all: destruct (Nat.eqb_spec (parent j) j) as [E|Hne]; [exists l; eauto using moved_refl|].
  - assert (j = 0)%nat as -> by lia. done.
  - assert (0 < j)%nat as Hpos by (destruct j; [done|lia]). pose proof (parent_lt j Hpos).
    destruct (less_at_ok l j (parent j)) as [[] ->]; [lia..| |]; cbn [rbind negb];
      [|exists l; eauto using moved_refl].
    destruct (swap_ok (parent j) j l) as (l1 & -> & Hm & Hk); [lia..|]. cbn [rbind].
    destruct (IH (parent j) l1) as (l2 & -> & Hm2 & Hk2); [rewrite (moved_length l l1); [lia|done]|lia|].
    exists l2. split; [done|]. split; [by eapply moved_trans|].
    intros k Hjk. rewrite Hk2 by lia. apply Hk; lia.
Qed.

Lemma down_shape fuel i n l :
  (n <= length l)%nat → (n <= i + fuel)%nat →
  ∃ l' i', down_loop less setIdx fuel i n l = Ok (l', i') ∧ moved l l' ∧ (i <= i')%nat ∧
    ∀ k, (n <= k)%nat → l' !! k = l !! k.
Proof.
  revert i l. induction fuel as [|fuel IH]; intros i l Hn Hf; cbn [down_loop];
    destruct (Nat.leb_spec n (2 * i + 1)) as [Hl|Hl]; try lia.
  - exists l, i. eauto using moved_refl.
  - exists l, i. eauto using moved_refl.
  - set (r := if (2 * i + 1 + 1 <? n)%nat then _ else _).
    assert (∃ b, r = Ok b ∧ (b = true → 2 * i + 1 + 1 < n)%nat) as (right & -> & Hright).
    { unfold r. destruct (Nat.ltb_spec (2 * i + 1 + 1) n); [|by eexists].
      destruct (less_at_ok l (2 * i + 1 + 1) (2 * i + 1)) as [b ->]; [lia..|eauto]. }
    cbn [rbind]. set (j := if right then _ else _).
    assert (i < j ∧ j < n)%nat as [Hij Hjn] by (unfold j; destruct right; [specialize (Hright eq_refl)|]; lia).
    destruct (less_at_ok l j i) as [[] ->]; [lia..| |]; cbn [rbind negb].
    2:{ exists l, i. eauto using moved_refl. }
    destruct (swap_ok i j l) as (l1 & -> & Hm & Hk); [lia..|]. cbn [rbind].
    pose proof (moved_length _ _ Hm) as Hlen.
    destruct (IH j l1) as (l2 & i2 & -> & Hm2 & Hi2 & Hk2); [lia..|].
    exists l2, i2. split; [done|]. split; [by eapply moved_trans|]. split; [lia|].
    intros k Hjk. rewrite Hk2 by lia. apply Hk; lia.
Qed.

Lemma down_ok i n l :
  (n <= length l)%nat →
  ∃ l' b, down less setIdx i n l = Ok (l', b) ∧ moved l l' ∧ ∀ k, (n <= k)%nat → l' !! k = l !! k.
Proof.
  intros Hn. destruct (down_shape n i n l) as (l' & i' & E & Hm & _ & Hk); [lia..|].
  unfold down. rewrite E. eexists _, _. eauto.
Qed.

Lemma fix_shape i n l :
  (i < length l)%nat → (n <= length l)%nat →
  ∃ l', rbind (down less setIdx i n l) (λ '(l', m), if m : bool then Ok l' else up less setIdx i i l') = Ok l' ∧
    moved l l' ∧ ∀ k, (n <= k)%nat → (i < k)%nat → l' !! k = l !! k.
Proof.
  intros Hi Hn. destruct (down_ok i n l Hn) as (l1 & b & -> & Hm & Hk). cbn [rbind].
  destruct b; [exists l1; eauto|].
  destruct (up_shape i i l1) as (l2 & -> & Hm2 & Hk2); [rewrite (moved_length l l1); done|lia|].
  exists l2. split; [done|]. split; [by eapply moved_trans|].
  intros k Hnk Hik. rewrite Hk2 by lia. by apply Hk.
Qed.

Lemma heap_Fix_shape i l :
  (i < length l)%nat → ∃ l', heap_Fix less setIdx (Z.of_nat i) l = Ok l' ∧ moved l l'.
Proof.
  intros Hi. unfold heap_Fix. destruct (Z.ltb_spec (Z.of_nat i) 0); [lia|]. rewrite Nat2Z.id.
  destruct (fix_shape i (length l) l) as (l' & E & Hm & _); [lia..|]. eauto.
Qed.

Lemma heap_PushUp_shape l :
  l ≠ [] → ∃ l', heap_PushUp less setIdx l = Ok l' ∧ moved l l'.
Proof.
  intros Hne. destruct (up_shape (length l) (length l - 1) l) as (l' & E & Hm & _); [|lia|eauto].
  destruct l; cbn; [done|lia].
Qed.

Lemma init_loop_shape k n l :
  (n <= length l)%nat → ∃ l', init_loop less setIdx k n l = Ok l' ∧ moved l l'.
Proof.
  revert l. induction k as [|k IH]; intros l Hn; cbn [init_loop]; [eauto using moved_refl|].
  destruct (down_ok k n l Hn) as (l1 & b & -> & Hm & _). cbn [rbind].
  destruct (IH l1) as (l2 & -> & Hm2); [rewrite (moved_length l l1); done|].
  exists l2. split; [done|]. by eapply moved_trans.
Qed.

Lemma heap_RemoveToEnd_shape i l x :
  l !! i = Some x →
  ∃ l' y, heap_RemoveToEnd less setIdx i l = Ok l' ∧ moved l l' ∧
    l' !! (length l - 1)%nat = Some y ∧ strip y = strip x.
Proof.
  intros Hx. pose proof (lookup_lt_Some _ _ _ Hx) as Hlt. unfold heap_RemoveToEnd.
  destruct (Nat.eqb_spec (length l - 1) i) as [E|Hne].
  { exists l, x. rewrite E. eauto using moved_refl. }
  destruct (l !! (length l - 1)%nat) as [y|] eqn:Hy; [|apply lookup_ge_None in Hy; lia].
  destruct (swap_lookup i (length l - 1) l x y Hx Hy) as (l1 & E & _ & Hl & _ & Hlen); [done|].
  rewrite E. cbn [rbind]. pose proof (swap_moved _ _ _ _ E (not_eq_sym Hne)) as Hm.
  destruct (fix_shape i (length l - 1) l1) as (l2 & E2 & Hm2 & Hk2); [lia..|].
  exists l2, (setIdx (length l - 1) x). split; [exact E2|]. split; [by eapply moved_trans|].
  rewrite Hk2 by lia. split; [done|]. apply strip_setIdx.
Qed.
End Shape.

(** ** Heap order *)
Section Order.
Context {A : Type} (less : A → A → bool) (setIdx : nat → A → A).
Hypothesis less_set_l : ∀ i x y, less (setIdx i x) y = less x y.
Hypothesis less_set_r : ∀ i x y, less x (setIdx i y) = less x y.

(** [x] is not after [y]. *)
Definition le (x y : A) : Prop := less y x = false.
Hypothesis le_trans : ∀ x y z, le x y → le y z → le x z.
Hypothesis le_total : ∀ x y, less x y = true → le x y.

Lemma le_set_l i x y : le (setIdx i x) y ↔ le x y.
Proof. unfold le. by rewrite less_set_r. Qed.
Lemma le_set_r i x y : le x (setIdx i y) ↔ le x y.
Proof. unfold le. by rewrite less_set_l. Qed.

(** The order between positions [p] and [k]. *)
Definition rel (l : list A) (p k : nat) : Prop :=
  ∀ x y, l !! p = Some x → l !! k = Some y → le x y.
Definition edge (l : list A) (k : nat) : Prop := rel l (parent k) k.
(** The edges of the first [n] elements whose parent is at [m] or later. *)
Definition ordered (m n : nat) (l : list A) : Prop :=
  ∀ k, (0 < k < n)%nat → (m <= parent k)%nat → edge l k.

Lemma parent_spec k : (0 < k)%nat → (k = 2 * parent k + 1 ∨ k = 2 * parent k + 2)%nat.
Proof.
  intros Hk. unfold parent. pose proof (Nat.div_mod_eq (k - 1) 2).
  pose proof (Nat.mod_upper_bound (k - 1) 2). lia.
Qed.
Lemma parent_child i j : (j = 2 * i + 1 ∨ j = 2 * i + 2)%nat → parent j = i.
Proof. intros Hj. pose proof (parent_spec j). lia. Qed.

(** After a swap, a relation between two positions is one of the old list. *)
Lemma swap_rel i j l l' p k p' k' :
  swap setIdx i j l = Ok l' → i ≠ j →
  p' = (if decide (p = i) then j else if decide (p = j) then i else p) →
  k' = (if decide (k = i) then j else if decide (k = j) then i else k) →
  rel l p' k' → rel l' p k.
Proof.
  intros Hs Hne -> -> Hr. assert (∃ x y, l !! i = Some x ∧ l !! j = Some y) as (x & y & Hi & Hj).
  { unfold swap in Hs. destruct (l !! i), (l !! j); try done. eauto. }
  destruct (swap_lookup setIdx i j l x y Hi Hj Hne) as (l2 & Hs2 & Hli & Hlj & Hk & _).
  rewrite Hs in Hs2. injection Hs2 as <-.
  assert (∀ q z, l' !! q = Some z → ∃ w, l !! (if decide (q = i) then j else if decide (q = j) then i else q) = Some w
    ∧ ((∀ u, le w u → le z u) ∧ (∀ u, le u w → le u z))) as Hq.
  { clear Hr. intros q z Hz. case_decide as E1; [|case_decide as E2].
    - subst q. rewrite Hli in Hz. injection Hz as <-. exists y. split; [done|].
      split; intros u; [by rewrite le_set_l|by rewrite le_set_r].
    - subst q. rewrite Hlj in Hz. injection Hz as <-. exists x. split; [done|].
      split; intros u; [by rewrite le_set_l|by rewrite le_set_r].
    - exists z. rewrite <- Hk by done. auto. }
  intros z1 z2 Hz1 Hz2. destruct (Hq _ _ Hz1) as (w1 & E1 & F1 & _).
  destruct (Hq _ _ Hz2) as (w2 & E2 & _ & F2). auto.
Qed.

Lemma rel_trans l p q k : (q < length l)%nat → rel l p q → rel l q k → rel l p k.
Proof.
  intros [z Hz]%lookup_lt_is_Some_2 H1 H2 x y Hx Hy. eapply le_trans; [by apply H1|by apply H2].
Qed.

Lemma less_at_rel l i j b :
  less_at less l i j = Ok b → if b then rel l i j else rel l j i.
Proof.
  unfold less_at. destruct (l !! i) as [x|] eqn:Hx; [|done]. destruct (l !! j) as [y|] eqn:Hy; [|done].
  intros [= <-]. destruct (less x y) eqn:E; intros u v Hu Hv; simplify_eq.
  - by apply le_total.
  - done.
Qed.

Lemma rbind_Ok {X Y} (r : res unit X) (k : X → res unit Y) y :
  rbind r k = Ok y → ∃ x, r = Ok x ∧ k x = Ok y.
Proof. destruct r; cbn; try done. eauto. Qed.

Lemma swap_length i j l l' : swap setIdx i j l = Ok l' → length l' = length l.
Proof.
  unfold swap. destruct (l !! i), (l !! j); try done. intros [= <-].
  by rewrite !length_alter, !length_insert.
Qed.

(** Close a goal [rel l' p k] after a swap. *)
Ltac by_swap Hs :=
  eapply (swap_rel _ _ _ _ _ _ _ _ Hs); [lia|reflexivity|reflexivity|];
  repeat (first [rewrite decide_True by lia | rewrite decide_False by lia]).

Lemma up_order fuel j n l l' :
  up less setIdx fuel j l = Ok l' → (j < n)%nat → (n <= length l)%nat →
  (∀ k, (0 < k < n)%nat → k ≠ j → edge l k) →
  (∀ k, (0 < k < n)%nat → parent k = j → (0 < j)%nat → rel l (parent j) k) →
  ordered 0 n l'.
Proof.
  revert j l. induction fuel as [|fuel IH]; intros j l Hup Hj Hn HW HG; cbn [up] in Hup;
    destruct (Nat.eqb_spec (parent j) j) as [E|Hne].
  1,3: injection Hup as <-; intros k Hk _; apply HW; [done|];
    intros ->; pose proof (parent_lt j); lia.
  all: apply rbind_Ok in Hup as ([] & Hl & Hup); cbn [negb] in Hup; apply less_at_rel in Hl.
  2,4: injection Hup as <-; intros k Hk _; destruct (decide (k = j)) as [->|]; [exact Hl|by apply HW].
  1: done.
  apply rbind_Ok in Hup as (l1 & Hs & Hup). assert (0 < j)%nat as Hpos by (destruct j; [done|lia]).
  pose proof (parent_lt j Hpos) as Hp. set (p := parent j) in *.
  apply (IH p l1 Hup); [lia|by rewrite (swap_length _ _ _ _ Hs)|..].
  - intros k Hk Hkp. unfold edge. pose proof (parent_lt k).
    destruct (decide (k = j)) as [->|]; [fold p|destruct (decide (parent k = j)) as [Ek|];
      [|destruct (decide (parent k = p)) as [Ek|]]].
    + by_swap Hs. exact Hl.
    + rewrite Ek. by_swap Hs. by apply HG.
    + rewrite Ek. by_swap Hs. apply (rel_trans l j p k); [lia|exact Hl|].
      rewrite <- Ek. by apply HW.
    + by_swap Hs. by apply HW.
  - intros k Hk Ek Hpp. pose proof (parent_lt p Hpp). pose proof (parent_lt k).
    destruct (decide (k = j)) as [->|].
    + by_swap Hs. apply HW; lia.
    + by_swap Hs. apply (rel_trans l (parent p) p k); [lia|apply HW; lia|].
      rewrite <- Ek. by apply HW.
Qed.

(** The position [down] moves to: the smaller child. *)
Lemma child_choice l i n right :
  (n <= length l)%nat → (2 * i + 1 < n)%nat →
  (if (2 * i + 1 + 1 <? n)%nat then less_at less l (2 * i + 1 + 1) (2 * i + 1) else Ok false) = Ok right →
  let j := if right : bool then (2 * i + 1 + 1)%nat else (2 * i + 1)%nat in
  (i < j < n)%nat ∧ parent j = i ∧
  ∀ k, (0 < k < n)%nat → parent k = i → k ≠ j → rel l j k.
Proof.
  intros Hn Hl Hr j. assert (parent j = i) as Hpj.
  { apply parent_child. unfold j. destruct right; lia. }
  split; [|split; [done|]].
  - unfold j. destruct (Nat.ltb_spec (2 * i + 1 + 1) n); destruct right; try done; lia.
  - intros k Hk Ek Hkj. destruct (parent_spec k) as [E|E]; [lia|rewrite Ek in E..].
    + unfold j in *. destruct right; [|lia].
      destruct (Nat.ltb_spec (2 * i + 1 + 1) n); [|done].
      apply less_at_rel in Hr. by rewrite E.
    + unfold j in *. destruct right; [lia|].
      destruct (Nat.ltb_spec (2 * i + 1 + 1) n); [|lia].
      apply less_at_rel in Hr. replace k with (2 * i + 1 + 1)%nat by lia. done.
Qed.

Lemma down_order fuel m i n l l' i' :
  down_loop less setIdx fuel i n l = Ok (l', i') → (n <= length l)%nat → (m <= i)%nat →
  (∀ k, (0 < k < n)%nat → (m <= parent k)%nat → k ≠ i → parent k ≠ i → edge l k) →
  (∀ k, (0 < k < n)%nat → parent k = i → (0 < i)%nat → (m <= parent i)%nat → rel l (parent i) k) →
  (i' = i ∧ l' = l ∧ ∀ k, (0 < k < n)%nat → parent k = i → edge l k) ∨
  ((i < i')%nat ∧ ordered m n l').
Proof.
  revert i l. induction fuel as [|fuel IH]; intros i l Hd Hn Hm HW HG; cbn [down_loop] in Hd;
    destruct (Nat.leb_spec n (2 * i + 1)) as [Hl|Hl].
  1,3: injection Hd as <- <-; left; do 2 (split; [done|]); intros k Hk Ek; pose proof (parent_spec k); lia.
  all: apply rbind_Ok in Hd as (right & Hr & Hd); apply (child_choice l i n) in Hr; [|done..];
    set (j := if right then _ else _) in *; destruct Hr as ([Hij Hjn] & Hpj & Hsib);
    apply rbind_Ok in Hd as ([] & Hlt & Hd); cbn [negb] in Hd; apply less_at_rel in Hlt.
  2,4: injection Hd as <- <-; left; do 2 (split; [done|]); intros k Hk Ek; unfold edge; rewrite Ek;
    (destruct (decide (k = j)) as [->|]; [exact Hlt|]);
    apply (rel_trans l i j k); [lia|exact Hlt|by apply Hsib].
  1: done.
  apply rbind_Ok in Hd as (l1 & Hs & Hd). pose proof (swap_length _ _ _ _ Hs) as Hlen.
  assert (edge l1 j) as Hej by (unfold edge; rewrite Hpj; by_swap Hs; exact Hlt).
  assert (∀ k, (0 < k < n)%nat → (m <= parent k)%nat → k ≠ j → parent k ≠ j → edge l1 k) as HW1.
  { intros k Hk Hmk Hkj Hpk. unfold edge. pose proof (parent_lt k).
    destruct (decide (k = i)) as [->|]; [|destruct (decide (parent k = i)) as [Ek|]].
    - by_swap Hs. apply HG; [lia|done|lia|done].
    - rewrite Ek. by_swap Hs. by apply Hsib.
    - by_swap Hs. by apply HW. }
  right. destruct (IH j l1 Hd) as [(-> & -> & Hc)|[Hij' Ho]]; [lia|lia|done| | |].
  - intros k Hk Ek _ _. rewrite Hpj. pose proof (parent_lt k). by_swap Hs.
    rewrite <- Ek. apply HW; lia.
  - split; [done|]. intros k Hk Hmk. destruct (decide (k = j)) as [->|]; [done|].
    destruct (decide (parent k = j)); auto.
  - split; [lia|done].
Qed.

(** One element out of place: down, then up when it did not move. *)
Lemma fix_order i n l l' :
  rbind (down less setIdx i n l) (λ '(l', m), if m : bool then Ok l' else up less setIdx i i l') = Ok l' →
  (i < n)%nat → (n <= length l)%nat →
  (∀ k, (0 < k < n)%nat → k ≠ i → parent k ≠ i → edge l k) →
  (∀ k, (0 < k < n)%nat → parent k = i → (0 < i)%nat → rel l (parent i) k) →
  ordered 0 n l'.
Proof.
  intros Hf Hi Hn HW HG. apply rbind_Ok in Hf as ([l1 b] & Hd & Hf).
  unfold down in Hd. apply rbind_Ok in Hd as ([l2 i2] & Hd & E). injection E as -> <-.
  destruct (down_order n 0 i n l l1 i2 Hd) as [(-> & -> & Hc)|[Hlt Ho]]; [lia|lia|auto|auto| |].
  - rewrite (proj2 (Nat.ltb_ge i i)) in Hf by lia.
    apply (up_order i i n l l' Hf); [done|done| |done].
    intros k Hk Hki. destruct (decide (parent k = i)); auto.
  - rewrite (proj2 (Nat.ltb_lt i i2)) in Hf by lia. by injection Hf as <-.
Qed.

(** Replacing the top of a heap and fixing position 0. *)
Lemma heap_Fix_top_order l x l' :
  ordered 0 (length l) l → l ≠ [] →
  heap_Fix less setIdx 0 (<[0%nat := x]> l) = Ok l' → ordered 0 (length l) l'.
Proof.
  intros Ho Hne. unfold heap_Fix. cbn [Z.ltb Z.compare Z.to_nat]. rewrite length_insert. intros Hf.
  apply (fix_order 0 (length l) (<[0%nat := x]> l) l' Hf); [destruct l; cbn; [done|lia]| | |lia].
  - by rewrite length_insert.
  - intros k Hk Hk0 Hp y z Hy Hz. rewrite !list_lookup_insert_ne in * by lia.
    by apply (Ho k Hk); [lia|..].
Qed.

(** Appending an element and moving it up. *)
Lemma heap_PushUp_order l x l' :
  ordered 0 (length l) l → heap_PushUp less setIdx (l ++ [x]) = Ok l' →
  ordered 0 (S (length l)) l'.
Proof.
  intros Ho. unfold heap_PushUp. rewrite length_app, Nat.add_1_r. cbn [length]. intros Hu.
  replace (S (length l) - 1)%nat with (length l) in Hu by lia.
  apply (up_order _ _ (S (length l)) _ _ Hu); [lia|rewrite length_app; cbn; lia|..].
  - intros k Hk Hkl y z Hy Hz. pose proof (parent_lt k). rewrite !lookup_app_l in * by lia.
    by apply (Ho k); [lia|lia|..].
  - intros k Hk Hp. pose proof (parent_lt k). lia.
Qed.

Lemma down_loop_length fuel i n l l' i' :
  down_loop less setIdx fuel i n l = Ok (l', i') → length l' = length l.
Proof.
  revert i l. induction fuel as [|fuel IH]; intros i l Hd; cbn [down_loop] in Hd;
    (destruct (n <=? _)%nat; [by injection Hd as <- _|]);
    apply rbind_Ok in Hd as (right & _ & Hd); apply rbind_Ok in Hd as ([] & _ & Hd);
    cbn [negb] in Hd; try (discriminate Hd || by injection Hd as <- _).
  apply rbind_Ok in Hd as (l1 & Hs & Hd). rewrite (IH _ _ Hd). by eapply swap_length.
Qed.

Lemma init_loop_order k n l l' :
  init_loop less setIdx k n l = Ok l' → (n <= length l)%nat → ordered k n l → ordered 0 n l'.
Proof.
  revert l. induction k as [|k IH]; intros l Hi Hn Ho; cbn [init_loop] in Hi; [by injection Hi as <-|].
  apply rbind_Ok in Hi as ([l1 b] & Hd & Hi). unfold down in Hd.
  apply rbind_Ok in Hd as ([l2 i2] & Hd & E). injection E as -> _.
  apply (IH l1 Hi); [by rewrite (down_loop_length _ _ _ _ _ _ Hd)|].
  assert (∀ q, (0 < q < n)%nat → (k <= parent q)%nat → parent q ≠ k → edge l q) as HW
    by (intros q Hq Hk Hne; apply Ho; lia).
  destruct (down_order n k k n l l1 i2 Hd) as [(_ & -> & Hc)|[_ Hr]]; [lia|lia|auto| | |done].
  - intros q Hq Hp Hk0 Hpk. pose proof (parent_lt k Hk0). lia.
  - intros q Hq Hk. destruct (decide (parent q = k)); auto.
Qed.

(** [heap.Init] makes a heap of any list. *)
Lemma heap_Init_order l l' : heap_Init less setIdx l = Ok l' → ordered 0 (length l) l'.
Proof.
  unfold heap_Init. intros Hi. apply (init_loop_order _ _ _ _ Hi); [done|].
  intros k Hk Hp. pose proof (parent_spec k). pose proof (Nat.div_mod_eq (length l) 2).
  pose proof (Nat.mod_upper_bound (length l) 2). lia.
Qed.

(** [heap.Remove] leaves a heap in front of the element it moved to the end. *)
Lemma heap_RemoveToEnd_order i l l' :
  ordered 0 (length l) l → (i < length l)%nat → heap_RemoveToEnd less setIdx i l = Ok l' →
  ordered 0 (length l - 1) l'.
Proof.
  intros Ho Hi. unfold heap_RemoveToEnd. set (n := (length l - 1)%nat).
  destruct (Nat.eqb_spec n i) as [E|Hne].
  { intros [= <-] k Hk Hm. apply Ho; lia. }
  intros Hr. apply rbind_Ok in Hr as (l1 & Hs & Hf).
  apply (fix_order _ _ _ _ Hf); [lia|by rewrite (swap_length _ _ _ _ Hs); lia|..].
  - intros k Hk Hki Hp. unfold edge. pose proof (parent_lt k). by_swap Hs. apply Ho; lia.
  - intros k Hk Hp Hi0. pose proof (parent_lt k). pose proof (parent_lt i Hi0). by_swap Hs.
    apply (rel_trans l (parent i) i k); [lia|apply Ho; lia|]. rewrite <- Hp at 1. apply Ho; lia.
Qed.

(** The top of a heap is not after any other element. *)
Lemma ordered_top n l k x y :
  ordered 0 n l → (n <= length l)%nat → l !! 0%nat = Some x → (k < n)%nat → l !! k = Some y → le x y.
Proof.
  intros Ho Hn Hx. revert y. induction k as [k IH] using lt_wf_ind. intros y Hk Hy.
  destruct (decide (k = 0)%nat) as [->|Hk0].
  { assert (y = x) as -> by congruence. unfold le. destruct (less x x) eqn:E; [|done].
    specialize (le_total x x E). unfold le in le_total. congruence. }
  pose proof (parent_lt k). destruct (lookup_lt_is_Some_2 l (parent k)) as [z Hz]; [lia|].
  eapply le_trans; [apply (IH (parent k)); [lia|lia|exact Hz]|].
  by apply (Ho k); [lia|lia|..].
Qed.
End Order.
