(* ===== verification/ApiCache.v ===== *)
(** * The block cache (api/types/apicache.go)

    [APICache] maps block hashes to cached blocks and heights to hashes; a
    [BlockPriorityQueue], a heap with a settable comparison, decides which
    block leaves when the cache is full.  The queue builds its own
    [CachedBlock] objects: they are never the objects stored in the cache map,
    so the two are separate values here.  Exported methods are atomic steps
    (each holds the cache mutex), and a method reads the clock through [now],
    whose [n]-th value is its [n]-th call of time.Now. *)
From S2P Require Import Prelude Heap.

Section ApiCache.
(** The fields of a block summary and of a stake info that the cache never
    reads. *)
Context {BlockRest StakeRest : Type}.
(** chainhash.NewHashFromStr, with [None] for a non-nil error, and Hash.String. *)
Context (NewHashFromStr : string → option Hash) (HashString : Hash → string).

(** ** Data *)
Record BlockDataBasic := mkBDB {
  bd_Height : Z;   (* uint32 *)
  bd_Size : Z;     (* uint32 *)
  bd_Hash : string;
  bd_Rest : BlockRest
}.

Record StakeInfoExtended := mkSIE {
  si_Hash : string;
  si_FeeinfoHeight : Z;   (* Feeinfo.Height, uint32 *)
  si_Rest : StakeRest
}.

Record CachedBlock := mkCached {
  height : Z;             (* uint32 *)
  hash : string;
  summary : option BlockDataBasic;
  stakeInfo : option StakeInfoExtended;
  accesses : Z;           (* int64 *)
  accessTime : Z;         (* int64, nanoseconds *)
  heapIdx : Z
}.

Definition setHeapIdx (i : nat) (b : CachedBlock) : CachedBlock :=
  mkCached (height b) (hash b) (summary b) (stakeInfo b) (accesses b) (accessTime b) (Z.of_nat i).

(** What a block is, its position in the heap aside. *)
Definition strip (b : CachedBlock) : CachedBlock := setHeapIdx 0 b.

(** [Access] with the current time. *)
Definition Access (t : Z) (b : CachedBlock) : CachedBlock :=
  mkCached (height b) (hash b) (summary b) (stakeInfo b) (i64 (accesses b + 1)) t (heapIdx b).

Record BlockPriorityQueue := mkPQ {
  bh : list CachedBlock;
  pq_capacity : Z;        (* uint32 *)
  needsReheap : bool;
  minHeight : Z;
  maxHeight : Z;
  lessFn : CachedBlock → CachedBlock → bool;
  lastAccess : Z          (* nanoseconds *)
}.

Record APICache := mkApi {
  isEnabled : option bool;   (* atomic.Value: [None] before the first Store *)
  capacity : Z;              (* uint32 *)
  blockCache : gmap Hash CachedBlock;
  MainchainBlocks : gmap Z Hash;
  expireQueue : BlockPriorityQueue;
  hits : Z;
  misses : Z
}.

Abbreviation PQ := (goM BlockPriorityQueue unit).
Abbreviation API := (goM APICache unit).

(** ** Comparators *)
Definition LessByHeight (bi bj : CachedBlock) : bool := height bi <? height bj.
Definition LessByAccessCount (bi bj : CachedBlock) : bool := accesses bi <? accesses bj.
Definition LessByAccessTime (bi bj : CachedBlock) : bool := accessTime bi <? accessTime bj.
Definition LessByAccessCountThenHeight (bi bj : CachedBlock) : bool :=
  if accesses bi =? accesses bj then LessByHeight bi bj else LessByAccessCount bi bj.

(** Go panics on the division when the threshold is 0; the threshold in use
    is one millisecond. *)
Definition MakeLessByAccessTimeThenCount (millisecondsBinned : Z) (bi bj : CachedBlock) : bool :=
  let millisecondThreshold := i64 (millisecondsBinned * 1000000) in
  let epochDiff := Z.quot (i64 (accessTime bi - accessTime bj)) millisecondThreshold in
  if epochDiff =? 0 then LessByAccessCount bi bj else LessByAccessTime bi bj.

(** ** Building a cached block *)
(** [checkBlockHeightHash]; [None] is the nil dereference when both are nil. *)
Definition checkBlockHeightHash (bs : option BlockDataBasic) (si : option StakeInfoExtended)
    : option (Z * string * bool) :=
  match bs, si with
  | None, None => None
  | None, Some si => Some (si_FeeinfoHeight si, si_Hash si, false)
  | Some bs, None => Some (bd_Height bs, bd_Hash bs, false)
  | Some bs, Some si =>
    Some (bd_Height bs, bd_Hash bs,
      if negb (bd_Height bs =? si_FeeinfoHeight si) then true
      else negb (bool_decide (bd_Hash bs = si_Hash si)))
  end.

(** [None] is the nil pointer. *)
Definition newCachedBlock (bs : option BlockDataBasic) (si : option StakeInfoExtended) : option CachedBlock :=
  match checkBlockHeightHash bs si with
  | None => None
  | Some (_, _, true) => None
  | Some (h, hs, false) => Some (mkCached h hs bs si 0 0 (-1))
  end.

(** ** The priority queue *)
Definition set_bh (l : list CachedBlock) (q : BlockPriorityQueue) : BlockPriorityQueue :=
  mkPQ l (pq_capacity q) (needsReheap q) (minHeight q) (maxHeight q) (lessFn q) (lastAccess q).
Definition set_minmax (mn mx : Z) (q : BlockPriorityQueue) : BlockPriorityQueue :=
  mkPQ (bh q) (pq_capacity q) (needsReheap q) mn mx (lessFn q) (lastAccess q).

Definition MaxUint32 : Z := 2 ^ 32 - 1.

Definition NewBlockPriorityQueue (cap : Z) : BlockPriorityQueue :=
  mkPQ [] cap false MaxUint32 (-1) (MakeLessByAccessTimeThenCount 1) 0.

Definition SetLessFn (f : CachedBlock → CachedBlock → bool) : PQ unit := modify (λ q,
  mkPQ (bh q) (pq_capacity q) (needsReheap q) (minHeight q) (maxHeight q) f (lastAccess q)).
Definition setAccessTime (t : Z) : PQ unit := modify (λ q,
  mkPQ (bh q) (pq_capacity q) (needsReheap q) (minHeight q) (maxHeight q) (lessFn q) t).
Definition setNeedsReheap (b : bool) : PQ unit := modify (λ q,
  mkPQ (bh q) (pq_capacity q) b (minHeight q) (maxHeight q) (lessFn q) (lastAccess q)).
Definition doesNeedReheap (t : Z) (q : BlockPriorityQueue) : bool :=
  needsReheap q && (7000000000 <? t - lastAccess q).

(** Run a heap function on [pq.bh] with [pq.Less] and [pq.Swap]. *)
Definition heapOp (f : (CachedBlock → CachedBlock → bool) → (nat → CachedBlock → CachedBlock) →
    list CachedBlock → res unit (list CachedBlock)) : PQ unit := λ q,
  match f (lessFn q) setHeapIdx (bh q) with
  | Ok l => (Ok tt, set_bh l q)
  | Err e => (Err e, q)
  | Panic => (Panic, q)
  | NoFuel => (NoFuel, q)
  end.

Definition minmax (h : Z) (q : BlockPriorityQueue) : BlockPriorityQueue :=
  let q := if maxHeight q <? h then set_minmax (minHeight q) h q else q in
  if h <? minHeight q then set_minmax h (maxHeight q) q else q.
Definition updateMinMax (h : Z) : PQ unit := modify (minmax h).

(** The scan widens the range; it is not reset first. *)
Definition RescanMinMax : PQ unit := modify (λ q, foldl (λ q b, minmax (height b) q) q (bh q)).

Definition RescanMinMaxForRemove (h : Z) : PQ unit :=
  hit ← gets (λ q, (h =? minHeight q) || (h =? maxHeight q));
  if hit : bool then RescanMinMax else mret tt.

Definition RescanMinMaxForUpdate (heightAdd heightRemove : Z) : PQ unit :=
  hit ← gets (λ q, ((heightRemove =? minHeight q) && (heightRemove <=? heightAdd)) ||
                   ((heightRemove =? maxHeight q) && (heightAdd <=? heightRemove)));
  _ ← (if hit : bool then RescanMinMax else mret tt);
  updateMinMax heightAdd.

(** [heap.Push(pq, data)]: the queue's Push, then up. *)
Definition Push (t : Z) (bs : option BlockDataBasic) (si : option StakeInfoExtended) : PQ unit :=
  match newCachedBlock bs si with
  | None => panic
  | Some b =>
    n ← gets (λ q, length (bh q));
    let b := setHeapIdx n (Access t b) in
    _ ← updateMinMax (height b);
    _ ← modify (λ q, set_bh (bh q ++ [b]) q);
    setAccessTime (accessTime b)
  end.
Definition heapPush (t : Z) (bs : option BlockDataBasic) (si : option StakeInfoExtended) : PQ unit :=
  _ ← Push t bs si; heapOp heap_PushUp.

Definition Pop : PQ CachedBlock := λ q,
  match last (bh q) with
  | None => (Panic, q)
  | Some b =>
    (Ok (mkCached (height b) (hash b) (summary b) (stakeInfo b) (accesses b) (accessTime b) (-1)),
     set_bh (removelast (bh q)) q)
  end.

Definition Reheap : PQ unit := _ ← setNeedsReheap false; heapOp heap_Init.

Definition ResetHeap (now : nat → Z) (blocks : list CachedBlock) : PQ unit :=
  _ ← modify (set_minmax MaxUint32 (-1));
  _ ← modify (λ q, foldl (λ q b, minmax (height b) q) q blocks);
  _ ← modify (set_bh (imap (λ i b, mkCached (height b) (hash b) (summary b) (stakeInfo b) 1 (now O) (Z.of_nat i)) blocks));
  _ ← setNeedsReheap false;
  heapOp heap_Init.

(** [UpdateBlock] of the queue element [pq.bh[i]]. *)
Definition UpdateBlock (now : nat → Z) (i : nat) (bs : option BlockDataBasic) (si : option StakeInfoExtended) : PQ unit :=
  b ← gets (λ q, bh q !! i);
  match b with
  | None => panic
  | Some b =>
    match checkBlockHeightHash bs si with
    | None => panic
    | Some (_, _, true) => mret tt
    | Some (heightAdded, hs, false) =>
      let heightRemoved := height b in
      let b' := Access (now O) (mkCached heightAdded hs bs si 0 (accessTime b) (heapIdx b)) in
      _ ← modify (λ q, set_bh (<[i := b']> (bh q)) q);
      _ ← heapOp (λ less setIdx, heap_Fix less setIdx (heapIdx b'));
      _ ← RescanMinMaxForUpdate heightAdded heightRemoved;
      setAccessTime (now O)
    end
  end.

Definition Insert (now : nat → Z) (bs : option BlockDataBasic) (si : option StakeInfoExtended)
    : PQ (bool * option Hash * Z) :=
  q ← gets id;
  if pq_capacity q =? 0 then mret (false, None, -1) else
  match bs, si with
  | None, None => mret (false, None, -1)
  | _, _ =>
    if pq_capacity q <=? zlen (bh q) then
      match newCachedBlock bs si, bh q with
      | Some b, top :: _ =>
        let cachedBlock := setHeapIdx 0 (Access (now 0%nat) b) in
        if lessFn q top cachedBlock then
          _ ← UpdateBlock (λ n, now (1 + n)%nat) 0 bs si;
          let removedBlockHash := NewHashFromStr (hash top) in
          _ ← (match removedBlockHash with Some _ => setAccessTime (now 2%nat) | None => mret tt end);
          mret (true, removedBlockHash, height top)
        else mret (false, None, -1)
      | _, _ => panic
      end
    else
      match checkBlockHeightHash bs si with
      | None => panic
      | Some (_, _, true) => mret (false, None, -1)
      | Some (h, _, false) =>
        _ ← heapPush (now 0%nat) bs si;
        _ ← updateMinMax h;
        _ ← setAccessTime (now 1%nat);
        mret (true, None, -1)
      end
  end.

(** [heap.Remove(pq, idx)]. *)
Definition heapRemove (idx : nat) : PQ CachedBlock :=
  _ ← heapOp (λ less setIdx, heap_RemoveToEnd less setIdx idx); Pop.

Definition RemoveIndex (idx : nat) : PQ unit :=
  b ← gets (λ q, bh q !! idx);
  match b with
  | None => panic
  | Some b => _ ← heapRemove idx; RescanMinMaxForRemove (height b)
  end.

Definition RemoveBlock (b : CachedBlock) : PQ unit :=
  q ← gets id;
  if (0 <? heapIdx b) && (heapIdx b <? zlen (bh q)) then
    match bh q !! Z.to_nat (heapIdx b) with
    | None => panic
    | Some b' => if bool_decide (hash b' = hash b) then RemoveIndex (Z.to_nat (heapIdx b)) else mret tt
    end
  else mret tt.

(** ** The cache *)
Definition set_queue (q : BlockPriorityQueue) (c : APICache) : APICache :=
  mkApi (isEnabled c) (capacity c) (blockCache c) (MainchainBlocks c) q (hits c) (misses c).
Definition set_cache (m : gmap Hash CachedBlock) (c : APICache) : APICache :=
  mkApi (isEnabled c) (capacity c) m (MainchainBlocks c) (expireQueue c) (hits c) (misses c).
Definition set_main (m : gmap Z Hash) (c : APICache) : APICache :=
  mkApi (isEnabled c) (capacity c) (blockCache c) m (expireQueue c) (hits c) (misses c).
Definition set_counts (h m : Z) (c : APICache) : APICache :=
  mkApi (isEnabled c) (capacity c) (blockCache c) (MainchainBlocks c) (expireQueue c) h m.
Definition set_enabled (b : option bool) (c : APICache) : APICache :=
  mkApi b (capacity c) (blockCache c) (MainchainBlocks c) (expireQueue c) (hits c) (misses c).

(** A method of [apic.expireQueue]. *)
Definition onQueue {A} (m : PQ A) : API A := λ c,
  let '(r, q) := m (expireQueue c) in (r, set_queue q c).

Definition NewAPICache (cap : Z) : APICache :=
  mkApi None cap ∅ ∅ (NewBlockPriorityQueue cap) 0 0.

Definition IsEnabled (c : APICache) : bool := default false (isEnabled c).
Definition Enable : API unit := modify (set_enabled (Some true)).
Definition Disable : API unit := modify (set_enabled (Some false)).
Definition Capacity (c : APICache) : Z := capacity c.
Definition UtilizationBlocks (c : APICache) : Z := Z.of_nat (size (blockCache c)).
Definition Hits (c : APICache) : Z := hits c.
Definition Misses (c : APICache) : Z := misses c.

(** Read an item of the cache and replace it. *)
Definition write_cached (h : Hash) (f : CachedBlock → CachedBlock) : API unit :=
  modify (λ c, set_cache (alter f h (blockCache c)) c).

Definition set_summary (s : BlockDataBasic) (b : CachedBlock) : CachedBlock :=
  mkCached (height b) (hash b) (Some s) (stakeInfo b) (accesses b) (accessTime b) (heapIdx b).
Definition set_stakeInfo (s : StakeInfoExtended) (b : CachedBlock) : CachedBlock :=
  mkCached (height b) (hash b) (summary b) (Some s) (accesses b) (accessTime b) (heapIdx b).

(** The common end of StoreBlockSummary and StoreStakeInfo: a new cached
    block goes into the queue, and into the cache if the queue takes it. *)
Definition storeNew (now : nat → Z) (bs : option BlockDataBasic) (si : option StakeInfoExtended)
    (hs : Hash) (h : Z) : API unit :=
  match newCachedBlock bs si with
  | None => panic
  | Some b =>
    let cachedBlock := Access (now 0%nat) b in
    added ← onQueue (Insert (λ n, now (1 + n)%nat) bs si);
    let '(wasAdded, removedBlock, removedHeight) := added in
    _ ← (match removedBlock with
         | Some rb => modify (λ c, set_main (delete removedHeight (MainchainBlocks c))
                                     (set_cache (delete rb (blockCache c)) c))
         | None => mret tt
         end);
    if wasAdded : bool then
      modify (λ c, set_main (<[h := hs]> (MainchainBlocks c)) (set_cache (<[hs := cachedBlock]> (blockCache c)) c))
    else mret tt
  end.

Definition StoreBlockSummary (now : nat → Z) (blockSummary : BlockDataBasic) : API unit :=
  on ← gets IsEnabled;
  if negb on then mret tt else
  match NewHashFromStr (bd_Hash blockSummary) with
  | None => panic
  | Some hs =>
    b ← gets (λ c, blockCache c !! hs);
    match b with
    | Some b =>
      match summary b with
      | Some _ => mret tt
      | None => write_cached hs (set_summary blockSummary)
      end
    | None => storeNew now (Some blockSummary) None hs (bd_Height blockSummary)
    end
  end.

Definition StoreStakeInfo (now : nat → Z) (si : StakeInfoExtended) : API unit :=
  on ← gets IsEnabled;
  if negb on then mret tt else
  match NewHashFromStr (si_Hash si) with
  | None => panic
  | Some hs =>
    b ← gets (λ c, blockCache c !! hs);
    match b with
    | Some b =>
      match stakeInfo b with
      | None => write_cached hs (set_stakeInfo si)
      | Some _ => mret tt
      end
    | None => storeNew now None (Some si) hs (si_FeeinfoHeight si)
    end
  end.

(** The map deletion is under [err != nil], where the hash pointer is nil. *)
Definition removeCachedBlock (cachedBlock : option CachedBlock) : API unit :=
  match cachedBlock with
  | None => mret tt
  | Some b =>
    _ ← onQueue (RemoveBlock b);
    match NewHashFromStr (hash b) with
    | None => panic
    | Some _ => modify (λ c, set_main (delete (height b) (MainchainBlocks c)) c)
    end
  end.

Definition getCachedBlockByHash (now : nat → Z) (h : Hash) : API (option CachedBlock) :=
  b ← gets (λ c, blockCache c !! h);
  match b with
  | Some b =>
    _ ← write_cached h (Access (now 0%nat));
    _ ← onQueue (setNeedsReheap true);
    _ ← onQueue (setAccessTime (now 1%nat));
    _ ← modify (λ c, set_counts (u64 (hits c + 1)) (misses c) c);
    mret (Some (Access (now 0%nat) b))
  | None => _ ← modify (λ c, set_counts (hits c) (u64 (misses c + 1)) c); mret None
  end.

Definition RemoveCachedBlock (b : option CachedBlock) : API unit := removeCachedBlock b.

Definition RemoveCachedBlockByHeight (now : nat → Z) (h : Z) : API unit :=
  hs ← gets (λ c, MainchainBlocks c !! h);
  match hs with
  | None => mret tt
  | Some hs => cb ← getCachedBlockByHash now hs; removeCachedBlock cb
  end.

Definition blockHash (h : Z) (c : APICache) : option Hash := MainchainBlocks c !! h.
Definition GetBlockHash (h : Z) (c : APICache) : string :=
  if negb (IsEnabled c) then "" else
  match blockHash h c with None => "" | Some hs => HashString hs end.

Definition GetCachedBlockByHeight (now : nat → Z) (h : Z) : API (option CachedBlock) :=
  hs ← gets (λ c, MainchainBlocks c !! h);
  match hs with None => mret None | Some hs => getCachedBlockByHash now hs end.

Definition GetCachedBlockByHashStr (now : nat → Z) (s : string) : API (option CachedBlock) :=
  match NewHashFromStr s with None => mret None | Some hs => getCachedBlockByHash now hs end.

Definition GetCachedBlockByHash (now : nat → Z) (h : Hash) : API (option CachedBlock) :=
  match NewHashFromStr (HashString h) with None => mret None | Some _ => getCachedBlockByHash now h end.

(** [int32(Size)] wraps. *)
Definition GetBlockSize (now : nat → Z) (h : Z) : API Z :=
  on ← gets IsEnabled;
  if negb on then mret (-1) else
  cb ← GetCachedBlockByHeight now h;
  mret (match cb ≫= summary with Some s => i32 (bd_Size s) | None => -1 end).

Definition GetBlockSummary (now : nat → Z) (h : Z) : API (option BlockDataBasic) :=
  on ← gets IsEnabled;
  if negb on then mret None else cb ← GetCachedBlockByHeight now h; mret (cb ≫= summary).

Definition GetStakeInfo (now : nat → Z) (h : Z) : API (option StakeInfoExtended) :=
  on ← gets IsEnabled;
  if negb on then mret None else cb ← GetCachedBlockByHeight now h; mret (cb ≫= stakeInfo).

Definition GetStakeInfoByHash (now : nat → Z) (s : string) : API (option StakeInfoExtended) :=
  on ← gets IsEnabled;
  if negb on then mret None else cb ← GetCachedBlockByHashStr now s; mret (cb ≫= stakeInfo).

Definition GetBlockSummaryByHash (now : nat → Z) (s : string) : API (option BlockDataBasic) :=
  on ← gets IsEnabled;
  if negb on then mret None else cb ← GetCachedBlockByHashStr now s; mret (cb ≫= summary).
End ApiCache.

(** ** The queue: what each operation does to the blocks *)
Section QueueSpec.
Context {BlockRest StakeRest : Type}.
Context (NewHashFromStr : string → option Hash).
Abbreviation Block := (@CachedBlock BlockRest StakeRest).
Abbreviation Queue := (@BlockPriorityQueue BlockRest StakeRest).
Implicit Types (q : Queue) (b : Block).

Lemma strip_setHeapIdx i b : strip (setHeapIdx i b) = strip b.
Proof. done. Qed.
Lemma heapIdx_setHeapIdx i b : heapIdx (setHeapIdx i b) = Z.of_nat i.
Proof. done. Qed.

Definition q_moved : list Block → list Block → Prop := moved strip heapIdx.
Definition q_idx_ok : list Block → Prop := idx_ok heapIdx.

(** [q'] has the parameters of [q]; only blocks, flags and the range differ. *)
Definition same_params q q' : Prop := pq_capacity q' = pq_capacity q ∧ lessFn q' = lessFn q.

Lemma minmax_bh h q : bh (minmax h q) = bh q ∧ same_params q (minmax h q).
Proof. unfold minmax. repeat case_match; done. Qed.

Lemma minmax_fold_bh l q :
  bh (foldl (λ q b, minmax (height b) q) q l) = bh q ∧
  same_params q (foldl (λ q b, minmax (height b) q) q l).
Proof.
  revert q. induction l as [|b l IH]; intros q; cbn; [done|].
  destruct (IH (minmax (height b) q)) as (-> & H1 & H2).
  destruct (minmax_bh (height b) q) as (-> & H3 & H4). split; [done|]. split; congruence.
Qed.

Lemma RescanMinMaxForUpdate_bh a r q :
  ∃ q', RescanMinMaxForUpdate a r q = (Ok tt, q') ∧ bh q' = bh q ∧ same_params q q'.
Proof.
  unfold RescanMinMaxForUpdate, gets, mbind, goM_bind. destruct (_ || _).
  - unfold RescanMinMax, modify, updateMinMax. eexists. split; [done|].
    destruct (minmax_fold_bh (bh q) q) as (E & H1 & H2).
    destruct (minmax_bh a (foldl (λ q b, minmax (height b) q) q (bh q))) as (-> & H3 & H4).
    split; [done|]. split; congruence.
  - eexists. split; [done|]. apply minmax_bh.
Qed.

Lemma RescanMinMaxForRemove_bh h q :
  ∃ q', RescanMinMaxForRemove h q = (Ok tt, q') ∧ bh q' = bh q ∧ same_params q q'.
Proof.
  unfold RescanMinMaxForRemove, gets, mbind, goM_bind. destruct (_ || _).
  - eexists. split; [done|]. apply minmax_fold_bh.
  - by eexists.
Qed.

(** The block that a summary or a stake info makes. *)
Lemma newCachedBlock_check bs si b :
  newCachedBlock bs si = Some b →
  checkBlockHeightHash bs si = Some (height b, hash b, false) ∧
  b = mkCached (height b) (hash b) bs si 0 0 (-1) ∧
  match bs, si with None, None => False | _, _ => True end.
Proof.
  unfold newCachedBlock. destruct (checkBlockHeightHash bs si) as [[[h hs] []]|] eqn:E; try done.
  intros [= <-]. split; [done|]. split; [done|]. by destruct bs, si.
Qed.

Lemma Push_spec t bs si b q :
  newCachedBlock bs si = Some b →
  ∃ q', Push t bs si q = (Ok tt, q') ∧ same_params q q' ∧
    bh q' = bh q ++ [setHeapIdx (length (bh q)) (Access t b)].
Proof.
  intros Hb. unfold Push. rewrite Hb. eexists. split; [reflexivity|].
  set (b1 := setHeapIdx _ _). destruct (minmax_bh (height b1) q) as (E & H1 & H2).
  split; [by split|]. cbn [bh set_bh]. by rewrite E.
Qed.

Lemma heapOp_spec f q l :
  f (lessFn q) setHeapIdx (bh q) = Ok l → heapOp f q = (Ok tt, set_bh l q).
Proof. unfold heapOp. by intros ->. Qed.

Lemma heapPush_spec t bs si b q :
  newCachedBlock bs si = Some b →
  ∃ q', heapPush t bs si q = (Ok tt, q') ∧ same_params q q' ∧
    heap_PushUp (lessFn q) setHeapIdx (bh q ++ [setHeapIdx (length (bh q)) (Access t b)]) = Ok (bh q') ∧
    q_moved (bh q ++ [setHeapIdx (length (bh q)) (Access t b)]) (bh q').
Proof.
  intros Hb. destruct (Push_spec t bs si b q Hb) as (q1 & E1 & [Hc Hl] & Hbh).
  destruct (heap_PushUp_shape (lessFn q) setHeapIdx strip strip_setHeapIdx heapIdx heapIdx_setHeapIdx
    (bh q1)) as (l & El & Hm); [rewrite Hbh; by destruct (bh q)|].
  exists (set_bh l q1). unfold heapPush. rewrite (bind_Ok _ _ _ _ _ E1).
  rewrite (heapOp_spec _ _ l) by (by rewrite Hl). cbn [bh set_bh]. rewrite <- Hbh.
  split_and!; try done.
Qed.

(** The top of the queue rewritten for a new block. *)
Definition replaced (t : Z) bs si b : Block :=
  Access t (mkCached (height b) (hash b) bs si 0 0 0).

Lemma UpdateBlock_spec now top rest bs si b q :
  bh q = top :: rest → q_idx_ok (bh q) → newCachedBlock bs si = Some b →
  ∃ q', UpdateBlock now 0 bs si q = (Ok tt, q') ∧ same_params q q' ∧
    heap_Fix (lessFn q) setHeapIdx 0 (replaced (now O) bs si b :: rest) = Ok (bh q') ∧
    q_moved (replaced (now O) bs si b :: rest) (bh q').
Proof.
  intros Ebh Hidx Hb. destruct (newCachedBlock_check _ _ _ Hb) as (Ec & _ & _).
  assert (heapIdx top = 0) as Htop by (apply (Hidx 0%nat); by rewrite Ebh).
  set (b' := replaced (now O) bs si b).
  destruct (heap_Fix_shape (lessFn q) setHeapIdx strip strip_setHeapIdx heapIdx heapIdx_setHeapIdx
    0 (b' :: rest)) as (l & El & Hm); [cbn; lia|].
  destruct (RescanMinMaxForUpdate_bh (height b) (height top) (set_bh l (set_bh (b' :: rest) q)))
    as (q1 & E1 & Hq1 & Hc & Hl).
  exists (setAccessTime (now O) q1).2. unfold UpdateBlock.
  rewrite (bind_Ok (gets _) _ q (Some top) q) by (unfold gets; by rewrite Ebh). rewrite Ec.
  rewrite (bind_Ok (modify _) _ q tt (set_bh (b' :: rest) q)) by (unfold modify; rewrite Ebh, Htop; done).
  rewrite (bind_Ok (heapOp _) _ _ tt (set_bh l (set_bh (b' :: rest) q)))
    by (apply heapOp_spec; cbn [Access heapIdx]; rewrite Htop; exact El).
  rewrite (bind_Ok _ _ _ _ _ E1). split; [done|]. split; [done|]. cbn. rewrite Hq1. done.
Qed.

(** The three outcomes of [Insert]. *)
Inductive inserted (now : nat → Z) bs si b q : res unit (bool * option Hash * Z) * Queue → Prop :=
| ins_refused :
    pq_capacity q = 0 ∨ (∃ top rest, bh q = top :: rest ∧ pq_capacity q <= zlen (bh q) ∧
                         lessFn q top (replaced (now 0%nat) bs si b) = false) →
    inserted now bs si b q (Ok (false, None, -1), q)
| ins_pushed q' :
    zlen (bh q) < pq_capacity q → same_params q q' →
    heap_PushUp (lessFn q) setHeapIdx (bh q ++ [setHeapIdx (length (bh q)) (Access (now 0%nat) b)]) = Ok (bh q') →
    q_moved (bh q ++ [setHeapIdx (length (bh q)) (Access (now 0%nat) b)]) (bh q') →
    inserted now bs si b q (Ok (true, None, -1), q')
| ins_replaced top rest q' :
    bh q = top :: rest → pq_capacity q <= zlen (bh q) → pq_capacity q ≠ 0 →
    lessFn q top (replaced (now 0%nat) bs si b) = true → same_params q q' →
    heap_Fix (lessFn q) setHeapIdx 0 (replaced (now 1%nat) bs si b :: rest) = Ok (bh q') →
    q_moved (replaced (now 1%nat) bs si b :: rest) (bh q') →
    inserted now bs si b q (Ok (true, NewHashFromStr (hash top), height top), q').

Lemma Insert_spec now bs si b q :
  newCachedBlock bs si = Some b → q_idx_ok (bh q) → 0 <= pq_capacity q →
  inserted now bs si b q (Insert NewHashFromStr now bs si q).
Proof.
  intros Hb Hidx Hcap. destruct (newCachedBlock_check _ _ _ Hb) as (Ec & Eb & Hbs).
  assert (setHeapIdx 0 (Access (now 0%nat) b) = replaced (now 0%nat) bs si b) as Ecand
    by (rewrite Eb at 1; done).
  unfold Insert. rewrite (bind_Ok (gets id) _ q q q) by done.
  destruct (Z.eqb_spec (pq_capacity q) 0) as [E0|E0]; [apply ins_refused; by left|].
  assert (∀ (m1 m2 : goM Queue unit (bool * option Hash * Z)), match bs, si with None, None => m1 | _, _ => m2 end = m2) as ->
    by (by destruct bs, si).
  destruct (Z.leb_spec (pq_capacity q) (zlen (bh q))) as [Hfull|Hroom].
  - rewrite Hb. destruct (bh q) as [|top rest] eqn:Ebh; [cbn in Hfull; unfold zlen in Hfull; cbn in Hfull; lia|].
    rewrite Ecand. destruct (lessFn q top _) eqn:El.
    + destruct (UpdateBlock_spec (λ n, now (1 + n)%nat) top rest bs si b q) as (q' & E & Hp & Hf & Hm);
        [done|by rewrite Ebh|done|].
      rewrite (bind_Ok _ _ _ _ _ E). destruct (NewHashFromStr (hash top)) eqn:En.
      * rewrite (bind_Ok (setAccessTime _) _ q' tt (setAccessTime (now 2%nat) q').2) by done.
        rewrite <- En. eapply ins_replaced; [done|by rewrite Ebh|done|done|exact Hp|exact Hf|exact Hm].
      * rewrite (bind_Ok (mret tt) _ q' tt q') by done. rewrite <- En.
        by eapply ins_replaced; rewrite ?Ebh.
    + apply ins_refused. right. exists top, rest. by rewrite Ebh.
  - rewrite Ec. destruct (heapPush_spec (now 0%nat) bs si b q Hb) as (q1 & E & Hp & Hf & Hm).
    rewrite (bind_Ok _ _ _ _ _ E).
    destruct (minmax_bh (height b) q1) as (E1 & Hp1 & Hp2). destruct Hp as [Hp3 Hp4].
    set (q2 := (setAccessTime (now 1%nat) (minmax (height b) q1)).2).
    change (inserted now bs si b q (Ok (true, None, -1), q2)).
    assert (bh q2 = bh q1) as E2 by done.
    apply ins_pushed; [done|split; cbn; congruence|by rewrite E2|by rewrite E2].
Qed.
End QueueSpec.

(** ** The cache and its queue agree *)
Section CacheInvariant.
Context {BlockRest StakeRest : Type}.
Context (NewHashFromStr : string → option Hash) (HashString : Hash → string).
Abbreviation Block := (@CachedBlock BlockRest StakeRest).
Abbreviation Queue := (@BlockPriorityQueue BlockRest StakeRest).
Abbreviation Cache := (@APICache BlockRest StakeRest).

(** What identifies a block: its parsed hash and its height. *)
Definition sig (b : Block) : option Hash * Z := (NewHashFromStr (hash b), height b).

Record queue_ok (q : Queue) : Prop := {
  qo_cap : 0 <= pq_capacity q;
  qo_len : zlen (bh q) <= pq_capacity q;
  qo_idx : q_idx_ok (bh q)
}.

(** The blocks of the cache map are those of the queue. *)
Record cache_ok (c : Cache) : Prop := {
  co_queue : queue_ok (expireQueue c);
  co_keys : NoDup (fst <$> (sig <$> bh (expireQueue c)));
  co_dom : ∀ k, (∃ hs, k = Some hs ∧ is_Some (blockCache c !! hs)) ↔
                k ∈ (fst <$> (sig <$> bh (expireQueue c)));
  co_items : ∀ hs b, blockCache c !! hs = Some b → heapIdx b = -1 ∧ NewHashFromStr (hash b) = Some hs;
  co_main : ∀ h hs, MainchainBlocks c !! h = Some hs → (Some hs, h) ∈ (sig <$> bh (expireQueue c))
}.

Lemma moved_sig l l' : q_moved l l' → sig <$> l' ≡ₚ sig <$> l.
Proof.
  intros [Hp _]. assert (∀ k : list Block, sig <$> k = sig <$> (strip <$> k)) as E.
  { intros k. rewrite <- list_fmap_compose. by apply list_fmap_ext. }
  rewrite (E l'), (E l). by rewrite Hp.
Qed.

Lemma cache_ok_new cap : 0 <= cap → cache_ok (NewAPICache cap).
Proof.
  intros Hc. split; cbn; try done.
  - constructor.
  - intros k. split; [|by intros ?%not_elem_of_nil]. intros (hs & _ & Hs). rewrite lookup_empty in Hs.
    by destruct Hs.
Qed.

(** Operations that leave the keys, the blocks of the queue and the heights. *)
Lemma cache_ok_eq c c' :
  cache_ok c → bh (expireQueue c') = bh (expireQueue c) →
  pq_capacity (expireQueue c') = pq_capacity (expireQueue c) →
  MainchainBlocks c' = MainchainBlocks c →
  (∀ hs, is_Some (blockCache c' !! hs) ↔ is_Some (blockCache c !! hs)) →
  (∀ hs b, blockCache c' !! hs = Some b → ∃ b0, blockCache c !! hs = Some b0 ∧
     heapIdx b = heapIdx b0 ∧ hash b = hash b0) → cache_ok c'.
Proof.
  intros [[Hcap Hlen Hidx] Hk Hd Hi Hm] Eq Ecap Em Hdom Hit. split; rewrite ?Eq, ?Em; try done.
  - split; rewrite ?Eq, ?Ecap; done.
  - intros k. rewrite <- Hd. by setoid_rewrite Hdom.
  - intros hs b Hb. destruct (Hit hs b Hb) as (b0 & Hb0 & -> & ->). by apply Hi.
Qed.

Lemma cache_ok_write c hs f :
  cache_ok c → (∀ b, heapIdx (f b) = heapIdx b ∧ hash (f b) = hash b) →
  cache_ok (set_cache (alter f hs (blockCache c)) c).
Proof.
  intros Hok Hf. apply (cache_ok_eq c); [done..| |]; cbn.
  - intros k. by rewrite lookup_alter_is_Some.
  - intros k b. destruct (decide (hs = k)) as [->|].
    + rewrite lookup_alter_eq. intros (b0 & -> & ->)%fmap_Some. exists b0. by destruct (Hf b0).
    + rewrite lookup_alter_ne by done. eauto.
Qed.

(** The cache without its queue, over a list of signatures. *)
Record maps_ok (L : list (option Hash * Z)) (m : gmap Hash Block) (mc : gmap Z Hash) : Prop := {
  mo_keys : NoDup (fst <$> L);
  mo_dom : ∀ k, (∃ hs, k = Some hs ∧ is_Some (m !! hs)) ↔ k ∈ (fst <$> L);
  mo_items : ∀ hs b, m !! hs = Some b → heapIdx b = -1 ∧ NewHashFromStr (hash b) = Some hs;
  mo_main : ∀ h hs, mc !! h = Some hs → (Some hs, h) ∈ L
}.

Lemma cache_ok_maps c :
  cache_ok c ↔ queue_ok (expireQueue c) ∧ maps_ok (sig <$> bh (expireQueue c)) (blockCache c) (MainchainBlocks c).
Proof. split; [intros []; split; [|split]; done|by intros [? []]]. Qed.

Lemma maps_ok_perm L L' m mc : L ≡ₚ L' → maps_ok L m mc → maps_ok L' m mc.
Proof.
  intros Hp [Hk Hd Hi Hm]. split.
  - by rewrite <- Hp.
  - intros k. by rewrite <- Hp.
  - done.
  - intros h hs Hh. rewrite <- Hp. by apply Hm.
Qed.

Lemma maps_ok_put L m mc hs h b :
  maps_ok L m mc → m !! hs = None → heapIdx b = -1 → NewHashFromStr (hash b) = Some hs →
  maps_ok ((Some hs, h) :: L) (<[hs := b]> m) (<[h := hs]> mc).
Proof.
  intros [Hk Hd Hi Hm] Hn Hb1 Hb2. split; cbn [fmap list_fmap fst].
  - apply NoDup_cons. split; [|done]. rewrite <- Hd. intros (x & [= <-] & Hx). rewrite Hn in Hx. by destruct Hx.
  - intros k. rewrite elem_of_cons, <- Hd. split.
    + intros (x & -> & Hx). destruct (decide (hs = x)) as [->|Hne]; [by left|right].
      rewrite lookup_insert_ne in Hx by done. eauto.
    + intros [->|(x & -> & Hx)]; [exists hs; by rewrite lookup_insert_eq|]. exists x. split; [done|].
      destruct (decide (hs = x)) as [->|Hne]; [by rewrite lookup_insert_eq|by rewrite lookup_insert_ne].
  - intros k b' Hb'. destruct (decide (hs = k)) as [->|Hne].
    + rewrite lookup_insert_eq in Hb'. by injection Hb' as <-.
    + rewrite lookup_insert_ne in Hb' by done. by apply Hi.
  - intros h' hs' Hh'. destruct (decide (h = h')) as [->|Hne].
    + rewrite lookup_insert_eq in Hh'. injection Hh' as <-. left.
    + rewrite lookup_insert_ne in Hh' by done. right. by apply Hm.
Qed.

Lemma maps_ok_delete L m mc k h :
  maps_ok ((Some k, h) :: L) m mc → maps_ok L (delete k m) (delete h mc).
Proof.
  intros [Hk Hd Hi Hm]. cbn [fmap list_fmap fst] in *. apply NoDup_cons in Hk as [Hni Hk]. split.
  - done.
  - intros x. split.
    + intros (y & -> & Hy). destruct (decide (k = y)) as [->|Hne].
      { rewrite lookup_delete_eq in Hy. by destruct Hy. }
      rewrite lookup_delete_ne in Hy by done.
      assert (Some y ∈ Some k :: L.*1) as Hin by (apply Hd; eauto).
      apply elem_of_cons in Hin as [?|?]; [congruence|done].
    + intros Hin. destruct (proj2 (Hd x)) as (y & -> & Hy); [by right|]. exists y. split; [done|].
      rewrite lookup_delete_ne; [done|]. intros ->. by apply Hni.
  - intros y b Hy. destruct (decide (k = y)) as [->|Hne]; [by rewrite lookup_delete_eq in Hy|].
    rewrite lookup_delete_ne in Hy by done. by apply Hi.
  - intros h' hs' Hh'. destruct (decide (h = h')) as [->|Hne]; [by rewrite lookup_delete_eq in Hh'|].
    rewrite lookup_delete_ne in Hh' by done. apply Hm in Hh'.
    apply elem_of_cons in Hh' as [E|?]; [congruence|done].
Qed.

(** The outcomes of adding a block that is not in the cache. *)
Inductive stored (now : nat → Z) bs si b hs h (c : Cache) : res unit unit * Cache → Prop :=
| st_refused :
    pq_capacity (expireQueue c) = 0 ∨ (∃ top rest, bh (expireQueue c) = top :: rest ∧
      pq_capacity (expireQueue c) <= zlen (bh (expireQueue c)) ∧
      lessFn (expireQueue c) top (replaced (now 1%nat) bs si b) = false) →
    stored now bs si b hs h c (Ok tt, c)
| st_pushed q' :
    zlen (bh (expireQueue c)) < pq_capacity (expireQueue c) → same_params (expireQueue c) q' →
    heap_PushUp (lessFn (expireQueue c)) setHeapIdx (bh (expireQueue c) ++
      [setHeapIdx (length (bh (expireQueue c))) (Access (now 1%nat) b)]) = Ok (bh q') →
    q_moved (bh (expireQueue c) ++
      [setHeapIdx (length (bh (expireQueue c))) (Access (now 1%nat) b)]) (bh q') →
    stored now bs si b hs h c (Ok tt, mkApi (isEnabled c) (capacity c)
      (<[hs := Access (now 0%nat) b]> (blockCache c)) (<[h := hs]> (MainchainBlocks c)) q' (hits c) (misses c))
| st_replaced top rest k q' :
    bh (expireQueue c) = top :: rest → pq_capacity (expireQueue c) <= zlen (bh (expireQueue c)) →
    pq_capacity (expireQueue c) ≠ 0 →
    lessFn (expireQueue c) top (replaced (now 1%nat) bs si b) = true →
    NewHashFromStr (hash top) = Some k → same_params (expireQueue c) q' →
    heap_Fix (lessFn (expireQueue c)) setHeapIdx 0 (replaced (now 2%nat) bs si b :: rest) = Ok (bh q') →
    q_moved (replaced (now 2%nat) bs si b :: rest) (bh q') →
    stored now bs si b hs h c (Ok tt, mkApi (isEnabled c) (capacity c)
      (<[hs := Access (now 0%nat) b]> (delete k (blockCache c)))
      (<[h := hs]> (delete (height top) (MainchainBlocks c))) q' (hits c) (misses c)).

Lemma storeNew_spec now bs si b hs h c :
  cache_ok c → newCachedBlock bs si = Some b →
  stored now bs si b hs h c (storeNew NewHashFromStr now bs si hs h c).
Proof.
  intros Hok Hb. pose proof (co_queue c Hok) as [Hcap Hlen Hidx]. unfold storeNew. rewrite Hb.
  pose proof (Insert_spec NewHashFromStr (λ n, now (1 + n)%nat) bs si b (expireQueue c) Hb Hidx Hcap) as Hi.
  remember (Insert _ _ _ _ _) as r eqn:Er. symmetry in Er.
  destruct Hi as [Href|q' Hroom Hp Hf Hm|top rest q' Ebh Hfull Hne Hl Hp Hf Hm].
  - rewrite (bind_Ok (onQueue _) _ c _ (set_queue (expireQueue c) c)) by (unfold onQueue; by rewrite Er).
    replace (set_queue (expireQueue c) c) with c by (by destruct c).
    apply st_refused. done.
  - rewrite (bind_Ok (onQueue _) _ c _ (set_queue q' c)) by (unfold onQueue; by rewrite Er).
    exact (st_pushed now bs si b hs h c q' Hroom Hp Hf Hm).
  - rewrite (bind_Ok (onQueue _) _ c _ (set_queue q' c)) by (unfold onQueue; by rewrite Er).
    assert (fst (sig top) ∈ fst <$> (sig <$> bh (expireQueue c))) as Hin.
    { rewrite Ebh. left. }
    apply (co_dom c Hok) in Hin as (k & Hk & _). cbn in Hk. rewrite Hk.
    pose proof (st_replaced now bs si b hs h c top rest k q' Ebh Hfull Hne Hl Hk Hp Hf Hm) as Hst.
    exact Hst.
Qed.

Lemma sig_new t i b : sig (setHeapIdx i (Access t b)) = sig b.
Proof. done. Qed.

Lemma storeNew_ok now bs si b hs c :
  cache_ok c → newCachedBlock bs si = Some b → NewHashFromStr (hash b) = Some hs →
  blockCache c !! hs = None → cache_ok (storeNew NewHashFromStr now bs si hs (height b) c).2.
Proof.
  intros Hok Hb Hhs Hn. destruct (newCachedBlock_check _ _ _ Hb) as (_ & Eb & _).
  pose proof (storeNew_spec now bs si b hs (height b) c Hok Hb) as Hst.
  apply cache_ok_maps in Hok as [[Hcap Hlen Hidx] Hmaps].
  destruct Hst as [_|q' Hroom Hp Hf Hm|top rest k q' Ebh Hfull Hne Hl Hk Hp Hf Hm]; cbn [snd].
  - apply cache_ok_maps. by split.
  - apply cache_ok_maps. cbn [expireQueue blockCache MainchainBlocks]. split.
    + split; [by rewrite (proj1 Hp)| |].
      * unfold zlen. rewrite (moved_length _ _ _ _ Hm), length_app, (proj1 Hp). cbn. unfold zlen in *. lia.
      * apply Hm. intros i x. destruct (decide (i < length (bh (expireQueue c)))%nat).
        { rewrite lookup_app_l by done. apply Hidx. }
        rewrite lookup_app_r by lia. intros Hx. pose proof (lookup_lt_Some _ _ _ Hx). cbn in *.
        replace (i - length (bh (expireQueue c)))%nat with O in Hx by lia. injection Hx as <-. cbn. lia.
    + eapply maps_ok_perm; [|apply (maps_ok_put _ _ _ hs (height b) (Access (now 0%nat) b) Hmaps Hn)].
      * rewrite (moved_sig _ _ Hm), fmap_app. cbn [fmap list_fmap]. rewrite sig_new.
        unfold sig at 3. rewrite Hhs. apply Permutation_cons_append.
      * by rewrite Eb.
      * done.
  - apply cache_ok_maps. cbn [expireQueue blockCache MainchainBlocks]. rewrite Ebh in *. split.
    + split; [by rewrite (proj1 Hp)| |].
      * unfold zlen. rewrite (moved_length _ _ _ _ Hm), (proj1 Hp). exact Hlen.
      * apply Hm. intros [|i] x Hx; [by injection Hx as <-|]. by apply (Hidx (S i)).
    + cbn [fmap list_fmap] in Hmaps. unfold sig at 1 in Hmaps. rewrite Hk in Hmaps.
      pose proof (maps_ok_delete _ _ _ _ _ Hmaps) as Hmaps'.
      eapply maps_ok_perm; [|apply (maps_ok_put _ _ _ hs (height b) (Access (now 0%nat) b) Hmaps')].
      * rewrite (moved_sig _ _ Hm). cbn [fmap list_fmap].
        replace (sig (replaced (now 2%nat) bs si b)) with (Some hs, height b); [done|].
        unfold sig. cbn. by rewrite Hhs.
      * destruct (decide (k = hs)) as [->|]; [apply lookup_delete_eq|by rewrite lookup_delete_ne].
      * by rewrite Eb.
      * done.
Qed.

(** ** Calls as steps *)
Inductive op :=
| OpStoreBlockSummary (now : nat → Z) (s : @BlockDataBasic BlockRest)
| OpStoreStakeInfo (now : nat → Z) (s : @StakeInfoExtended StakeRest)
| OpGetByHash (now : nat → Z) (h : Hash)
| OpGetByHeight (now : nat → Z) (h : Z)
| OpGetByHashStr (now : nat → Z) (s : string)
| OpRemove (b : Block)
| OpRemoveByHeight (now : nat → Z) (h : Z)
| OpEnable
| OpDisable
| OpSetLessFn (f : Block → Block → bool)
| OpReheap.

Definition run {A} (m : goM Cache unit A) : goM Cache unit unit := _ ← m; mret tt.

Definition exec (o : op) : goM Cache unit unit :=
  match o with
  | OpStoreBlockSummary now s => StoreBlockSummary NewHashFromStr now s
  | OpStoreStakeInfo now s => StoreStakeInfo NewHashFromStr now s
  | OpGetByHash now h => run (GetCachedBlockByHash NewHashFromStr HashString now h)
  | OpGetByHeight now h => run (GetCachedBlockByHeight now h)
  | OpGetByHashStr now s => run (GetCachedBlockByHashStr NewHashFromStr now s)
  | OpRemove b => RemoveCachedBlock NewHashFromStr (Some b)
  | OpRemoveByHeight now h => RemoveCachedBlockByHeight NewHashFromStr now h
  | OpEnable => Enable
  | OpDisable => Disable
  | OpSetLessFn f => onQueue (SetLessFn f)
  | OpReheap => onQueue Reheap
  end.

(** The strings of the call denote hashes, and a block to remove is one that
    a getter of the cache returned: its heap index is -1. *)
Definition op_valid (o : op) : Prop :=
  match o with
  | OpStoreBlockSummary _ s => is_Some (NewHashFromStr (bd_Hash s))
  | OpStoreStakeInfo _ s => is_Some (NewHashFromStr (si_Hash s))
  | OpRemove b => heapIdx b = -1 ∧ is_Some (NewHashFromStr (hash b))
  | _ => True
  end.

Lemma get_spec now h (c : Cache) :
  ∃ q', getCachedBlockByHash now h c =
    match blockCache c !! h with
    | Some b => (Ok (Some (Access (now 0%nat) b)),
        mkApi (isEnabled c) (capacity c) (alter (Access (now 0%nat)) h (blockCache c))
          (MainchainBlocks c) q' (u64 (hits c + 1)) (misses c))
    | None => (Ok None, set_counts (hits c) (u64 (misses c + 1)) c)
    end ∧ bh q' = bh (expireQueue c) ∧ same_params (expireQueue c) q'.
Proof.
  unfold getCachedBlockByHash. rewrite (bind_Ok (gets _) _ c (blockCache c !! h) c) by done.
  destruct (blockCache c !! h); [|by exists (expireQueue c)]. eexists. split; [reflexivity|done].
Qed.

(** A cache that differs by the accesses to an item, the counters and the
    flags of the queue. *)
Definition read_eq (c c' : Cache) : Prop :=
  bh (expireQueue c') = bh (expireQueue c) ∧ same_params (expireQueue c) (expireQueue c') ∧
  MainchainBlocks c' = MainchainBlocks c ∧ isEnabled c' = isEnabled c ∧ capacity c' = capacity c ∧
  ∀ hs, (λ b, (heapIdx b, hash b)) <$> blockCache c' !! hs = (λ b, (heapIdx b, hash b)) <$> blockCache c !! hs.

Lemma get_read_eq now h (c : Cache) : read_eq c (getCachedBlockByHash now h c).2.
Proof.
  destruct (get_spec now h c) as (q' & -> & Hbh & Hp). destruct (blockCache c !! h) as [b|] eqn:E; [|done].
  split_and!; try done. intros hs. cbn. destruct (decide (h = hs)) as [->|].
  - by rewrite lookup_alter_eq, E.
  - by rewrite lookup_alter_ne.
Qed.

Lemma read_eq_trans c1 c2 c3 : read_eq c1 c2 → read_eq c2 c3 → read_eq c1 c3.
Proof.
  intros (H1 & [H2 H3] & H4 & H5 & H6 & H7) (G1 & [G2 G3] & G4 & G5 & G6 & G7).
  split_and!; try congruence. split; congruence.
Qed.

Lemma read_eq_ok c c' : cache_ok c → read_eq c c' → cache_ok c'.
Proof.
  intros Hok (Hbh & [Hc Hl] & Hm & _ & _ & Hb). apply (cache_ok_eq c); try done.
  - intros hs. specialize (Hb hs). destruct (blockCache c' !! hs), (blockCache c !! hs); try done; split; eauto.
  - intros hs b Hs. specialize (Hb hs). rewrite Hs in Hb. destruct (blockCache c !! hs) as [b0|]; [|done].
    cbn in Hb. injection Hb as -> ->. eauto.
Qed.

(** A block with heap index -1 is never removed from the queue, and the map
    entry stays. *)
Lemma removeCachedBlock_spec (b : Block) k c :
  heapIdx b = -1 → NewHashFromStr (hash b) = Some k →
  removeCachedBlock NewHashFromStr (Some b) c =
  (Ok tt, set_main (delete (height b) (MainchainBlocks c)) c).
Proof.
  intros Hi Hk. unfold removeCachedBlock.
  rewrite (bind_Ok (onQueue _) _ c tt c); [by rewrite Hk|].
  unfold onQueue, RemoveBlock. rewrite (bind_Ok (gets id) _ _ (expireQueue c) (expireQueue c)) by done.
  rewrite Hi. cbn. by destruct c.
Qed.

Lemma cache_ok_set_main (c : Cache) h : cache_ok c → cache_ok (set_main (delete h (MainchainBlocks c)) c).
Proof.
  intros [Hq Hk Hd Hi Hm]. split; try done. intros h' hs Hh. cbn in Hh.
  apply lookup_delete_Some in Hh as [_ Hh]. by apply Hm.
Qed.

Lemma Reheap_spec (q : Queue) :
  ∃ q', Reheap q = (Ok tt, q') ∧ same_params q q' ∧ heap_Init (lessFn q) setHeapIdx (bh q) = Ok (bh q') ∧
    q_moved (bh q) (bh q').
Proof.
  destruct (init_loop_shape (lessFn q) setHeapIdx strip strip_setHeapIdx heapIdx heapIdx_setHeapIdx
    (length (bh q) / 2) (length (bh q)) (bh q)) as (l & El & Hm); [done|].
  unfold Reheap. rewrite (bind_Ok (setNeedsReheap false) _ q tt (setNeedsReheap false q).2) by done.
  rewrite (heapOp_spec _ _ l) by done. by eexists.
Qed.

(** What every call guarantees. *)
Definition step_ok {A} (c : Cache) (r : res unit A * Cache) : Prop :=
  (∃ x, r.1 = Ok x) ∧ cache_ok r.2 ∧ pq_capacity (expireQueue r.2) = pq_capacity (expireQueue c).

Lemma step_ok_store now bs si b hs c :
  cache_ok c → newCachedBlock bs si = Some b → NewHashFromStr (hash b) = Some hs →
  blockCache c !! hs = None → step_ok c (storeNew NewHashFromStr now bs si hs (height b) c).
Proof.
  intros Hok Hb Hhs Hn. pose proof (storeNew_ok now bs si b hs c Hok Hb Hhs Hn) as Hok'.
  split; [|split; [done|]]; destruct (storeNew_spec now bs si b hs (height b) c Hok Hb)
    as [_|q' _ [Hp _] _ _|top rest k q' _ _ _ _ _ [Hp _] _ _]; cbn; eauto.
Qed.

Lemma step_ok_gets {A B} (f : Cache → A) (k : A → goM Cache unit B) c :
  step_ok c (k (f c) c) → step_ok c ((gets f ≫= k) c).
Proof. done. Qed.
Lemma step_ok_ret {A} (x : A) c : cache_ok c → step_ok c ((mret x : goM Cache unit A) c).
Proof. intros Hok. split; [|done]. by exists x. Qed.
Lemma step_ok_write f hs c :
  cache_ok c → (∀ b, heapIdx (f b) = heapIdx b ∧ hash (f b) = hash b) → step_ok c (write_cached hs f c).
Proof. intros Hok Hf. split; [by eexists|]. split; [by apply cache_ok_write|done]. Qed.
Lemma step_ok_bind {A B} (m : goM Cache unit A) (k : A → goM Cache unit B) c :
  step_ok c (m c) → (∀ x c', m c = (Ok x, c') → cache_ok c' → step_ok c' (k x c')) → step_ok c ((m ≫= k) c).
Proof.
  intros ((x & Hx) & Hok & Hc) Hk. destruct (m c) as [r c'] eqn:E. cbn in *. subst r.
  rewrite (bind_Ok _ _ _ _ _ E). destruct (Hk x c' eq_refl Hok) as (? & ? & ?).
  split; [done|]. split; [done|congruence].
Qed.

Lemma step_ok_get now h c : cache_ok c → step_ok c (getCachedBlockByHash now h c).
Proof.
  intros Hok. pose proof (get_read_eq now h c) as Hr. split; [|split].
  - destruct (get_spec now h c) as (q' & -> & _). destruct (blockCache c !! h); eexists; done.
  - by eapply read_eq_ok.
  - apply Hr.
Qed.

Lemma step_ok_StoreBlockSummary now s c :
  cache_ok c → is_Some (NewHashFromStr (bd_Hash s)) → step_ok c (StoreBlockSummary NewHashFromStr now s c).
Proof.
  intros Hok [hs Hhs]. unfold StoreBlockSummary. apply step_ok_gets.
  destruct (IsEnabled c); [|by apply step_ok_ret]. cbn [negb]. rewrite Hhs. apply step_ok_gets.
  destruct (blockCache c !! hs) as [b|] eqn:Eb.
  - destruct (summary b); [by apply step_ok_ret|by apply step_ok_write].
  - by apply (step_ok_store now (Some s) None (mkCached (bd_Height s) (bd_Hash s) (Some s) None 0 0 (-1))).
Qed.

Lemma step_ok_StoreStakeInfo now s c :
  cache_ok c → is_Some (NewHashFromStr (si_Hash s)) → step_ok c (StoreStakeInfo NewHashFromStr now s c).
Proof.
  intros Hok [hs Hhs]. unfold StoreStakeInfo. apply step_ok_gets.
  destruct (IsEnabled c); [|by apply step_ok_ret]. cbn [negb]. rewrite Hhs. apply step_ok_gets.
  destruct (blockCache c !! hs) as [b|] eqn:Eb.
  - destruct (stakeInfo b); [by apply step_ok_ret|by apply step_ok_write].
  - by apply (step_ok_store now None (Some s) (mkCached (si_FeeinfoHeight s) (si_Hash s) None (Some s) 0 0 (-1))).
Qed.

Lemma step_ok_remove b c :
  cache_ok c → heapIdx b = -1 → is_Some (NewHashFromStr (hash b)) →
  step_ok c (removeCachedBlock NewHashFromStr (Some b) c).
Proof.
  intros Hok Hi [k Hk]. rewrite (removeCachedBlock_spec b k c Hi Hk). split; [by eexists|].
  split; [by apply cache_ok_set_main|done].
Qed.

(** Operations on the queue alone. *)
Lemma step_ok_queue c q' :
  cache_ok c → pq_capacity q' = pq_capacity (expireQueue c) → q_moved (bh (expireQueue c)) (bh q') →
  step_ok c (Ok tt : res unit unit, set_queue q' c).
Proof.
  intros Hok Hc Hm. split; [by eexists|]. split; [|done]. apply cache_ok_maps.
  apply cache_ok_maps in Hok as [[Hcap Hlen Hidx] Hmaps]. cbn. split.
  - split; [by rewrite Hc| |by apply Hm]. unfold zlen. rewrite (moved_length _ _ _ _ Hm), Hc. exact Hlen.
  - eapply maps_ok_perm; [|done]. symmetry. by apply moved_sig.
Qed.

Lemma exec_ok o c : cache_ok c → op_valid o → step_ok c (exec o c).
Proof.
  intros Hok Hv. destruct o as [now s|now s|now h|now h|now s|b|now h| | |f|]; cbn [exec op_valid] in *.
  - by apply step_ok_StoreBlockSummary.
  - by apply step_ok_StoreStakeInfo.
  - apply step_ok_bind; [|intros; by apply step_ok_ret]. unfold GetCachedBlockByHash.
    destruct (NewHashFromStr _); [by apply step_ok_get|by apply step_ok_ret].
  - apply step_ok_bind; [|intros; by apply step_ok_ret]. apply step_ok_gets.
    destruct (MainchainBlocks c !! h); [by apply step_ok_get|by apply step_ok_ret].
  - apply step_ok_bind; [|intros; by apply step_ok_ret]. unfold GetCachedBlockByHashStr.
    destruct (NewHashFromStr _); [by apply step_ok_get|by apply step_ok_ret].
  - destruct Hv. by apply step_ok_remove.
  - apply step_ok_gets. destruct (MainchainBlocks c !! h) as [hs|]; [|by apply step_ok_ret].
    apply step_ok_bind; [by apply step_ok_get|]. intros [b|] c' E Hok'; [|by apply step_ok_ret].
    destruct (get_spec now hs c) as (q' & E' & _). rewrite E in E'.
    destruct (blockCache c !! hs) as [b0|] eqn:Eb; [|done]. injection E' as -> ->.
    destruct (co_items c Hok hs b0 Eb) as [Hi Hk]. apply step_ok_remove; [done|done|eauto].
  - split; [by eexists|]. split; [|done]. by destruct Hok; split.
  - split; [by eexists|]. split; [|done]. by destruct Hok; split.
  - apply (step_ok_queue c (SetLessFn f (expireQueue c)).2 Hok); [done|]. apply moved_refl.
  - unfold onQueue. destruct (Reheap_spec (expireQueue c)) as (q' & -> & [Hc _] & _ & Hm).
    by apply step_ok_queue.
Qed.

(** The states a cache of capacity [cap] reaches. *)
Inductive reached (cap : Z) : Cache → Prop :=
| reached_new : reached cap (NewAPICache cap)
| reached_step o c : reached cap c → op_valid o → reached cap (exec o c).2.

Lemma reached_ok cap c :
  0 <= cap → reached cap c → cache_ok c ∧ pq_capacity (expireQueue c) = cap.
Proof.
  intros Hcap Hr. induction Hr as [|o c Hr [Hok Hc] Hv].
  - split; [by apply cache_ok_new|done].
  - destruct (exec_ok o c Hok Hv) as (_ & Hok' & Hc'). split; [done|congruence].
Qed.

Lemma size_blockCache c : cache_ok c → size (blockCache c) = length (bh (expireQueue c)).
Proof.
  intros [_ Hk Hd _ _]. rewrite <- (length_fmap sig), <- (length_fmap fst).
  rewrite <- size_dom. change (size (dom (blockCache c))) with (length (elements (dom (blockCache c)))).
  rewrite <- (length_fmap Some).
  apply Permutation_length, NoDup_Permutation; [|done|].
  - apply NoDup_fmap_2; [by intros ??[=]|apply NoDup_elements].
  - intros k. rewrite <- Hd, list_elem_of_fmap. setoid_rewrite elem_of_elements.
    setoid_rewrite elem_of_dom. naive_solver.
Qed.

Lemma co_elem c : cache_ok c → ∀ hs,
  is_Some (blockCache c !! hs) ↔ ∃ b, b ∈ bh (expireQueue c) ∧ NewHashFromStr (hash b) = Some hs.
Proof.
  intros Hok hs. pose proof (co_dom c Hok (Some hs)) as [H1 H2]. split.
  - intros Hs. destruct (list_elem_of_fmap_1 fst _ _ (H1 (ex_intro _ hs (conj eq_refl Hs)))) as (y & Ey & Hy).
    apply list_elem_of_fmap in Hy as (b & -> & Hb). by exists b.
  - intros (b & Hb & Hk). destruct H2 as (k & [= <-] & Hs); [|done].
    apply list_elem_of_fmap. exists (sig b). split; [by unfold sig; rewrite Hk|].
    apply list_elem_of_fmap. by exists b.
Qed.

(** C22: cache and queue stay in step.  After any sequence of calls, the next
    call with valid hashes returns without panicking, the cache holds at most
    [capacity] blocks, they are exactly the blocks of the queue, every item is
    stored under the hash it carries, and every height leads to a cached
    block. *)
Theorem cache_invariant cap c :
  0 <= cap → reached cap c →
  (∀ o, op_valid o → (exec o c).1 = Ok tt) ∧
  Z.of_nat (size (blockCache c)) <= cap ∧
  (∀ hs, is_Some (blockCache c !! hs) ↔ ∃ b, b ∈ bh (expireQueue c) ∧ NewHashFromStr (hash b) = Some hs) ∧
  (∀ hs b, blockCache c !! hs = Some b → NewHashFromStr (hash b) = Some hs) ∧
  (∀ h hs, MainchainBlocks c !! h = Some hs → is_Some (blockCache c !! hs)).
Proof.
  intros Hcap Hr. destruct (reached_ok cap c Hcap Hr) as [Hok Hc].
  assert (∀ hs, is_Some (blockCache c !! hs) ↔ ∃ b, b ∈ bh (expireQueue c) ∧ NewHashFromStr (hash b) = Some hs) as Hdom.
  { by apply co_elem. }
  split_and!.
  - intros o Hv. destruct (exec_ok o c Hok Hv) as ((x & ->) & _). by destruct x.
  - rewrite size_blockCache by done. pose proof (qo_len _ (co_queue c Hok)). unfold zlen in *. lia.
  - done.
  - intros hs b Hb. by apply (co_items c Hok).
  - intros h hs Hh. apply Hdom. apply (co_main c Hok) in Hh.
    apply list_elem_of_fmap in Hh as (b & E & Hb). injection E as E _. by exists b.
Qed.

(** A block that is stored while there is room is served back by height
    and by hash, and no other block leaves. *)
Theorem StoreBlockSummary_then_Get now now' s hs c :
  cache_ok c → isEnabled c = Some true → NewHashFromStr (bd_Hash s) = Some hs →
  blockCache c !! hs = None → zlen (bh (expireQueue c)) < pq_capacity (expireQueue c) →
  let c' := (StoreBlockSummary NewHashFromStr now s c).2 in
  (GetBlockSummary now' (bd_Height s) c').1 = Ok (Some s) ∧
  (GetBlockSummaryByHash NewHashFromStr now' (bd_Hash s) c').1 = Ok (Some s) ∧
  ∀ k, k ≠ hs → blockCache c' !! k = blockCache c !! k.
Proof.
  intros Hok Hen Hhs Hn Hroom c'.
  set (b := mkCached (bd_Height s) (bd_Hash s) (Some s) (@None (@StakeInfoExtended StakeRest)) 0 0 (-1)).
  assert (StoreBlockSummary NewHashFromStr now s c = storeNew NewHashFromStr now (Some s) None hs (bd_Height s) c) as E.
  { unfold StoreBlockSummary. rewrite (bind_Ok (gets _) _ c true c) by (unfold gets, IsEnabled; by rewrite Hen).
    cbn [negb]. rewrite Hhs. by rewrite (bind_Ok (gets _) _ c None c) by (unfold gets; by rewrite Hn). }
  unfold c'. rewrite E.
  destruct (storeNew_spec now (Some s) None b hs (bd_Height s) c Hok eq_refl)
    as [[E0|(top & rest & _ & Hfull & _)]|q' _ _ _ _|top rest k q' _ Hfull _ _ _ _ _ _].
  - pose proof (zlen_nonneg (bh (expireQueue c))). lia.
  - lia.
  - cbn [snd]. set (c2 := mkApi _ _ _ _ _ _ _).
    assert (∀ m : goM Cache unit (option Block), (∃ c3, m c2 = (Ok (Some (Access (now' 0%nat) (Access (now 0%nat) b))), c3)) →
      ((gets IsEnabled ≫= λ on, if negb on then mret None else m ≫= λ cb, mret (cb ≫= summary)) c2).1 = Ok (Some s)) as Hget.
    { intros m [c3 Hm]. rewrite (bind_Ok (gets _) _ c2 true c2) by (unfold gets, IsEnabled; cbn; by rewrite Hen).
      cbn [negb]. by rewrite (bind_Ok _ _ _ _ _ Hm). }
    assert (∃ c3, getCachedBlockByHash now' hs c2 = (Ok (Some (Access (now' 0%nat) (Access (now 0%nat) b))), c3)) as [c3 Hc3].
    { destruct (get_spec now' hs c2) as (q3 & -> & _). unfold c2 at 1. cbn [blockCache].
      rewrite lookup_insert_eq. by eexists. }
    split_and!.
    + apply Hget. exists c3. unfold GetCachedBlockByHeight.
      rewrite (bind_Ok (gets _) _ c2 (Some hs) c2); [done|]. unfold gets, c2. cbn. by rewrite lookup_insert_eq.
    + apply Hget. exists c3. unfold GetCachedBlockByHashStr. by rewrite Hhs.
    + intros k Hk. unfold c2. cbn. by rewrite lookup_insert_ne.
  - lia.
Qed.

(** RemoveCachedBlock does not remove.  For any block of the cache the
    call returns normally and leaves the cache map and the queue as they were;
    only the height no longer leads to the block. *)
Theorem RemoveCachedBlock_keeps_block c hs b :
  cache_ok c → blockCache c !! hs = Some b →
  ∃ c', RemoveCachedBlock NewHashFromStr (Some b) c = (Ok tt, c') ∧
    blockCache c' = blockCache c ∧ expireQueue c' = expireQueue c ∧
    MainchainBlocks c' = delete (height b) (MainchainBlocks c).
Proof.
  intros Hok Hb. destruct (co_items c Hok hs b Hb) as [Hi Hk].
  eexists. split; [by apply (removeCachedBlock_spec b hs c)|done].
Qed.

(** Reading a block does not protect it.  Whatever blocks are read in
    between, a new block evicts or is refused exactly as without the reads:
    the accesses go to the cached object, and the queue holds another one. *)
Theorem reads_do_not_affect_eviction (c : Cache) gets_ now s hs (b : Block) :
  cache_ok c → newCachedBlock (Some s) None = Some b → blockCache c !! hs = None →
  let c' := foldl (λ c '(now, h), (getCachedBlockByHash now h c).2) c gets_ in
  dom (blockCache (storeNew NewHashFromStr now (Some s) None hs (height b) c').2) =
  dom (blockCache (storeNew NewHashFromStr now (Some s) None hs (height b) c).2).
Proof.
  intros Hok Hb Hn c'. assert (read_eq c c') as Hr.
  { unfold c'. clear -Hok. assert (read_eq c c) as Hr by done. revert Hr. generalize c at 2 4.
    induction gets_ as [|[n h] l IH]; intros c1 Hr; cbn; [done|]. apply IH.
    eapply read_eq_trans; [exact Hr|apply get_read_eq]. }
  pose proof (read_eq_ok c c' Hok Hr) as Hok'. destruct Hr as (Hbh & [Hc Hl] & _ & _ & _ & Hm).
  assert (dom (blockCache c') = dom (blockCache c)) as Hdom.
  { apply set_eq. intros k. rewrite !elem_of_dom. specialize (Hm k).
    destruct (blockCache c' !! k), (blockCache c !! k); try done; split; eauto. }
  destruct (storeNew_spec now (Some s) None b hs (height b) c' Hok' Hb)
    as [R1|q1 P1 _ _ _|t1 r1 k1 q1 B1 F1 N1 L1 K1 _ _ _];
    rewrite ?Hbh, ?Hc, ?Hl in R1 || rewrite Hbh, Hc in P1 || rewrite Hbh in B1;
    try rewrite Hbh, Hc in F1; try rewrite Hl in L1; try rewrite Hc in N1;
    (destruct (storeNew_spec now (Some s) None b hs (height b) c Hok Hb)
      as [R2|q2 P2 _ _ _|t2 r2 k2 q2 B2 F2 N2 L2 K2 _ _ _]; cbn [snd blockCache];
     rewrite ?dom_insert_L, ?dom_delete_L, ?Hdom; try done);
    pose proof (zlen_nonneg (bh (expireQueue c))); try lia.
  - exfalso. destruct R1 as [?|(? & ? & ? & ? & ?)]; lia.
  - exfalso. destruct R1 as [?|(t & r & B1 & ? & L1)]; [done|]. congruence.
  - exfalso. destruct R2 as [?|(? & ? & ? & ? & ?)]; lia.
  - exfalso. destruct R2 as [?|(t & r & B & ? & L)]; [done|]. congruence.
  - assert (k1 = k2) as -> by congruence. done.
Qed.

(** ** Eviction order *)
(** A comparison by a strict weak order that does not look at heap positions. *)
Class StrictWeak (f : Block → Block → bool) : Prop := {
  sw_strip_l : ∀ i x y, f (setHeapIdx i x) y = f x y;
  sw_strip_r : ∀ i x y, f x (setHeapIdx i y) = f x y;
  sw_trans : ∀ x y z, le f x y → le f y z → le f x z;
  sw_asym : ∀ x y, f x y = true → le f x y
}.

#[global] Instance LessByHeight_sw : StrictWeak LessByHeight.
Proof. split; unfold le, LessByHeight; cbn; try done; intros *; rewrite ?Z.ltb_ge, ?Z.ltb_lt; lia. Qed.
#[global] Instance LessByAccessCount_sw : StrictWeak LessByAccessCount.
Proof. split; unfold le, LessByAccessCount; cbn; try done; intros *; rewrite ?Z.ltb_ge, ?Z.ltb_lt; lia. Qed.
#[global] Instance LessByAccessTime_sw : StrictWeak LessByAccessTime.
Proof. split; unfold le, LessByAccessTime; cbn; try done; intros *; rewrite ?Z.ltb_ge, ?Z.ltb_lt; lia. Qed.
#[global] Instance LessByAccessCountThenHeight_sw : StrictWeak LessByAccessCountThenHeight.
Proof.
  split; unfold le, LessByAccessCountThenHeight, LessByHeight, LessByAccessCount; cbn; try done; intros *;
    repeat match goal with |- context [?a =? ?b] => destruct (Z.eqb_spec a b) end;
    rewrite ?Z.ltb_ge, ?Z.ltb_lt; lia.
Qed.

Definition heap_ordered (q : Queue) : Prop := ordered (lessFn q) 0 (length (bh q)) (bh q).

(** With a strict weak order for priority, the queue stays a heap when a
    block is stored, and the block that leaves the cache (or the new block,
    when it is refused) has the lowest priority: no block of the queue is
    before it. *)
Theorem eviction_takes_lowest_priority now s hs b (c : Cache) :
  cache_ok c → StrictWeak (lessFn (expireQueue c)) → heap_ordered (expireQueue c) →
  newCachedBlock (Some s) None = Some b →
  let r := (storeNew NewHashFromStr now (Some s) None hs (height b) c).2 in
  heap_ordered (expireQueue r) ∧
  (∀ k, is_Some (blockCache c !! k) → blockCache r !! k = None →
     ∃ e, NewHashFromStr (hash e) = Some k ∧
       ∀ x, x ∈ bh (expireQueue c) → le (lessFn (expireQueue c)) e x) ∧
  (0 < pq_capacity (expireQueue c) → blockCache c !! hs = None → blockCache r !! hs = None →
     ∀ x, x ∈ bh (expireQueue c) →
       le (lessFn (expireQueue c)) (replaced (now 1%nat) (Some s) None b) x).
Proof.
  intros Hok Hsw Hord Hb r.
  assert (∀ t rest, bh (expireQueue c) = t :: rest → ∀ x, x ∈ bh (expireQueue c) → le (lessFn (expireQueue c)) t x) as Htop.
  { intros t rest E x [i Hi]%list_elem_of_lookup. apply (ordered_top _ sw_trans sw_asym _ _ i t x Hord); [done| | |done].
    - by rewrite E.
    - by eapply lookup_lt_Some. }
  unfold r. destruct (storeNew_spec now (Some s) None b hs (height b) c Hok Hb)
    as [R|q' P [_ El] F Hm|t rest k' q' B F N L K [_ El] Hf Hm]; cbn [snd expireQueue blockCache].
  - split; [done|]. split; [intros k Hk Hn; rewrite Hn in Hk; by destruct Hk|].
    intros Hc _ _ x Hx. destruct R as [?|(t & rest & B & _ & L)]; [lia|].
    eapply sw_trans; [exact L|by eapply Htop].
  - split; [|split].
    + unfold heap_ordered. rewrite El, (moved_length _ _ _ _ Hm), length_app, Nat.add_1_r.
      exact (heap_PushUp_order _ setHeapIdx sw_strip_l sw_strip_r sw_trans sw_asym _ _ _ Hord F).
    + intros k Hk Hn. destruct (decide (hs = k)) as [->|]; [by rewrite lookup_insert_eq in Hn|].
      rewrite lookup_insert_ne in Hn by done. rewrite Hn in Hk. by destruct Hk.
    + intros _ _ Hn. by rewrite lookup_insert_eq in Hn.
  - split; [|split].
    + unfold heap_ordered. rewrite El, (moved_length _ _ _ _ Hm). unfold heap_ordered in Hord. rewrite B in Hord.
      exact (heap_Fix_top_order _ setHeapIdx sw_strip_l sw_strip_r sw_trans sw_asym (t :: rest) _ _ Hord
        (ltac:(discriminate)) Hf).
    + intros k Hk Hn. destruct (decide (hs = k)) as [->|]; [by rewrite lookup_insert_eq in Hn|].
      rewrite lookup_insert_ne in Hn by done. destruct (decide (k' = k)) as [->|].
      * exists t. split; [done|]. by eapply Htop.
      * rewrite lookup_delete_ne in Hn by done. rewrite Hn in Hk. by destruct Hk.
    + intros _ _ Hn. by rewrite lookup_insert_eq in Hn.
Qed.

(** A reheap (the periodic one, or after a change of comparison) makes the
    queue a heap again and keeps its blocks. *)
Theorem Reheap_restores_order (q : Queue) :
  StrictWeak (lessFn q) →
  ∃ q', Reheap q = (Ok tt, q') ∧ heap_ordered q' ∧ strip <$> bh q' ≡ₚ strip <$> bh q.
Proof.
  intros Hsw. destruct (Reheap_spec q) as (q' & E & [_ El] & Hi & Hm). exists q'. split; [done|].
  split; [|apply Hm]. unfold heap_ordered. rewrite El, (moved_length _ _ _ _ Hm).
  exact (heap_Init_order _ setHeapIdx sw_strip_l sw_strip_r sw_trans sw_asym _ _ Hi).
Qed.

(** The default comparison is not an order: with a resolution of one
    millisecond, three blocks accessed 0.6 ms apart can each be not after the
    next although the first is after the last, so a heap for it need not have
    its lowest priority block on top. *)
Theorem default_comparison_not_transitive :
  ∃ x y z : Block, let f := MakeLessByAccessTimeThenCount 1 in
  le f x y ∧ le f y z ∧ ¬ le f x z.
Proof.
  set (blk := λ a t, mkCached 0 "" None None a t (-1) : Block).
  exists (blk 1 1200000), (blk 2 600000), (blk 3 0). unfold le. split_and!; vm_compute; [reflexivity..|discriminate].
Qed.
End CacheInvariant.

(** ** Witnesses *)
Module Witness.
(** A concrete parser: the bytes of a non-empty string. *)
Definition parse (s : string) : option Hash :=
  if bool_decide (s = "") then None
  else Some ((λ c, Z.of_N (Ascii.N_of_ascii c)) <$> String.list_ascii_of_string s).
Definition show (h : Hash) : string := "".

Abbreviation Cache := (@APICache unit unit).
Definition now (n : nat) : Z := 5000000000 + Z.of_nat n.
Definition later (n : nat) : Z := 9000000000 + Z.of_nat n.
Definition sum (h : Z) (s : string) : @BlockDataBasic unit := mkBDB h 100 s tt.

Definition ops : list (@op unit unit) := [OpSetLessFn LessByHeight; OpEnable;
  OpStoreBlockSummary now (sum 5 "e"); OpStoreBlockSummary now (sum 3 "c")].
Definition c0 : Cache := NewAPICache 2.
Definition c2 : Cache := foldl (λ c o, (exec parse show o c).2) c0 (take 2 ops).
Definition c3 : Cache := foldl (λ c o, (exec parse show o c).2) c0 (take 3 ops).
Definition c4 : Cache := foldl (λ c o, (exec parse show o c).2) c0 ops.

Lemma reached4 : reached parse show 2 c4.
Proof.
  unfold c4, ops. cbn [foldl]. repeat apply reached_step; [apply reached_new|..]; cbn; try done; by eexists.
Qed.
Lemma reached3 : reached parse show 2 c3.
Proof.
  unfold c3, ops. cbn [take foldl]. repeat apply reached_step; [apply reached_new|..]; cbn; try done; by eexists.
Qed.
Lemma ok4 : cache_ok parse c4.
Proof. by apply (reached_ok parse show 2 c4); [lia|apply reached4]. Qed.
Lemma ok3 : cache_ok parse c3.
Proof. by apply (reached_ok parse show 2 c3); [lia|apply reached3]. Qed.

Lemma cache_invariant_witness :
  (exec parse show (OpStoreBlockSummary later (sum 7 "g")) c4).1 = Ok tt ∧
  Z.of_nat (size (blockCache c4)) <= 2 ∧ size (blockCache c4) = 2%nat.
Proof.
  destruct (cache_invariant parse show 2 c4) as (H1 & H2 & _); [lia|exact reached4|].
  split; [apply H1; eexists; reflexivity|]. split; [exact H2|vm_compute; reflexivity].
Defined.

Lemma StoreBlockSummary_then_Get_witness :
  let c' := (StoreBlockSummary parse later (sum 7 "g") c3).2 in
  (GetBlockSummary later 7 c').1 = Ok (Some (sum 7 "g")) ∧
  (GetBlockSummaryByHash parse later "g" c').1 = Ok (Some (sum 7 "g")) ∧
  ∀ k, k ≠ [103] → blockCache c' !! k = blockCache c3 !! k.
Proof.
  apply (StoreBlockSummary_then_Get parse later later (sum 7 "g") [103] c3).
  - exact ok3.
  - reflexivity.
  - vm_compute; reflexivity.
  - vm_compute; reflexivity.
  - vm_compute; reflexivity.
Defined.

Definition block_e : @CachedBlock unit unit := Access (now 0) (mkCached 5 "e" (Some (sum 5 "e")) None 0 0 (-1)).

Lemma RemoveCachedBlock_keeps_block_witness :
  ∃ c', RemoveCachedBlock parse (Some block_e) c4 = (Ok tt, c') ∧
    blockCache c' = blockCache c4 ∧ expireQueue c' = expireQueue c4 ∧
    MainchainBlocks c' = delete 5 (MainchainBlocks c4).
Proof.
  apply (RemoveCachedBlock_keeps_block parse c4 [101] block_e); [exact ok4|vm_compute; reflexivity].
Defined.

Definition block_g : @CachedBlock unit unit := mkCached 7 "g" (Some (sum 7 "g")) None 0 0 (-1).

Lemma reads_do_not_affect_eviction_witness :
  dom (blockCache (storeNew parse later (Some (sum 7 "g")) None [103] 7
    (getCachedBlockByHash later [99] c4).2).2) =
  dom (blockCache (storeNew parse later (Some (sum 7 "g")) None [103] 7 c4).2).
Proof.
  exact (reads_do_not_affect_eviction parse c4 [(later, [99])] later (sum 7 "g") [103] block_g
    ok4 eq_refl eq_refl).
Defined.

Lemma ordered4 : heap_ordered (expireQueue c4).
Proof.
  intros k [Hk1 Hk2] _ x y. assert (length (bh (expireQueue c4)) = 2%nat) as E by (vm_compute; reflexivity).
  rewrite E in Hk2. assert (k = 1)%nat as -> by lia. vm_compute. intros [= <-] [= <-]. reflexivity.
Qed.

Lemma eviction_takes_lowest_priority_witness :
  let r := (storeNew parse later (Some (sum 7 "g")) None [103] 7 c4).2 in
  heap_ordered (expireQueue r) ∧ blockCache r !! [99] = None.
Proof.
  pose proof (eviction_takes_lowest_priority parse later (sum 7 "g") [103] block_g c4 ok4
    LessByHeight_sw ordered4 eq_refl) as (H & _ & _).
  split; [exact H|vm_compute; reflexivity].
Defined.

Lemma Reheap_restores_order_witness :
  ∃ q', Reheap (expireQueue c4) = (Ok tt, q') ∧ heap_ordered q' ∧
    strip <$> bh q' ≡ₚ strip <$> bh (expireQueue c4).
Proof. exact (Reheap_restores_order (expireQueue c4) LessByHeight_sw). Defined.
End Witness.
