(* ===== verification/Locks.v ===== *)
(** * Try locks (trylock/trylock.go, CacheLock of db/cache/addresscache.go)

    Both locks hand out a channel that is closed when the holder releases, so
    that a caller that found the lock busy can wait.  A channel is a number;
    the channels made so far are those below [fresh], [closed] are the closed
    ones.  The operations are functions on the lock; the threads that use it
    are a step relation over their program counters. *)
From S2P Require Import Prelude.

Record chans := mkChans { fresh : nat; closed : gset nat }.

(** [make(chan struct{})] and [close(c)], which panics on a closed channel. *)
Definition make_chan (cs : chans) : nat * chans := (fresh cs, mkChans (S (fresh cs)) (closed cs)).
Definition close_chan (ch : nat) (cs : chans) : option chans :=
  if decide (ch ∈ closed cs) then None else Some (mkChans (fresh cs) ({[ ch ]} ∪ closed cs)).

(** The threads: what each stands at, [t] moved to [p]. *)
Definition set_pc {pc} (t : nat) (p : pc) (th : nat → pc) : nat → pc :=
  λ u, if decide (u = t) then p else th u.
Lemma set_pc_eq {pc} t (p : pc) th : set_pc t p th t = p.
Proof. unfold set_pc. by rewrite decide_True. Qed.
Lemma set_pc_ne {pc} t u (p : pc) th : u ≠ t → set_pc t p th u = th u.
Proof. intros. unfold set_pc. by rewrite decide_False. Qed.

(** Case analysis on whether [u] is the thread that moved. *)
Ltac who u t := destruct (decide (u = t)) as [->|?];
  [rewrite ?set_pc_eq in * | rewrite ?(set_pc_ne t u) in * by done].

(** ** [trylock.Mutex] *)
Module Mutex.
Record Mutex := mk { c : option nat; cs : chans }.

(** [tryLock]: busy, and the channel to wait on when busy. *)
Definition tryLock (tl : Mutex) : bool * option nat * Mutex :=
  match c tl with
  | None => let '(ch, cs') := make_chan (cs tl) in (false, None, mk (Some ch) cs')
  | Some ch => (true, Some ch, tl)
  end.

Definition TryLock (tl : Mutex) : bool * Mutex :=
  let '(busy, _, tl') := tryLock tl in (negb busy, tl').

(** [None] is the panic of closing a nil or closed channel. *)
Definition Unlock (tl : Mutex) : option Mutex :=
  ch ← c tl; cs' ← close_chan ch (cs tl); Some (mk None cs').

(** Where a user of the lock stands. *)
Inductive pc :=
| Idle
| Waiting (ch : nat)   (* in Lock, at [<-wait] *)
| Holding
| Panicked.

Record system := mkSys { lock : Mutex; threads : nat → pc }.

(** One round of the loop of [Lock]. *)
Definition lock_round (t : nat) (s : system) : system :=
  match tryLock (lock s) with
  | (false, _, tl) => mkSys tl (set_pc t Holding (threads s))
  | (true, Some ch, tl) => mkSys tl (set_pc t (Waiting ch) (threads s))
  | (true, None, tl) => s
  end.

(** A thread tries, takes part in [Lock], is woken when its channel is closed
    and tries again, or unlocks what it holds. *)
Inductive step : system → system → Prop :=
| step_TryLock s t : threads s t = Idle →
    step s (let '(ok, tl) := TryLock (lock s) in
            mkSys tl (set_pc t (if ok : bool then Holding else Idle) (threads s)))
| step_Lock s t : threads s t = Idle → step s (lock_round t s)
| step_wake s t ch : threads s t = Waiting ch → ch ∈ closed (cs (lock s)) → step s (lock_round t s)
| step_Unlock s t : threads s t = Holding →
    step s (match Unlock (lock s) with
            | Some tl => mkSys tl (set_pc t Idle (threads s))
            | None => mkSys (lock s) (set_pc t Panicked (threads s))
            end).

Definition init : system := mkSys (mk None (mkChans 0 ∅)) (λ _, Idle).

Inductive reachable : system → Prop :=
| reach_init : reachable init
| reach_step s s' : reachable s → step s s' → reachable s'.

(** The channel of the lock is open exactly while one thread holds it, and
    every waiter waits for that channel or for a closed one. *)
Record inv (s : system) : Prop := {
  inv_free : c (lock s) = None → ∀ t, threads s t ≠ Holding;
  inv_held : ∀ ch, c (lock s) = Some ch → ∃ t, threads s t = Holding ∧ (∀ u, threads s u = Holding → u = t);
  inv_open : ∀ ch, c (lock s) = Some ch → (ch ∉ closed (cs (lock s))) ∧ (ch < fresh (cs (lock s)))%nat;
  inv_closed : ∀ ch, ch ∈ closed (cs (lock s)) → (ch < fresh (cs (lock s)))%nat;
  inv_wait : ∀ t ch, threads s t = Waiting ch → ch ∈ closed (cs (lock s)) ∨ c (lock s) = Some ch;
  inv_panic : ∀ t, threads s t ≠ Panicked
}.

Lemma inv_acquire s t :
  inv s → c (lock s) = None →
  inv (mkSys (mk (Some (fresh (cs (lock s)))) (make_chan (cs (lock s))).2) (set_pc t Holding (threads s))).
Proof.
  intros [Hf Hh Ho Hc Hw Hp] E. split; cbn.
  - done.
  - intros ch _. exists t. split; [apply set_pc_eq|]. intros u Hu. who u t; [done|]. by destruct (Hf E u).
  - intros ch [= <-]. split; [|lia]. intros Hin%Hc. lia.
  - intros ch Hin%Hc. lia.
  - intros u ch Hu. who u t; [done|]. apply Hw in Hu as [?|?]; [by left|congruence].
  - intros u. by who u t.
Qed.

Lemma inv_set_pc s t p :
  inv s → threads s t ≠ Holding → p ≠ Holding → p ≠ Panicked →
  (∀ ch, p = Waiting ch → c (lock s) = Some ch) → inv (mkSys (lock s) (set_pc t p (threads s))).
Proof.
  intros [Hf Hh Ho Hc Hw Hp] Ht Hnh Hnp Hwait. split; cbn; try done.
  - intros E u. who u t; [done|by apply Hf].
  - intros ch E. destruct (Hh ch E) as (h & Hh1 & Hh2). exists h. split.
    + by rewrite set_pc_ne by congruence.
    + intros u Hu. who u t; [done|by apply Hh2].
  - intros u ch Hu. who u t; [right; by apply Hwait|by apply (Hw u)].
  - intros u. who u t; [done|apply Hp].
Qed.

Lemma inv_lock_round s t :
  inv s → threads s t ≠ Holding → inv (lock_round t s).
Proof.
  intros Hi Ht. unfold lock_round, tryLock. destruct (c (lock s)) as [ch|] eqn:E.
  - apply inv_set_pc; [done..|]. intros ch' [= ->]. done.
  - by apply inv_acquire.
Qed.

Lemma mutex_inv_step s s' : inv s → step s s' → inv s'.
Proof.
  intros Hi Hs. destruct Hs as [s t Ht|s t Ht|s t ch Ht _|s t Ht].
  - unfold TryLock, tryLock. destruct (c (lock s)) as [ch|] eqn:E; cbn.
    + apply inv_set_pc; try done; congruence.
    + by apply inv_acquire.
  - apply inv_lock_round; congruence.
  - apply inv_lock_round; congruence.
  - destruct Hi as [Hf Hh Ho Hc Hw Hp]. unfold Unlock. destruct (c (lock s)) as [ch|] eqn:E; cbn.
    2:{ by destruct (Hf eq_refl t). }
    destruct (Ho ch eq_refl) as [Hno Hlt]. unfold close_chan. rewrite decide_False by done. cbn.
    destruct (Hh ch eq_refl) as (h & Hh1 & Hh2). split; cbn; try done.
    + intros _ u. who u t; [done|]. intros Hu. apply Hh2 in Hu, Ht. congruence.
    + intros x [->%elem_of_singleton|Hx]%elem_of_union; auto.
    + intros u x Hu. who u t; [done|]. left. apply Hw in Hu as [?|[= ->]]; set_solver.
    + intros u. who u t; [done|apply Hp].
Qed.

(** Mutual exclusion and no lost wake-up.  However calls interleave, at
    most one thread holds the lock, no Unlock of a holder panics, and a thread
    blocked in Lock waits for a channel that is closed (it can go on) or
    belongs to the current holder. *)
Theorem mutex_exclusion s :
  reachable s →
  (∀ t u, threads s t = Holding → threads s u = Holding → t = u) ∧
  (∀ t, threads s t = Holding → is_Some (Unlock (lock s))) ∧
  (∀ t ch, threads s t = Waiting ch →
     ch ∈ closed (cs (lock s)) ∨ ∃ u, threads s u = Holding ∧ c (lock s) = Some ch).
Proof.
  intros Hr. assert (inv s) as Hi.
  { induction Hr as [|s s' Hr IH Hs]; [split; cbn; done|by eapply mutex_inv_step]. }
  pose proof Hi as [Hf Hh Ho Hc Hw Hp]. split_and!.
  - intros t u Ht Hu. destruct (c (lock s)) as [ch|] eqn:E; [|by destruct (Hf eq_refl t)].
    destruct (Hh ch eq_refl) as (h & _ & H2). by rewrite (H2 t Ht), (H2 u Hu).
  - intros t Ht. unfold Unlock. destruct (c (lock s)) as [ch|] eqn:E; [|by destruct (Hf eq_refl t)].
    cbn. unfold close_chan. destruct (Ho ch eq_refl) as [Hno _]. rewrite decide_False by done. by eexists.
  - intros t ch Ht. apply Hw in Ht as [?|E]; [by left|right]. destruct (Hh ch E) as (u & Hu & _). eauto.
Qed.
End Mutex.

(** ** [cache.CacheLock]: one lock per address *)
Module CacheLock.
Record CacheLock := mk { addrs : gmap string nat; cs : chans }.

Definition NewCacheLock : CacheLock := mk ∅ (mkChans 0 ∅).

(** [done(addr)]. *)
Definition done (addr : string) (cl : CacheLock) : CacheLock := mk (delete addr (addrs cl)) (cs cl).

(** [hold(addr)]; the function it returns is determined by the address and the
    channel. *)
Definition hold (addr : string) (cl : CacheLock) : nat * CacheLock :=
  let '(ch, cs') := make_chan (cs cl) in (ch, mk (<[addr := ch]> (addrs cl)) cs').

(** [TryLock]: busy, the channel to wait on, and the release function, which
    is the channel to close ([None] for the empty function). *)
Definition TryLock (addr : string) (cl : CacheLock) : bool * option nat * option nat * CacheLock :=
  match addrs cl !! addr with
  | Some ch => (true, Some ch, None, cl)
  | None => let '(ch, cl') := hold addr cl in (false, None, Some ch, cl')
  end.

(** The release function runs [done] and then closes the channel, outside the
    mutex: another thread can get the lock in between. *)
Definition close (ch : nat) (cl : CacheLock) : option CacheLock :=
  cs' ← close_chan ch (cs cl); Some (mk (addrs cl) cs').

Inductive pc :=
| Idle
| Waiting (addr : string) (ch : nat)
| Holding (addr : string) (ch : nat)
| Closing (ch : nat)
| Panicked.

Record system := mkSys { lock : CacheLock; threads : nat → pc }.

Inductive step : system → system → Prop :=
| step_TryLock s t addr : threads s t = Idle →
    step s (match TryLock addr (lock s) with
            | (false, _, Some ch, cl) => mkSys cl (set_pc t (Holding addr ch) (threads s))
            | (true, Some ch, _, cl) => mkSys cl (set_pc t (Waiting addr ch) (threads s))
            | _ => s
            end)
| step_wake s t addr ch : threads s t = Waiting addr ch → ch ∈ closed (cs (lock s)) →
    step s (mkSys (lock s) (set_pc t Idle (threads s)))
| step_done s t addr ch : threads s t = Holding addr ch →
    step s (mkSys (done addr (lock s)) (set_pc t (Closing ch) (threads s)))
| step_close s t ch : threads s t = Closing ch →
    step s (match close ch (lock s) with
            | Some cl => mkSys cl (set_pc t Idle (threads s))
            | None => mkSys (lock s) (set_pc t Panicked (threads s))
            end).

Inductive reachable : system → Prop :=
| reach_init : reachable (mkSys NewCacheLock (λ _, Idle))
| reach_step s s' : reachable s → step s s' → reachable s'.

(** The channel a thread is to close. *)
Definition owns (p : pc) : option nat :=
  match p with Holding _ ch | Closing ch => Some ch | _ => None end.

Record inv (s : system) : Prop := {
  inv_map : ∀ addr ch, addrs (lock s) !! addr = Some ch ↔ ∃ t, threads s t = Holding addr ch;
  inv_owner : ∀ t u ch, owns (threads s t) = Some ch → owns (threads s u) = Some ch → t = u;
  inv_open : ∀ t ch, owns (threads s t) = Some ch →
    (ch ∉ closed (cs (lock s))) ∧ (ch < fresh (cs (lock s)))%nat;
  inv_closed : ∀ ch, ch ∈ closed (cs (lock s)) → (ch < fresh (cs (lock s)))%nat;
  inv_wait : ∀ t addr ch, threads s t = Waiting addr ch →
    ch ∈ closed (cs (lock s)) ∨ ∃ u, owns (threads s u) = Some ch;
  inv_panic : ∀ t, threads s t ≠ Panicked
}.

(** A thread that owns no channel moves to a state that owns none. *)
Lemma inv_move s t p :
  inv s → owns (threads s t) = None → owns p = None → p ≠ Panicked →
  (∀ addr ch, p = Waiting addr ch → ∃ u, threads s u = Holding addr ch) →
  inv (mkSys (lock s) (set_pc t p (threads s))).
Proof.
  intros [Hm Ho Hop Hc Hw Hp] Ht Hnp Hpan Hwait.
  assert (∀ u ch, owns (threads s u) = Some ch → owns (set_pc t p (threads s) u) = Some ch) as Hkeep.
  { intros u ch Hu. who u t; [congruence|done]. }
  split; cbn; try done.
  - intros addr ch. rewrite Hm. split; intros [u Hu]; exists u.
    + who u t; [by rewrite Hu in Ht|done].
    + who u t; [by subst p|done].
  - intros u v ch Hu Hv. who u t; [congruence|]. who v t; [congruence|]. eauto.
  - intros u ch Hu. who u t; [congruence|]. by apply (Hop u).
  - intros u addr ch Hu. who u t.
    + right. destruct (Hwait _ _ Hu) as [v Hv]. exists v. apply Hkeep. by rewrite Hv.
    + apply Hw in Hu as [?|[v Hv]]; [by left|right]. eauto.
  - intros u. who u t; [done|apply Hp].
Qed.

Lemma inv_hold s t addr :
  inv s → threads s t = Idle → addrs (lock s) !! addr = None →
  inv (mkSys (mk (<[addr := fresh (cs (lock s))]> (addrs (lock s))) (make_chan (cs (lock s))).2)
         (set_pc t (Holding addr (fresh (cs (lock s)))) (threads s))).
Proof.
  intros [Hm Ho Hop Hc Hw Hp] Ht E.
  assert (∀ u, owns (threads s u) ≠ Some (fresh (cs (lock s)))) as Hnew.
  { intros u Hu. apply Hop in Hu. lia. }
  split; cbn.
  - intros ad ch. destruct (decide (addr = ad)) as [->|Hne].
    + rewrite lookup_insert_eq. split; [intros [= <-]; exists t; apply set_pc_eq|].
      intros [u Hu]. who u t; [congruence|]. assert (addrs (lock s) !! ad = Some ch) by (apply Hm; eauto). congruence.
    + rewrite lookup_insert_ne, Hm by done. split; intros [u Hu]; exists u; who u t; congruence.
  - intros u v ch Hu Hv. who u t; who v t; try done.
    + injection Hu as <-. by destruct (Hnew v).
    + injection Hv as <-. by destruct (Hnew u).
    + eauto.
  - intros u ch Hu. who u t.
    + cbn in Hu. injection Hu as <-. split; [|lia]. intros Hin%Hc. lia.
    + apply Hop in Hu. split; [apply Hu|lia].
  - intros ch Hin%Hc. lia.
  - intros u ad ch Hu. who u t; [done|]. apply Hw in Hu as [?|[v Hv]]; [by left|right].
    exists v. who v t; [by rewrite Ht in Hv|done].
  - intros u. who u t; [done|apply Hp].
Qed.

Lemma inv_done s t addr ch :
  inv s → threads s t = Holding addr ch →
  inv (mkSys (done addr (lock s)) (set_pc t (Closing ch) (threads s))).
Proof.
  intros [Hm Ho Hop Hc Hw Hp] Ht.
  assert (∀ u, owns (set_pc t (Closing ch) (threads s) u) = owns (threads s u)) as Hown.
  { intros u. who u t; [by rewrite Ht|done]. }
  split; cbn; try done.
  - intros ad ch'. destruct (decide (addr = ad)) as [->|Hne].
    + rewrite lookup_delete_eq. split; [done|]. intros [u Hu]. who u t; [done|].
      assert (addrs (lock s) !! ad = Some ch') as E1 by (apply Hm; eauto).
      assert (addrs (lock s) !! ad = Some ch) as E2 by (apply Hm; eauto).
      assert (ch' = ch) as -> by congruence. exfalso.
      assert (u = t); [|done]. apply (Ho u t ch); by rewrite ?Hu, ?Ht.
    + rewrite lookup_delete_ne, Hm by done. split; intros [u Hu]; exists u; who u t; congruence.
  - intros u v c. rewrite !Hown. apply Ho.
  - intros u c. rewrite Hown. apply Hop.
  - intros u ad c Hu. who u t; [done|]. apply Hw in Hu as [?|[v Hv]]; [by left|right].
    exists v. by rewrite Hown.
  - intros u. who u t; [done|apply Hp].
Qed.

Lemma inv_close s t ch :
  inv s → threads s t = Closing ch →
  inv (mkSys (mk (addrs (lock s)) (mkChans (fresh (cs (lock s))) ({[ ch ]} ∪ closed (cs (lock s)))))
         (set_pc t Idle (threads s))).
Proof.
  intros [Hm Ho Hop Hc Hw Hp] Ht. assert (owns (threads s t) = Some ch) as Hown by (by rewrite Ht).
  split; cbn.
  - intros ad c. rewrite Hm. split; intros [u Hu]; exists u; who u t; congruence.
  - intros u v c Hu Hv. who u t; [done|]. who v t; [done|]. eauto.
  - intros u c Hu. who u t; [done|]. destruct (Hop u c Hu) as [H1 H2]. split; [|done].
    intros [->%elem_of_singleton|?]%elem_of_union; [|done]. by destruct (Ho u t ch).
  - intros c [->%elem_of_singleton|Hin%Hc]%elem_of_union; [|done]. by apply (Hop t).
  - intros u ad c Hu. who u t; [done|]. apply Hw in Hu as [?|[v Hv]]; [set_solver|].
    destruct (decide (v = t)) as [->|Hne].
    + left. rewrite Hown in Hv. set_solver.
    + right. exists v. by rewrite set_pc_ne.
  - intros u. who u t; [done|apply Hp].
Qed.

Lemma cl_step_inv s s' : inv s → step s s' → inv s'.
Proof.
  intros Hi Hs. destruct Hs as [s t addr Ht|s t addr ch Ht _|s t addr ch Ht|s t ch Ht].
  - unfold TryLock. destruct (addrs (lock s) !! addr) as [ch|] eqn:E; cbn.
    + apply inv_move; try done; [by rewrite Ht|]. intros ad c [= -> ->]. by apply (inv_map s Hi).
    + by apply inv_hold.
  - apply inv_move; try done. by rewrite Ht.
  - by apply inv_done.
  - unfold close, close_chan. destruct (inv_open s Hi t ch) as [Hno _]; [by rewrite Ht|].
    rewrite decide_False by done. cbn. by apply inv_close.
Qed.

(** C31: one updater per address, and every waiter is released.  However calls
    interleave, at most one thread holds the lock of an address, a thread that
    waits has a channel that is closed already or that exactly one running
    thread is going to close, and no close panics. *)
Theorem cachelock_exclusion s :
  reachable s →
  (∀ t u addr ch ch', threads s t = Holding addr ch → threads s u = Holding addr ch' → t = u) ∧
  (∀ t addr ch, threads s t = Waiting addr ch →
     ch ∈ closed (cs (lock s)) ∨ ∃ u, owns (threads s u) = Some ch) ∧
  (∀ t ch, owns (threads s t) = Some ch → is_Some (close ch (lock s))).
Proof.
  intros Hr. assert (inv s) as [Hm Ho Hop Hc Hw Hp].
  { induction Hr as [|s s' Hr IH Hs]; [|by eapply cl_step_inv]. split; cbn; try done.
    intros addr ch. rewrite lookup_empty. split; [done|by intros []]. }
  split_and!.
  - intros t u addr ch ch' Ht Hu. assert (addrs (lock s) !! addr = Some ch) as E1 by (apply Hm; eauto).
    assert (addrs (lock s) !! addr = Some ch') as E2 by (apply Hm; eauto).
    apply (Ho t u ch); [by rewrite Ht|rewrite Hu; cbn; congruence].
  - done.
  - intros t ch Ht. unfold close, close_chan. destruct (Hop t ch Ht). rewrite decide_False by done. by eexists.
Qed.
End CacheLock.

(** ** Witnesses *)
Module Witness.
Definition sys1 : Mutex.system := Mutex.lock_round 2 (Mutex.lock_round 1 Mutex.init).
Lemma reach1 : Mutex.reachable sys1.
Proof.
  unfold sys1. eapply Mutex.reach_step; [eapply Mutex.reach_step; [apply Mutex.reach_init|]|];
    by apply Mutex.step_Lock.
Qed.
Lemma mutex_exclusion_witness :
  Mutex.threads sys1 1%nat = Mutex.Holding ∧ is_Some (Mutex.Unlock (Mutex.lock sys1)).
Proof.
  destruct (Mutex.mutex_exclusion sys1 reach1) as (_ & H & _).
  split; [reflexivity|apply (H 1%nat); reflexivity].
Defined.

Definition csys1 : CacheLock.system :=
  CacheLock.mkSys (CacheLock.mk {["a" := 0%nat]} (mkChans 1 ∅))
    (set_pc 1 (CacheLock.Holding "a" 0) (λ _, CacheLock.Idle)).
Lemma creach1 : CacheLock.reachable csys1.
Proof.
  eapply CacheLock.reach_step; [apply CacheLock.reach_init|].
  exact (CacheLock.step_TryLock (CacheLock.mkSys CacheLock.NewCacheLock (λ _, CacheLock.Idle)) 1 "a" eq_refl).
Qed.
Lemma cachelock_exclusion_witness :
  CacheLock.threads csys1 1%nat = CacheLock.Holding "a" 0 ∧ is_Some (CacheLock.close 0 (CacheLock.lock csys1)).
Proof.
  destruct (CacheLock.cachelock_exclusion csys1 creach1) as (_ & _ & H).
  split; [reflexivity|apply (H 1%nat); reflexivity].
Defined.
End Witness.
