(* ===== verification/Charts.v ===== *)
(** * Chart data (db/cache/charts.go)

    The per-block, per-day and per-window series behind the charts: checking
    and repairing their lengths, deriving the day bins from the block series
    ([Lengthen]), and cutting them back on a chain reorganization
    ([ReorgHandler]).  A series is the list of its values: uint64 values and
    big integers as [Z], float64 values as IEEE bit patterns that are only
    copied here.  The update goroutines and the mutexes are not modelled: each
    method is one step. *)
From S2P Require Import Prelude.

(** ** Data *)
Abbreviation ChartUints := (list Z).
Abbreviation ChartBigInts := (list Z).
Abbreviation ChartFloats := (list Z).

Definition aDay : Z := 86400.

Record zoomSet := mkZoom {
  cacheID : Z;
  Height : ChartUints;
  Time : ChartUints;
  PoolSize : ChartUints;
  PoolValue : ChartUints;
  BlockSize : ChartUints;
  TxCount : ChartUints;
  NewAtoms : ChartUints;
  Chainwork : ChartBigInts;
  Fees : ChartUints;
  TotalMixed : ChartUints;
  AnonymitySet : ChartUints
}.

Record windowSet := mkWindow {
  w_cacheID : Z;
  w_Time : ChartUints;
  w_Height : ChartUints;
  PowDiff : ChartFloats;
  TicketPrice : ChartUints;
  StakeCount : ChartUints;
  MissedVotes : ChartUints;
  StakeCountVersion : Z   (* uint32 *)
}.

Record MinerRange := mkMiner { FirstSeen : Z; LastUsed : Z }.

(** The series of ChartData; the remaining fields concern the chart makers. *)
Record ChartData := mkCharts {
  Blocks : zoomSet;
  Windows : windowSet;
  Days : zoomSet;
  MinerRanges : list MinerRange
}.

Definition newBlockSet : zoomSet := mkZoom 0 [] [] [] [] [] [] [] [] [] [] [].
Definition newDaySet : zoomSet := newBlockSet.
Definition newWindowSet : windowSet := mkWindow 0 [] [] [] [] [] [] 0.
Definition NewChartData : ChartData := mkCharts newBlockSet newWindowSet newDaySet [].

(** ** Segments of a series *)
(** [data[:max]] with [max] cut to the length. *)
Definition snip {A} (max : Z) (data : list A) : list A :=
  let max := if zlen data <? max then zlen data else max in take (Z.to_nat max) data.

(** [data[s:e]]; [None] is the run-time panic. *)
Definition segment {A} (data : list A) (s e : Z) : option (list A) :=
  if (0 <=? s) && (s <=? e) && (e <=? zlen data)
  then Some (take (Z.to_nat (e - s)) (drop (Z.to_nat s) data)) else None.

Definition u64_sum (l : list Z) : Z := foldl (λ sum v, u64 (sum + v)) 0 l.

Definition Sum (data : ChartUints) (s e : Z) : option Z :=
  if e <=? s then Some 0 else u64_sum <$> segment data s e.
Definition Avg (data : ChartUints) (s e : Z) : option Z :=
  if e <=? s then Some 0 else (λ l, u64_sum l / u64 (e - s)) <$> segment data s e.

Definition zoom_Snip (length : Z) (set : zoomSet) : zoomSet :=
  let length := if length <? 0 then 0 else length in
  mkZoom (cacheID set) (snip length (Height set)) (snip length (Time set))
    (snip length (PoolSize set)) (snip length (PoolValue set)) (snip length (BlockSize set))
    (snip length (TxCount set)) (snip length (NewAtoms set)) (snip length (Chainwork set))
    (snip length (Fees set)) (snip length (TotalMixed set)) (snip length (AnonymitySet set)).

Definition window_Snip (length : Z) (set : windowSet) : windowSet :=
  let length := if length <? 0 then 0 else length in
  mkWindow (w_cacheID set) (snip length (w_Time set)) (snip length (w_Height set))
    (snip length (PowDiff set)) (snip length (TicketPrice set)) (snip length (StakeCount set))
    (snip length (MissedVotes set)) (StakeCountVersion set).

(** ** Lengths *)
(** [ValidateLengths] over the lengths of its arguments: a length, and whether
    the error is non-nil. *)
Definition ValidateLengths (lens : list Z) : Z * bool :=
  match lens with
  | [] => (0, false)
  | firstLen :: rest =>
    let '(shortest, longest) :=
      foldl (λ '(shortest, longest) dLen,
        if negb (dLen =? firstLen) then
          if dLen <? shortest then (dLen, longest)
          else if longest <? dLen then (shortest, dLen) else (shortest, longest)
        else (shortest, longest)) (firstLen, firstLen) rest in
    if negb (shortest =? longest) then (shortest, true) else (firstLen, false)
  end.

Definition zoom_lens (z : zoomSet) : list Z :=
  [zlen (Height z); zlen (Time z); zlen (PoolSize z); zlen (PoolValue z); zlen (BlockSize z);
   zlen (TxCount z); zlen (NewAtoms z); zlen (Chainwork z); zlen (Fees z); zlen (TotalMixed z);
   zlen (AnonymitySet z)].
Definition window_lens (w : windowSet) : list Z :=
  [zlen (w_Time w); zlen (PowDiff w); zlen (TicketPrice w); zlen (StakeCount w);
   zlen (MissedVotes w); zlen (w_Height w)].

Definition midnight (t : Z) : Z := if 0 <? t then t - t mod aDay else 0.

(** ** Day bins *)
(** The index of the first stamp after [start], or 0. *)
Fixpoint find_offset (times : list Z) (start i : Z) : Z :=
  match times with
  | [] => 0
  | t :: rest => if start <? t then i else find_offset rest start (i + 1)
  end.

(** The loop over [blocks.Time[offset:]]: intervals (relative to the slice)
    and the day stamps that are appended. *)
Fixpoint day_loop (times : list Z) (i start next startIdx end_ : Z)
    : list (Z * Z) * list Z :=
  match times with
  | [] => ([], [])
  | t :: rest =>
    if next <=? t then
      let '(ivs, ds) :=
        if end_ <? t then ([], [])
        else day_loop rest (i + 1) next (u64 (next + aDay)) i end_ in
      ((startIdx, i) :: ivs, start :: ds)
    else day_loop rest (i + 1) start next startIdx end_
  end.

Definition shift (offset : Z) (iv : Z * Z) : Z * Z := (fst iv + offset, snd iv + offset).

(** The entries appended for one interval; [None] is a slice or index panic. *)
Definition append_day (blocks : zoomSet) (iv : Z * Z) (days : zoomSet) : option zoomSet :=
  let '(s, e) := iv in
  ps ← Avg (PoolSize blocks) s e;
  pv ← Avg (PoolValue blocks) s e;
  bs ← Sum (BlockSize blocks) s e;
  tc ← Sum (TxCount blocks) s e;
  na ← Sum (NewAtoms blocks) s e;
  cw ← slice_at (Chainwork blocks) e;
  fs ← Sum (Fees blocks) s e;
  tm ← Sum (TotalMixed blocks) s e;
  an ← Avg (AnonymitySet blocks) s e;
  Some (mkZoom (cacheID days) (Height days ++ [u64 (e - 1)]) (Time days)
    (PoolSize days ++ [ps]) (PoolValue days ++ [pv]) (BlockSize days ++ [bs])
    (TxCount days ++ [tc]) (NewAtoms days ++ [na]) (Chainwork days ++ [cw])
    (Fees days ++ [fs]) (TotalMixed days ++ [tm]) (AnonymitySet days ++ [an])).

Fixpoint append_days (blocks : zoomSet) (ivs : list (Z * Z)) (days : zoomSet) : option zoomSet :=
  match ivs with
  | [] => Some days
  | iv :: rest => days' ← append_day blocks iv days; append_days blocks rest days'
  end.

Definition set_Time (ts : list Z) (z : zoomSet) : zoomSet :=
  mkZoom (cacheID z) (Height z) ts (PoolSize z) (PoolValue z) (BlockSize z) (TxCount z)
    (NewAtoms z) (Chainwork z) (Fees z) (TotalMixed z) (AnonymitySet z).
Definition set_cacheID (id : Z) (z : zoomSet) : zoomSet :=
  mkZoom id (Height z) (Time z) (PoolSize z) (PoolValue z) (BlockSize z) (TxCount z)
    (NewAtoms z) (Chainwork z) (Fees z) (TotalMixed z) (AnonymitySet z).
Definition set_w_cacheID (id : Z) (w : windowSet) : windowSet :=
  mkWindow id (w_Time w) (w_Height w) (PowDiff w) (TicketPrice w) (StakeCount w)
    (MissedVotes w) (StakeCountVersion w).

(** Where the new days start and the intervals of blocks they cover. *)
Definition new_start (blocks days : zoomSet) : Z :=
  match last (Time days) with
  | Some d => u64 (d + aDay)
  | None => midnight (default 0 (head (Time blocks)))
  end.
Definition new_end (blocks : zoomSet) : Z := midnight (default 0 (last (Time blocks))).

Definition new_days (blocks days : zoomSet) : list (Z * Z) * list Z :=
  let start := new_start blocks days in
  let end_ := new_end blocks in
  let offset := find_offset (Time blocks) start 0 in
  if u64 (start + aDay) <? end_ then
    let '(ivs, ds) := day_loop (drop (Z.to_nat offset) (Time blocks)) 0 start (u64 (start + aDay)) 0 end_ in
    (shift offset <$> ivs, ds)
  else ([], []).

Inductive ChartErr := EZeroWindows | EDayMismatch.

Definition set_Blocks (z : zoomSet) (c : ChartData) := mkCharts z (Windows c) (Days c) (MinerRanges c).
Definition set_Windows (w : windowSet) (c : ChartData) := mkCharts (Blocks c) w (Days c) (MinerRanges c).
Definition set_Days (z : zoomSet) (c : ChartData) := mkCharts (Blocks c) (Windows c) z (MinerRanges c).

Definition Lengthen : goM ChartData ChartErr unit := λ c,
  let '(shortest, err) := ValidateLengths (zoom_lens (Blocks c)) in
  let c := if err : bool then set_Blocks (zoom_Snip shortest (Blocks c)) c else c in
  if shortest =? 0 then (Ok tt, c) else
  let '(shortest, err) := ValidateLengths (window_lens (Windows c)) in
  let c := if err : bool then set_Windows (window_Snip shortest (Windows c)) c else c in
  if shortest =? 0 then (Err EZeroWindows, c) else
  let blocks := Blocks c in
  let '(intervals, stamps) := new_days blocks (Days c) in
  match append_days blocks intervals (set_Time (Time (Days c) ++ stamps) (Days c)) with
  | None => (Panic, c)
  | Some days =>
    let c := set_Days days c in
    let '(daysLen, err) := ValidateLengths (zoom_lens days) in
    if err : bool then (Err EDayMismatch, c) else
    let c := if bool_decide (intervals = []) then c else set_Days (set_cacheID (u64 (cacheID days + 1)) days) c in
    match last (Time blocks), last (w_Time (Windows c)) with
    | Some bt, Some wt =>
      let c := set_Blocks (set_cacheID bt blocks) c in
      (Ok tt, set_Windows (set_w_cacheID
        (Z.lor (u64 (Z.shiftl wt 32)) (StakeCountVersion (Windows c))) (Windows c)) c)
    | _, _ => (Panic, c)
    end
  end.

(** ** Reorganization *)
(** The first window that starts after the common ancestor, or their number. *)
Fixpoint keep_windows (heights : list Z) (ancestor i : Z) : option Z :=
  match heights with
  | [] => None
  | h :: rest => if ancestor <? i64 h then Some i else keep_windows rest ancestor (i + 1)
  end.

(** [newChainHeight] and the length of the new chain are what the handler
    reads of the ReorgData. *)
Definition ReorgHandler (newChainHeight newChainLen : Z) (c : ChartData) : ChartData :=
  let commonAncestorHeight := newChainHeight - newChainLen in
  let newHeight := commonAncestorHeight + 1 in
  let c := set_Blocks (zoom_Snip newHeight (Blocks c)) c in
  let daysLen := zlen (Time (Days c)) - 2 in
  let daysLen := if daysLen <? 1 then 1 else daysLen in
  let c := set_Days (zoom_Snip daysLen (Days c)) c in
  let keepWindows := default (zlen (w_Height (Windows c)))
    (keep_windows (w_Height (Windows c)) commonAncestorHeight 0) in
  if keepWindows <? zlen (w_Height (Windows c))
  then set_Windows (window_Snip keepWindows (Windows c)) c else c.

(** ** Lengths of series *)
Lemma zlen_snip {A} m (l : list A) : 0 <= m → zlen (snip m l) = Z.min m (zlen l).
Proof.
  intros Hm. unfold snip. pose proof (zlen_nonneg l). unfold zlen in *. rewrite length_take.
  destruct (Z.ltb_spec (Z.of_nat (length l)) m); lia.
Qed.

(** All series of a set have length [n]. *)
Definition zoom_n (n : Z) (z : zoomSet) : Prop := Forall (λ l, l = n) (zoom_lens z).
Definition window_n (n : Z) (w : windowSet) : Prop := Forall (λ l, l = n) (window_lens w).

Lemma zoom_n_intro n z :
  zlen (Height z) = n → zlen (Time z) = n → zlen (PoolSize z) = n → zlen (PoolValue z) = n →
  zlen (BlockSize z) = n → zlen (TxCount z) = n → zlen (NewAtoms z) = n → zlen (Chainwork z) = n →
  zlen (Fees z) = n → zlen (TotalMixed z) = n → zlen (AnonymitySet z) = n → zoom_n n z.
Proof. intros. unfold zoom_n, zoom_lens. by repeat constructor. Qed.

Lemma zoom_n_elim n z :
  zoom_n n z →
  zlen (Height z) = n ∧ zlen (Time z) = n ∧ zlen (PoolSize z) = n ∧ zlen (PoolValue z) = n ∧
  zlen (BlockSize z) = n ∧ zlen (TxCount z) = n ∧ zlen (NewAtoms z) = n ∧ zlen (Chainwork z) = n ∧
  zlen (Fees z) = n ∧ zlen (TotalMixed z) = n ∧ zlen (AnonymitySet z) = n.
Proof. unfold zoom_n, zoom_lens. rewrite !Forall_cons. tauto. Qed.

Lemma ValidateLengths_spec lens :
  lens ≠ [] →
  let '(shortest, err) := ValidateLengths lens in
  shortest ∈ lens ∧ (∀ l, l ∈ lens → shortest <= l) ∧ (err = false → Forall (λ l, l = shortest) lens).
Proof.
  destruct lens as [|f rest]; [done|]. intros _. unfold ValidateLengths.
  assert (∀ sh lo, sh ∈ f :: rest → sh <= f <= lo →
    let '(s', l') := foldl (λ '(shortest, longest) dLen, if negb (dLen =? f) then
          if dLen <? shortest then (dLen, longest)
          else if longest <? dLen then (shortest, dLen) else (shortest, longest)
        else (shortest, longest)) (sh, lo) rest in
    s' ∈ f :: rest ∧ s' <= sh ∧ lo <= l' ∧ ∀ l, l ∈ rest → s' <= l <= l') as Hfold.
  { assert (∀ l, l ∈ rest → l ∈ f :: rest) as Hin by (intros; by right). revert Hin.
    generalize (f :: rest) as all. intros all Hin.
    induction rest as [|d rest IH]; intros sh lo Hsh Hlo; cbn [foldl].
    { split; [done|]. split; [lia|]. split; [lia|]. by intros l ?%not_elem_of_nil. }
    set (p := if negb (d =? f) then _ else _).
    assert (∃ s1 l1, p = (s1, l1) ∧ s1 ∈ all ∧ s1 <= sh ∧ lo <= l1 ∧ s1 <= d <= l1 ∧ s1 <= f <= l1)
      as (s1 & l1 & -> & H1 & H2 & H3 & H4 & H5).
    { unfold p. destruct (Z.eqb_spec d f) as [->|]; cbn [negb]; [exists sh, lo; split_and!; try done; lia|].
      destruct (Z.ltb_spec d sh); [exists d, lo; split_and!; try done; [apply Hin; left|lia..]|].
      destruct (Z.ltb_spec lo d); [exists sh, d|exists sh, lo]; split_and!; try done; lia. }
    specialize (IH (λ l Hl, Hin l (list_elem_of_further _ _ _ Hl)) s1 l1 H1 H5).
    destruct (foldl _ (s1, l1) rest) as [s2 l2]. destruct IH as (G1 & G2 & G3 & G4).
    split; [done|]. split; [lia|]. split; [lia|]. intros l [->|Hl]%elem_of_cons; [lia|by apply G4]. }
  specialize (Hfold f f (list_elem_of_here _ _) ltac:(lia)).
  destruct (foldl _ (f, f) rest) as [s' l']. destruct Hfold as (H1 & H2 & H3 & H4).
  destruct (Z.eqb_spec s' l') as [->|Hne]; cbn [negb].
  - assert (f = l') as <- by lia. split; [left|]. split.
    + intros l [->|Hl]%elem_of_cons; [lia|]. by apply H4.
    + intros _. constructor; [done|]. apply Forall_forall. intros l Hl. specialize (H4 l Hl). lia.
  - split; [done|]. split; [|done]. intros l [->|Hl]%elem_of_cons; [lia|]. by apply H4.
Qed.

(** Cutting a set to the shortest length when there is a mismatch makes all
    lengths equal. *)
Lemma zoom_validate z :
  let '(n, err) := ValidateLengths (zoom_lens z) in
  0 <= n ∧ (∀ l, l ∈ zoom_lens z → n <= l) ∧ n ∈ zoom_lens z ∧
  zoom_n n (if err : bool then zoom_Snip n z else z).
Proof.
  pose proof (ValidateLengths_spec (zoom_lens z)) as Hv.
  destruct (ValidateLengths (zoom_lens z)) as [n err]. destruct Hv as (Hin & Hle & Heq); [done|].
  assert (0 <= n) as Hn.
  { clear -Hin. unfold zoom_lens in Hin. rewrite !elem_of_cons, elem_of_nil in Hin.
    destruct_or? Hin; subst; try apply zlen_nonneg; done. }
  split_and!; try done. destruct err; [|by apply Heq].
  assert (∀ l, l ∈ zoom_lens z → Z.min n l = n) as Hmin by (intros l Hl; specialize (Hle l Hl); lia).
  unfold zoom_Snip. destruct (Z.ltb_spec n 0); [lia|].
  apply zoom_n_intro; cbn; rewrite zlen_snip by done; apply Hmin; unfold zoom_lens; rewrite !elem_of_cons; tauto.
Qed.

Lemma window_validate w :
  let '(n, err) := ValidateLengths (window_lens w) in
  0 <= n ∧ (∀ l, l ∈ window_lens w → n <= l) ∧ n ∈ window_lens w ∧
  window_n n (if err : bool then window_Snip n w else w).
Proof.
  pose proof (ValidateLengths_spec (window_lens w)) as Hv.
  destruct (ValidateLengths (window_lens w)) as [n err]. destruct Hv as (Hin & Hle & Heq); [done|].
  assert (0 <= n) as Hn.
  { clear -Hin. unfold window_lens in Hin. rewrite !elem_of_cons, elem_of_nil in Hin.
    destruct_or? Hin; subst; try apply zlen_nonneg; done. }
  split_and!; try done. destruct err; [|by apply Heq].
  assert (∀ l, l ∈ window_lens w → Z.min n l = n) as Hmin by (intros l Hl; specialize (Hle l Hl); lia).
  unfold window_Snip. destruct (Z.ltb_spec n 0); [lia|]. unfold window_n, window_lens. cbn.
  repeat (apply Forall_cons; split; [rewrite zlen_snip by done; apply Hmin; unfold window_lens; set_solver|]).
  constructor.
Qed.

(** ** The day intervals *)
(** Consecutive intervals starting at [s0]. *)
Fixpoint chained (s0 : Z) (ivs : list (Z * Z)) : Prop :=
  match ivs with
  | [] => True
  | (s, e) :: rest => s = s0 ∧ s <= e ∧ chained e rest
  end.

Lemma day_loop_shape ts i start next startIdx end_ :
  startIdx <= i →
  let '(ivs, ds) := day_loop ts i start next startIdx end_ in
  length ivs = length ds ∧ chained startIdx ivs ∧
  Forall (λ iv, startIdx <= fst iv ∧ snd iv < i + zlen ts) ivs.
Proof.
  revert i start next startIdx. induction ts as [|t ts IH]; intros i start next startIdx Hi; cbn [day_loop]; [done|].
  assert (zlen (t :: ts) = 1 + zlen ts) as Hlen by (unfold zlen; cbn [length]; lia).
  destruct (next <=? t).
  - destruct (end_ <? t).
    + split; [done|]. split; [split; [done|split; [lia|done]]|]. constructor; [|done]. cbn.
      pose proof (zlen_nonneg ts). lia.
    + specialize (IH (i + 1) next (u64 (next + aDay)) i ltac:(lia)).
      destruct (day_loop ts _ _ _ _ _) as [ivs ds]. destruct IH as (H1 & H2 & H3).
      split; [cbn; by rewrite H1|]. split; [split; [done|split; [lia|done]]|].
      constructor; [cbn; pose proof (zlen_nonneg ts); lia|].
      eapply Forall_impl; [exact H3|]. intros [s e]. cbn. lia.
  - specialize (IH (i + 1) start next startIdx ltac:(lia)).
    destruct (day_loop ts _ _ _ _ _) as [ivs ds]. destruct IH as (H1 & H2 & H3).
    split; [done|]. split; [done|]. eapply Forall_impl; [exact H3|]. intros [s e]. cbn. lia.
Qed.

Lemma find_offset_spec ts start i :
  0 <= i → 
  find_offset ts start i = 0 ∧ Forall (λ t, t <= start) ts ∨
  ∃ k t, ts !! k = Some t ∧ find_offset ts start i = i + Z.of_nat k ∧ start < t ∧
    Forall (λ t, t <= start) (take k ts).
Proof.
  revert i. induction ts as [|t ts IH]; intros i Hi; cbn; [by left|].
  destruct (Z.ltb_spec start t) as [Hlt|Hge].
  - right. exists 0%nat, t. split_and!; [done|lia|done|constructor].
  - destruct (IH (i + 1)) as [[H1 H2]|(k & t' & H1 & H2 & H3 & H4)]; [lia| |].
    + left. split; [done|]. by constructor.
    + right. exists (S k), t'. split_and!; [done|lia|done|by constructor].
Qed.

Lemma chained_shift off s0 ivs : chained s0 ivs → chained (s0 + off) (shift off <$> ivs).
Proof.
  revert s0. induction ivs as [|[s e] ivs IH]; intros s0; cbn; [done|].
  intros (-> & Hle & Hc). split; [done|]. split; [lia|by apply IH].
Qed.

(** The new intervals lie inside the block series and follow one another. *)
Lemma find_offset_bounds times start :
  0 <= find_offset times start 0 ∧ (Z.to_nat (find_offset times start 0) <= length times)%nat.
Proof.
  destruct (find_offset_spec times start 0) as [[E _]|(k & t & Hk & E & _)]; [lia| |]; rewrite E; [lia|].
  apply lookup_lt_Some in Hk. lia.
Qed.

Lemma new_days_shape blocks days :
  let off := find_offset (Time blocks) (new_start blocks days) 0 in
  let '(ivs, ds) := new_days blocks days in
  length ivs = length ds ∧ 0 <= off ∧ chained off ivs ∧
  Forall (λ iv, off <= fst iv ∧ snd iv < zlen (Time blocks)) ivs.
Proof.
  intros off. destruct (find_offset_bounds (Time blocks) (new_start blocks days)) as [Hoff Hlen].
  unfold new_days. fold off. fold off in Hoff, Hlen. destruct (_ <? _); [|done].
  pose proof (day_loop_shape (drop (Z.to_nat off) (Time blocks)) 0 (new_start blocks days)
    (u64 (new_start blocks days + aDay)) 0 (new_end blocks) ltac:(lia)) as Hs.
  destruct (day_loop _ _ _ _ _ _) as [ivs ds]. destruct Hs as (H1 & H2 & H3).
  split; [by rewrite length_fmap|]. split; [done|]. split.
  - replace off with (0 + off) at 1 by lia. by apply chained_shift.
  - apply Forall_fmap. eapply Forall_impl; [exact H3|]. intros [s e]. cbn.
    unfold zlen. rewrite length_drop. lia.
Qed.

(** ** Appending the new days *)
Lemma segment_Some {A} (l : list A) s e :
  0 <= s → s <= e → e <= zlen l → segment l s e = Some (take (Z.to_nat (e - s)) (drop (Z.to_nat s) l)).
Proof.
  intros. unfold segment. destruct (Z.leb_spec 0 s), (Z.leb_spec s e), (Z.leb_spec e (zlen l)); try lia; done.
Qed.

(** The blocks of an interval. *)
Definition between {A} (l : list A) (s e : Z) : list A := take (Z.to_nat (e - s)) (drop (Z.to_nat s) l).

Lemma Sum_Some l s e : 0 <= s → s <= e → e <= zlen l → Sum l s e = Some (u64_sum (between l s e)).
Proof.
  intros. unfold Sum. destruct (Z.leb_spec e s).
  - assert (e = s) as -> by lia. unfold between. by rewrite Z.sub_diag.
  - by rewrite segment_Some.
Qed.
(** What is appended for an interval: the sum or the average of its blocks, the
    index of its last block, or the value at the block after it. *)
Definition day_sum (l : list Z) (s e : Z) : Z := u64_sum (between l s e).
Definition day_avg (l : list Z) (s e : Z) : Z := if e <=? s then 0 else u64_sum (between l s e) / u64 (e - s).
Definition day_height (l : list Z) (s e : Z) : Z := u64 (e - 1).
Definition day_next (l : list Z) (s e : Z) : Z := default 0 (slice_at l e).

Lemma Avg_Some l s e : 0 <= s → s <= e → e <= zlen l → Avg l s e = Some (day_avg l s e).
Proof. intros. unfold Avg, day_avg. destruct (Z.leb_spec e s); [done|]. by rewrite segment_Some. Qed.

(** All series of a day but the stamps. *)
Definition day_lens (z : zoomSet) : list Z :=
  [zlen (Height z); zlen (PoolSize z); zlen (PoolValue z); zlen (BlockSize z);
   zlen (TxCount z); zlen (NewAtoms z); zlen (Chainwork z); zlen (Fees z); zlen (TotalMixed z);
   zlen (AnonymitySet z)].
(** The summed series; each series with what is appended to it. *)
Definition summed : list (zoomSet → ChartUints) := [BlockSize; TxCount; NewAtoms; Fees; TotalMixed].
Definition binned : list ((zoomSet → list Z) * (list Z → Z → Z → Z)) :=
  [(Height, day_height); (Chainwork, day_next); (PoolSize, day_avg); (PoolValue, day_avg); (AnonymitySet, day_avg);
   (BlockSize, day_sum); (TxCount, day_sum); (NewAtoms, day_sum); (Fees, day_sum); (TotalMixed, day_sum)].
Lemma summed_binned f : f ∈ summed → (f, day_sum) ∈ binned.
Proof. unfold summed, binned. rewrite !elem_of_cons, elem_of_nil. intros Hf. destruct_or? Hf; subst; tauto. Qed.
Lemma binned_cases (P : (zoomSet → list Z) → (list Z → Z → Z → Z) → Prop) :
  P Height day_height → P Chainwork day_next → Forall (λ f, P f day_avg) [PoolSize; PoolValue; AnonymitySet] → Forall (λ f, P f day_sum) summed →
  ∀ f g, (f, g) ∈ binned → P f g.
Proof.
  unfold summed, binned. rewrite !Forall_cons. intros H1 H2 (H3 & H4 & H5 & _) (H6 & H7 & H8 & H9 & H10 & _) f g. rewrite !elem_of_cons, elem_of_nil.
  intros Hf. destruct_or? Hf; injection Hf as -> ->; done.
Qed.

Lemma append_day_spec blocks s e n m days :
  zoom_n n blocks → 0 <= s → s <= e → e < n → Forall (λ l, l = m) (day_lens days) →
  ∃ days', append_day blocks (s, e) days = Some days' ∧ Forall (λ l, l = m + 1) (day_lens days') ∧
    Time days' = Time days ∧ cacheID days' = cacheID days ∧
    ∀ f g, (f, g) ∈ binned → f days' = f days ++ [g (f blocks) s e].
Proof.
  intros Hz Hs Hse Hen Hd. apply zoom_n_elim in Hz as (H1 & H2 & H3 & H4 & H5 & H6 & H7 & H8 & H9 & H10 & H11).
  destruct (slice_at_Some (Chainwork blocks) e) as [x4 E4]; [lia|].
  unfold append_day. rewrite !Avg_Some, !Sum_Some by lia. cbn. rewrite E4. cbn.
  eexists. split; [done|]. split; [|split; [done|split; [done|]]].
  - unfold day_lens in *. cbn. rewrite !zlen_app. rewrite !Forall_cons in Hd |- *. cbn.
    destruct_and! Hd. repeat match goal with H : _ = m |- _ => rewrite H end. done.
  - apply binned_cases; [done| |by repeat constructor..]. cbn. unfold day_next. by rewrite E4.
Qed.

Lemma append_days_spec blocks ivs off n m days :
  zoom_n n blocks → 0 <= off → chained off ivs →
  Forall (λ iv, off <= fst iv ∧ snd iv < n) ivs → Forall (λ l, l = m) (day_lens days) →
  ∃ days', append_days blocks ivs days = Some days' ∧
    Forall (λ l, l = m + zlen ivs) (day_lens days') ∧
    Time days' = Time days ∧ cacheID days' = cacheID days ∧
    ∀ f g, (f, g) ∈ binned → f days' = f days ++ ((λ iv, g (f blocks) (fst iv) (snd iv)) <$> ivs).
Proof.
  intros Hz. revert off m days. induction ivs as [|[s e] ivs IH]; intros off m days Hoff Hc Hb Hd.
  - exists days. split; [done|]. split.
    { change (zlen []) with 0. by rewrite Z.add_0_r. }
    do 2 (split; [done|]). intros f g _. by rewrite app_nil_r.
  - destruct Hc as (-> & Hse & Hc). apply Forall_cons in Hb as [[_ Hen] Hb]. cbn in Hen.
    destruct (append_day_spec blocks off e n m days) as (d1 & E1 & L1 & T1 & C1 & S1); [done..|].
    destruct (IH e (m + 1) d1) as (d2 & E2 & L2 & T2 & C2 & S2); [lia|done| |done|].
    { clear -Hc Hb. revert e Hc. induction ivs as [|[s' e'] ivs IH]; intros e Hc; [constructor|].
      destruct Hc as (-> & Hle & Hc). apply Forall_cons in Hb as [[_ H2] Hb]. constructor; [cbn in *; lia|].
      eapply Forall_impl; [by apply IH|]. intros [a b]. cbn. lia. }
    exists d2. cbn [append_days]. rewrite E1. cbn. rewrite E2. split; [done|]. split.
    { replace (m + zlen ((off, e) :: ivs)) with (m + 1 + zlen ivs); [done|]. unfold zlen. cbn [length]. lia. }
    split; [congruence|]. split; [congruence|]. intros f g Hf.
    rewrite (S2 f g), (S1 f g), <- app_assoc by done. done.
Qed.

(** ** Lengthen *)
Lemma day_lens_zoom n z : zoom_n n z ↔ zlen (Time z) = n ∧ Forall (λ l, l = n) (day_lens z).
Proof. unfold zoom_n, zoom_lens, day_lens. rewrite !Forall_cons. tauto. Qed.

Lemma ValidateLengths_equal z n m b :
  zoom_n n z → ValidateLengths (zoom_lens z) = (m, b) → b = true → False.
Proof.
  intros Hz E ->. unfold zoom_n, zoom_lens in *. apply Forall_cons in Hz as [H1 Hz].
  unfold ValidateLengths in E. rewrite H1 in E. revert E.
  assert (∀ l, Forall (λ l, l = n) l → foldl (λ '(shortest, longest) dLen, if negb (dLen =? n) then
          if dLen <? shortest then (dLen, longest)
          else if longest <? dLen then (shortest, dLen) else (shortest, longest)
        else (shortest, longest)) (n, n) l = (n, n)) as Hf.
  { intros l Hl. induction Hl as [|x l -> _ IH]; [done|]. cbn [foldl]. by rewrite Z.eqb_refl. }
  rewrite Hf by done. rewrite Z.eqb_refl. done.
Qed.

(** The same set up to its cache id. *)
Definition day_eq (z1 z2 : zoomSet) : Prop :=
  Time z1 = Time z2 ∧ zoom_lens z1 = zoom_lens z2 ∧ ∀ f g, (f, g) ∈ binned → f z1 = f z2.
Lemma day_eq_set_cacheID id z : day_eq (set_cacheID id z) z.
Proof.
  split; [done|]. split; [done|]. by apply binned_cases; repeat constructor.
Qed.
Lemma binned_set_Time ts z f g : (f, g) ∈ binned → f (set_Time ts z) = f z.
Proof. revert f g. by apply binned_cases; repeat constructor. Qed.
Lemma zoom_n_eq n z1 z2 : day_eq z1 z2 → zoom_n n z2 → zoom_n n z1.
Proof. intros (_ & E & _). unfold zoom_n. by rewrite E. Qed.

Lemma last_nonempty {A} (l : list A) : l ≠ [] → ∃ x, last l = Some x.
Proof. destruct l as [|x l] using rev_ind; [done|]. intros _. exists x. apply last_snoc. Qed.

(** What [Lengthen] does when blocks and windows are not empty: lengths are
    repaired and the new days are appended. *)
Lemma Lengthen_spec c n w d :
  ValidateLengths (zoom_lens (Blocks c)) = n → ValidateLengths (window_lens (Windows c)) = w →
  fst n ≠ 0 → fst w ≠ 0 → zoom_n d (Days c) →
  let blocks := if snd n then zoom_Snip (fst n) (Blocks c) else Blocks c in
  let '(ivs, ds) := new_days blocks (Days c) in
  ∃ c', Lengthen c = (Ok tt, c') ∧
    (∃ id, Blocks c' = set_cacheID id blocks) ∧ zoom_n (fst n) (Blocks c') ∧
    window_n (fst w) (Windows c') ∧ zoom_n (d + zlen ivs) (Days c') ∧
    Time (Days c') = Time (Days c) ++ ds ∧
    (∀ f g, (f, g) ∈ binned → f (Days c') = f (Days c) ++ ((λ iv, g (f blocks) (fst iv) (snd iv)) <$> ivs)) ∧
    MinerRanges c' = MinerRanges c.
Proof.
  intros En Ew Hn Hw Hd blocks.
  pose proof (zoom_validate (Blocks c)) as Hb. rewrite En in Hb. destruct n as [n err]. cbn [fst snd] in *.
  destruct Hb as (Hn0 & _ & _ & Hb). fold blocks in Hb.
  pose proof (window_validate (Windows c)) as Hwin. rewrite Ew in Hwin. destruct w as [w werr]. cbn [fst snd] in *.
  destruct Hwin as (Hw0 & _ & _ & Hwin). set (wins := if werr then _ else _) in Hwin.
  pose proof (new_days_shape blocks (Days c)) as Hnd. destruct (new_days blocks (Days c)) as [ivs ds] eqn:End.
  destruct Hnd as (Hlen & Hoff & Hch & Hin). set (off := find_offset _ _ _) in *.
  apply day_lens_zoom in Hd as [Ht Hd].
  assert (zlen (Time blocks) = n) as Htb by (by apply day_lens_zoom in Hb as [? _]).
  rewrite Htb in Hin.
  destruct (append_days_spec blocks ivs off n d (set_Time (Time (Days c) ++ ds) (Days c)))
    as (days & Ea & La & Ta & Ca & Sa); [done..|].
  assert (zoom_n (d + zlen ivs) days) as Hdz.
  { apply day_lens_zoom. split; [|done]. rewrite Ta. cbn. rewrite zlen_app, Ht. unfold zlen. rewrite Hlen. lia. }
  unfold Lengthen. rewrite En. destruct (Z.eqb_spec n 0) as [|_]; [done|].
  set (c1 := if err then set_Blocks (zoom_Snip n (Blocks c)) c else c).
  assert (Blocks c1 = blocks ∧ Windows c1 = Windows c ∧ Days c1 = Days c ∧ MinerRanges c1 = MinerRanges c)
    as (B1 & W1 & D1 & M1) by (unfold c1, blocks; by destruct err).
  rewrite W1, Ew. destruct (Z.eqb_spec w 0) as [|_]; [done|].
  set (c2 := if werr then set_Windows (window_Snip w (Windows c)) c1 else c1).
  assert (Blocks c2 = blocks ∧ Windows c2 = wins ∧ Days c2 = Days c ∧ MinerRanges c2 = MinerRanges c)
    as (B2 & W2 & D2 & M2) by (unfold c2, wins; by destruct werr).
  rewrite B2, D2, End, Ea. pose proof (zoom_validate days) as Hv.
  destruct (ValidateLengths (zoom_lens days)) as [dl derr] eqn:Ed. destruct Hv as (_ & _ & _ & Hv).
  destruct derr; [exfalso; by apply (ValidateLengths_equal _ _ _ _ Hdz Ed)|].
  set (days' := if bool_decide (ivs = []) then days else set_cacheID (u64 (cacheID days + 1)) days).
  set (c3 := if bool_decide (ivs = []) then set_Days days c2 else _).
  assert (Blocks c3 = blocks ∧ Windows c3 = wins ∧ Days c3 = days' ∧ MinerRanges c3 = MinerRanges c)
    as (B3 & W3 & D3 & M3) by (unfold c3, days'; by destruct (bool_decide _)).
  assert (day_eq days' days) as Hdays by (unfold days'; destruct (bool_decide _); [done|apply day_eq_set_cacheID]).
  destruct (last_nonempty (Time blocks)) as [bt ->]; [unfold zlen in Htb; destruct (Time blocks); [cbn in Htb; lia|done]|].
  rewrite W3. destruct (last_nonempty (w_Time wins)) as [wt ->].
  { unfold window_n, window_lens in Hwin. apply Forall_cons in Hwin as [Hwt _]. unfold zlen in Hwt.
    destruct (w_Time wins); [cbn in Hwt; lia|done]. }
  eexists. split; [reflexivity|]. cbn [Blocks Windows Days MinerRanges set_Windows set_Blocks]. rewrite D3, M3.
  split; [by eexists|]. split; [exact Hb|]. split; [rewrite W3; exact Hwin|].
  split; [by eapply zoom_n_eq|]. split; [by rewrite (proj1 Hdays), Ta|]. split; [|done].
  intros f g Hf. rewrite (proj2 (proj2 Hdays) f g Hf), (Sa f g) by done. by rewrite (binned_set_Time _ _ f g).
Qed.

(** Lengthen repairs the lengths and never panics.  When the day series
    agree, then whatever the lengths of the block and window series are, the
    call returns: the block series are cut to the shortest of them, the window
    series likewise, the day series still agree, and the only error is that of
    empty window data. *)
Theorem Lengthen_lengths c d :
  zoom_n d (Days c) →
  let n := fst (ValidateLengths (zoom_lens (Blocks c))) in
  let w := fst (ValidateLengths (window_lens (Windows c))) in
  ∃ c', Lengthen c = (if (n =? 0) || negb (w =? 0) then Ok tt else Err EZeroWindows, c') ∧
    (n ∈ zoom_lens (Blocks c) ∧ ∀ l, l ∈ zoom_lens (Blocks c) → n <= l) ∧
    zoom_n n (Blocks c') ∧ (n ≠ 0 → window_n w (Windows c')) ∧
    ∃ d', d <= d' ∧ zoom_n d' (Days c').
Proof.
  intros Hd n w. pose proof (zoom_validate (Blocks c)) as Hb. pose proof (window_validate (Windows c)) as Hw.
  unfold n, w. destruct (ValidateLengths (zoom_lens (Blocks c))) as [n0 err] eqn:En.
  destruct (ValidateLengths (window_lens (Windows c))) as [w0 werr] eqn:Ew. cbn [fst].
  destruct Hb as (_ & Hle & Hin & Hb), Hw as (_ & _ & _ & Hw).
  destruct (Z.eqb_spec n0 0) as [->|Hn0]; [|destruct (Z.eqb_spec w0 0) as [->|Hw0]]; cbn [orb negb].
  - unfold Lengthen. rewrite En. cbn. eexists. split; [done|]. split; [done|]. split; [by destruct err|].
    split; [done|]. exists d. split; [lia|by destruct err].
  - unfold Lengthen. rewrite En. destruct (Z.eqb_spec n0 0); [done|].
    assert (Windows (if err then set_Blocks (zoom_Snip n0 (Blocks c)) c else c) = Windows c) as -> by (by destruct err).
    rewrite Ew. cbn. eexists. split; [done|]. split; [done|].
    split; [by destruct err, werr|]. split; [intros _; by destruct err, werr|].
    exists d. split; [lia|by destruct err, werr].
  - pose proof (Lengthen_spec c _ _ d En Ew Hn0 Hw0 Hd) as Hs. cbn [fst snd] in Hs.
    destruct (new_days _ _) as [ivs ds]. destruct Hs as (c' & E & _ & H1 & H2 & H3 & _).
    exists c'. split; [done|]. split; [done|]. split; [done|]. split; [done|].
    exists (d + zlen ivs). pose proof (zlen_nonneg ivs). split; [lia|done].
Qed.

(** Adding up a series over intervals that follow one another. *)
Definition total (l : list Z) : Z := foldr Z.add 0 l.

Lemma total_app l1 l2 : total (l1 ++ l2) = total l1 + total l2.
Proof. unfold total. induction l1 as [|x l1 IH]; cbn; [done|]. rewrite IH. lia. Qed.

Lemma u64_sum_total l : u64_sum l = u64 (total l).
Proof.
  assert (∀ x, foldl (λ sum v, u64 (sum + v)) (u64 x) l = u64 (x + total l)) as H.
  { unfold total. induction l as [|v l IH]; intros x; cbn; [by rewrite Z.add_0_r|].
    unfold u64 in *. by rewrite wrap_u_add_idemp_l, IH, Z.add_assoc. }
  exact (H 0).
Qed.

Lemma u64_total_sums {A} (g : A → list Z) l : u64 (total ((λ x, u64_sum (g x)) <$> l)) = u64 (total (concat (g <$> l))).
Proof.
  induction l as [|x l IH]; cbn; [done|]. rewrite total_app.
  change (total (u64_sum (g x) :: ((λ x, u64_sum (g x)) <$> l))) with
    (u64_sum (g x) + total ((λ x, u64_sum (g x)) <$> l)).
  rewrite u64_sum_total. unfold u64 in *. rewrite wrap_u_add_idemp_l, !(Z.add_comm (total (g x))).
  by apply wrap_u_mod_eq.
Qed.

Lemma between_app {A} (l : list A) s m e :
  0 <= s → s <= m → m <= e → between l s m ++ between l m e = between l s e.
Proof.
  intros. unfold between. replace (Z.to_nat m) with (Z.to_nat s + Z.to_nat (m - s))%nat by lia.
  rewrite <- drop_drop. replace (Z.to_nat (e - s)) with (Z.to_nat (m - s) + Z.to_nat (e - m))%nat by lia.
  by rewrite take_take_drop.
Qed.

(** The end of a chain of intervals. *)
Definition chain_end (s0 : Z) (ivs : list (Z * Z)) : Z :=
  match last ivs with Some iv => snd iv | None => s0 end.

Lemma concat_chained {A} (l : list A) s0 ivs :
  0 <= s0 → chained s0 ivs →
  concat ((λ iv, between l (fst iv) (snd iv)) <$> ivs) = between l s0 (chain_end s0 ivs) ∧ s0 <= chain_end s0 ivs.
Proof.
  revert s0. induction ivs as [|[s e] ivs IH]; intros s0 H0 Hc.
  - cbn. unfold chain_end. cbn. unfold between. rewrite Z.sub_diag. split; [done|lia].
  - destruct Hc as (-> & Hle & Hc). destruct (IH e) as [E He]; [lia|done|].
    assert (chain_end s0 ((s0, e) :: ivs) = chain_end e ivs) as ->.
    { unfold chain_end. rewrite last_cons. by destruct (last ivs). }
    cbn [fmap list_fmap concat fst snd]. rewrite E, between_app by lia. split; [done|lia].
Qed.

(** ** The days of the blocks *)
(** Stamps that grow by less than a day, from [p] on. *)
Fixpoint steady (p : Z) (ts : list Z) : Prop :=
  match ts with
  | [] => True
  | t :: rest => p <= t < p + aDay ∧ steady t rest
  end.

Lemma steady_ge p ts : steady p ts → Forall (λ t, p <= t) ts.
Proof.
  revert p. induction ts as [|t ts IH]; intros p; cbn; [constructor|]. intros [Ht Hs].
  constructor; [lia|]. eapply Forall_impl; [by apply IH|]. cbn. lia.
Qed.

Lemma steady_drop p ts k t : steady p ts → ts !! k = Some t → steady t (drop (S k) ts).
Proof.
  revert p k. induction ts as [|x ts IH]; intros p k; [done|]. intros [_ Hs]. destruct k as [|k]; cbn.
  - intros [= ->]. by rewrite drop_0.
  - by apply (IH x).
Qed.

(** Every block of an interval is in the day that the interval is labelled
    with. *)
Definition in_day (times : list Z) (iv : Z * Z) (d : Z) : Prop :=
  ∀ j t, fst iv <= Z.of_nat j < snd iv → times !! j = Some t → d <= t < d + aDay.

Lemma day_loop_in_day ts : ∀ pre start startIdx p end_,
  let i := zlen pre in
  steady p ts → p < start + aDay → Forall (λ t, start <= t < 2 ^ 62) ts → 0 <= start < 2 ^ 62 →
  in_day (pre ++ ts) (startIdx, i) start → startIdx <= i →
  let '(ivs, ds) := day_loop ts i start (start + aDay) startIdx end_ in
  Forall2 (in_day (pre ++ ts)) ivs ds.
Proof.
  induction ts as [|t ts IH]; intros pre start startIdx p end_ i Hst Hp Hge Hrange Hin Hidx; cbn [day_loop].
  { constructor. }
  destruct Hst as [Ht Hst]. apply Forall_cons in Hge as [Htr Hge].
  assert (zlen (pre ++ [t]) = i + 1) as Ei by (unfold i; rewrite zlen_app; done).
  assert (pre ++ t :: ts = (pre ++ [t]) ++ ts) as Epre by (by rewrite <- app_assoc).
  assert (∀ j x, Z.of_nat j = i → (pre ++ t :: ts) !! j = Some x → x = t) as Hat.
  { intros j x Hj. unfold i, zlen in Hj. rewrite lookup_app_r by lia.
    replace (j - length pre)%nat with O by lia. by intros [= ->]. }
  destruct (Z.leb_spec (start + aDay) t) as [Hnext|Hsame].
  - assert (start + aDay < 2 ^ 62) as Hs1 by lia.
    assert (u64 (start + aDay + aDay) = start + aDay + aDay) as ->.
    { apply wrap_u_small. unfold aDay in *. lia. }
    destruct (end_ <? t); [by constructor|].
    assert (in_day ((pre ++ [t]) ++ ts) (i, i + 1) (start + aDay)) as Hin'.
    { intros j x Hj Hx. cbn in Hj. rewrite <- Epre in Hx. rewrite (Hat j x) by (done || lia). lia. }
    pose proof (IH (pre ++ [t]) (start + aDay) i t end_) as IH'. cbv zeta in IH'. rewrite Ei in IH'.
    specialize (IH' Hst ltac:(lia)). rewrite <- Epre in IH'.
    destruct (day_loop ts _ _ _ _ _) as [ivs ds]. constructor; [done|]. apply IH'.
    + pose proof (steady_ge _ _ Hst) as Hall. rewrite Forall_forall in Hge, Hall. apply Forall_forall.
      intros x Hx. specialize (Hge x Hx). specialize (Hall x Hx). cbn in *. lia.
    + unfold aDay in *. lia.
    + by rewrite Epre.
    + lia.
  - pose proof (IH (pre ++ [t]) start startIdx t end_) as IH'. cbv zeta in IH'. rewrite Ei, <- Epre in IH'.
    apply IH'; try done; try lia. intros j x Hj Hx. cbn in Hj.
    destruct (decide (Z.of_nat j = i)) as [Ej|Hne].
    + rewrite (Hat j x) by done. lia.
    + apply (Hin j x); [cbn; lia|done].
Qed.

Lemma in_day_shift times off iv d :
  0 <= off → 0 <= fst iv → in_day (drop (Z.to_nat off) times) iv d → in_day times (shift off iv) d.
Proof.
  intros Hoff Hiv Hin j t Hj Ht. unfold shift in Hj. cbn in Hj.
  apply (Hin (j - Z.to_nat off)%nat t); [lia|]. rewrite lookup_drop.
  by replace (Z.to_nat off + (j - Z.to_nat off))%nat with j by lia.
Qed.

Lemma midnight_spec t : 0 <= t → midnight t <= t < midnight t + aDay ∧ 0 <= midnight t.
Proof.
  intros Ht. unfold midnight, aDay. pose proof (Z.mod_pos_bound t 86400).
  pose proof (Z.mod_le t 86400). destruct (Z.ltb_spec 0 t); lia.
Qed.

(** The blocks of a day bin are blocks of that day.  If block times never
    go back and no two successive blocks are a day or more apart, then every
    block that a new bin covers lies in the 24 hours after the bin's stamp. *)
Theorem new_days_in_day blocks days t0 :
  head (Time blocks) = Some t0 → 0 <= t0 → steady t0 (Time blocks) →
  Forall (λ t, t < 2 ^ 62) (Time blocks) →
  (Time days = [] ∨ t0 <= new_start blocks days < 2 ^ 62) →
  let '(ivs, ds) := new_days blocks days in Forall2 (in_day (Time blocks)) ivs ds.
Proof.
  intros Hhd H0 Hst Hmax Hdays. unfold new_days. set (start := new_start blocks days) in *.
  pose proof (steady_ge _ _ Hst) as Hge.
  assert (0 <= start < 2 ^ 62 ∧ t0 < start + aDay) as [Hstart Ht0].
  { destruct Hdays as [E|?]; [|unfold aDay; lia]. unfold start, new_start. rewrite E, Hhd. cbn.
    pose proof (midnight_spec t0 H0). destruct (Time blocks); [done|]. injection Hhd as ->.
    apply Forall_cons in Hmax as [? _]. lia. }
  assert (u64 (start + aDay) = start + aDay) as -> by (apply wrap_u_small; unfold aDay; lia).
  destruct (Z.ltb_spec (start + aDay) (new_end blocks)) as [Hend|]; [|constructor].
  destruct (find_offset_spec (Time blocks) start 0) as [[E Hall]|(k & t & Hk & E & Hkt & Hpre)]; [lia| |].
  - exfalso. unfold new_end in Hend. destruct (last (Time blocks)) as [l|] eqn:El; cbn in Hend.
    + apply last_Some_elem_of in El. rewrite Forall_forall in Hall, Hge.
      specialize (Hall l El). specialize (Hge l El). cbn in *. pose proof (midnight_spec l). unfold aDay in *. lia.
    + unfold midnight, aDay in Hend. cbn in Hend. lia.
  - rewrite E, Z.add_0_l, Nat2Z.id. set (suf := drop k (Time blocks)).
    assert (∃ p, steady p suf ∧ p < start + aDay) as (p & Hsp & Hp).
    { destruct k as [|k].
      - exists t0. unfold suf. by rewrite drop_0.
      - destruct (lookup_lt_is_Some_2 (Time blocks) k) as [q Hq]; [apply lookup_lt_Some in Hk; lia|].
        exists q. split; [by eapply steady_drop|]. rewrite Forall_forall in Hpre.
        assert (q ∈ take (S k) (Time blocks)) as Hin.
        { apply list_elem_of_lookup. exists k. by rewrite lookup_take_lt by lia. }
        specialize (Hpre q Hin). cbn in Hpre. unfold aDay. lia. }
    pose proof (day_loop_in_day suf [] start 0 p (new_end blocks)) as Hl. cbv zeta in Hl.
    change (zlen []) with 0 in Hl. cbn [app] in Hl.
    pose proof (day_loop_shape suf 0 start (start + aDay) 0 (new_end blocks) ltac:(lia)) as Hshape.
    destruct (day_loop suf _ _ _ _ _) as [ivs ds]. destruct Hshape as (_ & _ & Hb).
    assert (Forall2 (in_day suf) ivs ds) as HF.
    { apply Hl; [done|done| |done| |lia].
      - apply Forall_forall. intros x [m Hm]%list_elem_of_lookup. unfold suf in Hm. rewrite lookup_drop in Hm.
        rewrite Forall_forall in Hmax. split; [|apply Hmax; by eapply list_elem_of_lookup_2].
        destruct m as [|m]; [rewrite Nat.add_0_r in Hm; replace x with t by congruence; lia|].
        pose proof (steady_drop _ _ _ _ Hst Hk) as Hsd. apply steady_ge in Hsd. rewrite Forall_forall in Hsd.
        assert (x ∈ drop (S k) (Time blocks)) as Hx.
        { apply list_elem_of_lookup. exists m. rewrite lookup_drop, <- Hm. f_equal. lia. }
        specialize (Hsd x Hx). cbn in Hsd. lia.
      - intros j x Hj. cbn in Hj. lia. }
    clear -HF Hb. induction HF as [|iv d ivs ds Hiv HF IH]; [constructor|].
    apply Forall_cons in Hb as [[Hb0 _] Hb]. constructor; [|by apply IH].
    apply in_day_shift; [lia|done|]. by rewrite Nat2Z.id.
Qed.

(** *** The new days
    A day is appended when more than a day has passed, and the stamps are a day
    apart. *)
Fixpoint day_stamps (d : Z) (ds : list Z) : Prop :=
  match ds with
  | [] => True
  | x :: ds => x = d ∧ day_stamps (u64 (d + aDay)) ds
  end.
Lemma day_loop_daily ts : ∀ i start startIdx end_, day_stamps start (day_loop ts i start (u64 (start + aDay)) startIdx end_).2.
Proof.
  induction ts as [|t ts IH]; intros i start startIdx end_; cbn [day_loop]; [done|]. destruct (_ <=? t); [|apply IH].
  destruct (end_ <? t); [done|]. specialize (IH (i + 1) (u64 (start + aDay)) i end_). by destruct (day_loop _ _ _ _ _ _).
Qed.
Lemma day_loop_some ts : ∀ i start next startIdx end_, Exists (λ t, next <= t) ts → (day_loop ts i start next startIdx end_).2 ≠ [].
Proof.
  induction ts as [|t ts IH]; intros i start next startIdx end_; cbn [day_loop]; [intros H; inversion H|]. rewrite Exists_cons.
  destruct (Z.leb_spec next t); [intros _; destruct (end_ <? t); [done|]; by destruct (day_loop ts _ _ _ _ _)|]. intros [?|Ht]; [lia|by apply IH].
Qed.
Lemma new_days_stamps blocks days : 0 <= default 0 (last (Time blocks)) →
  day_stamps (new_start blocks days) (new_days blocks days).2 ∧
  ((new_days blocks days).2 ≠ [] ↔ u64 (new_start blocks days + aDay) < new_end blocks).
Proof.
  intros Hlast. unfold new_days. set (start := new_start blocks days). set (off := find_offset (Time blocks) start 0).
  pose proof (midnight_spec _ Hlast) as Hm. unfold new_end. destruct (Z.ltb_spec (u64 (start + aDay)) (midnight (default 0 (last (Time blocks))))) as [Hlt|]; [|split; [done|split; [done|lia]]].
  pose proof (day_loop_daily (drop (Z.to_nat off) (Time blocks)) 0 start 0 (midnight (default 0 (last (Time blocks))))) as Hd.
  pose proof (day_loop_some (drop (Z.to_nat off) (Time blocks)) 0 start (u64 (start + aDay)) 0 (midnight (default 0 (last (Time blocks))))) as Hs.
  destruct (day_loop _ _ _ _ _ _) as [ivs ds]. cbn [snd] in *. split; [done|]. split; [done|]. intros _. apply Hs.
  destruct (last (Time blocks)) as [l|] eqn:El; cbn in Hlast, Hm, Hlt; [|pose proof (wrap_u_range 64 (start + aDay) ltac:(lia)); unfold u64, midnight in *; cbn in *; lia].
  apply Exists_exists. exists l. split; [|lia]. rewrite last_lookup in El. pose proof (lookup_lt_Some _ _ _ El) as Hlen.
  assert (Z.to_nat off <= pred (length (Time blocks)))%nat as Hoff.
  { destruct (find_offset_spec (Time blocks) start 0) as [[E _]|(k & t & Hk & E & _)]; [lia| |]; unfold off; rewrite E; [lia|].
    apply lookup_lt_Some in Hk. lia. }
  apply list_elem_of_lookup. exists (pred (length (Time blocks)) - Z.to_nat off)%nat. rewrite lookup_drop, <- El. f_equal. lia.
Qed.

(** C29: The days that one Lengthen appends are consecutive segments of the block
    series, from the first block after the last binned day on, the same
    segments for every series: the value appended for a segment is the sum of
    its blocks (block size, transactions, new atoms, fees, mixed amount), their
    average (pool size and value, anonymity set), the number of its last block,
    or the chainwork of the block after it.  So the sums of the new days add up,
    modulo 2^64, to the sum of the blocks, each counted once.  There are new
    days exactly when more than a day has passed until the midnight before the
    last block, their stamps are a day apart, and when block times never go
    back and none is a day or more after the one before, each block of a segment
    is in the day of its stamp. *)
Theorem Lengthen_conserves c d :
  zoom_n d (Days c) →
  (Lengthen c).1 = Ok tt → zlen (Time (Blocks (Lengthen c).2)) ≠ 0 → 0 <= default 0 (last (Time (Blocks (Lengthen c).2))) →
  let c' := (Lengthen c).2 in
  let times := Time (Blocks c') in
  let start := new_start (Blocks c') (Days c) in
  let off := find_offset times start 0 in
  ∃ ivs stamps,
    Time (Days c') = Time (Days c) ++ stamps ∧ length ivs = length stamps ∧
    chained off ivs ∧ Forall (λ iv, off <= fst iv ∧ snd iv < zlen times) ivs ∧
    (∀ f g, (f, g) ∈ binned → f (Days c') = f (Days c) ++ ((λ iv, g (f (Blocks c')) (fst iv) (snd iv)) <$> ivs)) ∧
    (∀ f, f ∈ summed → u64_sum (drop (length (f (Days c))) (f (Days c'))) = u64_sum (between (f (Blocks c')) off (chain_end off ivs))) ∧
    day_stamps start stamps ∧ (stamps ≠ [] ↔ u64 (start + aDay) < new_end (Blocks c')) ∧
    (∀ t0, head times = Some t0 → 0 <= t0 → steady t0 times → Forall (λ t, t < 2 ^ 62) times →
      (Time (Days c) = [] ∨ t0 <= start < 2 ^ 62) → Forall2 (in_day times) ivs stamps).
Proof.
  intros Hd Hok Hne Hlast c'. unfold c' in *.
  destruct (ValidateLengths (zoom_lens (Blocks c))) as [n err] eqn:En.
  destruct (ValidateLengths (window_lens (Windows c))) as [w werr] eqn:Ew.
  pose proof (zoom_validate (Blocks c)) as Hb. rewrite En in Hb. destruct Hb as (_ & _ & _ & Hb).
  destruct (Z.eqb_spec n 0) as [->|Hn].
  { exfalso. unfold Lengthen in Hne. rewrite En in Hne. cbn in Hne. apply Hne.
    apply zoom_n_elim in Hb as (_ & Ht & _). by destruct err. }
  destruct (Z.eqb_spec w 0) as [->|Hw].
  { exfalso. unfold Lengthen in Hok. rewrite En in Hok. destruct (Z.eqb_spec n 0); [done|].
    assert (Windows (if err then set_Blocks (zoom_Snip n (Blocks c)) c else c) = Windows c) as EW by (by destruct err).
    rewrite EW, Ew in Hok. done. }
  pose proof (Lengthen_spec c _ _ d En Ew Hn Hw Hd) as Hs. cbn [fst snd] in Hs.
  set (blocks := if err then _ else _) in Hs. pose proof (new_days_shape blocks (Days c)) as Hnd.
  pose proof (new_days_stamps blocks (Days c)) as Hst. pose proof (new_days_in_day blocks (Days c)) as Hday.
  destruct (new_days blocks (Days c)) as [ivs ds]. destruct Hnd as (Hlen & Hoff & Hch & Hin).
  destruct Hs as (c2 & E & (id & Eb) & _ & _ & _ & Et & Ef & _). clear c'. rewrite E in *. cbn [snd] in *. rewrite Eb in *.
  change (Time (set_cacheID id blocks)) with (Time blocks) in *. change (new_start (set_cacheID id blocks) (Days c)) with (new_start blocks (Days c)) in *.
  destruct (Hst Hlast) as [Hdaily Hiff]. set (off := find_offset _ _ _) in *.
  assert (∀ f g, (f, g) ∈ binned → f (set_cacheID id blocks) = f blocks) as Hbl by apply day_eq_set_cacheID.
  exists ivs, ds. do 4 (split; [done|]). split; [|split; [|by split_and!]].
  - intros f g Hf. rewrite (Hbl f g Hf). by apply Ef.
  - intros f Hf%summed_binned. rewrite (Hbl f _ Hf), (Ef f _ Hf), drop_app_length.
    destruct (concat_chained (f blocks) off ivs Hoff Hch) as [Hcat _].
    rewrite !u64_sum_total, <- Hcat. exact (u64_total_sums (λ iv, between (f blocks) (fst iv) (snd iv)) ivs).
Qed.

(** ** Reorganization *)
Definition series : list (zoomSet → list Z) :=
  [Height; Time; PoolSize; PoolValue; BlockSize; TxCount; NewAtoms; Chainwork; Fees; TotalMixed; AnonymitySet].
Definition w_series : list (windowSet → list Z) :=
  [w_Time; w_Height; PowDiff; TicketPrice; StakeCount; MissedVotes].

Lemma snip_take {A} m (l : list A) : snip m l = take (Z.to_nat m) l.
Proof.
  unfold snip. destruct (Z.ltb_spec (zlen l) m); [|done]. unfold zlen in *.
  rewrite !take_ge by lia. done.
Qed.

Lemma zoom_Snip_take m z f : f ∈ series → f (zoom_Snip m z) = take (Z.to_nat m) (f z).
Proof.
  intros Hf. unfold zoom_Snip, series in *. rewrite !elem_of_cons, elem_of_nil in Hf.
  assert (Z.to_nat (if m <? 0 then 0 else m) = Z.to_nat m) as E by (destruct (Z.ltb_spec m 0); lia).
  destruct_or? Hf; subst; cbn; rewrite ?snip_take, ?E; done.
Qed.

Lemma window_Snip_take m w f : f ∈ w_series → f (window_Snip m w) = take (Z.to_nat m) (f w).
Proof.
  intros Hf. unfold window_Snip, w_series in *. rewrite !elem_of_cons, elem_of_nil in Hf.
  assert (Z.to_nat (if m <? 0 then 0 else m) = Z.to_nat m) as E by (destruct (Z.ltb_spec m 0); lia).
  destruct_or? Hf; subst; cbn; rewrite ?snip_take, ?E; done.
Qed.

(** The windows kept are the leading ones that start at or before the
    ancestor. *)
Lemma keep_windows_spec hs anc i :
  match keep_windows hs anc i with
  | Some k => ∃ j h, k = i + Z.of_nat j ∧ hs !! j = Some h ∧ anc < i64 h ∧
                Forall (λ h, i64 h <= anc) (take j hs)
  | None => Forall (λ h, i64 h <= anc) hs
  end.
Proof.
  revert i. induction hs as [|h hs IH]; intros i; cbn; [constructor|].
  destruct (Z.ltb_spec anc (i64 h)).
  - exists O, h. split_and!; [lia|done|done|constructor].
  - specialize (IH (i + 1)). destruct (keep_windows _ _ _) as [k|].
    + destruct IH as (j & h' & -> & Hj & Ha & Hall). exists (S j), h'. split_and!; [lia|done|done|].
      by constructor.
    + by constructor.
Qed.

Lemma take_filter_sorted (P : Z → bool) hs j h :
  hs !! j = Some h → Forall (λ h, P h = true) (take j hs) → Forall (λ h, P h = false) (drop j hs) →
  take j hs = List.filter P hs.
Proof.
  intros _ Ht Hd. rewrite <- (take_drop j hs) at 2. rewrite List.filter_app.
  assert (∀ l, Forall (λ h, P h = true) l → List.filter P l = l) as H1.
  { intros l. induction 1 as [|x l E _ IH]; cbn; [done|]. by rewrite E, IH. }
  assert (∀ l, Forall (λ h, P h = false) l → List.filter P l = []) as H2.
  { intros l. induction 1 as [|x l E _ IH]; cbn; [done|]. by rewrite E, IH. }
  by rewrite H1, H2, app_nil_r.
Qed.

Lemma sorted_heights hs j m x y :
  StronglySorted Z.le (i64 <$> hs) → hs !! j = Some x → hs !! (j + m)%nat = Some y → i64 x <= i64 y.
Proof.
  revert j. induction hs as [|h hs IH]; intros j Hs Hj Hm; [done|].
  apply StronglySorted_inv in Hs as [Hs Hall]. destruct j as [|j].
  - injection Hj as ->. destruct m as [|m]; [injection Hm as ->; lia|]. cbn in Hm.
    rewrite Forall_forall in Hall. apply Hall, list_elem_of_fmap. exists y.
    split; [done|]. by eapply list_elem_of_lookup_2.
  - by apply (IH j).
Qed.

(** A reorganization removes exactly what the common ancestor does not
    vouch for.  Every block series keeps its first ancestor+1 entries, the
    day series their leading days without the last two (but at least one),
    and, when the windows are in order, every window series keeps just the
    windows that start at or before the ancestor; no series is changed
    otherwise. *)
Theorem ReorgHandler_keeps newHeight newLen c w :
  window_n w (Windows c) →
  StronglySorted Z.le (i64 <$> w_Height (Windows c)) →
  let anc := newHeight - newLen in
  let keep := List.filter (λ h, i64 h <=? anc) (w_Height (Windows c)) in
  let c' := ReorgHandler newHeight newLen c in
  (∀ f, f ∈ series → f (Blocks c') = take (Z.to_nat (anc + 1)) (f (Blocks c))) ∧
  (∀ f, f ∈ series → f (Days c') = take (Z.to_nat (Z.max 1 (zlen (Time (Days c)) - 2))) (f (Days c))) ∧
  w_Height (Windows c') = keep ∧
  (∀ f, f ∈ w_series → f (Windows c') = take (length keep) (f (Windows c))) ∧
  window_n (zlen keep) (Windows c').
Proof.
  intros Hw Hsorted anc keep c'. unfold c', ReorgHandler. cbv zeta. fold anc. cbn [Windows set_Days set_Blocks Days Blocks].
  set (hs := w_Height (Windows c)) in *.
  set (wins := Windows (if _ : bool then _ else _)).
  assert (∃ k : nat, take k hs = keep ∧ (∀ f, f ∈ w_series → f wins = take k (f (Windows c)))) as (k & Hk & Hwins).
  { pose proof (keep_windows_spec hs anc 0) as Hkw. unfold wins. destruct (keep_windows hs anc 0) as [k|].
    - destruct Hkw as (j & h & -> & Hj & Hh & Hall). exists j.
      assert (Z.of_nat j < zlen hs) as Hlt by (apply lookup_lt_Some in Hj; unfold zlen; lia).
      change (default (zlen hs) (Some (0 + Z.of_nat j))) with (0 + Z.of_nat j).
      destruct (Z.ltb_spec (0 + Z.of_nat j) (zlen hs)); [|lia]. split.
      + apply (take_filter_sorted _ hs j h Hj).
        * eapply Forall_impl; [exact Hall|]. intros x Hx. cbn in *. lia.
        * apply Forall_forall. intros x Hx. apply list_elem_of_lookup in Hx as [m Hm]. rewrite lookup_drop in Hm.
          destruct m as [|m]; [rewrite Nat.add_0_r in Hm; replace x with h by congruence; lia|].
          assert (i64 h <= i64 x); [|lia].
          by apply (sorted_heights hs j (S m)).
      + intros f Hf. etransitivity; [exact (window_Snip_take _ _ f Hf)|]. cbn. f_equal. lia.
    - exists (length hs). change (default (zlen hs) None) with (zlen hs). rewrite Z.ltb_irrefl. split.
      + rewrite take_ge by lia. symmetry. apply List.forallb_filter_id, List.forallb_forall.
        intros x Hx. rewrite Forall_forall in Hkw. apply Z.leb_le, Hkw. by apply list_elem_of_In.
      + intros f Hf. rewrite take_ge; [done|]. unfold window_n, window_lens in Hw. rewrite !Forall_cons in Hw.
        fold hs in Hw. unfold zlen in Hw. unfold w_series in Hf. rewrite !elem_of_cons, elem_of_nil in Hf.
        destruct_or? Hf; subst; cbn; fold hs; lia. }
  assert (∀ f, f ∈ w_series → length (f (Windows c)) = length hs) as Hlens.
  { intros f Hf. unfold window_n, window_lens in Hw. rewrite !Forall_cons in Hw.
    fold hs in Hw. unfold zlen in Hw. unfold w_series in Hf. rewrite !elem_of_cons, elem_of_nil in Hf.
    destruct_or? Hf; subst; fold hs; lia. }
  assert (∀ f, f ∈ w_series → f wins = take (length keep) (f (Windows c))) as Hkeep.
  { intros f Hf. rewrite Hwins, <- Hk, length_take by done. destruct (Nat.le_ge_cases k (length hs)).
    - by rewrite Nat.min_l by lia.
    - rewrite Nat.min_r, !take_ge by (rewrite ?Hlens by done; lia). done. }
  assert (w_Height wins = keep) as Hh by (rewrite Hwins; [done|right; left]).
  assert (zlen keep <= zlen hs) as Hle by (rewrite <- Hk; unfold zlen; rewrite length_take; lia).
  assert (∀ f, f ∈ w_series → zlen (f wins) = zlen keep) as Hwl.
  { intros f Hf. rewrite Hkeep by done. unfold zlen in *. rewrite length_take, Hlens by done. lia. }
  split_and!; try done.
  - intros f Hf. rewrite <- (zoom_Snip_take _ _ f Hf). by destruct (_ <? zlen hs).
  - intros f Hf. destruct (_ <? zlen hs); etransitivity; try exact (zoom_Snip_take _ _ f Hf);
      f_equal; destruct (Z.ltb_spec (zlen (Time (Days c)) - 2) 1); lia.
  - unfold window_n, window_lens. repeat constructor; apply Hwl; unfold w_series; rewrite !elem_of_cons; tauto.
Qed.

(** After a day without blocks the bins fall behind: the loop moves on by one
    day per block, so the block of day 5 is binned as day 1 and the next one as
    day 2. *)
Lemma gap_example :
  let blocks := set_Time [100; 432010; 432020; 432030; 604800] newBlockSet in
  new_days blocks newDaySet =
    ([(0, 1); (1, 2); (2, 3); (3, 4)], [0; aDay; 2 * aDay; 3 * aDay]) ∧
  midnight 432010 = 5 * aDay.
Proof. by vm_compute. Qed.

(** ** Instances *)
Module Witness.

Definition ts : list Z := [10; 50000; 90000; 170000; 250000; 260000].
Definition blocks : zoomSet :=
  mkZoom 0 [0; 1; 2; 3; 4; 5] ts [4; 6; 4; 6; 5; 5] [10; 20; 30; 40; 50; 60] [7; 1; 2; 3; 4; 5]
    [1; 1; 1; 2; 2; 2] [100; 50; 50; 50; 50; 50] [1; 2; 3; 4; 5; 6] [0; 1; 1; 1; 1] [0; 0; 0; 0; 0; 9; 9]
    [0; 0; 0; 0; 0; 9].
Definition windows : windowSet := mkWindow 0 [10; 170000] [0; 144] [1; 1] [2; 2] [3; 3] [0; 0] 1.
Definition charts : ChartData := mkCharts blocks windows newDaySet [].

Lemma zoom_n_dec n z : forallb (λ l, l =? n) (zoom_lens z) = true → zoom_n n z.
Proof.
  intros H. unfold zoom_n. apply Forall_forall. intros l Hl. apply List.forallb_forall with (x:=l) in H.
  - by apply Z.eqb_eq.
  - by apply list_elem_of_In.
Qed.
Lemma window_n_dec n z : forallb (λ l, l =? n) (window_lens z) = true → window_n n z.
Proof.
  intros H. unfold window_n. apply Forall_forall. intros l Hl. apply List.forallb_forall with (x:=l) in H.
  - by apply Z.eqb_eq.
  - by apply list_elem_of_In.
Qed.

(** The block series differ in length (5, 6 and 7 entries); Lengthen makes the
    blocks 5 long and the windows stay at 2. *)
Lemma Lengthen_lengths_witness :
  fst (ValidateLengths (zoom_lens blocks)) = 5 ∧
  ∃ c', Lengthen charts = (Ok tt, c') ∧ zoom_n 5 (Blocks c') ∧ window_n 2 (Windows c').
Proof.
  split; [by vm_compute|].
  destruct (Lengthen_lengths charts 0) as (c' & E & _ & Hb & Hw & _); [by apply zoom_n_dec|].
  exists c'. split; [exact E|]. split; [exact Hb|]. apply Hw. by vm_compute.
Defined.

(** Two days are binned from five blocks: sizes 7+1 and 2+3. *)
Lemma Lengthen_conserves_witness :
  BlockSize (Days (Lengthen charts).2) = [8; 5] ∧
  ∃ ivs stamps, Time (Days (Lengthen charts).2) = [] ++ stamps ∧ chained 0 ivs ∧
    BlockSize (Days (Lengthen charts).2) = [] ++ ((λ iv, day_sum [7; 1; 2; 3; 4] (fst iv) (snd iv)) <$> ivs).
Proof.
  split; [by vm_compute|].
  destruct (Lengthen_conserves charts 0) as (ivs & stamps & H1 & _ & H2 & _ & H3 & _);
    [by apply zoom_n_dec|by vm_compute|by vm_compute|by vm_compute|].
  exists ivs, stamps. split; [exact H1|]. split; [exact H2|]. apply (H3 BlockSize day_sum). unfold binned. rewrite !elem_of_cons. tauto.
Defined.

Lemma new_days_in_day_witness :
  new_days blocks newDaySet = ([(0, 2); (2, 4); (4, 5)], [0; aDay; 2 * aDay]) ∧
  Forall2 (in_day ts) [(0, 2); (2, 4); (4, 5)] [0; aDay; 2 * aDay].
Proof.
  split; [by vm_compute|].
  refine (new_days_in_day blocks newDaySet 10 _ _ _ _ _); [done|done| | |by left].
  - cbn. unfold aDay. lia.
  - cbn. repeat constructor.
Defined.

Lemma ReorgHandler_keeps_witness :
  let c' := ReorgHandler 146 4 charts in
  TxCount (Blocks c') = take 143 (TxCount blocks) ∧ w_Height (Windows c') = [0] ∧ window_n 1 (Windows c').
Proof.
  intros c'. destruct (ReorgHandler_keeps 146 4 charts 2) as (H1 & _ & H3 & _ & H5).
  - by apply window_n_dec.
  - cbn. repeat constructor; by vm_compute.
  - split; [apply (H1 TxCount); unfold series; rewrite !elem_of_cons; tauto|]. split; [exact H3|exact H5].
Defined.

End Witness.
