(* ===== verification/ActiveMiners.v ===== *)
(** * Active miners per block (db/cache/charts.go, activeMinersCounts)

    For every block the number of miner addresses that are active within a
    lookback interval.  The code turns each miner's range of blocks into an
    entry event and, found by binary search over the block times, an exit
    event, sorts the events and adds them up in one sweep.  The theorem is that
    the sweep yields, at every block, the number of miners that a direct
    definition calls active. *)
From S2P Require Import Prelude Charts.

(** ** Model *)
Abbreviation intervalType := string.
Definition AllInterval : intervalType := "all".
Definition YearInterval : intervalType := "year".
Definition WeekInterval : intervalType := "week".
Definition DayInterval : intervalType := "day".
Definition DefaultInterval : intervalType := WeekInterval.

Definition ParseInterval (s : string) : intervalType :=
  if bool_decide (s ∈ [AllInterval; YearInterval; WeekInterval; DayInterval]) then s else DefaultInterval.

(** The lookback in seconds; 0 for all blocks. *)
Definition duration (interval : intervalType) : Z :=
  if String.eqb interval AllInterval then 0
  else if String.eqb interval YearInterval then 365 * 24 * 60 * 60
  else if String.eqb interval WeekInterval then 7 * 24 * 60 * 60
  else if String.eqb interval DayInterval then 24 * 60 * 60
  else 7 * 24 * 60 * 60.

Record ev := mkEv { ev_height : Z; delta : Z }.

(** [sort.Search] of the standard library: the loop of its binary search on
    [i, j).  [None] is a loop that has not ended within the fuel. *)
Fixpoint search_loop (fuel : nat) (f : Z → bool) (i j : Z) : option Z :=
  if i <? j then
    match fuel with
    | O => None
    | S fuel =>
      let h := Z.shiftr (u64 (i + j)) 1 in
      if negb (f h) then search_loop fuel f (h + 1) j else search_loop fuel f i h
    end
  else Some i.
Definition Search (n : Z) (f : Z → bool) : option Z := search_loop (Z.to_nat n) f 0 n.

(** The events of one miner.  [None] is the index panic of [Time[used]] (the
    search only reads indices of the slice and ends within its length). *)
Definition miner_events (times : list Z) (numBlocks : Z) (interval : intervalType) (m : MinerRange)
    : option (list ev) :=
  if numBlocks <=? i64 (FirstSeen m) then Some [] else
  let enter := mkEv (i64 (FirstSeen m)) 1 in
  if String.eqb interval AllInterval then Some [enter] else
  let used := i64 (LastUsed m) in
  let used := if numBlocks <=? used then numBlocks - 1 else used in
  tLast ← slice_at times used;
  let tExit := u64 (tLast + duration interval) in
  exitHeight ← Search (zlen times) (λ i, tExit <? default 0 (slice_at times i));
  Some (if exitHeight <? numBlocks then [enter; mkEv exitHeight (-1)] else [enter]).

Fixpoint all_events (times : list Z) (numBlocks : Z) (interval : intervalType) (ms : list MinerRange)
    : option (list ev) :=
  match ms with
  | [] => Some []
  | m :: rest =>
    es ← miner_events times numBlocks interval m;
    es' ← all_events times numBlocks interval rest;
    Some (es ++ es')
  end.

(** The inner loop: the events at height [h]. *)
Fixpoint consume (h : Z) (evs : list ev) (current : Z) : Z * list ev :=
  match evs with
  | [] => (current, [])
  | e :: rest =>
    if ev_height e =? h then
      consume h rest (if 0 <? delta e then u64 (current + u64 (delta e)) else u64 (current - u64 (- delta e)))
    else (current, evs)
  end.

Fixpoint sweep (n : nat) (h : Z) (evs : list ev) (current : Z) : list Z :=
  match n with
  | O => []
  | S n => let '(current, evs) := consume h evs current in current :: sweep n (h + 1) evs current
  end.

(** [sort.Slice] by height: some sorted permutation, which one is not
    specified. *)
Class SliceSort := {
  sortSlice : list ev → list ev;
  sortSlice_perm evs : sortSlice evs ≡ₚ evs;
  sortSlice_sorted evs : StronglySorted (λ a b, ev_height a <= ev_height b) (sortSlice evs)
}.

(** [None] is a panic. *)
Definition activeMinersCounts `{SliceSort} (charts : ChartData) (numBlocks : Z) (interval : intervalType)
    : option (list Z) :=
  if numBlocks <? 0 then None else
  if (numBlocks =? 0) || (zlen (MinerRanges charts) =? 0)
  then Some (replicate (Z.to_nat numBlocks) 0) else
  events ← all_events (Time (Blocks charts)) numBlocks interval (MinerRanges charts);
  Some (sweep (Z.to_nat numBlocks) 0 (sortSlice events) 0).

(** ** Specification *)
(** A miner is active at block [h] when it was seen by then and its last block
    (at most the last block of the chart) is no more than the lookback older
    than block [h]. *)
Definition active (times : list Z) (numBlocks : Z) (interval : intervalType) (h : Z) (m : MinerRange) : bool :=
  (FirstSeen m <=? h) &&
  (String.eqb interval AllInterval ||
   (default 0 (slice_at times h) <=? default 0 (slice_at times (Z.min (LastUsed m) (numBlocks - 1))) + duration interval)).

Definition count_active (times : list Z) (numBlocks : Z) (interval : intervalType) (ms : list MinerRange) (h : Z) : Z :=
  zlen (List.filter (active times numBlocks interval h) ms).

(** ** Binary search *)
Lemma search_loop_spec f fuel i j :
  0 <= i <= j → j < 2 ^ 63 → (Z.to_nat (j - i) <= fuel)%nat →
  (∀ a b, f a = true → a <= b → b < j → f b = true) →
  ∃ k, search_loop fuel f i j = Some k ∧ i <= k <= j ∧
    (∀ a, i <= a < k → f a = false) ∧ (∀ a, k <= a < j → f a = true).
Proof.
  revert i j. induction fuel as [|fuel IH]; intros i j Hi Hj Hf Hmono; cbn [search_loop].
  - destruct (Z.ltb_spec i j); [lia|]. exists i. split_and!; try done; lia.
  - destruct (Z.ltb_spec i j); [|exists i; split_and!; try done; lia].
    assert (u64 (i + j) = i + j) as -> by (apply wrap_u_small; lia).
    rewrite Z.shiftr_div_pow2 by lia. change (2 ^ 1) with 2.
    assert (i <= (i + j) / 2 < j) as Hh by (split; [apply Z.div_le_lower_bound|apply Z.div_lt_upper_bound]; lia).
    set (h := (i + j) / 2) in *. destruct (f h) eqn:Ef; cbn [negb].
    + destruct (IH i h) as (k & E & Hk & H1 & H2); [lia..| |].
      { intros a b Ha Hab Hb. apply (Hmono a b); done || lia. }
      exists k. split; [done|]. split; [lia|]. split; [done|]. intros a Ha.
      destruct (Z.lt_ge_cases a h); [apply H2; lia|]. apply (Hmono h a); done || lia.
    + destruct (IH (h + 1) j) as (k & E & Hk & H1 & H2); [lia..|done|].
      exists k. split; [done|]. split; [lia|]. split; [|done]. intros a Ha.
      destruct (Z.lt_ge_cases h a); [apply H1; lia|].
      destruct (f a) eqn:Ea; [|done]. rewrite (Hmono a h) in Ef; done || lia.
Qed.

Lemma Search_spec f n :
  0 <= n < 2 ^ 63 → (∀ a b, f a = true → a <= b → b < n → f b = true) →
  ∃ k, Search n f = Some k ∧ 0 <= k <= n ∧
    (∀ a, 0 <= a < k → f a = false) ∧ (∀ a, k <= a < n → f a = true).
Proof. intros Hn Hm. apply search_loop_spec; try done; lia. Qed.

(** ** The sweep adds up events *)
(** The deltas of the events at or below [h]. *)
Definition dsum (h : Z) (evs : list ev) : Z :=
  foldr (λ e s, (if ev_height e <=? h then delta e else 0) + s) 0 evs.

Lemma dsum_app h l k : dsum h (l ++ k) = dsum h l + dsum h k.
Proof. unfold dsum. induction l as [|e l IH]; cbn; [done|]. rewrite IH. lia. Qed.

#[export] Instance dsum_perm h : Proper ((≡ₚ) ==> (=)) (dsum h).
Proof. intros l k. unfold dsum. induction 1; cbn; lia. Qed.

Definition unit_delta (e : ev) : Prop := delta e = 1 ∨ delta e = -1.
Abbreviation ev_sorted := (StronglySorted (λ a b, ev_height a <= ev_height b)).

Lemma add_delta e cur :
  unit_delta e →
  (if 0 <? delta e then u64 (cur + u64 (delta e)) else u64 (cur - u64 (- delta e))) = u64 (cur + delta e).
Proof.
  intros [E|E]; rewrite E; cbn; f_equal; unfold u64, wrap_u; rewrite Z.mod_small by lia; lia.
Qed.

Lemma dsum_above h evs : Forall (λ e, h < ev_height e) evs → dsum h evs = 0.
Proof.
  unfold dsum. induction 1 as [|e evs He _ IH]; cbn; [done|]. rewrite IH.
  destruct (Z.leb_spec (ev_height e) h); lia.
Qed.

Lemma consume_spec h evs cur :
  ev_sorted evs → Forall unit_delta evs → Forall (λ e, h <= ev_height e) evs →
  ∃ rest, consume h evs (u64 cur) = (u64 (cur + dsum h evs), rest) ∧
    ev_sorted rest ∧ Forall unit_delta rest ∧ Forall (λ e, h + 1 <= ev_height e) rest ∧
    ∀ h', h <= h' → dsum h' evs = dsum h evs + dsum h' rest.
Proof.
  intros Hs Hu. revert cur. induction Hs as [|e evs Hs IH Hall]; intros cur Hge; cbn [consume].
  { exists []. cbn. rewrite Z.add_0_r. split_and!; try done; constructor. }
  apply Forall_cons in Hu as [Hue Hu]. apply Forall_cons in Hge as [He Hge].
  destruct (Z.eqb_spec (ev_height e) h) as [Eh|Hne].
  - rewrite add_delta by done.
    replace (u64 (u64 cur + delta e)) with (u64 (cur + delta e)) by (symmetry; apply wrap_u_add_idemp_l).
    destruct (IH Hu (cur + delta e) Hge) as (rest & E & H1 & H2 & H3 & H4). exists rest.
    assert (∀ h', h <= h' → dsum h' (e :: evs) = delta e + dsum h' evs) as Hd.
    { intros h' Hh. unfold dsum. cbn. destruct (Z.leb_spec (ev_height e) h'); lia. }
    rewrite E. split_and!; try done.
    + rewrite Hd by lia. do 2 f_equal. lia.
    + intros h' Hh. rewrite !Hd by lia. rewrite H4 by done. lia.
  - assert (Forall (λ x, h < ev_height x) (e :: evs)) as Hab.
    { constructor; [lia|]. eapply Forall_impl; [exact Hall|]. intros x Hx. cbn in Hx. lia. }
    exists (e :: evs). rewrite dsum_above, Z.add_0_r by done. split_and!; try done.
    + by constructor.
    + by constructor.
    + eapply Forall_impl; [exact Hab|]. intros x Hx. cbn in *. lia.
Qed.

Lemma sweep_spec n : ∀ h evs cur k,
  ev_sorted evs → Forall unit_delta evs → Forall (λ e, h <= ev_height e) evs → (k < n)%nat →
  sweep n h evs (u64 cur) !! k = Some (u64 (cur + dsum (h + Z.of_nat k) evs)).
Proof.
  induction n as [|n IH]; intros h evs cur k Hs Hu Hge Hk; [lia|]. cbn [sweep].
  destruct (consume_spec h evs cur Hs Hu Hge) as (rest & -> & Hs' & Hu' & Hge' & Hd).
  destruct k as [|k]; cbn [lookup list_lookup].
  - by rewrite Z.add_0_r.
  - rewrite IH by (done || lia). do 2 f_equal. rewrite (Hd (h + Z.of_nat (S k))) by lia.
    replace (h + 1 + Z.of_nat k) with (h + Z.of_nat (S k)) by lia. lia.
Qed.

Lemma length_sweep n h evs cur : length (sweep n h evs cur) = n.
Proof.
  revert h evs cur. induction n as [|n IH]; intros h evs cur; cbn; [done|].
  destruct (consume _ _ _) as [c r]. cbn. by rewrite IH.
Qed.

(** ** The events of a miner *)
(** Block times that never go back, in a range without overflow. *)
Definition times_ok (times : list Z) : Prop :=
  zlen times < 2 ^ 63 ∧ StronglySorted Z.le times ∧ Forall (λ t, 0 <= t < 2 ^ 62) times.
Definition miner_ok (m : MinerRange) : Prop := 0 <= FirstSeen m <= LastUsed m ∧ LastUsed m < 2 ^ 63.

Lemma sorted_le (times : list Z) i j x y :
  StronglySorted Z.le times → times !! i = Some x → times !! j = Some y → (i <= j)%nat → x <= y.
Proof.
  intros Hs. revert i j. induction Hs as [|t times Hs IH Hall]; intros i j Hi Hj Hij; [done|].
  destruct i as [|i], j as [|j]; cbn in *; try lia.
  - injection Hi as ->. injection Hj as ->. lia.
  - injection Hi as ->. rewrite Forall_forall in Hall. apply Hall. by eapply list_elem_of_lookup_2.
  - apply (IH i j); done || lia.
Qed.

Lemma duration_range interval : 0 <= duration interval < 2 ^ 62.
Proof. unfold duration. repeat (destruct (String.eqb _ _); [lia|]). lia. Qed.

Lemma slice_at_lookup_Z {A} (times : list A) i : 0 <= i → slice_at times i = times !! Z.to_nat i.
Proof. intros. unfold slice_at. destruct (Z.ltb_spec i 0); [lia|done]. Qed.

Lemma sorted_slice (times : list Z) i j x y :
  StronglySorted Z.le times → 0 <= i <= j → slice_at times i = Some x → slice_at times j = Some y → x <= y.
Proof.
  intros Hs Hij. rewrite !slice_at_lookup_Z by lia. intros. eapply (sorted_le times); try done. lia.
Qed.

(** The events of a miner add up, at every block of the chart, to 1 when the
    miner is active there and to 0 otherwise. *)
Lemma miner_events_spec times n interval m :
  times_ok times → 0 < n <= zlen times → miner_ok m →
  ∃ es, miner_events times n interval m = Some es ∧ Forall unit_delta es ∧
    Forall (λ e, 0 <= ev_height e) es ∧
    ∀ h, 0 <= h < n → dsum h es = if active times n interval h m then 1 else 0.
Proof.
  intros (Hlen & Hsort & Hrange) Hn [Hm Hm']. unfold miner_events, active.
  assert (i64 (FirstSeen m) = FirstSeen m) as -> by (apply wrap_s_small; lia).
  assert (i64 (LastUsed m) = LastUsed m) as -> by (apply wrap_s_small; lia).
  destruct (Z.leb_spec n (FirstSeen m)) as [Hlate|Hin].
  { exists []. split_and!; try constructor. intros h Hh. destruct (Z.leb_spec (FirstSeen m) h); [lia|done]. }
  destruct (String.eqb interval AllInterval).
  { exists [mkEv (FirstSeen m) 1]. split_and!; [done|by repeat constructor|repeat constructor; cbn; lia|].
    intros h Hh. cbn. by destruct (Z.leb_spec (FirstSeen m) h). }
  assert ((if n <=? LastUsed m then n - 1 else LastUsed m) = Z.min (LastUsed m) (n - 1)) as ->
    by (destruct (Z.leb_spec n (LastUsed m)); lia).
  set (used := Z.min (LastUsed m) (n - 1)).
  destruct (slice_at_Some times used) as [tLast El]; [lia|]. rewrite El. cbn [mbind option_bind].
  change (default 0 (Some tLast)) with tLast.
  pose proof (duration_range interval) as Hdur.
  assert (0 <= tLast < 2 ^ 62) as HtL.
  { rewrite Forall_forall in Hrange. apply Hrange. rewrite slice_at_lookup_Z in El by lia.
    by eapply list_elem_of_lookup_2. }
  assert (u64 (tLast + duration interval) = tLast + duration interval) as -> by (apply wrap_u_small; lia).
  set (tExit := tLast + duration interval). set (f := λ i, tExit <? default 0 (slice_at times i)).
  destruct (Search_spec f (zlen times)) as (x & Ex & Hx & Hbefore & Hafter); [lia| |].
  { intros a b Ha Hab Hb. unfold f in *. destruct (Z.lt_ge_cases a 0) as [Hneg|Hpos].
    - unfold slice_at in Ha. destruct (Z.ltb_spec a 0); [|lia]. cbn in Ha. lia.
    - destruct (slice_at_Some times a) as [ta Eta]; [lia|]. destruct (slice_at_Some times b) as [tb Etb]; [lia|].
      rewrite Eta in Ha. rewrite Etb. cbn in Ha |- *.
      assert (ta <= tb) by (by eapply (sorted_slice times a b)). lia. }
  rewrite Ex. cbn [mbind option_bind].
  assert (used < x) as Hux.
  { destruct (Z.lt_ge_cases used x); [done|]. assert (f used = true) as Hf by (apply Hafter; lia).
    unfold f in Hf. rewrite El in Hf. cbn in Hf. lia. }
  assert (∀ h, 0 <= h < n → (default 0 (slice_at times h) <=? tExit) = (h <? x)) as Hexit.
  { intros h Hh. destruct (Z.ltb_spec h x).
    - assert (f h = false) as Hf by (apply Hbefore; lia). unfold f in Hf.
      apply Z.ltb_ge in Hf. by apply Z.leb_le.
    - assert (f h = true) as Hf by (apply Hafter; lia). unfold f in Hf.
      apply Z.ltb_lt in Hf. by apply Z.leb_gt. }
  exists (if x <? n then [mkEv (FirstSeen m) 1; mkEv x (-1)] else [mkEv (FirstSeen m) 1]).
  split; [done|]. split; [|split].
  - destruct (x <? n); repeat constructor; by (left + right).
  - destruct (x <? n); repeat constructor; cbn; lia.
  - intros h Hh. rewrite Hexit by done. cbn [orb].
    destruct (Z.ltb_spec x n); cbn; destruct (Z.leb_spec (FirstSeen m) h), (Z.ltb_spec h x); cbn; try lia;
      destruct (Z.leb_spec x h); lia.
Qed.

Lemma all_events_spec times n interval ms :
  times_ok times → 0 < n <= zlen times → Forall miner_ok ms →
  ∃ es, all_events times n interval ms = Some es ∧ Forall unit_delta es ∧
    Forall (λ e, 0 <= ev_height e) es ∧
    ∀ h, 0 <= h < n → dsum h es = count_active times n interval ms h.
Proof.
  intros Ht Hn. induction 1 as [|m ms Hm _ IH]; cbn [all_events].
  - exists []. by split_and!.
  - destruct (miner_events_spec times n interval m Ht Hn Hm) as (es & -> & U1 & P1 & S1).
    destruct IH as (es' & -> & U2 & P2 & S2). cbn [mbind option_bind]. exists (es ++ es').
    split_and!; [done|by apply Forall_app|by apply Forall_app|]. intros h Hh. rewrite dsum_app, S1, S2 by done.
    unfold count_active, zlen. cbn [List.filter]. destruct (active _ _ _ _ _); cbn [length]; lia.
Qed.

(** C33: The event sweep counts the active miners.  For block times that never
    go back (on others the binary search over them can go wrong, see
    [earlier_block_differs]) and miner ranges that are in order, whatever permutation the sort
    picks for events at one height, the call does not panic and its entry for
    block [h] is the number of miners active there; the binary search and the
    unsigned additions and subtractions never leave it wrong. *)
Theorem activeMinersCounts_counts `{SliceSort} charts n interval :
  times_ok (Time (Blocks charts)) → 0 <= n <= zlen (Time (Blocks charts)) →
  Forall miner_ok (MinerRanges charts) → zlen (MinerRanges charts) < 2 ^ 64 →
  ∃ counts, activeMinersCounts charts n interval = Some counts ∧ zlen counts = n ∧
    ∀ h, 0 <= h < n →
      slice_at counts h = Some (count_active (Time (Blocks charts)) n interval (MinerRanges charts) h).
Proof.
  intros Ht Hn Hms Hlen. unfold activeMinersCounts. set (ms := MinerRanges charts) in *.
  destruct (Z.ltb_spec n 0); [lia|].
  destruct (Z.eqb_spec n 0) as [->|Hn0].
  { cbn [orb]. eexists. split; [done|]. split; [done|]. lia. }
  destruct (Z.eqb_spec (zlen ms) 0) as [Hz|_]; cbn [orb].
  { eexists. split; [done|]. split; [unfold zlen; rewrite length_replicate; lia|]. intros h Hh.
    rewrite slice_at_lookup_Z by lia. rewrite lookup_replicate_2 by lia. destruct ms; [done|]. unfold zlen in Hz. cbn in Hz. lia. }
  destruct (all_events_spec (Time (Blocks charts)) n interval ms Ht ltac:(lia) Hms) as (es & -> & Hu & Hp & Hd).
  cbn [mbind option_bind]. eexists. split; [done|]. split; [unfold zlen; rewrite length_sweep; lia|].
  intros h Hh. rewrite slice_at_lookup_Z by lia. change 0 with (u64 0) at 2.
  pose proof (sortSlice_perm es) as Hperm.
  rewrite sweep_spec; [|apply sortSlice_sorted|by rewrite Hperm|by rewrite Hperm|lia].
  rewrite Hperm. replace (0 + Z.of_nat (Z.to_nat h)) with h by lia. rewrite Hd by done. f_equal.
  apply wrap_u_small. unfold count_active, zlen in *.
  pose proof (List.filter_length_le (active (Time (Blocks charts)) n interval h) ms). lia.
Qed.

(** ** Instances *)
Module Witness.

Definition by_height (a b : ev) : Prop := ev_height a <= ev_height b.
#[export] Instance by_height_dec : RelDecision by_height.
Proof. intros a b. unfold by_height. apply _. Defined.
#[export] Instance by_height_trans : Transitive by_height.
Proof. intros a b c. unfold by_height. lia. Qed.
#[export] Instance by_height_total : Total by_height.
Proof. intros a b. unfold by_height. lia. Qed.

#[export, refine] Instance merge_SliceSort : SliceSort := {| sortSlice := merge_sort by_height |}.
Proof.
  - intros evs. apply merge_sort_Permutation.
  - intros evs. apply (StronglySorted_merge_sort by_height).
Defined.

(** Four blocks, two days apart from the second on; three miners. *)
Definition charts : ChartData :=
  mkCharts (set_Time [0; 10; 172810; 345610] newBlockSet) newWindowSet newDaySet
    [mkMiner 0 1; mkMiner 1 9; mkMiner 2 2].

Lemma activeMinersCounts_counts_witness :
  activeMinersCounts charts 4 DayInterval = Some [1; 2; 2; 1] ∧
  ∃ counts, activeMinersCounts charts 4 DayInterval = Some counts ∧
    slice_at counts 2 = Some (count_active [0; 10; 172810; 345610] 4 DayInterval (MinerRanges charts) 2).
Proof.
  split; [by vm_compute|].
  destruct (activeMinersCounts_counts charts 4 DayInterval) as (counts & E & _ & Hc).
  - split; [by vm_compute|]. split; [repeat constructor; lia|repeat constructor; lia].
  - by vm_compute.
  - repeat constructor; cbn; lia.
  - by vm_compute.
  - exists counts. split; [exact E|]. apply (Hc 2). lia.
Defined.

(** With a block that is earlier than the one before it, which the header rules
    allow, the search takes the first block for the exit for good: the miner is
    not counted at the earlier block, where the lookback still holds it. *)
Definition back_charts : ChartData :=
  mkCharts (set_Time [0; 89400; 85400] newBlockSet) newWindowSet newDaySet [mkMiner 0 0].
Lemma earlier_block_differs : activeMinersCounts back_charts 3 DayInterval = Some [1; 0; 0] ∧
  count_active [0; 89400; 85400] 3 DayInterval (MinerRanges back_charts) 2 = 1.
Proof. split; by vm_compute. Qed.

End Witness.
