(* ===== verification/ChartSeries.v ===== *)
(** * Derived chart series (db/cache/charts.go)

    The functions that turn a stored series into the one a chart shows: running
    totals ([accumulate]), block intervals ([blockTimes], [avgBlockTimes]), the
    correction of the genesis time, and the daily bins of the exact-precision
    supply and fee series ([aggregateSKASupply], [aggregateSKAFees]). *)
From S2P Require Import Prelude Charts.

(** ** Model: series of integers *)
Fixpoint accumulate_loop (data : list Z) (accumulator : Z) : list Z :=
  match data with
  | [] => []
  | v :: rest => let accumulator := u64 (accumulator + v) in accumulator :: accumulate_loop rest accumulator
  end.
Definition accumulate (data : ChartUints) : ChartUints := accumulate_loop data 0.

Definition genesisGapThreshold : Z := 3600.

(** The series is mutated in place: the result is the flag and the series. *)
Definition NormalizeGenesisBlockTime (times : ChartUints) : bool * ChartUints :=
  match times with
  | t0 :: t1 :: rest =>
    if u64 (t1 - t0) <=? genesisGapThreshold then (false, times)
    else (true, u64 (t1 - 1) :: t1 :: rest)
  | _ => (false, times)
  end.

Fixpoint diffs_loop (blocks : list Z) (last : Z) : list Z :=
  match blocks with
  | [] => []
  | v :: rest =>
    let dif := u64 (v - last) in
    let dif := if i64 dif <? 0 then 0 else dif in
    dif :: diffs_loop rest v
  end.
Definition blockTimes (blocks : ChartUints) : ChartUints * ChartUints :=
  match blocks with
  | first :: (_ :: _) as rest => (rest, diffs_loop rest first)
  | _ => ([], [])
  end.

(** The loop over the blocks; the result is the stamps and the averages.
    [None] is a slice or index panic. *)
Fixpoint avg_loop (ticks all blocks : list Z) (i nextIdx workingOn next lastIdx : Z)
    : option (list Z * list Z) :=
  match blocks with
  | [] => Some ([], [])
  | t :: rest =>
    if next <? t then
      sub ← segment all lastIdx i;
      let pts := snd (blockTimes sub) in
      avg ← Avg pts 0 (zlen pts);
      let nextIdx := nextIdx + 1 in
      if zlen ticks - 1 <? nextIdx then Some ([workingOn], [avg]) else
      next ← slice_at ticks nextIdx;
      r ← avg_loop ticks all rest (i + 1) nextIdx next next i;
      Some (workingOn :: fst r, avg :: snd r)
    else avg_loop ticks all rest (i + 1) nextIdx workingOn next lastIdx
  end.
Definition avgBlockTimes (ticks blocks : ChartUints) : option (ChartUints * ChartUints) :=
  if zlen ticks <? 2 then Some ([], []) else
  workingOn ← slice_at ticks 0;
  next ← slice_at ticks 1;
  avg_loop ticks blocks blocks 0 1 workingOn next 0.

(** ** Model: daily bins of exact values *)
Record dailyData := mkDaily { d_timestamp : Z; d_height : Z; d_value : Z }.

Definition dayKey (t : Z) : Z := Z.quot t 86400.

(** The three parallel slices, as far as all of them go; a value that does not
    parse is skipped. *)
Fixpoint rows_of (timestamps heights : list Z) (values : list string) : list dailyData :=
  match timestamps, heights, values with
  | t :: ts, h :: hs, s :: ss =>
    match SetString10 s with
    | Some v => mkDaily t h v :: rows_of ts hs ss
    | None => rows_of ts hs ss
    end
  | _, _, _ => []
  end.

Definition supply_upd (_ : option dailyData) (r : dailyData) : dailyData := r.
Definition fees_upd (d : option dailyData) (r : dailyData) : dailyData :=
  match d with
  | Some d => mkDaily (d_timestamp d) (d_height d) (d_value d + d_value r)
  | None => mkDaily (d_timestamp r - Z.rem (d_timestamp r) 86400) (d_height r) (d_value r)
  end.

Definition daily (upd : option dailyData → dailyData → dailyData) (rows : list dailyData) : gmap Z dailyData :=
  foldl (λ m r, let k := dayKey (d_timestamp r) in <[k := upd (m !! k) r]> m) ∅ rows.

(** The keys of the map in increasing order, whatever the order of the map. *)
Definition dayKeys (m : gmap Z dailyData) : list Z := merge_sort Z.le (fst <$> map_to_list m).

Definition aggregateSKASupply (timestamps heights : list Z) (values : list string)
    : option (list Z * list Z * list string) :=
  match timestamps with
  | [] => None
  | _ =>
    let dailyMap := daily supply_upd (rows_of timestamps heights values) in
    let ds := omap (λ k, (k,.) <$> dailyMap !! k) (dayKeys dailyMap) in
    Some ((λ kd, i64 (fst kd * 86400)) <$> ds, (λ kd, d_height (snd kd)) <$> ds,
          (λ kd, bigString (d_value (snd kd))) <$> ds)
  end.

Definition aggregateSKAFees (timestamps heights : list Z) (values : list string)
    : option (list Z * list Z * list string) :=
  match timestamps with
  | [] => None
  | _ =>
    let dailyMap := daily fees_upd (rows_of timestamps heights values) in
    let ds := omap (λ k, dailyMap !! k) (dayKeys dailyMap) in
    Some (d_timestamp <$> ds, d_height <$> ds, (λ d, bigString (d_value d)) <$> ds)
  end.

(** ** Specification of the daily bins *)
Definition of_day (k : Z) (rows : list dailyData) : list dailyData :=
  List.filter (λ r, dayKey (d_timestamp r) =? k) rows.
Definition day_total (rows : list dailyData) (k : Z) : Z := total (d_value <$> of_day k rows).

Lemma of_day_snoc k rows r :
  of_day k (rows ++ [r]) = of_day k rows ++ (if dayKey (d_timestamp r) =? k then [r] else []).
Proof. unfold of_day. rewrite List.filter_app. cbn. by destruct (_ =? _). Qed.

Lemma daily_lookup upd rows k :
  daily upd rows !! k = foldl (λ o r, Some (upd o r)) None (of_day k rows).
Proof.
  induction rows as [|r rows IH] using rev_ind; [done|].
  unfold daily. rewrite foldl_snoc. fold (daily upd rows). rewrite of_day_snoc, foldl_app, <- IH.
  destruct (Z.eqb_spec (dayKey (d_timestamp r)) k) as [->|Hne]; cbn.
  - by rewrite lookup_insert_eq.
  - by rewrite lookup_insert_ne.
Qed.

Lemma daily_None upd rows k : daily upd rows !! k = None ↔ of_day k rows = [].
Proof.
  rewrite daily_lookup. destruct (of_day k rows) as [|r l] using rev_ind; [done|].
  rewrite foldl_snoc. split; [done|]. by destruct l.
Qed.

Lemma elem_of_of_day k rows r : r ∈ of_day k rows ↔ r ∈ rows ∧ dayKey (d_timestamp r) = k.
Proof. unfold of_day. rewrite !list_elem_of_In, List.filter_In, Z.eqb_eq. done. Qed.

(** The days are those of the rows, once each and in order. *)
Lemma dayKeys_spec upd rows :
  let days := dayKeys (daily upd rows) in
  StronglySorted Z.lt days ∧ ∀ k, k ∈ days ↔ of_day k rows ≠ [].
Proof.
  intros days. assert (Permutation days (fst <$> map_to_list (daily upd rows))) as Hp by apply merge_sort_Permutation.
  assert (NoDup days) as Hnd by (rewrite Hp; apply NoDup_fst_map_to_list).
  assert (StronglySorted Z.le days) as Hs by (apply (StronglySorted_merge_sort Z.le)). split.
  - clear Hp. induction Hs as [|k ks Hs IH Hall]; constructor.
    + apply IH. by apply NoDup_cons in Hnd as [_ ?].
    + apply NoDup_cons in Hnd as [Hk _]. rewrite Forall_forall in *. intros x Hx.
      specialize (Hall x Hx). assert (x ≠ k) by congruence. lia.
  - intros k. rewrite Hp, list_elem_of_fmap, <- (daily_None upd). split.
    + intros ([k' d] & -> & Hd%elem_of_map_to_list). cbn. congruence.
    + intros Hne. destruct (daily upd rows !! k) as [d|] eqn:E; [|done].
      exists (k, d). split; [done|]. by apply elem_of_map_to_list.
Qed.

(** Reading the map at its keys. *)
Lemma omap_keys {A B} (f : Z → option A) (g : A → B) (h : Z → B) (days : list Z) :
  (∀ k, k ∈ days → g <$> f k = Some (h k)) → g <$> omap f days = h <$> days.
Proof.
  induction days as [|k days IH]; intros Hf; [done|]. cbn.
  destruct (f k) as [a|] eqn:E; [|by specialize (Hf k ltac:(left)); rewrite E in Hf].
  specialize (Hf k ltac:(left)) as Hk. rewrite E in Hk. injection Hk as <-. cbn. f_equal.
  apply IH. intros k' Hk'. apply Hf. by right.
Qed.

(** What the two update functions leave of the rows of a day. *)
Lemma fees_fold rows k :
  of_day k rows ≠ [] →
  ∃ r0, head (of_day k rows) = Some r0 ∧
    daily fees_upd rows !! k = Some (mkDaily (k * 86400) (d_height r0) (day_total rows k)).
Proof.
  rewrite daily_lookup. unfold day_total. pose proof (elem_of_of_day k rows) as Hin.
  destruct (of_day k rows) as [|r0 l]; [done|]. intros _. exists r0. split; [done|].
  assert (dayKey (d_timestamp r0) = k) as Hk by (by apply Hin; left). clear Hin.
  induction l as [|r l IH] using rev_ind.
  - cbn. unfold fees_upd. do 2 f_equal; [|lia]. rewrite <- Hk. unfold dayKey.
    pose proof (Z.quot_rem (d_timestamp r0) 86400). lia.
  - rewrite app_comm_cons, foldl_snoc, IH, fmap_app, total_app. cbn. do 2 f_equal. lia.
Qed.

Lemma supply_fold rows k :
  daily supply_upd rows !! k = last (of_day k rows).
Proof.
  rewrite daily_lookup. destruct (of_day k rows) as [|r l] using rev_ind; [done|].
  by rewrite foldl_snoc, last_snoc.
Qed.

Lemma total_cons x l : total (x :: l) = x + total l.
Proof. done. Qed.

(** The totals of the days add up to the total of the rows. *)
Lemma total_indicator (k0 v : Z) (days : list Z) (f : Z → Z) :
  NoDup days → k0 ∈ days →
  total ((λ k, (if k0 =? k then v else 0) + f k) <$> days) = v + total (f <$> days).
Proof.
  intros Hnd. induction Hnd as [|k days Hk Hnd IH]; intros Hin; [by apply elem_of_nil in Hin|].
  assert (∀ l, k0 ∉ l → total ((λ k, (if k0 =? k then v else 0) + f k) <$> l) = total (f <$> l)) as Hout.
  { induction l as [|x l IHl]; intros Hx; [done|]. apply not_elem_of_cons in Hx as [Hx1 Hx2].
    rewrite !fmap_cons, !total_cons, IHl by done. destruct (Z.eqb_spec k0 x); [done|lia]. }
  rewrite !fmap_cons, !total_cons.
  apply elem_of_cons in Hin as [->|Hin].
  - rewrite Z.eqb_refl, Hout by done. lia.
  - destruct (Z.eqb_spec k0 k) as [->|_]; [done|]. rewrite IH by done. lia.
Qed.

Lemma day_totals (days : list Z) rows :
  NoDup days → (∀ r, r ∈ rows → dayKey (d_timestamp r) ∈ days) →
  total (day_total rows <$> days) = total (d_value <$> rows).
Proof.
  intros Hnd. induction rows as [|r rows IH]; intros Hin.
  - clear. induction days as [|k days IH]; [done|]. rewrite fmap_cons, total_cons, IH. done.
  - rewrite fmap_cons, total_cons.
    rewrite <- IH by (intros x Hx; apply Hin; by right).
    rewrite <- (total_indicator (dayKey (d_timestamp r)) (d_value r) days) by (try done; apply Hin; left).
    f_equal. apply list_fmap_ext. intros i k _. unfold day_total, of_day. cbn [List.filter].
    destruct (dayKey (d_timestamp r) =? k); done.
Qed.

Lemma sorted_lt_NoDup days : StronglySorted Z.lt days → NoDup days.
Proof.
  induction 1 as [|k days _ IH Hall]; constructor; [|done]. rewrite Forall_forall in Hall.
  intros Hk%Hall. lia.
Qed.

(** Daily fees are exact.  The result has one entry per UTC day that has
    a row with a parseable fee, in order; the stamp is the start of the day, the height
    that of the day's first such row, and the value is the decimal form of the
    exact sum of the day's fees, so the days together hold all fees. *)
Theorem aggregateSKAFees_daily timestamps heights values :
  timestamps ≠ [] →
  let rows := rows_of timestamps heights values in
  ∃ days, aggregateSKAFees timestamps heights values =
      Some ((λ k, k * 86400) <$> days, (λ k, default 0 (d_height <$> head (of_day k rows))) <$> days,
            (λ k, bigString (day_total rows k)) <$> days) ∧
    StronglySorted Z.lt days ∧ (∀ k, k ∈ days ↔ ∃ r, r ∈ rows ∧ dayKey (d_timestamp r) = k) ∧
    total (day_total rows <$> days) = total (d_value <$> rows).
Proof.
  intros Ht rows. destruct (dayKeys_spec fees_upd rows) as [Hs Hk].
  set (days := dayKeys (daily fees_upd rows)) in *. exists days.
  assert (∀ k, k ∈ days ↔ ∃ r, r ∈ rows ∧ dayKey (d_timestamp r) = k) as Hdays.
  { intros k. rewrite Hk. pose proof (elem_of_of_day k rows) as Hin. split.
    - destruct (of_day k rows) as [|r l]; [done|]. intros _. exists r. apply Hin. by left.
    - intros (r & Hr). apply Hin in Hr. intros E. rewrite E in Hr. by apply elem_of_nil in Hr. }
  split.
  - unfold aggregateSKAFees. destruct timestamps as [|t ts]; [done|]. fold rows. fold days. f_equal.
    f_equal; [f_equal|]; apply omap_keys; intros k (r0 & Hr0 & E)%Hk%fees_fold; rewrite E; [done| |done].
    by rewrite Hr0.
  - split; [done|]. split; [done|]. apply day_totals; [by apply sorted_lt_NoDup|].
    intros r Hr. apply Hdays. by exists r.
Qed.

Lemma last_elem {A} (l : list A) : l ≠ [] → ∃ x, last l = Some x ∧ x ∈ l.
Proof.
  intros [x E]%last_nonempty. exists x. split; [done|]. by apply last_Some_elem_of.
Qed.

Lemma rows_of_timestamps ts hs vs r : r ∈ rows_of ts hs vs → d_timestamp r ∈ ts.
Proof.
  revert hs vs. induction ts as [|t ts IH]; intros [|h hs] [|v vs] Hr; cbn in Hr; try (by apply elem_of_nil in Hr).
  destruct (SetString10 v); [apply elem_of_cons in Hr as [->|Hr]; [left|]|]; right; by eapply IH.
Qed.

(** Daily supply is the supply at the end of the day.  One entry per UTC day with a
    parseable value, in order, with height and value of the day's last such
    row; printing and parsing the value gives the recorded one back. *)
Theorem aggregateSKASupply_daily timestamps heights values :
  timestamps ≠ [] → Forall (λ t, - 2 ^ 63 <= t < 2 ^ 63) timestamps →
  let rows := rows_of timestamps heights values in
  ∃ days, StronglySorted Z.lt days ∧ (∀ k, k ∈ days ↔ ∃ r, r ∈ rows ∧ dayKey (d_timestamp r) = k) ∧
  ∃ hs vs, aggregateSKASupply timestamps heights values = Some ((λ k, k * 86400) <$> days, hs, vs) ∧
    hs = (λ k, default 0 (d_height <$> last (of_day k rows))) <$> days ∧
    SetString10 <$> vs = (λ k, d_value <$> last (of_day k rows)) <$> days.
Proof.
  intros Ht Hrange rows. destruct (dayKeys_spec supply_upd rows) as [Hs Hk].
  set (days := dayKeys (daily supply_upd rows)) in *. exists days. split; [done|]. split.
  { intros k. rewrite Hk. pose proof (elem_of_of_day k rows) as Hin. split.
    - destruct (of_day k rows) as [|r l]; [done|]. intros _. exists r. apply Hin. by left.
    - intros (r & Hr). apply Hin in Hr. intros E. rewrite E in Hr. by apply elem_of_nil in Hr. }
  assert (∀ k, k ∈ days → ∃ r, last (of_day k rows) = Some r ∧ i64 (k * 86400) = k * 86400) as Hlast.
  { intros k (r & E & Hr)%Hk%last_elem. exists r. split; [done|].
    apply elem_of_of_day in Hr as [Hr Hday]. apply rows_of_timestamps in Hr.
    rewrite Forall_forall in Hrange. specialize (Hrange _ Hr). cbn in Hrange. apply wrap_s_small; [lia|].
    unfold dayKey in Hday. pose proof (Z.quot_rem (d_timestamp r) 86400 ltac:(lia)).
    pose proof (Z.rem_bound_abs (d_timestamp r) 86400 ltac:(lia)).
    pose proof (Z.rem_sign_mul (d_timestamp r) 86400 ltac:(lia)). nia. }
  unfold aggregateSKASupply. destruct timestamps as [|t ts]; [done|]. fold rows. fold days.
  eexists _, _. split; [f_equal; f_equal; f_equal|split].
  - apply omap_keys. intros k (r & E & Ek)%Hlast. rewrite supply_fold, E. cbn. by rewrite Ek.
  - apply omap_keys. intros k (r & E & Ek)%Hlast. by rewrite supply_fold, E.
  - rewrite <- list_fmap_compose. apply omap_keys. intros k (r & E & Ek)%Hlast.
    rewrite supply_fold, E. cbn. by rewrite SetString10_bigString.
Qed.

(** ** Block times *)
Lemma accumulate_diffs (rest : list Z) : ∀ first acc,
  0 <= acc → Forall (λ t, first <= t) rest → StronglySorted Z.le rest →
  Forall (λ t, 0 <= t < 2 ^ 63) rest → 0 <= first - acc →
  (λ d, first - acc + d) <$> accumulate_loop (diffs_loop rest first) acc = rest.
Proof.
  induction rest as [|t rest IH]; intros first acc Ha Hge Hs Hr Hf; [done|].
  apply Forall_cons in Hge as [Hft _]. apply Forall_cons in Hr as [Ht Hr].
  apply StronglySorted_inv in Hs as [Hs Hall]. cbn.
  assert (u64 (t - first) = t - first) as -> by (apply wrap_u_small; lia).
  assert (i64 (t - first) = t - first) as -> by (apply wrap_s_small; lia).
  destruct (Z.ltb_spec (t - first) 0); [lia|].
  assert (u64 (acc + (t - first)) = acc + (t - first)) as -> by (apply wrap_u_small; lia).
  f_equal; [lia|]. replace (first - acc) with (t - (acc + (t - first))) by lia.
  apply IH; try done; lia.
Qed.

(** The block intervals add up to the block times.  For times that never
    go back, the stamps of the duration chart are the block times without the
    first, and the running total of its intervals, from the first block time
    on, is those stamps again. *)
Theorem blockTimes_accumulate t0 times :
  StronglySorted Z.le (t0 :: times) → Forall (λ t, 0 <= t < 2 ^ 63) (t0 :: times) →
  fst (blockTimes (t0 :: times)) = times ∧
  (λ d, t0 + d) <$> accumulate (snd (blockTimes (t0 :: times))) = times.
Proof.
  intros Hs Hr. apply StronglySorted_inv in Hs as [Hs Hall]. apply Forall_cons in Hr as [H0 Hr].
  destruct times as [|t1 times]; [done|]. split; [done|].
  pose proof (accumulate_diffs (t1 :: times) t0 0) as H. rewrite Z.sub_0_r in H.
  apply H; try done; lia.
Qed.

(** Correcting the genesis time is safe to repeat.  On times that
    increase, only the first may change, the times still increase, a second
    call changes nothing, and afterwards the first interval is within the
    threshold. *)
Theorem NormalizeGenesisBlockTime_idempotent times :
  StronglySorted Z.lt times → Forall (λ t, 0 <= t < 2 ^ 63) times →
  let '(changed, times') := NormalizeGenesisBlockTime times in
  tail times' = tail times ∧ (changed = false → times' = times) ∧ StronglySorted Z.lt times' ∧
  NormalizeGenesisBlockTime times' = (false, times') ∧
  ∀ t0 t1, times' !! 0%nat = Some t0 → times' !! 1%nat = Some t1 → 0 < t1 - t0 <= genesisGapThreshold.
Proof.
  intros Hs Hr. destruct times as [|t0 [|t1 rest]]; [by split_and!..|]. unfold NormalizeGenesisBlockTime.
  apply StronglySorted_inv in Hs as [Hs Hall]. rewrite !Forall_cons in Hr. destruct Hr as (H0 & H1 & _).
  assert (t0 < t1) as Hlt by (by apply Forall_cons in Hall as [? _]).
  assert (u64 (t1 - t0) = t1 - t0) as E by (apply wrap_u_small; lia). rewrite E.
  destruct (Z.leb_spec (t1 - t0) genesisGapThreshold) as [Hle|Hgt].
  - rewrite E. destruct (Z.leb_spec (t1 - t0) genesisGapThreshold); [|lia].
    split_and!; try done; [by constructor|]. intros ?? [= <-] [= <-]. lia.
  - assert (u64 (t1 - 1) = t1 - 1) as -> by (apply wrap_u_small; lia).
    replace (t1 - (t1 - 1)) with 1 by lia. split_and!; try done.
    + constructor; [done|]. apply StronglySorted_inv in Hs as [_ Hall1].
      constructor; [lia|]. eapply Forall_impl; [exact Hall1|]. intros x Hx. cbn in *. lia.
    + intros ?? [= <-] [= <-]. unfold genesisGapThreshold. lia.
Qed.

(** ** Averages per tick *)
Lemma avg_loop_spec ticks blocks : ∀ pre n workingOn next lastIdx,
  (n < length ticks)%nat → ticks !! n = Some next → 0 <= lastIdx <= zlen pre →
  ∃ ls ds, avg_loop ticks (pre ++ blocks) blocks (zlen pre) (Z.of_nat n) workingOn next lastIdx = Some (ls, ds) ∧
    length ls = length ds ∧ ls = take (length ds) (workingOn :: drop (S n) ticks).
Proof.
  induction blocks as [|t blocks IH]; intros pre n workingOn next lastIdx Hn Hnext Hlast; cbn [avg_loop].
  { by exists [], []. }
  assert (pre ++ t :: blocks = (pre ++ [t]) ++ blocks) as Epre by (by rewrite <- app_assoc).
  assert (zlen pre + 1 = zlen (pre ++ [t])) as Elen by (by rewrite zlen_app).
  destruct (next <? t).
  2:{ rewrite Epre, Elen. apply IH; [done..|]. rewrite <- Elen. lia. }
  rewrite segment_Some; [|lia..|rewrite zlen_app; pose proof (zlen_nonneg (t :: blocks)); lia].
  cbn [mbind option_bind]. set (pts := snd (blockTimes _)).
  rewrite Avg_Some by (pose proof (zlen_nonneg pts); lia). set (avg := day_avg pts _ _). cbn [mbind option_bind].
  destruct (Z.ltb_spec (zlen ticks - 1) (Z.of_nat n + 1)) as [Hend|Hmore].
  { exists [workingOn], [avg]. by split_and!. }
  replace (Z.of_nat n + 1) with (Z.of_nat (S n)) in * by lia.
  destruct (slice_at_Some ticks (Z.of_nat (S n))) as [next' E']; [lia|]. rewrite E'. cbn [mbind option_bind].
  assert (ticks !! S n = Some next') as Hnext'.
  { unfold slice_at in E'. destruct (Z.ltb_spec (Z.of_nat (S n)) 0); [lia|]. by rewrite Nat2Z.id in E'. }
  destruct (IH (pre ++ [t]) (S n) next' next' (zlen pre)) as (ls & ds & E & Hl & Els); [|done| |].
  { unfold zlen in *. lia. }
  { rewrite <- Elen. pose proof (zlen_nonneg pre). lia. }
  rewrite Epre, Elen, E. cbn [mbind option_bind fst snd]. exists (workingOn :: ls), (avg :: ds).
  split; [done|]. split; [cbn; by rewrite Hl|]. cbn [length take]. f_equal.
  rewrite (drop_S ticks next' (S n)) by done. done.
Qed.

(** The call does not panic, and its stamps are the first tick followed by the
    ticks from the third on: from its second entry on an average carries the
    stamp of the end of its interval, and the second tick is never used. *)
Lemma avgBlockTimes_stamps t0 t1 ticks blocks :
  ∃ ls ds, avgBlockTimes (t0 :: t1 :: ticks) blocks = Some (ls, ds) ∧
    length ls = length ds ∧ ls = take (length ds) (t0 :: ticks).
Proof.
  unfold avgBlockTimes. assert ((zlen (t0 :: t1 :: ticks) <? 2) = false) as -> by (apply Z.ltb_ge; unfold zlen; cbn; lia).
  cbn [mbind option_bind slice_at Z.ltb Z.compare].
  apply (avg_loop_spec (t0 :: t1 :: ticks) blocks [] 1 t0 t1 0); [cbn; lia|done|unfold zlen; cbn; lia].
Qed.

(** ** Instances *)
Module Witness.

Definition stamps : list Z := [100; 200; 86500; 86600; 90000].
Definition fees : list string := ["5"; "x"; "18446744073709551616"; "-1"; "7"].

Lemma aggregateSKAFees_daily_witness :
  aggregateSKAFees stamps [1; 2; 3; 4; 5] fees = Some ([0; 86400], [1; 3], ["5"; "18446744073709551622"]) ∧
  ∃ days, StronglySorted Z.lt days ∧
    total (day_total (rows_of stamps [1; 2; 3; 4; 5] fees) <$> days) =
    total (d_value <$> rows_of stamps [1; 2; 3; 4; 5] fees).
Proof.
  split; [by vm_compute|].
  destruct (aggregateSKAFees_daily stamps [1; 2; 3; 4; 5] fees) as (days & _ & Hs & _ & Ht); [done|].
  exists days. split; [exact Hs|exact Ht].
Defined.

Lemma aggregateSKASupply_daily_witness :
  aggregateSKASupply stamps [1; 2; 3; 4; 5] fees = Some ([0; 86400], [1; 5], ["5"; "7"]) ∧
  ∃ days hs vs, aggregateSKASupply stamps [1; 2; 3; 4; 5] fees = Some ((λ k, k * 86400) <$> days, hs, vs).
Proof.
  split; [by vm_compute|].
  destruct (aggregateSKASupply_daily stamps [1; 2; 3; 4; 5] fees) as (days & _ & _ & hs & vs & E & _);
    [done|repeat constructor; lia|].
  exists days, hs, vs. exact E.
Defined.

Lemma blockTimes_accumulate_witness :
  blockTimes [7; 10; 10; 31] = ([10; 10; 31], [3; 0; 21]) ∧
  (λ d, 7 + d) <$> accumulate [3; 0; 21] = [10; 10; 31].
Proof.
  split; [by vm_compute|]. refine (proj2 (blockTimes_accumulate 7 [10; 10; 31] _ _)).
  - repeat constructor; lia.
  - repeat constructor; lia.
Defined.

Lemma NormalizeGenesisBlockTime_idempotent_witness :
  NormalizeGenesisBlockTime [10; 20000; 20600] = (true, [19999; 20000; 20600]) ∧
  NormalizeGenesisBlockTime [19999; 20000; 20600] = (false, [19999; 20000; 20600]).
Proof.
  split; [by vm_compute|].
  refine (proj1 (proj2 (proj2 (proj2 (NormalizeGenesisBlockTime_idempotent [10; 20000; 20600] _ _))))).
  - repeat constructor; lia.
  - repeat constructor; lia.
Defined.

End Witness.
