(* ===== verification/PoolInfoCache.v ===== *)
(** * The ticket pool info cache (stakedb/stakedb.go, PoolInfoCache)

    A map from block hashes to pool info with a queue of the hashes in the
    order they were stored, for eviction.  The theorem is its contract as a
    sliding window: the cache holds the infos of the last [maxSize - 1] stored
    blocks and nothing else. *)
From S2P Require Import Prelude.

(** ** Model *)
Record TicketPoolInfo := mkTPI {
  tpi_Height : Z; tpi_Size : Z; tpi_Value : float64; tpi_ValAvg : float64; tpi_Winners : list string
}.

(** Pool infos are stored by pointer; [None] is nil. *)
Record PoolInfoCache := mkPIC {
  poolInfo : gmap Hash (option TicketPoolInfo);
  expireQueue : list Hash;
  maxSize : Z
}.

Inductive PICErr := ESize (size : Z).

Definition NewPoolInfoCache (size : Z) : res PICErr PoolInfoCache :=
  if size <? 2 then Err (ESize size) else Ok (mkPIC ∅ [] size).

Definition Get (c : PoolInfoCache) (hash : Hash) : option TicketPoolInfo * bool :=
  match poolInfo c !! hash with Some tpi => (tpi, true) | None => (None, false) end.

(** [expireQueue[0]]; the slice is cut and the entry deleted. *)
Definition expire_first (c : PoolInfoCache) : res PICErr PoolInfoCache :=
  match expireQueue c with
  | [] => Panic
  | expireHash :: rest => Ok (mkPIC (delete expireHash (poolInfo c)) rest (maxSize c))
  end.

Definition push_back (hash : Hash) (c : PoolInfoCache) : PoolInfoCache :=
  mkPIC (poolInfo c) (expireQueue c ++ [hash]) (maxSize c).

Definition Set_ (c : PoolInfoCache) (hash : Hash) (p : option TicketPoolInfo) : res PICErr PoolInfoCache :=
  let c := mkPIC (<[hash := p]> (poolInfo c)) (expireQueue c) (maxSize c) in
  if maxSize c <=? zlen (expireQueue c) + 1 then
    match expire_first c with
    | Ok c => Ok (push_back hash c)
    | r => r
    end
  else Ok (push_back hash c).

(** The loop of SetCapacity removes one hash per iteration. *)
Fixpoint shrink (fuel : nat) (c : PoolInfoCache) : res PICErr PoolInfoCache :=
  if maxSize c <=? zlen (expireQueue c) then
    match fuel with
    | O => NoFuel
    | S fuel => match expire_first c with Ok c => shrink fuel c | r => r end
    end
  else Ok c.

Definition SetCapacity (c : PoolInfoCache) (size : Z) : res PICErr PoolInfoCache :=
  if size <? 2 then Err (ESize size) else
  shrink (length (expireQueue c)) (mkPIC (poolInfo c) (expireQueue c) size).

(** ** Specification: a window over the stored blocks *)
Abbreviation entry := (Hash * option TicketPoolInfo)%type.

Inductive call :=
| CSet (hash : Hash) (p : option TicketPoolInfo)
| CSetCapacity (size : Z).

(** The window after a call: the newest entries, at most [maxSize - 1] right
    after a store.  Shrinking keeps the newest ones that fit. *)
Definition newest (n : Z) (w : list entry) : list entry := drop (length w - Z.to_nat n) w.
Definition window_step (s : Z * list entry) (k : call) : Z * list entry :=
  let '(size, w) := s in
  match k with
  | CSet h p => (size, newest (size - 1) (w ++ [(h, p)]))
  | CSetCapacity size' => if size' <? 2 then s else (size', newest (size' - 1) w)
  end.

(** The cache after a call; a refused capacity leaves it as it is. *)
Definition cache_step (c : PoolInfoCache) (k : call) : res PICErr PoolInfoCache :=
  match k with
  | CSet h p => Set_ c h p
  | CSetCapacity size => match SetCapacity c size with Err _ => Ok c | r => r end
  end.
Fixpoint run (c : PoolInfoCache) (ks : list call) : res PICErr PoolInfoCache :=
  match ks with
  | [] => Ok c
  | k :: ks => match cache_step c k with Ok c => run c ks | r => r end
  end.

Definition stored (ks : list call) : list Hash :=
  omap (λ k, match k with CSet h _ => Some h | CSetCapacity _ => None end) ks.

(** The cache and its window. *)
Record represents (c : PoolInfoCache) (s : Z * list entry) : Prop := {
  rep_size : maxSize c = fst s;
  rep_min : 2 <= fst s;
  rep_queue : expireQueue c = fst <$> snd s;
  rep_fit : zlen (snd s) <= fst s - 1;
  rep_map : poolInfo c = list_to_map (snd s);
  rep_nodup : NoDup (fst <$> snd s)
}.

Lemma zlen_fmap {A B} (f : A → B) (l : list A) : zlen (f <$> l) = zlen l.
Proof. unfold zlen. by rewrite length_fmap. Qed.

(** Evicting the oldest entry of a window. *)
Lemma expire_first_rep size h p w :
  NoDup (h :: (fst <$> w)) →
  expire_first (mkPIC (list_to_map ((h, p) :: w)) (h :: (fst <$> w)) size) =
    Ok (mkPIC (list_to_map w) (fst <$> w) size).
Proof.
  intros [Hh _]%NoDup_cons. unfold expire_first. cbn. rewrite delete_insert_id; [done|].
  by apply not_elem_of_list_to_map_1.
Qed.

Lemma newest_all n (w : list entry) : zlen w <= n → newest n w = w.
Proof. intros H. unfold newest, zlen in *. by replace (length w - Z.to_nat n)%nat with O by lia. Qed.
Lemma newest_cons n x (w : list entry) : 0 <= n <= zlen w → newest n (x :: w) = newest n w.
Proof.
  intros H. unfold newest, zlen in *. cbn [length].
  by replace (S (length w) - Z.to_nat n)%nat with (S (length w - Z.to_nat n)) by lia.
Qed.
Lemma zlen_newest n (w : list entry) : 0 <= n → zlen (newest n w) <= n.
Proof. intros H. unfold newest, zlen. rewrite length_drop. lia. Qed.

Lemma list_to_map_snoc_new (w : list entry) h p :
  h ∉ fst <$> w → (list_to_map (w ++ [(h, p)]) : gmap Hash _) = <[h := p]> (list_to_map w).
Proof.
  intros Hh. rewrite list_to_map_app. cbn.
  rewrite insert_empty, insert_union_singleton_r; [done|]. by apply not_elem_of_list_to_map_1.
Qed.

Lemma Set_rep c s h p :
  represents c s → h ∉ fst <$> snd s →
  ∃ c', Set_ c h p = Ok c' ∧ represents c' (window_step s (CSet h p)).
Proof.
  destruct s as [size w]. intros [Hsz Hmin Hq Hfit Hm Hnd] Hh. cbn [fst snd window_step] in *.
  assert (NoDup (fst <$> w ++ [(h, p)])) as Hnd'.
  { rewrite fmap_app. apply NoDup_app. split; [done|]. split; [|by apply NoDup_singleton].
    intros x Hx Hx'%list_elem_of_singleton. cbn in Hx'. congruence. }
  unfold Set_. cbn [maxSize expireQueue poolInfo]. rewrite Hsz, Hq, Hm, <- list_to_map_snoc_new, zlen_fmap by done.
  destruct (Z.leb_spec size (zlen w + 1)) as [Hfull|Hroom].
  - destruct w as [|[h0 p0] w]; [change (zlen []) with 0 in *; lia|].
    assert (zlen ((h0, p0) :: w) = zlen w + 1) as Ew by (unfold zlen; cbn [length]; lia).
    rewrite fmap_cons. cbn [fst app]. unfold expire_first. cbn [expireQueue poolInfo maxSize].
    eexists. split; [reflexivity|]. rewrite newest_cons, newest_all by (rewrite zlen_app; change (zlen [_]) with 1; lia).
    assert (h0 ∉ fst <$> w ++ [(h, p)]) as Hh0 by (by apply NoDup_cons in Hnd' as [? _]).
    split; cbn [fst snd push_back poolInfo expireQueue maxSize]; try done.
    + by rewrite fmap_app.
    + rewrite zlen_app. change (zlen [(h, p)]) with 1. lia.
    + change (list_to_map ((h0, p0) :: w ++ [(h, p)])) with (<[h0 := p0]> (list_to_map (w ++ [(h, p)]) : gmap Hash _)).
      rewrite delete_insert_id; [done|]. by apply not_elem_of_list_to_map_1.
    + by apply NoDup_cons in Hnd' as [_ ?].
  - eexists. split; [reflexivity|].
    assert (zlen (w ++ [(h, p)]) = zlen w + 1) as El by (by rewrite zlen_app).
    rewrite newest_all by lia. split; cbn [fst snd push_back poolInfo expireQueue maxSize]; try done; [|lia].
    by rewrite fmap_app.
Qed.

Lemma shrink_rep size w : ∀ fuel,
  2 <= size → NoDup (fst <$> w) → (length w <= fuel)%nat →
  ∃ c', shrink fuel (mkPIC (list_to_map w) (fst <$> w) size) = Ok c' ∧
    represents c' (size, newest (size - 1) w).
Proof.
  intros fuel Hs. revert w. induction fuel as [|fuel IH]; intros w Hnd Hf; cbn [shrink maxSize expireQueue]; rewrite zlen_fmap.
  - destruct w; [|cbn in Hf; lia]. change (zlen []) with 0. destruct (Z.leb_spec size 0); [lia|].
    eexists. split; [done|]. rewrite newest_all by (change (zlen []) with 0; lia).
    split; cbn; try done. change (zlen []) with 0. lia.
  - destruct (Z.leb_spec size (zlen w)) as [Hbig|Hok].
    + destruct w as [|[h p] w]; [change (zlen []) with 0 in *; lia|].
      rewrite expire_first_rep by done. destruct (IH w) as (c' & E & Hr); [by apply NoDup_cons in Hnd as [_ ?]|cbn in Hf; lia|].
      exists c'. split; [done|]. rewrite newest_cons; [done|].
      assert (zlen ((h, p) :: w) = zlen w + 1) by (unfold zlen; cbn [length]; lia). lia.
    + eexists. split; [done|]. rewrite newest_all by lia. split; cbn; try done. lia.
Qed.

Lemma SetCapacity_rep c s size :
  represents c s →
  ∃ c', cache_step c (CSetCapacity size) = Ok c' ∧ represents c' (window_step s (CSetCapacity size)).
Proof.
  destruct s as [size0 w]. intros Hr. pose proof Hr as [Hsz Hmin Hq Hfit Hm Hnd]. cbn [fst snd] in *.
  cbn [cache_step window_step]. unfold SetCapacity. destruct (Z.ltb_spec size 2); [by exists c|].
  rewrite Hq, Hm. destruct (shrink_rep size w (length (fst <$> w))) as (c' & -> & Hc'); [lia|done|by rewrite length_fmap|].
  by exists c'.
Qed.

(** The hashes of the window were stored. *)
Lemma window_stored s k x :
  x ∈ fst <$> snd (window_step s k) → x ∈ fst <$> snd s ∨ stored [k] = [x].
Proof.
  destruct s as [size w]. assert (∀ n (l : list entry), x ∈ fst <$> newest n l → x ∈ fst <$> l) as Hsub.
  { intros n l Hx. unfold newest in Hx. rewrite fmap_drop in Hx.
    rewrite <- (take_drop (length l - Z.to_nat n) (fst <$> l)). apply elem_of_app. by right. }
  destruct k as [h p|sz]; cbn.
  - intros Hx%Hsub. rewrite fmap_app, elem_of_app in Hx. cbn in Hx.
    destruct Hx as [?|?%list_elem_of_singleton]; [by left|right; congruence].
  - destruct (_ <? 2); [by left|]. intros Hx%Hsub. by left.
Qed.

Lemma run_rep ks : ∀ c s,
  represents c s → NoDup (stored ks) → (∀ h, h ∈ stored ks → h ∉ fst <$> snd s) →
  ∃ c', run c ks = Ok c' ∧ represents c' (foldl window_step s ks).
Proof.
  induction ks as [|k ks IH]; intros c s Hr Hnd Hnew; cbn [run foldl]; [by exists c|].
  assert (∃ c1, cache_step c k = Ok c1 ∧ represents c1 (window_step s k)) as (c1 & -> & Hr1).
  { destruct k as [h p|size]; [|by apply SetCapacity_rep]. apply Set_rep; [done|]. apply Hnew. by left. }
  assert (stored (k :: ks) = stored [k] ++ stored ks) as Est by (by destruct k).
  rewrite Est in Hnd, Hnew. apply NoDup_app in Hnd as (_ & Hdis & Hnd).
  apply IH; [done|done|]. intros h Hh Hin. destruct (window_stored _ _ _ Hin) as [Hw|E].
  - by apply (Hnew h); [apply elem_of_app; right|].
  - rewrite E in Hdis. apply (Hdis h); [by left|done].
Qed.

(** The cache is a sliding window.  From a new cache of size at least 2,
    after any sequence of stores of distinct blocks and capacity changes, no
    call panics or loops, and Get finds a block exactly when it is in the
    window of the newest stores that fit, with the info stored for it. *)
Theorem PoolInfoCache_window size c0 ks :
  NewPoolInfoCache size = Ok c0 → NoDup (stored ks) →
  ∃ c, run c0 ks = Ok c ∧
    let '(size', w) := foldl window_step (size, []) ks in
    maxSize c = size' ∧ expireQueue c = fst <$> w ∧ zlen w <= size' - 1 ∧
    ∀ h p, Get c h = (p, true) ↔ (h, p) ∈ w.
Proof.
  unfold NewPoolInfoCache. destruct (Z.ltb_spec size 2); [done|]. intros [= <-] Hnd.
  destruct (run_rep ks (mkPIC ∅ [] size) (size, [])) as (c & E & Hr); [|done| |].
  - split; cbn; try done; [change (zlen []) with 0; lia|constructor].
  - intros h _. apply not_elem_of_nil.
  - exists c. split; [done|]. destruct (foldl window_step (size, []) ks) as [size' w].
    destruct Hr as [Hsz Hmin Hq Hfit Hm Hw]. cbn [fst snd] in *. split_and!; try done.
    intros h p. unfold Get. rewrite Hm, (elem_of_list_to_map (M:=gmap Hash) w h p Hw).
    destruct ((list_to_map w : gmap Hash _) !! h) as [q|]; [|done]. split; [by intros [= ->]|by intros [= ->]].
Qed.

(** Storing the oldest block again when the cache is full loses its info: the
    eviction removes the entry that was just stored. *)
Lemma Set_again_loses h p q :
  ∃ c, run (mkPIC ∅ [] 2) [CSet h p; CSet h q] = Ok c ∧ Get c h = (None, false).
Proof.
  eexists. split; [reflexivity|]. unfold Get. cbn. by rewrite lookup_delete_eq.
Qed.

(** ** Instances *)
Module Witness.
Definition info (n : Z) : option TicketPoolInfo := Some (mkTPI n 10 (f64_of_Z 20) (f64_of_Z 2) []).
Definition calls : list call :=
  [CSet [1] (info 1); CSet [2] (info 2); CSet [3] (info 3); CSetCapacity 1; CSetCapacity 3; CSet [4] (info 4)].

Lemma PoolInfoCache_window_witness :
  foldl window_step (4, []) calls = (3, [([3], info 3); ([4], info 4)]) ∧
  ∃ c, run (mkPIC ∅ [] 4) calls = Ok c ∧ Get c [3] = (info 3, true).
Proof.
  split; [by vm_compute|].
  destruct (PoolInfoCache_window 4 (mkPIC ∅ [] 4) calls) as (c & E & H).
  - reflexivity.
  - apply (bool_decide_unpack _). vm_compute. exact I.
  - exists c. split; [exact E|]. destruct H as (_ & _ & _ & H). apply H. by left.
Defined.
End Witness.
