(* ===== verification/StakeTx.v ===== *)
(** * Stake transactions of a block (txhelpers/staketree.go)

    The fields of transactions and blocks that the explorer reads, the
    predicates of the node library that tell tickets, votes and revocations
    apart, and the functions that list the tickets a block buys, votes and
    revokes. *)
From S2P Require Import Prelude.

(** ** Transactions and blocks

    These structs belong to the node library ([wire], [dcrutil]); the records
    hold the fields the explorer reads, and the hash that the library computes
    for the object.  An SKA amount is a [*big.Int] that may be nil. *)
Record OutPoint := mkOutPoint { op_Hash : Hash; op_Index : Z; op_Tree : Z }.
Record TxIn := mkTxIn { ti_PreviousOutPoint : OutPoint; ti_ValueIn : Z; ti_SKAValueIn : option Z }.
Record TxOut := mkTxOut {
  to_Value : Z; to_CoinType : Z; to_SKAValue : option Z; to_PkScript : bytes
}.
Record MsgTx := mkTx { tx_Hash : Hash; tx_TxIn : list TxIn; tx_TxOut : list TxOut }.
Record Block := mkBlock {
  b_Hash : Hash; b_Height : Z; b_PrevBlock : Hash; b_STransactions : list MsgTx
}.
Record BlockHeader := mkHeader { hdr_Height : Z; hdr_PrevBlock : Hash }.
Definition Header (b : Block) : BlockHeader := mkHeader (b_Height b) (b_PrevBlock b).

(** [stake.IsSStx], [stake.IsSSGen] and [stake.IsSSRtx] of the node library. *)
Class StakeTypes := {
  IsSStx : MsgTx → bool;
  IsSSGen : MsgTx → bool;
  IsSSRtx : MsgTx → bool
}.

Section StakeTree.
Context {ST : StakeTypes}.

Definition TicketsInBlock (bl : Block) : list Hash * list MsgTx :=
  foldl (λ '(tickets, msgTxs) stx,
    if IsSStx stx then (tickets ++ [tx_Hash stx], msgTxs ++ [stx]) else (tickets, msgTxs))
    ([], []) (b_STransactions bl).

Definition TicketTxnsInBlock (bl : Block) : list Hash * list MsgTx :=
  foldl (λ '(tickets, ticketTxns) stx,
    if IsSStx stx then (tickets ++ [tx_Hash stx], ticketTxns ++ [stx]) else (tickets, ticketTxns))
    ([], []) (b_STransactions bl).

Definition SSTXInBlock (bl : Block) : list MsgTx := snd (TicketTxnsInBlock bl).

(** The hash of the outpoint of input [i] of each selected transaction; [None]
    is the index panic of a transaction with too few inputs. *)
Fixpoint spent_by (sel : MsgTx → bool) (i : Z) (tickets : list Hash) (txs : list MsgTx) : option (list Hash) :=
  match txs with
  | [] => Some tickets
  | stx :: txs =>
    if sel stx then
      match slice_at (tx_TxIn stx) i with
      | None => None
      | Some vin => spent_by sel i (tickets ++ [op_Hash (ti_PreviousOutPoint vin)]) txs
      end
    else spent_by sel i tickets txs
  end.

Definition TicketsSpentInBlock (bl : Block) : option (list Hash) :=
  spent_by IsSSGen 1 [] (b_STransactions bl).
Definition RevokedTicketsInBlock (bl : Block) : option (list Hash) :=
  spent_by IsSSRtx 0 [] (b_STransactions bl).

Definition VotesInBlock (bl : Block) : list Hash :=
  foldl (λ votes stx, if IsSSGen stx then votes ++ [tx_Hash stx] else votes) [] (b_STransactions bl).

(** The value a ticket was bought for, [TxOut[0].Value]. *)
Definition ticketValue (tx : MsgTx) : option Z := to_Value <$> slice_at (tx_TxOut tx) 0.

#[global] Arguments ticketValue : simpl never.

(** ** Behaviour *)
Lemma TicketsInBlock_filter bl :
  TicketsInBlock bl =
    (tx_Hash <$> filter (λ tx, IsSStx tx) (b_STransactions bl),
     filter (λ tx, IsSStx tx) (b_STransactions bl)).
Proof.
  unfold TicketsInBlock. generalize (b_STransactions bl). intros txs.
  assert (∀ (ts : list Hash) (ms : list MsgTx),
    foldl (λ '(tickets, msgTxs) stx,
      if IsSStx stx then (tickets ++ [tx_Hash stx], msgTxs ++ [stx]) else (tickets, msgTxs)) (ts, ms) txs =
    (ts ++ (tx_Hash <$> filter (λ tx, IsSStx tx) txs), ms ++ filter (λ tx, IsSStx tx) txs)) as G.
  { induction txs as [|tx txs IH]; intros ts ms; cbn [foldl].
    - by rewrite !app_nil_r.
    - rewrite filter_cons. destruct (IsSStx tx); cbn; rewrite IH; [|done].
      by rewrite <- !app_assoc. }
  apply (G [] []).
Qed.

Lemma TicketTxnsInBlock_eq bl : TicketTxnsInBlock bl = TicketsInBlock bl.
Proof. reflexivity. Qed.
End StakeTree.
