(* ===== verification/StakeDatabase.v ===== *)
(** * The stake database (stakedb/stakedb.go, stakedb/chainmonitor.go)

    The stake database follows the best chain in three places at once: the
    stake node of the node library with its own database, the ticket pool with
    its diffs ([TicketPool]), and a cache of the live tickets with their values
    and the sum of those values.  The specification is a history: the blocks
    connected from genesis on and the diffs they made.  The theorems show that
    connecting, disconnecting, rewinding, reorganizing and recovering at start
    keep the three places at the same history, and what happens when a write
    fails half way. *)
From S2P Require Import Prelude PoolDiff TicketPool PoolInfoCache StakeTx.
Open Scope Z_scope.

(** ** The node library

    [stake.Node], [database.DB] as the stake package uses it, the header bytes
    and lottery IV of a block, amounts in coins and the printing of hashes.
    [Some None] of ConnectNode and DisconnectNode is a nil node without an
    error; [None] is an error. *)
Class StakeLib := {
  Node : Type;
  SDB : Type;
  IV : Type;
  UndoData : Type;
  sn_Height : Node → Z;
  sn_Winners : Node → list Hash;
  sn_ExpiredByBlock : Node → list Hash;
  sn_LiveTickets : Node → list Hash;
  sn_PoolSize : Node → Z;
  sn_UndoData : Node → UndoData;
  BlockHeaderBytes : Block → option bytes;
  CalcHash256PRNGIV : bytes → IV;
  ConnectNode : Node → IV → list Hash → list Hash → list Hash → option (option Node);
  DisconnectNode : Node → IV → SDB → option (option Node);
  metadata_Get : SDB → bytes → option bytes;
  WriteConnectedBestNode : SDB → Node → Hash → option SDB;
  WriteDisconnectedBestNode : SDB → Node → Hash → UndoData → option SDB;
  LoadBestNode : SDB → Z → Hash → BlockHeader → option Node;
  InitDatabaseState : SDB → Hash → option (Node * SDB);
  ToCoin : Z → float64;
  Hash_String : Hash → string;
  BlockHash : BlockHeader → Hash
}.

(** The node's RPC client.  [None] is a non-nil error. *)
Record NodeClient := mkClient {
  GetBlockHash : Z → option Hash;
  GetBlock : Hash → option Block;
  GetBlockHeader : Hash → option BlockHeader;
  GetRawTransaction : Hash → option MsgTx
}.

(** The parameters of the network that the package reads. *)
Record NetParams := mkNetParams { TicketMaturity : Z; GenesisHash : Hash }.

Inductive SDErr :=
| ECannotConnect (height best : Z)
| EHeaderBytes                  (** unable to serialize block header *)
| EConnectNode | ENilNode       (** ConnectNode failed, or gave a nil node *)
| EUpdate                       (** the stake database refused a write *)
| EChainState                   (** missing key for chain state data *)
| EGetBlock | EGetHeader | EGetTx
| EDisconnectNode | ENilParent
| ENotSynced (stakeHeight poolHeight : Z)
| ENoSideChain
| EConnectingBlock (hash : Hash)
| ECreate | EInit | EClose
| EPoolDB (e : TPErr).

(** ** Model *)
Section Model.
Context {DB : Type} {BDB : Badger DB} {ST : StakeTypes} {SL : StakeLib}.
Context (params : NetParams).

(** [BestNode] is nil until the database is opened.  [signals] are the
    goroutines [go db.signalWaiters(height, hash)] started so far. *)
Record StakeDatabase := mkSD {
  StakeDB : SDB;
  BestNode : option Node;
  blockCache : gmap Z Block;
  liveTicketCache : gmap Hash Z;
  poolValue : Z;
  sd_poolInfo : PoolInfoCache;
  PoolDB : TicketPool DB;
  signals : list (Z * Hash)
}.
Abbreviation SDM := (goM StakeDatabase SDErr).

Definition set_StakeDB x (db : StakeDatabase) : StakeDatabase :=
  mkSD x (BestNode db) (blockCache db) (liveTicketCache db) (poolValue db) (sd_poolInfo db) (PoolDB db) (signals db).
Definition set_BestNode x (db : StakeDatabase) : StakeDatabase :=
  mkSD (StakeDB db) x (blockCache db) (liveTicketCache db) (poolValue db) (sd_poolInfo db) (PoolDB db) (signals db).
Definition set_blockCache x (db : StakeDatabase) : StakeDatabase :=
  mkSD (StakeDB db) (BestNode db) x (liveTicketCache db) (poolValue db) (sd_poolInfo db) (PoolDB db) (signals db).
Definition set_tickets x v (db : StakeDatabase) : StakeDatabase :=
  mkSD (StakeDB db) (BestNode db) (blockCache db) x v (sd_poolInfo db) (PoolDB db) (signals db).
Definition set_poolInfo x (db : StakeDatabase) : StakeDatabase :=
  mkSD (StakeDB db) (BestNode db) (blockCache db) (liveTicketCache db) (poolValue db) x (PoolDB db) (signals db).
Definition set_PoolDB x (db : StakeDatabase) : StakeDatabase :=
  mkSD (StakeDB db) (BestNode db) (blockCache db) (liveTicketCache db) (poolValue db) (sd_poolInfo db) x (signals db).
Definition add_signal s (db : StakeDatabase) : StakeDatabase :=
  mkSD (StakeDB db) (BestNode db) (blockCache db) (liveTicketCache db) (poolValue db) (sd_poolInfo db) (PoolDB db) (signals db ++ [s]).

(** A dereference of [db.BestNode]. *)
Definition bestNode : SDM Node := λ db,
  match BestNode db with Some n => (Ok n, db) | None => (Panic, db) end.

(** A value or an error. *)
Definition orFail {A} (e : SDErr) (o : option A) : SDM A :=
  match o with Some x => mret x | None => fail e end.
Definition orPanic {A} (o : option A) : SDM A :=
  match o with Some x => mret x | None => panic end.

(** A call of a method of [db.PoolDB]. *)
Definition onPool {A} (m : goM (TicketPool DB) TPErr A) : SDM A := λ db,
  let '(r, tp) := m (PoolDB db) in
  (match r with Ok a => Ok a | Err e => Err (EPoolDB e) | Panic => Panic | NoFuel => NoFuel end,
   set_PoolDB tp db).

(** [Height]: 0 when the database is not open. *)
Definition sd_Height (db : StakeDatabase) : Z :=
  match BestNode db with Some n => sn_Height n | None => 0 end.

(** *** Blocks *)
Definition BlockCached (ind : Z) (db : StakeDatabase) : option Block := blockCache db !! ind.

Definition getBlockByHeight (client : NodeClient) (height : Z) : option Block :=
  blockhash ← GetBlockHash client height; GetBlock client blockhash.

(** The block, nil when it cannot be had, and whether it was in the cache. *)
Definition block (client : NodeClient) (ind : Z) (db : StakeDatabase) : option Block * bool :=
  match BlockCached ind db with
  | Some b => (Some b, true)
  | None => (getBlockByHeight client ind, false)
  end.

Definition ForgetBlock (ind : Z) (db : StakeDatabase) : StakeDatabase :=
  set_blockCache (delete ind (blockCache db)) db.

(** *** The live ticket cache *)
Definition addTicket (hash : Hash) (val : Z) (db : StakeDatabase) : StakeDatabase :=
  set_tickets (<[hash := val]> (liveTicketCache db)) (i64 (poolValue db + val)) db.

Fixpoint applyIn (client : NodeClient) (ins : list Hash) (i : Z) (inVals : option (list Z)) : SDM () :=
  match ins with
  | [] => mret ()
  | hash :: ins =>
    cached ← gets (λ db, liveTicketCache db !! hash);
    match cached with
    | Some _ => mret ()
    | None =>
      match inVals with
      | None =>
        match GetRawTransaction client hash with
        | None => mret ()
        | Some tx => val ← orPanic (ticketValue tx); modify (addTicket hash val)
        end
      | Some vals => val ← orPanic (slice_at vals i); modify (addTicket hash val)
      end
    end;;
    applyIn client ins (i + 1) inVals
  end.

Definition removeTicket (h : Hash) (db : StakeDatabase) : StakeDatabase :=
  match liveTicketCache db !! h with
  | None => db
  | Some valOut => set_tickets (delete h (liveTicketCache db)) (i64 (poolValue db - valOut)) db
  end.

Definition sd_applyDiff (client : NodeClient) (poolDiff : PoolDiff) (inVals : option (list Z)) : SDM () :=
  applyIn client (dIn poolDiff) 0 inVals;;
  modify (λ db, foldl (λ db h, removeTicket h db) db (dOut poolDiff)).

Definition undoDiff (client : NodeClient) (poolDiff : PoolDiff) : SDM () :=
  sd_applyDiff client (mkDiff (dOut poolDiff) (dIn poolDiff)) None.

(** The last RPC error is returned; a ticket whose transaction cannot be had is
    left out. *)
Fixpoint populate (client : NodeClient) (liveTickets : list Hash) (err : res SDErr ()) : SDM () :=
  match liveTickets with
  | [] => λ db, (err, db)
  | ticket :: rest =>
    match GetRawTransaction client ticket with
    | None => populate client rest (Err EGetTx)
    | Some tx =>
      if decide (tx_Hash tx = ticket) then
        value ← orPanic (ticketValue tx);
        modify (addTicket ticket value);;
        populate client rest err
      else panic
    end
  end.

Definition PopulateLiveTicketCache (client : NodeClient) : SDM () :=
  n ← bestNode;
  let liveTickets := sn_LiveTickets n in
  modify (set_tickets ∅ 0);;
  populate client liveTickets (Ok ()).

(** *** Pool info *)
Definition makePoolInfo (poolValue poolSize : Z) (winningTickets : list Hash) (height : Z) : TicketPoolInfo :=
  let poolCoin := ToCoin poolValue in
  let valAvg := if 0 <? poolSize then f64_div poolCoin (f64_of_Z poolSize) else f64_of_Z 0 in
  mkTPI height (u32 poolSize) poolCoin valAvg (Hash_String <$> winningTickets).

Definition SetPoolInfo (blockHash : Hash) (tpi : TicketPoolInfo) : SDM () := λ db,
  match Set_ (sd_poolInfo db) blockHash (Some tpi) with
  | Ok c => (Ok (), set_poolInfo c db)
  | _ => (Panic, db)
  end.

Definition PoolInfoBest (db : StakeDatabase) : option TicketPoolInfo :=
  match BestNode db with
  | None => None
  | Some n => Some (makePoolInfo (poolValue db) (sn_PoolSize n) (sn_Winners n) (sn_Height n))
  end.

Definition PoolInfo (hash : Hash) (db : StakeDatabase) : option TicketPoolInfo * bool :=
  Get (sd_poolInfo db) hash.

Definition PoolSize : SDM Z := n ← bestNode; mret (sn_PoolSize n).
Definition PoolAtHeight (height : Z) : SDM (list Hash) := onPool (Pool height).
Definition PoolAtHash (client : NodeClient) (hash : Hash) : SDM (list Hash) :=
  header ← orFail EGetHeader (GetBlockHeader client hash);
  onPool (Pool (hdr_Height header)).

(** *** The chain state of the stake database *)
Definition stakechainstate : bytes := bytes_of_string "stakechainstate".

(** [v[:HashSize]] and [v[HashSize:HashSize+4]] panic when [v] is too short. *)
Definition dbState : SDM (Z * Hash) :=
  db ← gets id;
  v ← orFail EChainState (metadata_Get (StakeDB db) stakechainstate);
  if zlen v <? Z.of_nat HashSize + 4 then panic else
  mret (le_val (take 4 (drop HashSize v)), take HashSize v).

Definition DBTipBlockHeader (client : NodeClient) : SDM BlockHeader :=
  s ← dbState; orFail EGetHeader (GetBlockHeader client (snd s)).

Definition DBPrevBlockHeader (client : NodeClient) : SDM BlockHeader :=
  s ← dbState;
  header ← orFail EGetHeader (GetBlockHeader client (snd s));
  orFail EGetHeader (GetBlockHeader client (hdr_PrevBlock header)).

Definition getBlock (client : NodeClient) (hash : Hash) : SDM Block :=
  orFail EGetBlock (GetBlock client hash).

Definition DBTipBlock (client : NodeClient) : SDM Block :=
  s ← dbState; getBlock client (snd s).

Definition dbPrevBlock (client : NodeClient) : SDM Block :=
  s ← dbState;
  header ← orFail EGetHeader (GetBlockHeader client (snd s));
  getBlock client (hdr_PrevBlock header).

(** *** Connecting a block *)
Definition connectBlock (b : Block) (spent revoked maturing : list Hash) : SDM () :=
  hB ← orFail EHeaderBytes (BlockHeaderBytes b);
  n ← bestNode;
  r ← orFail EConnectNode (ConnectNode n (CalcHash256PRNGIV hB) spent revoked maturing);
  node ← orFail ENilNode r;
  modify (set_BestNode (Some node));;
  db ← gets id;
  sdb ← orFail EUpdate (WriteConnectedBestNode (StakeDB db) node (b_Hash b));
  modify (set_StakeDB sdb).

(** The tickets of the block that matures with the connected one, and their
    values; [vals] is nil when no block matures.  A block that cannot be had is
    nil and its transactions cannot be read. *)
Definition maturingTickets (client : NodeClient) (height : Z) : SDM (list Hash * option (list Z)) :=
  let maturingHeight := height - TicketMaturity params in
  if 0 <=? maturingHeight then
    db ← gets id;
    let '(b, wasCached) := block client maturingHeight db in
    (if wasCached : bool then modify (ForgetBlock maturingHeight) else mret ());;
    maturingBlock ← orPanic b;
    let '(tickets, msgTxs) := TicketsInBlock maturingBlock in
    vals ← orPanic (mapM ticketValue msgTxs);
    mret (tickets, Some vals)
  else mret ([], None).

(** [defer func() { go db.signalWaiters(s) }()] before [m]. *)
Definition defer_signal {A} (s : Z * Hash) (m : SDM A) : SDM A := λ db,
  let '(r, db') := m db in (r, add_signal s db').

(** The rest of ConnectBlock once the node [n'] is connected over height
    [bestNodeHeight]: the cache, the pool info, the diff. *)
Definition poolUpdate (client : NodeClient) (b : Block) (n' : Node) (poolDiff : PoolDiff)
    (vals : option (list Z)) (bestNodeHeight : Z) : SDM () :=
  let height := b_Height b in
  defer_signal (height, b_Hash b) (
    sd_applyDiff client poolDiff vals;;
    pv ← gets poolValue;
    let pib := makePoolInfo pv (sn_PoolSize n') (sn_Winners n') (u32 height) in
    SetPoolInfo (b_Hash b) pib;;
    onPool (Append poolDiff (bestNodeHeight + 1))).

(** Tickets leaving the live ticket pool are the winners of the block before
    and the tickets that expire; the maturing tickets enter it. *)
Definition ConnectBlock (client : NodeClient) (b : Block) : SDM () :=
  let height := b_Height b in
  m ← maturingTickets client height;
  let '(maturing, vals) := m in
  modify (λ db, set_blockCache (<[height := b]> (blockCache db)) db);;
  revokedTickets ← orPanic (RevokedTicketsInBlock b);
  votedTickets ← orPanic (TicketsSpentInBlock b);
  n ← bestNode;
  let bestNodeHeight := sn_Height n in
  if height <=? bestNodeHeight then fail (ECannotConnect height bestNodeHeight) else
  let winners := sn_Winners n in
  connectBlock b votedTickets revokedTickets maturing;;
  n' ← bestNode;
  poolUpdate client b n' (mkDiff maturing (winners ++ sn_ExpiredByBlock n')) vals bestNodeHeight.

Definition ConnectBlockHash (client : NodeClient) (hash : Hash) : SDM Block :=
  b ← getBlock client hash;
  ConnectBlock client b;;
  mret b.

(** *** Disconnecting blocks *)
(** [for poolDBTip > parentHeight]: each iteration lowers [poolDBTip]. *)
Fixpoint trim_loop (fuel : nat) (parentHeight poolDBTip : Z) (undoDiffs : list PoolDiff) : SDM (list PoolDiff) :=
  if parentHeight <? poolDBTip then
    match fuel with
    | O => λ db, (NoFuel, db)
    | S fuel =>
      t ← onPool trim;
      let '(newTip, undo) := t in
      if poolDBTip <=? newTip then panic else
      trim_loop fuel parentHeight newTip (undoDiffs ++ [undo])
    end
  else mret undoDiffs.

Fixpoint undo_all (client : NodeClient) (undoDiffs : list PoolDiff) : SDM () :=
  match undoDiffs with
  | [] => mret ()
  | d :: ds => undoDiff client d;; undo_all client ds
  end.

Definition disconnectBlock (client : NodeClient) (neglectCache : bool) : SDM () :=
  n ← bestNode;
  let childHeight := sn_Height n in
  parentBlock ← dbPrevBlock client;
  if negb (b_Height parentBlock =? childHeight - 1) then panic else
  poolDBTip ← gets (λ db, tip (PoolDB db));
  undoDiffs ← trim_loop (Z.to_nat (poolDBTip - b_Height parentBlock)) (b_Height parentBlock) poolDBTip [];
  (if neglectCache then mret () else undo_all client undoDiffs);;
  let childUndoData := sn_UndoData n in
  hB ← orFail EHeaderBytes (BlockHeaderBytes parentBlock);
  db ← gets id;
  r ← orFail EDisconnectNode (DisconnectNode n (CalcHash256PRNGIV hB) (StakeDB db));
  parentStakeNode ← orFail ENilParent r;
  modify (set_BestNode (Some parentStakeNode));;
  sdb ← orFail EUpdate (WriteDisconnectedBestNode (StakeDB db) parentStakeNode (b_Hash parentBlock) childUndoData);
  modify (set_StakeDB sdb).

Definition DisconnectBlock (client : NodeClient) (neglectCache : bool) : SDM () :=
  disconnectBlock client neglectCache.

Fixpoint DisconnectBlocks_loop (client : NodeClient) (count : nat) : SDM () :=
  match count with
  | O => mret ()
  | S count => disconnectBlock client false;; DisconnectBlocks_loop client count
  end.
Definition DisconnectBlocks (client : NodeClient) (count : Z) : SDM () :=
  DisconnectBlocks_loop client (Z.to_nat count).

(** [Rewind]: each round disconnects one block, so the distance is enough. *)
Fixpoint Rewind_loop (client : NodeClient) (fuel : nat) (to : Z) (neglectCache : bool) : SDM () := λ db,
  if to <? sd_Height db then
    match fuel with
    | O => (NoFuel, db)
    | S fuel =>
      (disconnectBlock client neglectCache;;
       hs ← gets (λ db, (sd_Height db, tip (PoolDB db)));
       let '(heightStakeDB, heightTicketPool) := hs in
       if negb (heightTicketPool =? heightStakeDB) then fail (ENotSynced heightStakeDB heightTicketPool)
       else Rewind_loop client fuel to neglectCache) db
    end
  else (Ok (), db).
Definition Rewind (client : NodeClient) (to : Z) (neglectCache : bool) : SDM () := λ db,
  Rewind_loop client (Z.to_nat (sd_Height db - to)) to neglectCache db.

(** *** Loading
    [Open] after the file system: [opened] is the existing database, [created]
    what creating a new one gives. *)
Definition loadBest (client : NodeClient) (sdb : SDB) : res SDErr (option Node) :=
  match metadata_Get sdb stakechainstate with
  | None => Err EChainState
  | Some v =>
    if zlen v <? Z.of_nat HashSize + 4 then Panic else
    let stakeDBHash := take HashSize v in
    let stakeDBHeight := le_val (take 4 (drop HashSize v)) in
    match GetBlock client stakeDBHash with
    | None => Err EGetBlock
    | Some msgBlock => Ok (LoadBestNode sdb stakeDBHeight stakeDBHash (Header msgBlock))
    end
  end.

Definition Open (client : NodeClient) (opened created : option SDB) : SDM () :=
  sdb ← orFail ECreate (match opened with Some sdb => Some sdb | None => created end);
  modify (set_StakeDB sdb);;
  match loadBest client sdb with
  | Ok (Some n) => modify (set_BestNode (Some n))
  | Panic => panic
  | _ =>
    i ← orFail EInit (InitDatabaseState sdb (GenesisHash params));
    modify (set_BestNode (Some (fst i)));;
    modify (set_StakeDB (snd i))
  end.

(** [for heightStakeDB > heightTicketPool { DisconnectBlock(true); ... }] and
    [for heightTicketPool > heightStakeDB { heightTicketPool, _ = Trim() }]. *)
Fixpoint rollStakeDB (client : NodeClient) (fuel : nat) : SDM () := λ db,
  if tip (PoolDB db) <? sd_Height db then
    match fuel with
    | O => (NoFuel, db)
    | S fuel => (disconnectBlock client true;; rollStakeDB client fuel) db
    end
  else (Ok (), db).

Fixpoint trimPool (fuel : nat) (heightStakeDB heightTicketPool : Z) : SDM Z :=
  if heightStakeDB <? heightTicketPool then
    match fuel with
    | O => λ db, (NoFuel, db)
    | S fuel => t ← onPool trim; trimPool fuel heightStakeDB (fst t)
    end
  else mret heightTicketPool.

Definition syncHeights (client : NodeClient) : SDM () :=
  db ← gets id;
  rollStakeDB client (Z.to_nat (sd_Height db - tip (PoolDB db)));;
  db ← gets id;
  let heightStakeDB := sd_Height db in
  let poolTip := tip (PoolDB db) in
  heightTicketPool ← trimPool (Z.to_nat (poolTip - heightStakeDB)) heightStakeDB poolTip;
  if negb (heightTicketPool =? heightStakeDB) then fail (ENotSynced heightStakeDB heightTicketPool)
  else mret ().

(** The rest of NewStakeDatabase once both databases are open. *)
Definition NewStakeDatabase (client : NodeClient) : SDM Z :=
  syncHeights client;;
  h ← (λ db, let '(c, r, tp) := AdvanceToTip (PoolDB db) in
             (match r with Ok _ => Ok c | Err e => Err (EPoolDB e) | Panic => Panic | NoFuel => NoFuel end,
              set_PoolDB tp db));
  PopulateLiveTicketCache client;;
  mret h.

(** The rest of LoadAndRecover once both databases are open. *)
Definition LoadAndRecover (client : NodeClient) (toHeight : Z) : SDM () :=
  let toHeight := if toHeight <? 0 then 0 else toHeight in
  db ← gets id;
  let heightStakeDB := sd_Height db in
  let heightTicketPool := tip (PoolDB db) in
  let toHeight := if heightStakeDB <? toHeight then heightStakeDB else toHeight in
  let toHeight := if heightTicketPool <? toHeight then heightTicketPool else toHeight in
  syncHeights client;;
  db ← gets id;
  Rewind_loop client (Z.to_nat (sd_Height db - toHeight)) toHeight true;;
  a ← (λ db, let '(c, r, tp) := AdvanceToTip (PoolDB db) in
             (match r with Panic => Panic | NoFuel => NoFuel | Ok _ => Ok (c, true) | Err _ => Ok (c, false) end,
              set_PoolDB tp db));
  (if snd a : bool then mret () else Rewind client (fst a - 1) true);;
  PopulateLiveTicketCache client.

(** *** The chain monitor (chainmonitor.go) *)
Record ReorgData := mkReorg {
  OldChainHead : Hash; OldChainHeight : Z; OldChain : list Hash;
  NewChainHead : Hash; NewChainHeight : Z; NewChain : list Hash
}.

(** The loop over the side chain.  A failing block ends it with the height and
    hash of the tip; a header that cannot be had is nil and dereferenced. *)
Fixpoint connectNewChain (client : NodeClient) (newChain : list Hash) (tipHeight : Z) (tipHash : option Hash)
    : SDM (Z * option Hash * option SDErr) := λ db,
  match newChain with
  | [] => if sd_Height db =? tipHeight then (Ok (i32 (sd_Height db), tipHash, None), db) else (Panic, db)
  | hash :: rest =>
    match ConnectBlockHash client hash db with
    | (Ok b, db) => connectNewChain client rest (b_Height b) (Some (b_Hash b)) db
    | (Err _, db) =>
      match DBTipBlockHeader client db with
      | (Ok hdr, db) => (Ok (i32 (sd_Height db), Some (BlockHash hdr), Some (EConnectingBlock hash)), db)
      | (NoFuel, db) => (NoFuel, db)
      | (_, db) => (Panic, db)
      end
    | (Panic, db) => (Panic, db)
    | (NoFuel, db) => (NoFuel, db)
    end
  end.

(** The results are the height, the hash (nil when [None]) and the error. *)
Definition switchToSideChain (client : NodeClient) (reorgData : option ReorgData)
    : SDM (Z * option Hash * option SDErr) := λ db,
  match reorgData with
  | None => (Ok (0, None, Some ENoSideChain), db)
  | Some rd =>
    match NewChain rd with
    | [] => (Ok (0, None, Some ENoSideChain), db)
    | newChain =>
      let commonAncestorHeight := NewChainHeight rd - zlen newChain in
      match DisconnectBlocks client (sd_Height db - commonAncestorHeight) db with
      | (Ok _, db) =>
        if negb (sd_Height db =? commonAncestorHeight) then (Panic, db) else
        connectNewChain client newChain 0 None db
      | (Err e, db) => (Ok (0, None, Some e), db)
      | (Panic, db) => (Panic, db)
      | (NoFuel, db) => (NoFuel, db)
      end
    end
  end.

(** The comparison [*stakeDBTipHash != newHash] dereferences the hash. *)
Definition ReorgHandler (client : NodeClient) (reorg : ReorgData) : SDM () :=
  s ← switchToSideChain client (Some reorg);
  let '(stakeDBTipHeight, stakeDBTipHash, err) := s in
  match stakeDBTipHash with
  | None => panic
  | Some _ => match err with Some e => fail e | None => mret () end
  end.
End Model.
Arguments StakeDatabase DB {SL}.

(** ** Documented behaviour of the stake node

    A connected node is one block higher; the winners of the block before and
    the tickets that expire leave the live tickets, the maturing ones enter
    them; the winners and the expiring tickets were live; disconnecting gives
    the node back that the block was connected to, when it is asked with the
    lottery IV of that node's block; the chain state is the last written
    one. *)
Class StakeLaws `{SL : StakeLib} : Prop := {
  live_nodup n : NoDup (sn_LiveTickets n);
  winners_live n : NoDup (sn_Winners n) ∧ sn_Winners n ⊆ sn_LiveTickets n;
  connect_height n iv s r m n' :
    ConnectNode n iv s r m = Some (Some n') → sn_Height n' = sn_Height n + 1;
  connect_maturing n iv s r m n' :
    ConnectNode n iv s r m = Some (Some n') → NoDup m ∧ ∀ h, h ∈ m → h ∉ sn_LiveTickets n;
  connect_expired n iv s r m n' :
    ConnectNode n iv s r m = Some (Some n') →
    NoDup (sn_ExpiredByBlock n') ∧
    ∀ h, h ∈ sn_ExpiredByBlock n' → h ∈ sn_LiveTickets n ∧ h ∉ sn_Winners n;
  connect_live n iv s r m n' :
    ConnectNode n iv s r m = Some (Some n') →
    ∀ h, h ∈ sn_LiveTickets n' ↔
      ((h ∈ sn_LiveTickets n ∨ h ∈ m) ∧ (h ∉ sn_Winners n) ∧ (h ∉ sn_ExpiredByBlock n'));
  disconnect_parent n iv s r m n' piv sdb p :
    ConnectNode n iv s r m = Some (Some n') →
    (sn_Height n = 0 ∨ ∃ n0 s0 r0 m0, ConnectNode n0 piv s0 r0 m0 = Some (Some n)) →
    DisconnectNode n' piv sdb = Some (Some p) → p = n;
  written_connected sdb n h sdb' :
    WriteConnectedBestNode sdb n h = Some sdb' → length h = HashSize →
    ∃ v, metadata_Get sdb' stakechainstate = Some v ∧ 36 <= zlen v ∧ take HashSize v = h;
  written_disconnected sdb n h u sdb' :
    WriteDisconnectedBestNode sdb n h u = Some sdb' → length h = HashSize →
    ∃ v, metadata_Get sdb' stakechainstate = Some v ∧ 36 <= zlen v ∧ take HashSize v = h
}.

(** ** Specification: the history of a stake node

    [node_chain n bs ds]: the node [n] was made by connecting the blocks [bs],
    genesis first, each to the one before, and [ds] are the diffs of the
    blocks over genesis. *)
Section Spec.
Context {SL : StakeLib} {LW : StakeLaws}.

Inductive node_chain : Node → list Block → list PoolDiff → Prop :=
| nc_genesis n b :
    sn_Height n = 0 → sn_LiveTickets n = [] → b_Height b = 0 → length (b_Hash b) = HashSize →
    node_chain n [b] []
| nc_connect n bs ds p b hB s r m n' :
    node_chain n bs ds → last bs = Some p → b_Height b = sn_Height n + 1 → b_PrevBlock b = b_Hash p →
    length (b_Hash b) = HashSize → BlockHeaderBytes b = Some hB →
    ConnectNode n (CalcHash256PRNGIV hB) s r m = Some (Some n') →
    node_chain n' (bs ++ [b]) (ds ++ [mkDiff m (sn_Winners n ++ sn_ExpiredByBlock n')]).

Lemma connect_diff n iv s r m n' :
  ConnectNode n iv s r m = Some (Some n') →
  let d := mkDiff m (sn_Winners n ++ sn_ExpiredByBlock n') in
  diff_valid (list_to_set (sn_LiveTickets n)) d ∧
  list_to_set (sn_LiveTickets n') = diff_step (list_to_set (sn_LiveTickets n)) d.
Proof.
  intros Hc. destruct (connect_maturing _ _ _ _ _ _ Hc) as [Hm Hnew].
  destruct (connect_expired _ _ _ _ _ _ Hc) as [He Hexp]. destruct (winners_live n) as [Hw Hsub].
  pose proof (connect_live _ _ _ _ _ _ Hc) as Hl. split; [split_and!|]; cbn.
  - done.
  - apply NoDup_app. split_and!; [done| |done]. intros h Hh He'. by apply Hexp in He' as [_ ?].
  - apply elem_of_disjoint. intros h. rewrite !elem_of_list_to_set. intros Hh Hh'. by apply Hnew in Hh'.
  - intros h. rewrite elem_of_union, !elem_of_list_to_set, elem_of_app. intros [Hh|Hh].
    + left. by apply Hsub.
    + left. by apply Hexp in Hh as [? _].
  - unfold diff_step. cbn. apply set_eq. intros h.
    rewrite elem_of_difference, elem_of_union, !elem_of_list_to_set, Hl, elem_of_app. tauto.
Qed.

Lemma nc_height n bs ds : node_chain n bs ds →
  sn_Height n = zlen ds ∧ length bs = S (length ds) ∧
  ∃ p, last bs = Some p ∧ b_Height p = sn_Height n ∧ length (b_Hash p) = HashSize.
Proof.
  induction 1 as [n b Hn Hl Hb Hh|n bs ds p b hB s r m n' Hnc (IH1 & IH2 & _) Hlast Hb Hprev Hh HhB Hc].
  - split_and!; [by rewrite Hn|done|]. exists b. cbn. by rewrite Hn.
  - pose proof (connect_height _ _ _ _ _ _ Hc) as E. rewrite zlen_app, !length_app. cbn.
    split_and!; [rewrite E, IH1; done|lia|]. exists b. rewrite last_snoc. split_and!; [done|lia|done].
Qed.

Lemma nc_pool n bs ds : node_chain n bs ds →
  chain_valid ds ∧ list_to_set (sn_LiveTickets n) = pool_at ds (length ds).
Proof.
  induction 1 as [n b Hn Hl Hb Hh|n bs ds p b hB s r m n' Hnc [IHv IHp] Hlast Hb Hprev Hh HhB Hc].
  - split; [intros i d Hi; by rewrite lookup_nil in Hi|by rewrite Hl].
  - destruct (connect_diff _ _ _ _ _ _ Hc) as [Hd Hp]. rewrite IHp in Hd, Hp. split.
    + by apply chain_valid_snoc.
    + rewrite Hp, length_app. cbn [length]. rewrite Nat.add_1_r. erewrite pool_at_S.
      * by rewrite pool_at_prefix.
      * by rewrite lookup_app_r, Nat.sub_diag.
Qed.
End Spec.

(** ** The state at a history *)
Section Invariant.
Context {DB : Type} {BDB : Badger DB} {ST : StakeTypes} {SL : StakeLib} {LW : StakeLaws}.
Context (params : NetParams).
Abbreviation SD := (StakeDatabase DB).
Abbreviation SDM := (goM SD SDErr).

(** The stake node and its database are at the blocks [bs]. *)
Definition node_at (db : SD) (bs : list Block) (ds : list PoolDiff) : Prop :=
  ∃ n p v, BestNode db = Some n ∧ node_chain n bs ds ∧ last bs = Some p ∧
    metadata_Get (StakeDB db) stakechainstate = Some v ∧ 36 <= zlen v ∧ take HashSize v = b_Hash p.

(** The ticket pool has the diffs [ds], with the cursor anywhere. *)
Definition pool_has (db : SD) (ds : list PoolDiff) : Prop :=
  TP_ok (PoolDB db) ∧ diffs (PoolDB db) = ds.

Section Values.
Context (val : Hash → Z).

(** The cache holds the tickets [L] with their values, and [poolValue] is
    their sum as an int64. *)
Definition cache_has (db : SD) (L : gset Hash) : Prop :=
  (∀ h v, liveTicketCache db !! h = Some v ↔ h ∈ L ∧ v = val h) ∧
  poolValue db = i64 (map_sum id (liveTicketCache db)).

(** What the client and the blocks say of the value of a ticket. *)
Definition vals_ok (b : Block) : Prop :=
  ∀ tx, tx ∈ b_STransactions b → IsSStx tx = true → ticketValue tx = Some (val (tx_Hash tx)).
Definition blocks_ok (client : NodeClient) (db : SD) : Prop :=
  (∀ i b, blockCache db !! i = Some b → vals_ok b) ∧
  (∀ i b, getBlockByHeight client i = Some b → vals_ok b).
Definition ticket_answers (client : NodeClient) (hs : list Hash) : Prop :=
  ∀ h tx, h ∈ hs → GetRawTransaction client h = Some tx →
    tx_Hash tx = h ∧ ticketValue tx = Some (val h).
Definition knows_tickets (client : NodeClient) (hs : list Hash) : Prop :=
  ∀ h, h ∈ hs → ∃ tx, GetRawTransaction client h = Some tx ∧ tx_Hash tx = h ∧ ticketValue tx = Some (val h).
(** The client's answers for the blocks [bs] are those blocks, or errors. *)
Definition honest (client : NodeClient) (bs : list Block) : Prop :=
  ∀ b, b ∈ bs →
    (∀ b', GetBlock client (b_Hash b) = Some b' → b' = b) ∧
    (∀ hdr, GetBlockHeader client (b_Hash b) = Some hdr → hdr = Header b).

(** The three places are at the same history. *)
Definition synced (db : SD) (bs : list Block) (ds : list PoolDiff) : Prop :=
  node_at db bs ds ∧ pool_has db ds ∧ cache_has db (pool_at ds (length ds)).

Lemma cache_has_unique db db' L :
  cache_has db L → cache_has db' L →
  liveTicketCache db = liveTicketCache db' ∧ poolValue db = poolValue db'.
Proof.
  intros [Hc Hv] [Hc' Hv']. assert (liveTicketCache db = liveTicketCache db') as E.
  { apply map_eq. intros h. apply option_eq. intros v. by rewrite Hc, Hc'. }
  split; [done|]. by rewrite Hv, Hv', E.
Qed.

Lemma i64_add_l a b : i64 (i64 a + b) = i64 (a + b).
Proof.
  unfold i64, wrap_s. f_equal.
  replace ((a + 2 ^ (64 - 1)) mod 2 ^ 64 - 2 ^ (64 - 1) + b + 2 ^ (64 - 1))
    with ((a + 2 ^ (64 - 1)) mod 2 ^ 64 + b) by lia.
  rewrite Zplus_mod_idemp_l. f_equal. lia.
Qed.

(** *** The live ticket cache *)
Lemma addTicket_has db L h :
  h ∉ L → cache_has db L → cache_has (addTicket h (val h) db) ({[ h ]} ∪ L).
Proof.
  intros Hh [Hc Hv]. assert (liveTicketCache db !! h = None) as Hn.
  { destruct (_ !! h) as [v|] eqn:E; [|done]. by apply Hc in E as [? _]. }
  split; cbn.
  - intros k v. rewrite lookup_insert_Some, Hc, elem_of_union, elem_of_singleton.
    destruct (decide (h = k)) as [->|]; naive_solver.
  - rewrite Hv, i64_add_l, map_sum_insert by done. f_equal. cbn. lia.
Qed.

Lemma removeTicket_has db L h : cache_has db L → cache_has (removeTicket h db) (L ∖ {[ h ]}).
Proof.
  intros [Hc Hv]. unfold removeTicket. destruct (liveTicketCache db !! h) as [v|] eqn:E; split; cbn.
  - intros k w. rewrite lookup_delete_Some, Hc, elem_of_difference, elem_of_singleton. naive_solver.
  - rewrite Hv. replace (i64 (map_sum id (liveTicketCache db)) - v)
      with (i64 (map_sum id (liveTicketCache db)) + - v) by lia.
    rewrite i64_add_l, (map_sum_delete id _ h v E). f_equal. cbn. lia.
  - intros k w. rewrite Hc, elem_of_difference, elem_of_singleton. split; [|tauto].
    intros [Hk ->]. split_and!; try done. intros ->.
    assert (liveTicketCache db !! h = Some (val h)) as E' by (by apply Hc). by rewrite E in E'.
  - done.
Qed.

(** Only the tickets and their value change. *)
Definition same_but_tickets (db db' : SD) : Prop :=
  db' = set_tickets (liveTicketCache db') (poolValue db') db.

Lemma same_refl db : same_but_tickets db db.
Proof. by destruct db. Qed.
Lemma same_trans db1 db2 db3 : same_but_tickets db1 db2 → same_but_tickets db2 db3 → same_but_tickets db1 db3.
Proof. unfold same_but_tickets. intros E1 E2. rewrite E2. by rewrite E1. Qed.
Lemma same_addTicket h v db : same_but_tickets db (addTicket h v db).
Proof. done. Qed.
Lemma same_removeTicket h db : same_but_tickets db (removeTicket h db).
Proof. unfold removeTicket. destruct (_ !! h); [done|apply same_refl]. Qed.

Lemma removeAll_has outs : ∀ db L, cache_has db L →
  let db' := foldl (λ db h, removeTicket h db) db outs in
  same_but_tickets db db' ∧ cache_has db' (L ∖ list_to_set outs).
Proof.
  induction outs as [|h outs IH]; intros db L HL; cbn.
  - split; [apply same_refl|]. by replace (L ∖ ∅) with L by set_solver.
  - destruct (IH _ _ (removeTicket_has db L h HL)) as [Hs Hc]. split.
    + eapply same_trans; [apply same_removeTicket|done].
    + by replace (L ∖ ({[h]} ∪ list_to_set outs)) with (L ∖ {[h]} ∖ list_to_set outs) by set_solver.
Qed.

(** Where the value of an incoming ticket comes from. *)
Definition vals_for (client : NodeClient) (ins : list Hash) (i : Z) (inVals : option (list Z)) : Prop :=
  match inVals with
  | Some vals => ∀ k h, ins !! k = Some h → slice_at vals (i + Z.of_nat k) = Some (val h)
  | None => knows_tickets client ins
  end.

Lemma vals_for_tail client h ins i inVals :
  vals_for client (h :: ins) i inVals → vals_for client ins (i + 1) inVals.
Proof.
  destruct inVals as [vals|]; cbn.
  - intros H k x Hk. replace (i + 1 + Z.of_nat k) with (i + Z.of_nat (S k)) by lia. by apply H.
  - intros H x Hx. apply H. by right.
Qed.

Lemma applyIn_has client ins : ∀ i inVals db L,
  vals_for client ins i inVals → cache_has db L →
  ∃ db', applyIn client ins i inVals db = (Ok tt, db') ∧ same_but_tickets db db' ∧
    cache_has db' (L ∪ list_to_set ins).
Proof.
  induction ins as [|h ins IH]; intros i inVals db L Hv HL; cbn [applyIn list_to_set].
  { exists db. split_and!; [done|apply same_refl|]. by replace (L ∪ ∅) with L by set_solver. }
  pose proof (vals_for_tail _ _ _ _ _ Hv) as Hv'. unfold gets, mbind, goM_bind at 1. cbn.
  destruct (liveTicketCache db !! h) as [v|] eqn:E.
  - apply HL in E as [Hh ->]. destruct (IH (i + 1) inVals db L Hv' HL) as (db' & E' & Hs & Hc).
    exists db'. cbn. split_and!; [done|done|].
    by replace (L ∪ ({[h]} ∪ list_to_set ins)) with (L ∪ list_to_set ins) by set_solver.
  - assert (h ∉ L) as Hh.
    { intros Hh. assert (liveTicketCache db !! h = Some (val h)) as E' by (by apply HL). by rewrite E in E'. }
    destruct (IH (i + 1) inVals _ _ Hv' (addTicket_has db L h Hh HL)) as (db' & E' & Hs & Hc).
    exists db'. split_and!; [|by eapply same_trans; [apply same_addTicket|]|].
    + destruct inVals as [vals|].
      * specialize (Hv 0%nat h eq_refl). rewrite Z.add_0_r in Hv. rewrite Hv. exact E'.
      * destruct (Hv h) as (tx & Etx & _ & Eval); [by left|]. rewrite Etx, Eval. exact E'.
    + by replace (L ∪ ({[h]} ∪ list_to_set ins)) with ({[h]} ∪ L ∪ list_to_set ins) by set_solver.
Qed.

Lemma applyDiff_has client d inVals db L :
  vals_for client (dIn d) 0 inVals → cache_has db L →
  ∃ db', sd_applyDiff client d inVals db = (Ok tt, db') ∧ same_but_tickets db db' ∧
    cache_has db' (diff_step L d).
Proof.
  intros Hv HL. destruct (applyIn_has client (dIn d) 0 inVals db L Hv HL) as (db1 & E1 & Hs1 & Hc1).
  destruct (removeAll_has (dOut d) _ _ Hc1) as [Hs Hc]. eexists. split.
  - unfold sd_applyDiff. rewrite (bind_Ok _ _ _ _ _ E1). reflexivity.
  - split; [by eapply same_trans|exact Hc].
Qed.

(** *** Connecting *)
Lemma mapM_ticketValue (txs : list MsgTx) :
  (∀ tx, tx ∈ txs → ticketValue tx = Some (val (tx_Hash tx))) →
  mapM ticketValue txs = Some (val <$> (tx_Hash <$> txs)).
Proof.
  induction txs as [|tx txs IH]; intros H; [done|]. cbn. rewrite H by left. cbn.
  rewrite IH; [done|]. intros tx' Htx. apply H. by right.
Qed.

Lemma vals_for_map (client : NodeClient) (ts : list Hash) : vals_for client ts 0 (Some (val <$> ts)).
Proof.
  intros k h Hk. unfold slice_at. destruct (Z.ltb_spec (0 + Z.of_nat k) 0); [lia|].
  rewrite list_lookup_fmap. replace (Z.to_nat (0 + Z.of_nat k)) with k by lia. by rewrite Hk.
Qed.

Lemma block_vals client i db b : blocks_ok client db → fst (block client i db) = Some b → vals_ok b.
Proof.
  intros [Hc Hg]. unfold block, BlockCached. destruct (blockCache db !! i) eqn:E; cbn.
  - intros [= ->]. by eapply Hc.
  - apply Hg.
Qed.

Lemma blocks_ok_cache client db x :
  blocks_ok client db → (∀ i b, x !! i = Some b → vals_ok b) →
  blocks_ok client (set_blockCache x db).
Proof. intros [_ Hg] Hx. by split. Qed.

Lemma maturing_ok client h db r db' :
  blocks_ok client db → maturingTickets params client h db = (r, db') →
  db' = set_blockCache (blockCache db') db ∧ blocks_ok client db' ∧
  (r = Panic ∨ ∃ ts vals, r = Ok (ts, vals) ∧ vals_for client ts 0 vals).
Proof.
  intros Hb. unfold maturingTickets. destruct (_ <=? _).
  2:{ intros [= <- <-]. split_and!; [by destruct db|done|]. right. exists [], None.
      split; [done|]. by intros h' ?%not_elem_of_nil. }
  set (i := h - TicketMaturity params). cbn [mbind goM_bind]. unfold gets, mbind at 1, goM_bind at 1.
  destruct (block client i (id db)) as [ob cached] eqn:Eb. change (id db) with db in Eb.
  assert (∀ b, ob = Some b → vals_ok b) as Hob.
  { intros b ->. apply (block_vals client i db); [done|]. by rewrite Eb. }
  set (db1 := if cached then ForgetBlock i db else db). intros H.
  assert (blocks_ok client db1 ∧ db1 = set_blockCache (blockCache db1) db) as [Hb1 Hs1].
  { unfold db1. destruct cached; [|by split; [|destruct db]]. split; [|done].
    apply blocks_ok_cache; [done|]. intros j b [_ Hj]%lookup_delete_Some. by apply (proj1 Hb j). }
  apply bind_inv in H as [([] & s1 & E & H)|H]; [|by destruct cached, H as [(? & ? & ?)|[[? ?]|[? ?]]]].
  assert (s1 = db1) as -> by (unfold db1; destruct cached; by injection E as <-). clear E.
  destruct ob as [b|]; [|injection H as <- <-; split_and!; [done|done|by left]].
  rewrite (bind_Ok (orPanic (Some b)) _ db1 b db1 eq_refl), TicketsInBlock_filter, mapM_ticketValue in H.
  - injection H as <- <-. split_and!; [done|done|]. right. do 2 eexists. split; [done|]. apply vals_for_map.
  - intros tx [Htx Hin]%list_elem_of_filter. apply (Hob b eq_refl); [done|]. by apply Is_true_true.
Qed.

Lemma chain_valid_last ds d : chain_valid (ds ++ [d]) → diff_valid (pool_at ds (length ds)) d.
Proof.
  intros Hv. rewrite <- (pool_at_prefix ds [d]) by done. apply Hv. by rewrite lookup_app_r, Nat.sub_diag.
Qed.

(** The block is connected, possibly without its diff being stored. *)
Definition connected (r : res SDErr ()) : bool :=
  match r with Ok _ => true | Err (EPoolDB _) => true | _ => false end.

Lemma connectBlock_inv b sp rv mt (db : SD) n r db' :
  connectBlock b sp rv mt db = (r, db') → BestNode db = Some n → r ≠ Err EUpdate →
  ((∃ e, r = Err e) ∧ connected r = false ∧ db' = db) ∨
  (r = Ok tt ∧ ∃ hB n' sdb, BlockHeaderBytes b = Some hB ∧
     ConnectNode n (CalcHash256PRNGIV hB) sp rv mt = Some (Some n') ∧
     WriteConnectedBestNode (StakeDB db) n' (b_Hash b) = Some sdb ∧
     db' = set_StakeDB sdb (set_BestNode (Some n') db)).
Proof.
  unfold connectBlock. intros H Hn Hr.
  destruct (BlockHeaderBytes b) as [hB|] eqn:EhB; [|injection H as <- <-; left; split; [by eexists|done]].
  rewrite (bind_Ok (orFail _ (Some hB)) _ db hB db eq_refl) in H.
  rewrite (bind_Ok bestNode _ db n db) in H by (unfold bestNode; by rewrite Hn).
  destruct (ConnectNode n _ sp rv mt) as [[n'|]|] eqn:Ec;
    [|injection H as <- <-; left; split; [by eexists|done]..].
  cbn [orFail] in H. change (λ s, (Ok ?x, s)) with (mret (M:=goM SD SDErr) x) in H.
  unfold orFail, gets, modify, mret, goM_ret, mbind, goM_bind in H. cbn in H.
  destruct (WriteConnectedBestNode (StakeDB db) n' (b_Hash b)) as [sdb|] eqn:Ew; cbn in H; [|by injection H as <- <-].
  injection H as <- <-. right. split; [done|]. by exists hB, n', sdb.
Qed.

(** The blocks that may follow [bs]. *)
Definition next_block (bs : list Block) (b : Block) : Prop :=
  ∃ p, last bs = Some p ∧ b_Height b = b_Height p + 1 ∧ b_PrevBlock b = b_Hash p ∧
    length (b_Hash b) = HashSize ∧ vals_ok b.

Lemma storeDiffTP_inv d h (tp : TicketPool DB) r tp' :
  storeDiffTP d h tp = (r, tp') → r ≠ Panic → r = Ok tt ∨ ∃ e, r = Err (EDiffDB e).
Proof.
  unfold storeDiffTP, storeDiff, encodeDiff. case_decide; cbn; [|by intros [= <- <-]].
  destruct (bdg_set _ _ _ _); intros [= <- <-] Hr; eauto.
Qed.

Lemma onPool_Append d h (db : SD) ds r db' :
  onPool (Append d h) db = (r, db') → pool_has db ds → r ≠ Panic →
  h = zlen ds + 1 → chain_valid (ds ++ [d]) →
  db' = set_PoolDB (PoolDB db') db ∧ pool_has db' (ds ++ [d]) ∧
  (r = Ok tt ∨ ∃ e, r = Err (EPoolDB (EDiffDB e))).
Proof.
  intros H [Hok <-] Hr Hh Hv. unfold onPool in H. rewrite <- (ok_tip _ Hok) in Hh. subst h.
  rewrite Append_next in H.
  destruct (storeDiffTP d (tip (PoolDB db) + 1) (append d (PoolDB db))) as [r1 tp1] eqn:Es.
  pose proof (storeDiffTP_ok _ _ _ _ _ (append_ok _ _ Hok (chain_valid_last _ _ Hv)) Es) as Hok1.
  pose proof (storeDiffTP_frame _ _ _ _ _ Es) as (_ & _ & Hd). injection H as <- <-. split; [done|].
  split; [by split|]. destruct (storeDiffTP_inv _ _ _ _ _ Es) as [->|[e ->]]; [by intros ->|by left|right; by exists e].
Qed.

Lemma node_at_height db bs ds n : node_at db bs ds → BestNode db = Some n →
  node_chain n bs ds ∧ sn_Height n = zlen ds.
Proof. intros (n0 & p & v & E & Hc & _) Hn. simplify_eq. split; [done|]. by destruct (nc_height _ _ _ Hc). Qed.

(** Everything that follows a connected node. *)
Lemma poolUpdate_synced client b n' d vals h db ds r db' :
  vals_for client (dIn d) 0 vals → cache_has db (pool_at ds (length ds)) → pool_has db ds →
  chain_valid (ds ++ [d]) → h = zlen ds →
  poolUpdate client b n' d vals h db = (r, db') → r ≠ Panic →
  BestNode db' = BestNode db ∧ StakeDB db' = StakeDB db ∧ blockCache db' = blockCache db ∧
  pool_has db' (ds ++ [d]) ∧ cache_has db' (pool_at (ds ++ [d]) (length (ds ++ [d]))) ∧
  (r = Ok tt ∨ ∃ e, r = Err (EPoolDB (EDiffDB e))).
Proof.
  intros Hvals Hcache [Hok Hds] Hv Hh H Hr. unfold poolUpdate, defer_signal in H.
  destruct (applyDiff_has client d vals db _ Hvals Hcache) as (s4 & E4 & Hs4 & Hcache4).
  rewrite (bind_Ok _ _ _ _ _ E4) in H.
  match type of H with (let '(_, _) := ?m s4 in _) = _ => destruct (m s4) as [r5 s5] eqn:E5 end.
  injection H as -> <-. rewrite bind_gets in E5.
  apply bind_inv in E5 as [([] & s6 & E6 & E5)|E5].
  2:{ unfold SetPoolInfo in E5. destruct (Set_ _ _ _); by destruct E5 as [(? & ? & ?)|[[? ?]|[? ?]]]. }
  assert (∃ c, s6 = set_poolInfo c s4) as [c ->].
  { unfold SetPoolInfo in E6. destruct (Set_ _ _ _) as [c| | |]; try done. injection E6 as <-. by exists c. }
  apply (onPool_Append _ _ _ ds) in E5 as (Es5 & Hpool5 & Hres); [|by split; cbn; rewrite Hs4|done|lia|done].
  split_and!; try done; [cbn; rewrite Es5, Hs4; done..|].
  rewrite Es5. unfold cache_has. cbn [liveTicketCache poolValue add_signal set_PoolDB set_poolInfo].
  rewrite length_app. cbn [length]. rewrite Nat.add_1_r. erewrite pool_at_S.
  - rewrite pool_at_prefix by done. exact Hcache4.
  - by rewrite lookup_app_r, Nat.sub_diag.
Qed.

(** Up to the height guard only the block cache changes; from there on the
    run is that of [connectBlock] and [poolUpdate]. *)
Lemma ConnectBlock_prefix client b (db : SD) n r db' :
  blocks_ok client db → vals_ok b → BestNode db = Some n →
  ConnectBlock params client b db = (r, db') → r ≠ Panic →
  ∃ ts vals rv sp s2, vals_for client ts 0 vals ∧ blocks_ok client s2 ∧ s2 = set_blockCache (blockCache s2) db ∧
    (if b_Height b <=? sn_Height n then fail (ECannotConnect (b_Height b) (sn_Height n)) else
     connectBlock b sp rv ts;;
     n' ← bestNode;
     poolUpdate client b n' (mkDiff ts (sn_Winners n ++ sn_ExpiredByBlock n')) vals (sn_Height n)) s2 = (r, db').
Proof.
  intros Hblk Hbv Hn H Hr. unfold ConnectBlock in H.
  apply bind_inv in H as [(m & s1 & Em & H)|H].
  2:{ destruct H as [(e & Em & ->)|[[Em ->]|[Em ->]]]; apply maturing_ok in Em as (_ & _ & [?|(? & ? & ? & _)]); done. }
  apply maturing_ok in Em as (Es1 & Hblk1 & [?|(ts & vals & [= ->] & Hvals)]); [done| |done].
  set (s2 := set_blockCache (<[b_Height b := b]> (blockCache s1)) s1).
  assert (s2 = set_blockCache (blockCache s2) db) as Es2 by (unfold s2; by rewrite Es1).
  rewrite bind_modify in H. fold s2 in H.
  destruct (RevokedTicketsInBlock b) as [rv|]; [|by injection H as <- <-].
  rewrite (bind_Ok (orPanic (Some rv)) _ s2 rv s2 eq_refl) in H.
  destruct (TicketsSpentInBlock b) as [sp|]; [|by injection H as <- <-].
  rewrite (bind_Ok (orPanic (Some sp)) _ s2 sp s2 eq_refl) in H.
  rewrite (bind_Ok bestNode _ s2 n s2) in H by (unfold bestNode; rewrite Es2; cbn; by rewrite Hn).
  exists ts, vals, rv, sp, s2. split_and!; [done| |done|exact H].
  apply blocks_ok_cache; [done|]. intros i b' [[_ <-]|[_ Hi]]%lookup_insert_Some; [done|]. by apply (proj1 Hblk1 i).
Qed.

(** Connecting the next block, unless the process dies or the stake database
    refuses the write, leaves everything at the old history, with an error, or
    at the new one. *)
Lemma ConnectBlock_synced client b db bs ds r db' :
  synced db bs ds → next_block bs b → blocks_ok client db →
  ConnectBlock params client b db = (r, db') → r ≠ Panic → r ≠ Err EUpdate →
  blocks_ok client db' ∧
  ((synced db' bs ds ∧ (∃ e, r = Err e) ∧ connected r = false) ∨
   ∃ d, synced db' (bs ++ [b]) (ds ++ [d]) ∧ (r = Ok tt ∨ ∃ e, r = Err (EPoolDB (EDiffDB e)))).
Proof.
  intros Hsync (p & Hlast & Hbh & Hprev & Hlen & Hbv) Hblk H Hr Hr'. pose proof Hsync as ((n & _ & _ & Hn & _) & _).
  destruct (ConnectBlock_prefix _ _ _ _ _ _ Hblk Hbv Hn H Hr) as (ts & vals & rv & sp & s2 & Hvals & Hblk2 & Es2 & H2).
  clear H. rename H2 into H. assert (synced s2 bs ds) as Hsync2 by (rewrite Es2; exact Hsync).
  assert (BestNode s2 = Some n) as Hn2 by (by rewrite Es2). clear Hsync Hblk Hn Es2.
  destruct Hsync2 as ((n0 & p' & v & Hn & Hc & Hl & Hst) & Hpool & Hcache).
  rewrite Hn2 in Hn. injection Hn as <-. rename Hn2 into Hn.
  destruct (nc_height _ _ _ Hc) as (Hh & _ & p0 & Hl0 & Hp0 & _). simplify_eq.
  destruct (Z.leb_spec (b_Height b) (sn_Height n)); [lia|].
  apply bind_inv in H as [([] & s3 & E3 & H)|H].
  2:{ assert (connectBlock b sp rv ts s2 = (r, db')) as E3.
      { destruct H as [(e & E3 & ->)|[[E3 ->]|[E3 ->]]]; exact E3. }
      destruct (connectBlock_inv _ _ _ _ _ _ _ _ E3 Hn Hr') as [(He & Hcf & ->)|(-> & _)].
      - split; [done|]. left. split; [|done]. split_and!; [|done|done].
        exists n, p, v. tauto.
      - destruct H as [(? & ? & ?)|[[? ?]|[? ?]]]; done. }
  destruct (connectBlock_inv _ _ _ _ _ _ _ _ E3 Hn) as [(? & ? & _)|(_ & hB & n' & sdb & EhB & Ec & Ew & ->)]; [done..|].
  set (s3 := set_StakeDB sdb (set_BestNode (Some n') s2)) in *.
  rewrite (bind_Ok bestNode _ s3 n' s3 eq_refl) in H.
  set (d := mkDiff ts (sn_Winners n ++ sn_ExpiredByBlock n')) in *.
  assert (node_chain n' (bs ++ [b]) (ds ++ [d])) as Hc' by (eapply nc_connect; try done; lia).
  apply (poolUpdate_synced _ _ _ _ _ _ _ ds) in H as (EB & ES & EC & Hpool' & Hcache' & Hres); try done.
  - split.
    + split; [|apply Hblk2]. rewrite EC. apply Hblk2.
    + right. exists d. split; [|done]. split_and!; [|done|done].
      destruct (written_connected _ _ _ _ Ew Hlen) as (v' & Hv' & Hlen' & Hh').
      exists n', b, v'. rewrite EB, ES, last_snoc. done.
  - by apply nc_pool in Hc' as [? _].
Qed.

(** *** Disconnecting *)
Lemma nc_snoc_inv n' bs b ds d :
  node_chain n' (bs ++ [b]) (ds ++ [d]) →
  ∃ n p hB sp rv m, node_chain n bs ds ∧ last bs = Some p ∧ b_Height b = sn_Height n + 1 ∧
    b_PrevBlock b = b_Hash p ∧ BlockHeaderBytes b = Some hB ∧
    ConnectNode n (CalcHash256PRNGIV hB) sp rv m = Some (Some n').
Proof.
  intros H. remember (bs ++ [b]) as bs1 eqn:E1. remember (ds ++ [d]) as ds1 eqn:E2.
  destruct H as [|n bs' ds' p b' hB sp rv m n'' Hc Hl Hh Hp Hlen HhB Hcn]; [by destruct ds|].
  apply app_inj_tail in E1 as [-> ->]. apply app_inj_tail in E2 as [-> _]. by exists n, p, hB, sp, rv, m.
Qed.

(** [parent] is made by the block [p]: from genesis, or with [p]'s lottery IV. *)
Lemma nc_last_made n bs ds p hB :
  node_chain n bs ds → last bs = Some p → BlockHeaderBytes p = Some hB →
  sn_Height n = 0 ∨ ∃ n0 s0 r0 m0, ConnectNode n0 (CalcHash256PRNGIV hB) s0 r0 m0 = Some (Some n).
Proof.
  intros Hc Hl HhB. destruct Hc as [n b Hn|n bs ds p' b hB' sp rv m n' Hc Hl' Hh Hp Hlen HhB' Hcn]; [by left|].
  rewrite last_snoc in Hl. simplify_eq. right. by exists n, sp, rv, m.
Qed.

(** One Trim of the pool. *)
Lemma onPool_trim ps d (db : SD) :
  pool_has db (ps ++ [d]) →
  ∃ tp1, onPool trim db = (Ok (zlen ps, d), set_PoolDB tp1 db) ∧ pool_has (set_PoolDB tp1 db) ps.
Proof.
  intros [Hok Hds]. pose proof (ok_tip _ Hok) as Ht. rewrite Hds, zlen_app in Ht.
  pose proof (trim_spec _ d Hok) as Et. rewrite Hds, last_snoc in Et. specialize (Et eq_refl).
  pose proof (trim_ok _ _ _ Hok Et) as Hok1.
  replace (tip (PoolDB db) - 1) with (zlen ps) in * by (change (zlen [d]) with 1 in Ht; lia).
  eexists. split; [unfold onPool; by rewrite Et|]. split; [exact Hok1|].
  cbn. by rewrite length_app, Nat.add_sub, take_app_length.
Qed.

Lemma pool_snoc (ps : list PoolDiff) : 0 < zlen ps → ∃ ps' d, ps = ps' ++ [d].
Proof.
  intros H. destruct ps as [|d ps _] using rev_ind; [change (zlen []) with 0 in H; lia|]. by exists ps, d.
Qed.

Lemma trim_loop_spec ph : 0 <= ph → ∀ fuel ps acc (db : SD),
  pool_has db ps → (length ps <= fuel + Z.to_nat ph)%nat →
  ∃ db', trim_loop fuel ph (zlen ps) acc db = (Ok (acc ++ rev (drop (Z.to_nat ph) ps)), db') ∧
    db' = set_PoolDB (PoolDB db') db ∧ pool_has db' (take (Z.to_nat ph) ps).
Proof.
  intros Hph. induction fuel as [|fuel IH]; intros ps acc db Hp Hf; cbn [trim_loop];
    (destruct (Z.ltb_spec ph (zlen ps)) as [Hlt|Hle];
     [|exists db; unfold zlen in Hle; rewrite drop_ge, take_ge, app_nil_r by lia; by destruct db]).
  { unfold zlen in Hlt. lia. }
  destruct (pool_snoc ps) as (ps' & d & ->); [lia|].
  destruct (onPool_trim _ _ _ Hp) as (tp1 & Et & Hp1). rewrite (bind_Ok _ _ _ _ _ Et).
  rewrite zlen_app in *. change (zlen [d]) with 1 in *.
  destruct (Z.leb_spec (zlen ps' + 1) (zlen ps')); [lia|].
  destruct (IH ps' (acc ++ [d]) _ Hp1) as (db' & E & Es & Hp'); [rewrite length_app in Hf; cbn in Hf; lia|].
  unfold zlen in Hlt. exists db'. rewrite E. split_and!; [|by rewrite Es|by rewrite take_app_le by lia].
  by rewrite drop_app_le, rev_app_distr, <- app_assoc by lia.
Qed.

(** The errors after the ticket pool was trimmed. *)
Definition late (e : SDErr) : Prop := e = EUpdate ∨ e = EHeaderBytes ∨ e = EDisconnectNode ∨ e = ENilParent.

(** The errors of a client that does not have one of the blocks [bs]. *)
Definition unserved (client : NodeClient) (bs : list Block) (e : SDErr) : Prop :=
  ∃ b, b ∈ bs ∧ (e = EGetHeader ∧ GetBlockHeader client (b_Hash b) = None ∨ e = EGetBlock ∧ GetBlock client (b_Hash b) = None).

Lemma dbPrevBlock_inv client db bs b ds d r db' :
  node_at db (bs ++ [b]) (ds ++ [d]) → honest client (bs ++ [b]) →
  dbPrevBlock client db = (r, db') →
  db' = db ∧ ((∃ e, r = Err e ∧ unserved client (bs ++ [b]) e) ∨ ∃ p, last bs = Some p ∧ r = Ok p).
Proof.
  intros (n' & q & v & Hn & Hc & Hl & Hv & Hlen & Hh) Hon H.
  destruct (nc_snoc_inv _ _ _ _ _ Hc) as (n & p & hB & sp & rv & m & _ & Hlp & _ & Hp & _).
  rewrite last_snoc in Hl. injection Hl as <-.
  unfold dbPrevBlock in H.
  assert (dbState db = (Ok (le_val (take 4 (drop HashSize v)), b_Hash b), db)) as Es.
  { unfold dbState. rewrite bind_gets. cbn [id]. rewrite Hv.
    rewrite (bind_Ok (orFail _ (Some v)) _ db v db eq_refl). change (Z.of_nat HashSize + 4) with 36.
    destruct (Z.ltb_spec (zlen v) 36); [lia|]. by rewrite <- Hh. }
  rewrite (bind_Ok _ _ _ _ _ Es) in H. cbn [snd] in H.
  destruct (GetBlockHeader client (b_Hash b)) as [hdr|] eqn:Eh; [|injection H as <- <-; split; [done|]; left; eexists; split; [done|exists b; split; [apply elem_of_app; right; by left|by left]]].
  apply Hon in Eh as ->; [|apply elem_of_app; right; by left].
  rewrite (bind_Ok (orFail _ (Some _)) _ db (Header b) db eq_refl) in H. unfold getBlock in H. cbn [hdr_PrevBlock Header] in H.
  rewrite Hp in H. destruct (GetBlock client (b_Hash p)) as [x|] eqn:Ex; injection H as <- <-; (split; [done|]);
    [|left; eexists; split; [done|exists p; split; [apply elem_of_app; left; by apply last_Some_elem_of in Hlp|by right]]].
  right. exists p. split; [done|]. apply Hon in Ex as ->; [done|].
  apply elem_of_app. left. by apply last_Some_elem_of in Hlp.
Qed.

(** From the trimmed pool on: the undo step, then the parent node. *)
Lemma disconnect_core client neglect db bs b ds d r db' :
  node_at db (bs ++ [b]) (ds ++ [d]) → TP_ok (PoolDB db) → honest client (bs ++ [b]) →
  disconnectBlock client neglect db = (r, db') →
  (∃ e, r = Err e ∧ unserved client (bs ++ [b]) e ∧ db' = db) ∨
  ∃ s1, s1 = set_PoolDB (PoolDB s1) db ∧ pool_has s1 (take (length ds) (diffs (PoolDB db))) ∧
    ∀ s2, (if neglect then mret () else undo_all client (rev (drop (length ds) (diffs (PoolDB db))))) s1 = (Ok tt, s2) →
      same_but_tickets s1 s2 →
      (∃ e, r = Err e ∧ late e) ∨
      (r = Ok tt ∧ node_at db' bs ds ∧ ∃ sdb n, db' = set_StakeDB sdb (set_BestNode n s2)).
Proof.
  intros Hna Hok Hon H. unfold disconnectBlock in H.
  pose proof Hna as (n' & q & v & Hn & Hc & _).
  destruct (nc_snoc_inv _ _ _ _ _ Hc) as (n & p & hB & sp & rv & m & Hc0 & Hlp & Hbh & _ & _ & Hcn).
  destruct (nc_height _ _ _ Hc0) as (Hh0 & _ & p' & Hp' & Hph & Hplen). simplify_eq.
  pose proof (connect_height _ _ _ _ _ _ Hcn) as Hh.
  rewrite (bind_Ok bestNode _ db n' db) in H by (unfold bestNode; by rewrite Hn).
  destruct (dbPrevBlock client db) as [r1 s1] eqn:E1.
  destruct (dbPrevBlock_inv _ _ _ _ _ _ _ _ Hna Hon E1) as [-> [(e & -> & He)|(p' & ? & ->)]]; simplify_eq.
  { left. exists e. unfold mbind, goM_bind in H. rewrite E1 in H. by injection H as <- <-. }
  right. rewrite (bind_Ok _ _ _ _ _ E1) in H. destruct (Z.eqb_spec (b_Height p) (sn_Height n' - 1)); [|lia].
  cbn [negb] in H. rewrite bind_gets in H.
  destruct (trim_loop_spec (b_Height p) ltac:(unfold zlen in *; lia)
    (Z.to_nat (tip (PoolDB db) - b_Height p)) (diffs (PoolDB db)) [] db) as (s1 & Et & Es1 & Hp1); [done| |].
  { rewrite (ok_tip _ Hok). unfold zlen. lia. }
  rewrite <- (ok_tip _ Hok) in Et. rewrite (bind_Ok _ _ _ _ _ Et) in H. cbn [app] in H.
  replace (Z.to_nat (b_Height p)) with (length ds) in * by (unfold zlen in *; lia).
  exists s1. split_and!; [done|done|]. intros s2 Hu Hs2.
  apply bind_inv in H as [([] & s2' & Hu' & H)|H].
  2:{ rewrite Hu in H. by destruct H as [(? & ? & ?)|[[? ?]|[? ?]]]. }
  rewrite Hu in Hu'. injection Hu' as <-.
  destruct (BlockHeaderBytes p) as [hBp|] eqn:Ehp.
  2:{ injection H as <- <-. left. eexists. split; [done|]. unfold late. tauto. }
  rewrite (bind_Ok (orFail _ (Some hBp)) _ s2 hBp s2 eq_refl) in H. rewrite bind_gets in H. cbn [id] in H.
  destruct (DisconnectNode n' (CalcHash256PRNGIV hBp) (StakeDB s2)) as [[pn|]|] eqn:Ed;
    [|injection H as <- <-; left; eexists; split; [done|unfold late; tauto]..].
  apply (disconnect_parent _ _ _ _ _ _ _ _ _ Hcn (nc_last_made _ _ _ _ _ Hc0 Hlp Ehp)) in Ed as ->.
  rewrite (bind_Ok (orFail _ (Some (Some n))) _ s2 (Some n) s2 eq_refl) in H.
  rewrite (bind_Ok (orFail _ (Some n)) _ s2 n s2 eq_refl), bind_modify in H.
  destruct (WriteDisconnectedBestNode (StakeDB s2) n (b_Hash p) (sn_UndoData n')) as [sdb|] eqn:Ew.
  2:{ injection H as <- <-. left. eexists. split; [done|]. unfold late. tauto. }
  injection H as <- <-. right. split; [done|]. split; [|by exists sdb, (Some n)].
  destruct (written_disconnected _ _ _ _ _ Ew) as (v' & Hv' & Hl' & Hh'); [done|].
  exists n, p, v'. done.
Qed.

(** Disconnecting from a state at one history gives the history before. *)
Lemma DisconnectBlock_synced client db bs b ds d r db' :
  synced db (bs ++ [b]) (ds ++ [d]) → honest client (bs ++ [b]) → knows_tickets client (dOut d) →
  DisconnectBlock client false db = (r, db') →
  (∃ e, r = Err e ∧ db' = db) ∨ (∃ e, r = Err e ∧ late e) ∨
  (r = Ok tt ∧ synced db' bs ds ∧ blockCache db' = blockCache db).
Proof.
  unfold DisconnectBlock. intros (Hna & [Hok Hds] & Hcache) Hon Hk H. pose proof Hna as (n' & _ & _ & _ & Hc & _).
  destruct (disconnect_core _ _ _ _ _ _ _ _ _ Hna Hok Hon H) as [(e & -> & _ & ->)|(s1 & Es1 & Hp1 & Hu)]; [left; by exists e|right].
  rewrite Hds, take_app_length, drop_app_length in *. cbn [rev app] in Hu.
  assert (cache_has s1 (pool_at (ds ++ [d]) (length (ds ++ [d])))) as Hc1 by (by rewrite Es1).
  destruct (applyDiff_has client (mkDiff (dOut d) (dIn d)) None s1 _ Hk Hc1) as (s2 & E2 & Hs2 & Hc2).
  destruct (Hu s2) as [?|(-> & Hn' & sdb & n & ->)]; [|done|by left|right].
  - cbn [undo_all]. unfold undoDiff. by rewrite (bind_Ok _ _ _ _ _ E2).
  - split; [done|]. split; [|by rewrite Hs2, Es1]. split_and!; [done|by rewrite Hs2|].
    apply nc_pool in Hc as [Hv _]. pose proof (chain_valid_last _ _ Hv) as Hd.
    rewrite length_app in Hc2. cbn [length] in Hc2. rewrite Nat.add_1_r in Hc2.
    rewrite (pool_at_S (ds ++ [d]) (length ds) d), pool_at_prefix in Hc2; [|done|by rewrite lookup_app_r, Nat.sub_diag].
    assert (diff_step (diff_step (pool_at ds (length ds)) d) (mkDiff (dOut d) (dIn d)) = pool_at ds (length ds)) as E
      by (by apply diff_step_undo).
    rewrite E in Hc2. exact Hc2.
Qed.

(** *** Recovery at start *)
Lemma node_at_len db bs ds : node_at db bs ds → sd_Height db = zlen ds ∧ length bs = S (length ds).
Proof.
  intros (n & p & v & Hn & Hc & _). unfold sd_Height. rewrite Hn. by destruct (nc_height _ _ _ Hc) as (-> & ? & _).
Qed.

Lemma honest_sub client bs bs' : (∀ b, b ∈ bs' → b ∈ bs) → honest client bs → honest client bs'.
Proof. intros Hs Hon b Hb. by apply Hon, Hs. Qed.

Lemma node_at_snoc db bs ds :
  node_at db bs ds → 0 < zlen ds → ∃ bs' b ds' d, bs = bs' ++ [b] ∧ ds = ds' ++ [d].
Proof.
  intros Hna Hz. apply node_at_len in Hna as [_ Hl].
  destruct ds as [|d ds _] using rev_ind; [change (zlen []) with 0 in Hz; lia|].
  destruct bs as [|b bs _] using rev_ind; [done|]. by exists bs, b, ds, d.
Qed.

(** Disconnecting without the cache needs no values. *)
Lemma disconnect_neglect client db bs b ds d r db' :
  node_at db (bs ++ [b]) (ds ++ [d]) → TP_ok (PoolDB db) → honest client (bs ++ [b]) →
  disconnectBlock client true db = (r, db') →
  (∃ e, r = Err e ∧ (unserved client (bs ++ [b]) e ∨ late e)) ∨
  (r = Ok tt ∧ node_at db' bs ds ∧ pool_has db' (take (length ds) (diffs (PoolDB db)))).
Proof.
  intros Hna Hok Hon H.
  destruct (disconnect_core _ _ _ _ _ _ _ _ _ Hna Hok Hon H) as [(e & -> & He & _)|(s1 & Es1 & Hp1 & Hu)]; [left; exists e; auto|].
  destruct (Hu s1 eq_refl (same_refl s1)) as [(e & -> & He)|(-> & Hn' & sdb & n & ->)]; [left; exists e; auto|].
  by right.
Qed.

Lemma unserved_sub client bs bs' e : (∀ b, b ∈ bs → b ∈ bs') → unserved client bs e → unserved client bs' e.
Proof. intros Hs (b & Hb & H). exists b. auto. Qed.
Lemma rollStakeDB_spec client : ∀ fuel db bs ds ps r db',
  node_at db bs ds → pool_has db ps → honest client bs → (length ds <= fuel + length ps)%nat →
  rollStakeDB client fuel db = (r, db') →
  (∃ e, r = Err e ∧ (unserved client bs e ∨ late e)) ∨
  (r = Ok tt ∧ pool_has db' ps ∧ let k := Nat.min (length ds) (length ps) in node_at db' (take (S k) bs) (take k ds)).
Proof.
  induction fuel as [|fuel IH]; intros db bs ds ps r db' Hna [Hok Hps] Hon Hf H; cbn [rollStakeDB] in H;
    destruct (node_at_len _ _ _ Hna) as [Hh Hl]; pose proof (ok_tip _ Hok) as Ht; rewrite Hps in Ht;
    unfold zlen in *; (destruct (Z.ltb_spec (tip (PoolDB db)) (sd_Height db)) as [Hlt|Hle];
      [|injection H as <- <-; right; split_and!; [done|by split|];
        rewrite Nat.min_l by lia; by rewrite !take_ge by lia]).
  { lia. }
  destruct (node_at_snoc _ _ _ Hna) as (bs' & b & ds' & d & -> & ->); [unfold zlen; lia|].
  rewrite !length_app in *. cbn [length] in *.
  destruct (disconnectBlock client true db) as [r1 db1] eqn:E1.
  destruct (disconnect_neglect _ _ _ _ _ _ _ _ Hna Hok Hon E1) as [(e & -> & He)|(-> & Hna1 & Hp1)].
  { left. exists e. unfold mbind, goM_bind in H. rewrite E1 in H. by injection H as <- <-. }
  rewrite (bind_Ok _ _ _ _ _ E1) in H. rewrite Hps, take_ge in Hp1 by lia.
  apply (IH _ bs' ds' ps) in H; [|done|done|by eapply honest_sub; [|exact Hon]; intros x Hx; apply elem_of_app; left|lia].
  destruct H as [(e & -> & He)|(-> & Hp' & Hn')].
  { left. exists e. split; [done|]. destruct He as [He|?]; [left|by right]. eapply unserved_sub; [|exact He]. intros x Hx. apply elem_of_app. by left. }
  right. split_and!; [done|done|]. cbn zeta in *.
  replace (length ds' + 1)%nat with (S (length ds')) by lia.
  rewrite !Nat.min_r in * by lia. rewrite !take_app_le by lia. exact Hn'.
Qed.

Lemma trimPool_spec h : 0 <= h → ∀ fuel ps (db : SD),
  pool_has db ps → (length ps <= fuel + Z.to_nat h)%nat →
  ∃ db', trimPool fuel h (zlen ps) db = (Ok (Z.min h (zlen ps)), db') ∧
    db' = set_PoolDB (PoolDB db') db ∧ pool_has db' (take (Z.to_nat h) ps).
Proof.
  intros Hh. induction fuel as [|fuel IH]; intros ps db Hp Hf; cbn [trimPool];
    (destruct (Z.ltb_spec h (zlen ps)) as [Hlt|Hle];
     [|exists db; rewrite Z.min_r by lia; unfold zlen in Hle; rewrite take_ge by lia; by destruct db]).
  { unfold zlen in Hlt. lia. }
  destruct (pool_snoc ps) as (ps' & d & ->); [lia|].
  destruct (onPool_trim _ _ _ Hp) as (tp1 & Et & Hp1). rewrite (bind_Ok _ _ _ _ _ Et). cbn [fst].
  rewrite zlen_app in *. change (zlen [d]) with 1 in *.
  destruct (IH ps' _ Hp1) as (db' & E & Es & Hp'); [rewrite length_app in Hf; cbn in Hf; lia|].
  unfold zlen in *. exists db'. rewrite E. split_and!; [f_equal; f_equal; lia|by rewrite Es|by rewrite take_app_le by lia].
Qed.

Lemma syncHeights_spec client db bs ds ps r db' :
  node_at db bs ds → pool_has db ps → honest client bs → syncHeights client db = (r, db') →
  (∃ e, r = Err e ∧ (unserved client bs e ∨ late e)) ∨
  (r = Ok tt ∧ let k := Nat.min (length ds) (length ps) in
     node_at db' (take (S k) bs) (take k ds) ∧ pool_has db' (take k ps)).
Proof.
  intros Hna Hp Hon H. unfold syncHeights in H. rewrite bind_gets in H. cbn [id] in H.
  destruct (node_at_len _ _ _ Hna) as [Hh Hl]. pose proof Hp as [Hok Hps].
  pose proof (ok_tip _ Hok) as Ht. rewrite Hps in Ht. rewrite Hh, Ht in H.
  destruct (rollStakeDB client (Z.to_nat (zlen ds - zlen ps)) db) as [r1 db1] eqn:E1.
  pose proof E1 as E1'. apply (rollStakeDB_spec client _ _ _ _ _ _ _ Hna Hp Hon) in E1' as [(e & -> & He)|(-> & Hp1 & Hna1)];
    [| |unfold zlen; lia].
  { left. exists e. unfold mbind, goM_bind in H. rewrite E1 in H. by injection H as <- <-. }
  rewrite (bind_Ok _ _ _ _ _ E1), bind_gets in H. cbn [id] in H. cbn zeta in Hna1.
  set (k := Nat.min (length ds) (length ps)) in *.
  destruct (node_at_len _ _ _ Hna1) as [Hh1 _]. pose proof Hp1 as [Hok1 Hps1].
  pose proof (ok_tip _ Hok1) as Ht1. rewrite Hps1 in Ht1. rewrite Hh1, Ht1 in H.
  assert (zlen (take k ds) = Z.of_nat k) as Ek by (unfold zlen; rewrite length_take; lia). rewrite Ek in H.
  destruct (trimPool_spec (Z.of_nat k) ltac:(lia) (Z.to_nat (zlen ps - Z.of_nat k)) ps db1 Hp1) as (db2 & E2 & Es2 & Hp2);
    [unfold zlen; lia|].
  rewrite (bind_Ok _ _ _ _ _ E2) in H. rewrite Z.min_l in H by (unfold zlen; lia).
  rewrite Z.eqb_refl in H. injection H as <- <-. right. split; [done|]. rewrite Nat2Z.id in Hp2.
  split; [|done]. rewrite Es2. exact Hna1.
Qed.

Lemma populate_spec client ts : ∀ err db L r db',
  NoDup ts → (∀ h, h ∈ ts → h ∉ L) → ticket_answers client ts → cache_has db L →
  (err = Ok tt ∨ err = Err EGetTx) →
  populate client ts err db = (r, db') →
  (r = Err EGetTx ∧ (err = Ok tt → ∃ h, h ∈ ts ∧ GetRawTransaction client h = None)) ∨ (r = Ok tt ∧ same_but_tickets db db' ∧ cache_has db' (L ∪ list_to_set ts)).
Proof.
  induction ts as [|t ts IH]; intros err db L r db' Hnd Hnew Ha HL Herr H; cbn [populate] in H.
  { injection H as <- <-. destruct Herr as [->| ->]; [right|by left].
    split; [done|]. split; [apply same_refl|]. cbn. by replace (L ∪ ∅) with L by set_solver. }
  apply NoDup_cons in Hnd as [Ht Hnd].
  assert (ticket_answers client ts) as Ha' by (intros h tx Hh; apply Ha; by right).
  destruct (GetRawTransaction client t) as [tx|] eqn:Et.
  - destruct (Ha t tx) as [Etx Ev]; [by left|done|]. rewrite decide_True in H by done.
    rewrite Ev, (bind_Ok (orPanic (Some (val t))) _ db (val t) db eq_refl), bind_modify in H.
    assert (t ∉ L) as HtL by (apply Hnew; by left).
    apply (IH err _ ({[t]} ∪ L)) in H; [|done| |done|by apply addTicket_has|done].
    + destruct H as [[-> Hh]|(-> & Hs & Hc)].
      { left. split; [done|]. intros E0. destruct (Hh E0) as (h & ? & ?). exists h. split; [by right|done]. }
      right. split; [done|]. split; [by eapply same_trans; [apply same_addTicket|]|].
      cbn [list_to_set]. by replace (L ∪ ({[t]} ∪ list_to_set ts)) with ({[t]} ∪ L ∪ list_to_set ts) by set_solver.
    + intros h Hh. rewrite elem_of_union, elem_of_singleton. intros [->|Hl]; [done|]. apply (Hnew h); [by right|done].
  - left. split; [|intros _; exists t; split; [by left|done]].
    assert (populate client ts (Err EGetTx) db = (r, db') → r = Err EGetTx) as G; [|by apply G].
    clear -Ha'. revert db r db'. induction ts as [|t ts IH]; intros db r db'; cbn [populate].
    { by intros [= <- <-]. }
    assert (ticket_answers client ts) as Ha'' by (intros h tx Hh; apply Ha'; by right).
    destruct (GetRawTransaction client t) as [tx|] eqn:Et; [|by apply IH].
    destruct (Ha' t tx) as [Etx Ev]; [by left|done|]. rewrite decide_True by done.
    rewrite Ev, (bind_Ok (orPanic (Some (val t))) _ db (val t) db eq_refl), bind_modify. by apply IH.
Qed.

(** Populating the cache where node and pool are at one history. *)
Lemma Populate_synced client db bs ds r db' :
  node_at db bs ds → pool_has db ds →
  (∀ h tx, GetRawTransaction client h = Some tx → tx_Hash tx = h ∧ ticketValue tx = Some (val h)) →
  PopulateLiveTicketCache client db = (r, db') →
  (r = Err EGetTx ∧ ∃ h, h ∈ pool_at ds (length ds) ∧ GetRawTransaction client h = None) ∨ (r = Ok tt ∧ synced db' bs ds).
Proof.
  intros Hna Hp Ha H. pose proof Hna as (n & _ & _ & Hn & Hc & _). destruct (nc_pool _ _ _ Hc) as [_ Hl].
  unfold PopulateLiveTicketCache in H. rewrite (bind_Ok bestNode _ db n db) in H by (unfold bestNode; by rewrite Hn).
  rewrite bind_modify in H.
  apply (populate_spec client _ _ _ ∅) in H as [[-> Hh]|(-> & Hs & Hcache)];
    [left; split; [done|]; destruct (Hh eq_refl) as (h & Hin & ?); exists h; split; [by rewrite <- Hl, elem_of_list_to_set|done]| |apply live_nodup|done| | |by left].
  - right. split; [done|]. rewrite union_empty_l_L, Hl in Hcache. by split_and!; [rewrite Hs..|].
  - intros h tx _. apply Ha.
  - split; cbn; [|by rewrite map_sum_empty]. intros h v. rewrite lookup_empty. set_solver.
Qed.

Lemma AdvanceToTip_pool db ds :
  pool_has db ds →
  ∃ tp, AdvanceToTip (PoolDB db) = (zlen ds, Ok tt, tp) ∧ pool_has (set_PoolDB tp db) ds.
Proof.
  intros [Hok Hds]. pose proof (ok_tip _ Hok) as Ht. pose proof (ok_cursor _ Hok) as Hc.
  exists (at_cursor (tip (PoolDB db)) (PoolDB db)). rewrite (AdvanceToTip_spec _ Hok), Ht, Hds. split; [done|].
  split; [|done]. apply at_cursor_ok; [done|]. rewrite Hds in Ht. lia.
Qed.

Lemma honest_take client bs k : honest client bs → honest client (take k bs).
Proof.
  apply honest_sub. intros b Hb. rewrite <- (take_drop k bs). apply elem_of_app. by left.
Qed.

(** Rewinding without the cache. *)
Lemma Rewind_loop_spec client to : 0 <= to → ∀ fuel db bs ds r db',
  node_at db bs ds → pool_has db ds → honest client bs → (length ds <= fuel + Z.to_nat to)%nat →
  Rewind_loop client fuel to true db = (r, db') →
  (∃ e, r = Err e) ∨
  (r = Ok tt ∧ node_at db' (take (S (Z.to_nat to)) bs) (take (Z.to_nat to) ds) ∧ pool_has db' (take (Z.to_nat to) ds)).
Proof.
  intros Hto. induction fuel as [|fuel IH]; intros db bs ds r db' Hna Hp Hon Hf H; cbn [Rewind_loop] in H;
    destruct (node_at_len _ _ _ Hna) as [Hh Hl]; rewrite Hh in H;
    (destruct (Z.ltb_spec to (zlen ds)) as [Hlt|Hle];
      [|unfold zlen in Hle; injection H as <- <-; right; by rewrite !take_ge by lia]).
  { unfold zlen in Hlt. lia. }
  destruct (node_at_snoc _ _ _ Hna) as (bs' & b & ds' & d & -> & ->); [lia|].
  rewrite zlen_app, !length_app in *. change (zlen [d]) with 1 in *. cbn [length] in *.
  pose proof Hp as [Hok Hps]. destruct (disconnectBlock client true db) as [r1 db1] eqn:E1.
  destruct (disconnect_neglect _ _ _ _ _ _ _ _ Hna Hok Hon E1) as [(e & -> & _)|(-> & Hna1 & Hp1)].
  { left. exists e. unfold mbind, goM_bind in H. rewrite E1 in H. by injection H as <- <-. }
  rewrite Hps, take_app_length in Hp1. rewrite (bind_Ok _ _ _ _ _ E1), bind_gets in H.
  destruct (node_at_len _ _ _ Hna1) as [Hh1 _]. pose proof Hp1 as [Hok1 Hps1].
  pose proof (ok_tip _ Hok1) as Ht1. rewrite Hps1 in Ht1. rewrite Hh1, Ht1, Z.eqb_refl in H. cbn [negb] in H.
  assert (honest client bs') as Hon' by (eapply honest_sub; [|exact Hon]; intros x Hx; apply elem_of_app; by left).
  destruct (IH db1 bs' ds' r db' Hna1 Hp1 Hon') as [?|(-> & Hn' & Hp')]; [lia|done|by left|right].
  unfold zlen in *. rewrite !take_app_le by lia. done.
Qed.

(** *** Blocks of a reorganization *)
Lemma DisconnectBlocks_synced client old : ∀ dold db bs ds r db',
  synced db (bs ++ old) (ds ++ dold) → length old = length dold → honest client (bs ++ old) →
  (∀ h, h ∈ concat (dOut <$> dold) → ∃ tx, GetRawTransaction client h = Some tx ∧ tx_Hash tx = h ∧ ticketValue tx = Some (val h)) →
  DisconnectBlocks_loop client (length old) db = (r, db') →
  (∃ e, r = Err e) ∨ (r = Ok tt ∧ synced db' bs ds ∧ blockCache db' = blockCache db).
Proof.
  induction old as [|b old IH] using rev_ind; intros dold db bs ds r db' Hs Hlen Hon Hk H.
  { destruct dold; [|done]. rewrite !app_nil_r in Hs. injection H as <- <-. by right. }
  destruct dold as [|d dold _] using rev_ind; rewrite !length_app in Hlen; cbn [length] in Hlen; [lia|].
  rewrite length_app, Nat.add_1_r in H. cbn [DisconnectBlocks_loop] in H.
  destruct (disconnectBlock client false db) as [r1 db1] eqn:E1. rewrite !app_assoc in Hs. rewrite app_assoc in Hon.
  rewrite fmap_app, concat_app in Hk. cbn [fmap list_fmap concat] in Hk. rewrite app_nil_r in Hk.
  pose proof E1 as E1'. apply (DisconnectBlock_synced client db _ _ _ _ r1 db1 Hs Hon) in E1' as [(e & -> & ->)|[(e & -> & _)|(-> & Hs1 & Hb1)]].
  - left. exists e. unfold mbind, goM_bind in H. rewrite E1 in H. by injection H as <- <-.
  - left. exists e. unfold mbind, goM_bind in H. rewrite E1 in H. by injection H as <- <-.
  - rewrite (bind_Ok _ _ _ _ _ E1) in H. apply (IH dold _ bs ds) in H; [|done|lia| |].
    + destruct H as [?|(-> & ? & Hb)]; [by left|right]. by rewrite Hb.
    + eapply honest_sub; [|exact Hon]. intros x Hx. apply elem_of_app. by left.
    + intros h Hh. apply Hk, elem_of_app. by left.
  - intros h Hh. apply Hk, elem_of_app. by right.
Qed.

(** [new] is a chain over [bs], and the client has its blocks. *)
Fixpoint side_chain (client : NodeClient) (bs new : list Block) : Prop :=
  match new with
  | [] => True
  | b :: rest => GetBlock client (b_Hash b) = Some b ∧ next_block bs b ∧ side_chain client (bs ++ [b]) rest
  end.

Lemma connectNew_synced client new : ∀ db bs ds th thash db' h hash,
  synced db bs ds → blocks_ok client db → side_chain client bs new →
  connectNewChain params client (b_Hash <$> new) th thash db = (Ok (h, hash, None), db') →
  ∃ dnew, length dnew = length new ∧ synced db' (bs ++ new) (ds ++ dnew).
Proof.
  induction new as [|b new IH]; intros db bs ds th thash db' h hash Hs Hb Hside H; cbn [connectNewChain fmap list_fmap] in H.
  { destruct (_ =? _); [|done]. injection H as _ _ <-. exists []. by rewrite !app_nil_r. }
  destruct Hside as (Hget & Hnext & Hside).
  destruct (ConnectBlockHash params client (b_Hash b) db) as [r1 db1] eqn:E1.
  destruct r1 as [b1|e| |]; [|by destruct (DBTipBlockHeader client db1) as [[] ?]|done|done].
  unfold ConnectBlockHash, getBlock in E1. rewrite Hget, (bind_Ok (orFail _ (Some b)) _ db b db eq_refl) in E1.
  apply bind_inv in E1 as [([] & s2 & E2 & E1)|E1]; [|by destruct E1 as [(? & ? & ?)|[[? ?]|[? ?]]]].
  injection E1 as -> ->.
  destruct (ConnectBlock_synced _ _ _ _ _ _ _ Hs Hnext Hb E2) as [Hb1 [(_ & [? ?] & _)|(d & Hs1 & _)]]; [done..|].
  destruct (IH _ _ _ _ _ _ _ _ Hs1 Hb1 Hside H) as (dnew & Hl & Hs').
  exists (d :: dnew). rewrite <- !app_assoc in Hs'. split; [cbn; by rewrite Hl|done].
Qed.
End Values.
End Invariant.
