(* ===== verification/StakeSync.v ===== *)
(** * The stake database stays in step (theorems over [StakeDatabase])

    The steps of the stake database over a growing and shrinking chain, and
    what holds along them: the stake node, the ticket pool and the live ticket
    cache agree; a disconnected block is forgotten; recovery at start ends with
    everything at one height; a reorganization leaves the state of the new
    chain; a lost write of the stake database cannot be worked around. *)
From S2P Require Import Prelude PoolDiff TicketPool PoolInfoCache StakeTx StakeDatabase.
Open Scope Z_scope.

Section Theorems.
Context {DB : Type} {BDB : Badger DB} {ST : StakeTypes} {SL : StakeLib} {LW : StakeLaws}.
Context (params : NetParams) (val : Hash → Z).
Abbreviation SD := (StakeDatabase DB).

(** ** Steps *)
Definition client_vals (client : NodeClient) : Prop :=
  ∀ i b, getBlockByHeight client i = Some b → vals_ok val b.

(** The tickets that the last block took out of the pool. *)
Definition left_last (db : SD) : list Hash := match last (diffs (PoolDB db)) with Some d => dOut d | None => [] end.
Lemma left_last_out db bs ds d : synced val db bs (ds ++ [d]) → left_last db = dOut d.
Proof. intros (_ & [_ Hds] & _). unfold left_last. by rewrite Hds, last_snoc. Qed.

(** One call on the state [db] at the blocks [bs], with any outcome but a crash
    or a half-done write of the stake database. *)
Inductive sd_step : SD * list Block → SD * list Block → Prop :=
| sd_connect client b db bs r db' :
    next_block val bs b → client_vals client →
    ConnectBlock params client b db = (r, db') → r ≠ Panic → r ≠ Err EUpdate →
    sd_step (db, bs) (db', if connected r then bs ++ [b] else bs)
| sd_refused client b db bs r db' :
    vals_ok val b → b_Height b <= sd_Height db → client_vals client →
    ConnectBlock params client b db = (r, db') → r ≠ Panic →
    sd_step (db, bs) (db', bs)
| sd_disconnect client db bs b r db' :
    bs ≠ [] →
    honest client (bs ++ [b]) → knows_tickets val client (left_last db) →
    DisconnectBlock client false db = (r, db') → (∀ e, r = Err e → ¬ late e) →
    sd_step (db, bs ++ [b]) (db', match r with Ok _ => bs | _ => bs ++ [b] end).

Definition inv (s : SD * list Block) : Prop :=
  (∃ ds, synced val (fst s) (snd s) ds) ∧ ∀ i b, blockCache (fst s) !! i = Some b → vals_ok val b.

Lemma refused_state client b db bs ds r db' :
  synced val db bs ds → vals_ok val b → blocks_ok val client db → b_Height b <= sd_Height db →
  ConnectBlock params client b db = (r, db') → r ≠ Panic →
  r = Err (ECannotConnect (b_Height b) (sd_Height db)) ∧ blocks_ok val client db' ∧
  db' = set_blockCache (blockCache db') db.
Proof.
  intros (Hna & _) Hbv Hblk Hle H Hr. destruct Hna as (n & _ & _ & Hn & _).
  destruct (ConnectBlock_prefix _ _ _ _ _ _ _ _ Hblk Hbv Hn H Hr) as (ts & vals & rv & sp & s2 & _ & Hblk2 & Es2 & H2).
  unfold sd_Height in *. rewrite Hn in *. destruct (Z.leb_spec (b_Height b) (sn_Height n)); [|lia].
  by injection H2 as <- <-.
Qed.

Lemma sd_step_inv s s' : inv s → sd_step s s' → inv s'.
Proof.
  intros [[ds Hs] Hb]. inversion 1 as [client b db bs r db' Hnb Hcv Hrun Hnp Hnu|client b db bs r db' Hv Hle Hcv Hrun Hnp
    |client db bs b r db' Hne Hon Hk Hrun Hl]; subst; cbn [fst snd] in *.
  - destruct (ConnectBlock_synced _ _ _ _ _ _ _ _ _ Hs Hnb (conj Hb Hcv) Hrun Hnp Hnu) as [[Hb' _] [(Hs' & _ & ->)|(d & Hs' & Hr)]].
    + split; [|done]. by exists ds.
    + split; [|done]. exists (ds ++ [d]). by destruct Hr as [->|[e ->]].
  - destruct (refused_state _ _ _ _ _ _ _ Hs Hv (conj Hb Hcv) Hle Hrun Hnp) as (_ & [Hb' _] & ->).
    split; [|done]. exists ds. exact Hs.
  - pose proof Hs as (Hna & _). pose proof (node_at_len _ _ _ Hna) as [_ Hlen].
    rewrite length_app in Hlen. cbn [length] in Hlen.
    destruct ds as [|d ds _] using rev_ind; [destruct bs; [done|cbn in Hlen; lia]|].
    rewrite (left_last_out _ _ _ _ Hs) in Hk.
    destruct (DisconnectBlock_synced val client db bs b ds d r db' Hs Hon Hk Hrun)
      as [(e & -> & ->)|[(e & -> & Hlate)|(-> & Hs' & Eb)]].
    + split; [by eexists|done].
    + by destruct (Hl e).
    + split; [by exists ds|]. cbn. by rewrite Eb.
Qed.

Lemma sd_reach_inv s s' : inv s → rtc sd_step s s' → inv s'.
Proof. intros Hi. induction 1; eauto using sd_step_inv. Qed.

(** C1: along any sequence of connected, refused and disconnected blocks, with
    every outcome but a crash or a half-done write, and with a client that has
    the tickets that a disconnected block took out of the pool, the stake node is at the
    tip of the blocks connected so far, the ticket pool has one diff per block
    over genesis, those diffs make exactly the live tickets of the node, the
    live ticket cache holds exactly those tickets with their values, and the
    pool value is their sum. *)
Theorem stake_database_in_step (db0 db : SD) (bs0 bs : list Block) :
  inv (db0, bs0) → rtc sd_step (db0, bs0) (db, bs) →
  ∃ n, BestNode db = Some n ∧ sn_Height n = zlen bs - 1 ∧ tip (PoolDB db) = sn_Height n ∧
    pool_at (diffs (PoolDB db)) (length (diffs (PoolDB db))) = list_to_set (sn_LiveTickets n) ∧
    (∀ h v, liveTicketCache db !! h = Some v ↔ h ∈ sn_LiveTickets n ∧ v = val h) ∧
    poolValue db = i64 (map_sum id (liveTicketCache db)).
Proof.
  intros Hi Hr. destruct (sd_reach_inv _ _ Hi Hr) as [[ds (Hna & [Hok Hds] & Hc & Hv)] _]. cbn [fst snd] in *.
  pose proof Hna as (n & p & v & Hn & Hch & _). pose proof (node_at_len _ _ _ Hna) as [Hh Hl].
  destruct (nc_height _ _ _ Hch) as (Hz & _). destruct (nc_pool _ _ _ Hch) as [_ Hp].
  exists n. split_and!; [done| | | | |done].
  - rewrite Hz. unfold zlen. lia.
  - by rewrite Hz, (ok_tip _ Hok), Hds.
  - by rewrite Hds.
  - intros h w. by rewrite Hc, <- Hp, elem_of_list_to_set.
Qed.

(** C28: disconnecting the block just connected gives back the diffs, the tip,
    the live ticket cache and the pool value there were before, and a node with
    the same height and live tickets, if the client has the tickets that the
    block took out of the pool. *)
Theorem DisconnectBlock_undoes_ConnectBlock client client' (b : Block) (db db1 db2 : SD) bs ds n :
  synced val db bs ds → next_block val bs b → blocks_ok val client db → BestNode db = Some n →
  ConnectBlock params client b db = (Ok tt, db1) →
  honest client' (bs ++ [b]) → knows_tickets val client' (left_last db1) →
  DisconnectBlock client' false db1 = (Ok tt, db2) →
  diffs (PoolDB db2) = diffs (PoolDB db) ∧ tip (PoolDB db2) = tip (PoolDB db) ∧
  liveTicketCache db2 = liveTicketCache db ∧ poolValue db2 = poolValue db ∧
  ∃ n2, BestNode db2 = Some n2 ∧ sn_Height n2 = sn_Height n ∧
    (∀ h, h ∈ sn_LiveTickets n2 ↔ h ∈ sn_LiveTickets n).
Proof.
  intros Hs Hnb Hb Hn Hcon Hon Hk Hdis.
  destruct (ConnectBlock_synced _ _ _ _ _ _ _ _ _ Hs Hnb Hb Hcon) as [_ [(_ & [? ?] & _)|(d & Hs1 & _)]]; [done..|].
  rewrite (left_last_out _ _ _ _ Hs1) in Hk. destruct (DisconnectBlock_synced val _ _ _ _ _ _ _ _ Hs1 Hon Hk Hdis) as [(? & ? & _)|[(? & ? & _)|(_ & Hs2 & _)]]; [done..|].
  destruct Hs as ((n0 & _ & _ & Hn0 & Hc & _) & [Hok Hds] & Hcache).
  destruct Hs2 as ((n2 & _ & _ & Hn2 & Hc2 & _) & [Hok2 Hds2] & Hcache2). simplify_eq.
  destruct (cache_has_unique val _ _ _ Hcache2 Hcache) as [El Ev].
  split_and!; [done|by rewrite (ok_tip _ Hok), (ok_tip _ Hok2), Hds2|done|done|].
  exists n2. destruct (nc_height _ _ _ Hc) as (-> & _). destruct (nc_height _ _ _ Hc2) as (-> & _).
  split_and!; [done|done|]. intros h.
  destruct (nc_pool _ _ _ Hc) as [_ Hp]. destruct (nc_pool _ _ _ Hc2) as [_ Hp2].
  by rewrite <- !(elem_of_list_to_set (C:=gset Hash)), Hp, Hp2.
Qed.

(** The client tells nothing wrong about tickets; it may not answer. *)
Definition honest_tickets (client : NodeClient) : Prop :=
  ∀ h tx, GetRawTransaction client h = Some tx → tx_Hash tx = h ∧ ticketValue tx = Some (val h).

Lemma take_min_prefix (ds ps : list PoolDiff) :
  ds `prefix_of` ps ∨ ps `prefix_of` ds →
  let k := Nat.min (length ds) (length ps) in take k ps = take k ds.
Proof.
  intros [[x ->]|[x ->]]; cbn zeta; rewrite length_app.
  - rewrite Nat.min_l by lia. by rewrite take_app_le by lia.
  - rewrite Nat.min_r by lia. by rewrite take_app_le by lia.
Qed.

(** C24: opening ends, whatever heights the two databases were left at: when the
    diffs of the node and of the pool are of one chain, the recovery loops of
    NewStakeDatabase finish without a panic, and both databases are at the lower
    of the two heights, which is returned, with the live ticket cache of that
    height, unless the client lacks a block or the transaction of a live ticket,
    or the stake node fails: then that is the error.  It is never that the
    heights differ. *)
Theorem NewStakeDatabase_recovers client (db db' : SD) bs ds ps r :
  node_at db bs ds → pool_has db ps → (ds `prefix_of` ps ∨ ps `prefix_of` ds) →
  honest client bs → honest_tickets client →
  NewStakeDatabase client db = (r, db') →
  let k := Nat.min (length ds) (length ps) in
  (∃ e, r = Err e ∧ (unserved client bs e ∨ late e ∨
     e = EGetTx ∧ ∃ h, h ∈ pool_at (take k ds) k ∧ GetRawTransaction client h = None)) ∨
  r = Ok (Z.of_nat k) ∧ sd_Height db' = Z.of_nat k ∧ tip (PoolDB db') = Z.of_nat k ∧
  synced val db' (take (S k) bs) (take k ds).
Proof.
  intros Hna Hp Hpre Hon Ht H k. unfold NewStakeDatabase in H.
  destruct (syncHeights client db) as [r1 db1] eqn:E1.
  destruct (syncHeights_spec val client db bs ds ps r1 db1 Hna Hp Hon E1) as [(e & -> & He)|(-> & Hna1 & Hp1)].
  { left. exists e. unfold mbind, goM_bind in H. rewrite E1 in H. injection H as <- <-. split; [done|]. destruct He; auto. }
  fold k in Hna1, Hp1.
  unfold k in Hp1. rewrite (take_min_prefix _ _ Hpre) in Hp1. fold k in Hp1. rewrite (bind_Ok _ _ _ _ _ E1) in H.
  assert (zlen (take k ds) = Z.of_nat k) as Ek by (unfold zlen; rewrite length_take; lia).
  destruct (AdvanceToTip_pool db1 _ Hp1) as (tp & Ea & Hp2). rewrite Ek in Ea.
  match type of H with (?m ≫= _) db1 = _ => rewrite (bind_Ok m _ db1 (Z.of_nat k) (set_PoolDB tp db1)) in H by (by rewrite Ea) end.
  destruct (PopulateLiveTicketCache client (set_PoolDB tp db1)) as [r2 db2] eqn:E2.
  destruct (Populate_synced val client (set_PoolDB tp db1) _ _ _ _ Hna1 Hp2 Ht E2) as [(-> & h & Hh & Hno)|(-> & Hs)].
  { left. exists EGetTx. unfold mbind, goM_bind in H. rewrite E2 in H. injection H as <- <-. split; [done|]. right; right. split; [done|].
    exists h. split; [|done]. replace (length (take k ds)) with k in Hh by (unfold zlen in Ek; lia). exact Hh. }
  rewrite (bind_Ok _ _ _ _ _ E2) in H. injection H as <- <-. right. split; [done|].
  pose proof Hs as (Hna2 & [Hok2 Hds2] & _). destruct (node_at_len _ _ _ Hna2) as [-> _].
  rewrite (ok_tip _ Hok2), Hds2. by rewrite Ek.
Qed.

(** LoadAndRecover leaves both databases at the requested height, or at the
    lower of their heights if that is less; it ends without a panic. *)
Theorem LoadAndRecover_rewinds client (db db' : SD) bs ds ps toHeight r :
  node_at db bs ds → pool_has db ps → (ds `prefix_of` ps ∨ ps `prefix_of` ds) →
  honest client bs → honest_tickets client →
  LoadAndRecover client toHeight db = (r, db') →
  (∃ e, r = Err e) ∨
  let k := Z.to_nat (Z.min (Z.max 0 toHeight) (Z.min (zlen ds) (zlen ps))) in
  r = Ok tt ∧ sd_Height db' = Z.of_nat k ∧ synced val db' (take (S k) bs) (take k ds).
Proof.
  intros Hna Hp Hpre Hon Ht H. unfold LoadAndRecover in H. rewrite bind_gets in H. cbn [id] in H.
  destruct (node_at_len _ _ _ Hna) as [Hh Hl]. pose proof Hp as [Hok Hps].
  pose proof (ok_tip _ Hok) as Htip. rewrite Hps in Htip. rewrite Hh, Htip in H.
  match type of H with context [Rewind_loop client (Z.to_nat (sd_Height _ - ?t))] => set (to := t) in H end.
  assert (to = Z.min (Z.max 0 toHeight) (Z.min (zlen ds) (zlen ps))) as Eto.
  { pose proof (zlen_nonneg ds). pose proof (zlen_nonneg ps). unfold to.
    destruct (Z.ltb_spec toHeight 0); case (Z.ltb_spec (zlen ds) _); intros; case (Z.ltb_spec (zlen ps) _); intros; lia. }
  clearbody to. rewrite <- Eto. assert (0 <= to <= Z.min (zlen ds) (zlen ps)) as Hto by (unfold zlen in *; lia).
  destruct (syncHeights client db) as [r1 db1] eqn:E1.
  destruct (syncHeights_spec val client db bs ds ps r1 db1 Hna Hp Hon E1) as [(e & -> & _)|(-> & Hna1 & Hp1)].
  { left. exists e. unfold mbind, goM_bind in H. rewrite E1 in H. by injection H as <- <-. }
  set (k := Nat.min (length ds) (length ps)) in *.
  unfold k in Hp1. rewrite (take_min_prefix _ _ Hpre) in Hp1. fold k in Hp1. rewrite (bind_Ok _ _ _ _ _ E1), bind_gets in H. cbn [id] in H.
  destruct (node_at_len _ _ _ Hna1) as [Hh1 _].
  assert (length (take k ds) <= Z.to_nat (sd_Height db1 - to) + Z.to_nat to)%nat as Hfuel.
  { rewrite Hh1. unfold zlen. lia. }
  destruct (Rewind_loop client (Z.to_nat (sd_Height db1 - to)) to true db1) as [r2 db2] eqn:E2.
  destruct (Rewind_loop_spec val client to ltac:(lia) _ _ _ _ _ _ Hna1 Hp1 (honest_take _ _ _ Hon) Hfuel E2)
    as [[e ->]|(-> & Hna2 & Hp2)].
  { left. exists e. unfold mbind, goM_bind in H. rewrite E2 in H. by injection H as <- <-. }
  rewrite !take_take in *. unfold zlen in Hto.
  replace (S (Z.to_nat to) `min` S k)%nat with (S (Z.to_nat to)) in * by lia.
  replace (Z.to_nat to `min` k)%nat with (Z.to_nat to) in * by lia.
  rewrite (bind_Ok _ _ _ _ _ E2) in H.
  destruct (AdvanceToTip_pool db2 _ Hp2) as (tp & Ea & Hp3).
  match type of H with (?m ≫= _) db2 = _ => rewrite (bind_Ok m _ db2 (zlen (take (Z.to_nat to) ds), true) (set_PoolDB tp db2)) in H by (by rewrite Ea) end.
  cbn [snd] in H. unfold mbind at 1, goM_bind at 1, mret, goM_ret in H.
  destruct (Populate_synced val client (set_PoolDB tp db2) _ _ _ _ Hna2 Hp3 Ht H) as [[-> _]|(-> & Hs)]; [left; by eexists|right].
  split; [done|]. split; [|done]. pose proof Hs as (Hna3 & _). destruct (node_at_len _ _ _ Hna3) as [-> _].
  unfold zlen. rewrite length_take. lia.
Qed.

(** ** A lost write of the stake database *)
(** Reads the outcome of a step that neither fails nor branches. *)
Ltac run_inv H :=
  lazy beta iota delta [mret goM_ret modify gets orPanic orFail fail panic] in H; simplify_eq.

Lemma applyIn_frame client ins : ∀ i inVals (db : SD) db',
  applyIn client ins i inVals db = (Ok tt, db') → same_but_tickets db db'.
Proof.
  induction ins as [|h ins IH]; intros i inVals db db' H; cbn [applyIn] in H.
  { run_inv H. apply same_refl. }
  rewrite bind_gets in H. go_ok H as x s1 E.
  apply IH in H. eapply same_trans; [|exact H]. clear H IH.
  assert (∀ o : option Z, (val ← orPanic o; modify (addTicket h val)) db = (Ok x, s1) → same_but_tickets db s1) as G.
  { intros [v|] Hm; [|done]. go_ok Hm as w s2 Hw. run_inv Hw. run_inv Hm. apply same_addTicket. }
  destruct (liveTicketCache db !! h); [run_inv E; apply same_refl|].
  destruct inVals as [vals|]; [by apply G in E|].
  destruct (GetRawTransaction client h); [by apply G in E|]. run_inv E. apply same_refl.
Qed.

Lemma removeAll_frame outs : ∀ db : SD, same_but_tickets db (foldl (λ db h, removeTicket h db) db outs).
Proof.
  induction outs as [|h outs IH]; intros db; cbn; [apply same_refl|].
  eapply same_trans; [apply same_removeTicket|apply IH].
Qed.

(** A diff is stored only over the tip of the ticket pool. *)
Lemma poolUpdate_Ok_height client b n' d vals h (db db' : SD) :
  poolUpdate client b n' d vals h db = (Ok tt, db') → h = tip (PoolDB db).
Proof.
  unfold poolUpdate, defer_signal. intros H.
  match type of H with (let '(_, _) := ?m db in _) = _ => destruct (m db) as [r5 s5] eqn:E5 end.
  injection H as -> _. go_ok E5 as x s1 E1. unfold sd_applyDiff in E1.
  go_ok E1 as y s0 E0. destruct y. apply applyIn_frame in E0.
  injection E1 as _ Es1. rewrite bind_gets in E5. go_ok E5 as y s2 E2.
  assert (PoolDB s2 = PoolDB db) as EP.
  { unfold SetPoolInfo in E2. destruct (Set_ _ _ _); try done. injection E2 as _ <-. cbn.
    rewrite <- Es1, removeAll_frame. cbn. by rewrite E0. }
  unfold onPool, Append, gets, fail, mbind, goM_bind in E5. cbn in E5. rewrite EP in E5.
  destruct (Z.eqb_spec (h + 1) (tip (PoolDB db) + 1)); [lia|done].
Qed.

Lemma maturing_frame client h (db : SD) m db' :
  maturingTickets params client h db = (Ok m, db') → db' = set_blockCache (blockCache db') db.
Proof.
  unfold maturingTickets. destruct (_ <=? _); [|intros H; run_inv H; by destruct db'].
  rewrite bind_gets. destruct (block client _ (id db)) as [ob cached]. cbn [id].
  intros H. go_ok H as x s1 E.
  assert (s1 = set_blockCache (blockCache s1) db) as Es.
  { destruct cached; run_inv E; [done|by destruct s1]. }
  go_ok H as b s2 E2. destruct ob; run_inv E2. destruct (TicketsInBlock b) as [ts txs].
  go_ok H as vs s3 E3. destruct (mapM ticketValue txs); run_inv E3. by run_inv H.
Qed.

(** ConnectBlock succeeds only when node and pool are at one height. *)
Lemma ConnectBlock_Ok_heights client b (db db' : SD) :
  ConnectBlock params client b db = (Ok tt, db') → sd_Height db = tip (PoolDB db).
Proof.
  unfold ConnectBlock. intros H. go_ok H as m s1 E1. destruct m as [ts vals].
  apply maturing_frame in E1. rewrite bind_modify in H.
  go_ok H as rv s2 E2. go_ok H as sp s3 E3.
  destruct (RevokedTicketsInBlock b); run_inv E2. destruct (TicketsSpentInBlock b); run_inv E3.
  go_ok H as n s4 E4. unfold bestNode in E4. rewrite E1 in E4. cbn in E4.
  destruct (BestNode db) as [n0|] eqn:Hn; [|done]. injection E4 as -> Es4. subst s4.
  destruct (b_Height b <=? sn_Height n); [done|].
  go_ok H as u s5 E5. destruct u.
  assert (PoolDB s5 = PoolDB db) as EP.
  { clear -E5 E1. unfold connectBlock in E5. go_ok E5 as hB q1 F1. destruct (BlockHeaderBytes b); run_inv F1.
    go_ok E5 as n q2 F2. unfold bestNode in F2. case_match; simplify_eq.
    go_ok E5 as o q3 F3. destruct (ConnectNode _ _ _ _ _); run_inv F3.
    go_ok E5 as node q4 F4. destruct o; run_inv F4. rewrite bind_modify, bind_gets in E5.
    go_ok E5 as sdb q5 F5. destruct (WriteConnectedBestNode _ _ _); run_inv F5. run_inv E5. done. }
  go_ok H as n' s6 E6. unfold bestNode in E6. destruct (BestNode s5); [|done]. injection E6 as _ <-.
  apply poolUpdate_Ok_height in H. unfold sd_Height. by rewrite Hn, H, EP.
Qed.

(** When the write of the connected node fails, node and database part. *)
Lemma connectBlock_torn b sp rv mt (db : SD) n db' :
  connectBlock b sp rv mt db = (Err EUpdate, db') → BestNode db = Some n →
  ∃ iv n', ConnectNode n iv sp rv mt = Some (Some n') ∧ db' = set_BestNode (Some n') db.
Proof.
  unfold connectBlock. intros H Hn.
  destruct (BlockHeaderBytes b) as [hB|]; [|done].
  rewrite (bind_Ok (orFail _ (Some hB)) _ db hB db eq_refl) in H.
  rewrite (bind_Ok bestNode _ db n db) in H by (unfold bestNode; by rewrite Hn).
  destruct (ConnectNode n _ sp rv mt) as [[n'|]|] eqn:Ec; [|done..].
  unfold orFail, gets, modify, mret, goM_ret, mbind, goM_bind in H. cbn in H.
  destruct (WriteConnectedBestNode _ _ _); [done|]. injection H as <-. by eexists _, n'.
Qed.

Lemma ConnectBlock_torn client b (db : SD) bs ds db1 :
  synced val db bs ds → blocks_ok val client db → vals_ok val b →
  ConnectBlock params client b db = (Err EUpdate, db1) →
  ∃ n', BestNode db1 = Some n' ∧ sn_Height n' = zlen ds + 1 ∧ StakeDB db1 = StakeDB db ∧ PoolDB db1 = PoolDB db.
Proof.
  intros (Hna & [Hok Hds] & Hcache) Hb Hv H. pose proof Hna as (n & _ & _ & Hn & Hc & _).
  destruct (nc_height _ _ _ Hc) as (Hz & _).
  destruct (ConnectBlock_prefix _ _ _ _ _ _ _ _ Hb Hv Hn H) as (ts & vals & rv & sp & s2 & Hvals & _ & Es2 & H2); [done|].
  assert (BestNode s2 = Some n) as Hn2 by (by rewrite Es2).
  destruct (b_Height b <=? sn_Height n); [done|].
  apply bind_inv in H2 as [([] & s3 & E3 & H2)|[(e & E3 & Er)|[[E3 Er]|[E3 Er]]]]; [| |done..].
  - exfalso. destruct (connectBlock_inv _ _ _ _ _ _ _ _ E3 Hn2) as [([? ?] & _)|(_ & hB & n' & sdb & _ & Ec & _ & ->)]; [done..|].
    set (s3 := set_StakeDB sdb (set_BestNode (Some n') s2)) in *.
    rewrite (bind_Ok bestNode _ s3 n' s3 eq_refl) in H2.
    destruct (connect_diff _ _ _ _ _ _ Ec) as [Hd _]. destruct (nc_pool _ _ _ Hc) as [Hv' Hp]. rewrite Hp in Hd.
    assert (synced val s2 bs ds) as Hs2 by (rewrite Es2; by split_and!). destruct Hs2 as (_ & Hp2 & Hc2).
    apply (poolUpdate_synced val _ _ _ _ _ _ _ ds) in H2 as (_ & _ & _ & _ & _ & [?|[? ?]]); try done.
    by apply chain_valid_snoc.
  - injection Er as <-. destruct (connectBlock_torn _ _ _ _ _ _ _ E3 Hn2) as (iv & n' & Ec & ->).
    exists n'. split_and!; [done| | |]; [|by rewrite Es2..].
    rewrite (connect_height _ _ _ _ _ _ Ec). lia.
Qed.

(** When the stake database refuses to write a newly connected node the
    error is returned, but the node stays connected in memory: it is one block
    ahead of the ticket pool and of its own database, so no later ConnectBlock
    of any block succeeds, and DisconnectBlock, the way back, changes nothing:
    it returns an RPC error or panics. *)
Theorem lost_write_sticks client (b : Block) (db db1 : SD) bs b0 ds d :
  synced val db (bs ++ [b0]) (ds ++ [d]) → next_block val (bs ++ [b0]) b → blocks_ok val client db →
  ConnectBlock params client b db = (Err EUpdate, db1) →
  sd_Height db1 = tip (PoolDB db1) + 1 ∧
  (∀ client' b' db2, ConnectBlock params client' b' db1 ≠ (Ok tt, db2)) ∧
  (∀ client' neglect r db2, honest client' (bs ++ [b0]) →
     DisconnectBlock client' neglect db1 = (r, db2) → db2 = db1 ∧ (r = Panic ∨ ∃ e, r = Err e)).
Proof.
  intros Hs (p & _ & _ & _ & _ & Hv) Hb H.
  destruct (ConnectBlock_torn _ _ _ _ _ _ Hs Hb Hv H) as (n' & Hn' & Hh & ES & EP).
  destruct Hs as (Hna & [Hok Hds] & _). pose proof (ok_tip _ Hok) as Ht. rewrite Hds in Ht.
  assert (sd_Height db1 = tip (PoolDB db1) + 1) as Htorn by (unfold sd_Height; by rewrite Hn', Hh, EP, Ht).
  split_and!; [done| |].
  - intros client' b' db2 Hc. apply ConnectBlock_Ok_heights in Hc. lia.
  - intros client' neglect r db2 Hon Hd. unfold DisconnectBlock, disconnectBlock in Hd.
    rewrite (bind_Ok bestNode _ db1 n' db1) in Hd by (unfold bestNode; by rewrite Hn').
    assert (dbPrevBlock client' db1 = let '(r, _) := dbPrevBlock client' db in (r, db1)) as Ep.
    { unfold dbPrevBlock, dbState, getBlock, orFail, gets, fail, panic, mret, goM_ret, mbind, goM_bind. cbn. rewrite ES.
      repeat (case_match; simplify_eq; try done). }
    destruct (dbPrevBlock client' db) as [rp dbp] eqn:E.
    destruct (dbPrevBlock_inv _ _ _ _ _ _ _ _ Hna Hon E) as [_ [(e & -> & _)|(q & Hq & ->)]].
    { unfold mbind at 1, goM_bind at 1 in Hd. rewrite Ep in Hd. injection Hd as <- <-. split; [done|]. right. by exists e. }
    rewrite (bind_Ok _ _ _ _ _ Ep) in Hd. destruct Hna as (n0 & _ & _ & _ & Hc & _).
    destruct (nc_snoc_inv _ _ _ _ _ Hc) as (n & p' & hB & sp & rv & m & Hc0 & Hlp & _).
    destruct (nc_height _ _ _ Hc0) as (Hz & _ & q' & Hq' & Hqh & _). simplify_eq.
    rewrite Hh, zlen_app, Hqh, Hz in Hd. change (zlen [d]) with 1 in Hd.
    destruct (Z.eqb_spec (zlen ds) (zlen ds + 1 + 1 - 1)); [lia|]. injection Hd as <- <-. by split; [|left].
Qed.

(** ** Reorganizations *)
Lemma ReorgHandler_Ok client rd (db db' : SD) :
  ReorgHandler params client rd db = (Ok tt, db') →
  ∃ h hash, switchToSideChain params client (Some rd) db = (Ok (h, Some hash, None), db').
Proof.
  unfold ReorgHandler. intros H. go_ok H as x s1 E. destruct x as [[h [hash|]] err]; [|done].
  destruct err; [done|]. run_inv H. by exists h, hash.
Qed.

Lemma switchToSideChain_None client rd (db db' : SD) h hash :
  switchToSideChain params client (Some rd) db = (Ok (h, hash, None), db') →
  ∃ db1, DisconnectBlocks client (sd_Height db - (NewChainHeight rd - zlen (NewChain rd))) db = (Ok tt, db1) ∧
    connectNewChain params client (NewChain rd) 0 None db1 = (Ok (h, hash, None), db').
Proof.
  unfold switchToSideChain. destruct (NewChain rd) as [|h0 hs]; [done|].
  destruct (DisconnectBlocks client _ db) as [[[]|e| |] db1]; try done.
  destruct (negb _); [done|]. intros H. by exists db1.
Qed.

(** C25: a reorganization handled without an error leaves exactly the state of
    the new chain: node, ticket pool, live tickets and pool value are those of
    the common ancestor's chain extended by the side chain, if the client has
    the tickets that the disconnected blocks took out of the pool.  When a block cannot
    be disconnected the handler panics instead of returning the error. *)
Theorem ReorgHandler_follows client rd (db db' : SD) bs old new dbs dold r :
  synced val db (bs ++ old) (dbs ++ dold) → length old = length dold →
  blocks_ok val client db → honest client (bs ++ old) → knows_tickets val client (concat (dOut <$> dold)) →
  side_chain val client bs new → NewChain rd = b_Hash <$> new → NewChainHeight rd = zlen bs + zlen new - 1 →
  ReorgHandler params client rd db = (r, db') →
  (r = Ok tt → ∃ dnew, length dnew = length new ∧ synced val db' (bs ++ new) (dbs ++ dnew)) ∧
  (∀ e db1, DisconnectBlocks client (zlen old) db = (Err e, db1) → new ≠ [] → r = Panic).
Proof.
  intros Hs Hlen Hb Hon Hk Hside Hnew Hheight H.
  pose proof Hs as (Hna & _). destruct (node_at_len _ _ _ Hna) as [Hh Hl]. rewrite !length_app in Hl.
  assert (sd_Height db - (NewChainHeight rd - zlen (NewChain rd)) = zlen old) as Hcount.
  { rewrite Hh, Hheight, Hnew. unfold zlen. rewrite length_app, length_fmap. lia. }
  assert (Z.to_nat (zlen old) = length old) as Eo by (unfold zlen; lia). split.
  - intros ->. apply ReorgHandler_Ok in H as (h & hash & H).
    apply switchToSideChain_None in H as (db1 & E1 & H). rewrite Hcount in E1.
    unfold DisconnectBlocks in E1. rewrite Eo in E1.
    destruct (DisconnectBlocks_synced val client old dold db bs dbs _ _ Hs Hlen Hon Hk E1) as [[? ?]|(_ & Hs1 & Eb)]; [done|].
    rewrite Hnew in H. apply (connectNew_synced _ val client new db1 bs dbs _ _ _ _ _ Hs1) in H; [done| |done].
    split; [rewrite Eb|]; apply Hb.
  - intros e db1 E1 Hne. unfold ReorgHandler, switchToSideChain, mbind, goM_bind in H.
    destruct (NewChain rd) as [|h0 hs]; [by destruct new|]. rewrite Hcount, E1 in H. by injection H as <- <-.
Qed.
End Theorems.

(** ** Instances: a stake node that remembers its parent *)
Module Witness.
Import MapStore.

(** The first live ticket wins, the third one expires with the next block. *)
Inductive TNode := TGen | TConn (parent : TNode) (iv : bytes) (maturing : list Hash).
Fixpoint t_height (n : TNode) : Z := match n with TGen => 0 | TConn p _ _ => t_height p + 1 end.
Definition stay (l : list Hash) : list Hash := take 1 (drop 1 l) ++ drop 3 l.
Fixpoint t_live (n : TNode) : list Hash :=
  match n with
  | TGen => []
  | TConn p _ m => stay (t_live p) ++ filter (λ h, h ∉ t_live p) (remove_dups m)
  end.
Definition t_winners (n : TNode) : list Hash := take 1 (t_live n).
Definition t_expired (n : TNode) : list Hash :=
  match n with TGen => [] | TConn p _ _ => take 1 (drop 2 (t_live p)) end.
Definition t_connect (n : TNode) (iv : bytes) (m : list Hash) : option (option TNode) :=
  if bool_decide (NoDup m ∧ Forall (λ h, h ∉ t_live n) m) then Some (Some (TConn n iv m)) else None.
Definition t_state (n : TNode) (h : Hash) : bytes := h ++ rev (be_bytes 4 (t_height n)).

#[export] Instance lib : StakeLib := {|
  Node := TNode; SDB := bytes; IV := bytes; UndoData := unit;
  sn_Height := t_height; sn_Winners := t_winners; sn_ExpiredByBlock := t_expired;
  sn_LiveTickets := t_live; sn_PoolSize n := zlen (t_live n); sn_UndoData _ := tt;
  BlockHeaderBytes b := Some (b_Hash b); CalcHash256PRNGIV hB := hB;
  ConnectNode n iv _ _ m := t_connect n iv m;
  DisconnectNode n _ _ := match n with TGen => None | TConn p _ _ => Some (Some p) end;
  metadata_Get sdb key := Some sdb;
  WriteConnectedBestNode _ n h := if decide (h = replicate 32 9) then None else Some (t_state n h);
  WriteDisconnectedBestNode _ n h _ := Some (t_state n h);
  LoadBestNode _ _ _ _ := None;
  InitDatabaseState _ h := Some (TGen, t_state TGen h);
  ToCoin v := f64_div (f64_of_Z v) (f64_of_Z 100000000);
  Hash_String h := bigString (be_val h);
  BlockHash hdr := hdr_PrevBlock hdr
|}.

Lemma stay_split l h : NoDup l → h ∈ l ↔ h ∈ stay l ∨ h ∈ take 1 l ∨ h ∈ take 1 (drop 2 l).
Proof. destruct l as [|a [|b [|c l]]]; unfold stay; cbn; set_solver. Qed.

Lemma t_live_nodup n : NoDup (t_live n).
Proof.
  induction n as [|p IH iv m]; cbn; [constructor|]. apply NoDup_app. split_and!.
  - unfold stay. destruct (t_live p) as [|a [|b [|c l]]]; cbn; rewrite ?NoDup_cons in *;
      split_and?; try apply NoDup_nil_2; try done; set_solver.
  - intros h Hs [Hn _]%list_elem_of_filter. apply Hn, stay_split; [done|]. by left.
  - apply NoDup_filter, NoDup_remove_dups.
Qed.

Lemma t_connect_inv n iv m n' : t_connect n iv m = Some (Some n') →
  n' = TConn n iv m ∧ NoDup m ∧ ∀ h, h ∈ m → h ∉ t_live n.
Proof.
  unfold t_connect. case_bool_decide as H; [|done]. intros [= <-]. destruct H as [Hm Hf].
  rewrite Forall_forall in Hf. done.
Qed.

Lemma t_state_ok n h : length h = HashSize →
  ∃ v, Some (t_state n h) = Some v ∧ 36 <= zlen v ∧ take HashSize v = h.
Proof.
  intros Hh. exists (t_state n h). unfold t_state. split_and!; [done| |].
  - unfold zlen. rewrite length_app, length_rev, length_be_bytes, Hh. done.
  - rewrite <- Hh. apply take_app_length.
Qed.

#[export] Instance laws : StakeLaws.
Proof.
  split; cbn.
  - apply t_live_nodup.
  - intros n. unfold t_winners. pose proof (t_live_nodup n). split.
    + destruct (t_live n); cbn; [constructor|apply NoDup_singleton].
    + intros h Hh. rewrite <- (take_drop 1 (t_live n)). apply elem_of_app. by left.
  - intros n iv s r m n' H. by apply t_connect_inv in H as [-> _].
  - intros n iv s r m n' H. by apply t_connect_inv in H as (_ & ? & ?).
  - intros n iv s r m n' H. apply t_connect_inv in H as (-> & _). cbn. unfold t_winners.
    pose proof (t_live_nodup n) as Hnd. destruct (t_live n) as [|a [|b [|c l]]]; cbn; try (split; [constructor|set_solver]).
    split; [apply NoDup_singleton|]. intros h ->%list_elem_of_singleton. split; [set_solver|].
    apply NoDup_cons in Hnd as [Ha _]. set_solver.
  - intros n iv s r m n' H h. apply t_connect_inv in H as (-> & Hm & Hnew). cbn. unfold t_winners.
    rewrite elem_of_app, list_elem_of_filter, elem_of_remove_dups.
    pose proof (t_live_nodup n) as Hnd. pose proof (stay_split _ h Hnd) as Hsp.
    assert (h ∈ stay (t_live n) → (h ∉ take 1 (t_live n)) ∧ (h ∉ take 1 (drop 2 (t_live n)))) as Hst.
    { clear -Hnd. destruct (t_live n) as [|a [|b [|c l]]]; unfold stay; cbn; try set_solver.
      - apply NoDup_cons in Hnd as [Ha Hnd]. set_solver.
      - apply NoDup_cons in Hnd as [Ha Hnd]. apply NoDup_cons in Hnd as [Hb Hnd]. apply NoDup_cons in Hnd as [Hc Hnd]. set_solver. }
    specialize (Hnew h). split.
    + intros [Hs|[Hn Hm']]; [destruct (Hst Hs); split_and!; [left; tauto|done|done]|].
      split_and!; [by right|tauto|tauto].
    + intros ([Hl|Hm'] & Hw & He); [left; tauto|right; split; [by apply Hnew|done]].
  - intros n iv s r m n' piv sdb p H _ Hd. apply t_connect_inv in H as (-> & _). by injection Hd.
  - intros sdb n h sdb' H Hh. case_decide; [done|]. injection H as <-. by apply t_state_ok.
  - intros sdb n h u sdb' [= <-] Hh. by apply t_state_ok.
Qed.

(** Three tickets are bought in block 1, mature with block 2, and one wins and
    one expires with block 3. *)
#[export] Instance types : StakeTypes := {|
  IsSStx tx := bool_decide (tx_TxOut tx ≠ []); IsSSGen _ := false; IsSSRtx _ := false
|}.
Definition hash (i : Z) : Hash := replicate 32 i.
Definition val (h : Hash) : Z := 100 * hd 0 h.
Definition ticket (h : Hash) : MsgTx := mkTx h [] [mkTxOut (val h) 0 None []].
Definition g : Block := mkBlock (hash 0) 0 (hash 0) [].
Definition b1 : Block := mkBlock (hash 1) 1 (hash 0) [ticket (hash 11); ticket (hash 12); ticket (hash 13)].
Definition b2 : Block := mkBlock (hash 2) 2 (hash 1) [].
Definition b3 : Block := mkBlock (hash 3) 3 (hash 2) [].
Definition b3' : Block := mkBlock (hash 4) 3 (hash 2) [].
Definition bad : Block := mkBlock (hash 9) 3 (hash 2) [].
Definition blocks : list Block := [g; b1; b2; b3; b3'; bad].
Definition client : NodeClient := {|
  GetBlockHash i := b_Hash <$> list_find (λ b, b_Height b = i) blocks ≫= λ x, Some (snd x);
  GetBlock h := snd <$> list_find (λ b, b_Hash b = h) blocks;
  GetBlockHeader h := Header <$> (snd <$> list_find (λ b, b_Hash b = h) blocks);
  GetRawTransaction h := Some (ticket h)
|}.
Definition params : NetParams := mkNetParams 1 (hash 0).

Lemma blocks_vals b : b ∈ blocks → vals_ok val b.
Proof.
  intros Hb tx Htx _. assert (∃ h, tx = ticket h) as [h ->]; [|done].
  repeat (apply elem_of_cons in Hb as [->|Hb]; [
    repeat (apply elem_of_cons in Htx as [->|Htx]; [by eexists|]); by apply not_elem_of_nil in Htx|]).
  by apply not_elem_of_nil in Hb.
Qed.

Lemma client_ok : client_vals val client.
Proof.
  intros i b H. apply blocks_vals. unfold getBlockByHeight in H. cbn -[blocks] in H.
  destruct (list_find _ blocks) as [[j x]|]; [|done]. cbn -[blocks] in H.
  destruct (list_find (λ b0, b_Hash b0 = _) blocks) as [[k y]|] eqn:E; [|done]. injection H as <-.
  apply list_find_Some in E as (E & _). by eapply list_elem_of_lookup_2.
Qed.

Lemma client_honest bs : bs ⊆ blocks → honest client bs.
Proof.
  intros Hbs b Hb%Hbs. repeat (apply elem_of_cons in Hb as [->|Hb]; [
    split; [intros b' E|intros hdr E]; vm_compute in E; by injection E as <-|]).
  by apply not_elem_of_nil in Hb.
Qed.

Lemma client_tickets hs : knows_tickets val client hs.
Proof. intros h' _. by exists (ticket h'). Qed.

Definition db0 : StakeDatabase store :=
  mkSD (t_state TGen (hash 0)) (Some TGen) ∅ ∅ 0 (mkPIC ∅ [] 513) (mkTP 0 0 [] ∅ ∅) [].
Definition connect (b : Block) (db : StakeDatabase store) := snd (ConnectBlock params client b db).
Definition db1 := connect b1 db0.
Definition db2 := connect b2 db1.
Definition db3 := connect b3 db2.
Definition db4 := snd (DisconnectBlock client false db3).

Lemma inv0 : inv val (db0, [g]).
Proof.
  split; [|intros i b; cbn; by rewrite lookup_empty]. exists []. split_and!.
  - exists TGen, g, (t_state TGen (hash 0)). split_and!; try done. by constructor.
  - split; [apply new_pool_ok|done].
  - split; [|done]. intros h v. cbn. rewrite lookup_empty. set_solver.
Qed.

Lemma next p bs b : b ∈ blocks → last bs = Some p →
  b_Height b = b_Height p + 1 → b_PrevBlock b = b_Hash p → next_block val bs b.
Proof.
  intros Hb Hp Hh Hpr. exists p. split_and!; try done; [|by apply blocks_vals].
  repeat (apply elem_of_cons in Hb as [->|Hb]; [done|]). by apply not_elem_of_nil in Hb.
Qed.

Ltac in_blocks := unfold blocks; repeat first [apply list_elem_of_here | apply list_elem_of_further].

(** The outcome alone is evaluated. *)
Definition isOk (m : res SDErr () * StakeDatabase store) : bool :=
  match fst m with Ok _ => true | _ => false end.
Definition isTorn (m : res SDErr () * StakeDatabase store) : bool :=
  match fst m with Err EUpdate => true | _ => false end.
Lemma run_Ok m : isOk m = true → m = (Ok tt, snd m).
Proof. by destruct m as [[[]| | |] s]. Qed.
Lemma run_torn m : isTorn m = true → m = (Err EUpdate, snd m).
Proof. by destruct m as [[|[]| |] s]. Qed.

Lemma sync_run : rtc (sd_step params val) (db0, [g]) (db4, [g; b1; b2]).
Proof.
  apply (rtc_l _ _ (db1, [g; b1])).
  { apply (sd_connect params val client b1 db0 [g] (Ok tt)); [|apply client_ok|apply run_Ok; vm_compute; reflexivity|discriminate..].
    apply (next g); [in_blocks|reflexivity..]. }
  apply (rtc_l _ _ (db2, [g; b1; b2])).
  { apply (sd_connect params val client b2 db1 [g; b1] (Ok tt)); [|apply client_ok|apply run_Ok; vm_compute; reflexivity|discriminate..].
    apply (next b1); [in_blocks|reflexivity..]. }
  apply (rtc_l _ _ (db3, [g; b1; b2; b3])).
  { apply (sd_connect params val client b3 db2 [g; b1; b2] (Ok tt)); [|apply client_ok|apply run_Ok; vm_compute; reflexivity|discriminate..].
    apply (next b2); [in_blocks|reflexivity..]. }
  apply rtc_once. apply (sd_disconnect params val client db3 [g; b1; b2] b3 (Ok tt)); [done| |apply client_tickets|apply run_Ok; vm_compute; reflexivity|discriminate].
  apply client_honest. intros b Hb. cbn in Hb. unfold blocks. set_solver.
Defined.

Lemma stake_database_in_step_witness :
  (∃ n, BestNode db4 = Some n ∧ sn_Height n = 2) ∧ poolValue db3 = 1200 ∧ poolValue db4 = 3600 ∧
  liveTicketCache db4 !! hash 12 = Some 1200.
Proof.
  split; [|split_and!; vm_compute; reflexivity].
  destruct (stake_database_in_step params val db0 db4 [g] [g; b1; b2] inv0 sync_run) as (n & E & H & _).
  exists n. split; [exact E|exact H].
Defined.

Lemma sync_run2 : rtc (sd_step params val) (db0, [g]) (db2, [g; b1; b2]).
Proof.
  apply (rtc_l _ _ (db1, [g; b1])).
  { apply (sd_connect params val client b1 db0 [g] (Ok tt)); [|apply client_ok|apply run_Ok; vm_compute; reflexivity|discriminate..].
    apply (next g); [in_blocks|reflexivity..]. }
  apply rtc_once.
  apply (sd_connect params val client b2 db1 [g; b1] (Ok tt)); [|apply client_ok|apply run_Ok; vm_compute; reflexivity|discriminate..].
  apply (next b1); [in_blocks|reflexivity..].
Qed.

(** What is known of the reached states. *)
Lemma at2 : ∃ ds, synced val db2 [g; b1; b2] ds ∧ blocks_ok val client db2.
Proof.
  destruct (sd_reach_inv params val _ _ inv0 sync_run2) as [[ds H] Hb]. exists ds. split; [exact H|].
  split; [exact Hb|apply client_ok].
Qed.

Lemma connect3 : ConnectBlock params client b3 db2 = (Ok tt, db3).
Proof. apply run_Ok. vm_compute. reflexivity. Qed.

Lemma next3 b : b ∈ [b3; b3'; bad] → next_block val [g; b1; b2] b.
Proof.
  intros Hb. repeat (apply elem_of_cons in Hb as [->|Hb]; [apply (next b2); [in_blocks|reflexivity..]|]).
  by apply not_elem_of_nil in Hb.
Qed.

Lemma at3 : ∃ ds d, synced val db3 ([g; b1; b2] ++ [b3]) (ds ++ [d]) ∧ blocks_ok val client db3 ∧ pool_has db2 ds.
Proof.
  destruct at2 as (ds & Hs & Hb). exists ds.
  destruct (ConnectBlock_synced params val client b3 db2 _ _ (Ok tt) db3 Hs) as [Hb3 [(_ & [? ?] & _)|(d & H & _)]];
    [apply next3; by left|exact Hb|apply connect3|done|done|done|].
  exists d. split_and!; [exact H|exact Hb3|apply Hs].
Qed.

Lemma honest_prefix bs : Forall (λ b, b = g ∨ b = b1 ∨ b = b2 ∨ b = b3) bs → honest client bs.
Proof.
  intros H. apply client_honest. intros b Hb. rewrite Forall_forall in H.
  destruct (H b Hb) as [->|[->|[->| ->]]]; in_blocks.
Qed.

Lemma DisconnectBlock_undoes_ConnectBlock_witness :
  liveTicketCache db4 = liveTicketCache db2 ∧ poolValue db4 = poolValue db2.
Proof.
  destruct at2 as (ds & Hs & Hb). pose proof Hs as ((n & _ & _ & Hn & _) & _).
  destruct (DisconnectBlock_undoes_ConnectBlock params val client client b3 db2 db3 db4 [g; b1; b2] ds n) as (_ & _ & El & Ev & _).
  - exact Hs.
  - apply next3. by left.
  - exact Hb.
  - exact Hn.
  - apply connect3.
  - apply honest_prefix. repeat constructor; tauto.
  - apply client_tickets.
  - apply run_Ok. vm_compute. reflexivity.
  - split; [exact El|exact Ev].
Defined.

(** The node one block ahead of the pool. *)
Definition ahead : StakeDatabase store := set_PoolDB (PoolDB db2) db3.
Definition heightOk {A} (m : res SDErr A * StakeDatabase store) : bool :=
  match fst m with Ok _ => sd_Height (snd m) =? 2 | _ => false end.

Lemma client_tickets_honest : honest_tickets val client.
Proof. intros h tx [= <-]. done. Qed.

Lemma ahead_parts : ∃ ds d, node_at ahead [g; b1; b2; b3] (ds ++ [d]) ∧ pool_has ahead ds.
Proof.
  destruct at3 as (ds & d & (Hna & _) & _ & Hp). exists ds, d. split; [exact Hna|exact Hp].
Qed.

Lemma NewStakeDatabase_recovers_witness :
  heightOk (NewStakeDatabase client ahead) = true ∧
  ∃ e r, NewStakeDatabase client ahead = r ∧ (fst r = Err e ∨ tip (PoolDB (snd r)) = sd_Height (snd r)).
Proof.
  split; [vm_compute; reflexivity|]. destruct ahead_parts as (ds & d & Hna & Hp).
  destruct (NewStakeDatabase client ahead) as [r db'] eqn:E.
  destruct (NewStakeDatabase_recovers val client ahead db' _ _ _ r Hna Hp) as [(e & -> & _)|(_ & Eh & Et & _)].
  - right. by exists [d].
  - apply honest_prefix. repeat constructor; tauto.
  - apply client_tickets_honest.
  - exact E.
  - exists e. eexists. split; [reflexivity|]. by left.
  - exists EInit. eexists. split; [reflexivity|]. right. cbn [snd]. by rewrite Eh, Et.
Defined.

Lemma LoadAndRecover_rewinds_witness :
  isOk (LoadAndRecover client 1 ahead) = true ∧
  ∃ e, fst (LoadAndRecover client 1 ahead) = Err e ∨ sd_Height (snd (LoadAndRecover client 1 ahead)) <= 1.
Proof.
  split; [vm_compute; reflexivity|]. destruct ahead_parts as (ds & d & Hna & Hp).
  destruct (LoadAndRecover client 1 ahead) as [r db'] eqn:E.
  destruct (LoadAndRecover_rewinds val client ahead db' _ _ _ 1 r Hna Hp) as [[e ->]|(_ & Eh & _)].
  - right. by exists [d].
  - apply honest_prefix. repeat constructor; tauto.
  - apply client_tickets_honest.
  - exact E.
  - exists e. by left.
  - exists EInit. right. cbn [snd]. rewrite Eh. unfold zlen. lia.
Defined.

Definition torn : StakeDatabase store := connect bad db2.
Lemma lost_write_sticks_witness :
  sd_Height torn = tip (PoolDB torn) + 1 ∧ fst (DisconnectBlock client false torn) ≠ Ok tt.
Proof.
  destruct at2 as (ds & Hs & Hb). pose proof Hs as (Hna & _). destruct (node_at_len _ _ _ Hna) as [_ Hl].
  destruct ds as [|d ds _] using rev_ind; [discriminate|].
  destruct (lost_write_sticks params val client bad db2 torn [g; b1] b2 ds d) as (H1 & _ & H2).
  - exact Hs.
  - apply next3. in_blocks.
  - exact Hb.
  - apply run_torn. vm_compute. reflexivity.
  - split; [exact H1|]. destruct (DisconnectBlock client false torn) as [r db'] eqn:E.
    destruct (H2 client false r db') as [_ [->|[e ->]]]; [|exact E|discriminate..].
    apply honest_prefix. repeat constructor; tauto.
Defined.

(** Block 3 is replaced by the other block 3. *)
Definition reorg : ReorgData := mkReorg (hash 3) 3 [hash 3] (hash 4) 3 [hash 4].
Definition db5 := snd (ReorgHandler params client reorg db3).
Lemma ReorgHandler_follows_witness :
  ∃ ds, synced val db5 [g; b1; b2; b3'] ds.
Proof.
  destruct at3 as (ds & d & Hs & Hb & _).
  destruct (ReorgHandler_follows params val client reorg db3 db5 [g; b1; b2] [b3] [b3'] ds [d] (Ok tt)) as [H _].
  - exact Hs.
  - reflexivity.
  - exact Hb.
  - apply honest_prefix. repeat constructor; tauto.
  - apply client_tickets.
  - split; [vm_compute; reflexivity|]. split; [|done]. apply next3. in_blocks.
  - reflexivity.
  - reflexivity.
  - apply run_Ok. vm_compute. reflexivity.
  - destruct (H eq_refl) as (dnew & _ & H'). exists (ds ++ dnew). exact H'.
Defined.
End Witness.
