(* ===== verification/HeightWaiters.v ===== *)
(** * Waiting for a block height (stakedb/stakedb.go, WaitForHeight)

    Clients ask to be told the hash of the block at a height; the channels
    that wait are kept per height, and a goroutine started for each connected
    block sends to them.  The calls, the goroutines and the receivers are
    threads; a state holds what they share.  The theorems show that a send
    never finds a full channel, that a channel gets at most one value, and that
    a call that races with the connected block can wait for ever. *)
From S2P Require Import Prelude.
Open Scope Z_scope.

Abbreviation chan_id := nat.

(** A call of WaitForHeight that has read the height and made its channel but
    does not hold [waitMtx] yet; [p_signal] is the hash it will start
    signalWaiters with, when the height is that of the tip. *)
Record pending := mkPending { p_height : Z; p_chan : chan_id; p_signal : option Hash }.

(** [bufs] is the buffer of each channel (capacity 1; a nil hash is [None]),
    [goroutines] the started calls of signalWaiters, [sent] all sends so far. *)
Record sys := mkSys {
  dbHeight : Z;
  heightWaiters : gmap Z (list chan_id);
  bufs : gmap chan_id (list (option Hash));
  calls : list pending;
  goroutines : list (Z * Hash);
  sent : list chan_id
}.

(** [select { case c <- v: default: panic }] *)
Definition send (c : chan_id) (v : option Hash) (s : sys) : option sys :=
  match bufs s !! c with
  | Some [] => Some (mkSys (dbHeight s) (heightWaiters s) (<[c := [v]]> (bufs s)) (calls s) (goroutines s) (sent s ++ [c]))
  | _ => None
  end.

Fixpoint send_all (cs : list chan_id) (v : option Hash) (s : sys) : option sys :=
  match cs with
  | [] => Some s
  | c :: cs => match send c v s with Some s => send_all cs v s | None => None end
  end.

(** [signalWaiters]; [None] is the panic "unable to signal block". *)
Definition signalWaiters (height : Z) (blockhash : Hash) (s : sys) : option sys :=
  match send_all (default [] (heightWaiters s !! height)) (Some blockhash) s with
  | Some s => Some (mkSys (dbHeight s) (delete height (heightWaiters s)) (bufs s) (calls s) (goroutines s) (sent s))
  | None => None
  end.

(** The first half of WaitForHeight, with channel [c]: the height is read.
    [block] is what [db.block] gives for the height; nil is the panic
    "broken StakeDatabase". *)
Definition WaitForHeight_begin (height : Z) (c : chan_id) (block : option Hash) (s : sys) : option sys :=
  let s := mkSys (dbHeight s) (heightWaiters s) (<[c := []]> (bufs s)) (calls s) (goroutines s) (sent s) in
  let call sig := Some (mkSys (dbHeight s) (heightWaiters s) (bufs s) (calls s ++ [mkPending height c sig]) (goroutines s) (sent s)) in
  if height <? dbHeight s then send c None s
  else if dbHeight s =? height then
    match block with None => None | Some hash => call (Some hash) end
  else call None.

(** The second half: the channel is registered under [waitMtx], then the
    deferred goroutine starts. *)
Definition WaitForHeight_register (p : pending) (rest : list pending) (s : sys) : sys :=
  mkSys (dbHeight s)
    (<[p_height p := default [] (heightWaiters s !! p_height p) ++ [p_chan p]]> (heightWaiters s))
    (bufs s) rest
    (match p_signal p with Some hash => goroutines s ++ [(p_height p, hash)] | None => goroutines s end)
    (sent s).

(** What the stake database does to the waiters: a block is connected and the
    goroutine for it started, or the tip goes back. *)
Definition connected_block (height : Z) (hash : Hash) (s : sys) : sys :=
  mkSys height (heightWaiters s) (bufs s) (calls s) (goroutines s ++ [(height, hash)]) (sent s).
Definition disconnected_to (height : Z) (s : sys) : sys :=
  mkSys height (heightWaiters s) (bufs s) (calls s) (goroutines s) (sent s).

(** One step of any thread; the target [None] is a panic. *)
Inductive step (s : sys) : option sys → Prop :=
| s_call height c block :
    bufs s !! c = None → (dbHeight s = height → is_Some block) →
    step s (WaitForHeight_begin height c block s)
| s_register p l r :
    calls s = l ++ p :: r → step s (Some (WaitForHeight_register p (l ++ r) s))
| s_signal height hash l r :
    goroutines s = l ++ (height, hash) :: r →
    step s (signalWaiters height hash
      (mkSys (dbHeight s) (heightWaiters s) (bufs s) (calls s) (l ++ r) (sent s)))
| s_receive c v :
    bufs s !! c = Some [v] →
    step s (Some (mkSys (dbHeight s) (heightWaiters s) (<[c := []]> (bufs s)) (calls s) (goroutines s) (sent s)))
| s_connect height hash : step s (Some (connected_block height hash s))
| s_disconnect height : step s (Some (disconnected_to height s)).

Inductive reach (s0 : sys) : sys → Prop :=
| reach_refl : reach s0 s0
| reach_step s s' : reach s0 s → step s (Some s') → reach s0 s'.

Definition init (height : Z) : sys := mkSys height ∅ ∅ [] [] [].

(** ** The invariant *)
(** A channel waits at most once, in a call or under one height; nothing was
    sent to it, and its buffer is empty. *)
Definition waiting (s : sys) (c : chan_id) : Prop :=
  c ∈ p_chan <$> calls s ∨ ∃ h cs, heightWaiters s !! h = Some cs ∧ c ∈ cs.

Record ok (s : sys) : Prop := {
  ok_calls : NoDup (p_chan <$> calls s);
  ok_lists : ∀ h cs, heightWaiters s !! h = Some cs → NoDup cs;
  ok_heights : ∀ h h' cs cs' c, heightWaiters s !! h = Some cs → heightWaiters s !! h' = Some cs' →
    c ∈ cs → c ∈ cs' → h = h';
  ok_apart : ∀ h cs c, heightWaiters s !! h = Some cs → c ∈ cs → c ∉ p_chan <$> calls s;
  ok_empty : ∀ c, waiting s c → bufs s !! c = Some [] ∧ c ∉ sent s;
  ok_sent : NoDup (sent s) ∧ ∀ c, c ∈ sent s → is_Some (bufs s !! c)
}.

Lemma init_ok h : ok (init h).
Proof.
  split; cbn.
  - constructor.
  - intros ? ?. by rewrite lookup_empty.
  - intros ? ? ? ? ?. by rewrite lookup_empty.
  - intros ? ? ?. by rewrite lookup_empty.
  - intros c [H|(h' & cs & H & _)]; [by apply not_elem_of_nil in H|cbn in H; by rewrite lookup_empty in H].
  - split; [constructor|]. by intros c ?%not_elem_of_nil.
Qed.

(** Sending to distinct channels that have empty buffers succeeds. *)
Lemma send_all_ok v cs : ∀ s,
  NoDup cs → (∀ c, c ∈ cs → bufs s !! c = Some []) →
  ∃ b, send_all cs v s = Some (mkSys (dbHeight s) (heightWaiters s) b (calls s) (goroutines s) (sent s ++ cs)) ∧
    (∀ c, c ∉ cs → b !! c = bufs s !! c) ∧ (∀ c, c ∈ cs → b !! c = Some [v]).
Proof.
  induction cs as [|c cs IH]; intros s Hnd He; cbn [send_all].
  { exists (bufs s). rewrite app_nil_r. split; [by destruct s|]. split; [done|]. by intros c ?%not_elem_of_nil. }
  apply NoDup_cons in Hnd as [Hc Hnd]. unfold send. rewrite He by left.
  set (s1 := mkSys _ _ _ _ _ _). destruct (IH s1) as (b & E & Hout & Hin); [done| |].
  { intros c' Hc'. cbn. rewrite lookup_insert_ne by (intros ->; done). apply He. by right. }
  exists b. rewrite E. cbn. rewrite <- app_assoc. split; [done|]. split.
  - intros c' [Hne Hc']%not_elem_of_cons. rewrite Hout by done. cbn. by rewrite lookup_insert_ne.
  - intros c' [->|Hc']%elem_of_cons; [|by apply Hin].
    rewrite Hout by done. cbn. by rewrite lookup_insert_eq.
Qed.

(** A new channel is no waiting one and was never sent to. *)
Lemma fresh_not_waiting s c : ok s → bufs s !! c = None → ¬ waiting s c ∧ c ∉ sent s.
Proof.
  intros Hok Hc. split.
  - intros Hw. destruct (ok_empty _ Hok c Hw) as [E _]. by rewrite Hc in E.
  - intros Hs. destruct (ok_sent _ Hok) as [_ H]. destruct (H c Hs) as [? E]. by rewrite Hc in E.
Qed.

Lemma signal_ok s height hash :
  ok s → ∃ s', signalWaiters height hash s = Some s' ∧ ok s'.
Proof.
  intros Hok. unfold signalWaiters. set (cs := default [] (heightWaiters s !! height)).
  assert (∀ c, c ∈ cs → ∃ cs', heightWaiters s !! height = Some cs' ∧ c ∈ cs') as Hcs.
  { intros c Hc. unfold cs in Hc. destruct (heightWaiters s !! height) as [l|]; [by exists l|]. by apply not_elem_of_nil in Hc. }
  assert (NoDup cs) as Hnd.
  { unfold cs. destruct (heightWaiters s !! height) as [l|] eqn:E; [by eapply ok_lists|constructor]. }
  assert (∀ c, c ∈ cs → waiting s c) as Hw.
  { intros c Hc. right. exists height. by apply Hcs. }
  destruct (send_all_ok (Some hash) cs s Hnd) as (b & -> & Hout & Hin).
  { intros c Hc. by apply (ok_empty _ Hok), Hw. }
  eexists. split; [reflexivity|]. destruct Hok as [H1 H2 H3 H4 H5 [H6 H7]].
  assert (∀ h cs' c, delete height (heightWaiters s) !! h = Some cs' → c ∈ cs' → c ∉ cs) as Hdel.
  { intros h cs' c [Hne Hl]%lookup_delete_Some Hc Hc'. destruct (Hcs c Hc') as (l & El & Hl'). by apply Hne, (H3 _ _ l cs' c). }
  split; cbn [calls heightWaiters bufs sent].
  - done.
  - intros h l [_ Hl]%lookup_delete_Some. by apply (H2 h).
  - intros h h' l l' c [_ Hl]%lookup_delete_Some [_ Hl']%lookup_delete_Some. by apply H3.
  - intros h l c [_ Hl]%lookup_delete_Some. by apply (H4 h).
  - intros c [Hc|(h & l & Hl & Hc)].
    + assert (c ∉ cs) as Hn by (intros Hc'; destruct (Hcs c Hc') as (l & El & Hl); by apply (H4 _ _ c El Hl)).
      destruct (H5 c) as [E Hs]; [by left|]. rewrite Hout by done. split; [done|]. rewrite elem_of_app. tauto.
    + cbn in Hl. pose proof (Hdel _ _ _ Hl Hc) as Hn. apply lookup_delete_Some in Hl as [_ Hl].
      destruct (H5 c) as [E Hs]; [right; by exists h, l|]. rewrite Hout by done. split; [done|]. rewrite elem_of_app. tauto.
  - split.
    + apply NoDup_app. split_and!; [done| |done]. intros c Hs Hc. by apply (H5 c (Hw c Hc)).
    + intros c [Hs|Hc]%elem_of_app; [|by rewrite Hin]. destruct (decide (c ∈ cs)); [by rewrite Hin|].
      rewrite Hout by done. by apply H7.
Qed.

Lemma call_ok s height c block :
  ok s → bufs s !! c = None → (dbHeight s = height → is_Some block) →
  ∃ s', WaitForHeight_begin height c block s = Some s' ∧ ok s'.
Proof.
  intros Hok Hc Hb. destruct (fresh_not_waiting s c Hok Hc) as [Hnw Hns]. destruct Hok as [H1 H2 H3 H4 H5 [H6 H7]].
  assert (∀ sig, ok (mkSys (dbHeight s) (heightWaiters s) (<[c:=[]]> (bufs s))
    (calls s ++ [mkPending height c sig]) (goroutines s) (sent s))) as Hcall.
  { intros sig. split; cbn [calls heightWaiters bufs sent]; rewrite ?fmap_app; cbn [fmap list_fmap p_chan].
    - apply NoDup_app. split_and!; [done| |apply NoDup_singleton]. intros x Hx ->%list_elem_of_singleton. apply Hnw. by left.
    - done.
    - done.
    - intros h l x Hl Hx [?| ->%list_elem_of_singleton]%elem_of_app; [by eapply H4|]. apply Hnw. right. by exists h, l.
    - intros x Hx. unfold waiting in Hx. cbn in Hx. rewrite fmap_app, elem_of_app in Hx. cbn in Hx.
      destruct (decide (x = c)) as [->|Hne]; [by rewrite lookup_insert_eq|]. rewrite lookup_insert_ne by done.
      apply H5. destruct Hx as [[Hx|Hx%list_elem_of_singleton]|Hx]; [by left|done|by right].
    - split; [done|]. intros x Hx. rewrite lookup_insert_is_Some. destruct (decide (c = x)); [by left|right; by split; [|apply H7]]. }
  unfold WaitForHeight_begin. cbn [dbHeight]. destruct (Z.ltb_spec height (dbHeight s)).
  - unfold send. cbn. rewrite lookup_insert_eq. eexists. split; [reflexivity|]. split; cbn [calls heightWaiters bufs sent]; try done.
    + intros x Hx. assert (x ≠ c) as Hne by (intros ->; done).
      rewrite !lookup_insert_ne by done. destruct (H5 x Hx). split; [done|].
      rewrite elem_of_app, list_elem_of_singleton. tauto.
    + split; [apply NoDup_app; split_and!; [done|by intros x Hx ->%list_elem_of_singleton|apply NoDup_singleton]|].
      intros x Hx. destruct (decide (c = x)) as [->|Hne]; [by rewrite lookup_insert_eq|]. rewrite !lookup_insert_ne by done.
      apply elem_of_app in Hx as [Hx|Hx%list_elem_of_singleton]; [by apply H7|done].
  - destruct (Z.eqb_spec (dbHeight s) height); [|eexists; split; [reflexivity|apply Hcall]].
    destruct Hb as [hash ->]; [done|]. eexists; split; [reflexivity|apply Hcall].
Qed.

Lemma register_ok s p l r : ok s → calls s = l ++ p :: r → ok (WaitForHeight_register p (l ++ r) s).
Proof.
  intros [H1 H2 H3 H4 H5 H6] E. rewrite E, fmap_app in H1. cbn in H1.
  apply NoDup_app in H1 as (Hl & Hlr & [Hp Hr]%NoDup_cons).
  assert (p_chan p ∈ p_chan <$> calls s) as Hin by (rewrite E, fmap_app; apply elem_of_app; right; left).
  assert (∀ x, x ∈ p_chan <$> l ++ r → x ∈ p_chan <$> calls s ∧ x ≠ p_chan p) as Hsub.
  { intros x. rewrite E, !fmap_app, !elem_of_app. cbn. rewrite elem_of_cons. intros [Hx|Hx].
    - split; [by left|]. intros ->. apply (Hlr _ Hx). by left.
    - split; [by right; right|]. by intros ->. }
  assert (∀ h cs x, <[p_height p := default [] (heightWaiters s !! p_height p) ++ [p_chan p]]> (heightWaiters s) !! h = Some cs →
    x ∈ cs → (x = p_chan p ∧ h = p_height p) ∨ ∃ cs', heightWaiters s !! h = Some cs' ∧ x ∈ cs') as Hnew.
  { intros h cs x [[<- <-]|[_ Hl']]%lookup_insert_Some Hx; [|right; by exists cs].
    apply elem_of_app in Hx as [Hx| ->%list_elem_of_singleton]; [|by left]. right.
    destruct (heightWaiters s !! p_height p) as [cs|]; [by exists cs|by apply not_elem_of_nil in Hx]. }
  assert (∀ h cs', heightWaiters s !! h = Some cs' → p_chan p ∉ cs') as Hfresh.
  { intros h cs' Hl' Hx. by apply (H4 _ _ _ Hl' Hx). }
  split; cbn [WaitForHeight_register calls heightWaiters bufs sent].
  - rewrite fmap_app. apply NoDup_app. split_and!; [done| |done]. intros x Hx Hx'. apply (Hlr x Hx). by right.
  - intros h cs [[<- <-]|[_ Hl']]%lookup_insert_Some; [|by apply (H2 h)]. apply NoDup_app. split_and!; [| |apply NoDup_singleton].
    + destruct (heightWaiters s !! p_height p) as [cs|] eqn:Ew; [by apply (H2 (p_height p))|constructor].
    + intros x Hx ->%list_elem_of_singleton. destruct (heightWaiters s !! p_height p) as [cs|] eqn:Ew; [by apply (Hfresh _ _ Ew)|by apply not_elem_of_nil in Hx].
  - intros h h' cs cs' c Hl1 Hl2 Hc1 Hc2. destruct (Hnew _ _ _ Hl1 Hc1) as [[-> ->]|(k1 & E1 & Hk1)], (Hnew _ _ _ Hl2 Hc2) as [[? ->]|(k2 & E2 & Hk2)].
    + done.
    + by destruct (Hfresh _ _ E2).
    + subst. by destruct (Hfresh _ _ E1).
    + by eapply H3.
  - intros h cs c Hl1 Hc Hc'. apply Hsub in Hc' as [Hc' Hne]. destruct (Hnew _ _ _ Hl1 Hc) as [[-> _]|(k & Ek & Hk)]; [done|].
    by apply (H4 _ _ _ Ek Hk).
  - intros c [Hc|(h & cs & Hl1 & Hc)].
    + apply H5. left. by apply Hsub.
    + apply H5. destruct (Hnew _ _ _ Hl1 Hc) as [[-> _]|(k & Ek & Hk)]; [by left|right; by exists h, k].
  - done.
Qed.

Lemma receive_ok s c v :
  ok s → bufs s !! c = Some [v] →
  ok (mkSys (dbHeight s) (heightWaiters s) (<[c := []]> (bufs s)) (calls s) (goroutines s) (sent s)).
Proof.
  intros [H1 H2 H3 H4 H5 [H6 H7]] Hc. split; cbn; try done.
  - intros x Hx. destruct (H5 x Hx) as [E Hs]. destruct (decide (c = x)) as [->|Hne]; [by rewrite lookup_insert_eq|].
    by rewrite lookup_insert_ne.
  - split; [done|]. intros x Hx. rewrite lookup_insert_is_Some. destruct (decide (c = x)); [by left|right; by split; [|apply H7]].
Qed.

(** No step panics, and every step keeps the invariant. *)
Lemma step_ok s o : ok s → step s o → ∃ s', o = Some s' ∧ ok s'.
Proof.
  intros Hok. destruct 1 as [height c block Hc Hb|p l r E|height hash l r E|c v Hc|height hash|height].
  - by apply call_ok.
  - eexists. split; [reflexivity|]. by apply register_ok.
  - apply signal_ok. by destruct Hok as [? ? ? ? ? ?]; split.
  - eexists. split; [reflexivity|]. by apply (receive_ok s c v).
  - eexists. split; [reflexivity|]. by destruct Hok as [? ? ? ? ? ?]; split.
  - eexists. split; [reflexivity|]. by destruct Hok as [? ? ? ? ? ?]; split.
Qed.

Lemma waiters_reach_ok h s : reach (init h) s → ok s.
Proof.
  induction 1 as [|s s' _ IH Hst]; [apply init_ok|]. destruct (step_ok _ _ IH Hst) as (s1 & [= ->] & ?). done.
Qed.

(** ** Main theorems *)
(** However callers, connected and disconnected blocks, signalling
    goroutines and receivers interleave, no send finds its channel full (the
    panic of signalWaiters), and at most one value is ever sent on a channel:
    a channel that waits has got none. *)
Theorem signalWaiters_never_blocks h s o :
  reach (init h) s → step s o →
  is_Some o ∧ NoDup (sent s) ∧ ∀ c, waiting s c → bufs s !! c = Some [] ∧ c ∉ sent s.
Proof.
  intros Hr Hs. pose proof (waiters_reach_ok _ _ Hr) as Hok. destruct (step_ok _ _ Hok Hs) as (s' & -> & _).
  split; [done|]. split; [apply Hok|apply Hok].
Qed.

(** A channel is stuck when its height is reached and nothing that has started
    will send to it. *)
Definition stranded (s : sys) (h : Z) (c : chan_id) : Prop :=
  dbHeight s = h ∧ calls s = [] ∧ goroutines s = [] ∧ bufs s !! c = Some [] ∧
  ∃ cs, heightWaiters s !! h = Some cs ∧ c ∈ cs.

(** A wake-up can be lost: from any height, a caller reads the height, the
    next block is connected and signalled before the caller registers, and its
    channel then waits under a height that is already reached, with no call and
    no goroutine left that would send to it. *)
Theorem WaitForHeight_lost_wakeup (h : Z) (c : chan_id) :
  ∃ s, reach (init h) s ∧ stranded s (h + 1) c.
Proof.
  set (hash := zeroHash). set (p := mkPending (h + 1) c None).
  set (s1 := mkSys h ∅ {[ c := [] ]} [p] [] []).
  set (s2 := connected_block (h + 1) hash s1).
  set (s3 := mkSys (h + 1) ∅ {[ c := [] ]} [p] [] []).
  exists (WaitForHeight_register p [] s3). split.
  - eapply reach_step; [|exact (s_register s3 p [] [] eq_refl)].
    eapply reach_step; [|]. 
    + eapply reach_step; [|exact (s_connect s1 (h + 1) hash)].
      eapply reach_step; [apply reach_refl|].
      assert (Some s1 = WaitForHeight_begin (h + 1) c None (init h)) as ->.
      { unfold WaitForHeight_begin. cbn. destruct (Z.ltb_spec (h + 1) h); [lia|].
        destruct (Z.eqb_spec h (h + 1)); [lia|done]. }
      apply s_call; [apply lookup_empty|cbn; lia].
    + assert (Some s3 = signalWaiters (h + 1) hash (mkSys (h + 1) ∅ {[ c := [] ]} [p] [] [])) as ->.
      { unfold signalWaiters. cbn. rewrite lookup_empty. cbn. rewrite delete_id by apply lookup_empty. done. }
      exact (s_signal s2 (h + 1) hash [] [] eq_refl).
  - unfold stranded. cbn. split_and!; try done.
    + by rewrite lookup_singleton_eq.
    + exists [c]. rewrite lookup_empty. cbn. rewrite lookup_insert_eq. split; [done|by left].
Qed.

(** ** Instances *)
Module Witness.
(** A waiter for the next block that is told its hash. *)
Definition hash : Hash := replicate 32 7.
Definition waiter : pending := mkPending 6 0%nat None.
Definition s1 : sys := mkSys 5 ∅ {[ 0%nat := [] ]} [waiter] [] [].
Definition s2 : sys := WaitForHeight_register waiter [] s1.
Definition s3 : sys := connected_block 6 hash s2.

Lemma s3_reach : reach (init 5) s3.
Proof.
  eapply reach_step; [|exact (s_connect s2 6 hash)].
  eapply reach_step; [|exact (s_register s1 waiter [] [] eq_refl)].
  eapply reach_step; [apply reach_refl|].
  exact (s_call (init 5) 6 0%nat None eq_refl ltac:(cbn; lia)).
Defined.

Lemma signalWaiters_never_blocks_witness :
  is_Some (signalWaiters 6 hash (mkSys 6 (heightWaiters s3) (bufs s3) [] [] [])) ∧
  (signalWaiters 6 hash s3 ≫= λ s, bufs s !! 0%nat) = Some [Some hash].
Proof.
  split; [|by vm_compute].
  apply (signalWaiters_never_blocks 5 s3 _ s3_reach). exact (s_signal s3 6 hash [] [] eq_refl).
Defined.
End Witness.
