(* ===== verification/Digits.v ===== *)
(** * Decimal numbers as bytes

    Go's decimal printing and parsing of unsigned integers over byte slices
    (strconv.AppendUint, strconv.ParseUint, fmt's %d), shared by the files that
    read and write numbers in text, with the round trips. *)
From S2P Require Import Prelude.
Open Scope Z_scope.

(** [string(b)] and back. *)
Definition string_of_bytes (b : bytes) : string :=
  String.string_of_list_ascii ((λ x, Ascii.ascii_of_N (Z.to_N x)) <$> b).

(** [strconv.AppendUint(b, v, 10)], and [ParseUint(string(b), 10, 64)] before
    the range check. *)
Definition AppendUint (v : Z) : bytes := bytes_of_string (bigString v).
Definition parse_dec (b : bytes) : option Z := parse_digits (string_of_bytes b).
Definition ParseUint64 (b : bytes) : option Z :=
  v ← parse_dec b; if v <? 2 ^ 64 then Some v else None.

Definition is_digit (c : Z) : Prop := 48 <= c <= 57.
Definition digits (x : bytes) : Prop := Forall is_digit x.

Lemma uint_digits u : u ≠ Decimal.Nil →
  Forall is_digit (bytes_of_string (DecimalString.NilZero.string_of_uint u)) ∧
  bytes_of_string (DecimalString.NilZero.string_of_uint u) ≠ [].
Proof.
  assert (∀ u, Forall is_digit (bytes_of_string (DecimalString.NilEmpty.string_of_uint u))) as G.
  { clear. induction u; cbn; [constructor|..]; (constructor; [unfold is_digit; cbn; lia|done]). }
  intros Hu. assert (DecimalString.NilZero.string_of_uint u = DecimalString.NilEmpty.string_of_uint u) as -> by (by destruct u).
  split; [apply G|]. by destruct u.
Qed.

Lemma string_of_bytes_inv s : string_of_bytes (bytes_of_string s) = s.
Proof.
  unfold string_of_bytes, bytes_of_string. induction s as [|c s IH]; cbn; [done|].
  rewrite N2Z.id, Ascii.ascii_N_embedding. by rewrite IH.
Qed.

Lemma AppendUint_digits v : 0 <= v → Forall is_digit (AppendUint v) ∧ AppendUint v ≠ [].
Proof.
  intros Hv. unfold AppendUint, bigString. destruct (Z_to_int_cases v) as [(u & -> & Hu & _)|(u & E & _)].
  - by apply uint_digits.
  - destruct v; [done|done|lia].
Qed.

Lemma parse_dec_AppendUint v : 0 <= v → parse_dec (AppendUint v) = Some v.
Proof.
  intros Hv. unfold parse_dec, AppendUint. rewrite string_of_bytes_inv. unfold parse_digits, bigString.
  destruct (Z_to_int_cases v) as [(u & -> & Hu & Hz)|(u & E & _)]; [|destruct v; [done|done|lia]].
  cbn [DecimalString.NilZero.string_of_int]. rewrite NilZero_uint_round by done. cbn. by rewrite Hz.
Qed.

Lemma ParseUint64_AppendUint v : 0 <= v < 2 ^ 64 → ParseUint64 (AppendUint v) = Some v.
Proof.
  intros Hv. unfold ParseUint64. rewrite parse_dec_AppendUint by lia. cbn.
  by destruct (Z.ltb_spec v (2 ^ 64)); [|lia].
Qed.


(** ** The value of a run of digits *)
Definition dec_value (d : bytes) : Z := foldl (λ a c, 10 * a + (c - 48)) 0 d.

Lemma of_uint_acc_value u : ∀ acc,
  Z.pos (Pos.of_uint_acc u acc) =
  foldl (λ a c, 10 * a + (c - 48)) (Z.pos acc) (bytes_of_string (DecimalString.NilEmpty.string_of_uint u)).
Proof.
  induction u; intros acc; cbn [Pos.of_uint_acc]; [done|..]; rewrite IHu; cbn; f_equal; lia.
Qed.

Lemma of_uint_value u :
  Z.of_uint u = dec_value (bytes_of_string (DecimalString.NilEmpty.string_of_uint u)).
Proof.
  unfold dec_value, Z.of_uint. induction u; cbn [Pos.of_uint]; [done|exact IHu|..]; cbn [Z.of_N]; by rewrite of_uint_acc_value.
Qed.

Lemma bytes_of_string_inv d : Forall is_byte d → bytes_of_string (string_of_bytes d) = d.
Proof.
  unfold bytes_of_string, string_of_bytes. rewrite String.list_ascii_of_string_of_list_ascii, <- list_fmap_compose.
  intros Hd. rewrite <- (list_fmap_id d) at 2. apply list_fmap_ext. intros i x Hx. apply (Forall_lookup_1 _ _ _ _ Hd) in Hx.
  unfold is_byte in Hx. cbn beta in Hx. cbn. rewrite Ascii.N_ascii_embedding; [rewrite Z2N.id; [done|lia]|].
  change 256%N with (Z.to_N 256). apply Z2N.inj_lt; lia.
Qed.

Lemma digits_bytes d : digits d → Forall is_byte d.
Proof. intros Hd. eapply Forall_impl; [exact Hd|]. unfold is_digit, is_byte. intros x Hx. lia. Qed.

Lemma uint_of_digits d : digits d → is_Some (DecimalString.NilEmpty.uint_of_string (string_of_bytes d)).
Proof.
  induction 1 as [|c d Hc _ IH]; [by eexists|]. destruct IH as [u Hu]. unfold is_digit in Hc.
  change (string_of_bytes (c :: d)) with (String (Ascii.ascii_of_N (Z.to_N c)) (string_of_bytes d)).
  cbn [DecimalString.NilEmpty.uint_of_string]. rewrite Hu.
  assert (c = 48 ∨ c = 49 ∨ c = 50 ∨ c = 51 ∨ c = 52 ∨ c = 53 ∨ c = 54 ∨ c = 55 ∨ c = 56 ∨ c = 57) as H by lia.
  repeat (destruct H as [->|H]; [cbn; by eexists|]). subst. cbn. by eexists.
Qed.

(** A run of digits is read as its value. *)
Lemma parse_dec_value d : digits d → d ≠ [] → parse_dec d = Some (dec_value d).
Proof.
  intros Hd Hne. destruct (uint_of_digits d Hd) as [u Hu]. unfold parse_dec, parse_digits.
  destruct d as [|c d]; [done|].
  change (DecimalString.NilZero.uint_of_string (string_of_bytes (c :: d))) with (DecimalString.NilEmpty.uint_of_string (string_of_bytes (c :: d))).
  rewrite Hu. cbn [fmap option_fmap option_map]. rewrite of_uint_value.
  rewrite (DecimalString.NilEmpty.sus _ _ Hu), bytes_of_string_inv by (by apply digits_bytes). done.
Qed.

Lemma dec_value_app a b : dec_value (a ++ b) = dec_value a * 10 ^ zlen b + dec_value b.
Proof.
  revert a. unfold dec_value. induction b as [|c b IH] using rev_ind; intros a; [rewrite app_nil_r; change (zlen []) with 0; cbn; lia|].
  rewrite app_assoc, !foldl_snoc. rewrite IH, zlen_app. change (zlen [c]) with 1.
  rewrite Z.pow_add_r by (unfold zlen; lia). lia.
Qed.

Lemma dec_value_bounds d : digits d → 0 <= dec_value d < 10 ^ zlen d.
Proof.
  induction d as [|c d IH] using rev_ind; intros Hd; [done|].
  apply Forall_app in Hd as [Hd Hc]. apply Forall_cons in Hc as [Hc _]. specialize (IH Hd). unfold is_digit in Hc.
  rewrite dec_value_app, zlen_app. change (zlen [c]) with 1. rewrite Z.pow_add_r by (unfold zlen; lia). change (dec_value [c]) with (10 * 0 + (c - 48)).
  change (10 ^ 1) with 10. lia.
Qed.

Lemma dec_value_zeros n d : dec_value (replicate n 48 ++ d) = dec_value d.
Proof. induction n as [|n IH]; [done|exact IH]. Qed.

Lemma parse_dec_digits d : digits d → d ≠ [] → ∃ v, parse_dec d = Some v ∧ 0 <= v.
Proof. intros Hd Hne. rewrite parse_dec_value by done. eexists; split; [done|]. by apply dec_value_bounds. Qed.

Lemma dec_value_AppendUint v : 0 <= v → dec_value (AppendUint v) = v.
Proof.
  intros Hv. destruct (AppendUint_digits v Hv) as [Hd Hne]. pose proof (parse_dec_AppendUint v Hv) as E.
  rewrite parse_dec_value in E by done. by injection E.
Qed.

(** Printed numbers have no leading zero. *)
Lemma AppendUint_head v : 0 < v → hd 0 (AppendUint v) ≠ 48.
Proof.
  intros Hv. unfold AppendUint, bigString. pose proof (DecimalZ.to_of (Z.to_int v)) as E.
  rewrite DecimalZ.of_to in E. destruct v as [|p|p]; try lia. cbn in E |- *. injection E as E.
  set (u := Pos.to_uint p) in *. unfold Decimal.unorm in E. destruct (Decimal.nzhead u) eqn:N.
  all: try (rewrite E; cbn; discriminate).
  - exfalso. pose proof (DecimalPos.Unsigned.of_to p) as F. cbn in F. fold u in F. by rewrite E in F.
  - exfalso. clear E. clearbody u. induction u; cbn in N; try discriminate. by apply IHu.
Qed.

(** A number below [10 ^ k] is printed with at most [k] digits. *)
Lemma AppendUint_length v k : 1 <= k → 0 <= v < 10 ^ k → zlen (AppendUint v) <= k.
Proof.
  intros Hk Hv. destruct (AppendUint_digits v) as [Hd Hne]; [lia|]. pose proof (dec_value_AppendUint v ltac:(lia)) as E.
  destruct (decide (v = 0)) as [->|Hz]; [change (zlen (AppendUint 0)) with 1; lia|]. pose proof (AppendUint_head v ltac:(lia)) as Hh.
  destruct (AppendUint v) as [|c d]; [done|]. apply Forall_cons in Hd as [Hc Hd]. cbn in Hh. unfold is_digit in Hc.
  change (c :: d) with ([c] ++ d) in E. rewrite dec_value_app in E. pose proof (dec_value_bounds d Hd) as B.
  change (dec_value [c]) with (10 * 0 + (c - 48)) in E. destruct (Z.le_gt_cases k (zlen d)) as [L|L].
  - pose proof (Z.pow_le_mono_r 10 k (zlen d) ltac:(lia) L). nia.
  - change (c :: d) with ([c] ++ d). rewrite zlen_app. change (zlen [c]) with 1. lia.
Qed.

(** [%0kd] of a number that is not negative. *)
Definition pad0 (k : nat) (v : Z) : bytes := replicate (k - length (AppendUint v)) 48 ++ AppendUint v.

Lemma pad0_spec k v : 0 <= v < 10 ^ Z.of_nat k → (0 < k)%nat →
  digits (pad0 k v) ∧ length (pad0 k v) = k ∧ dec_value (pad0 k v) = v.
Proof.
  intros Hv Hk. destruct (AppendUint_digits v) as [Hd _]; [lia|].
  pose proof (AppendUint_length v (Z.of_nat k) ltac:(lia) Hv) as L. unfold zlen in L. unfold pad0. split_and!.
  - apply Forall_app. split; [|done]. apply Forall_replicate. unfold is_digit. lia.
  - rewrite length_app, length_replicate. lia.
  - rewrite dec_value_zeros. apply dec_value_AppendUint. lia.
Qed.
