(* ===== verification/PgArray.v ===== *)
(** * PostgreSQL arrays and byte strings (db/dbtypes/internal/arrays.go and the
      array types of db/dbtypes/types.go)

    The parser of the text form of arrays, with its jumps between three loops,
    the parser of bytea values, and the array types built on them.  The
    theorems show that the parser ends on every input without an index or
    division panic, that lists of uint64 survive writing and reading, and that
    lists of hashes of the second array type do not. *)
From S2P Require Import Prelude Digits.
Open Scope Z_scope.

(** Bytes by their characters. *)
Definition cOpen : Z := 123.    (* { *)
Definition cClose : Z := 125.   (* } *)
Definition cQuote : Z := 34.
Definition cBackslash : Z := 92.
Definition cComma : Z := 44.
Definition cX : Z := 120.

(** ** parseArray *)
Inductive ArrErr :=
| EOffset0                     (** expected '{' at offset 0 *)
| EUnexpected (c off : Z)
| EExpectedClose (off : Z)
| EDimensions                  (** elements do not match the dimensions *)
| EConvert (ndims : Z)         (** more than one dimension *)
| EElement (i : Z)             (** parsing array element [i] *)
| EBadHash                     (** invalid chain hash *)
| EHashLength                  (** wrong length chain hash *)
| ENotHash                     (** not a chain hash *)
| EHex | EBytea.

(** [src[i:]], [i], and the variables of the parser. *)
Record pstate := mkP {
  rest : bytes; off : Z; depth : Z; dims : list Z; elems : list (option bytes)
}.

Definition has_prefix (del s : bytes) : bool := bool_decide (take (length del) s = del).

(** [l[i] = x]; [None] is the index panic. *)
Definition slice_set {A} (l : list A) (i : Z) (x : A) : option (list A) :=
  if (0 <=? i) && (i <? zlen l) then Some (<[Z.to_nat i := x]> l) else None.
(** [dims[depth-1]++]. *)
Definition incr_dim (depth : Z) (dims : list Z) : option (list Z) :=
  match slice_at dims (depth - 1) with
  | Some d => slice_set dims (depth - 1) (d + 1)
  | None => None
  end.

(** The inner loop of a quoted element: what is left after the closing quote
    and the element, or nothing when the input ends first. *)
Fixpoint quoted (s : bytes) (off : Z) (elem : bytes) (escape : bool) : option (bytes * Z * bytes) :=
  match s with
  | [] => None
  | c :: s =>
    if escape then quoted s (off + 1) (elem ++ [c]) false
    else if c =? cBackslash then quoted s (off + 1) elem true
    else if c =? cQuote then Some (s, off + 1, elem)
    else quoted s (off + 1) (elem ++ [c]) false
  end.

(** The inner loop of an unquoted element, up to the delimiter or '}'. *)
Fixpoint plain (del s : bytes) (off : Z) (elem : bytes) : option (bytes * Z * bytes) :=
  match s with
  | [] => None
  | c :: s' =>
    if has_prefix del s || (c =? cClose) then Some (s, off, elem)
    else plain del s' (off + 1) (elem ++ [c])
  end.

Definition NULL : bytes := bytes_of_string "NULL".

(** The loop labelled Element. *)
Fixpoint element (del s : bytes) (off depth : Z) (dims : list Z) (elems : list (option bytes))
    : res ArrErr pstate :=
  match s with
  | [] => Ok (mkP [] off depth dims elems)
  | c :: s' =>
    if c =? cOpen then
      if depth =? zlen dims then Ok (mkP s off depth dims elems) else
      match slice_set dims depth 0 with
      | Some dims => element del s' (off + 1) (depth + 1) dims elems
      | None => Panic
      end
    else if c =? cQuote then
      match quoted s' (off + 1) [] false with
      | Some (s'', off', elem) => Ok (mkP s'' off' depth dims (elems ++ [Some elem]))
      | None => Ok (mkP [] (off + zlen s) depth dims elems)
      end
    else
      match plain del s off [] with
      | Some (s'', off', elem) =>
        if zlen elem =? 0 then Err (EUnexpected (hd 0 s'') off')
        else Ok (mkP s'' off' depth dims (elems ++ [if bool_decide (elem = NULL) then None else Some elem]))
      | None => Ok (mkP [] (off + zlen s) depth dims elems)
      end
  end.

(** The loops labelled Open and Close. *)
Fixpoint open_braces (s : bytes) (i : Z) : bytes * Z * bool :=
  match s with
  | c :: s' =>
    if c =? cOpen then open_braces s' (i + 1)
    else (s, i, c =? cClose)
  | [] => ([], i, false)
  end.

Fixpoint close_braces (s : bytes) (off depth : Z) : res ArrErr (Z * Z) :=
  match s with
  | [] => Ok (off, depth)
  | c :: s =>
    if (c =? cClose) && (0 <? depth) then close_braces s (off + 1) (depth - 1)
    else Err (EUnexpected c off)
  end.

(** What follows the label Close. *)
Definition finish (p : pstate) : res ArrErr (list Z * list (option bytes)) :=
  match close_braces (rest p) (off p) (depth p) with
  | Ok (off, depth) =>
    if 0 <? depth then Err (EExpectedClose off)
    else if existsb (λ d, d =? 0) (dims p) then Panic
    else if forallb (λ d, zlen (elems p) mod d =? 0) (dims p) then Ok (dims p, elems p) else Err EDimensions
  | Err e => Err e
  | Panic => Panic
  | NoFuel => NoFuel
  end.

(** The jumps: [inElement] is the loop labelled Element, otherwise the loop
    after it.  Every round consumes input or leaves Element. *)
Fixpoint parse_loop (fuel : nat) (del : bytes) (inElement : bool) (p : pstate) : res ArrErr (list Z * list (option bytes)) :=
  match fuel with
  | O => NoFuel
  | S fuel =>
    if inElement then
      match element del (rest p) (off p) (depth p) (dims p) (elems p) with
      | Ok p => parse_loop fuel del false p
      | Err e => Err e
      | Panic => Panic
      | NoFuel => NoFuel
      end
    else
      match rest p with
      | [] => finish p
      | c :: s =>
        if has_prefix del (rest p) && (0 <? depth p) then
          match incr_dim (depth p) (dims p) with
          | Some dims => parse_loop fuel del true
              (mkP (drop (length del) (rest p)) (off p + zlen del) (depth p) dims (elems p))
          | None => Panic
          end
        else if (c =? cClose) && (0 <? depth p) then
          match incr_dim (depth p) (dims p) with
          | Some dims => parse_loop fuel del false (mkP s (off p + 1) (depth p - 1) dims (elems p))
          | None => Panic
          end
        else Err (EUnexpected c (off p))
      end
  end.

Definition parseArray (src del : bytes) : res ArrErr (list Z * list (option bytes)) :=
  match src with
  | c :: _ =>
    if negb (c =? cOpen) then Err EOffset0 else
    let '(s, i, empty) := open_braces src 0 in
    if empty : bool then finish (mkP s i i [] [])
    else parse_loop (2 * length s + 2) del true (mkP s i i (replicate (Z.to_nat i) 0) [])
  | [] => Err EOffset0
  end.

Definition ScanLinearArray (src del : bytes) : res ArrErr (list (option bytes)) :=
  match parseArray src del with
  | Ok (dims, elems) => if 1 <? zlen dims then Err (EConvert (zlen dims)) else Ok elems
  | Err e => Err e
  | Panic => Panic
  | NoFuel => NoFuel
  end.

(** ** ParseBytea *)
Definition hex_digit (c : Z) : option Z :=
  if (48 <=? c) && (c <=? 57) then Some (c - 48)
  else if (97 <=? c) && (c <=? 102) then Some (c - 87)
  else if (65 <=? c) && (c <=? 70) then Some (c - 55)
  else None.
(** [hex.Decode]: an odd last character is an error. *)
Fixpoint hex_decode (s : bytes) : option bytes :=
  match s with
  | [] => Some []
  | a :: b :: s =>
    match hex_digit a, hex_digit b, hex_decode s with
    | Some x, Some y, Some r => Some (16 * x + y :: r)
    | _, _, _ => None
    end
  | [_] => None
  end.
(** [hex.Encode], in lower case. *)
Definition hex_char (d : Z) : Z := if d <? 10 then d + 48 else d + 87.
Definition hex_encode (b : bytes) : bytes := concat ((λ x, [hex_char (x / 16); hex_char (x mod 16)]) <$> b).

(** [strconv.ParseUint(s, 8, 8)] of three characters. *)
Definition octal3 (s : bytes) : option Z :=
  match s with
  | [a; b; c] =>
    if forallb (λ d, (48 <=? d) && (d <=? 55)) s then
      let v := 64 * (a - 48) + 8 * (b - 48) + (c - 48) in
      if v <? 256 then Some v else None
    else None
  | _ => None
  end.

(** The escape format: one round per escape or raw byte (the code copies runs
    of raw bytes at once). *)
Fixpoint bytea_escape (fuel : nat) (s result : bytes) : res ArrErr bytes :=
  match s with
  | [] => Ok result
  | c :: s' =>
    match fuel with
    | O => NoFuel
    | S fuel =>
      if c =? cBackslash then
        if (2 <=? zlen s) && (hd 0 s' =? cBackslash) then bytea_escape fuel (drop 2 s) (result ++ [cBackslash])
        else if zlen s <? 4 then Err EBytea
        else match octal3 (take 3 s') with
             | Some r => bytea_escape fuel (drop 4 s) (result ++ [r])
             | None => Err EBytea
             end
      else bytea_escape fuel s' (result ++ [c])
    end
  end.

Definition ParseBytea (s : bytes) : res ArrErr bytes :=
  if has_prefix [cBackslash; cX] s then
    match hex_decode (drop 2 s) with Some b => Ok b | None => Err EHex end
  else bytea_escape (length s) s [].

(** ** UInt64Array *)
(** The elements after the first, each with its comma. *)
Definition append_rest (l : list Z) : bytes := concat ((λ v, cComma :: AppendUint v) <$> l).

(** A nil array is [None]; so is the NULL value. *)
Definition UInt64Array_Value (a : option (list Z)) : option bytes :=
  match a with
  | None => None
  | Some [] => Some [cOpen; cClose]
  | Some (v :: l) => Some ([cOpen] ++ AppendUint v ++ append_rest l ++ [cClose])
  end.

Fixpoint parse_uints (i : Z) (elems : list (option bytes)) : res ArrErr (list Z) :=
  match elems with
  | [] => Ok []
  | v :: elems =>
    match ParseUint64 (default [] v) with
    | None => Err (EElement i)
    | Some x => match parse_uints (i + 1) elems with Ok l => Ok (x :: l) | r => r end
    end
  end.

(** [Scan] on the receiver [a]: a nil source makes it nil. *)
Definition UInt64Array_Scan (a : option (list Z)) (src : option bytes) : res ArrErr (option (list Z)) :=
  match src with
  | None => Ok None
  | Some src =>
    match ScanLinearArray src [cComma] with
    | Ok elems =>
      match a, elems with
      | Some _, [] => Ok (Some [])
      | _, _ => match parse_uints 0 elems with Ok b => Ok (Some b) | Err e => Err e | Panic => Panic | NoFuel => NoFuel end
      end
    | Err e => Err e
    | Panic => Panic
    | NoFuel => NoFuel
    end
  end.

(** ** Chain hashes *)
(** [revHash] swaps the halves in place. *)
Definition revHash (ch : Hash) : Hash := rev ch.
Definition ChainHash_Value (ch : Hash) : bytes := revHash ch.
(** [Scan] of a byte slice; an empty one leaves the receiver. *)
Definition ChainHash_Scan (ch : Hash) (hb : option bytes) : res ArrErr Hash :=
  match hb with
  | None => Ok zeroHash
  | Some hb =>
    if zlen hb =? 0 then Ok ch
    else if negb (zlen hb =? Z.of_nat HashSize) then Err EHashLength
    else Ok (rev hb)
  end.

(** Each element is written as [,"\\x<hex>"], the first comma then overwritten. *)
Definition hash_elem (h : Hash) : bytes := [cQuote; cBackslash; cBackslash; cX] ++ hex_encode (ChainHash_Value h) ++ [cQuote].
Definition ChainHashArray2_Value (a : option (list Hash)) : option bytes :=
  match a with
  | None => None
  | Some [] => Some [cOpen; cClose]
  | Some (h :: l) => Some ([cOpen] ++ hash_elem h ++ concat ((λ h, cComma :: hash_elem h) <$> l) ++ [cClose])
  end.

Fixpoint scan_hashes (elems : list (option bytes)) : res ArrErr (list Hash) :=
  match elems with
  | [] => Ok []
  | s :: elems =>
    let s := default [] s in
    if negb (has_prefix [cBackslash; cX] s) then Err EBadHash else
    match ChainHash_Scan zeroHash (Some (drop 2 s)) with
    | Ok h => match scan_hashes elems with Ok l => Ok (h :: l) | r => r end
    | Err e => Err e
    | Panic => Panic
    | NoFuel => NoFuel
    end
  end.

Definition ChainHashArray2_Scan (a : option (list Hash)) (src : option bytes) : res ArrErr (option (list Hash)) :=
  match src with
  | None => Ok None
  | Some src =>
    match ScanLinearArray src [cComma] with
    | Ok elems =>
      match a, elems with
      | Some _, [] => Ok (Some [])
      | _, _ => match scan_hashes elems with Ok b => Ok (Some b) | Err e => Err e | Panic => Panic | NoFuel => NoFuel end
      end
    | Err e => Err e
    | Panic => Panic
    | NoFuel => NoFuel
    end
  end.

Example parse_two : ScanLinearArray (bytes_of_string "{12,NULL,3}") [cComma] =
  Ok [Some (bytes_of_string "12"); None; Some (bytes_of_string "3")].
Proof. reflexivity. Qed.
Example parse_nested : parseArray (bytes_of_string "{{1,2},{3,4}}") [cComma] =
  Ok ([2; 2], [Some [49]; Some [50]; Some [51]; Some [52]]).
Proof. reflexivity. Qed.

(** ** The parser is total *)
(** The depth is within the dimensions, and the dimensions of closed levels are
    positive. *)
Definition dims_ok (depth : Z) (dims : list Z) : Prop :=
  0 <= depth <= zlen dims ∧ Forall (λ d, 0 <= d) dims ∧
  ∀ j d, depth <= Z.of_nat j → dims !! j = Some d → 0 < d.

Lemma slice_set_ok {A} (l : list A) i x : 0 <= i < zlen l → slice_set l i x = Some (<[Z.to_nat i := x]> l).
Proof.
  intros H. unfold slice_set. destruct (Z.leb_spec 0 i), (Z.ltb_spec i (zlen l)); try lia. done.
Qed.

Lemma zlen_insert {A} (l : list A) n x : zlen (<[n := x]> l) = zlen l.
Proof. unfold zlen. by rewrite length_insert. Qed.

Lemma dims_ok_open depth dims :
  dims_ok depth dims → depth ≠ zlen dims →
  dims_ok (depth + 1) (<[Z.to_nat depth := 0]> dims) ∧ slice_set dims depth 0 = Some (<[Z.to_nat depth := 0]> dims).
Proof.
  intros (Hd & Hf & Hp) Hne. split; [|apply slice_set_ok; lia]. split; [rewrite zlen_insert; lia|split].
  - by apply Forall_insert.
  - intros j d Hj Hl. rewrite list_lookup_insert_ne in Hl by lia. apply (Hp j); [lia|done].
Qed.

Lemma incr_dim_ok depth dims :
  dims_ok depth dims → 0 < depth →
  ∃ dims', incr_dim depth dims = Some dims' ∧ dims_ok depth dims' ∧ dims_ok (depth - 1) dims'.
Proof.
  intros (Hd & Hf & Hp) Hpos. unfold incr_dim.
  destruct (slice_at_Some dims (depth - 1)) as [x Hx]; [lia|]. rewrite Hx, slice_set_ok by lia.
  assert (dims !! Z.to_nat (depth - 1) = Some x) as Hl by (unfold slice_at in Hx; by destruct (_ <? 0)).
  pose proof (Forall_lookup_1 _ _ _ _ Hf Hl) as Hx0. cbn in Hx0.
  eexists. split; [done|]. assert (Forall (λ d, 0 <= d) (<[Z.to_nat (depth - 1) := x + 1]> dims)) as Hf'.
  { apply Forall_insert; [done|lia]. }
  assert (∀ j d, depth - 1 <= Z.of_nat j → <[Z.to_nat (depth - 1) := x + 1]> dims !! j = Some d → 0 < d) as Hp'.
  { intros j d Hj Hl'. apply list_lookup_insert_Some in Hl' as [(<- & <- & _)|(Hne & Hl')]; [lia|]. apply (Hp j); [lia|done]. }
  split; (split; [rewrite zlen_insert; lia|]); (split; [done|]).
  - intros j d Hj. apply Hp'. lia.
  - done.
Qed.

Definition pinv (p : pstate) : Prop := dims_ok (depth p) (dims p).

Lemma quoted_shorter s : ∀ off e esc s' off' e',
  quoted s off e esc = Some (s', off', e') → (length s' <= length s)%nat.
Proof.
  induction s as [|c s IH]; intros off e esc s' off' e'; cbn [quoted]; [done|].
  destruct esc; [intros H%IH; cbn; lia|].
  destruct (c =? cBackslash); [intros H%IH; cbn; lia|].
  destruct (c =? cQuote); [intros [= <- _ _]; cbn; lia|intros H%IH; cbn; lia].
Qed.

Lemma plain_shorter del s : ∀ off e s' off' e',
  plain del s off e = Some (s', off', e') → (length s' <= length s)%nat.
Proof.
  induction s as [|c s IH]; intros off e s' off' e'; cbn [plain]; [done|].
  destruct (_ || _); [by intros [= <- _ _]|intros H%IH; cbn; lia].
Qed.

Lemma element_ok del s : ∀ off depth dims elems,
  dims_ok depth dims →
  (∃ p, element del s off depth dims elems = Ok p ∧ pinv p ∧ (length (rest p) <= length s)%nat) ∨
  ∃ e, element del s off depth dims elems = Err e.
Proof.
  induction s as [|c s IH]; intros off depth dims elems Hok; cbn [element].
  { left. eexists. split; [done|]. split; [done|]. cbn. lia. }
  destruct (c =? cOpen).
  { destruct (Z.eqb_spec depth (zlen dims)); [left; eexists; split; [done|split; [done|cbn; lia]]|].
    destruct (dims_ok_open _ _ Hok) as [Hok' ->]; [done|].
    destruct (IH (off + 1) (depth + 1) _ elems Hok') as [(p & E & Hp & Hl)|[e E]]; [left|right; by exists e].
    exists p. split_and!; [done|done|cbn; lia]. }
  destruct (c =? cQuote).
  { left. destruct (quoted s (off + 1) [] false) as [[[s' off'] e]|] eqn:E; (eexists; split; [done|split; [done|]]); cbn; [|lia].
    apply quoted_shorter in E. lia. }
  destruct (plain del (c :: s) off []) as [[[s' off'] e]|] eqn:E.
  - apply plain_shorter in E. destruct (zlen e =? 0); [right; by eexists|]. left. eexists. split; [done|]. split; done.
  - left. eexists. split; [done|]. split; [done|]. cbn. lia.
Qed.

Lemma close_braces_ok s : ∀ off depth,
  0 <= depth → (∃ r, close_braces s off depth = Ok r ∧ 0 <= snd r <= depth) ∨ ∃ e, close_braces s off depth = Err e.
Proof.
  induction s as [|c s IH]; intros off depth Hd; cbn [close_braces].
  { left. eexists. split; [done|]. cbn. lia. }
  destruct (c =? cClose); [|right; by eexists]. destruct (Z.ltb_spec 0 depth); cbn; [|right; by eexists].
  destruct (IH (off + 1) (depth - 1)) as [(r & E & Hr)|?]; [lia| |by right]. left. exists r. split; [done|lia].
Qed.

(** Reaching the end: a modulus is 0 only while a level is open. *)
Lemma finish_ok p : 0 <= depth p → (pinv p ∧ rest p = [] ∨ dims p = []) → (∃ r, finish p = Ok r) ∨ ∃ e, finish p = Err e.
Proof.
  intros Hp Hend. unfold finish.
  destruct (close_braces_ok (rest p) (off p) (depth p)) as [([o d] & E & Hd)|[e ->]]; [lia| |right; by eexists].
  rewrite E. destruct (Z.ltb_spec 0 d); [right; by eexists|].
  assert (existsb (λ d, d =? 0) (dims p) = false) as ->.
  { destruct Hend as [[Hp' Hr]|Hr]; [|by rewrite Hr]. rewrite Hr in E. cbn in E. injection E as _ Ed. cbn in Hd.
    apply not_true_is_false. intros (x & Hx & Hz)%existsb_exists. apply list_elem_of_In, list_elem_of_lookup in Hx as [j Hj].
    destruct Hp' as (_ & _ & Hp'). specialize (Hp' j x ltac:(lia) Hj). lia. }
  destruct (forallb _ _); [left|right]; by eexists.
Qed.

Lemma has_prefix_length del s : has_prefix del s = true → (length del <= length s)%nat.
Proof.
  unfold has_prefix. rewrite bool_decide_eq_true. intros <-. rewrite length_take. lia.
Qed.

Lemma parse_loop_ok del : del ≠ [] → ∀ fuel (inElement : bool) p,
  pinv p → (2 * length (rest p) + (if inElement then 2 else 1) <= fuel)%nat →
  (∃ r, parse_loop fuel del inElement p = Ok r) ∨ ∃ e, parse_loop fuel del inElement p = Err e.
Proof.
  intros Hdel. induction fuel as [|fuel IH]; intros inE p Hp Hf; [destruct inE; lia|]. cbn [parse_loop]. destruct inE.
  - destruct (element_ok del (rest p) (off p) (depth p) (dims p) (elems p) Hp) as [(p' & -> & Hp' & Hl)|[e ->]]; [|right; by eexists].
    apply IH; [done|lia].
  - destruct (rest p) as [|c s] eqn:Er; [apply finish_ok; [destruct Hp; lia|by left]|].
    destruct (has_prefix del (c :: s)) eqn:Epre; cbn [andb].
    + destruct (Z.ltb_spec 0 (depth p)) as [Hd|Hd].
      * destruct (incr_dim_ok _ _ Hp Hd) as (dims' & -> & H1 & _). apply IH; [done|]. cbn [rest]. rewrite length_drop.
        apply has_prefix_length in Epre. destruct del; [done|]. cbn [length] in *. lia.
      * rewrite andb_false_r. right. by eexists.
    + destruct (c =? cClose); [|right; by eexists]. destruct (Z.ltb_spec 0 (depth p)) as [Hd|Hd]; cbn [andb]; [|right; by eexists].
      destruct (incr_dim_ok _ _ Hp Hd) as (dims' & -> & _ & H2). apply IH; [done|]. cbn [rest length] in *. lia.
Qed.

Lemma open_braces_ok s : ∀ i s' i' b, open_braces s i = (s', i', b) → i <= i' ∧ (b = true → i < i' ∨ hd 0 s = cClose).
Proof.
  induction s as [|c s IH]; intros i s' i' b; cbn [open_braces]; [intros [= <- <- <-]; split; [lia|done]|].
  destruct (Z.eqb_spec c cOpen) as [->|].
  - intros H. apply IH in H as [H1 H2]. split; [lia|]. intros _. left. lia.
  - intros [= <- <- <-]. split; [lia|]. intros H. right. cbn. by apply Z.eqb_eq.
Qed.

(** The array parser is total: on every input, with a delimiter that is not
    empty, it ends with the dimensions and elements or with an error; no index
    is out of range and no dimension is zero where it divides. *)
Theorem parseArray_total src del :
  del ≠ [] → (∃ r, parseArray src del = Ok r) ∨ ∃ e, parseArray src del = Err e.
Proof.
  intros Hdel. unfold parseArray. destruct src as [|c src]; [right; by eexists|].
  destruct (c =? cOpen); cbn [negb]; [|right; by eexists].
  destruct (open_braces (c :: src) 0) as [[s i] b] eqn:E. apply open_braces_ok in E as [Hi _]. destruct b.
  - apply finish_ok; [done|by right].
  - apply parse_loop_ok; [done| |cbn; lia]. unfold pinv, dims_ok. cbn. split; [unfold zlen; rewrite length_replicate; lia|]. split.
    + apply Forall_replicate. lia.
    + intros j d Hj Hl. apply lookup_replicate in Hl as [_ Hl]. lia.
Qed.

Lemma parseArray_total_witness : (∃ r, parseArray [123; 34] [cComma] = Ok r) ∨ ∃ e, parseArray [123; 34] [cComma] = Err e.
Proof. apply (parseArray_total [123; 34] [cComma]). discriminate. Defined.

(** ** Reading what was written *)
(** The text [x] of one element is read as [v] up to the comma or brace that
    follows it. *)
Definition reads (x : bytes) (v : option bytes) : Prop :=
  ∀ t off k es, (hd 0 t = cComma ∨ hd 0 t = cClose) → t ≠ [] →
    element [cComma] (x ++ t) off 1 [k] es = Ok (mkP t (off + zlen x) 1 [k] (es ++ [v])).

Definition tail_of (l : list (bytes * option bytes)) : bytes := concat ((λ y, cComma :: fst y) <$> l) ++ [cClose].

Lemma tail_of_hd l : (hd 0 (tail_of l) = cComma ∨ hd 0 (tail_of l) = cClose) ∧ tail_of l ≠ [].
Proof. destruct l as [|[x v] l]; cbn; split; auto; done. Qed.

Lemma tail_of_cons x v l : tail_of ((x, v) :: l) = cComma :: x ++ tail_of l.
Proof. unfold tail_of. cbn. by rewrite <- app_assoc. Qed.

Lemma incr_dim_1 k : incr_dim 1 [k] = Some [k + 1].
Proof. reflexivity. Qed.

Lemma loop_reads l : ∀ fuel o k es,
  Forall (λ y, reads (fst y) (snd y)) l → 0 <= k → zlen es = k + 1 → (2 * length (tail_of l) + 1 <= fuel)%nat →
  parse_loop fuel [cComma] false (mkP (tail_of l) o 1 [k] es) = Ok ([k + 1 + zlen l], es ++ (snd <$> l)).
Proof.
  induction l as [|[x v] l IH]; intros fuel o k es Hl Hk Hes Hf; destruct fuel as [|fuel]; try lia; cbn [parse_loop].
  - cbn -[Z.add]. destruct fuel as [|fuel]; [cbn in Hf; lia|]. cbn -[Z.add Z.modulo].
    rewrite incr_dim_1. change (zlen []) with 0. rewrite app_nil_r, Z.add_0_r. unfold finish. cbn -[Z.add Z.modulo].
    destruct (Z.eqb_spec (k + 1) 0); [lia|]. cbn -[Z.add Z.modulo].
    by rewrite Hes, Z.mod_same by lia.
  - apply Forall_cons in Hl as [Hx Hl]. rewrite tail_of_cons in *. cbn [rest depth dims elems off length] in *.
    assert (has_prefix [cComma] (cComma :: x ++ tail_of l) = true) as -> by (by apply bool_decide_eq_true).
    change (0 <? 1) with true. cbn [andb]. rewrite incr_dim_1. cbn [length drop]. rewrite drop_0.
    destruct fuel as [|fuel]; [lia|]. cbn [parse_loop rest depth dims elems off]. cbn [fst snd] in Hx.
    destruct (tail_of_hd l) as [Hh Ht]. rewrite Hx by done.
    rewrite IH; [| |lia|rewrite zlen_app; change (zlen [v]) with 1; lia|].
    + rewrite <- app_assoc. cbn [app fmap list_fmap snd]. do 3 f_equal.
      change (zlen ((x, v) :: l)) with (Z.of_nat (S (length l))). unfold zlen. lia.
    + done.
    + rewrite length_app in Hf. lia.
Qed.

Lemma scan_reads x v l :
  x ≠ [] → hd 0 x ≠ cOpen → hd 0 x ≠ cClose → reads x v → Forall (λ y, reads (fst y) (snd y)) l →
  ScanLinearArray ([cOpen] ++ x ++ tail_of l) [cComma] = Ok (v :: (snd <$> l)).
Proof.
  intros Hne Ho Hc Hx Hl. unfold ScanLinearArray, parseArray. cbn [app].
  change (cOpen =? cOpen) with true. cbn [negb]. destruct x as [|c x]; [done|]. cbn [hd] in *.
  cbn [open_braces app]. change (cOpen =? cOpen) with true.
  destruct (Z.eqb_spec c cOpen); [done|]. destruct (Z.eqb_spec c cClose); [done|].
  change (0 + 1) with 1. change (Z.to_nat 1) with 1%nat. cbn [replicate].
  set (len := length (c :: x ++ tail_of l)). replace (2 * len + 2)%nat with (S (2 * len + 1)) by lia.
  cbn [parse_loop rest depth dims elems off]. destruct (tail_of_hd l) as [Hh Ht].
  change (c :: x ++ tail_of l) with ((c :: x) ++ tail_of l). rewrite Hx by done. cbn [app].
  rewrite (loop_reads l _ _ 0 [v]); [|done|lia|done|].
  - change (zlen [_]) with 1. cbn [app]. change (1 <? 1) with false. done.
  - unfold len. cbn [length]. rewrite length_app. lia.
Qed.

Lemma plain_run x : ∀ t off acc,
  Forall (λ c, c ≠ cComma ∧ c ≠ cClose) x → (hd 0 t = cComma ∨ hd 0 t = cClose) → t ≠ [] →
  plain [cComma] (x ++ t) off acc = Some (t, off + zlen x, acc ++ x).
Proof.
  induction x as [|c x IH]; intros t off acc Hx Ht Hne; cbn [app].
  - destruct t as [|d t]; [done|]. cbn [plain hd] in *. change (zlen []) with 0.
    assert (has_prefix [cComma] (d :: t) || (d =? cClose) = true) as ->.
    { unfold has_prefix. cbn [length take]. destruct Ht as [->| ->]; [by rewrite bool_decide_true|by rewrite orb_true_r]. }
    by rewrite app_nil_r, Z.add_0_r.
  - apply Forall_cons in Hx as [[H1 H2] Hx]. cbn [plain].
    assert (has_prefix [cComma] (c :: x ++ t) || (c =? cClose) = false) as ->.
    { unfold has_prefix. cbn [length take]. rewrite bool_decide_false by congruence. by apply Z.eqb_neq. }
    rewrite IH by done. rewrite <- app_assoc. f_equal. f_equal. f_equal. unfold zlen. cbn [length]. lia.
Qed.

Lemma digits_read x : Forall is_digit x → x ≠ [] → reads x (Some x).
Proof.
  intros Hd Hne t off k es Ht Htn. destruct x as [|c x]; [done|]. pose proof Hd as Hd'. apply Forall_cons in Hd' as [Hc _].
  unfold is_digit in Hc. cbn [element app]. unfold cOpen, cQuote.
  destruct (Z.eqb_spec c 123); [lia|]. destruct (Z.eqb_spec c 34); [lia|].
  change (c :: x ++ t) with ((c :: x) ++ t). rewrite plain_run; [|eapply Forall_impl; [exact Hd|]|done|done].
  - destruct (Z.eqb_spec (zlen (c :: x)) 0) as [E|_]; [unfold zlen in E; cbn in E; lia|].
    rewrite bool_decide_false; [done|]. intros E. cbn in E. injection E as -> _. lia.
  - intros y Hy. unfold is_digit, cComma, cClose in *. lia.
Qed.

(** A list of uint64 written for PostgreSQL is read back unchanged, empty
    and nil lists included, whatever the receiver held; reading never panics. *)
Theorem UInt64Array_round_trip (a b : option (list Z)) :
  Forall (λ v, 0 <= v < 2 ^ 64) (default [] a) →
  UInt64Array_Scan b (UInt64Array_Value a) = Ok a.
Proof.
  intros Ha. destruct a as [[|v l]|]; cbn [UInt64Array_Value UInt64Array_Scan].
  - by destruct b.
  - cbn in Ha. apply Forall_cons in Ha as [Hv Hl].
    destruct (AppendUint_digits v) as [Hd Hne]; [lia|].
    assert (append_rest l ++ [cClose] = tail_of ((λ w, (AppendUint w, Some (AppendUint w))) <$> l)) as ->.
    { unfold append_rest, tail_of. by rewrite <- list_fmap_compose. }
    assert (is_digit (hd 0 (AppendUint v))) as Hh.
    { destruct (AppendUint v); [done|]. by apply Forall_cons in Hd as [? _]. }
    unfold is_digit, cOpen, cClose in *.
    rewrite (scan_reads _ (Some (AppendUint v))); [|done|unfold cOpen; lia|unfold cClose; lia|by apply digits_read|].
    + rewrite <- list_fmap_compose.
      assert (∀ i, parse_uints i (Some (AppendUint v) :: (snd ∘ (λ w, (AppendUint w, Some (AppendUint w))) <$> l)) = Ok (v :: l)) as E.
      { clear -Hv Hl. revert v Hv. induction Hl as [|w l Hw Hl IH]; intros v Hv i; cbn -[AppendUint ParseUint64].
        - by rewrite ParseUint64_AppendUint.
        - rewrite ParseUint64_AppendUint by done. specialize (IH w Hw (i + 1)). cbn -[AppendUint ParseUint64] in IH. by rewrite IH. }
      rewrite E. by destruct b.
    + apply Forall_fmap. eapply Forall_impl; [exact Hl|]. intros w Hw. cbn. destruct (AppendUint_digits w); [apply Hw|].
      by apply digits_read.
  - done.
Qed.

Lemma UInt64Array_round_trip_witness :
  UInt64Array_Scan (Some [9]) (UInt64Array_Value (Some [0; 18446744073709551615; 7])) = Ok (Some [0; 18446744073709551615; 7]).
Proof. apply UInt64Array_round_trip. repeat constructor; lia. Defined.

(** *** Hashes *)
Lemma quoted_run x : ∀ s off acc, Forall (λ c, c ≠ cBackslash ∧ c ≠ cQuote) x →
  quoted (x ++ cQuote :: s) off acc false = Some (s, off + zlen x + 1, acc ++ x).
Proof.
  induction x as [|c x IH]; intros s off acc Hx; cbn [app quoted].
  - change (cQuote =? cBackslash) with false. change (cQuote =? cQuote) with true. cbn.
    rewrite app_nil_r. change (zlen []) with 0. by rewrite Z.add_0_r.
  - apply Forall_cons in Hx as [[H1 H2] Hx]. destruct (Z.eqb_spec c cBackslash); [done|]. destruct (Z.eqb_spec c cQuote); [done|].
    rewrite IH by done. rewrite <- app_assoc. cbn [app].
    replace (off + 1 + zlen x + 1) with (off + zlen (c :: x) + 1); [done|]. unfold zlen. cbn [length]. lia.
Qed.

Lemma hex_char_plain d : 0 <= d < 16 → (48 <= hex_char d <= 57 ∨ 97 <= hex_char d <= 102) ∧ hex_digit (hex_char d) = Some d.
Proof.
  intros Hd. unfold hex_char, hex_digit. destruct (Z.ltb_spec d 10); split; try lia.
  - destruct (Z.leb_spec 48 (d + 48)), (Z.leb_spec (d + 48) 57); try lia. cbn. f_equal. lia.
  - destruct (Z.leb_spec 48 (d + 87)), (Z.leb_spec (d + 87) 57); try lia. cbn.
    destruct (Z.leb_spec 97 (d + 87)), (Z.leb_spec (d + 87) 102); try lia. cbn. f_equal. lia.
Qed.

Lemma byte_nibbles x : is_byte x → 0 <= x / 16 < 16 ∧ 0 <= x mod 16 < 16.
Proof.
  unfold is_byte. intros Hx. pose proof (Z.mod_pos_bound x 16). split; [|lia].
  split; [apply Z.div_pos; lia|apply Z.div_lt_upper_bound; lia].
Qed.

Lemma hex_encode_plain b : Forall is_byte b → Forall (λ c, c ≠ cBackslash ∧ c ≠ cQuote) (hex_encode b) ∧
  length (hex_encode b) = (2 * length b)%nat.
Proof.
  unfold hex_encode, cBackslash, cQuote. induction 1 as [|x b Hx Hb [IH IHl]]; cbn; [split; [constructor|done]|].
  destruct (byte_nibbles x Hx) as [H1 H2]. destruct (hex_char_plain _ H1) as [G1 _], (hex_char_plain _ H2) as [G2 _].
  split; [|rewrite IHl; lia]. constructor; [lia|]. constructor; [lia|]. exact IH.
Qed.

Lemma hex_round_trip b : Forall is_byte b → hex_decode (hex_encode b) = Some b.
Proof.
  unfold hex_encode. induction 1 as [|x b Hx Hb IH]; [done|].
  destruct (byte_nibbles x Hx) as [H1 H2]. cbn [fmap list_fmap concat app hex_decode].
  destruct (hex_char_plain _ H1) as [_ ->], (hex_char_plain _ H2) as [_ ->]. rewrite IH.
  do 2 f_equal. pose proof (Z.div_mod x 16). lia.
Qed.

(** The hex form of a bytea value is decoded to the bytes it was made of. *)
Lemma ParseBytea_hex b : Forall is_byte b → ParseBytea ([cBackslash; cX] ++ hex_encode b) = Ok b.
Proof.
  intros Hb. unfold ParseBytea. assert (has_prefix [cBackslash; cX] ([cBackslash; cX] ++ hex_encode b) = true) as ->.
  { unfold has_prefix. by rewrite bool_decide_true. }
  change (drop 2 ([cBackslash; cX] ++ hex_encode b)) with (hex_encode b). by rewrite hex_round_trip.
Qed.

(** ParseBytea ends on every input without a panic. *)
Lemma bytea_escape_total s : ∀ fuel r, (length s <= fuel)%nat →
  (∃ b, bytea_escape fuel s r = Ok b) ∨ bytea_escape fuel s r = Err EBytea.
Proof.
  assert (∀ n s, (length s <= n)%nat → ∀ fuel r, (length s <= fuel)%nat →
    (∃ b, bytea_escape fuel s r = Ok b) ∨ bytea_escape fuel s r = Err EBytea) as G; [|intros; by eapply G].
  clear s. induction n as [|n IH]; intros s Hs fuel r Hf.
  { destruct s; [|cbn in Hs; lia]. left. destruct fuel; by eexists. }
  destruct s as [|c s]; [left; destruct fuel; by eexists|]. destruct fuel as [|fuel]; [cbn in Hf; lia|]. cbn [bytea_escape].
  destruct (c =? cBackslash).
  - destruct (_ && _); [apply IH; rewrite length_drop; cbn in *; lia|].
    destruct (_ <? 4); [by right|]. destruct (octal3 _); [|by right]. apply IH; rewrite length_drop; cbn in *; lia.
  - apply IH; cbn in *; lia.
Qed.

Lemma ParseBytea_total s : (∃ b, ParseBytea s = Ok b) ∨ ∃ e, ParseBytea s = Err e.
Proof.
  unfold ParseBytea. destruct (has_prefix _ _).
  - destruct (hex_decode _); [left|right]; by eexists.
  - destruct (bytea_escape_total s (length s) []) as [?|E]; [done|by left|right; by eexists].
Qed.

Lemma hash_elem_reads h : Forall is_byte h → reads (hash_elem h) (Some ([cBackslash; cX] ++ hex_encode (rev h))).
Proof.
  intros Hh t off k es Ht Hne. unfold hash_elem, ChainHash_Value, revHash.
  assert (Forall is_byte (rev h)) as Hr by (by apply Forall_rev).
  destruct (hex_encode_plain _ Hr) as [Hp _]. rewrite <- !app_assoc. cbn [app element].
  change (cQuote =? cOpen) with false. change (cQuote =? cQuote) with true. cbn [quoted app].
  change (cBackslash =? cBackslash) with true. change (cX =? cBackslash) with false. change (cX =? cQuote) with false. cbn iota.
  cbn [app]. rewrite quoted_run by done. cbn [app]. do 2 f_equal.
  change (cQuote :: cBackslash :: cBackslash :: cX :: hex_encode (rev h) ++ [cQuote])
    with ([cQuote; cBackslash; cBackslash; cX] ++ hex_encode (rev h) ++ [cQuote]).
  rewrite !zlen_app. change (zlen [cQuote; cBackslash; cBackslash; cX]) with 4. change (zlen [cQuote]) with 1. lia.
Qed.

(** The second hash array type cannot read what it writes: for every
    non-empty list of hashes, Scan of its Value is the wrong-length error,
    because the hexadecimal text is passed on undecoded. *)
Theorem ChainHashArray2_not_readable (h : Hash) (l : list Hash) (b : option (list Hash)) :
  Forall is_hash (h :: l) →
  ChainHashArray2_Scan b (ChainHashArray2_Value (Some (h :: l))) = Err EHashLength.
Proof.
  intros [[Hlen Hb] Hl]%Forall_cons. cbn [ChainHashArray2_Value ChainHashArray2_Scan].
  assert (concat ((λ h, cComma :: hash_elem h) <$> l) ++ [cClose] =
    tail_of ((λ h, (hash_elem h, Some ([cBackslash; cX] ++ hex_encode (rev h)))) <$> l)) as ->.
  { unfold tail_of. by rewrite <- list_fmap_compose. }
  rewrite (scan_reads _ (Some ([cBackslash; cX] ++ hex_encode (rev h)))); [|done|done|done|by apply hash_elem_reads|].
  - assert (zlen (hex_encode (rev h)) = 64) as Hz.
    { unfold zlen. destruct (hex_encode_plain (rev h)) as [_ ->]; [by apply Forall_rev|]. by rewrite length_rev, Hlen. }
    cbn [scan_hashes default]. unfold id.
    assert (has_prefix [cBackslash; cX] ([cBackslash; cX] ++ hex_encode (rev h)) = true) as ->.
    { unfold has_prefix. by rewrite bool_decide_true. }
    change (drop 2 ([cBackslash; cX] ++ hex_encode (rev h))) with (hex_encode (rev h)). cbn [negb]. unfold ChainHash_Scan. rewrite Hz. cbn. by destruct b.
  - apply Forall_fmap. eapply Forall_impl; [exact Hl|]. intros x [_ Hx]. by apply hash_elem_reads.
Qed.

Lemma ChainHashArray2_not_readable_witness :
  ChainHashArray2_Scan None (ChainHashArray2_Value (Some [zeroHash])) = Err EHashLength.
Proof.
  apply ChainHashArray2_not_readable. constructor; [|constructor]. split; [reflexivity|].
  apply Forall_replicate. unfold is_byte. lia.
Defined.

(** One hash is read back as written. *)
Lemma ChainHash_round_trip ch ch' : length ch = HashSize → ChainHash_Scan ch' (Some (ChainHash_Value ch)) = Ok ch.
Proof.
  intros Hl. unfold ChainHash_Scan, ChainHash_Value, revHash, zlen. rewrite length_rev, Hl. cbn. by rewrite rev_involutive.
Qed.
