(* ===== verification/Semver.v ===== *)
(** * Semantic versions (semver/semver.go)

    Versions, their compatibility order, printing and parsing.  The parser's
    regular expression is modelled by its greedy scan; the theorems show that
    the scan accepts exactly the language of the expression, that printing and
    parsing are inverse, and that compatibility is a partial order. *)
From S2P Require Import Prelude Digits.
Open Scope Z_scope.

(** The fields are uint32. *)
Record Semver := NewSemver { major : Z; minor : Z; patch : Z }.

Definition semver_ok (s : Semver) : Prop :=
  0 <= major s < 2 ^ 32 ∧ 0 <= minor s < 2 ^ 32 ∧ 0 <= patch s < 2 ^ 32.

#[export] Instance Semver_eq_dec : EqDecision Semver.
Proof. solve_decision. Defined.

Definition Compatible (required actual : Semver) : bool :=
  if negb (major required =? major actual) then false
  else if minor required >? minor actual then false
  else if (minor required =? minor actual) && (patch required >? patch actual) then false
  else true.

Fixpoint AnyCompatible (compatible : list Semver) (actual : Semver) : bool :=
  match compatible with
  | [] => false
  | v :: compatible => if Compatible v actual then true else AnyCompatible compatible actual
  end.

Definition cDot : Z := 46.
Definition cV : Z := 118.

Definition Semver_String (s : Semver) : bytes :=
  AppendUint (major s) ++ [cDot] ++ AppendUint (minor s) ++ [cDot] ++ AppendUint (patch s).

Definition Split (s : Semver) : Z * Z * Z := (major s, minor s, patch s).

(** ** ParseVersionStr *)
Definition isDigit (c : Z) : bool := (48 <=? c) && (c <=? 57).

(** A greedy run of digits. *)
Fixpoint span_digits (s : bytes) : bytes * bytes :=
  match s with
  | c :: s' => if isDigit c then let '(d, r) := span_digits s' in (c :: d, r) else ([], s)
  | [] => ([], [])
  end.
(** An optional character. *)
Definition opt_char (c : Z) (s : bytes) : bytes :=
  match s with
  | x :: s' => if x =? c then s' else s
  | [] => []
  end.

(** [FindStringSubmatch]: an optional v, one or more digits, and twice an
    optional dot and a run of digits that may be empty, up to the end. *)
Definition FindStringSubmatch (ver : bytes) : option (bytes * bytes * bytes) :=
  let '(s1, r) := span_digits (opt_char cV ver) in
  if zlen s1 =? 0 then None else
  let '(s2, r) := span_digits (opt_char cDot r) in
  let '(s3, r) := span_digits (opt_char cDot r) in
  match r with
  | [] => Some (s1, s2, s3)
  | _ :: _ => None
  end.

Inductive VerErr := EInvalidVersion | ERange.

(** [strconv.Atoi] of a run of digits, skipped when it is empty. *)
Definition atoi_part (sub : bytes) : res VerErr Z :=
  if 0 <? zlen sub then
    match parse_dec sub with
    | Some v => if v <? 2 ^ 63 then Ok v else Err ERange
    | None => Err ERange
    end
  else Ok 0.

Definition ParseVersionStr (ver : bytes) : res VerErr Semver :=
  match FindStringSubmatch ver with
  | None => Err EInvalidVersion
  | Some (s1, s2, s3) =>
    match atoi_part s3, atoi_part s2, atoi_part s1 with
    | Ok p, Ok m, Ok v => Ok (NewSemver (u32 v) (u32 m) (u32 p))
    | _, _, _ => Err ERange
    end
  end.

Example parse_v310 : ParseVersionStr (bytes_of_string "v3.1") = Ok (NewSemver 3 1 0).
Proof. reflexivity. Qed.
Example parse_garbage : ParseVersionStr (bytes_of_string "1.2.3-pre") = Err EInvalidVersion.
Proof. reflexivity. Qed.
(** Two dots in a row leave the minor version empty. *)
Example parse_dots : ParseVersionStr (bytes_of_string "1..2") = Ok (NewSemver 1 0 2).
Proof. reflexivity. Qed.
(** A number beyond 32 bits is reduced, not refused. *)
Example parse_truncates : ParseVersionStr (bytes_of_string "4294967297.0.0") = Ok (NewSemver 1 0 0).
Proof. reflexivity. Qed.

(** ** Compatibility *)
(** The specification: the same major version, and the minor and patch versions
    in lexicographic order. *)
Definition serves (required actual : Semver) : Prop :=
  major required = major actual ∧
  (minor required < minor actual ∨ minor required = minor actual ∧ patch required <= patch actual).

Lemma Compatible_serves r a : Compatible r a = true ↔ serves r a.
Proof.
  unfold Compatible, serves. rewrite !Z.gtb_ltb.
  destruct (Z.eqb_spec (major r) (major a)); cbn [negb]; [|split; [done|lia]].
  destruct (Z.ltb_spec (minor a) (minor r)); [split; [done|lia]|].
  destruct (Z.eqb_spec (minor r) (minor a)), (Z.ltb_spec (patch a) (patch r)); cbn; split; (done || lia).
Qed.

Lemma AnyCompatible_Exists l a : AnyCompatible l a = true ↔ Exists (λ v, serves v a) l.
Proof.
  induction l as [|v l IH]; cbn; [by rewrite Exists_nil|]. rewrite Exists_cons, <- Compatible_serves, <- IH.
  destruct (Compatible v a); intuition congruence.
Qed.

#[export] Instance serves_partial_order : PartialOrder serves.
Proof.
  unfold serves. split; [split|].
  - intros []. cbn. lia.
  - intros [] [] []. cbn. lia.
  - intros [] [] [E1 H1] [_ H2]. cbn in *. f_equal; lia.
Qed.

(** Compatibility is the lexicographic order of minor and patch within a
    major version: a version serves itself, a version that serves a requirement
    serves every requirement that one serves, two versions that serve each
    other are equal, versions of one major line are always comparable, and a
    list of versions accepts exactly what one of its members accepts. *)
Theorem Compatible_order :
  (∀ r a, Compatible r a = true ↔ serves r a) ∧
  PartialOrder (λ r a, Compatible r a = true) ∧
  (∀ r a, Compatible r a || Compatible a r = (major r =? major a)) ∧
  (∀ l a, AnyCompatible l a = existsb (λ v, Compatible v a) l).
Proof.
  split; [apply Compatible_serves|]. split; [|split].
  - split; [split|].
    + intros x. by apply Compatible_serves.
    + intros x y z. rewrite !Compatible_serves. by etrans.
    + intros x y. rewrite !Compatible_serves. apply (anti_symm serves).
  - intros r a. apply eq_true_iff_eq. rewrite orb_true_iff, !Compatible_serves, Z.eqb_eq. unfold serves. lia.
  - intros l a. induction l as [|v l IH]; cbn; [done|]. by destruct (Compatible v a).
Qed.

(** ** The language of the regular expression *)
Definition opt (c : Z) (x : bytes) : Prop := x = [] ∨ x = [c].

Definition regex (ver s1 s2 s3 : bytes) : Prop :=
  ∃ v d1 d2, ver = v ++ s1 ++ d1 ++ s2 ++ d2 ++ s3 ∧
    opt cV v ∧ opt cDot d1 ∧ opt cDot d2 ∧ digits s1 ∧ s1 ≠ [] ∧ digits s2 ∧ digits s3.

Lemma isDigit_spec c : isDigit c = true ↔ is_digit c.
Proof. unfold isDigit, is_digit. rewrite andb_true_iff, !Z.leb_le. lia. Qed.

Lemma span_digits_ok s : ∀ d r, span_digits s = (d, r) → s = d ++ r ∧ digits d ∧ (r = [] ∨ isDigit (hd 0 r) = false).
Proof.
  induction s as [|c s IH]; cbn; intros d r; [intros [= <- <-]; repeat split; [constructor|by left]|].
  destruct (isDigit c) eqn:E.
  - destruct (span_digits s) as [d' r'] eqn:E'. intros [= <- <-]. destruct (IH _ _ eq_refl) as (-> & Hd & Hr).
    split; [done|]. split; [|done]. constructor; [by apply isDigit_spec|done].
  - intros [= <- <-]. split; [done|]. split; [constructor|by right].
Qed.

Lemma opt_char_ok c s : ∃ x, opt c x ∧ s = x ++ opt_char c s.
Proof.
  unfold opt. destruct s as [|y s]; [exists []; auto|]. cbn. destruct (Z.eqb_spec y c) as [->|]; [exists [c]|exists []]; auto.
Qed.

(** A run of digits before something that is not a digit is what the scan takes. *)
Lemma span_digits_run d t : digits d → (t = [] ∨ isDigit (hd 0 t) = false) → span_digits (d ++ t) = (d, t).
Proof.
  intros Hd Ht. induction Hd as [|c d Hc _ IH]; cbn.
  - destruct t as [|c t]; [done|]. cbn in *. destruct Ht as [?|Ht]; [done|]. by rewrite Ht.
  - apply isDigit_spec in Hc. by rewrite Hc, IH.
Qed.

Lemma digits_app a b : digits (a ++ b) ↔ digits a ∧ digits b.
Proof. apply Forall_app. Qed.

(** Digits, an optional dot, and a rest that continues the same way: the scan
    takes them up to the dot, or, without a dot, joins the next run. *)
Lemma tail_scan s2 d2 s3 : opt cDot d2 → digits s2 → digits s3 →
  ∃ t2 t3, (let '(x2, r) := span_digits (s2 ++ d2 ++ s3) in
            let '(x3, r) := span_digits (opt_char cDot r) in (x2, x3, r)) = (t2, t3, []).
Proof.
  intros [->| ->] H2 H3; cbn [app].
  - exists (s2 ++ s3), []. rewrite <- (app_nil_r (s2 ++ s3)) at 1.
    rewrite span_digits_run; [done|by apply digits_app|by left].
  - exists s2, s3. rewrite span_digits_run; [|done|by right]. cbn [opt_char].
    change (cDot =? cDot) with true. cbn iota. rewrite <- (app_nil_r s3) at 1. rewrite span_digits_run; [done|done|by left].
Qed.

Lemma first_not c t : t ≠ [] → digits t → hd 0 t ≠ c → opt_char c t = t.
Proof. destruct t as [|x t]; [done|]. cbn. intros _ _ H. destruct (Z.eqb_spec x c); done. Qed.

Lemma digits_hd t c : digits t → t ≠ [] → ¬ is_digit c → hd 0 t ≠ c.
Proof. destruct t as [|x t]; [done|]. cbn. intros [Hx _]%Forall_cons _ Hc ->. done. Qed.

Lemma opt_skip c x t : opt c x → ¬ is_digit c → digits t → t ≠ [] → ∀ r, opt_char c (x ++ t ++ r) = t ++ r.
Proof.
  intros Hx Hc Ht Hne r. destruct t as [|y t]; [done|].
  pose proof (digits_hd _ c Ht Hne Hc) as Hh. cbn in Hh. destruct Hx as [->| ->]; cbn.
  - by destruct (Z.eqb_spec y c).
  - by rewrite Z.eqb_refl.
Qed.

Lemma not_digit_V : ¬ is_digit cV. Proof. unfold is_digit, cV. lia. Qed.
Lemma not_digit_dot : ¬ is_digit cDot. Proof. unfold is_digit, cDot. lia. Qed.

Lemma FindStringSubmatch_sound ver s1 s2 s3 : FindStringSubmatch ver = Some (s1, s2, s3) → regex ver s1 s2 s3.
Proof.
  unfold FindStringSubmatch. destruct (span_digits (opt_char cV ver)) as [x1 r1] eqn:E1.
  destruct (Z.eqb_spec (zlen x1) 0) as [|Hn]; [done|].
  destruct (span_digits (opt_char cDot r1)) as [x2 r2] eqn:E2. destruct (span_digits (opt_char cDot r2)) as [x3 r3] eqn:E3.
  destruct r3; [|done]. intros [= <- <- <-].
  destruct (opt_char_ok cV ver) as (v & Hv & Ev), (opt_char_ok cDot r1) as (d1 & Hd1 & Ed1), (opt_char_ok cDot r2) as (d2 & Hd2 & Ed2).
  apply span_digits_ok in E1 as (A1 & B1 & _), E2 as (A2 & B2 & _), E3 as (A3 & B3 & _).
  exists v, d1, d2. rewrite app_nil_r in A3. rewrite Ev, A1, Ed1, A2, Ed2, A3. split; [done|]. split_and!; try done. by intros ->.
Qed.

Lemma FindStringSubmatch_complete ver s1 s2 s3 : regex ver s1 s2 s3 → is_Some (FindStringSubmatch ver).
Proof.
  intros (v & d1 & d2 & -> & Hv & Hd1 & Hd2 & H1 & Hne & H2 & H3). unfold FindStringSubmatch.
  rewrite opt_skip by (done || apply not_digit_V).
  assert (∀ x t, (x ≠ [] ∧ span_digits (s1 ++ d1 ++ s2 ++ d2 ++ s3) = (x, t)) →
    (∃ t2 t3, (let '(x2, r) := span_digits (opt_char cDot t) in
            let '(x3, r) := span_digits (opt_char cDot r) in (x2, x3, r)) = (t2, t3, [])) →
    is_Some (let '(s1, r) := span_digits (s1 ++ d1 ++ s2 ++ d2 ++ s3) in
      if zlen s1 =? 0 then None else let '(s2, r) := span_digits (opt_char cDot r) in
      let '(s3, r) := span_digits (opt_char cDot r) in match r with [] => Some (s1, s2, s3) | _ :: _ => None end)) as G.
  { intros x t [Hx ->] (t2 & t3 & E). destruct (Z.eqb_spec (zlen x) 0) as [E0|_].
    { destruct x; [done|]. unfold zlen in E0. cbn in E0. lia. }
    destruct (span_digits (opt_char cDot t)) as [y2 r2]. destruct (span_digits (opt_char cDot r2)) as [y3 r3].
    injection E as -> -> ->. by eexists. }
  destruct Hd1 as [->| ->]; cbn [app] in *.
  - destruct Hd2 as [->| ->]; cbn [app] in *.
    + apply (G (s1 ++ s2 ++ s3) []); [split; [destruct s1; done|]|by exists [], []].
      rewrite <- (app_nil_r (s1 ++ s2 ++ s3)) at 1. apply span_digits_run; [by rewrite !digits_app|by left].
    + apply (G (s1 ++ s2) (cDot :: s3)); [split; [destruct s1; done|]|].
      * rewrite app_assoc. apply span_digits_run; [by rewrite digits_app|by right].
      * cbn [opt_char]. change (cDot =? cDot) with true. cbn iota. exists s3, [].
        rewrite <- (app_nil_r s3) at 1. rewrite span_digits_run; [done|done|by left].
  - apply (G s1 (cDot :: s2 ++ d2 ++ s3)); [split; [done|]|].
    + apply span_digits_run; [done|by right].
    + cbn [opt_char]. change (cDot =? cDot) with true. cbn iota. by apply tail_scan.
Qed.

Lemma atoi_part_digits d : digits d →
  (∃ v, atoi_part d = Ok v ∧ 0 <= v < 2 ^ 63) ∨ atoi_part d = Err ERange.
Proof.
  intros Hd. unfold atoi_part. destruct (Z.ltb_spec 0 (zlen d)); [|left; by exists 0].
  destruct (parse_dec_digits d) as (v & -> & Hv); [done|by intros ->|].
  destruct (Z.ltb_spec v (2 ^ 63)); [left; by exists v|by right].
Qed.

(** Parsing is the language of the documented expression: a text is refused
    as invalid exactly when it is not an optional v, digits, an optional dot,
    digits, an optional dot, digits; any other text is a range error or a
    version whose fields are uint32. *)
Theorem ParseVersionStr_language ver :
  (ParseVersionStr ver = Err EInvalidVersion ↔ ¬ ∃ s1 s2 s3, regex ver s1 s2 s3) ∧
  (ParseVersionStr ver = Err EInvalidVersion ∨ ParseVersionStr ver = Err ERange ∨
   ∃ s, ParseVersionStr ver = Ok s ∧ semver_ok s).
Proof.
  unfold ParseVersionStr. destruct (FindStringSubmatch ver) as [[[s1 s2] s3]|] eqn:E.
  - apply FindStringSubmatch_sound in E. pose proof E as (v & d1 & d2 & _ & _ & _ & _ & H1 & _ & H2 & H3).
    destruct (atoi_part_digits s1 H1) as [(x1 & -> & _)| ->], (atoi_part_digits s2 H2) as [(x2 & -> & _)| ->],
      (atoi_part_digits s3 H3) as [(x3 & -> & _)| ->];
      (split; [split; [done|intros []; by exists s1, s2, s3]|]); (try by right; left).
    right; right. eexists; split; [done|]. unfold semver_ok; cbn. split_and!; by apply wrap_u_range.
  - split; [|by left]. split; [|done]. intros _ (s1 & s2 & s3 & H). apply FindStringSubmatch_complete in H as [? H]. congruence.
Qed.

Lemma u32_small z : 0 <= z < 2 ^ 32 → u32 z = z.
Proof. apply wrap_u_small. Qed.

(** Printing and parsing are inverse: the text of every version is parsed
    back to it, with or without the prefix v. *)
Theorem ParseVersionStr_String s :
  semver_ok s → ParseVersionStr (Semver_String s) = Ok s ∧ ParseVersionStr (cV :: Semver_String s) = Ok s.
Proof.
  intros (H1 & H2 & H3).
  destruct (AppendUint_digits (major s)) as [D1 N1]; [lia|]. destruct (AppendUint_digits (minor s)) as [D2 N2]; [lia|].
  destruct (AppendUint_digits (patch s)) as [D3 N3]; [lia|].
  assert (∀ v, opt cV v → ParseVersionStr (v ++ Semver_String s) = Ok s) as G; [|split; [apply (G []); by left|apply (G [cV]); by right]].
  intros v Hv. unfold ParseVersionStr, FindStringSubmatch, Semver_String.
  rewrite opt_skip by (done || apply not_digit_V). rewrite span_digits_run by (done || by right).
  assert (∀ x : bytes, x ≠ [] → (zlen x =? 0) = false ∧ (0 <? zlen x) = true) as Hl.
  { intros [|? ?] ?; [done|]. unfold zlen. cbn. split; [apply Z.eqb_neq|apply Z.ltb_lt]; lia. }
  destruct (Hl _ N1) as [-> L1], (Hl _ N2) as [_ L2], (Hl _ N3) as [_ L3].
  cbn [opt_char app]. change (cDot =? cDot) with true. cbn iota. rewrite span_digits_run by (done || by right).
  cbn [opt_char]. change (cDot =? cDot) with true. cbn iota.
  rewrite <- (app_nil_r (AppendUint (patch s))) at 1. rewrite span_digits_run by (done || by left).
  unfold atoi_part. rewrite L1, L2, L3, !parse_dec_AppendUint by lia.
  destruct (Z.ltb_spec (patch s) (2 ^ 63)), (Z.ltb_spec (minor s) (2 ^ 63)), (Z.ltb_spec (major s) (2 ^ 63)); try lia.
  rewrite !u32_small by lia. by destruct s.
Qed.

Lemma ParseVersionStr_String_witness :
  ParseVersionStr (Semver_String (NewSemver 3 0 4294967295)) = Ok (NewSemver 3 0 4294967295) ∧
  ParseVersionStr (cV :: Semver_String (NewSemver 3 0 4294967295)) = Ok (NewSemver 3 0 4294967295).
Proof. apply ParseVersionStr_String. unfold semver_ok. cbn. lia. Defined.
