(* ===== verification/SSFee.v ===== *)
(** * Stake fee rewards of a block (txhelpers/ssfee.go)

    The per-coin split of the fee rewards a block distributes into its miner
    and staker parts, and the fixed-point text of the reward rates.  The
    theorems equate the accumulating loop with a sum over the transactions of
    each coin and marker, and show that the printed rate is the exact quotient
    rounded down to 18 decimals. *)
From stdpp Require Import gmap.
From S2P Require Import Prelude Digits StakeTx.
Open Scope Z_scope.

(** The node library: which transactions distribute fees
    ([DetermineTxType(tx) == TxTypeSSFee]), the marker of an output script
    ([HasSSFeeMarker]), which coin types are SKA ([CoinType.IsSKA]), and the
    output index of the null outpoint ([wire.MaxPrevOutIndex]). *)
Inductive marker := SSFeeMarkerNone | SSFeeMarkerMiner | SSFeeMarkerStaker.
#[export] Instance marker_eq_dec : EqDecision marker.
Proof. solve_decision. Defined.

Class SSFeeLib := {
  isSSFee : MsgTx → bool;
  HasSSFeeMarker : bytes → marker;
  IsSKA : Z → bool;
  MaxPrevOutIndex : Z
}.

(** Both amounts are [*big.Int] that may be nil. *)
Record SSFeeSplit := mkSplit { PoW : option Z; PoS : option Z }.

Section SSFee.
Context {lib : SSFeeLib}.

(** The coin type of the first output that pays SKA. *)
Fixpoint ska_coin (outs : list TxOut) : option Z :=
  match outs with
  | [] => None
  | out :: outs =>
    if IsSKA (to_CoinType out) && bool_decide (is_Some (to_SKAValue out)) then Some (to_CoinType out)
    else ska_coin outs
  end.

(** A coinbase input: it creates value. *)
Definition coinbase_in (vin : TxIn) : bool :=
  (op_Index (ti_PreviousOutPoint vin) =? MaxPrevOutIndex) && bool_decide (op_Hash (ti_PreviousOutPoint vin) = zeroHash).

Definition net_ska (tx : MsgTx) : Z :=
  let net := foldl (λ net vin,
    match ti_SKAValueIn vin with
    | Some v => if coinbase_in vin then net else net - v
    | None => net
    end) 0 (tx_TxIn tx) in
  foldl (λ net out, match to_SKAValue out with Some v => net + v | None => net end) net (tx_TxOut tx).

Definition net_var (tx : MsgTx) : Z :=
  let net := foldl (λ net vin, net - ti_ValueIn vin) 0 (tx_TxIn tx) in
  foldl (λ net out, net + to_Value out) net (tx_TxOut tx).

(** The first marker of the outputs. *)
Fixpoint first_marker (outs : list TxOut) : marker :=
  match outs with
  | [] => SSFeeMarkerNone
  | out :: outs =>
    match HasSSFeeMarker (to_PkScript out) with
    | SSFeeMarkerNone => first_marker outs
    | m => m
    end
  end.

Definition add_net (o : option Z) (net : Z) : option Z := Some (default 0 o + net).

(** One round of the loop. *)
Definition ssfee_tx (totals : gmap Z SSFeeSplit) (tx : MsgTx) : gmap Z SSFeeSplit :=
  if negb (isSSFee tx) then totals
  else if zlen (tx_TxOut tx) =? 0 then totals
  else
    let ct := default 0 (ska_coin (tx_TxOut tx)) in
    let net := match ska_coin (tx_TxOut tx) with Some _ => net_ska tx | None => net_var tx end in
    let split := default (mkSplit None None) (totals !! ct) in
    let split :=
      match first_marker (tx_TxOut tx) with
      | SSFeeMarkerStaker => mkSplit (PoW split) (add_net (PoS split) net)
      | SSFeeMarkerMiner => mkSplit (add_net (PoW split) net) (PoS split)
      | SSFeeMarkerNone => split
      end in
    <[ct := split]> totals.

Definition blockSSFeeTotalsInternal (sTxs : list MsgTx) : option (gmap Z SSFeeSplit) :=
  let totals := foldl ssfee_tx ∅ sTxs in
  if bool_decide (totals = ∅) then None else Some totals.

(** ** The reference definition: sums over the transactions of a coin *)
Definition counted (tx : MsgTx) : bool := isSSFee tx && negb (zlen (tx_TxOut tx) =? 0).
Definition coin_of (tx : MsgTx) : Z := default 0 (ska_coin (tx_TxOut tx)).

(** What a transaction adds: its outputs less its inputs, in the coin it pays;
    SKA created by a coinbase input is not subtracted. *)
Definition net_of (tx : MsgTx) : Z :=
  match ska_coin (tx_TxOut tx) with
  | Some _ => zsum (default 0 ∘ to_SKAValue <$> tx_TxOut tx) -
              zsum (default 0 ∘ ti_SKAValueIn <$> filter (λ i, coinbase_in i = false) (tx_TxIn tx))
  | None => zsum (to_Value <$> tx_TxOut tx) - zsum (ti_ValueIn <$> tx_TxIn tx)
  end.

Definition of_coin (ct : Z) (txs : list MsgTx) : list MsgTx :=
  filter (λ tx, counted tx = true ∧ coin_of tx = ct) txs.
Definition marked (mk : marker) (txs : list MsgTx) : list MsgTx :=
  filter (λ tx, first_marker (tx_TxOut tx) = mk) txs.
(** The sum of a side, nil when no transaction has its marker. *)
Definition side (mk : marker) (txs : list MsgTx) : option Z :=
  match marked mk txs with [] => None | l => Some (zsum (net_of <$> l)) end.
Definition split_of (ct : Z) (txs : list MsgTx) : option SSFeeSplit :=
  match of_coin ct txs with
  | [] => None
  | l => Some (mkSplit (side SSFeeMarkerMiner l) (side SSFeeMarkerStaker l))
  end.

Lemma foldl_sub {A} (f : A → Z) l : ∀ z, foldl (λ net x, net - f x) z l = z - zsum (f <$> l).
Proof. unfold zsum. induction l as [|x l IH]; intros z; cbn; [lia|]. rewrite IH. lia. Qed.
Lemma foldl_add {A} (f : A → Z) l : ∀ z, foldl (λ net x, net + f x) z l = z + zsum (f <$> l).
Proof. unfold zsum. induction l as [|x l IH]; intros z; cbn; [lia|]. rewrite IH. lia. Qed.

Lemma net_code tx :
  match ska_coin (tx_TxOut tx) with Some _ => net_ska tx | None => net_var tx end = net_of tx.
Proof.
  unfold net_of. destruct (ska_coin _).
  - unfold net_ska.
    assert (∀ l z, foldl (λ net out, match to_SKAValue out with Some v => net + v | None => net end) z l =
      z + zsum (default 0 ∘ to_SKAValue <$> l)) as ->.
    { unfold zsum. induction l as [|x l IH]; intros n; cbn; [lia|]. rewrite IH. destruct (to_SKAValue x); cbn; unfold id; lia. }
    assert (∀ l z, foldl (λ net vin, match ti_SKAValueIn vin with Some v => if coinbase_in vin then net else net - v | None => net end) z l =
      z - zsum (default 0 ∘ ti_SKAValueIn <$> filter (λ i, coinbase_in i = false) l)) as ->; [|lia].
    unfold zsum. induction l as [|x l IH]; intros n; [cbn; lia|]. cbn [foldl]. rewrite IH, filter_cons.
    destruct (coinbase_in x), (ti_SKAValueIn x) eqn:E; case_decide; try done; cbn; rewrite ?E; cbn; unfold id; lia.
  - unfold net_var. rewrite foldl_add, foldl_sub. lia.
Qed.

Lemma side_snoc mk txs tx :
  side mk (txs ++ [tx]) =
    if decide (first_marker (tx_TxOut tx) = mk) then add_net (side mk txs) (net_of tx) else side mk txs.
Proof.
  unfold side, marked, add_net. rewrite filter_app. case_decide as E.
  - rewrite filter_cons_True, filter_nil by done. destruct (filter _ txs) as [|y l]; [cbn; f_equal; lia|]. cbn [app default].
    change (y :: l ++ [tx]) with ((y :: l) ++ [tx]). rewrite fmap_app, zsum_app. cbn. unfold id. f_equal. lia.
  - by rewrite filter_cons_False, filter_nil, app_nil_r.
Qed.

Lemma of_coin_snoc ct txs tx :
  of_coin ct (txs ++ [tx]) = of_coin ct txs ++ (if decide (counted tx = true ∧ coin_of tx = ct) then [tx] else []).
Proof. unfold of_coin. by rewrite filter_app. Qed.

Lemma split_of_snoc ct txs tx : counted tx = true → coin_of tx = ct →
  split_of ct (txs ++ [tx]) =
    let l := of_coin ct txs in
    Some (mkSplit (side SSFeeMarkerMiner (l ++ [tx])) (side SSFeeMarkerStaker (l ++ [tx]))).
Proof.
  intros H1 H2. unfold split_of. rewrite of_coin_snoc, decide_True by done. cbn. by destruct (of_coin ct txs).
Qed.

Lemma ssfee_totals txs ct : foldl ssfee_tx ∅ txs !! ct = split_of ct txs.
Proof.
  induction txs as [|tx txs IH] using rev_ind in ct |- *; [done|]. rewrite foldl_snoc. unfold ssfee_tx.
  destruct (isSSFee tx) eqn:E1; cbn [negb]; [destruct (zlen (tx_TxOut tx) =? 0) eqn:E2|].
  1, 3: rewrite IH; unfold split_of; rewrite of_coin_snoc; unfold counted; rewrite decide_False by (rewrite ?E1, ?E2; naive_solver); by rewrite app_nil_r.
  assert (counted tx = true) as Hc by (unfold counted; by rewrite E1, E2). rewrite net_code. fold (coin_of tx).
  destruct (decide (coin_of tx = ct)) as [<-|Hne].
  - rewrite lookup_insert, split_of_snoc by done. cbn zeta. rewrite decide_True by done. f_equal.
    rewrite IH. rewrite !side_snoc. unfold split_of.
    assert (∀ m, side m [] = None) as Hs by done.
    destruct (first_marker (tx_TxOut tx)), (of_coin (coin_of tx) txs) as [|y l] eqn:El; cbn; unfold id; rewrite ?Hs; done.
  - rewrite lookup_insert_ne, IH by done. unfold split_of. rewrite of_coin_snoc, decide_False by naive_solver. by rewrite app_nil_r.
Qed.

(** The fee totals of a block: the loop computes, for every coin type, the
    sums of the net amounts of the fee transactions that pay this coin, one sum
    per marker, nil where no transaction carries the marker; the result is nil
    exactly when the block has no fee transaction with outputs. *)
Theorem BlockSSFeeTotals_sums txs :
  (∀ ct, default ∅ (blockSSFeeTotalsInternal txs) !! ct = split_of ct txs) ∧
  (blockSSFeeTotalsInternal txs = None ↔ filter (λ tx, counted tx = true) txs = []).
Proof.
  unfold blockSSFeeTotalsInternal. split.
  - intros ct. rewrite <- ssfee_totals. case_bool_decide as E; [by rewrite E|done].
  - case_bool_decide as E; (split; [|]); try done.
    + intros _. destruct (filter _ txs) as [|tx l] eqn:F; [done|]. exfalso.
      assert (tx ∈ filter (λ tx, counted tx = true) txs) as [Hc Hin]%list_elem_of_filter by (rewrite F; left).
      pose proof (ssfee_totals txs (coin_of tx)) as G. rewrite E, lookup_empty in G. unfold split_of in G.
      destruct (of_coin (coin_of tx) txs) eqn:O; [|done].
      assert (tx ∈ of_coin (coin_of tx) txs) as H by (by apply list_elem_of_filter). rewrite O in H. by apply elem_of_nil in H.
    + intros F. destruct E. apply map_eq. intros ct. rewrite ssfee_totals, lookup_empty. unfold split_of.
      destruct (of_coin ct txs) as [|tx l] eqn:O; [done|].
      assert (tx ∈ of_coin ct txs) as [[Hc _] Hin]%list_elem_of_filter by (rewrite O; left).
      assert (tx ∈ filter (λ tx, counted tx = true) txs) as H by (by apply list_elem_of_filter). rewrite F in H. by apply elem_of_nil in H.
Qed.
End SSFee.

(** ** Texts of amounts and rates *)
Definition FormatSKAAtoms (skaAtoms : option Z) : bytes :=
  match skaAtoms with
  | Some a => if a <=? 0 then bytes_of_string "0" else AppendUint a
  | None => bytes_of_string "0"
  end.

Definition ssfeeVarScale : Z := 10 ^ 8.
Definition ssfeeDp : Z := 10 ^ 18.

(** [Div] and [DivMod] are Euclidean; the operands are positive here. *)
Definition FormatSKAPerVAR (skaAtoms : option Z) (varAtoms : Z) : bytes :=
  match skaAtoms with
  | Some a =>
    if (varAtoms <=? 0) || (a <=? 0) then bytes_of_string "0.000000000000000000" else
    let resultScaled := a * ssfeeVarScale / varAtoms in
    let intPart := resultScaled / ssfeeDp in
    let fracPart := resultScaled mod ssfeeDp in
    AppendUint intPart ++ [46] ++ pad0 18 (i64 fracPart)
  | None => bytes_of_string "0.000000000000000000"
  end.

(** [BlockSummary] by the field that is read, a Go map of splits by coin. *)
Record BlockSummary := mkSummary { SSFeeTotalsByCoin : gmap Z SSFeeSplit }.
Definition SSFeeCoinTypes (summaries : list BlockSummary) : gset Z :=
  foldl (λ out s, out ∪ dom (SSFeeTotalsByCoin s)) ∅ summaries.

Lemma SSFeeCoinTypes_spec l ct :
  ct ∈ SSFeeCoinTypes l ↔ ∃ s, s ∈ l ∧ is_Some (SSFeeTotalsByCoin s !! ct).
Proof.
  unfold SSFeeCoinTypes. induction l as [|s l IH] using rev_ind; [set_solver|].
  rewrite foldl_snoc, elem_of_union, IH, elem_of_dom. setoid_rewrite elem_of_app. setoid_rewrite list_elem_of_singleton. naive_solver.
Qed.

Example rate_third : FormatSKAPerVAR (Some 1000000000000000000) 300000000 = bytes_of_string "0.333333333333333333".
Proof. reflexivity. Qed.

(** C34: the printed rate is exact: for every amount and divisor the text is
    digits, a point and 18 digits, and read as a number scaled by 1e18 it is the
    quotient of SKA coins by VAR coins rounded down (zero where either amount
    is not positive). *)
Theorem FormatSKAPerVAR_exact (ska : option Z) (var : Z) :
  ∃ i f, FormatSKAPerVAR ska var = i ++ [46] ++ f ∧ digits i ∧ i ≠ [] ∧ digits f ∧ length f = 18%nat ∧
    let r := dec_value i * 10 ^ 18 + dec_value f in
    if (0 <? var) && (0 <? default 0 ska) then r * var <= default 0 ska * 10 ^ 8 < (r + 1) * var else r = 0.
Proof.
  assert (∃ i f, bytes_of_string "0.000000000000000000" = i ++ [46] ++ f ∧ digits i ∧ i ≠ [] ∧ digits f ∧ length f = 18%nat ∧
    dec_value i * 10 ^ 18 + dec_value f = 0) as Hz.
  { exists [48], (replicate 18 48). split_and!; try done; [by apply Forall_singleton|by apply Forall_replicate]. }
  unfold FormatSKAPerVAR. destruct ska as [a|]; cbn [default]; unfold id; [|by rewrite andb_false_r].
  destruct (Z.leb_spec var 0), (Z.ltb_spec 0 var); try lia; cbn [orb andb]; [done|].
  destruct (Z.leb_spec a 0), (Z.ltb_spec 0 a); try lia; [done|].
  set (q := a * ssfeeVarScale / var). assert (0 <= q) by (apply Z.div_pos; unfold ssfeeVarScale; lia).
  pose proof (Z.mod_pos_bound q ssfeeDp ltac:(done)) as Hm. pose proof (Z.div_mod q ssfeeDp ltac:(done)) as Hq.
  assert (i64 (q mod ssfeeDp) = q mod ssfeeDp) as ->.
  { assert (ssfeeDp < 2 ^ (64 - 1)) by done. apply wrap_s_small; [done|]. generalize dependent (q mod ssfeeDp). lia. }
  assert (0 <= q / ssfeeDp) by (by apply Z.div_pos). destruct (AppendUint_digits (q / ssfeeDp)) as [Hd Hne]; [done|].
  destruct (pad0_spec 18 (q mod ssfeeDp)) as (Pd & Pl & Pv); [exact Hm|lia|].
  exists (AppendUint (q / ssfeeDp)), (pad0 18 (q mod ssfeeDp)). split; [done|]. split_and!; try done.
  all: rewrite Pv, dec_value_AppendUint by done; unfold ssfeeDp in *.
  all: replace (q / 10 ^ 18 * 10 ^ 18 + q mod 10 ^ 18) with q by lia.
  all: pose proof (Z.div_mod (a * ssfeeVarScale) var ltac:(lia)) as E; fold q in E.
  all: pose proof (Z.mod_pos_bound (a * ssfeeVarScale) var ltac:(lia)); unfold ssfeeVarScale in *; nia.
Qed.
