(* ===== verification/TxAmounts.v ===== *)
(** * Hash lists, amounts and fees of transactions (txhelpers/txhelpers.go)

    Filtering a slice of hashes in place, medians, the output totals of a
    transaction by coin, fee rates, and the vote fields of a script.  The
    theorems show that the in-place filter is the filter, what the per-coin
    totals add up to, and the SKA fee rate as a quotient. *)
From stdpp Require Import gmap strings sorting.
From S2P Require Import Prelude StakeTx.
Open Scope Z_scope.

(** The node library: the SKA coin types and the serialized size of a
    transaction. *)
Class CoinLib := { CoinIsSKA : Z → bool; SerializeSize : MsgTx → Z }.

(** ** Slices of hashes *)
Fixpoint HashInSlice (h : Hash) (list : list Hash) : bool :=
  match list with
  | [] => false
  | hash :: list => if bool_decide (h = hash) then true else HashInSlice h list
  end.

(** The loop of FilterHashSlice over the backing array: [i] is read, [w] is
    where the next kept element is written. *)
Fixpoint filter_loop (doRemove : Hash → bool) (n i w : nat) (arr : list Hash) : nat * list Hash :=
  match n with
  | O => (w, arr)
  | S n =>
    match arr !! i with
    | None => (w, arr)
    | Some h => if doRemove h then filter_loop doRemove n (S i) w arr else filter_loop doRemove n (S i) (S w) (<[w := h]> arr)
    end
  end.
(** The result is the slice of the first [w] elements of the same array. *)
Definition FilterHashSlice (s : list Hash) (doRemove : Hash → bool) : list Hash * list Hash :=
  let '(w, arr) := filter_loop doRemove (length s) 0 0 s in (take w arr, arr).

Lemma HashInSlice_elem h l : HashInSlice h l = bool_decide (h ∈ l).
Proof.
  induction l as [|x l IH]; cbn; [by rewrite bool_decide_false by apply not_elem_of_nil|].
  rewrite IH. case_bool_decide as E1; case_bool_decide as E2; try done; case_bool_decide as E3; set_solver.
Qed.

Lemma filter_loop_spec f n : ∀ kept junk todo i w arr,
  arr = kept ++ junk ++ todo → length kept = w → i = (w + length junk)%nat → length todo = n →
  ∃ junk', filter_loop f n i w arr = ((w + length (filter (λ h, f h = false) todo))%nat,
    kept ++ filter (λ h, f h = false) todo ++ junk') ∧
    length junk' = (length junk + length (filter (λ h, f h = true) todo))%nat.
Proof.
  induction n as [|n IH]; intros kept junk todo i w arr -> Hw -> Hn.
  - destruct todo; [|done]. exists junk. cbn. by rewrite app_nil_r, !Nat.add_0_r.
  - destruct todo as [|h todo]; [done|]. injection Hn as Hn. cbn [filter_loop].
    assert ((kept ++ junk ++ h :: todo) !! (w + length junk)%nat = Some h) as ->.
    { rewrite app_assoc, lookup_app_r by (rewrite length_app; lia). rewrite length_app. by replace (w + length junk - _)%nat with 0%nat by lia. }
    destruct (f h) eqn:Ef.
    + rewrite (filter_cons_False (λ h, f h = false)) by congruence. rewrite (filter_cons_True (λ h, f h = true)) by done.
      destruct (IH kept (junk ++ [h]) todo (S (w + length junk)) w (kept ++ junk ++ h :: todo)) as (j & E & L).
      * by rewrite <- app_assoc. * done. * rewrite length_app. cbn. lia. * done.
      * exists j. split; [done|]. rewrite L, length_app. cbn. lia.
    + rewrite (filter_cons_True (λ h, f h = false)) by done. rewrite (filter_cons_False (λ h, f h = true)) by congruence.
      assert (∃ junk1, <[w := h]> (kept ++ junk ++ h :: todo) = (kept ++ [h]) ++ junk1 ++ todo ∧ length junk1 = length junk) as (j1 & -> & L1).
      { rewrite insert_app_r_alt by lia. replace (w - length kept)%nat with 0%nat by lia. destruct junk as [|x junk].
        - exists []. by rewrite <- app_assoc.
        - exists (junk ++ [h]). cbn. split; [by rewrite <- !app_assoc|]. rewrite length_app. cbn. lia. }
      destruct (IH (kept ++ [h]) j1 todo (S (w + length junk)) (S w) ((kept ++ [h]) ++ j1 ++ todo)) as (j & E & L).
      * done. * rewrite length_app. cbn. lia. * lia. * done.
      * exists j. split; [|lia]. rewrite E. cbn. f_equal; [lia|]. by rewrite <- app_assoc.
Qed.

(** Filtering in place is filtering: although the kept hashes are written
    over the array that is still being read, the result is the hashes that are
    not to be removed, in order; the array keeps its length, with the result at
    its start. *)
Theorem FilterHashSlice_filter (s : list Hash) (doRemove : Hash → bool) :
  ∃ rest, FilterHashSlice s doRemove =
    (filter (λ h, doRemove h = false) s, filter (λ h, doRemove h = false) s ++ rest) ∧
  length rest = length (filter (λ h, doRemove h = true) s).
Proof.
  unfold FilterHashSlice. destruct (filter_loop_spec doRemove (length s) [] [] s 0 0 s) as (j & -> & L); try done.
  exists j. split; [|done]. cbn [app Nat.add]. by rewrite take_app_length.
Qed.

(** ** Medians *)
(** The slice is sorted in place. *)
Definition sortAmounts (s : list Z) : list Z := merge_sort Z.le s.
Definition MedianAmount (s : list Z) : Z :=
  if Nat.eqb (length s) 0 then 0 else
  let s := sortAmounts s in
  let middle := (length s / 2)%nat in
  if negb (Nat.eqb (length s mod 2) 0) then default 0 (s !! middle)
  else Z.quot (i64 (default 0 (s !! middle) + default 0 (s !! (middle - 1)%nat))) 2.

(** ** Output totals and fees *)
Definition sumIn (tx : MsgTx) : Z := foldl (λ amtIn i, i64 (amtIn + ti_ValueIn i)) 0 (tx_TxIn tx).
Definition sumOut (tx : MsgTx) : Z := foldl (λ amtOut o, i64 (amtOut + to_Value o)) 0 (tx_TxOut tx).
Definition TxFee (tx : MsgTx) : Z := i64 (sumIn tx - sumOut tx).
Definition FeeRate (amtIn amtOut sizeBytes : Z) : Z :=
  if sizeBytes =? 0 then -1 else i64 (Z.quot (i64 (1000 * i64 (amtIn - amtOut))) sizeBytes).

Section Coins.
Context {lib : CoinLib}.

Definition TxFeeRate (tx : MsgTx) : Z * Z :=
  (i64 (sumIn tx - sumOut tx), FeeRate (sumIn tx) (sumOut tx) (i64 (SerializeSize tx))).

(** VAR is coin type 0. *)
Definition TotalOutFromMsgTx (tx : MsgTx) : Z :=
  foldl (λ amtOut v, if to_CoinType v =? 0 then i64 (amtOut + to_Value v) else amtOut) 0 (tx_TxOut tx).

Definition add_total (totals : gmap Z Z) (v : TxOut) : gmap Z Z :=
  match to_SKAValue v with
  | Some amt => if CoinIsSKA (to_CoinType v) then <[to_CoinType v := default 0 (totals !! to_CoinType v) + amt]> totals else totals
  | None => totals
  end.
Definition SKATotalsFromMsgTx (tx : MsgTx) : gmap Z string := bigString <$> foldl add_total ∅ (tx_TxOut tx).

Fixpoint skaCoinTypeOf (outs : list TxOut) : option Z :=
  match outs with
  | [] => None
  | v :: outs => if CoinIsSKA (to_CoinType v) then Some (to_CoinType v) else skaCoinTypeOf outs
  end.

(** [None] is the nil map; otherwise the one entry. *)
Definition SKAFeeRateMapFromAtoms (feeAtoms : string) (tx : MsgTx) : option (Z * string) :=
  if bool_decide (feeAtoms = ""%string) then None else
  match skaCoinTypeOf (tx_TxOut tx) with
  | None => None
  | Some ct =>
    if SerializeSize tx <=? 0 then None else
    match SetString10 feeAtoms with
    | None => None
    | Some fee =>
      let fee := if fee <? 0 then 0 else fee in
      Some (ct, bigString (Z.quot (fee * 1000) (SerializeSize tx)))
    end
  end.

(** The inputs by their [SKAAmountIn] texts. *)
Definition SKAFeeRateMapFromVerboseVin (vin : list string) (tx : MsgTx) : option (Z * string) :=
  match skaCoinTypeOf (tx_TxOut tx) with
  | None => None
  | Some ct =>
    let totalIn := foldl (λ t s,
      if bool_decide (s = ""%string) then t else match SetString10 s with Some v => t + v | None => t end) 0 vin in
    let totalOut := foldl (λ t o,
      match to_SKAValue o with Some v => if to_CoinType o =? ct then t + v else t | None => t end) 0 (tx_TxOut tx) in
    SKAFeeRateMapFromAtoms (bigString (totalIn - totalOut)) tx
  end.

(** ** Behaviour *)
(** The amounts of a coin. *)
Definition coin_amounts (ct : Z) (outs : list TxOut) : list Z :=
  omap (λ o, if to_CoinType o =? ct then to_SKAValue o else None) outs.

Lemma add_totals_lookup outs ct : CoinIsSKA ct = true →
  foldl add_total ∅ outs !! ct = match coin_amounts ct outs with [] => None | l => Some (zsum l) end.
Proof.
  intros Hs. induction outs as [|o outs IH] using rev_ind; [done|]. rewrite foldl_snoc. unfold add_total, coin_amounts in *.
  rewrite omap_app. cbn [omap list_omap]. destruct (to_SKAValue o) as [amt|] eqn:Eo.
  - destruct (Z.eqb_spec (to_CoinType o) ct) as [->|Hne].
    + rewrite Hs, lookup_insert_eq, IH. destruct (omap _ outs) as [|y l]; cbn [default app]; [unfold id; cbn; f_equal; lia|].
      change (y :: l ++ [amt]) with ((y :: l) ++ [amt]). rewrite zsum_snoc. done.
    + rewrite app_nil_r. destruct (CoinIsSKA (to_CoinType o)); [by rewrite lookup_insert_ne|done].
  - rewrite IH. destruct (to_CoinType o =? ct); by rewrite app_nil_r.
Qed.

Lemma add_totals_other outs ct : CoinIsSKA ct = false → foldl add_total ∅ outs !! ct = None.
Proof.
  intros Hs. induction outs as [|o outs IH] using rev_ind; [done|]. rewrite foldl_snoc. unfold add_total at 1.
  destruct (to_SKAValue o); [|done]. destruct (CoinIsSKA (to_CoinType o)) eqn:E; [|done].
  rewrite lookup_insert_ne; [done|]. congruence.
Qed.

(** The SKA totals of a transaction: for every coin type, an entry exactly
    when it is an SKA type that an output pays with an amount, and then the
    decimal text of the sum of those amounts, which reads back as that sum. *)
Theorem SKATotals_sums (tx : MsgTx) (ct : Z) :
  SKATotalsFromMsgTx tx !! ct =
    (if CoinIsSKA ct then match coin_amounts ct (tx_TxOut tx) with [] => None | l => Some (bigString (zsum l)) end else None) ∧
  (SKATotalsFromMsgTx tx !! ct ≫= SetString10) =
    (if CoinIsSKA ct then match coin_amounts ct (tx_TxOut tx) with [] => None | l => Some (zsum l) end else None).
Proof.
  assert (SKATotalsFromMsgTx tx !! ct =
    if CoinIsSKA ct then match coin_amounts ct (tx_TxOut tx) with [] => None | l => Some (bigString (zsum l)) end else None) as E.
  { unfold SKATotalsFromMsgTx. rewrite lookup_fmap. destruct (CoinIsSKA ct) eqn:Hs.
    - rewrite add_totals_lookup by done. by destruct (coin_amounts _ _).
    - by rewrite add_totals_other. }
  split; [done|]. rewrite E. destruct (CoinIsSKA ct); [|done]. destruct (coin_amounts _ _); [done|]. apply SetString10_bigString.
Qed.

Lemma fold_coin outs ct n : foldl (λ t o,
      match to_SKAValue o with Some v => if to_CoinType o =? ct then t + v else t | None => t end) n outs = n + zsum (coin_amounts ct outs).
Proof.
  unfold coin_amounts. revert n. induction outs as [|o outs IH]; intros n; [cbn; lia|]. cbn [foldl omap list_omap]. rewrite IH.
  destruct (to_CoinType o =? ct), (to_SKAValue o); cbn; fold (zsum (omap (λ o, if to_CoinType o =? ct then to_SKAValue o else None) outs)); lia.
Qed.

(** The SKA fee rate of a transaction with an SKA output and a positive size:
    what its inputs bring in less what its outputs of that coin pay, at least
    zero, times 1000 over the size, rounded down; inputs without a readable
    amount count nothing. *)
Theorem SKAFeeRate_quotient (vin : list string) (tx : MsgTx) (ct : Z) :
  skaCoinTypeOf (tx_TxOut tx) = Some ct → 0 < SerializeSize tx →
  ∃ rate, SKAFeeRateMapFromVerboseVin vin tx = Some (ct, bigString rate) ∧
    let fee := Z.max 0 (zsum (omap SetString10 vin) - zsum (coin_amounts ct (tx_TxOut tx))) in
    rate = fee * 1000 / SerializeSize tx.
Proof.
  intros Hct Hs. unfold SKAFeeRateMapFromVerboseVin. rewrite Hct, fold_coin.
  assert (∀ l n, foldl (λ t s, if bool_decide (s = ""%string) then t else match SetString10 s with Some v => t + v | None => t end) n l =
    n + zsum (omap SetString10 l)) as ->.
  { induction l as [|s l IH]; intros n; [cbn; lia|]. cbn [foldl omap list_omap]. rewrite IH.
    case_bool_decide as E; [subst s; cbn|destruct (SetString10 s); cbn]; fold (zsum (omap SetString10 l)); lia. }
  unfold SKAFeeRateMapFromAtoms. rewrite bool_decide_false.
  2: apply bigString_nonempty.
  rewrite Hct, SetString10_bigString. destruct (Z.leb_spec (SerializeSize tx) 0); [lia|].
  eexists. split; [reflexivity|]. cbn zeta. rewrite !Z.add_0_l. destruct (Z.ltb_spec (zsum (omap SetString10 vin) - zsum (coin_amounts ct (tx_TxOut tx))) 0).
  - by rewrite Z.max_l by lia.
  - rewrite Z.max_r by lia. apply Z.quot_div_nonneg; lia.
Qed.
End Coins.

Module Witness.
#[export] Instance toyCoins : CoinLib := { CoinIsSKA c := 0 <? c; SerializeSize _ := 250 }.
Definition ska_tx : MsgTx := mkTx [] [] [mkTxOut 0 1 (Some 900) []; mkTxOut 0 1 (Some 50) []].
Lemma SKAFeeRate_quotient_witness :
  ∃ rate, SKAFeeRateMapFromVerboseVin ["1000"; ""]%string ska_tx = Some (1, bigString rate) ∧ rate = 200.
Proof.
  destruct (SKAFeeRate_quotient ["1000"; ""]%string ska_tx 1) as (r & H & E); [reflexivity|cbn; lia|].
  exists r. split; [exact H|]. rewrite E. reflexivity.
Defined.
End Witness.

(** ** The median *)
Lemma sortAmounts_perm s s' : s ≡ₚ s' → sortAmounts s = sortAmounts s'.
Proof.
  intros Hp. unfold sortAmounts. eapply (StronglySorted_unique Z.le).
  - apply (StronglySorted_merge_sort _).
  - apply (StronglySorted_merge_sort _).
  - by rewrite !merge_sort_Permutation.
Qed.

(** The median does not depend on the order of the slice. *)
Lemma MedianAmount_perm s s' : s ≡ₚ s' → MedianAmount s = MedianAmount s'.
Proof. intros Hp. unfold MedianAmount. by rewrite (sortAmounts_perm s s' Hp), Hp. Qed.

Lemma sorted_halves (l : list Z) m x : StronglySorted Z.le l → l !! m = Some x →
  Forall (λ y, y <= x) (take m l) ∧ Forall (λ y, x <= y) (drop m l).
Proof.
  intros Hs Hx. rewrite <- (take_drop_middle l m x Hx) in Hs. apply StronglySorted_app in Hs as (H1 & _ & H2).
  apply StronglySorted_inv in H2 as [_ H2]. split.
  - apply Forall_forall. intros y Hy. apply H1; [done|left].
  - rewrite (drop_S l x m Hx). constructor; [done|exact H2].
Qed.

(** The median separates the halves: when no sum of two amounts overflows,
    the sorted slice splits in the middle, everything before is at most the
    median and everything after at least; of an empty slice it is zero. *)
Theorem MedianAmount_separates (s : list Z) :
  Forall (λ x, - 2 ^ 62 <= x < 2 ^ 62) s →
  MedianAmount [] = 0 ∧
  ∃ lo hi, s ≡ₚ lo ++ hi ∧ length lo = (length s / 2)%nat ∧
    Forall (λ y, y <= MedianAmount s) lo ∧ Forall (λ y, MedianAmount s <= y) hi.
Proof.
  intros Hb. split; [done|]. unfold MedianAmount. set (l := sortAmounts s).
  assert (l ≡ₚ s) as Hp by apply merge_sort_Permutation.
  assert (StronglySorted Z.le l) as Hsort by (apply (StronglySorted_merge_sort _)).
  assert (length l = length s) as Hlen by (by rewrite Hp). set (m := (length l / 2)%nat).
  destruct (Nat.eqb_spec (length s) 0) as [E|Hne].
  { exists [], []. apply nil_length_inv in E as ->. done. }
  assert (m < length l)%nat as Hm by (apply Nat.div_lt; lia).
  exists (take m l), (drop m l). rewrite take_drop. split; [done|]. split; [rewrite length_take, <- Hlen; fold m; lia|].
  destruct (lookup_lt_is_Some_2 l m Hm) as [x Hx]. destruct (sorted_halves l m x Hsort Hx) as [H1 H2].
  rewrite Hx. cbn [default]. unfold id. destruct (Nat.eqb_spec (length l mod 2) 0) as [Ev|]; cbn [negb]; [|done].
  pose proof (Nat.div_mod (length l) 2 ltac:(lia)) as Hdm. fold m in Hdm.
  destruct (lookup_lt_is_Some_2 l (m - 1)) as [y Hy]; [lia|]. rewrite Hy. cbn [default].
  destruct (sorted_halves l (m - 1) y Hsort Hy) as [H3 H4].
  assert (y <= x) as Hyx.
  { apply (Forall_lookup_1 _ _ 1%nat x) in H4; [done|]. rewrite lookup_drop. by replace (m - 1 + 1)%nat with m by lia. }
  assert (Forall (λ x, - 2 ^ 62 <= x < 2 ^ 62) l) as Hbl by (by rewrite Hp).
  pose proof (Forall_lookup_1 _ _ _ _ Hbl Hx) as Bx. pose proof (Forall_lookup_1 _ _ _ _ Hbl Hy) as By. cbn beta in Bx, By.
  assert (i64 (x + y) = x + y) as -> by (apply (wrap_s_small 64); lia).
  assert (y <= Z.quot (x + y) 2 <= x) as Hq.
  { pose proof (Z.quot_rem' (x + y) 2). pose proof (Z.rem_bound_abs (x + y) 2 ltac:(lia)). lia. }
  split.
  - assert (take m l = take (m - 1) l ++ [y]) as ->.
    { replace m with (S (m - 1)) at 1 by lia. by apply take_S_r. }
    apply Forall_app. split; [|constructor; [lia|constructor]]. eapply Forall_impl; [exact H3|]. cbn. lia.
  - eapply Forall_impl; [exact H2|]. cbn. lia.
Qed.

Lemma MedianAmount_separates_witness : MedianAmount [] = 0 ∧
  ∃ lo hi, [5; 1; 4; 2] ≡ₚ lo ++ hi ∧ length lo = (length [5; 1; 4; 2] / 2)%nat ∧
    Forall (λ y, y <= MedianAmount [5; 1; 4; 2]) lo ∧ Forall (λ y, MedianAmount [5; 1; 4; 2] <= y) hi.
Proof. apply (MedianAmount_separates [5; 1; 4; 2]). repeat constructor; lia. Defined.

(** ** Vote fields of a script *)
(** [binary.LittleEndian] on the bytes of the script; the absent version is the
    node library's constant. *)
Definition VoteVersion (absent : Z) (pkScript : bytes) : Z :=
  if zlen pkScript <? 8 then absent else le_val (take 4 (drop 4 pkScript)).
Definition SSGenVoteBits (tx : MsgTx) : option Z :=
  match slice_at (tx_TxOut tx) 1 with
  | None => None
  | Some o => if zlen (to_PkScript o) <? 8 then None else Some (le_val (take 2 (drop 2 (to_PkScript o))))
  end.
