(* ===== verification/MempoolVotes.v ===== *)
(** * Votes in the mempool (explorer/types/explorertypes.go)

    The index a vote receives by the block it validates and the ticket it
    spends, the tally of the votes on the last block and its status.  The
    theorems show that the indexes of a block's tickets are exactly 1..n, that
    a known ticket keeps its index, and that a block is reported affirmed or
    rejected exactly by a majority of the seats. *)
From stdpp Require Import gmap strings.
From S2P Require Import Prelude.
Open Scope Z_scope.

Definition VoteReject : Z := -1.
Definition VoteAffirm : Z := 1.
Definition VoteMissing : Z := 0.

Record BlockValidation := mkValidation { bv_Hash : string; bv_Height : Z; bv_Validity : bool }.

(** The fields of a vote the mempool code reads and writes; the version, bits
    and agenda choices are only displayed. *)
Record VoteInfo := mkVote {
  Validation : BlockValidation; TicketSpent : string; MempoolTicketIndex : Z; ForLastBlock : bool
}.

#[export] Instance BlockValidation_eq_dec : EqDecision BlockValidation.
Proof. solve_decision. Defined.
#[export] Instance VoteInfo_eq_dec : EqDecision VoteInfo.
Proof. solve_decision. Defined.

Definition ForBlock (v : BlockValidation) (blockHash : string) : bool :=
  negb (bool_decide (blockHash = ""%string)) && bool_decide (blockHash = bv_Hash v).
Definition VotesOnBlock (vi : VoteInfo) (blockHash : string) : bool := ForBlock (Validation vi) blockHash.

Definition set_index (i : Z) (vi : VoteInfo) : VoteInfo := mkVote (Validation vi) (TicketSpent vi) i (ForLastBlock vi).
Definition set_forLast (b : bool) (vi : VoteInfo) : VoteInfo :=
  mkVote (Validation vi) (TicketSpent vi) (MempoolTicketIndex vi) b.

(** ** Ticket indexes *)
Abbreviation TicketIndex := (gmap string Z).
Abbreviation BlockValidatorIndex := (gmap string (gmap string Z)).

Definition SetTicketIndex (ticketSpendInds : BlockValidatorIndex) (vi : VoteInfo) : BlockValidatorIndex * VoteInfo :=
  let startInd := 1 in
  let h := bv_Hash (Validation vi) in
  match ticketSpendInds !! h with
  | Some idxs =>
    match idxs !! TicketSpent vi with
    | Some idx => (ticketSpendInds, set_index idx vi)
    | None =>
      let idx := Z.of_nat (size idxs) + startInd in
      (<[h := <[TicketSpent vi := idx]> idxs]> ticketSpendInds, set_index idx vi)
    end
  | None => (<[h := {[TicketSpent vi := startInd]}]> ticketSpendInds, set_index startInd vi)
  end.

(** ** Tallies *)
Record VoteTally := mkTally { TicketsPerBlock : Z; Marks : list bool }.

Definition Mark (tally : VoteTally) (vote : bool) : VoteTally := mkTally (TicketsPerBlock tally) (Marks tally ++ [vote]).

(** The loop over the marks: votes, up, down. *)
Fixpoint count_marks (marks : list bool) (st : list Z * Z * Z) : list Z * Z * Z :=
  match marks with
  | [] => st
  | affirmed :: marks =>
    let '(votes, up, down) := st in
    count_marks marks (if affirmed : bool then (votes ++ [VoteAffirm], up + 1, down) else (votes ++ [VoteReject], up, down + 1))
  end.

Definition Status (tally : VoteTally) : list Z * Z :=
  let '(votes, up, down) := count_marks (Marks tally) ([], 0, 0) in
  let votes := votes ++ replicate (Z.to_nat (TicketsPerBlock tally - zlen votes)) VoteMissing in
  let threshold := Z.quot (TicketsPerBlock tally) 2 in
  (votes, if threshold <? up then VoteAffirm else if threshold <? down then VoteReject else 0).

Definition Affirmations (tally : VoteTally) : Z := foldl (λ c affirmed, if affirmed : bool then c + 1 else c) 0 (Marks tally).
Definition VoteCount (tally : VoteTally) : Z := zlen (Marks tally).

Record VotingInfo := mkVoting {
  TicketsVoted : Z; MaxVotesPerBlock : Z; VotedTickets : gmap string bool; VoteTallys : gmap string VoteTally
}.

Definition NewVotingInfo (votesPerBlock : Z) : VotingInfo := mkVoting 0 votesPerBlock ∅ ∅.

(** [make([]bool, 1, MaxVotesPerBlock)] panics when the capacity is zero:
    [None]. *)
Definition Tally (vi : VotingInfo) (vinfo : VoteInfo) : option VotingInfo :=
  let h := bv_Hash (Validation vinfo) in
  let put t := mkVoting (TicketsVoted vi) (MaxVotesPerBlock vi) (VotedTickets vi) (<[h := t]> (VoteTallys vi)) in
  match VoteTallys vi !! h with
  | Some t => Some (put (Mark t (bv_Validity (Validation vinfo))))
  | None =>
    if MaxVotesPerBlock vi <? 1 then None
    else Some (put (mkTally (MaxVotesPerBlock vi) [bv_Validity (Validation vinfo)]))
  end.

Definition BlockStatus (vi : VotingInfo) (hash : string) : list Z * Z :=
  match VoteTallys vi !! hash with
  | Some tally => Status tally
  | None => (replicate (Z.to_nat (MaxVotesPerBlock vi)) VoteMissing, VoteMissing)
  end.

(** The update ParseTxns and TxHandler make for a vote: only a vote on the last
    block with a ticket that has not voted yet counts.  The flag says whether
    it did. *)
Definition voted (vi : VotingInfo) (t : string) : bool := default false (VotedTickets vi !! t).
Definition countVote (vi : VotingInfo) (vinfo : VoteInfo) : option (VotingInfo * bool) :=
  if ForLastBlock vinfo && negb (voted vi (TicketSpent vinfo)) then
    vi' ← Tally (mkVoting (u16 (TicketsVoted vi + 1)) (MaxVotesPerBlock vi)
                   (<[TicketSpent vinfo := true]> (VotedTickets vi)) (VoteTallys vi)) vinfo;
    Some (vi', true)
  else Some (vi, false).

(** ** The indexes *)
(** The indexes of a block's tickets are 1..n, each used once. *)
Definition index_ok (m : TicketIndex) : Prop :=
  m ≠ ∅ ∧ (∀ t i, m !! t = Some i → 1 <= i <= Z.of_nat (size m)) ∧
  (∀ t1 t2 i, m !! t1 = Some i → m !! t2 = Some i → t1 = t2).
Definition indexes_ok (inds : BlockValidatorIndex) : Prop := ∀ h m, inds !! h = Some m → index_ok m.

Lemma indexes_ok_empty : indexes_ok ∅.
Proof. by intros h m. Qed.

Lemma index_ok_insert m t : index_ok m → m !! t = None → index_ok (<[t := Z.of_nat (size m) + 1]> m).
Proof.
  intros (Hne & Hr & Hi) Ht. unfold index_ok. rewrite map_size_insert_None by done. split; [apply insert_non_empty|]. split.
  - intros t' i [[-> <-]|[Hn H]]%lookup_insert_Some; [lia|]. specialize (Hr _ _ H). lia.
  - intros t1 t2 i [[-> <-]|[Hn1 H1]]%lookup_insert_Some [[-> E]|[Hn2 H2]]%lookup_insert_Some; try done.
    + specialize (Hr _ _ H2). lia.
    + subst i. specialize (Hr _ _ H1). lia.
    + by apply (Hi _ _ i).
Qed.

Lemma SetTicketIndex_ok inds vi : indexes_ok inds →
  let '(inds', vi') := SetTicketIndex inds vi in
  indexes_ok inds' ∧
  (∃ m, inds' !! bv_Hash (Validation vi) = Some m ∧ m !! TicketSpent vi = Some (MempoolTicketIndex vi')) ∧
  (∀ h t i, (m ← inds !! h; (m : TicketIndex) !! t) = Some i → (m ← inds' !! h; (m : TicketIndex) !! t) = Some i).
Proof.
  intros Hok. unfold SetTicketIndex. set (h := bv_Hash (Validation vi)).
  destruct (inds !! h) as [m|] eqn:Eh; [destruct (m !! TicketSpent vi) as [i|] eqn:Et|]; cbn.
  - split; [done|]. split; [by exists m|done].
  - split; [|split].
    + intros h' m' [[-> <-]|[_ H]]%lookup_insert_Some; [|by eapply Hok]. apply index_ok_insert; [by eapply Hok|done].
    + eexists; split; [apply lookup_insert_eq|]. apply lookup_insert_eq.
    + intros h' t i. destruct (decide (h' = h)) as [->|Hn]; [|by rewrite lookup_insert_ne].
      rewrite Eh, lookup_insert_eq. cbn. intros H. rewrite lookup_insert_ne; [done|]. intros E. congruence.
  - split; [|split].
    + intros h' m' [[-> <-]|[_ H]]%lookup_insert_Some; [|by eapply Hok]. split; [apply map_non_empty_singleton|]. rewrite map_size_singleton. split.
      * intros t i [<- <-]%lookup_singleton_Some. lia.
      * by intros t1 t2 i [<- <-]%lookup_singleton_Some [<- _]%lookup_singleton_Some.
    + eexists; split; [apply lookup_insert_eq|]. apply lookup_singleton_eq.
    + intros h' t i. destruct (decide (h' = h)) as [->|Hn]; [by rewrite Eh|by rewrite lookup_insert_ne].
Qed.

(** The votes in order. *)
Fixpoint index_votes (inds : BlockValidatorIndex) (vs : list VoteInfo) : BlockValidatorIndex * list VoteInfo :=
  match vs with
  | [] => (inds, [])
  | v :: vs => let '(inds, v) := SetTicketIndex inds v in let '(inds, vs) := index_votes inds vs in (inds, v :: vs)
  end.

(** Two votes have the same block and ticket. *)
Definition same_seat (a b : VoteInfo) : Prop :=
  bv_Hash (Validation a) = bv_Hash (Validation b) ∧ TicketSpent a = TicketSpent b.

Lemma SetTicketIndex_keeps inds v inds' v' : SetTicketIndex inds v = (inds', v') →
  Validation v' = Validation v ∧ TicketSpent v' = TicketSpent v ∧ ForLastBlock v' = ForLastBlock v.
Proof. unfold SetTicketIndex. intros H. repeat case_match; by injection H as _ <-. Qed.

Definition seat_index (inds : BlockValidatorIndex) (v : VoteInfo) : option Z :=
  m ← inds !! bv_Hash (Validation v); (m : TicketIndex) !! TicketSpent v.

Lemma index_votes_ok vs : ∀ inds inds' vs', indexes_ok inds → index_votes inds vs = (inds', vs') →
  indexes_ok inds' ∧ Forall2 same_seat vs vs' ∧
  Forall (λ v, seat_index inds' v = Some (MempoolTicketIndex v)) vs' ∧
  (∀ h t i, (m ← inds !! h; (m : TicketIndex) !! t) = Some i → (m ← inds' !! h; (m : TicketIndex) !! t) = Some i).
Proof.
  induction vs as [|v vs IH]; intros inds inds' vs' Hok; cbn.
  - intros [= <- <-]. done.
  - pose proof (SetTicketIndex_ok inds v Hok) as Hs. destruct (SetTicketIndex inds v) as [i1 v1] eqn:E1.
    destruct (index_votes i1 vs) as [i2 vs2] eqn:E2. intros [= <- <-].
    destruct Hs as (H1 & (m & Hm & Hv) & Hmono). destruct (IH _ _ _ H1 E2) as (G1 & G2 & G3 & G4).
    apply SetTicketIndex_keeps in E1 as (K1 & K2 & _). split; [done|]. split; [|split].
    + constructor; [|done]. unfold same_seat. by rewrite K1, K2.
    + constructor; [|done]. unfold seat_index. rewrite K1, K2. apply G4. by rewrite Hm.
    + intros h t i H. by apply G4, Hmono.
Qed.

(** The index of a mempool vote identifies its seat: for votes in any order,
    two votes on the same block get the same index exactly when they spend the
    same ticket, and the indexes of a block are between one and the number of
    its tickets, so the largest index counts the unique votes of the block. *)
Theorem ticket_indexes_identify (vs : list VoteInfo) inds' vs' :
  index_votes ∅ vs = (inds', vs') →
  Forall2 same_seat vs vs' ∧
  (∀ a b, a ∈ vs' → b ∈ vs' → bv_Hash (Validation a) = bv_Hash (Validation b) →
     (MempoolTicketIndex a = MempoolTicketIndex b ↔ TicketSpent a = TicketSpent b)) ∧
  (∀ a, a ∈ vs' → ∃ m, inds' !! bv_Hash (Validation a) = Some m ∧ 1 <= MempoolTicketIndex a <= Z.of_nat (size m)).
Proof.
  intros H. destruct (index_votes_ok vs ∅ inds' vs' indexes_ok_empty H) as (Hok & Hs & Hi & _). split; [done|].
  rewrite Forall_forall in Hi. split.
  - intros a b Ha%Hi Hb%Hi Hh. unfold seat_index in *. rewrite Hh in Ha.
    destruct (inds' !! bv_Hash (Validation b)) as [m|] eqn:Em; [|done]. cbn in Ha, Hb.
    destruct (Hok _ _ Em) as (_ & _ & Hinj). split; [|congruence]. intros E. rewrite E in Ha. by apply (Hinj _ _ _ Ha Hb).
  - intros a Ha%Hi. unfold seat_index in Ha. destruct (inds' !! bv_Hash (Validation a)) as [m|] eqn:Em; [|done]. cbn in Ha.
    exists m. split; [done|]. destruct (Hok _ _ Em) as (_ & Hr & _). by apply (Hr _ _ Ha).
Qed.

Definition demo_vote (h t : string) : VoteInfo := mkVote (mkValidation h 10 true) t 0 false.
Lemma ticket_indexes_identify_witness :
  let vs := [demo_vote "b" "t1"; demo_vote "b" "t2"; demo_vote "c" "t1"; demo_vote "b" "t1"] in
  MempoolTicketIndex <$> snd (index_votes ∅ vs) = [1; 2; 1; 1] ∧
  Forall2 same_seat vs (snd (index_votes ∅ vs)).
Proof.
  intros vs. split; [vm_compute; reflexivity|].
  apply (ticket_indexes_identify vs (fst (index_votes ∅ vs)) (snd (index_votes ∅ vs))). by destruct (index_votes ∅ vs).
Defined.

(** ** The status of a block *)
Definition ups (l : list bool) : Z := zlen (filter (λ b, b = true) l).
Definition downs (l : list bool) : Z := zlen (filter (λ b, b = false) l).

Lemma ups_cons b l : ups (b :: l) = (if b : bool then 1 else 0) + ups l.
Proof. unfold ups, zlen. rewrite filter_cons. destruct b; case_decide; try done; cbn [length]; lia. Qed.
Lemma downs_cons b l : downs (b :: l) = (if b : bool then 0 else 1) + downs l.
Proof. unfold downs, zlen. rewrite filter_cons. destruct b; case_decide; try done; cbn [length]; lia. Qed.
Lemma ups_downs l : ups l + downs l = zlen l.
Proof.
  induction l as [|b l IH]; [done|]. rewrite ups_cons, downs_cons. change (zlen (b :: l)) with (Z.of_nat (S (length l))).
  unfold zlen in *. destruct b; lia.
Qed.

Lemma count_marks_spec l : ∀ votes up down,
  count_marks l (votes, up, down) = (votes ++ ((λ b : bool, if b then VoteAffirm else VoteReject) <$> l), up + ups l, down + downs l).
Proof.
  induction l as [|b l IH]; intros votes up down; cbn [count_marks fmap list_fmap].
  - rewrite app_nil_r. change (ups []) with 0. change (downs []) with 0. by rewrite !Z.add_0_r.
  - rewrite ups_cons, downs_cons. destruct b; rewrite IH, <- app_assoc; cbn [app]; by rewrite ?Z.add_0_l, ?Z.add_assoc.
Qed.

Lemma Affirmations_ups tally : Affirmations tally = ups (Marks tally).
Proof.
  unfold Affirmations. assert (∀ l c, foldl (λ c affirmed, if affirmed : bool then c + 1 else c) c l = c + ups l) as ->; [|done].
  induction l as [|b l IH]; intros c; cbn [foldl]; [change (ups []) with 0; cbn; lia|]. rewrite IH, ups_cons. destruct b; lia.
Qed.

(** The status of a block: one entry per vote in order of arrival, then
    missing entries up to the seats of a block; the block is affirmed exactly
    when the affirming votes, and rejected exactly when the rejecting votes,
    exceed half the seats, where not more votes than seats are marked; and the
    order of the votes does not matter for the outcome. *)
Theorem Status_majority (tally : VoteTally) :
  zlen (Marks tally) <= TicketsPerBlock tally →
  let '(votes, consensus) := Status tally in
  votes = ((λ b : bool, if b then VoteAffirm else VoteReject) <$> Marks tally) ++
          replicate (Z.to_nat (TicketsPerBlock tally - VoteCount tally)) VoteMissing ∧
  zlen votes = TicketsPerBlock tally ∧
  (consensus = VoteAffirm ↔ TicketsPerBlock tally / 2 < Affirmations tally) ∧
  (consensus = VoteReject ↔ TicketsPerBlock tally / 2 < VoteCount tally - Affirmations tally) ∧
  (∀ l, Marks tally ≡ₚ l → snd (Status (mkTally (TicketsPerBlock tally) l)) = consensus).
Proof.
  intros Hl. unfold Status. rewrite count_marks_spec. cbn [app Marks TicketsPerBlock snd].
  rewrite Affirmations_ups. unfold VoteCount. pose proof (ups_downs (Marks tally)) as Hud.
  assert (0 <= ups (Marks tally)) by apply zlen_nonneg. assert (0 <= downs (Marks tally)) by apply zlen_nonneg.
  rewrite Z.quot_div_nonneg by lia. set (n := TicketsPerBlock tally) in *.
  pose proof (Z.div_mod n 2 ltac:(done)). pose proof (Z.mod_pos_bound n 2 ltac:(done)).
  assert (zlen ((λ b : bool, if b then VoteAffirm else VoteReject) <$> Marks tally) = zlen (Marks tally)) as Hz.
  { unfold zlen. by rewrite length_fmap. }
  rewrite Hz. split; [done|]. split; [|split; [|split]].
  - rewrite zlen_app, Hz. unfold zlen at 2. rewrite length_replicate. lia.
  - destruct (Z.ltb_spec (n / 2) (0 + ups (Marks tally))), (Z.ltb_spec (n / 2) (0 + downs (Marks tally))); split; (done || lia).
  - destruct (Z.ltb_spec (n / 2) (0 + ups (Marks tally))), (Z.ltb_spec (n / 2) (0 + downs (Marks tally))); split; (done || lia).
  - intros l Hp. rewrite count_marks_spec. cbn [snd].
    assert (ups l = ups (Marks tally)) as -> by (unfold ups, zlen; by rewrite Hp).
    assert (downs l = downs (Marks tally)) as -> by (unfold downs, zlen; by rewrite Hp). done.
Qed.

Lemma Status_majority_witness :
  Status (mkTally 5 [true; false; true; true]) = ([1; -1; 1; 1; 0], 1) ∧
  (snd (Status (mkTally 5 [true; false; true; true])) = VoteAffirm ↔ 5 / 2 < Affirmations (mkTally 5 [true; false; true; true])).
Proof. split; [reflexivity|]. apply (Status_majority (mkTally 5 [true; false; true; true])). vm_compute. discriminate. Defined.

(** ** Counting the votes on the last block *)
Fixpoint count_votes (vi : VotingInfo) (vs : list VoteInfo) : option VotingInfo :=
  match vs with
  | [] => Some vi
  | v :: vs => '(vi, _) ← countVote vi v; count_votes vi vs
  end.

(** The distinct tickets that voted on the last block. *)
Definition seats (vs : list VoteInfo) : gset string :=
  list_to_set (TicketSpent <$> filter (λ v, ForLastBlock v = true) vs).

(** What is counted after the tickets [s] have voted on [last]. *)
Definition voting_ok (last : string) (n : Z) (s : gset string) (vi : VotingInfo) : Prop :=
  MaxVotesPerBlock vi = n ∧ VotedTickets vi = gset_to_gmap true s ∧ TicketsVoted vi = u16 (Z.of_nat (size s)) ∧
  (∀ h, h ≠ last → VoteTallys vi !! h = None) ∧
  match VoteTallys vi !! last with
  | None => s = ∅
  | Some t => TicketsPerBlock t = n ∧ zlen (Marks t) = Z.of_nat (size s)
  end.

Lemma voting_ok_new last n : voting_ok last n ∅ (NewVotingInfo n).
Proof. unfold voting_ok. cbn. rewrite gset_to_gmap_empty, !lookup_empty. done. Qed.

Lemma voted_spec last n s vi t : voting_ok last n s vi → voted vi t = bool_decide (t ∈ s).
Proof.
  intros (_ & E & _). unfold voted. rewrite E, lookup_gset_to_gmap. case_bool_decide as H.
  - by rewrite option_guard_True.
  - by rewrite option_guard_False.
Qed.

Lemma countVote_ok last n s vi v : 1 <= n → voting_ok last n s vi →
  (ForLastBlock v = true → bv_Hash (Validation v) = last) →
  ∃ vi' b, countVote vi v = Some (vi', b) ∧
    b = ForLastBlock v && negb (bool_decide (TicketSpent v ∈ s)) ∧
    voting_ok last n (if ForLastBlock v then {[TicketSpent v]} ∪ s else s) vi'.
Proof.
  intros Hn Hok Hh. unfold countVote. rewrite (voted_spec last n s) by done.
  destruct (ForLastBlock v); cbn [andb]; [|by exists vi, false]. specialize (Hh eq_refl).
  case_bool_decide as Ht; cbn [negb].
  - exists vi, false. split; [done|]. split; [done|]. by replace ({[TicketSpent v]} ∪ s) with s by set_solver.
  - destruct Hok as (E1 & E2 & E3 & E4 & E5). unfold Tally. cbn [VoteTallys TicketsVoted MaxVotesPerBlock VotedTickets].
    assert (size ({[TicketSpent v]} ∪ s) = S (size s)) as Hs.
    { rewrite size_union by set_solver. by rewrite size_singleton. }
    assert (u16 (TicketsVoted vi + 1) = u16 (Z.of_nat (size ({[TicketSpent v]} ∪ s)))) as Hu.
    { rewrite E3, Hs. unfold u16. rewrite wrap_u_add_idemp_l. f_equal. lia. }
    rewrite Hh, E1. destruct (VoteTallys vi !! last) as [t|] eqn:Et.
    + eexists _, true. split; [reflexivity|]. split; [done|]. split; [done|]. cbn.
      split; [by rewrite E2, gset_to_gmap_union_singleton|]. split; [done|]. split.
      * intros h Hne. rewrite lookup_insert_ne by done. by apply E4.
      * rewrite lookup_insert_eq. destruct E5 as [E5 E6]. split; [done|]. cbn. rewrite zlen_app, E6, Hs. change (zlen [_]) with 1. lia.
    + destruct (Z.ltb_spec n 1); [lia|]. eexists _, true. split; [reflexivity|]. split; [done|]. split; [done|]. cbn.
      split; [by rewrite E2, gset_to_gmap_union_singleton|]. split; [done|]. split.
      * intros h Hne. rewrite lookup_insert_ne by done. by apply E4.
      * rewrite lookup_insert_eq. subst s. split; [done|]. rewrite Hs. by rewrite size_empty.
Qed.

Lemma count_votes_ok last n vs : ∀ s vi, 1 <= n → voting_ok last n s vi →
  Forall (λ v, ForLastBlock v = true → bv_Hash (Validation v) = last) vs →
  ∃ vi', count_votes vi vs = Some vi' ∧ voting_ok last n (s ∪ seats vs) vi'.
Proof.
  induction vs as [|v vs IH]; intros s vi Hn Hok Hvs; cbn [count_votes].
  - exists vi. split; [done|]. unfold seats. cbn. by rewrite union_empty_r_L.
  - apply Forall_cons in Hvs as [Hv Hvs]. destruct (countVote_ok _ _ _ _ v Hn Hok Hv) as (vi1 & b & -> & _ & Hok1). cbn.
    destruct (IH _ _ Hn Hok1 Hvs) as (vi2 & E & Hok2). exists vi2. split; [done|].
    replace (s ∪ seats (v :: vs)) with ((if ForLastBlock v then {[TicketSpent v]} ∪ s else s) ∪ seats vs); [done|].
    unfold seats. rewrite filter_cons. destruct (ForLastBlock v); case_decide; try done; cbn; set_solver.
Qed.

(** The tally of the last block counts each ticket once: for votes in any
    order, with those flagged for the last block naming it, counting does not
    panic, only the last block has a tally, with as many marks as distinct
    tickets voted on it, and the number of tickets voted is that count (a
    uint16). *)
Theorem tally_counts_tickets (last : string) (n : Z) (vs : list VoteInfo) :
  1 <= n →
  Forall (λ v, ForLastBlock v = true → bv_Hash (Validation v) = last) vs →
  ∃ vi, count_votes (NewVotingInfo n) vs = Some vi ∧
    TicketsVoted vi = u16 (Z.of_nat (size (seats vs))) ∧
    (∀ t, voted vi t = bool_decide (t ∈ seats vs)) ∧
    (∀ h, h ≠ last → VoteTallys vi !! h = None) ∧
    zlen (Marks (default (mkTally n []) (VoteTallys vi !! last))) = Z.of_nat (size (seats vs)).
Proof.
  intros Hn Hvs. destruct (count_votes_ok last n vs _ _ Hn (voting_ok_new last n) Hvs) as (vi & E & Hok).
  rewrite union_empty_l_L in Hok. exists vi. split; [done|]. split; [apply Hok|]. split; [intros t; by eapply voted_spec|].
  destruct Hok as (_ & _ & _ & E4 & E5). split; [done|]. destruct (VoteTallys vi !! last) as [t|]; cbn; [apply E5|].
  by rewrite E5, size_empty.
Qed.

Definition demo_counted (t : string) (b : bool) : VoteInfo := mkVote (mkValidation "b" 10 b) t 0 true.
Lemma tally_counts_tickets_witness :
  ∃ vi, count_votes (NewVotingInfo 5) [demo_counted "t1" true; demo_counted "t2" false; demo_counted "t1" false] = Some vi ∧
    TicketsVoted vi = u16 (Z.of_nat (size (seats [demo_counted "t1" true; demo_counted "t2" false; demo_counted "t1" false]))).
Proof.
  destruct (tally_counts_tickets "b" 5 [demo_counted "t1" true; demo_counted "t2" false; demo_counted "t1" false]) as (vi & E & H & _);
    [lia|repeat constructor|]. by exists vi.
Defined.
