(* ===== verification/CoinStats.v ===== *)
(** * Mempool statistics by coin (mempool/monitor.go, mempool/collector.go)

    The per-coin counts, sizes and amounts of the mempool, as they are updated
    when a transaction arrives and as they are rebuilt from all transactions
    after a block.  The theorems show that both give the same statistics,
    whatever the order of arrival, and how the amounts of VAR transactions are
    rounded. *)
From stdpp Require Import gmap strings.
From S2P Require Import Prelude MempoolVotes.
Open Scope Z_scope.

(** ** Mempool transactions (explorer/types/explorertypes.go)

    The fields the mempool code reads; [TypeID] is the transaction type of the
    node library. *)
Inductive TxType :=
| TxTypeRegular | TxTypeSStx | TxTypeSSGen | TxTypeSSRtx | TxTypeTAdd | TxTypeTSpend | TxTypeTreasuryBase | TxTypeSSFee.
#[export] Instance TxType_eq_dec : EqDecision TxType.
Proof. solve_decision. Defined.

Record MempoolInput := mkInput { in_TxId : string; in_Index : Z; in_Outdex : Z; in_CoinType : Z; in_SKAValue : string }.

Record MempoolTx := mkMempoolTx {
  TxID : string; Vin : list MempoolInput; Time : Z; Size : Z; TotalOut : float64;
  Type_ : string; TypeID : TxType; tx_VoteInfo : option VoteInfo; SKATotals : gmap Z string; TicketStage : string
}.

(** [txhelpers.TxTypeToString]. *)
Definition TxTypeToString (t : TxType) : string :=
  match t with
  | TxTypeSSGen => "Vote"
  | TxTypeSStx => "Ticket"
  | TxTypeSSRtx => "Revocation"
  | TxTypeSSFee => "Stake Fee"
  | _ => "Regular"
  end.

Record MempoolCoinStats := mkStats {
  cs_TxCount : Z; cs_Size : Z; cs_Amount : string;
  RegularCount : Z; RegularAmount : string; TicketCount : Z; TicketAmount : string;
  cs_VoteCount : Z; VoteAmount : string; RevokeCount : Z; RevokeAmount : string
}.
Definition zeroStats : MempoolCoinStats := mkStats 0 0 "" 0 "" 0 "" 0 "" 0 "".

(** ** Adding amounts *)
(** [strconv.ParseInt(s, 10, 64)]. *)
Definition ParseInt64 (s : string) : option Z :=
  v ← SetString10 s; if (- 2 ^ 63 <=? v) && (v <? 2 ^ 63) then Some v else None.

Definition addAtomStrings (a b : string) (isBig : bool) : string :=
  if bool_decide (a = ""%string) then b
  else if isBig then
    match SetString10 a with
    | None => a
    | Some av => match SetString10 b with None => a | Some bv => bigString (av + bv) end
    end
  else
    match ParseInt64 a with
    | None => "0"
    | Some ai => match ParseInt64 b with None => bigString ai | Some bi => bigString (i64 (ai + bi)) end
    end.

Definition norm (s : string) : string := if bool_decide (s = ""%string) then "0" else s.
Definition normalizeCoinStatsAmounts (s : MempoolCoinStats) : MempoolCoinStats :=
  mkStats (cs_TxCount s) (cs_Size s) (norm (cs_Amount s)) (RegularCount s) (norm (RegularAmount s))
    (TicketCount s) (norm (TicketAmount s)) (cs_VoteCount s) (norm (VoteAmount s)) (RevokeCount s) (norm (RevokeAmount s)).

(** The amount of a VAR transaction, [int64(tx.TotalOut*1e8)]. *)
Definition varAtoms (tx : MempoolTx) : Z := f64_to_i64 (f64_mul (TotalOut tx) (f64_of_Z 100000000)).

(** The switch on the type. *)
Inductive kind := KRegular | KTicket | KVote | KRevoke.
#[export] Instance kind_eq_dec : EqDecision kind.
Proof. solve_decision. Defined.
Definition kind_of (ty : string) : option kind :=
  if bool_decide (ty = "Regular"%string) then Some KRegular
  else if bool_decide (ty = "Ticket"%string) then Some KTicket
  else if bool_decide (ty = "Vote"%string) then Some KVote
  else if bool_decide (ty = "Revocation"%string) then Some KRevoke
  else None.

(** One coin of a transaction: the two branches of the code differ in [isBig]. *)
Definition add_stats (isBig : bool) (tx : MempoolTx) (atoms : string) (s : MempoolCoinStats) : MempoolCoinStats :=
  let add x := addAtomStrings x atoms isBig in
  let 'mkStats n sz am rc ra tc ta vc va kc ka := s in
  let mk := mkStats (n + 1) (i32 (sz + Size tx)) (add am) in
  normalizeCoinStatsAmounts
    match kind_of (Type_ tx) with
    | Some KRegular => mk (rc + 1) (add ra) tc ta vc va kc ka
    | Some KTicket => mk rc ra (tc + 1) (add ta) vc va kc ka
    | Some KVote => mk rc ra tc ta (vc + 1) (add va) kc ka
    | Some KRevoke => mk rc ra tc ta vc va (kc + 1) (add ka)
    | None => mk rc ra tc ta vc va kc ka
    end.

Section Stats.
Context {RO : RangeOrder Z string}.

Definition addTxToCoinStats (stats : gmap Z MempoolCoinStats) (tx : MempoolTx) : gmap Z MempoolCoinStats :=
  if Nat.eqb (size (SKATotals tx)) 0 then
    <[0 := add_stats false tx (bigString (varAtoms tx)) (default zeroStats (stats !! 0))]> stats
  else
    foldl (λ stats '(ct, amtStr), <[ct := add_stats true tx amtStr (default zeroStats (stats !! ct))]> stats)
      stats (range_of (SKATotals tx)).

(** ** The batch aggregation of ParseTxns

    The per-type maps are keyed by the coin type of the accumulator. *)
Record coinAccum := mkAccum {
  txCount : Z; a_size : Z; varAmt : Z; skaAmt : gmap Z Z;
  regCount : Z; tixCount : Z; voteCount : Z; revCount : Z;
  varKind : kind → Z; skaKind : kind → gmap Z Z
}.
Definition zeroAccum : coinAccum := mkAccum 0 0 0 ∅ 0 0 0 0 (λ _, 0) (λ _, ∅).

Definition getAccum (accum : gmap Z coinAccum) (ct : Z) : coinAccum := default zeroAccum (accum !! ct).
Definition bump (k k' : kind) (n : Z) : Z := if decide (k' = k) then n + 1 else n.
Definition add_count (k : option kind) (a : coinAccum) : coinAccum :=
  match k with
  | None => a
  | Some k =>
    mkAccum (txCount a) (a_size a) (varAmt a) (skaAmt a) (bump k KRegular (regCount a)) (bump k KTicket (tixCount a))
      (bump k KVote (voteCount a)) (bump k KRevoke (revCount a)) (varKind a) (skaKind a)
  end.
Definition add_var (atoms : Z) (k : option kind) (a : coinAccum) : coinAccum :=
  mkAccum (txCount a) (a_size a) (i64 (varAmt a + atoms)) (skaAmt a) (regCount a) (tixCount a) (voteCount a) (revCount a)
    (λ k', if decide (k = Some k') then i64 (varKind a k' + atoms) else varKind a k') (skaKind a).
Definition addSka (m : gmap Z Z) (ct v : Z) : gmap Z Z := <[ct := default 0 (m !! ct) + v]> m.
Definition add_ska (ct v : Z) (k : option kind) (a : coinAccum) : coinAccum :=
  mkAccum (txCount a) (a_size a) (varAmt a) (addSka (skaAmt a) ct v) (regCount a) (tixCount a) (voteCount a) (revCount a)
    (varKind a) (λ k', if decide (k = Some k') then addSka (skaKind a k') ct v else skaKind a k').
Definition add_tx (tx : MempoolTx) (a : coinAccum) : coinAccum :=
  mkAccum (txCount a + 1) (i32 (a_size a + Size tx)) (varAmt a) (skaAmt a) (regCount a) (tixCount a) (voteCount a) (revCount a)
    (varKind a) (skaKind a).

Definition accum_tx (accum : gmap Z coinAccum) (tx : MempoolTx) : gmap Z coinAccum :=
  let k := kind_of (Type_ tx) in
  if Nat.eqb (size (SKATotals tx)) 0 then
    <[0 := add_count k (add_var (varAtoms tx) k (add_tx tx (getAccum accum 0)))]> accum
  else
    foldl (λ accum '(ct, amtStr),
      match SetString10 amtStr with
      | None => <[ct := getAccum accum ct]> accum
      | Some v => <[ct := add_count k (add_ska ct v k (add_tx tx (getAccum accum ct)))]> accum
      end) accum (range_of (SKATotals tx)).

Definition skaPerTypeStr (m : gmap Z Z) (ct : Z) : string :=
  match m !! ct with Some v => bigString v | None => "0" end.

Definition render (ct : Z) (a : coinAccum) : MempoolCoinStats :=
  if ct =? 0 then
    mkStats (txCount a) (a_size a) (bigString (varAmt a)) (regCount a) (bigString (varKind a KRegular))
      (tixCount a) (bigString (varKind a KTicket)) (voteCount a) (bigString (varKind a KVote))
      (revCount a) (bigString (varKind a KRevoke))
  else
    mkStats (txCount a) (a_size a) (skaPerTypeStr (skaAmt a) ct) (regCount a) (skaPerTypeStr (skaKind a KRegular) ct)
      (tixCount a) (skaPerTypeStr (skaKind a KTicket) ct) (voteCount a) (skaPerTypeStr (skaKind a KVote) ct)
      (revCount a) (skaPerTypeStr (skaKind a KRevoke) ct).

Definition coinStats (txs : list MempoolTx) : gmap Z MempoolCoinStats :=
  map_imap (λ ct a, Some (render ct a)) (foldl accum_tx ∅ txs).

(** ** The reference: sums over the transactions of a coin *)
(** The amount a transaction adds to a coin, if it counts for it. *)
Definition contrib (ct : Z) (tx : MempoolTx) : option Z :=
  if Nat.eqb (size (SKATotals tx)) 0 then if ct =? 0 then Some (varAtoms tx) else None
  else SKATotals tx !! ct ≫= SetString10.
Definition items (ct : Z) (txs : list MempoolTx) : list (MempoolTx * Z) :=
  omap (λ tx, pair tx <$> contrib ct tx) txs.
Definition of_kind (k : kind) (l : list (MempoolTx * Z)) : list (MempoolTx * Z) :=
  filter (λ x, kind_of (Type_ (fst x)) = Some k) l.

(** The text of an amount: int64 atoms of VAR, big integers of SKA. *)
Definition fmtA (ct z : Z) : string := bigString (if ct =? 0 then i64 z else z).
Definition sumOf (l : list (MempoolTx * Z)) : Z := zsum (snd <$> l).
Definition stats_l (ct : Z) (l : list (MempoolTx * Z)) : MempoolCoinStats :=
  let c k := zlen (of_kind k l) in
  let a k := fmtA ct (sumOf (of_kind k l)) in
  mkStats (zlen l) (i32 (zsum ((Size ∘ fst) <$> l))) (fmtA ct (sumOf l))
    (c KRegular) (a KRegular) (c KTicket) (a KTicket) (c KVote) (a KVote) (c KRevoke) (a KRevoke).
Definition stats_of (ct : Z) (txs : list MempoolTx) : option MempoolCoinStats :=
  match items ct txs with [] => None | l => Some (stats_l ct l) end.

(** The amounts of the SKA coins are printed integers, under SKA coin types. *)
Definition wf_tx (tx : MempoolTx) : Prop := ∀ ct s, SKATotals tx !! ct = Some s → ct ≠ 0 ∧ ∃ z, s = bigString z.

Lemma items_snoc ct txs tx :
  items ct (txs ++ [tx]) = items ct txs ++ (match contrib ct tx with Some v => [(tx, v)] | None => [] end).
Proof. unfold items. rewrite omap_app. f_equal. cbn. by destruct (contrib ct tx). Qed.

Lemma of_kind_snoc k l tx v :
  of_kind k (l ++ [(tx, v)]) = of_kind k l ++ (if decide (kind_of (Type_ tx) = Some k) then [(tx, v)] else []).
Proof. unfold of_kind. by rewrite filter_app. Qed.

Lemma zlen_snoc {A} (l : list A) x : zlen (l ++ [x]) = zlen l + 1.
Proof. by rewrite zlen_app. Qed.
Lemma sumOf_snoc l tx v : sumOf (l ++ [(tx, v)]) = sumOf l + v.
Proof. unfold sumOf. rewrite fmap_app, zsum_app. cbn. lia. Qed.

Lemma norm_fmtA ct z : norm (fmtA ct z) = fmtA ct z.
Proof. unfold norm, fmtA. rewrite bool_decide_false; [done|apply bigString_nonempty]. Qed.

Definition i64_ok (z : Z) : Prop := - 2 ^ 63 <= z < 2 ^ 63.
Lemma i64_i64_ok z : i64_ok (i64 z).
Proof. by apply (wrap_s_range 64). Qed.

Lemma ParseInt64_bigString z : i64_ok z → ParseInt64 (bigString z) = Some z.
Proof.
  intros [H1 H2]. unfold ParseInt64. rewrite SetString10_bigString. cbn -[Z.pow Z.opp].
  destruct (Z.leb_spec (- 2 ^ 63) z), (Z.ltb_spec z (2 ^ 63)); try lia. done.
Qed.

Lemma add_fmtA ct s v : (ct = 0 → i64_ok v) →
  addAtomStrings (fmtA ct s) (bigString v) (negb (ct =? 0)) = fmtA ct (s + v).
Proof.
  intros Hv. unfold addAtomStrings, fmtA. rewrite bool_decide_false by apply bigString_nonempty.
  destruct (Z.eqb_spec ct 0) as [->|]; cbn [negb].
  - rewrite !ParseInt64_bigString by (apply i64_i64_ok || auto). f_equal. unfold i64. by rewrite wrap_s_add_idemp_l.
  - by rewrite !SetString10_bigString.
Qed.

Lemma norm_add_empty ct v : (ct = 0 → i64_ok v) →
  addAtomStrings "" (bigString v) (negb (ct =? 0)) = fmtA ct v.
Proof.
  intros Hv. unfold addAtomStrings, fmtA. rewrite bool_decide_true by done.
  destruct (Z.eqb_spec ct 0) as [->|]; [|done]. unfold i64. rewrite wrap_s_small; [done|done|by apply Hv].
Qed.

(** One transaction more, from the statistics so far or from nothing. *)
Lemma add_stats_step ct l tx v s : (ct = 0 → i64_ok v) →
  s = stats_l ct l ∨ (l = [] ∧ s = zeroStats) →
  add_stats (negb (ct =? 0)) tx (bigString v) s = stats_l ct (l ++ [(tx, v)]).
Proof.
  intros Hv Hs. unfold stats_l at 1. rewrite !of_kind_snoc, !zlen_snoc, !sumOf_snoc, fmap_app, zsum_app. change (zsum ((Size ∘ fst) <$> [(tx, v)])) with (Size tx + 0). rewrite Z.add_0_r.
  assert (i32 (i32 (zsum ((Size ∘ fst) <$> l)) + Size tx) = i32 (zsum ((Size ∘ fst) <$> l) + Size tx)) as Hi.
  { unfold i32. by rewrite wrap_s_add_idemp_l. }
  assert (norm "" = fmtA ct 0) as Hz by (unfold fmtA; by destruct (ct =? 0)).
  assert (∀ z, fmtA ct (sumOf [] + z) = fmtA ct z) as Hs0 by done.
  destruct Hs as [->|[-> ->]]; unfold add_stats, stats_l, zeroStats, normalizeCoinStatsAmounts.
  - destruct (kind_of (Type_ tx)) as [[]|]; cbn [cs_TxCount cs_Size cs_Amount RegularCount RegularAmount TicketCount TicketAmount cs_VoteCount VoteAmount RevokeCount RevokeAmount];
      rewrite ?add_fmtA, ?norm_fmtA, Hi by done; repeat case_decide; try congruence;
      rewrite ?app_nil_r, ?zlen_snoc, ?sumOf_snoc; done.
  - destruct (kind_of (Type_ tx)) as [[]|]; cbn [cs_TxCount cs_Size cs_Amount RegularCount RegularAmount TicketCount TicketAmount cs_VoteCount VoteAmount RevokeCount RevokeAmount];
      rewrite ?norm_add_empty, ?norm_fmtA, ?Hz by done; repeat case_decide; try congruence;
      rewrite ?app_nil_r, ?zlen_snoc, ?sumOf_snoc; done.
Qed.

(** *** The update on arrival *)
Lemma range_fold_lookup {A} (f : Z → string → option A → option A) (m : gmap Z string) (acc : gmap Z A) ct :
  foldl (λ acc '(k, s), partial_alter (f k s) k acc) acc (range_of m) !! ct =
    match m !! ct with Some s => f ct s (acc !! ct) | None => acc !! ct end.
Proof.
  assert (∀ l : list (Z * string), NoDup l.*1 → ∀ acc : gmap Z A,
    foldl (λ acc '(k, s), partial_alter (f k s) k acc) acc l !! ct =
      match list_to_map (M := gmap Z string) l !! ct with Some s => f ct s (acc !! ct) | None => acc !! ct end) as G.
  { clear. induction l as [|[k s] l IH]; intros Hn acc; [done|]. cbn [foldl fmap list_fmap fst] in *.
    apply NoDup_cons in Hn as [Hk Hn]. rewrite IH by done. cbn [list_to_map foldr uncurry].
    destruct (decide (k = ct)) as [->|Hne].
    - rewrite lookup_insert_eq, lookup_partial_alter_eq. by rewrite not_elem_of_list_to_map_1.
    - by rewrite lookup_insert_ne, lookup_partial_alter_ne. }
  assert (NoDup (range_of m).*1) as Hn by (rewrite range_perm; apply NoDup_fst_map_to_list).
  rewrite (G _ Hn). assert (list_to_map (range_of m) = m) as ->; [|done].
  rewrite <- (list_to_map_to_list m) at 2. apply list_to_map_proper; [done|]. apply range_perm.
Qed.

Lemma addTxToCoinStats_lookup stats tx ct : wf_tx tx →
  addTxToCoinStats stats tx !! ct =
    match contrib ct tx with
    | Some v => Some (add_stats (negb (ct =? 0)) tx (bigString v) (default zeroStats (stats !! ct)))
    | None => stats !! ct
    end.
Proof.
  intros Hwf. unfold addTxToCoinStats, contrib. destruct (Nat.eqb (size (SKATotals tx)) 0).
  - destruct (Z.eqb_spec ct 0) as [->|]; [by rewrite lookup_insert_eq|by rewrite lookup_insert_ne].
  - assert (∀ l acc, foldl (λ (stats : gmap Z MempoolCoinStats) '(ct, amtStr),
        <[ct := add_stats true tx amtStr (default zeroStats (stats !! ct))]> stats) acc l =
      foldl (λ acc '(k, s), partial_alter (λ o, Some (add_stats true tx s (default zeroStats o))) k acc) acc l) as ->.
    { induction l as [|[k s] l IH]; intros acc; [done|]. cbn [foldl]. rewrite IH. f_equal.
      apply map_eq. intros j. destruct (decide (k = j)) as [->|].
      - by rewrite lookup_insert_eq, lookup_partial_alter_eq.
      - by rewrite lookup_insert_ne, lookup_partial_alter_ne. }
    rewrite (range_fold_lookup (λ _ s o, Some (add_stats true tx s (default zeroStats o)))).
    destruct (SKATotals tx !! ct) as [s|] eqn:E; [|done]. cbn. destruct (Hwf _ _ E) as (Hct & z & ->).
    rewrite SetString10_bigString. by destruct (Z.eqb_spec ct 0).
Qed.

Lemma contrib_i64 ct tx v : wf_tx tx → contrib ct tx = Some v → ct = 0 → i64_ok v.
Proof.
  intros Hwf Hc ->. unfold contrib in Hc. destruct (Nat.eqb _ _).
  - injection Hc as <-. apply f64_to_i64_range.
  - destruct (SKATotals tx !! 0) as [s|] eqn:E; [|done]. by destruct (Hwf _ _ E) as [? _].
Qed.

Lemma incremental_stats txs ct : Forall wf_tx txs → foldl addTxToCoinStats ∅ txs !! ct = stats_of ct txs.
Proof.
  induction txs as [|tx txs IH] using rev_ind; [done|]. intros [Hw Hx]%Forall_app. rewrite Forall_singleton in Hx.
  rewrite foldl_snoc, addTxToCoinStats_lookup, IH by done. unfold stats_of. rewrite items_snoc.
  destruct (contrib ct tx) as [v|] eqn:E; [|by rewrite app_nil_r].
  rewrite (add_stats_step ct (items ct txs)).
  - by destruct (items ct txs).
  - by apply (contrib_i64 ct tx).
  - destruct (items ct txs); [right|left]; [split|]; done.
Qed.

(** *** The batch *)
(** An accumulator holds the sums of the items. *)
Definition accum_ok (ct : Z) (l : list (MempoolTx * Z)) (a : coinAccum) : Prop :=
  txCount a = zlen l ∧ a_size a = i32 (zsum ((Size ∘ fst) <$> l)) ∧
  regCount a = zlen (of_kind KRegular l) ∧ tixCount a = zlen (of_kind KTicket l) ∧
  voteCount a = zlen (of_kind KVote l) ∧ revCount a = zlen (of_kind KRevoke l) ∧
  if ct =? 0 then varAmt a = i64 (sumOf l) ∧ ∀ k, varKind a k = i64 (sumOf (of_kind k l))
  else default 0 (skaAmt a !! ct) = sumOf l ∧ ∀ k, default 0 (skaKind a k !! ct) = sumOf (of_kind k l).

Lemma skaPerTypeStr_default m ct : skaPerTypeStr m ct = bigString (default 0 (m !! ct)).
Proof. unfold skaPerTypeStr. by destruct (m !! ct). Qed.

Lemma render_ok ct l a : accum_ok ct l a → render ct a = stats_l ct l.
Proof.
  intros (E1 & E2 & E3 & E4 & E5 & E6 & E7). unfold render, stats_l, fmtA. rewrite !skaPerTypeStr_default, E1, E2, E3, E4, E5, E6.
  destruct (ct =? 0); destruct E7 as [E7 E8]; by rewrite E7, !E8.
Qed.


Lemma accum_ok_empty ct : accum_ok ct [] zeroAccum.
Proof. unfold accum_ok. by destruct (ct =? 0). Qed.

Lemma sumOf_of_kind_snoc k l tx v :
  sumOf (of_kind k (l ++ [(tx, v)])) = if decide (kind_of (Type_ tx) = Some k) then sumOf (of_kind k l) + v else sumOf (of_kind k l).
Proof. rewrite of_kind_snoc. case_decide; [apply sumOf_snoc|by rewrite app_nil_r]. Qed.

Lemma zlen_of_kind_snoc k l tx v :
  zlen (of_kind k (l ++ [(tx, v)])) = if decide (kind_of (Type_ tx) = Some k) then zlen (of_kind k l) + 1 else zlen (of_kind k l).
Proof. rewrite of_kind_snoc. case_decide; [apply zlen_snoc|by rewrite app_nil_r]. Qed.

(** What a transaction does to the accumulator of a coin it counts for. *)
Definition accum_step (ct v : Z) (tx : MempoolTx) (a : coinAccum) : coinAccum :=
  let k := kind_of (Type_ tx) in
  add_count k (if ct =? 0 then add_var v k (add_tx tx a) else add_ska ct v k (add_tx tx a)).

Lemma accum_step_ok ct l a tx v : accum_ok ct l a → accum_ok ct (l ++ [(tx, v)]) (accum_step ct v tx a).
Proof.
  intros (E1 & E2 & E3 & E4 & E5 & E6 & E7). unfold accum_step.
  set (b := if ct =? 0 then _ else _).
  assert (txCount b = zlen l + 1 ∧ a_size b = i32 (zsum ((Size ∘ fst) <$> l) + Size tx) ∧ regCount b = regCount a ∧
    tixCount b = tixCount a ∧ voteCount b = voteCount a ∧ revCount b = revCount a) as (B1 & B2 & B3 & B4 & B5 & B6).
  { unfold b. assert (i32 (a_size a + Size tx) = i32 (zsum ((Size ∘ fst) <$> l) + Size tx)).
    { rewrite E2. unfold i32. by rewrite wrap_s_add_idemp_l. }
    destruct (ct =? 0); cbn; by rewrite E1. }
  assert (if ct =? 0 then varAmt b = i64 (sumOf (l ++ [(tx, v)])) ∧ (∀ k, varKind b k = i64 (sumOf (of_kind k (l ++ [(tx, v)]))))
    else default 0 (skaAmt b !! ct) = sumOf (l ++ [(tx, v)]) ∧ ∀ k, default 0 (skaKind b k !! ct) = sumOf (of_kind k (l ++ [(tx, v)]))) as B7.
  { unfold b. rewrite sumOf_snoc. destruct (ct =? 0); cbn; destruct E7 as [E7 E8].
    - rewrite E7. split; [unfold i64; by rewrite wrap_s_add_idemp_l|]. intros k. rewrite sumOf_of_kind_snoc. case_decide; [|apply E8].
      rewrite E8. unfold i64. by rewrite wrap_s_add_idemp_l.
    - unfold addSka. rewrite lookup_insert_eq. cbn. split; [by rewrite <- E7|]. intros k. rewrite sumOf_of_kind_snoc. case_decide; [|apply E8].
      rewrite lookup_insert_eq. cbn. by rewrite <- E8. }
  clearbody b. unfold accum_ok. rewrite zlen_snoc, fmap_app, zsum_app, !zlen_of_kind_snoc.
  change (zsum ((Size ∘ fst) <$> [(tx, v)])) with (Size tx + 0). rewrite Z.add_0_r.
  destruct (kind_of (Type_ tx)) as [[]|]; cbn [add_count txCount a_size varAmt skaAmt regCount tixCount voteCount revCount varKind skaKind];
    unfold bump; repeat case_decide; try congruence; rewrite ?B3, ?B4, ?B5, ?B6, ?E3, ?E4, ?E5, ?E6; done.
Qed.

Lemma accum_tx_lookup accum tx ct : wf_tx tx →
  accum_tx accum tx !! ct =
    match contrib ct tx with
    | Some v => Some (accum_step ct v tx (getAccum accum ct))
    | None => accum !! ct
    end.
Proof.
  intros Hwf. unfold accum_tx, contrib. destruct (Nat.eqb (size (SKATotals tx)) 0).
  - destruct (Z.eqb_spec ct 0) as [->|]; [by rewrite lookup_insert_eq|by rewrite lookup_insert_ne].
  - set (f := λ (k : Z) (s : string) (o : option coinAccum),
      match SetString10 s with
      | None => Some (default zeroAccum o)
      | Some v => Some (add_count (kind_of (Type_ tx)) (add_ska k v (kind_of (Type_ tx)) (add_tx tx (default zeroAccum o))))
      end).
    assert (∀ l acc, foldl (λ accum '(ct, amtStr),
      match SetString10 amtStr with
      | None => <[ct := getAccum accum ct]> accum
      | Some v => <[ct := add_count (kind_of (Type_ tx)) (add_ska ct v (kind_of (Type_ tx)) (add_tx tx (getAccum accum ct)))]> accum
      end) acc l = foldl (λ acc '(k, s), partial_alter (f k s) k acc) acc l) as ->.
    { induction l as [|[k s] l IH]; intros acc; [done|]. cbn [foldl]. rewrite IH. f_equal.
      apply map_eq. intros j. unfold f, getAccum. destruct (decide (k = j)) as [->|].
      - rewrite lookup_partial_alter_eq. destruct (SetString10 s); by rewrite lookup_insert_eq.
      - rewrite lookup_partial_alter_ne by done. destruct (SetString10 s); by rewrite lookup_insert_ne. }
    rewrite range_fold_lookup. destruct (SKATotals tx !! ct) as [s|] eqn:E; [|done]. cbn. destruct (Hwf _ _ E) as (Hct & z & ->).
    unfold f, accum_step. rewrite SetString10_bigString. by destruct (Z.eqb_spec ct 0).
Qed.

Lemma batch_accum txs ct : Forall wf_tx txs →
  match foldl accum_tx ∅ txs !! ct with
  | Some a => items ct txs ≠ [] ∧ accum_ok ct (items ct txs) a
  | None => items ct txs = []
  end.
Proof.
  induction txs as [|tx txs IH] using rev_ind; [done|]. intros [Hw Hx]%Forall_app. rewrite Forall_singleton in Hx. specialize (IH Hw).
  rewrite foldl_snoc, accum_tx_lookup, items_snoc by done. destruct (contrib ct tx) as [v|]; [|by rewrite app_nil_r].
  split; [by destruct (items ct txs)|]. apply accum_step_ok. unfold getAccum.
  destruct (foldl accum_tx ∅ txs !! ct) as [a|]; [apply IH|]. rewrite IH. apply accum_ok_empty.
Qed.

Lemma batch_stats txs ct : Forall wf_tx txs → coinStats txs !! ct = stats_of ct txs.
Proof.
  intros Hw. unfold coinStats, stats_of. rewrite map_lookup_imap. pose proof (batch_accum txs ct Hw) as Hb.
  destruct (foldl accum_tx ∅ txs !! ct) as [a|]; cbn.
  - destruct Hb as [Hne Ha]. rewrite (render_ok ct (items ct txs)) by done. by destruct (items ct txs).
  - by rewrite Hb.
Qed.

#[local] Instance of_kind_perm k : Proper ((≡ₚ) ==> (≡ₚ)) (of_kind k).
Proof. intros l l' H. unfold of_kind. by rewrite H. Qed.
#[local] Instance sumOf_perm : Proper ((≡ₚ) ==> (=)) sumOf.
Proof. intros l l' H. unfold sumOf. by rewrite H. Qed.
#[local] Instance stats_l_perm ct : Proper ((≡ₚ) ==> (=)) (stats_l ct).
Proof.
  intros l l' H. unfold stats_l, zlen. f_equal; by rewrite H.
Qed.

Lemma stats_of_perm ct txs txs' : txs ≡ₚ txs' → stats_of ct txs = stats_of ct txs'.
Proof.
  intros Hp. unfold stats_of. assert (items ct txs ≡ₚ items ct txs') as Hi by (unfold items; by rewrite Hp).
  assert (stats_l ct (items ct txs) = stats_l ct (items ct txs')) as E by (by rewrite Hi).
  apply Permutation_length in Hi. destruct (items ct txs), (items ct txs'); try done. by rewrite E.
Qed.

(** C23: the two ways to keep the statistics agree: adding the transactions one by
    one as they arrive gives, for every coin, the counts, sizes and amounts that
    the batch over all transactions computes after a block, for every order of
    arrival and of the batch. *)
Theorem incremental_equals_batch (txs txs' : list MempoolTx) :
  Forall wf_tx txs → txs ≡ₚ txs' → foldl addTxToCoinStats ∅ txs = coinStats txs'.
Proof.
  intros Hw Hp. apply map_eq. intros ct. rewrite incremental_stats by done. rewrite batch_stats by (by rewrite <- Hp).
  by apply stats_of_perm.
Qed.

(** What they compute: nothing for a coin without transactions, otherwise the
    number, total size and total amount of its transactions, in all and by
    type. *)
Lemma coinStats_sums txs ct : Forall wf_tx txs → coinStats txs !! ct = stats_of ct txs.
Proof. apply batch_stats. Qed.
End Stats.

Definition demo_mptx (id ty : string) (out : Z) (ska : gmap Z string) : MempoolTx :=
  mkMempoolTx id [] 1 250 (f64_div (f64_of_Z out) (f64_of_Z 100000000)) ty TxTypeRegular None ska "".
Definition demo_txs : list MempoolTx :=
  [demo_mptx "a" "Regular" 50000000 ∅; demo_mptx "b" "Ticket" 100000000 ∅; demo_mptx "c" "Regular" 0 {[1 := "12"%string]}].

Lemma incremental_equals_batch_witness :
  foldl (addTxToCoinStats (RO := canonical_range)) ∅ demo_txs = coinStats (RO := canonical_range) (reverse demo_txs).
Proof.
  apply (incremental_equals_batch (RO := canonical_range) demo_txs (reverse demo_txs)).
  - unfold demo_txs. rewrite !Forall_cons, Forall_nil. split; [by intros ct s|]. split; [by intros ct s|]. split; [|done].
    intros ct s. cbn [SKATotals demo_mptx]. intros [<- <-]%lookup_singleton_Some. split; [done|]. by exists 12.
  - symmetry. apply reverse_Permutation.
Defined.

(** ** Rounding *)
(** The amount of a VAR transaction is truncated, not rounded: a transaction
    that pays 29000000 atoms, whose output total is 0.29 coins, is counted with
    28999999 atoms in the per-coin statistics. *)
Theorem varAtoms_loses_an_atom (tx : MempoolTx) :
  TotalOut tx = f64_div (f64_of_Z 29000000) (f64_of_Z 100000000) → varAtoms tx = 28999999.
Proof. intros E. unfold varAtoms. rewrite E. vm_compute. reflexivity. Qed.

Lemma varAtoms_loses_an_atom_witness : varAtoms (demo_mptx "a" "Regular" 29000000 ∅) = 28999999.
Proof. apply varAtoms_loses_an_atom. reflexivity. Defined.
