(* ===== verification/MempoolAddr.v ===== *)
(** * The address index of the mempool (txhelpers/txhelpers.go,
      mempool/monitor.go)

    The outpoints that pay an address and the previous outpoints that paid it,
    by address, as they are added for each transaction, and the query that
    collects an address's unconfirmed transactions.  The theorems give the
    index after a transaction by a reference definition, the counts a query
    returns, and what a query makes of a transaction it cannot find. *)
From stdpp Require Import gmap strings.
From S2P Require Import Prelude StakeTx MempoolVotes CoinStats.
Open Scope Z_scope.

(** The verbose result of the node for a transaction, by the fields read. *)
Record TxRawResult := mkRaw { raw_Txid : string; raw_Hex : string; raw_BlockHeight : Z; raw_BlockHash : string }.

(** The node and its libraries: the addresses an output's script pays
    ([stdscript.ExtractAddrs]), the type of a transaction, the trees of
    outpoints, the text of a hash, decoding a transaction, and the raw
    transaction request. *)
Class NodeLib := {
  ExtractAddrs : TxOut → list string;
  DetermineTxType : MsgTx → TxType;
  TxTreeRegular : Z;
  TxTreeStake : Z;
  HashString : Hash → string;
  MsgTxFromHex : string → option MsgTx;
  GetRawTransactionVerbose : Hash → option TxRawResult
}.

Record CoinOutputInfo := mkCoinInfo { ci_CoinType : Z; ci_SKAValue : string }.
Record TxWithBlockData := mkTwb {
  twb_Tx : MsgTx; twb_BlockHeight : Z; twb_BlockHash : string; MemPoolTime : Z; CoinInfo : gmap Z CoinOutputInfo
}.
Record PrevOut := mkPrevOut {
  TxSpending : Hash; InputIndex : Z; PreviousOutpoint : OutPoint; po_CoinType : Z; po_SKAValue : string
}.
(** The store of an address's transactions is a nil map until a query makes it,
    and holds pointers that may be nil. *)
Record AddressOutpoints := mkAO {
  ao_Address : string; Outpoints : list OutPoint; PrevOuts : list PrevOut;
  ao_TxnsStore : option (gmap Hash (option TxWithBlockData))
}.
Definition NewAddressOutpoints (address : string) : AddressOutpoints := mkAO address [] [] (Some ∅).

Abbreviation MempoolAddressStore := (gmap string AddressOutpoints).
Abbreviation TxnsStore := (gmap Hash TxWithBlockData).

Definition add_op (op : OutPoint) (a : AddressOutpoints) : AddressOutpoints :=
  mkAO (ao_Address a) (Outpoints a ++ [op]) (PrevOuts a) (ao_TxnsStore a).
Definition add_prev (po : PrevOut) (a : AddressOutpoints) : AddressOutpoints :=
  mkAO (ao_Address a) (Outpoints a) (PrevOuts a ++ [po]) (ao_TxnsStore a).

Section Index.
Context {lib : NodeLib}.

Definition IsStakeTx (tx : MsgTx) : bool := negb (bool_decide (DetermineTxType tx = TxTypeRegular)).
Definition TxTree (tx : MsgTx) : Z := if IsStakeTx tx then TxTreeStake else TxTreeRegular.

(** ** Outpoints *)
(** One address of an output. *)
Definition outpoint_addr (op : OutPoint) (st : MempoolAddressStore * gmap string bool) (addr : string)
    : MempoolAddressStore * gmap string bool :=
  let '(txAddrOuts, addrs) := st in
  match txAddrOuts !! addr with
  | None => (<[addr := mkAO addr [op] [] None]> txAddrOuts, <[addr := true]> addrs)
  | Some addrOuts =>
    (<[addr := add_op op addrOuts]> txAddrOuts, match addrs !! addr with Some _ => addrs | None => <[addr := false]> addrs end)
  end.

Definition outpoint_out (tx : MsgTx) (st : Z * MempoolAddressStore * gmap string bool) (iout : nat * TxOut)
    : Z * MempoolAddressStore * gmap string bool :=
  let '(newOuts, txAddrOuts, addrs) := st in
  let '(outIndex, txOut) := iout in
  let txOutAddrs := ExtractAddrs txOut in
  if zlen txOutAddrs =? 0 then st else
  let op := mkOutPoint (tx_Hash tx) (u32 (Z.of_nat outIndex)) (TxTree tx) in
  let '(txAddrOuts, addrs) := foldl (outpoint_addr op) (txAddrOuts, addrs) txOutAddrs in
  (newOuts + 1, txAddrOuts, addrs).

(** The index of each element. *)
Definition enum {A} (l : list A) : list (nat * A) := imap pair l.

Definition TxOutpointsByAddr (txAddrOuts : MempoolAddressStore) (tx : MsgTx) : Z * MempoolAddressStore * gmap string bool :=
  foldl (outpoint_out tx) (0, txAddrOuts, ∅) (enum (tx_TxOut tx)).

(** ** Previous outpoints *)
Definition ska_text (v : option Z) : string := match v with Some z => bigString z | None => "" end.
Definition coin_info (outs : list TxOut) : gmap Z CoinOutputInfo :=
  foldl (λ m '(i, o), <[u32 (Z.of_nat i) := mkCoinInfo (u8 (to_CoinType o)) (ska_text (to_SKAValue o))]> m) ∅ (enum outs).

Definition prevout_addr (po : PrevOut) (st : MempoolAddressStore * gmap string bool) (addr : string)
    : MempoolAddressStore * gmap string bool :=
  let '(txAddrOuts, addrs) := st in
  match txAddrOuts !! addr with
  | None => (<[addr := mkAO addr [] [po] None]> txAddrOuts, <[addr := true]> addrs)
  | Some addrOuts =>
    (<[addr := add_prev po addrOuts]> txAddrOuts, match addrs !! addr with Some _ => addrs | None => <[addr := false]> addrs end)
  end.

Record prev_state := mkPrev {
  newPrevOuts : Z; p_store : MempoolAddressStore; p_txns : TxnsStore; p_addrs : gmap string bool; valsIn : list Z
}.

(** One input with its answer: [Ok None] where the function returns early,
    [Panic] where the output index is out of range. *)
Definition prevout_in (tx : MsgTx) (inIdx : nat) (txIn : TxIn) (st : prev_state) : res unit (option prev_state) :=
  let prevOut := ti_PreviousOutPoint txIn in
  let hash := op_Hash prevOut in
  match GetRawTransactionVerbose hash with
  | None => Ok None
  | Some raw =>
    if negb (bool_decide (raw_Txid raw = HashString hash)) then Ok (Some st) else
    match MsgTxFromHex (raw_Hex raw) with
    | None => Ok (Some st)
    | Some prevTx =>
      match slice_at (tx_TxOut prevTx) (op_Index prevOut) with
      | None => Panic
      | Some txOut =>
        let vals := if to_CoinType txOut =? 0 then <[inIdx := to_Value txOut]> (valsIn st) else valsIn st in
        let txAddrs := ExtractAddrs txOut in
        if zlen txAddrs =? 0 then Ok (Some (mkPrev (newPrevOuts st) (p_store st) (p_txns st) (p_addrs st) vals)) else
        let twb := mkTwb prevTx (raw_BlockHeight raw) (raw_BlockHash raw) 0 (coin_info (tx_TxOut prevTx)) in
        let po := mkPrevOut (tx_Hash tx) (Z.of_nat inIdx) (mkOutPoint hash (op_Index prevOut) (TxTree prevTx))
                    (u8 (to_CoinType txOut)) (ska_text (to_SKAValue txOut)) in
        let '(store, addrs) := foldl (prevout_addr po) (p_store st, p_addrs st) txAddrs in
        Ok (Some (mkPrev (newPrevOuts st + 1) store (<[hash := twb]> (p_txns st)) addrs vals))
      end
    end
  end.

Fixpoint prevouts (tx : MsgTx) (ins : list (nat * TxIn)) (st : prev_state) : res unit prev_state :=
  match ins with
  | [] => Ok st
  | (i, txIn) :: ins =>
    match prevout_in tx i txIn st with
    | Ok (Some st) => prevouts tx ins st
    | Ok None => Ok st
    | Err e => Err e
    | Panic => Panic
    | NoFuel => NoFuel
    end
  end.

(** The inputs with a previous transaction: not of a coinbase or stakebase. *)
Definition real_ins (tx : MsgTx) : list (nat * TxIn) :=
  filter (λ x, op_Hash (ti_PreviousOutPoint (snd x)) ≠ zeroHash) (enum (tx_TxIn tx)).

Definition TxPrevOutsByAddr (txAddrOuts : MempoolAddressStore) (txnsStore : TxnsStore) (tx : MsgTx) : res unit prev_state :=
  prevouts tx (real_ins tx) (mkPrev 0 txAddrOuts txnsStore ∅ (replicate (length (tx_TxIn tx)) 0)).

(** ** The query *)
Definition see (seen : gmap Z (gset Hash)) (ct : Z) (h : Hash) : gmap Z (gset Hash) :=
  <[ct := {[h]} ∪ default ∅ (seen !! ct)]> seen.

(** The coin type of an outpoint. *)
Definition op_coin (txns : TxnsStore) (op : OutPoint) : Z :=
  match txns !! op_Hash op with
  | None => 0
  | Some d =>
    match CoinInfo d !! op_Index op with
    | Some inf => ci_CoinType inf
    | None => match slice_at (tx_TxOut (twb_Tx d)) (op_Index op) with Some o => u8 (to_CoinType o) | None => 0 end
    end
  end.

Abbreviation AddrTxns := (gmap Hash (option TxWithBlockData)).

Definition query_op (txns : TxnsStore) (st : AddrTxns * gmap Z (gset Hash)) (op : OutPoint) : AddrTxns * gmap Z (gset Hash) :=
  let '(store, seen) := st in
  match store !! op_Hash op, txns !! op_Hash op with
  | None, None => st
  | None, Some d => (<[op_Hash op := Some d]> store, see seen (op_coin txns op) (op_Hash op))
  | Some _, _ => (store, see seen (op_coin txns op) (op_Hash op))
  end.

(** [if _, found := store[h]; !found { store[h] = txns[h] }], nil included. *)
Definition cache_tx (txns : TxnsStore) (store : AddrTxns) (h : Hash) : AddrTxns :=
  match store !! h with Some _ => store | None => <[h := txns !! h]> store end.

Definition query_prev (txns : TxnsStore) (st : AddrTxns * gmap Z (gset Hash)) (po : PrevOut) : AddrTxns * gmap Z (gset Hash) :=
  let '(store, seen) := st in
  (cache_tx txns (cache_tx txns store (TxSpending po)) (op_Hash (PreviousOutpoint po)),
   see seen (po_CoinType po) (TxSpending po)).

(** The store is nil before the first collection.  The answer shares the
    address's entry with the store, which keeps what the query caches. *)
Definition UnconfirmedTxnsForAddress (store : option MempoolAddressStore) (txns : TxnsStore) (address : string)
    : option (option MempoolAddressStore * AddressOutpoints * option (gmap Z Z)) :=
  match store with
  | None => None
  | Some addrStore =>
    match addrStore !! address with
    | None => Some (store, NewAddressOutpoints address, None)
    | Some outs =>
      let st := (default ∅ (ao_TxnsStore outs), ∅) in
      let st := foldl (query_op txns) st (Outpoints outs) in
      let '(cache, seen) := foldl (query_prev txns) st (PrevOuts outs) in
      let outs := mkAO (ao_Address outs) (Outpoints outs) (PrevOuts outs) (Some cache) in
      Some (Some (<[address := outs]> addrStore), outs, Some ((λ s : gset Hash, Z.of_nat (size s)) <$> seen))
    end
  end.

(** ** The reference: the events of a transaction *)
Inductive event := Paid (op : OutPoint) | Spent (po : PrevOut).

Definition paid (e : event) : option OutPoint := match e with Paid op => Some op | Spent _ => None end.
Definition spent (e : event) : option PrevOut := match e with Spent po => Some po | Paid _ => None end.

(** An entry after the events [l] of its address: new entries start empty. *)
Definition extend (o : option AddressOutpoints) (a : string) (l : list event) : option AddressOutpoints :=
  match l with
  | [] => o
  | _ =>
    let x := default (mkAO a [] [] None) o in
    Some (mkAO (ao_Address x) (Outpoints x ++ omap paid l) (PrevOuts x ++ omap spent l) (ao_TxnsStore x))
  end.

Definition of_addr (a : string) (es : list (event * string)) : list event := fst <$> filter (λ x, snd x = a) es.

(** The addresses the outputs pay, with their outpoints. *)
Definition out_events (tx : MsgTx) (outs : list (nat * TxOut)) : list (event * string) :=
  concat ((λ '(i, o), pair (Paid (mkOutPoint (tx_Hash tx) (u32 (Z.of_nat i)) (TxTree tx))) <$> ExtractAddrs o) <$> outs).

(** The addresses the inputs spend from, up to the first one the node does not
    answer for. *)
Fixpoint in_events (tx : MsgTx) (ins : list (nat * TxIn)) : list (event * string) :=
  match ins with
  | [] => []
  | (i, txIn) :: ins =>
    let op := ti_PreviousOutPoint txIn in
    match GetRawTransactionVerbose (op_Hash op) with
    | None => []
    | Some raw =>
      (if bool_decide (raw_Txid raw = HashString (op_Hash op)) then
         match MsgTxFromHex (raw_Hex raw) with
         | Some prevTx =>
           match slice_at (tx_TxOut prevTx) (op_Index op) with
           | Some o =>
             pair (Spent (mkPrevOut (tx_Hash tx) (Z.of_nat i) (mkOutPoint (op_Hash op) (op_Index op) (TxTree prevTx))
                            (u8 (to_CoinType o)) (ska_text (to_SKAValue o)))) <$> ExtractAddrs o
           | None => []
           end
         | None => []
         end
       else []) ++ in_events tx ins
    end
  end.

Definition apply_event (st : MempoolAddressStore * gmap string bool) (x : event * string) : MempoolAddressStore * gmap string bool :=
  match fst x with Paid op => outpoint_addr op st (snd x) | Spent po => prevout_addr po st (snd x) end.

(** [addrs] after the events: an entry for each address with an event, true
    when the address was not in the store. *)
Definition indexed (store : MempoolAddressStore) (es : list (event * string)) (st : MempoolAddressStore * gmap string bool) : Prop :=
  ∀ a, fst st !! a = extend (store !! a) a (of_addr a es) ∧
       snd st !! a = match of_addr a es with [] => None | _ => Some (bool_decide (store !! a = None)) end.

Lemma of_addr_snoc a es e b : of_addr a (es ++ [(e, b)]) = of_addr a es ++ (if decide (b = a) then [e] else []).
Proof. unfold of_addr. rewrite filter_app, fmap_app. f_equal. rewrite filter_cons. cbn. by case_decide. Qed.

Lemma extend_snoc o a l e : extend o a (l ++ [e]) =
  Some (match extend o a l with
        | None => match e with Paid op => mkAO a [op] [] None | Spent po => mkAO a [] [po] None end
        | Some x => match e with Paid op => add_op op x | Spent po => add_prev po x end
        end).
Proof.
  destruct l as [|e' l]; cbn [app extend].
  - destruct o as [x|], e; cbn; rewrite ?app_nil_r; done.
  - change (e' :: l ++ [e]) with ((e' :: l) ++ [e]). rewrite !omap_app. destruct e; cbn; rewrite ?app_nil_r, ?app_assoc; done.
Qed.

Lemma extend_None o a l : extend o a l = None → o = None ∧ l = [].
Proof. destruct l; [done|]. by intros. Qed.

Lemma apply_event_indexed store es st x : indexed store es st → indexed store (es ++ [x]) (apply_event st x).
Proof.
  intros Hi a. destruct x as [e b], st as [st addrs]. rewrite of_addr_snoc. cbn [fst snd] in *.
  destruct (Hi b) as [Hs Ha]. cbn [fst snd] in Hs, Ha.
  assert (apply_event (st, addrs) (e, b) =
    (<[b := match st !! b with
            | None => match e with Paid op => mkAO b [op] [] None | Spent po => mkAO b [] [po] None end
            | Some x => match e with Paid op => add_op op x | Spent po => add_prev po x end end]> st,
     match st !! b with None => <[b := true]> addrs | Some _ => match addrs !! b with Some _ => addrs | None => <[b := false]> addrs end end)) as ->.
  { unfold apply_event, outpoint_addr, prevout_addr. cbn [fst snd]. destruct e, (st !! b); done. }
  cbn [fst snd]. destruct (decide (b = a)) as [->|Hne].
  - rewrite lookup_insert_eq. split; [by rewrite extend_snoc, <- Hs|].
    destruct (st !! a) as [x|] eqn:Ex.
    + destruct (of_addr a es) as [|e' l] eqn:El; cbn [app]; rewrite Ha; [|exact Ha].
      rewrite lookup_insert_eq. cbn in Hs. by rewrite <- Hs.
    + symmetry in Hs. apply extend_None in Hs as [Hs0 El]. rewrite El, Hs0. cbn. by rewrite lookup_insert_eq.
  - rewrite app_nil_r, lookup_insert_ne by done. destruct (Hi a) as [Hs' Ha']. cbn [fst snd] in Hs', Ha'. split; [done|].
    destruct (st !! b); [destruct (addrs !! b)|]; rewrite ?lookup_insert_ne by done; done.
Qed.

Lemma events_indexed store es es' st : indexed store es st → indexed store (es ++ es') (foldl apply_event st es').
Proof.
  revert es st. induction es' as [|x es' IH]; intros es st Hi; cbn [foldl]; [by rewrite app_nil_r|].
  change (x :: es') with ([x] ++ es'). rewrite app_assoc. by apply IH, apply_event_indexed.
Qed.

Lemma indexed_start store : indexed store [] (store, ∅).
Proof. intros a. split; [done|]. apply lookup_empty. Qed.

(** The loops are folds over the events. *)
Lemma outpoints_events tx outs : ∀ n store addrs,
  let '(n', store', addrs') := foldl (outpoint_out tx) (n, store, addrs) outs in
  (store', addrs') = foldl apply_event (store, addrs) (out_events tx outs) ∧
  n' = n + zlen (filter (λ x, ExtractAddrs (snd x) ≠ []) outs).
Proof.
  induction outs as [|[i o] outs IH]; intros n store addrs.
  - cbn. split; [done|]. unfold zlen. cbn. lia.
  - change (out_events tx ((i, o) :: outs)) with
      ((pair (Paid (mkOutPoint (tx_Hash tx) (u32 (Z.of_nat i)) (TxTree tx))) <$> ExtractAddrs o) ++ out_events tx outs).
    cbn [foldl]. unfold outpoint_out at 2. rewrite filter_cons. cbn [snd].
    destruct (ExtractAddrs o) as [|a l] eqn:E; cbn [fmap list_fmap].
    + change (zlen (@nil string) =? 0) with true. cbn iota. specialize (IH n store addrs).
      destruct (foldl (outpoint_out tx) (n, store, addrs) outs) as [[n' store'] addrs']. case_decide; [done|]. exact IH.
    + destruct (Z.eqb_spec (zlen (a :: l)) 0) as [E0|_]; [unfold zlen in E0; cbn in E0; lia|].
      rewrite foldl_app.
      assert (∀ st, foldl apply_event st (pair (Paid (mkOutPoint (tx_Hash tx) (u32 (Z.of_nat i)) (TxTree tx))) <$> a :: l) =
        foldl (outpoint_addr (mkOutPoint (tx_Hash tx) (u32 (Z.of_nat i)) (TxTree tx))) st (a :: l)) as G.
      { clear. induction (a :: l) as [|b k IH]; intros st; [done|]. cbn. apply IH. }
      change (_ :: (pair ?p <$> l)) with (pair p <$> a :: l). rewrite G.
      destruct (foldl (outpoint_addr _) (store, addrs) (a :: l)) as [st1 ad1]. specialize (IH (n + 1) st1 ad1).
      destruct (foldl (outpoint_out tx) (n + 1, st1, ad1) outs) as [[n' store'] addrs']. destruct IH as [IH1 ->]. split; [done|].
      case_decide; [|done]. change (zlen (?x :: ?y)) with (zlen ([x] ++ y)). rewrite zlen_app. change (zlen [_]) with 1. lia.
Qed.

Lemma foldl_events {A} (mk : A → event) (x : A) (l : list string) f st :
  (∀ st a, f st a = apply_event st (mk x, a)) →
  foldl f st l = foldl apply_event st (pair (mk x) <$> l).
Proof. intros Hf. revert st. induction l as [|a l IH]; intros st; [done|]. cbn. by rewrite Hf, IH. Qed.

Lemma prevouts_events tx ins : ∀ st st', prevouts tx ins st = Ok st' →
  (p_store st', p_addrs st') = foldl apply_event (p_store st, p_addrs st) (in_events tx ins).
Proof.
  induction ins as [|[i txIn] ins IH]; intros st st'; cbn [prevouts in_events]; [by intros [= ->]|].
  unfold prevout_in. destruct (GetRawTransactionVerbose _) as [raw|]; [|by intros [= ->]].
  case_bool_decide as Et; cbn [negb]; [|cbn [app]; apply IH].
  destruct (MsgTxFromHex _) as [prevTx|]; [|cbn [app]; apply IH].
  destruct (slice_at _ _) as [o|]; [|done]. destruct (ExtractAddrs o) as [|a l] eqn:E.
  - change (zlen (@nil string) =? 0) with true. cbn iota. intros H. by apply IH in H.
  - destruct (Z.eqb_spec (zlen (a :: l)) 0) as [E0|_]; [unfold zlen in E0; cbn in E0; lia|].
    destruct (foldl (prevout_addr _) _ (a :: l)) as [store addrs] eqn:F. intros H. apply IH in H. rewrite H. cbn [p_store p_addrs].
    rewrite foldl_app, <- F. f_equal. apply (foldl_events Spent). by intros [].
Qed.

(** C35: the index after a transaction: for every store of the mempool, adding the
    outputs and then the inputs of a transaction leaves, for each address, the
    old entry followed by the outpoints that pay it and the previous outpoints
    that paid it, in the order of the outputs and inputs up to the first the
    node does not answer for; new entries exist exactly for addresses with such
    an event; the returned maps name the addresses involved and whether they
    were new; the first count is the number of outputs that pay an address. *)
Theorem index_after_tx (store store1 : MempoolAddressStore) (txns : TxnsStore) (tx : MsgTx) newOuts addrs1 st :
  TxOutpointsByAddr store tx = (newOuts, store1, addrs1) →
  TxPrevOutsByAddr store1 txns tx = Ok st →
  let outs := out_events tx (enum (tx_TxOut tx)) in
  let ins := in_events tx (real_ins tx) in
  (∀ a, p_store st !! a = extend (store !! a) a (of_addr a (outs ++ ins))) ∧
  (∀ a, addrs1 !! a = match of_addr a outs with [] => None | _ => Some (bool_decide (store !! a = None)) end) ∧
  (∀ a, p_addrs st !! a = match of_addr a ins with [] => None | _ => Some (bool_decide (store1 !! a = None)) end) ∧
  newOuts = zlen (filter (λ o, ExtractAddrs o ≠ []) (tx_TxOut tx)).
Proof.
  intros H1 H2 outs ins. unfold TxOutpointsByAddr in H1. unfold TxPrevOutsByAddr in H2.
  pose proof (outpoints_events tx (enum (tx_TxOut tx)) 0 store ∅) as G. rewrite H1 in G. destruct G as [G1 G2].
  apply prevouts_events in H2. cbn [p_store p_addrs] in H2. fold outs in G1. fold ins in H2.
  assert (indexed store outs (store1, addrs1)) as I1.
  { rewrite G1. apply (events_indexed store []), indexed_start. }
  assert (indexed store1 ins (p_store st, p_addrs st)) as I2.
  { rewrite H2. apply (events_indexed store1 []), indexed_start. }
  split; [|split; [|split]].
  - intros a. destruct (I2 a) as [E2 _], (I1 a) as [E _]. cbn [fst] in E, E2. rewrite E2, E. unfold of_addr. rewrite filter_app, fmap_app.
    fold (of_addr a outs) (of_addr a ins). generalize (of_addr a outs) (of_addr a ins). clear. intros l1 l2.
    induction l2 as [|e l2 IH] using rev_ind; [by rewrite app_nil_r|]. by rewrite app_assoc, !extend_snoc, IH.
  - intros a. apply I1.
  - intros a. apply I2.
  - rewrite G2, Z.add_0_l. unfold enum. clear.
    assert (∀ (l : list TxOut) (f : nat → TxOut → nat * TxOut), (∀ i o, snd (f i o) = o) →
      zlen (filter (λ x, ExtractAddrs (snd x) ≠ []) (imap f l)) = zlen (filter (λ o, ExtractAddrs o ≠ []) l)) as G; [|by apply G].
    induction l as [|o l IH]; intros f Hf; [done|]. cbn [imap]. rewrite !filter_cons, Hf.
    specialize (IH (f ∘ S) (λ i o', Hf (S i) o')). unfold zlen in *. repeat case_decide; cbn [length]; [|done..]. lia.
Qed.

(** ** The counts of a query *)
(** The transactions of an entry that count for a coin: those of outpoints of
    the coin that are in the store or already cached, and those that spend a
    previous outpoint of the coin. *)
Definition known (txns : TxnsStore) (cache : AddrTxns) (h : Hash) : Prop := is_Some (txns !! h) ∨ is_Some (cache !! h).
#[local] Instance known_dec txns cache h : Decision (known txns cache h).
Proof. unfold known. apply _. Defined.

Definition coin_txs (txns : TxnsStore) (cache : AddrTxns) (a : AddressOutpoints) (ct : Z) : gset Hash :=
  list_to_set (op_Hash <$> filter (λ op, op_coin txns op = ct ∧ known txns cache (op_Hash op)) (Outpoints a)) ∪
  list_to_set (TxSpending <$> filter (λ po, po_CoinType po = ct) (PrevOuts a)).

(** [seen] holds exactly the sets [f ct], empty ones left out. *)
Definition seen_is (seen : gmap Z (gset Hash)) (f : Z → gset Hash) : Prop :=
  ∀ ct, seen !! ct = if decide (f ct = ∅) then None else Some (f ct).

Lemma add_ne (h : Hash) (s : gset Hash) : {[h]} ∪ s ≠ ∅.
Proof. set_solver. Qed.

Lemma see_is seen f ct h : seen_is seen f → seen_is (see seen ct h) (λ c, if decide (c = ct) then {[h]} ∪ f c else f c).
Proof.
  intros Hs c. unfold see. destruct (decide (c = ct)) as [->|Hne].
  - rewrite lookup_insert_eq, Hs. destruct (decide ({[h]} ∪ f ct = ∅)) as [E|_]; [by destruct (add_ne h (f ct))|]. f_equal. case_decide as E; [by rewrite E|done].
  - rewrite lookup_insert_ne by done. apply Hs.
Qed.

Lemma seen_is_ext seen f g : (∀ ct, f ct = g ct) → seen_is seen f → seen_is seen g.
Proof. intros E Hs ct. by rewrite <- E. Qed.

Lemma query_ops_spec txns cache0 ops : ∀ cache seen f,
  (∀ h, known txns cache h ↔ known txns cache0 h) → seen_is seen f →
  let '(cache', seen') := foldl (query_op txns) (cache, seen) ops in
  (∀ h, known txns cache' h ↔ known txns cache0 h) ∧
  (∀ h v, cache !! h = Some v → cache' !! h = Some v) ∧
  seen_is seen' (λ ct, f ct ∪ list_to_set (op_Hash <$> filter (λ op, op_coin txns op = ct ∧ known txns cache0 (op_Hash op)) ops)).
Proof.
  induction ops as [|op ops IH]; intros cache seen f Hk Hs; cbn [foldl].
  - split; [done|]. split; [done|]. eapply seen_is_ext; [|exact Hs]. intros ct. cbn. by rewrite union_empty_r_L.
  - assert (known txns cache0 (op_Hash op) → 
      seen_is (see seen (op_coin txns op) (op_Hash op)) (λ c, if decide (c = op_coin txns op) then {[op_Hash op]} ∪ f c else f c)) as Hsee.
    { intros _. by apply see_is. }
    assert (∀ cache1 seen1 f1, foldl (query_op txns) (cache1, seen1) ops = foldl (query_op txns) (query_op txns (cache, seen) op) ops →
      (∀ h, known txns cache1 h ↔ known txns cache0 h) → (∀ h v, cache !! h = Some v → cache1 !! h = Some v) → seen_is seen1 f1 →
      (∀ ct, f1 ct = f ct ∪ list_to_set (op_Hash <$> filter (λ op, op_coin txns op = ct ∧ known txns cache0 (op_Hash op)) [op])) →
      let '(cache', seen') := foldl (query_op txns) (query_op txns (cache, seen) op) ops in
      (∀ h, known txns cache' h ↔ known txns cache0 h) ∧ (∀ h v, cache !! h = Some v → cache' !! h = Some v) ∧
      seen_is seen' (λ ct, f ct ∪ list_to_set (op_Hash <$> filter (λ op, op_coin txns op = ct ∧ known txns cache0 (op_Hash op)) (op :: ops)))) as G.
    { intros cache1 seen1 f1 <- Hk1 Hc1 Hs1 Hf1. specialize (IH cache1 seen1 f1 Hk1 Hs1).
      destruct (foldl (query_op txns) (cache1, seen1) ops) as [cache' seen']. destruct IH as (G1 & G2 & G3).
      split; [done|]. split; [auto|]. eapply seen_is_ext; [|exact G3]. intros ct. cbn beta. rewrite Hf1.
      change (op :: ops) with ([op] ++ ops). rewrite filter_app, fmap_app, list_to_set_app_L. by rewrite (assoc_L (∪)). }
    assert (∀ ct, (if decide (ct = op_coin txns op) then {[op_Hash op]} ∪ f ct else f ct) = f ct ∪
        list_to_set (op_Hash <$> filter (λ op, op_coin txns op = ct ∧ known txns cache0 (op_Hash op)) [op])
        ∨ ¬ known txns cache0 (op_Hash op)) as Hf.
    { intros ct. destruct (decide (known txns cache0 (op_Hash op))) as [Hkn|]; [left|by right].
      rewrite filter_cons, filter_nil. destruct (decide (ct = op_coin txns op)), (decide (op_coin txns op = ct ∧ known txns cache0 (op_Hash op))); cbn; set_solver. }
    unfold query_op in *. destruct (cache !! op_Hash op) as [v|] eqn:Ec; [|destruct (txns !! op_Hash op) as [d|] eqn:Ed].
    + assert (known txns cache0 (op_Hash op)) as Hkn by (apply Hk; right; by rewrite Ec).
      eapply G; [reflexivity|done|done|by apply Hsee|]. intros ct. by destruct (Hf ct).
    + assert (known txns cache0 (op_Hash op)) as Hkn by (apply Hk; left; by rewrite Ed).
      eapply G; [reflexivity| | |by apply Hsee|].
      * intros h. rewrite <- Hk. unfold known. destruct (decide (h = op_Hash op)) as [->|]; [rewrite Ed; naive_solver|].
        by rewrite lookup_insert_ne.
      * intros h v Hv. rewrite lookup_insert_ne; [done|]. intros <-. congruence.
      * intros ct. by destruct (Hf ct).
    + assert (¬ known txns cache0 (op_Hash op)) as Hkn by (rewrite <- Hk; unfold known; rewrite Ec, Ed; intros [[]|[]]; done).
      eapply G; [reflexivity|done|done|exact Hs|]. intros ct. rewrite filter_cons_False by naive_solver. cbn. set_solver.
Qed.

Lemma cache_tx_keeps txns cache h k v : cache !! k = Some v → cache_tx txns cache h !! k = Some v.
Proof. intros Hk. unfold cache_tx. destruct (cache !! h) eqn:E; [done|]. rewrite lookup_insert_ne; [done|]. congruence. Qed.

Lemma cache_tx_lookup txns cache h : cache_tx txns cache h !! h = Some (default (txns !! h) (cache !! h)).
Proof. unfold cache_tx. destruct (cache !! h) eqn:E; [by rewrite E|]. by rewrite lookup_insert_eq. Qed.

Lemma query_prevs_spec txns pos : ∀ cache seen f, seen_is seen f →
  let '(cache', seen') := foldl (query_prev txns) (cache, seen) pos in
  (∀ h v, cache !! h = Some v → cache' !! h = Some v) ∧
  (∀ po, po ∈ pos → is_Some (cache' !! TxSpending po)) ∧
  (∀ h, cache !! h = None → cache' !! h = None ∨ cache' !! h = Some (txns !! h)) ∧
  seen_is seen' (λ ct, f ct ∪ list_to_set (TxSpending <$> filter (λ po, po_CoinType po = ct) pos)).
Proof.
  induction pos as [|po pos IH]; intros cache seen f Hs; cbn [foldl].
  - split; [done|]. split; [by intros ? ?%elem_of_nil|]. split; [auto|]. eapply seen_is_ext; [|exact Hs]. intros ct. cbn. by rewrite union_empty_r_L.
  - cbn [query_prev]. set (c1 := cache_tx txns (cache_tx txns cache (TxSpending po)) _).
    specialize (IH c1 _ _ (see_is seen f (po_CoinType po) (TxSpending po) Hs)). destruct (foldl _ _ pos) as [cache' seen'].
    destruct IH as (G1 & G2 & G3 & G4). split; [|split; [|split]].
    + intros h v Hv. by apply G1, cache_tx_keeps, cache_tx_keeps.
    + intros p [->|Hp]%elem_of_cons; [|by apply G2]. eexists. apply G1, cache_tx_keeps, cache_tx_lookup.
    + intros h Hh. assert (c1 !! h = None ∨ c1 !! h = Some (txns !! h)) as [E|E]; [|by apply G3|right; by apply G1].
      assert (∀ cc : AddrTxns, (cc !! h = None ∨ cc !! h = Some (txns !! h)) → ∀ k,
        cache_tx txns cc k !! h = None ∨ cache_tx txns cc k !! h = Some (txns !! h)) as C.
      { intros cc Hcc k. unfold cache_tx. destruct (cc !! k) eqn:Ek; [done|]. destruct (decide (k = h)) as [->|].
        - right. by rewrite lookup_insert_eq. - by rewrite lookup_insert_ne. }
      apply C, C. by left.
    + eapply seen_is_ext; [|exact G4]. intros ct. cbn beta. rewrite filter_cons.
      destruct (decide (ct = po_CoinType po)), (decide (po_CoinType po = ct)); try congruence; cbn; set_solver.
Qed.

(** The answer of a query on an address in the index: its lists are those of
    the entry, only this entry changes and only by caching transactions, and
    the counts give, for every coin with one, the number of distinct
    transactions of the entry that count for it. *)
Theorem Unconfirmed_counts (store : MempoolAddressStore) (txns : TxnsStore) (address : string) (a : AddressOutpoints) :
  store !! address = Some a →
  ∃ cache counts,
    let a' := mkAO (ao_Address a) (Outpoints a) (PrevOuts a) (Some cache) in
    UnconfirmedTxnsForAddress (Some store) txns address = Some (Some (<[address := a']> store), a', Some counts) ∧
    (∀ h v, default ∅ (ao_TxnsStore a) !! h = Some v → cache !! h = Some v) ∧
    (∀ ct, counts !! ct = let s := coin_txs txns (default ∅ (ao_TxnsStore a)) a ct in
             if decide (s = ∅) then None else Some (Z.of_nat (size s))).
Proof.
  intros Ha. unfold UnconfirmedTxnsForAddress. rewrite Ha.
  pose proof (query_ops_spec txns (default ∅ (ao_TxnsStore a)) (Outpoints a) (default ∅ (ao_TxnsStore a)) ∅ (λ _, ∅)
    (λ h, iff_refl _) (λ ct, lookup_empty ct)) as G.
  destruct (foldl (query_op txns) _ (Outpoints a)) as [cache1 seen1]. destruct G as (_ & G1 & G2).
  pose proof (query_prevs_spec txns (PrevOuts a) cache1 seen1 _ G2) as K.
  destruct (foldl (query_prev txns) _ (PrevOuts a)) as [cache2 seen2]. destruct K as (K1 & _ & _ & K2).
  eexists cache2, _. split; [reflexivity|]. split; [auto|]. intros ct. rewrite lookup_fmap, K2. cbn zeta.
  rewrite (union_empty_l_L (list_to_set (op_Hash <$> _))). fold (coin_txs txns (default ∅ (ao_TxnsStore a)) a ct). by case_decide.
Qed.

(** A missing transaction is cached as nil: when the index holds a previous
    outpoint spent by a transaction that is in neither store, as while TxHandler
    is between indexing a transaction and storing it, the answer has a nil entry
    for it, and every later query answers nil for it although the transaction
    has been stored since. *)
Theorem Unconfirmed_caches_nil (store : MempoolAddressStore) (txns txns' : TxnsStore) (address : string) (a : AddressOutpoints) po :
  store !! address = Some a → po ∈ PrevOuts a →
  TxSpending po ∉ op_Hash <$> Outpoints a →
  default ∅ (ao_TxnsStore a) !! TxSpending po = None → txns !! TxSpending po = None →
  ∃ store' a1 c1,
    UnconfirmedTxnsForAddress (Some store) txns address = Some (Some store', a1, c1) ∧
    default ∅ (ao_TxnsStore a1) !! TxSpending po = Some None ∧
    ∃ store'' a2 c2, UnconfirmedTxnsForAddress (Some store') txns' address = Some (Some store'', a2, c2) ∧
      default ∅ (ao_TxnsStore a2) !! TxSpending po = Some None.
Proof.
  intros Ha Hpo Hnot Hc Ht. unfold UnconfirmedTxnsForAddress at 1. rewrite Ha.
  set (c0 := default ∅ (ao_TxnsStore a)) in *.
  assert (∀ ops cache seen, TxSpending po ∉ op_Hash <$> ops → cache !! TxSpending po = None →
    fst (foldl (query_op txns) (cache, seen) ops) !! TxSpending po = None) as G.
  { induction ops as [|op ops IH]; intros cache seen Hn E; [done|]. cbn [foldl fmap list_fmap] in *.
    apply not_elem_of_cons in Hn as [Hn1 Hn2]. unfold query_op at 2.
    destruct (cache !! op_Hash op), (txns !! op_Hash op); apply IH; try done. by rewrite lookup_insert_ne. }
  specialize (G (Outpoints a) c0 ∅ Hnot Hc).
  pose proof (query_ops_spec txns c0 (Outpoints a) c0 ∅ (λ _, ∅) (λ h, iff_refl _) (λ ct, lookup_empty ct)) as Q.
  destruct (foldl (query_op txns) _ (Outpoints a)) as [cache1 seen1]. cbn [fst] in G. destruct Q as (_ & _ & Q).
  pose proof (query_prevs_spec txns (PrevOuts a) cache1 seen1 _ Q) as K.
  destruct (foldl (query_prev txns) _ (PrevOuts a)) as [cache2 seen2]. destruct K as (_ & K1 & K2 & _).
  assert (cache2 !! TxSpending po = Some None) as E.
  { rewrite <- Ht. destruct (K2 _ G) as [E|E]; [|done]. destruct (K1 _ Hpo). congruence. }
  eexists _, _, _. split; [reflexivity|]. split; [exact E|].
  edestruct (Unconfirmed_counts (<[address := mkAO (ao_Address a) (Outpoints a) (PrevOuts a) (Some cache2)]> store) txns' address)
    as (c & n & H1 & H2 & _); [apply lookup_insert_eq|].
  eexists _, _, _. split; [exact H1|]. cbn. by apply H2.
Qed.
End Index.

Module Witness.
Definition hA : Hash := repeat 1 32.
Definition hB : Hash := repeat 2 32.
Definition prevTx : MsgTx := mkTx hA [] [mkTxOut 7 0 None [1]].
#[export] Instance toyLib : NodeLib := {
  ExtractAddrs o := match to_PkScript o with [] => [] | _ => ["Ds"%string] end;
  DetermineTxType _ := TxTypeRegular;
  TxTreeRegular := 0; TxTreeStake := 1;
  HashString h := if bool_decide (h = hA) then "aa" else "bb";
  MsgTxFromHex _ := Some prevTx;
  GetRawTransactionVerbose h := if bool_decide (h = hA) then Some (mkRaw "aa" "" 9 "blk") else None
}.
(** A transaction that spends the output of [prevTx] and pays the same address. *)
Definition spend : MsgTx := mkTx hB [mkTxIn (mkOutPoint hA 0 0) 7 None] [mkTxOut 5 0 None [1]; mkTxOut 1 0 None []].

Definition isOk {E A} (r : res E A) : bool := match r with Ok _ => true | _ => false end.
Lemma isOk_inv {E A} (r : res E A) : isOk r = true → ∃ x, r = Ok x.
Proof. destruct r; [|done..]. by eexists. Qed.

Definition store1 : MempoolAddressStore := snd (fst (TxOutpointsByAddr ∅ spend)).
Lemma spend_indexed : isOk (TxPrevOutsByAddr store1 ∅ spend) = true.
Proof. vm_compute. reflexivity. Qed.

Lemma index_after_tx_witness : ∃ st, TxPrevOutsByAddr store1 ∅ spend = Ok st ∧
  (∀ a, p_store st !! a = extend ((∅ : MempoolAddressStore) !! a) a
     (of_addr a (out_events spend (enum (tx_TxOut spend)) ++ in_events spend (real_ins spend)))).
Proof.
  destruct (isOk_inv _ spend_indexed) as [st E]. exists st. split; [exact E|].
  apply (index_after_tx ∅ store1 ∅ spend (fst (fst (TxOutpointsByAddr ∅ spend))) (snd (TxOutpointsByAddr ∅ spend)) st); [|exact E].
  unfold store1. by destruct (TxOutpointsByAddr ∅ spend) as [[n s] ad].
Defined.

Definition entry : AddressOutpoints :=
  mkAO "Ds" [] [mkPrevOut hB 0 (mkOutPoint hA 0 0) 0 ""] None.

Lemma Unconfirmed_counts_witness : ∃ cache counts,
  UnconfirmedTxnsForAddress (Some {["Ds"%string := entry]}) ∅ "Ds" =
    Some (Some (<["Ds"%string := mkAO "Ds" [] (PrevOuts entry) (Some cache)]> {["Ds"%string := entry]}),
          mkAO "Ds" [] (PrevOuts entry) (Some cache), Some counts).
Proof.
  destruct (Unconfirmed_counts {["Ds"%string := entry]} ∅ "Ds" entry) as (cache & counts & H & _); [apply lookup_singleton_eq|].
  exists cache, counts. exact H.
Defined.

Lemma Unconfirmed_caches_nil_witness : ∃ store' a1 c1,
  UnconfirmedTxnsForAddress (Some {["Ds"%string := entry]}) ∅ "Ds" = Some (Some store', a1, c1) ∧
  default ∅ (ao_TxnsStore a1) !! hB = Some None.
Proof.
  destruct (Unconfirmed_caches_nil {["Ds"%string := entry]} ∅ ∅ "Ds" entry (mkPrevOut hB 0 (mkOutPoint hA 0 0) 0 ""))
    as (s & a1 & c1 & H & E & _).
  - apply lookup_singleton_eq.
  - left.
  - apply not_elem_of_nil.
  - reflexivity.
  - reflexivity.
  - exists s, a1, c1. split; [exact H|exact E].
Defined.
End Witness.
