(* ===== verification/Mempool.v ===== *)
(** * The mempool inventory (mempool/collector.go, mempool/monitor.go)

    The inventory of mempool transactions as ParseTxns builds it from all
    transactions and as TxHandler extends it with each new one, over the address
    index, the votes and the statistics by coin.  The theorems show that the
    inventory always describes its history: lists without duplicates that
    agree with the sets and counts, votes counted once, statistics equal to the
    batch; and where a vote that could not be decoded stops the monitor. *)
From stdpp Require Import gmap strings sorting.
From S2P Require Import Prelude StakeTx MempoolVotes CoinStats MempoolAddr TxAmounts.
Open Scope Z_scope.

(** The block a vote decides on ([SSGenVoteChoices], which reads it with the
    node library), hashes in text, raw transactions, amounts in coins, and the
    texts for display. *)
Class MonLib := {
  SSGenVote : MsgTx → option BlockValidation;
  NewHashFromStr : string → option Hash;
  GetRawTransaction : Hash → option MsgTx;
  ToCoin : Z → float64;
  NewAmount : float64 → Z;
  humanizeBytes : Z → string
}.

(** sort.Sort by MPTxsByTime and MPTxsByHeight: some sorted permutation, by
    falling time, and by falling height and then rising index. *)
Definition newer (a b : MempoolTx) : Prop := Time b <= Time a.
Definition vote_key (tx : MempoolTx) : Z * Z :=
  match tx_VoteInfo tx with Some v => (bv_Height (Validation v), MempoolTicketIndex v) | None => (0, 0) end.
Definition vote_le (a b : MempoolTx) : Prop :=
  fst (vote_key b) < fst (vote_key a) ∨ fst (vote_key a) = fst (vote_key b) ∧ snd (vote_key a) <= snd (vote_key b).
Class TxSort := {
  sortByTime : list MempoolTx → list MempoolTx;
  sortVotes : list MempoolTx → list MempoolTx;
  sortByTime_perm : ∀ l, sortByTime l ≡ₚ l;
  sortByTime_sorted : ∀ l, StronglySorted newer (sortByTime l);
  sortVotes_perm : ∀ l, sortVotes l ≡ₚ l;
  sortVotes_sorted : ∀ l, StronglySorted vote_le (sortVotes l)
}.

(** The hash of the last block by its text. *)
Record BlockID := mkBlockID { bk_Hash : string; bk_Height : Z; bk_Time : Z }.

Record LikelyMineable := mkLikely {
  lm_Total : float64; lm_Size : Z; lm_FormattedSize : string; lm_RegularTotal : float64; lm_TicketTotal : float64;
  lm_VoteTotal : float64; lm_RevokeTotal : float64; lm_TAddTotal : float64; lm_Count : Z
}.

(** The lists of transactions and the sets of their hashes. *)
Record Inv := mkInv {
  Transactions : list MempoolTx; Tickets : list MempoolTx; Votes : list MempoolTx; Revocations : list MempoolTx;
  TSpends : list MempoolTx; TAdds : list MempoolTx; InvRegular : gset string; InvStake : gset string
}.

Record MempoolInfo := mkInfo {
  LastBlock : BlockID; mi_Time : Z; mi_TotalOut : float64; TotalSize : Z;
  NumTickets : Z; NumVotes : Z; NumRegular : Z; NumRevokes : Z; NumTSpends : Z; NumTAdds : Z; NumAll : Z;
  mi_Likely : LikelyMineable; LatestTransactions : list MempoolTx; FormattedTotalSize : string;
  TicketIndexes : BlockValidatorIndex; mi_Voting : VotingInfo; mi_CoinStats : gmap Z MempoolCoinStats;
  mi_Inv : Inv; Ident : Z
}.

Definition NumLatestMempoolTxns : nat := 5.

Definition set_vote (v : option VoteInfo) (tx : MempoolTx) : MempoolTx :=
  mkMempoolTx (TxID tx) (Vin tx) (Time tx) (Size tx) (TotalOut tx) (Type_ tx) (TypeID tx) v (SKATotals tx) (TicketStage tx).
Definition set_stage (s : string) (tx : MempoolTx) : MempoolTx :=
  mkMempoolTx (TxID tx) (Vin tx) (Time tx) (Size tx) (TotalOut tx) (Type_ tx) (TypeID tx) (tx_VoteInfo tx) (SKATotals tx) s.

(** [add] puts a transaction at its end of a list. *)
Section Put.
Variable add : list MempoolTx → list MempoolTx.
Definition put_regular (id : string) (i : Inv) : Inv :=
  mkInv (add (Transactions i)) (Tickets i) (Votes i) (Revocations i) (TSpends i) (TAdds i) ({[id]} ∪ InvRegular i) (InvStake i).
Definition put_ticket (id : string) (i : Inv) : Inv :=
  mkInv (Transactions i) (add (Tickets i)) (Votes i) (Revocations i) (TSpends i) (TAdds i) (InvRegular i) ({[id]} ∪ InvStake i).
Definition put_vote (id : string) (i : Inv) : Inv :=
  mkInv (Transactions i) (Tickets i) (add (Votes i)) (Revocations i) (TSpends i) (TAdds i) (InvRegular i) ({[id]} ∪ InvStake i).
Definition put_revoke (id : string) (i : Inv) : Inv :=
  mkInv (Transactions i) (Tickets i) (Votes i) (add (Revocations i)) (TSpends i) (TAdds i) (InvRegular i) ({[id]} ∪ InvStake i).
Definition put_tspend (id : string) (i : Inv) : Inv :=
  mkInv (Transactions i) (Tickets i) (Votes i) (Revocations i) (add (TSpends i)) (TAdds i) (InvRegular i) ({[id]} ∪ InvStake i).
Definition put_tadd (id : string) (i : Inv) : Inv :=
  mkInv (Transactions i) (Tickets i) (Votes i) (Revocations i) (TSpends i) (add (TAdds i)) (InvRegular i) ({[id]} ∪ InvStake i).
End Put.
Definition put_id (id : string) (i : Inv) : Inv :=
  mkInv (Transactions i) (Tickets i) (Votes i) (Revocations i) (TSpends i) (TAdds i) (InvRegular i) ({[id]} ∪ InvStake i).
Definition set_Votes (l : list MempoolTx) (i : Inv) : Inv :=
  mkInv (Transactions i) (Tickets i) l (Revocations i) (TSpends i) (TAdds i) (InvRegular i) (InvStake i).

Section Parse.
Context {ml : MonLib} {ts : TxSort} {RO : RangeOrder Z string}.

(** ** ParseTxns *)
(** The reduction variables; amounts are int64. *)
Record Totals := mkTotals {
  latestTime : Z; totalOut : Z; regularTotal : Z; ticketTotal : Z; voteTotal : Z; revTotal : Z; taddTotal : Z; tspendTotal : Z;
  likelyTotal : Z; totalSize : Z; likelySize : Z; numLikely : Z
}.
(** [ps_txs] holds the transactions seen, with what the loop wrote through
    their VoteInfo pointers. *)
Record PState := mkPS {
  ps_inv : Inv; ps_voting : VotingInfo; ps_inds : BlockValidatorIndex; ps_tot : Totals; ps_txs : list MempoolTx
}.

Definition add_regular (o : Z) (t : Totals) : Totals :=
  mkTotals (latestTime t) (totalOut t) (i64 (regularTotal t + o)) (ticketTotal t) (voteTotal t) (revTotal t) (taddTotal t) (tspendTotal t) (likelyTotal t) (totalSize t) (likelySize t) (numLikely t).
Definition add_ticket (o : Z) (t : Totals) : Totals :=
  mkTotals (latestTime t) (totalOut t) (regularTotal t) (i64 (ticketTotal t + o)) (voteTotal t) (revTotal t) (taddTotal t) (tspendTotal t) (likelyTotal t) (totalSize t) (likelySize t) (numLikely t).
Definition add_voteTotal (o : Z) (t : Totals) : Totals :=
  mkTotals (latestTime t) (totalOut t) (regularTotal t) (ticketTotal t) (i64 (voteTotal t + o)) (revTotal t) (taddTotal t) (tspendTotal t) (likelyTotal t) (totalSize t) (likelySize t) (numLikely t).
Definition add_rev (o : Z) (t : Totals) : Totals :=
  mkTotals (latestTime t) (totalOut t) (regularTotal t) (ticketTotal t) (voteTotal t) (i64 (revTotal t + o)) (taddTotal t) (tspendTotal t) (likelyTotal t) (totalSize t) (likelySize t) (numLikely t).
Definition add_tadd (o : Z) (t : Totals) : Totals :=
  mkTotals (latestTime t) (totalOut t) (regularTotal t) (ticketTotal t) (voteTotal t) (revTotal t) (i64 (taddTotal t + o)) (tspendTotal t) (likelyTotal t) (totalSize t) (likelySize t) (numLikely t).
Definition add_tspend (o : Z) (t : Totals) : Totals :=
  mkTotals (latestTime t) (totalOut t) (regularTotal t) (ticketTotal t) (voteTotal t) (revTotal t) (taddTotal t) (i64 (tspendTotal t + o)) (likelyTotal t) (totalSize t) (likelySize t) (numLikely t).
(** What follows the switch. *)
Definition add_mempool (likely : bool) (o : Z) (tx : MempoolTx) (t : Totals) : Totals :=
  mkTotals (if latestTime t <? Time tx then Time tx else latestTime t) (i64 (totalOut t + o))
    (regularTotal t) (ticketTotal t) (voteTotal t) (revTotal t) (taddTotal t) (tspendTotal t)
    (if likely then i64 (likelyTotal t + o) else likelyTotal t) (i32 (totalSize t + Size tx))
    (if likely then i32 (likelySize t + Size tx) else likelySize t) (if likely then numLikely t + 1 else numLikely t).

(** One round; [None] is the panic of [Tally] for blocks without votes. *)
Definition parse_tx (lastHash : string) (st : PState) (tx : MempoolTx) : option PState :=
  let o := NewAmount (TotalOut tx) in
  let 'mkPS inv vi inds tot txs := st in
  let skip := Some (mkPS inv vi inds tot (txs ++ [tx])) in
  let next inv t := Some (mkPS inv vi inds (add_mempool true o tx t) (txs ++ [tx])) in
  let dup := bool_decide (TxID tx ∈ InvStake inv) in
  match TypeID tx with
  | TxTypeSStx => if dup then skip else next (put_ticket (λ l, l ++ [tx]) (TxID tx) inv) (add_ticket o tot)
  | TxTypeSSGen =>
    if dup then skip else
    match tx_VoteInfo tx with
    | None => Some (mkPS (put_vote (λ l, l ++ [tx]) (TxID tx) inv) vi inds tot (txs ++ [tx]))
    | Some v =>
      let '(inds, v) := SetTicketIndex inds v in
      let v := set_forLast (VotesOnBlock v lastHash) v in
      let tx := set_vote (Some v) tx in
      '(vi, counted) ← countVote vi v;
      let tot := if counted : bool then add_voteTotal o tot else tot in
      Some (mkPS (put_vote (λ l, l ++ [tx]) (TxID tx) inv) vi inds (add_mempool counted o tx tot) (txs ++ [tx]))
    end
  | TxTypeSSRtx => if dup then skip else next (put_revoke (λ l, l ++ [tx]) (TxID tx) inv) (add_rev o tot)
  | TxTypeTSpend => if dup then skip else next (put_tspend (λ l, l ++ [tx]) (TxID tx) inv) (add_tspend o tot)
  | TxTypeTAdd => if dup then skip else next (put_tadd (λ l, l ++ [tx]) (TxID tx) inv) (add_tadd o tot)
  | TxTypeTreasuryBase => if dup then skip else next (put_id (TxID tx) inv) tot
  | TxTypeRegular | TxTypeSSFee =>
    if bool_decide (TxID tx ∈ InvRegular inv) then skip
    else next (put_regular (λ l, l ++ [tx]) (TxID tx) inv) (add_regular o tot)
  end.

Fixpoint parse_txs (lastHash : string) (st : PState) (txs : list MempoolTx) : option PState :=
  match txs with
  | [] => Some st
  | tx :: txs => st ← parse_tx lastHash st tx; parse_txs lastHash st txs
  end.

Definition emptyInv : Inv := mkInv [] [] [] [] [] [] ∅ ∅.

(** [sort.SliceIsSorted] by falling time: no element is newer than the one
    before. *)
Fixpoint is_sorted (txs : list MempoolTx) : bool :=
  match txs with
  | tx :: ((tx' :: _) as rest) => negb (Time tx <? Time tx') && is_sorted rest
  | _ => true
  end.

(** Sorting the votes compares every one of two or more and reads its
    VoteInfo. *)
Definition vote_sort_panics (votes : list MempoolTx) : bool :=
  (2 <=? zlen votes) && negb (forallb (λ tx, bool_decide (is_Some (tx_VoteInfo tx))) votes).

Definition ParseTxns (txs : list MempoolTx) (ticketsPerBlock : Z) (lastBlock : BlockID) : option MempoolInfo :=
  let txs := if is_sorted txs then txs else sortByTime txs in
  st ← parse_txs (bk_Hash lastBlock)
         (mkPS emptyInv (NewVotingInfo ticketsPerBlock) ∅ (mkTotals 0 0 0 0 0 0 0 0 0 0 0 0) []) txs;
  let inv := ps_inv st in
  let t := ps_tot st in
  if vote_sort_panics (Votes inv) then None else
  Some (mkInfo lastBlock (latestTime t) (ToCoin (totalOut t)) (totalSize t)
    (zlen (Tickets inv)) (zlen (Votes inv)) (zlen (Transactions inv)) (zlen (Revocations inv)) (zlen (TSpends inv)) (zlen (TAdds inv))
    (zlen txs)
    (mkLikely (ToCoin (likelyTotal t)) (likelySize t) (humanizeBytes (u64 (likelySize t))) (ToCoin (regularTotal t))
       (ToCoin (ticketTotal t)) (ToCoin (voteTotal t)) (ToCoin (revTotal t)) (ToCoin (taddTotal t)) (numLikely t))
    (take NumLatestMempoolTxns (ps_txs st)) (humanizeBytes (u64 (totalSize t)))
    (ps_inds st) (ps_voting st) (coinStats txs) (set_Votes (sortVotes (Votes inv)) inv) 0).

(** ** Lookup *)
Fixpoint getTxFromList (txid : string) (txns : list MempoolTx) : option MempoolTx :=
  match txns with
  | [] => None
  | tx :: txns => if bool_decide (TxID tx = txid) then Some tx else getTxFromList txid txns
  end.

Definition MempoolInfo_Tx (mpi : MempoolInfo) (txid : string) : option MempoolTx :=
  let i := mi_Inv mpi in
  if bool_decide (txid ∈ InvRegular i) then getTxFromList txid (Transactions i)
  else if bool_decide (txid ∈ InvStake i) then
    match getTxFromList txid (Tickets i) with Some tx => Some tx | None =>
    match getTxFromList txid (Votes i) with Some tx => Some tx | None =>
    match getTxFromList txid (TAdds i) with Some tx => Some tx | None =>
    match getTxFromList txid (TSpends i) with Some tx => Some tx | None =>
    getTxFromList txid (Revocations i) end end end end
  else None.
End Parse.

(** ** TxHandler *)
(** The notification, by the fields read. *)
Record RawTx := mkRawTx { rt_Hex : string; rt_Time : Z }.

Record MempoolMonitor := mkMonitor {
  inventory : MempoolInfo; addrMap : option MempoolAddressStore; txnsStore : option TxnsStore; lastBlock : BlockID
}.

Inductive HErr := EDecode.

(** What the handler sends to the hubs: the addresses signalled, and the new
    transaction. *)
Record Signals := mkSignals { sig_addrs : gset string; sig_tx : option MempoolTx }.
Definition noSignals : Signals := mkSignals ∅ None.

Section Handler.
Context {nl : NodeLib} {cl : CoinLib} {ml : MonLib} {RO : RangeOrder Z string}.

Definition mempool_input (txType : TxType) (txns : TxnsStore) (x : nat * TxIn) : MempoolInput :=
  let '(i, txIn) := x in
  let prev := ti_PreviousOutPoint txIn in
  let input := mkInput (HashString (op_Hash prev)) (u32 (Z.of_nat i)) (op_Index prev) in
  let from (tx : MsgTx) :=
    match slice_at (tx_TxOut tx) (op_Index prev) with
    | Some o => input (u8 (to_CoinType o)) (ska_text (to_SKAValue o))
    | None => input 0 ""%string
    end in
  if bool_decide (txType = TxTypeRegular) && negb (bool_decide (op_Hash prev = zeroHash)) then
    match txns !! op_Hash prev with
    | Some d => from (twb_Tx d)
    | None => match GetRawTransaction (op_Hash prev) with Some tx => from tx | None => input 0 ""%string end
    end
  else input 0 ""%string.
Definition populateMempoolInputs (txType : TxType) (txns : TxnsStore) (tx : MsgTx) : list MempoolInput :=
  mempool_input txType txns <$> enum (tx_TxIn tx).

Fixpoint ticketStage (vin : list MempoolInput) (txns : TxnsStore) : string :=
  match vin with
  | [] => "Ready"
  | i :: vin =>
    match NewHashFromStr (in_TxId i) with
    | None => ticketStage vin txns
    | Some h =>
      match txns !! h with
      | None => "Staging"
      | Some d => if twb_BlockHeight d =? 0 then "Staging" else ticketStage vin txns
      end
    end
  end.

(** The vote of a transaction: [Ok None] when its choices cannot be read. *)
Definition voteInfoOf (lastHash : string) (tx : MsgTx) : res HErr (option VoteInfo) :=
  match SSGenVote tx with
  | None => Ok None
  | Some v =>
    match slice_at (tx_TxIn tx) 1 with
    | None => Panic
    | Some i => Ok (Some (mkVote v (HashString (op_Hash (ti_PreviousOutPoint i))) 0 (ForBlock v lastHash)))
    end
  end.

Definition set_vals (vals : list Z) (tx : MsgTx) : MsgTx :=
  mkTx (tx_Hash tx)
    (zip_with (λ i v, mkTxIn (ti_PreviousOutPoint i) v (ti_SKAValueIn i)) (tx_TxIn tx) vals) (tx_TxOut tx).

(** The inventory with other lists, counts and likely totals. *)
Definition upd (inv : Inv) (f : Z * Z * Z * Z → Z * Z * Z * Z) (lm : LikelyMineable) (inds : BlockValidatorIndex) (vi : VotingInfo)
    (p : MempoolInfo) : MempoolInfo :=
  let '(tk, vo, re, rv) := f (NumTickets p, NumVotes p, NumRegular p, NumRevokes p) in
  mkInfo (LastBlock p) (mi_Time p) (mi_TotalOut p) (TotalSize p) tk vo re rv (NumTSpends p) (NumTAdds p) (NumAll p)
    lm (LatestTransactions p) (FormattedTotalSize p) inds vi (mi_CoinStats p) inv (Ident p).

Definition lm_add (r t v k a : float64 → float64) (lm : LikelyMineable) : LikelyMineable :=
  mkLikely (lm_Total lm) (lm_Size lm) (lm_FormattedSize lm) (r (lm_RegularTotal lm)) (t (lm_TicketTotal lm)) (v (lm_VoteTotal lm))
    (k (lm_RevokeTotal lm)) (a (lm_TAddTotal lm)) (lm_Count lm).

(** The switch on the type: [None] for a vote on a block still to come; the
    flag is [likelyMineable]. *)
Definition handle_type (last : BlockID) (txns : TxnsStore) (tx : MempoolTx) (p : MempoolInfo)
    : res HErr (option (MempoolInfo * MempoolTx * bool)) :=
  let lm := mi_Likely p in
  let plus x := f64_add x (TotalOut tx) in
  let same (x : float64) := x in
  let put f n lm := upd (f (λ l, tx :: l) (TxID tx) (mi_Inv p)) n lm (TicketIndexes p) (mi_Voting p) p in
  match TypeID tx with
  | TxTypeRegular =>
    Ok (Some (put put_regular (λ '(t, v, r, k), (t, v, r + 1, k)) (lm_add plus same same same same lm), tx, true))
  | TxTypeSStx =>
    let tx := set_stage (ticketStage (Vin tx) txns) tx in
    Ok (Some (upd (put_ticket (λ l, tx :: l) (TxID tx) (mi_Inv p)) (λ '(t, v, r, k), (t + 1, v, r, k)) (lm_add same plus same same same lm)
                (TicketIndexes p) (mi_Voting p) p, tx, true))
  | TxTypeSSGen =>
    match tx_VoteInfo tx with
    | None => Panic
    | Some v =>
      if bk_Height last <? bv_Height (Validation v) then Ok None else
      let '(inds, v) := SetTicketIndex (TicketIndexes p) v in
      let tx := set_vote (Some v) tx in
      match countVote (mi_Voting p) v with
      | None => Panic
      | Some (vi, counted) =>
        Ok (Some (upd (put_vote (λ l, tx :: l) (TxID tx) (mi_Inv p)) (λ '(t, v, r, k), (t, v + 1, r, k))
                    (if counted : bool then lm_add same same plus same same lm else lm) inds vi p, tx, counted))
      end
    end
  | TxTypeSSRtx =>
    Ok (Some (put put_revoke (λ '(t, v, r, k), (t, v, r, k + 1)) (lm_add same same same plus same lm), tx, true))
  | TxTypeTSpend => Ok (Some (put put_tspend id lm, tx, false))
  | TxTypeTAdd => Ok (Some (put put_tadd id (lm_add same same same same plus lm), tx, true))
  | TxTypeTreasuryBase | TxTypeSSFee => Ok (Some (p, tx, true))
  end.

(** What follows the switch. *)
Definition handle_totals (likely : bool) (tx : MempoolTx) (p : MempoolInfo) : MempoolInfo :=
  let latest := LatestTransactions p in
  let latest :=
    if bool_decide (NumLatestMempoolTxns <= length latest)%nat then tx :: take (length latest - 1) latest else tx :: latest in
  let size := i32 (TotalSize p + Size tx) in
  let lm := mi_Likely p in
  let lsize := i32 (lm_Size lm + Size tx) in
  let lm := if likely then
      mkLikely (f64_add (lm_Total lm) (TotalOut tx)) lsize (humanizeBytes (u64 lsize)) (lm_RegularTotal lm) (lm_TicketTotal lm)
        (lm_VoteTotal lm) (lm_RevokeTotal lm) (lm_TAddTotal lm) (lm_Count lm + 1)
    else lm in
  mkInfo (LastBlock p) (mi_Time p) (f64_add (mi_TotalOut p) (TotalOut tx)) size
    (NumTickets p) (NumVotes p) (NumRegular p) (NumRevokes p) (NumTSpends p) (NumTAdds p) (NumAll p + 1)
    lm latest (humanizeBytes (u64 size)) (TicketIndexes p) (mi_Voting p) (addTxToCoinStats (mi_CoinStats p) tx) (mi_Inv p) (Ident p).

Definition set_Ident (n : Z) (p : MempoolInfo) : MempoolInfo :=
  mkInfo (LastBlock p) (mi_Time p) (mi_TotalOut p) (TotalSize p) (NumTickets p) (NumVotes p) (NumRegular p) (NumRevokes p)
    (NumTSpends p) (NumTAdds p) (NumAll p) (mi_Likely p) (LatestTransactions p) (FormattedTotalSize p) (TicketIndexes p)
    (mi_Voting p) (mi_CoinStats p) (mi_Inv p) n.

Definition txExists (ty : TxType) (hash : string) (i : Inv) : bool :=
  if bool_decide (ty = TxTypeRegular) then bool_decide (hash ∈ InvRegular i) else bool_decide (hash ∈ InvStake i).

(** The transaction that is added to the inventory. *)
Definition mempoolTx (rawTx : RawTx) (txType : TxType) (tx : MsgTx) (vote : option VoteInfo) (txns : TxnsStore) : MempoolTx :=
  mkMempoolTx (HashString (tx_Hash tx)) (populateMempoolInputs txType txns tx) (rt_Time rawTx)
    (i32 (Z.quot (Z.of_nat (String.length (rt_Hex rawTx))) 2)) (ToCoin (TotalOutFromMsgTx tx)) (TxTypeToString txType) txType
    vote (SKATotalsFromMsgTx tx) "".

(** The transaction stored for the index points to the decoded one, whose input
    values are set afterwards. *)
Definition TxHandler (p : MempoolMonitor) (rawTx : RawTx) : res HErr (MempoolMonitor * Signals) :=
  if rt_Time rawTx <? bk_Time (lastBlock p) then Ok (p, noSignals) else
  match MsgTxFromHex (rt_Hex rawTx) with
  | None => Err EDecode
  | Some tx =>
    let hash := HashString (tx_Hash tx) in
    let txType := DetermineTxType tx in
    if txExists txType hash (mi_Inv (inventory p)) then Ok (p, noSignals) else
    let '(_, store, addressesOut) := TxOutpointsByAddr (default ∅ (addrMap p)) tx in
    match TxPrevOutsByAddr store (default ∅ (txnsStore p)) tx with
    | Ok st =>
      let addrs := dom addressesOut ∪ dom (p_addrs st) in
      let tx' := set_vals (valsIn st) tx in
      let txns := <[tx_Hash tx := mkTwb tx' 0 "" (rt_Time rawTx) (coin_info (tx_TxOut tx))]> (p_txns st) in
      let info := set_Ident (u64 (Ident (inventory p) + 1)) (inventory p) in
      let moved info := mkMonitor info (Some (p_store st)) (Some txns) (lastBlock p) in
      let vote := if bool_decide (txType = TxTypeSSGen) then voteInfoOf (bk_Hash (lastBlock p)) tx else Ok None in
      match vote with
      | Ok vote =>
        match handle_type (lastBlock p) txns (mempoolTx rawTx txType tx' vote txns) info with
        | Ok None => Ok (moved info, mkSignals addrs None)
        | Ok (Some (info, mtx, likely)) => Ok (moved (handle_totals likely mtx info), mkSignals addrs (Some mtx))
        | Err e => Err e
        | Panic => Panic
        | NoFuel => NoFuel
        end
      | Err e => Err e
      | Panic => Panic
      | NoFuel => NoFuel
      end
    | _ => Panic
    end
  end.

(** ** Refresh, from the collector's answer and with an inventory before *)
Definition Refresh {ts : TxSort} (p : MempoolMonitor) (txs : list MempoolTx) (addrOuts : MempoolAddressStore) (txns : TxnsStore)
    (ticketsPerBlock : Z) (latest : BlockID) : option MempoolMonitor :=
  inv ← ParseTxns (sortByTime txs) ticketsPerBlock latest;
  Some (mkMonitor (set_Ident (u64 (Ident (inventory p) + 1)) inv) (Some addrOuts) (Some txns) latest).
End Handler.

(** ** The invariant of the inventory *)
Definition stake_list (i : Inv) : list MempoolTx := Tickets i ++ Votes i ++ Revocations i ++ TSpends i ++ TAdds i.

(** The lists hold no transaction twice and the sets know what is listed. *)
Record lists_ok (i : Inv) : Prop := {
  regular_nodup : NoDup (TxID <$> Transactions i);
  regular_set : InvRegular i = list_to_set (TxID <$> Transactions i);
  stake_nodup : NoDup (TxID <$> stake_list i);
  stake_set : list_to_set (TxID <$> stake_list i) ⊆ InvStake i
}.

Lemma lists_ok_empty : lists_ok emptyInv.
Proof. split; cbn; [constructor|done|constructor|set_solver]. Qed.

Lemma put_regular_ok add tx i : (∀ l, add l ≡ₚ tx :: l) → TxID tx ∉ InvRegular i → lists_ok i → lists_ok (put_regular add (TxID tx) i).
Proof.
  intros Ha Hn [H1 H2 H3 H4]. split; cbn; try done.
  - rewrite Ha. cbn. constructor; [|done]. rewrite H2, elem_of_list_to_set in Hn. done.
  - rewrite (Ha (Transactions i)). cbn. by rewrite H2.
Qed.

Lemma put_stake_ok tx i i' : lists_ok i → Transactions i' = Transactions i → InvRegular i' = InvRegular i →
  stake_list i' ≡ₚ tx :: stake_list i → InvStake i' = {[TxID tx]} ∪ InvStake i → TxID tx ∉ InvStake i → lists_ok i'.
Proof.
  intros [H1 H2 H3 H4] E1 E2 E3 E4 Hn. split; rewrite ?E1, ?E2, ?E3, ?E4; try done.
  - cbn. constructor; [|done]. intros Hin. apply Hn, H4. by apply elem_of_list_to_set.
  - cbn. set_solver.
Qed.

(** The five stake lists take a transaction at either end. *)
Lemma put_ticket_stake add tx i : (∀ l, add l ≡ₚ tx :: l) → stake_list (put_ticket add (TxID tx) i) ≡ₚ tx :: stake_list i.
Proof. intros Ha. unfold stake_list. cbn. by rewrite Ha. Qed.
Lemma put_vote_stake add tx i id : (∀ l, add l ≡ₚ tx :: l) → stake_list (put_vote add id i) ≡ₚ tx :: stake_list i.
Proof. intros Ha. unfold stake_list. cbn. rewrite Ha. cbn. by rewrite <- Permutation_middle. Qed.
Lemma put_revoke_stake add tx i : (∀ l, add l ≡ₚ tx :: l) → stake_list (put_revoke add (TxID tx) i) ≡ₚ tx :: stake_list i.
Proof. intros Ha. unfold stake_list. cbn. rewrite Ha. cbn. by rewrite <- !Permutation_middle. Qed.
Lemma put_tspend_stake add tx i : (∀ l, add l ≡ₚ tx :: l) → stake_list (put_tspend add (TxID tx) i) ≡ₚ tx :: stake_list i.
Proof. intros Ha. unfold stake_list. cbn. rewrite Ha. cbn. by rewrite <- !Permutation_middle. Qed.
Lemma put_tadd_stake add tx i : (∀ l, add l ≡ₚ tx :: l) → stake_list (put_tadd add (TxID tx) i) ≡ₚ tx :: stake_list i.
Proof. intros Ha. unfold stake_list. cbn. rewrite Ha. by rewrite <- !Permutation_middle. Qed.

(** The votes: each ticket of the last block is counted once, and every vote
    carries the index of its seat. *)
Definition vote_indexed (last : string) (inds : BlockValidatorIndex) (tx : MempoolTx) : Prop :=
  ∀ v, tx_VoteInfo tx = Some v →
    seat_index inds v = Some (MempoolTicketIndex v) ∧ (ForLastBlock v = true → bv_Hash (Validation v) = last).
Definition votes_ok (last : string) (n : Z) (votes : list MempoolTx) (vi : VotingInfo) (inds : BlockValidatorIndex) : Prop :=
  voting_ok last n (seats (omap tx_VoteInfo votes)) vi ∧ indexes_ok inds ∧ Forall (vote_indexed last inds) votes.

Lemma seats_perm l l' : l ≡ₚ l' → seats l = seats l'.
Proof. intros Hp. unfold seats. by rewrite Hp. Qed.

Lemma votes_ok_perm last n votes votes' vi inds : votes ≡ₚ votes' → votes_ok last n votes vi inds → votes_ok last n votes' vi inds.
Proof.
  intros Hp (H1 & H2 & H3). split; [|split; [done|by rewrite <- Hp]].
  by rewrite <- (seats_perm (omap tx_VoteInfo votes)) by (by rewrite Hp).
Qed.

Lemma seats_cons v l : seats (v :: l) = (if ForLastBlock v then {[TicketSpent v]} ∪ seats l else seats l).
Proof. unfold seats. rewrite filter_cons. destruct (ForLastBlock v); case_decide; try done. Qed.

Lemma vote_step last n votes votes' vi inds v inds' v' v2 tx :
  1 <= n → votes_ok last n votes vi inds → SetTicketIndex inds v = (inds', v') →
  (v2 = v' ∨ ∃ b, v2 = set_forLast b v') → (ForLastBlock v2 = true → bv_Hash (Validation v2) = last) →
  votes' ≡ₚ set_vote (Some v2) tx :: votes →
  ∃ vi' c, countVote vi v2 = Some (vi', c) ∧ votes_ok last n votes' vi' inds'.
Proof.
  intros Hn (H1 & H2 & H3) Hs Hv2 Hl Hp. pose proof (SetTicketIndex_ok inds v H2) as Hok. rewrite Hs in Hok.
  destruct Hok as (I1 & (m & Hm & Hi) & I3). apply SetTicketIndex_keeps in Hs as (K1 & K2 & K3).
  destruct (countVote_ok last n _ vi v2 Hn H1 Hl) as (vi' & c & E & _ & Hok). exists vi', c. split; [done|].
  apply (votes_ok_perm last n (set_vote (Some v2) tx :: votes)); [done|].
  assert (Validation v2 = Validation v ∧ TicketSpent v2 = TicketSpent v ∧ MempoolTicketIndex v2 = MempoolTicketIndex v') as (V1 & V2 & V3)
    by (destruct Hv2 as [->|[b ->]]; cbn; by rewrite ?K1, ?K2).
  split; [|split; [done|]].
  - change (omap tx_VoteInfo (set_vote (Some v2) tx :: votes)) with (v2 :: omap tx_VoteInfo votes). by rewrite seats_cons.
  - constructor.
    + intros w [= <-]. split; [|done]. unfold seat_index. rewrite V1, V2, Hm, V3. exact Hi.
    + eapply Forall_impl; [exact H3|]. intros y Hy w Hw. destruct (Hy w Hw) as [G1 G2]. split; [|done].
      unfold seat_index in *. by apply I3.
Qed.

(** A vote that was not decoded changes nothing. *)
Lemma votes_ok_none last n votes vi inds tx : tx_VoteInfo tx = None → votes_ok last n votes vi inds →
  votes_ok last n (votes ++ [tx]) vi inds.
Proof.
  intros Ht (H1 & H2 & H3). split; [|split; [done|]].
  - rewrite omap_app. cbn [omap list_omap]. by rewrite Ht, app_nil_r.
  - apply Forall_app. split; [done|]. constructor; [|constructor]. intros v. by rewrite Ht.
Qed.

Lemma append_perm (tx : MempoolTx) l : l ++ [tx] ≡ₚ tx :: l.
Proof. symmetry. apply Permutation_cons_append. Qed.

Lemma VotesOnBlock_true v last : VotesOnBlock v last = true → bv_Hash (Validation v) = last.
Proof. unfold VotesOnBlock, ForBlock. intros [_ E]%andb_true_iff. by apply bool_decide_eq_true in E as ->. Qed.

(** What the inventory promises about the transactions [hist] it was given. *)
Record info_ok {RO : RangeOrder Z string} (n : Z) (hist : list MempoolTx) (p : MempoolInfo) : Prop := {
  io_lists : lists_ok (mi_Inv p);
  io_votes : votes_ok (bk_Hash (LastBlock p)) n (Votes (mi_Inv p)) (mi_Voting p) (TicketIndexes p);
  io_counts : NumTickets p = zlen (Tickets (mi_Inv p)) ∧ NumVotes p = zlen (Votes (mi_Inv p)) ∧
              NumRegular p = zlen (Transactions (mi_Inv p)) ∧ NumRevokes p = zlen (Revocations (mi_Inv p));
  io_latest : (length (LatestTransactions p) <= NumLatestMempoolTxns)%nat;
  io_wf : Forall wf_tx hist;
  io_stats : mi_CoinStats p = coinStats hist;
  io_all : NumAll p = zlen hist
}.

Section Invariant.
Context {nl : NodeLib} {cl : CoinLib} {ml : MonLib} {ts : TxSort} {RO : RangeOrder Z string}.
Variable n : Z.
Hypothesis Hn : 1 <= n.

Definition ps_ok (last : string) (st : PState) : Prop :=
  lists_ok (ps_inv st) ∧ votes_ok last n (Votes (ps_inv st)) (ps_voting st) (ps_inds st).

Lemma stake_put_ps last i i' vi inds tot txs tx : lists_ok i → votes_ok last n (Votes i) vi inds →
  Transactions i' = Transactions i → InvRegular i' = InvRegular i → Votes i' = Votes i →
  stake_list i' ≡ₚ tx :: stake_list i → InvStake i' = {[TxID tx]} ∪ InvStake i → TxID tx ∉ InvStake i →
  ps_ok last (mkPS i' vi inds tot txs).
Proof.
  intros Hl Hv E1 E2 E3 E4 E5 Hd. split; cbn; [by apply (put_stake_ok tx i i')|by rewrite E3].
Qed.

Lemma parse_tx_ok last st tx : ps_ok last st → ∃ st', parse_tx last st tx = Some st' ∧ ps_ok last st'.
Proof.
  destruct st as [inv vi inds tot txs]. intros [Hl Hv]. cbn [ps_inv ps_voting ps_inds] in *.
  assert (∀ txs', ps_ok last (mkPS inv vi inds tot txs')) as Hskip by done.
  unfold parse_tx. destruct (TypeID tx); case_bool_decide as Hd; try (eexists; split; [reflexivity|apply Hskip]).
  3: { destruct (tx_VoteInfo tx) as [v|] eqn:Ev.
    - destruct (SetTicketIndex inds v) as [inds' v'] eqn:Es. set (v2 := set_forLast (VotesOnBlock v' last) v').
      destruct (vote_step last n (Votes inv) (Votes inv ++ [set_vote (Some v2) tx]) vi inds v inds' v' v2 tx) as (vi' & c & E & Hok); try done.
      + right. by eexists.
      + cbn. intros Hb. by apply VotesOnBlock_true.
      + apply append_perm.
      + cbv zeta. fold v2. rewrite E. cbn [mbind option_bind]. eexists. split; [reflexivity|]. split; cbn [ps_inv ps_voting ps_inds put_vote Votes]; [|exact Hok].
        change (TxID tx) with (TxID (set_vote (Some v2) tx)) in Hd.
        apply (put_stake_ok (set_vote (Some v2) tx) inv); try done. apply put_vote_stake. intros l. apply append_perm.
    - eexists. split; [reflexivity|]. split; cbn [ps_inv ps_voting ps_inds put_vote Votes]; [|by apply votes_ok_none].
      apply (put_stake_ok tx inv); try done. apply put_vote_stake. intros l. apply append_perm. }
  all: eexists; split; [reflexivity|].
  - split; cbn; [|done]. apply put_regular_ok; [intros l; apply append_perm|done|done].
  - apply (stake_put_ps last inv _ vi inds _ _ tx); try done. apply put_ticket_stake. intros l. apply append_perm.
  - apply (stake_put_ps last inv _ vi inds _ _ tx); try done. apply put_revoke_stake. intros l. apply append_perm.
  - apply (stake_put_ps last inv _ vi inds _ _ tx); try done. apply put_tadd_stake. intros l. apply append_perm.
  - apply (stake_put_ps last inv _ vi inds _ _ tx); try done. apply put_tspend_stake. intros l. apply append_perm.
  - split; cbn; [|done]. destruct Hl as [H1 H2 H3 H4]. split; cbn; try done. set_solver.
  - split; cbn; [|done]. apply put_regular_ok; [intros l; apply append_perm|done|done].
Qed.

Lemma parse_txs_ok last txs : ∀ st, ps_ok last st → ∃ st', parse_txs last st txs = Some st' ∧ ps_ok last st'.
Proof.
  induction txs as [|tx txs IH]; intros st Hst; cbn [parse_txs]; [by exists st|].
  destruct (parse_tx_ok last st tx Hst) as (st1 & -> & H1). apply (IH st1 H1).
Qed.

Lemma coinStats_perm hist hist' : Forall wf_tx hist → hist ≡ₚ hist' → coinStats hist = coinStats hist'.
Proof.
  intros Hw Hp. apply map_eq. intros ct. rewrite !batch_stats by (by rewrite <- ?Hp). by apply stats_of_perm.
Qed.

Lemma coinStats_snoc hist tx : Forall wf_tx (hist ++ [tx]) → addTxToCoinStats (coinStats hist) tx = coinStats (hist ++ [tx]).
Proof.
  intros Hw. apply map_eq. intros ct. rewrite batch_stats, <- incremental_stats by done. rewrite foldl_snoc. f_equal. f_equal.
  apply Forall_app in Hw as [Hw _]. apply map_eq. intros c. by rewrite batch_stats, incremental_stats.
Qed.

Lemma ParseTxns_ok txs last p : Forall wf_tx txs → ParseTxns txs n last = Some p → info_ok n txs p ∧ LastBlock p = last.
Proof.
  intros Hw. unfold ParseTxns. set (txs' := if is_sorted txs then txs else sortByTime txs).
  assert (txs' ≡ₚ txs) as Hp by (unfold txs'; destruct (is_sorted txs); [done|apply sortByTime_perm]).
  destruct (parse_txs_ok (bk_Hash last) txs' (mkPS emptyInv (NewVotingInfo n) ∅ (mkTotals 0 0 0 0 0 0 0 0 0 0 0 0) [])) as (st & -> & Hl & Hv).
  { split; [apply lists_ok_empty|]. split; [apply voting_ok_new|]. split; [apply indexes_ok_empty|constructor]. }
  cbn [mbind option_bind]. destruct (vote_sort_panics _); [done|]. intros [= <-]. split; [|done]. split; cbn.
  - destruct Hl as [H1 H2 H3 H4].
    assert (stake_list (set_Votes (sortVotes (Votes (ps_inv st))) (ps_inv st)) ≡ₚ stake_list (ps_inv st)) as Hs.
    { unfold stake_list. cbn. by rewrite sortVotes_perm. }
    split; cbn; [done|done| |]; by rewrite Hs.
  - eapply votes_ok_perm; [|exact Hv]. symmetry. apply sortVotes_perm.
  - split; [done|]. split; [|done]. unfold zlen. by rewrite sortVotes_perm.
  - apply firstn_le_length.
  - done.
  - symmetry. by apply coinStats_perm.
  - unfold zlen. by rewrite Hp.
Qed.

(** What the switch keeps. *)
Record type_ok (p p' : MempoolInfo) : Prop := {
  to_lists : lists_ok (mi_Inv p');
  to_votes : votes_ok (bk_Hash (LastBlock p')) n (Votes (mi_Inv p')) (mi_Voting p') (TicketIndexes p');
  to_counts : NumTickets p' = zlen (Tickets (mi_Inv p')) ∧ NumVotes p' = zlen (Votes (mi_Inv p')) ∧
              NumRegular p' = zlen (Transactions (mi_Inv p')) ∧ NumRevokes p' = zlen (Revocations (mi_Inv p'));
  to_same : LastBlock p' = LastBlock p ∧ LatestTransactions p' = LatestTransactions p ∧
            mi_CoinStats p' = mi_CoinStats p ∧ NumAll p' = NumAll p
}.

Lemma handle_type_ok hist txns tx p p' tx' likely :
  info_ok n hist p →
  txExists (TypeID tx) (TxID tx) (mi_Inv p) = false →
  (∀ v, tx_VoteInfo tx = Some v → ForLastBlock v = true → bv_Hash (Validation v) = bk_Hash (LastBlock p)) →
  handle_type (LastBlock p) txns tx p = Ok (Some (p', tx', likely)) →
  type_ok p p' ∧ SKATotals tx' = SKATotals tx ∧ Size tx' = Size tx ∧ TotalOut tx' = TotalOut tx ∧ Type_ tx' = Type_ tx.
Proof.
  intros [Hl Hv (C1 & C2 & C3 & C4) _ _ _ _] Hex Hlast. unfold txExists in Hex.
  assert (∀ add : list MempoolTx → list MempoolTx, (add = λ l, tx :: l) → ∀ l, add l ≡ₚ tx :: l) as Hadd by (by intros ? ->).
  unfold handle_type. destruct (TypeID tx) eqn:Ety; cbn in Hex; apply bool_decide_eq_false in Hex.
  3: { destruct (tx_VoteInfo tx) as [v|] eqn:Ev; [|done]. destruct (_ <? _); [done|].
    destruct (SetTicketIndex (TicketIndexes p) v) as [inds' v'] eqn:Es.
    destruct (vote_step (bk_Hash (LastBlock p)) n (Votes (mi_Inv p)) (set_vote (Some v') tx :: Votes (mi_Inv p)) (mi_Voting p)
      (TicketIndexes p) v inds' v' v' tx) as (vi' & c & E & Hok); try done; [by left| |].
    - pose proof (SetTicketIndex_keeps _ _ _ _ Es) as (K1 & K2 & K3). rewrite K1, K3. by apply Hlast.
    - rewrite E. intros [= <- <- <-]. split; [|done]. split; cbn; [| |by rewrite !zlen_cons, C2|done].
      + change (TxID tx) with (TxID (set_vote (Some v') tx)) in Hex |- *.
        apply (put_stake_ok (set_vote (Some v') tx) (mi_Inv p)); try done. by apply put_vote_stake.
      + exact Hok. }
  all: intros [= <- <- <-]; (split; [|done]); (split; cbn; [|exact Hv|by rewrite ?zlen_cons, ?C1, ?C3, ?C4|done]).
  - apply put_regular_ok; by try apply Hadd.
  - change (TxID tx) with (TxID (set_stage (ticketStage (Vin tx) txns) tx)) in Hex |- *.
    apply (put_stake_ok (set_stage (ticketStage (Vin tx) txns) tx) (mi_Inv p)); try done.
  - apply (put_stake_ok tx (mi_Inv p)); try done. apply put_revoke_stake. by apply Hadd.
  - apply (put_stake_ok tx (mi_Inv p)); try done. apply put_tadd_stake. by apply Hadd.
  - apply (put_stake_ok tx (mi_Inv p)); try done. apply put_tspend_stake. by apply Hadd.
  - done.
  - done.
Qed.

Lemma add_stats_ext isBig tx tx' a s : Size tx' = Size tx → Type_ tx' = Type_ tx → add_stats isBig tx' a s = add_stats isBig tx a s.
Proof. intros E1 E2. unfold add_stats. by rewrite E1, E2. Qed.

Lemma info_totals_ok hist p p' tx likely :
  info_ok n hist p → type_ok p p' → wf_tx tx → info_ok n (hist ++ [tx]) (handle_totals likely tx p').
Proof.
  intros [_ _ _ Hlat Hw Hst Hall] [Hl Hv Hc (S1 & S2 & S3 & S4)] Hx.
  assert (Forall wf_tx (hist ++ [tx])) as Hw' by (apply Forall_app; split; [done|by apply Forall_singleton]).
  split; cbn; try done.
  - rewrite S2. unfold NumLatestMempoolTxns in *. case_bool_decide; cbn [length]; [rewrite length_take|]; lia.
  - rewrite S3, Hst. by apply coinStats_snoc.
  - by rewrite S4, Hall, zlen_app.
Qed.

(** The type zero is VAR, not SKA. *)
Hypothesis var_not_ska : CoinIsSKA 0 = false.

Lemma mempoolTx_wf raw ty tx vote txns : wf_tx (mempoolTx raw ty tx vote txns).
Proof.
  intros ct s Hs. cbn in Hs. unfold SKATotalsFromMsgTx in Hs. rewrite lookup_fmap in Hs.
  destruct (CoinIsSKA ct) eqn:E; [|by rewrite add_totals_other in Hs].
  destruct (foldl add_total ∅ (tx_TxOut tx) !! ct) as [z|]; [|done]. cbn in Hs. injection Hs as <-.
  split; [intros ->; congruence|by exists z].
Qed.

Lemma wf_tx_ext tx tx' : SKATotals tx' = SKATotals tx → wf_tx tx → wf_tx tx'.
Proof. unfold wf_tx. by intros ->. Qed.

(** One notification. *)
Lemma TxHandler_ok hist p raw p' sig :
  info_ok n hist (inventory p) → LastBlock (inventory p) = lastBlock p →
  TxHandler p raw = Ok (p', sig) →
  info_ok n (hist ++ option_list (sig_tx sig)) (inventory p') ∧ LastBlock (inventory p') = lastBlock p'.
Proof.
  intros Hok Hlb. unfold TxHandler. destruct (_ <? _); [intros [= <- <-]; by rewrite app_nil_r|].
  destruct (MsgTxFromHex _) as [tx|]; [|done]. set (ty := DetermineTxType tx). set (hash := HashString (tx_Hash tx)).
  destruct (txExists ty hash _) eqn:Hex; [intros [= <- <-]; by rewrite app_nil_r|].
  destruct (TxOutpointsByAddr _ tx) as [[? store] addressesOut]. destruct (TxPrevOutsByAddr _ _ tx) as [st| | |]; try done.
  set (txns := <[tx_Hash tx := _]> (p_txns st)). set (info := set_Ident _ (inventory p)).
  assert (info_ok n hist info) as Hinfo by (destruct Hok; split; done).
  set (vote := if bool_decide (ty = TxTypeSSGen) then _ else _).
  assert (∀ v, vote = Ok (Some v) → ForLastBlock v = true → bv_Hash (Validation v) = bk_Hash (LastBlock info)) as Hvote.
  { intros v. unfold vote. case_bool_decide; [|done]. unfold voteInfoOf. destruct (SSGenVote tx) as [bv|]; [|done].
    destruct (slice_at _ 1); [|done]. intros [= <-]. cbn. rewrite Hlb. intros Hf. by apply (VotesOnBlock_true (mkVote bv "" 0 false)). }
  destruct vote as [vo| | |]; try done.
  set (mtx := mempoolTx raw ty _ vo txns). rewrite <- Hlb.
  destruct (handle_type (LastBlock (inventory p)) txns mtx info) as [[[[info' mtx'] likely]|]| | |] eqn:Eh; try done.
  - intros [= <- <-]. cbn [inventory lastBlock sig_tx option_list].
    destruct (handle_type_ok hist txns mtx info info' mtx' likely Hinfo) as (T & E1 & _); [exact Hex| |exact Eh|].
    + intros v Hv. apply Hvote. cbn in Hv. by rewrite Hv.
    + split; [|cbn; by destruct T as [_ _ _ (-> & _)]]. apply (info_totals_ok hist info); [done|done|].
      eapply wf_tx_ext; [exact E1|apply mempoolTx_wf].
  - intros [= <- <-]. cbn [inventory lastBlock sig_tx option_list]. by rewrite app_nil_r.
Qed.

(** The runs of the monitor: rebuilding the inventory from what the collector
    found, and notifications; [hist] are the transactions since the last
    rebuild that were added. *)
Inductive run : list MempoolTx → MempoolMonitor → Prop :=
| run_refresh p txs addrOuts txns latest p' :
    Forall wf_tx txs → Refresh p txs addrOuts txns n latest = Some p' → run txs p'
| run_tx hist p raw p' sig :
    run hist p → TxHandler p raw = Ok (p', sig) → run (hist ++ option_list (sig_tx sig)) p'.

Lemma run_ok hist p : run hist p → info_ok n hist (inventory p) ∧ LastBlock (inventory p) = lastBlock p.
Proof.
  induction 1 as [p txs addrOuts txns latest p' Hw Hr|hist p raw p' sig _ [IH1 IH2] Ht].
  - unfold Refresh in Hr. destruct (ParseTxns (sortByTime txs) n latest) as [inv|] eqn:E; [|done]. cbn in Hr. injection Hr as <-.
    apply ParseTxns_ok in E as [[H1 H2 H3 H4 H5 H6 H7] H8]; [|by rewrite sortByTime_perm]. cbn. split; [|done].
    split; cbn; try done.
    + rewrite H6. apply coinStats_perm; [done|apply sortByTime_perm].
    + rewrite H7. unfold zlen. by rewrite sortByTime_perm.
  - by eapply TxHandler_ok.
Qed.

(** C2: the inventory describes its history: after any rebuild and any
    notifications that did not fail, no transaction is listed twice, the sets
    know the listed ones, the counts are the lengths of their lists, at most
    five latest transactions are kept, each ticket's vote on the last block is
    counted once and each vote has the index of its seat, and the per-coin
    statistics are those the batch computes from all transactions since the
    rebuild's. *)
Theorem inventory_describes_history (hist : list MempoolTx) (p : MempoolMonitor) :
  run hist p → info_ok n hist (inventory p) ∧ LastBlock (inventory p) = lastBlock p.
Proof. apply run_ok. Qed.
End Invariant.

(** ** Lookup and failures *)
Section Lookup.
Context {nl : NodeLib} {cl : CoinLib} {ml : MonLib} {ts : TxSort} {RO : RangeOrder Z string}.

Lemma getTxFromList_spec id l : NoDup (TxID <$> l) → ∀ tx, getTxFromList id l = Some tx ↔ (tx ∈ l ∧ TxID tx = id).
Proof.
  induction l as [|x l IH]; cbn; intros Hnd tx.
  - split; [done|]. by intros [?%elem_of_nil ?].
  - apply NoDup_cons in Hnd as [Hx Hnd]. case_bool_decide as E.
    + split; [intros [= ->]; split; [left|done]|]. intros [[->|Hin]%elem_of_cons Ht]; [done|].
      destruct Hx. rewrite E, <- Ht. by apply list_elem_of_fmap_2.
    + rewrite (IH Hnd). split; [intros [? ?]; split; [by right|done]|]. by intros [[->|?]%elem_of_cons ?].
Qed.

Lemma getTxFromList_app id l1 l2 :
  getTxFromList id (l1 ++ l2) = match getTxFromList id l1 with Some tx => Some tx | None => getTxFromList id l2 end.
Proof. induction l1 as [|x l1 IH]; cbn; [done|]. by case_bool_decide. Qed.

(** Looking up a transaction by its hash finds exactly the listed ones: in an
    inventory that satisfies its invariant, Tx returns a transaction if and
    only if it has the hash and is a listed regular transaction, or, where no
    regular transaction has the hash, a listed stake transaction; there is at
    most one. *)
Theorem Tx_finds_listed (p : MempoolInfo) (id : string) (tx : MempoolTx) :
  lists_ok (mi_Inv p) →
  (MempoolInfo_Tx p id = Some tx ↔
    TxID tx = id ∧ (tx ∈ Transactions (mi_Inv p) ∨ ((id ∉ InvRegular (mi_Inv p)) ∧ tx ∈ stake_list (mi_Inv p)))).
Proof.
  intros [H1 H2 H3 H4]. unfold MempoolInfo_Tx. set (i := mi_Inv p) in *.
  assert (id ∈ InvRegular i ↔ id ∈ (TxID <$> Transactions i)) as Hr by (rewrite H2; apply elem_of_list_to_set).
  assert (∀ tx, tx ∈ Transactions i → TxID tx = id → id ∈ InvRegular i) as Hr'.
  { intros t Ht <-. apply Hr. by apply list_elem_of_fmap_2. }
  case_bool_decide as Ein.
  - rewrite getTxFromList_spec by done. split; [intros [? ?]; split; [done|by left]|]. intros [? [?|[? _]]]; done.
  - assert (stake_list i ≡ₚ Tickets i ++ Votes i ++ TAdds i ++ TSpends i ++ Revocations i) as Hp.
    { unfold stake_list. by rewrite (Permutation_app_comm (Revocations i)), (Permutation_app_comm (TSpends i)), <- (app_assoc (TAdds i)). }
    assert (getTxFromList id (Tickets i ++ Votes i ++ TAdds i ++ TSpends i ++ Revocations i) = Some tx ↔ (tx ∈ stake_list i ∧ TxID tx = id)) as G.
    { rewrite getTxFromList_spec by (by rewrite <- Hp). by rewrite Hp. }
    rewrite !getTxFromList_app in G. case_bool_decide as Es.
    + rewrite G. split; [intros [? ?]; split; [done|by right]|]. intros [Ht [Hin|[_ Hin]]]; [|done]. destruct Ein. by eapply Hr'.
    + split; [done|]. intros [Ht [Hin|[_ Hin]]]; [destruct Ein; by eapply Hr'|]. destruct Es. apply H4, elem_of_list_to_set.
      rewrite <- Ht. by apply list_elem_of_fmap_2.
Qed.

(** A notification that is old, or of a transaction already listed, changes
    nothing and signals nothing. *)
Theorem TxHandler_ignores (p : MempoolMonitor) (raw : RawTx) (tx : MsgTx) :
  MsgTxFromHex (rt_Hex raw) = Some tx →
  rt_Time raw < bk_Time (lastBlock p) ∨ txExists (DetermineTxType tx) (HashString (tx_Hash tx)) (mi_Inv (inventory p)) = true →
  TxHandler p raw = Ok (p, noSignals).
Proof.
  intros Ht H. unfold TxHandler. destruct (Z.ltb_spec (rt_Time raw) (bk_Time (lastBlock p))); [done|].
  rewrite Ht. destruct H as [?| ->]; [lia|done].
Qed.

Lemma forallb_decode txs tx : tx ∈ txs → tx_VoteInfo tx = None →
  forallb (λ tx, bool_decide (is_Some (tx_VoteInfo tx))) txs = false.
Proof.
  intros Hin Hv. apply not_true_is_false. intros H. rewrite forallb_forall in H.
  apply list_elem_of_In in Hin. specialize (H _ Hin). apply bool_decide_eq_true in H. rewrite Hv in H. by destruct H.
Qed.

(** A vote whose choices cannot be read stops the monitor: TxHandler panics
    on it instead of skipping it, with its locks held, and a rebuild that finds
    such a vote beside another one panics when it sorts the votes, although it
    checks for the missing information and reports it. *)
Theorem undecoded_vote_panics (p : MempoolMonitor) (raw : RawTx) (tx : MsgTx) st :
  MsgTxFromHex (rt_Hex raw) = Some tx → bk_Time (lastBlock p) <= rt_Time raw →
  DetermineTxType tx = TxTypeSSGen → SSGenVote tx = None →
  HashString (tx_Hash tx) ∉ InvStake (mi_Inv (inventory p)) →
  TxPrevOutsByAddr (snd (fst (TxOutpointsByAddr (default ∅ (addrMap p)) tx))) (default ∅ (txnsStore p)) tx = Ok st →
  TxHandler p raw = Panic ∧
  ∀ a b n last, TypeID a = TxTypeSSGen → TypeID b = TxTypeSSGen → TxID a ≠ TxID b →
    tx_VoteInfo a = None → tx_VoteInfo b = None → Time b <= Time a → ParseTxns [a; b] n last = None.
Proof.
  intros Ht Htime Hty Hv Hnew Hst. split.
  - unfold TxHandler. destruct (Z.ltb_spec (rt_Time raw) (bk_Time (lastBlock p))); [lia|]. rewrite Ht, Hty. unfold txExists.
    cbn [bool_decide]. rewrite (bool_decide_false (TxTypeSSGen = TxTypeRegular)), (bool_decide_false (_ ∈ InvStake _)) by done.
    destruct (TxOutpointsByAddr _ tx) as [[k store] ad]. cbn [fst snd] in Hst. rewrite Hst.
    rewrite bool_decide_true by done. unfold voteInfoOf. rewrite Hv. reflexivity.
  - intros a b n last Ha Hb Hne Hva Hvb Hab. unfold ParseTxns.
    assert (is_sorted [a; b] = true) as -> by (cbn; destruct (Z.ltb_spec (Time a) (Time b)); [lia|done]).
    assert (∀ st t, TypeID t = TxTypeSSGen → tx_VoteInfo t = None → TxID t ∉ InvStake (ps_inv st) →
      parse_tx (bk_Hash last) st t = Some (mkPS (put_vote (λ l, l ++ [t]) (TxID t) (ps_inv st)) (ps_voting st) (ps_inds st) (ps_tot st)
        (ps_txs st ++ [t]))) as P.
    { intros [] t Ht1 Ht2 Ht3. unfold parse_tx. cbn in Ht3. by rewrite Ht1, bool_decide_false, Ht2. }
    cbn iota. cbn [parse_txs]. rewrite (P _ a) by (done || (cbn; set_solver)). cbn [mbind option_bind].
    rewrite (P _ b) by (done || (cbn; set_solver)). cbn [mbind option_bind ps_inv put_vote Votes emptyInv app].
    unfold vote_sort_panics. cbn [forallb]. rewrite Hva, bool_decide_false by (by intros []). done.
Qed.
End Lookup.

Module Witness.
Import MempoolAddr.Witness TxAmounts.Witness.
#[export] Instance toyMon : MonLib := {
  SSGenVote _ := None; NewHashFromStr _ := None; GetRawTransaction _ := None;
  ToCoin z := f64_div (f64_of_Z z) (f64_of_Z 100000000); NewAmount f := f64_to_i64 (f64_mul f (f64_of_Z 100000000));
  humanizeBytes := bigString
}.
#[export] Instance newer_dec : RelDecision newer.
Proof. intros a b. unfold newer. apply _. Defined.
#[export] Instance newer_total : Total newer.
Proof. intros a b. unfold newer. lia. Qed.
#[export] Instance newer_trans : Transitive newer.
Proof. intros a b c. unfold newer. lia. Qed.
#[export] Instance vote_le_dec : RelDecision vote_le.
Proof. intros a b. unfold vote_le. apply _. Defined.
#[export] Instance vote_le_total : Total vote_le.
Proof. intros a b. unfold vote_le. lia. Qed.
#[export] Instance vote_le_trans : Transitive vote_le.
Proof. intros a b c. unfold vote_le. lia. Qed.
#[export] Instance toySort : TxSort := {
  sortByTime := merge_sort newer; sortVotes := merge_sort vote_le;
  sortByTime_perm := merge_sort_Permutation newer; sortByTime_sorted := StronglySorted_merge_sort newer;
  sortVotes_perm := merge_sort_Permutation vote_le; sortVotes_sorted := StronglySorted_merge_sort vote_le
}.
#[export] Instance order : RangeOrder Z string := canonical_range.

Definition lastB : BlockID := mkBlockID "b" 10 100.
Definition zeroLikely : LikelyMineable := let z := f64_of_Z 0 in mkLikely z 0 "" z z z z z 0.
Definition info0 : MempoolInfo :=
  mkInfo lastB 0 (f64_of_Z 0) 0 0 0 0 0 0 0 0 zeroLikely [] "" ∅ (NewVotingInfo 5) ∅ emptyInv 0.
Definition mon0 : MempoolMonitor := mkMonitor info0 None None lastB.

Definition some {A} (o : option A) : bool := match o with Some _ => true | None => false end.
Lemma refreshed : some (Refresh mon0 demo_txs ∅ ∅ 5 lastB) = true.
Proof. vm_compute. reflexivity. Qed.
Lemma demo_wf : Forall wf_tx demo_txs.
Proof.
  unfold demo_txs. rewrite !Forall_cons, Forall_nil. split; [by intros ct s|]. split; [by intros ct s|]. split; [|done].
  intros ct s. cbn [SKATotals demo_mptx]. intros [<- <-]%lookup_singleton_Some. split; [done|]. by exists 12.
Qed.

Lemma inventory_witness : ∃ p, run 5 demo_txs p ∧ info_ok 5 demo_txs (inventory p).
Proof.
  destruct (Refresh mon0 demo_txs ∅ ∅ 5 lastB) as [p|] eqn:E.
  - assert (run 5 demo_txs p) as Hr by (exact (run_refresh 5 mon0 demo_txs ∅ ∅ lastB p demo_wf E)).
    exists p. split; [exact Hr|]. apply (inventory_describes_history (cl := toyCoins) 5 ltac:(lia) eq_refl demo_txs p Hr).
  - pose proof refreshed as H. rewrite E in H. discriminate.
Defined.

Lemma Tx_finds_listed_witness : MempoolInfo_Tx info0 "x" = None ∧
  (MempoolInfo_Tx info0 "x" = Some (demo_mptx "x" "Regular" 1 ∅) ↔
   TxID (demo_mptx "x" "Regular" 1 ∅) = "x"%string ∧
   (demo_mptx "x" "Regular" 1 ∅ ∈ Transactions (mi_Inv info0) ∨
    (("x"%string ∉ InvRegular (mi_Inv info0)) ∧ demo_mptx "x" "Regular" 1 ∅ ∈ stake_list (mi_Inv info0)))).
Proof. split; [reflexivity|]. apply Tx_finds_listed. exact lists_ok_empty. Defined.

Lemma TxHandler_ignores_witness : TxHandler mon0 (mkRawTx "" 99) = Ok (mon0, noSignals).
Proof. apply (TxHandler_ignores mon0 (mkRawTx "" 99) MempoolAddr.Witness.prevTx); [reflexivity|left; cbn; lia]. Defined.

Definition badVote (id : string) : MempoolTx :=
  mkMempoolTx id [] 1 250 (f64_of_Z 0) "Vote" TxTypeSSGen None ∅ "".
(** A node for which the decoded transaction is a vote. *)
Definition voteLib : NodeLib := {|
  MempoolAddr.ExtractAddrs _ := []; MempoolAddr.DetermineTxType _ := TxTypeSSGen;
  MempoolAddr.TxTreeRegular := 0; MempoolAddr.TxTreeStake := 1; MempoolAddr.HashString _ := "aa";
  MempoolAddr.MsgTxFromHex _ := Some MempoolAddr.Witness.prevTx; MempoolAddr.GetRawTransactionVerbose _ := None |}.
Lemma undecoded_vote_panics_witness :
  TxHandler (nl := voteLib) mon0 (mkRawTx "" 100) = Panic ∧ ParseTxns [badVote "a"; badVote "b"] 5 lastB = None.
Proof.
  destruct (undecoded_vote_panics (nl := voteLib) mon0 (mkRawTx "" 100) MempoolAddr.Witness.prevTx (mkPrev 0 ∅ ∅ ∅ [])) as [H1 H2].
  - reflexivity.
  - cbn. lia.
  - reflexivity.
  - reflexivity.
  - cbn. set_solver.
  - reflexivity.
  - split; [exact H1|]. apply H2; try reflexivity. discriminate.
Defined.
End Witness.
