(* ===== verification/BlockTxns.v ===== *)
(** * Rows of a block's transactions (db/dbtypes/extraction.go,
      txhelpers/cspp.go, txhelpers/txsizes.go)

    The conversion of the transactions of one tree of a block to the rows of
    the transactions, vins and vouts tables, with the amounts by coin, the
    types of the tables and the outputs of CoinJoin mixes.  The theorems show
    that the three slices line up when no transaction is skipped and how they
    do not when one is, that the amounts of a single-coin transaction balance
    whatever the order of the maps, and which mix a transaction is. *)
From stdpp Require Import gmap strings.
From S2P Require Import Prelude StakeTx SSFee AddressRows CoinStats.
Open Scope Z_scope.

(** ** The node library

    The script types of [stdscript] the explorer tells apart. *)
Inductive ScriptType :=
| STNonStandard | STPubKeyEcdsaSecp256k1 | STPubKeyHashEcdsaSecp256k1 | STScriptHash | STMultiSig | STNullData
| STStakeSubmissionPubKeyHash | STStakeSubmissionScriptHash | STStakeGenPubKeyHash | STStakeGenScriptHash
| STStakeRevocationPubKeyHash | STStakeRevocationScriptHash | STStakeChangePubKeyHash | STStakeChangeScriptHash
| STPubKeyEd25519 | STPubKeySchnorrSecp256k1 | STPubKeyHashEd25519 | STPubKeyHashSchnorrSecp256k1 | STOther.

(** [stake.DetermineTxType], [stdscript.ExtractAddrs] of an output's version
    and script, and [standalone.IsCoinBaseTx] of a transaction and the treasury
    flag. *)
Class BlockLib := {
  DetermineTxType : MsgTx → TxType;
  ExtractAddrs : TxOut → ScriptType * list string;
  standalone_IsCoinBaseTx : MsgTx → bool → bool
}.

(** [wire.TxTreeRegular], [wire.TxTreeStake], [cointype.CoinTypeVAR]. *)
Definition TxTreeRegular : Z := 0.
Definition TxTreeStake : Z := 1.
Definition CoinTypeVAR : Z := 0.

(** [wire.MsgBlock] by the fields that are read, with its hash. *)
Record MsgBlock := mkMsgBlock {
  mb_Hash : Hash; mb_Height : Z; mb_PrevBlock : Hash; mb_Timestamp : TimeDef; mb_SBits : Z; mb_VoteBits : Z;
  mb_Transactions : list MsgTx; mb_STransactions : list MsgTx
}.

(** ** Script classes (db/dbtypes/types.go) *)
Inductive ScriptClass :=
| SCNonStandard | SCPubKey | SCPubKeyHash | SCScriptHash | SCMultiSig | SCNullData | SCStakeSubmission | SCStakeGen
| SCStakeRevocation | SCStakeSubChange | SCStakeSubCommit | SCPubkeyAlt | SCPubkeyHashAlt | SCInvalid.
#[export] Instance ScriptClass_eq_dec : EqDecision ScriptClass.
Proof. solve_decision. Defined.

Definition NewScriptClass (sc : ScriptType) : ScriptClass :=
  match sc with
  | STNonStandard => SCNonStandard
  | STPubKeyEcdsaSecp256k1 => SCPubKey
  | STPubKeyHashEcdsaSecp256k1 => SCPubKeyHash
  | STScriptHash => SCScriptHash
  | STMultiSig => SCMultiSig
  | STNullData => SCNullData
  | STStakeSubmissionPubKeyHash | STStakeSubmissionScriptHash => SCStakeSubmission
  | STStakeGenPubKeyHash | STStakeGenScriptHash => SCStakeGen
  | STStakeRevocationPubKeyHash | STStakeRevocationScriptHash => SCStakeRevocation
  | STStakeChangePubKeyHash | STStakeChangeScriptHash => SCStakeSubChange
  | STPubKeyEd25519 | STPubKeySchnorrSecp256k1 => SCPubkeyAlt
  | STPubKeyHashEd25519 | STPubKeyHashSchnorrSecp256k1 => SCPubkeyHashAlt
  | STOther => SCInvalid
  end.

(** The type column: a type of the node library or one of the explorer's own
    values 101 to 105. *)
Inductive DbTxType :=
| StakeTxType (t : TxType)
| TxTypeBlockRewardPoS | TxTypeBlockRewardPoW | TxTypeSSFeePoS | TxTypeSSFeePoW | TxTypeTicketPurchase.
#[export] Instance DbTxType_eq_dec : EqDecision DbTxType.
Proof. solve_decision. Defined.

(** ** Rows

    Fields that are only copied from the transaction to the table (versions,
    sequence numbers, lock times, signature scripts, serialized sizes) are left
    out.  A nil map is [None]. *)
Record Vout := mkVout {
  v_TxHash : Hash; v_TxIndex : Z; v_TxTree : Z; v_TxType : DbTxType; v_Value : Z; v_CoinType : Z;
  v_SKAValue : string; v_Type : ScriptClass; v_Addresses : list string; v_Mixed : bool
}.
Record VinTxProperty := mkVin {
  vin_PrevTxHash : Hash; vin_PrevTxIndex : Z; vin_PrevTxTree : Z; vin_ValueIn : Z; vin_CoinType : Z;
  vin_SKAValue : string; vin_TxID : Hash; vin_TxIndex : Z; vin_TxTree : Z; vin_TxType : DbTxType;
  vin_IsValid : bool; vin_IsMainchain : bool; vin_Time : TimeDef
}.
Record Tx := mkDbTx {
  t_BlockHash : Hash; t_BlockHeight : Z; t_BlockTime : TimeDef; t_TxType : DbTxType; t_Tree : Z; t_TxID : Hash;
  t_BlockIndex : Z; t_Spent : Z; t_Sent : Z; t_Fees : Z;
  t_SpentByCoin : option (gmap Z string); t_SentByCoin : option (gmap Z string); t_FeesByCoin : option (gmap Z string);
  t_MixCount : Z; t_MixDenom : Z; t_NumVin : Z; t_VinDbIds : list Z; t_NumVout : Z; t_Vouts : list Vout;
  t_VoutDbIds : list Z; t_IsValid : bool; t_IsMainchainBlock : bool
}.

(** ** Sizes and fees (txhelpers/txsizes.go) *)
(** [wire.VarIntSerializeSize]. *)
Definition VarIntSerializeSize (v : Z) : Z :=
  if v <? 253 then 1 else if v <=? 65535 then 3 else if v <=? 4294967295 then 5 else 9.

Definition redeemP2PKHSigScriptSize : Z := 1 + 73 + 1 + 33.
Definition p2pkhPkScriptSize : Z := 1 + 1 + 1 + 20 + 1 + 1.
Definition ticketCommitmentScriptSize : Z := 1 + 1 + 20 + 8 + 2.

Definition EstimateInputSize (scriptSize : Z) : Z :=
  32 + 4 + 1 + 8 + 4 + 4 + VarIntSerializeSize scriptSize + scriptSize + 4.
Definition EstimateOutputSize (scriptSize : Z) : Z :=
  8 + 2 + VarIntSerializeSize scriptSize + scriptSize.
Definition EstimateSerializeSizeFromScriptSizes (ins outs : list Z) (changeScriptSize : Z) : Z :=
  let txInsSize := zsum (EstimateInputSize <$> ins) in
  let txOutsSize := zsum (EstimateOutputSize <$> outs) in
  let '(changeSize, outputCount) :=
    if 0 <? changeScriptSize then (EstimateOutputSize changeScriptSize, zlen outs + 1) else (0, zlen outs) in
  12 + 2 * VarIntSerializeSize (zlen ins) + VarIntSerializeSize outputCount + txInsSize + txOutsSize + changeSize.

Definition DefaultRelayFeePerKb : Z := 10000.
Definition FeeForSerializeSize (relayFeePerKb txSerializeSize : Z) : Z :=
  let fee := Z.quot (i64 (relayFeePerKb * txSerializeSize)) 1000 in
  let fee := if (fee =? 0) && (0 <? relayFeePerKb) then relayFeePerKb else fee in
  let maxVARAmount := 21000000 * 100000000 in
  if (fee <? 0) || (maxVARAmount <? fee) then maxVARAmount else fee.

(** ** Mixes (txhelpers/cspp.go) *)
Definition splitPoints : list Z :=
  [2 ^ 36; 2 ^ 34; 2 ^ 32; 2 ^ 30; 2 ^ 28; 2 ^ 26; 2 ^ 24; 2 ^ 22; 2 ^ 20; 2 ^ 18].

Definition mixed_outs (outs : list TxOut) : gmap Z Z :=
  foldl (λ mixedOuts o,
    if bool_decide (to_Value o ∈ splitPoints)
    then <[to_Value o := u32 (default 0 (mixedOuts !! to_Value o) + 1)]> mixedOuts
    else mixedOuts) ∅ outs.

Definition IsMixTx {R : RangeOrder Z Z} (tx : MsgTx) : bool * Z * Z :=
  if bool_decide (length (tx_TxOut tx) < 3 ∨ length (tx_TxIn tx) < 3)%nat then (false, 0, 0) else
  let '(mixDenom, mixCount) :=
    foldl (λ '(mixDenom, mixCount) '(val, count),
      if count <? 3 then (mixDenom, mixCount)
      else if mixDenom <? val then (val, count) else (mixDenom, mixCount))
      (0, 0) (range_of (mixed_outs (tx_TxOut tx))) in
  (u32 (zlen (tx_TxOut tx) / 2) <=? mixCount, mixDenom, mixCount).

Definition calcSoloTicketTxSize : Z :=
  EstimateSerializeSizeFromScriptSizes [redeemP2PKHSigScriptSize]
    [p2pkhPkScriptSize + 1; ticketCommitmentScriptSize; p2pkhPkScriptSize + 1] 0.
Definition defaultFeeForTicket : Z := FeeForSerializeSize DefaultRelayFeePerKb calcSoloTicketTxSize.

Definition IsMixedSplitTx (tx : MsgTx) (relayFeeRate ticketPrice : Z) : bool * Z * Z :=
  if bool_decide (length (tx_TxOut tx) < 6 ∨ length (tx_TxIn tx) < 3)%nat then (false, 0, 0) else
  let ticketTxFee :=
    if relayFeeRate =? DefaultRelayFeePerKb then defaultFeeForTicket
    else FeeForSerializeSize relayFeeRate calcSoloTicketTxSize in
  let ticketOutAmt := i64 (ticketPrice + ticketTxFee) in
  let '(numTickets, numOtherOut) :=
    foldl (λ '(t, n) o, if to_Value o =? ticketOutAmt then (u32 (t + 1), n) else (t, u32 (n + 1))) (0, 0) (tx_TxOut tx) in
  if (numTickets <? 3) || (numOtherOut <? 3) then (false, 0, 0) else (true, ticketOutAmt, numTickets).

(** ** Amounts by coin *)
Definition bigIntMapAdd (m : gmap Z Z) (k v : Z) : gmap Z Z :=
  match m !! k with Some cur => <[k := cur + v]> m | None => <[k := v]> m end.
Definition bigIntMapToStrings (m : gmap Z Z) : option (gmap Z string) :=
  if bool_decide (m = ∅) then None else Some (bigString <$> m).

(** The key under which all SKA inputs are first added. *)
Definition placeholder : Z := 255.

Definition sum_spent (ins : list TxIn) : Z * gmap Z Z :=
  foldl (λ '(varSpent, skaSpent) txin,
    match ti_SKAValueIn txin with
    | Some v => (varSpent, bigIntMapAdd skaSpent placeholder v)
    | None => (i64 (varSpent + ti_ValueIn txin), skaSpent)
    end) (0, ∅) ins.

Section Extract.
Context {fl : SSFeeLib} {lib : BlockLib} {RM RS RV : RangeOrder Z Z}.

Definition sum_sent (outs : list TxOut) : Z * gmap Z Z :=
  foldl (λ '(varSent, skaSent) txout,
    if to_CoinType txout =? CoinTypeVAR then (i64 (varSent + to_Value txout), skaSent)
    else match to_SKAValue txout with
         | Some v => if IsSKA (to_CoinType txout) then (varSent, bigIntMapAdd skaSent (to_CoinType txout) v) else (varSent, skaSent)
         | None => (varSent, skaSent)
         end) (0, ∅) outs.

(** The first key a [range] over the map yields. *)
Definition first_key (R : RangeOrder Z Z) (m : gmap Z Z) : option Z := fst <$> head (range_of m).

Definition resolve_spent (skaSpent skaSent : gmap Z Z) : gmap Z Z :=
  match skaSpent !! placeholder with
  | Some p =>
    let skaSpent := delete placeholder skaSpent in
    match first_key RS skaSent with Some ct => bigIntMapAdd skaSpent ct p | None => skaSpent end
  | None => skaSpent
  end.

Definition ska_fees (skaSpent skaSent : gmap Z Z) : gmap Z Z :=
  map_imap (λ ct spent,
    let fee := match skaSent !! ct with Some sent => spent - sent | None => spent end in
    if 0 <? fee then Some fee else None) skaSpent.

(** ** Types *)
Definition has_ticket_script (tx : MsgTx) : bool :=
  existsb (λ txout,
    let class := NewScriptClass (fst (ExtractAddrs txout)) in
    bool_decide (class = SCStakeSubmission) || bool_decide (class = SCStakeSubChange)) (tx_TxOut tx).

Definition stakeType (tx : MsgTx) : TxType :=
  let txType := DetermineTxType tx in
  if bool_decide (txType = TxTypeRegular) && has_ticket_script tx then TxTypeSStx else txType.

Definition isStake (tx : MsgTx) : bool := negb (bool_decide (stakeType tx = TxTypeRegular)).

Definition dbType (tx : MsgTx) : DbTxType :=
  match stakeType tx with
  | TxTypeSSFee =>
    match first_marker (tx_TxOut tx) with
    | SSFeeMarkerStaker => TxTypeSSFeePoS
    | SSFeeMarkerMiner => TxTypeSSFeePoW
    | SSFeeMarkerNone => StakeTxType TxTypeSSFee
    end
  | TxTypeSStx => TxTypeTicketPurchase
  | t => StakeTxType t
  end.

Definition IsCoinBaseTx (tx : MsgTx) : bool :=
  if standalone_IsCoinBaseTx tx false then true else standalone_IsCoinBaseTx tx true.

(** [(mixDenom, mixCount)]. *)
Definition mix_of (ticketPrice : Z) (tx : MsgTx) : Z * Z :=
  if isStake tx then (0, 0) else
  let '(_, mixDenom, mixCount) := IsMixTx (R:=RM) tx in
  if mixCount =? 0 then
    let '(_, mixDenom, mixCount) := IsMixedSplitTx tx DefaultRelayFeePerKb ticketPrice in (mixDenom, mixCount)
  else (mixDenom, mixCount).

(** ** The rows of one transaction *)
Definition make_vin (t : Tx) (vinCoinType : Z) (isMainchain : bool) (idx : nat) (txin : TxIn) : VinTxProperty :=
  let skaVal := match ti_SKAValueIn txin with
    | Some v => if vinCoinType =? 0 then ""%string else bigString v
    | None => ""%string
    end in
  let po := ti_PreviousOutPoint txin in
  mkVin (op_Hash po) (op_Index po) (u16 (op_Tree po)) (ti_ValueIn txin) vinCoinType skaVal (t_TxID t)
    (Z.of_nat idx) (u16 (t_Tree t)) (t_TxType t) (t_IsValid t) isMainchain (t_BlockTime t).

Definition make_vout (t : Tx) (tree mixDenom : Z) (tx : MsgTx) (io : nat) (txout : TxOut) : Vout :=
  let ct := to_CoinType txout in
  let '(scriptClass, scriptAddrs) := ExtractAddrs txout in
  mkVout (t_TxID t) (Z.of_nat io) tree
    (if IsCoinBaseTx tx then (if bool_decide (io = 0%nat) then TxTypeBlockRewardPoW else TxTypeBlockRewardPoS)
     else t_TxType t)
    (if ct =? CoinTypeVAR then u64 (to_Value txout) else 0) ct
    (if ct =? CoinTypeVAR then ""%string else
     match to_SKAValue txout with Some v => if IsSKA ct then bigString v else ""%string | None => ""%string end)
    (NewScriptClass scriptClass) scriptAddrs
    ((ct =? CoinTypeVAR) && (0 <? mixDenom) && (mixDenom =? to_Value txout)).

(** [None] is a skipped transaction. *)
Definition process_tx (b : MsgBlock) (tree : Z) (isValid isMainchain : bool) (txIndex : nat) (tx : MsgTx)
    : option (Tx * list Vout * list VinTxProperty) :=
  let stakeTree := tree =? TxTreeStake in
  if isStake tx && negb stakeTree then None else
  let '(mixDenom, mixCount) := mix_of (mb_SBits b) tx in
  let '(varSpent, skaSpent) := sum_spent (tx_TxIn tx) in
  let '(varSent, skaSent) := sum_sent (tx_TxOut tx) in
  let skaSpent := resolve_spent skaSpent skaSent in
  let skaFees := ska_fees skaSpent skaSent in
  let none := bool_decide (skaSpent = ∅) && bool_decide (skaSent = ∅) && bool_decide (skaFees = ∅) in
  let attach m := if none : bool then None else bigIntMapToStrings m in
  let t := mkDbTx (mb_Hash b) (mb_Height b) (mb_Timestamp b) (dbType tx) tree (tx_Hash tx) (Z.of_nat txIndex)
    varSpent varSent (i64 (varSpent - varSent)) (attach skaSpent) (attach skaSent) (attach skaFees)
    (i32 mixCount) mixDenom (zlen (tx_TxIn tx)) [] (zlen (tx_TxOut tx)) [] []
    (isValid || (tree =? TxTreeStake)) isMainchain in
  let vinCoinType := default CoinTypeVAR (first_key RV skaSent) in
  Some (t, imap (make_vout t tree mixDenom tx) (tx_TxOut tx), imap (make_vin t vinCoinType isMainchain) (tx_TxIn tx)).

(** ** The rows of one tree

    The slice of transactions is appended to; the slices of vins and vouts
    have an entry for every transaction, nil where one is skipped. *)
Fixpoint process_loop (b : MsgBlock) (tree : Z) (isValid isMainchain : bool) (txIndex : nat) (txs : list MsgTx)
    : list Tx * list (list Vout) * list (list VinTxProperty) :=
  match txs with
  | [] => ([], [], [])
  | tx :: txs =>
    let '(ts, vouts, vins) := process_loop b tree isValid isMainchain (S txIndex) txs in
    match process_tx b tree isValid isMainchain txIndex tx with
    | None => (ts, [] :: vouts, [] :: vins)
    | Some (t, vo, vi) => (t :: ts, vo :: vouts, vi :: vins)
    end
  end.

Definition ExtractBlockTransactions (b : MsgBlock) (tree : Z) (isValid isMainchain : bool)
    : list Tx * list (list Vout) * list (list VinTxProperty) :=
  if tree =? TxTreeRegular then process_loop b tree isValid isMainchain 0 (mb_Transactions b)
  else if tree =? TxTreeStake then process_loop b tree isValid isMainchain 0 (mb_STransactions b)
  else ([], [], []).
End Extract.

(** ** Mixes *)
(** How many outputs pay the value [v]. *)
Definition count_val (v : Z) (outs : list TxOut) : Z := zlen (filter (λ o, to_Value o = v) outs).

Lemma count_val_snoc v outs o :
  count_val v (outs ++ [o]) = count_val v outs + (if decide (to_Value o = v) then 1 else 0).
Proof.
  unfold count_val. rewrite filter_app, zlen_app, filter_cons, filter_nil. by destruct (decide (to_Value o = v)).
Qed.
Lemma count_val_nonneg v outs : 0 <= count_val v outs.
Proof. apply zlen_nonneg. Qed.
Lemma count_val_le v outs : count_val v outs <= zlen outs.
Proof. unfold count_val, zlen. pose proof (length_filter (λ o, to_Value o = v) outs). lia. Qed.

Lemma mixed_outs_lookup outs v : zlen outs < 2 ^ 32 →
  mixed_outs outs !! v =
    if decide (v ∈ splitPoints ∧ 0 < count_val v outs) then Some (count_val v outs) else None.
Proof.
  unfold mixed_outs. induction outs as [|o outs IH] using rev_ind; intros Hl.
  - rewrite decide_False; [done|]. intros [_ H]. by unfold count_val in H.
  - rewrite zlen_app in Hl. change (zlen [o]) with 1 in Hl. specialize (IH ltac:(lia)).
    rewrite foldl_snoc, count_val_snoc. set (m := foldl _ ∅ outs) in *.
    pose proof (count_val_nonneg v outs). pose proof (count_val_le v outs).
    destruct (decide (to_Value o = v)) as [<-|Hv].
    + case_bool_decide as Hs.
      * rewrite lookup_insert_eq, IH.
        rewrite (decide_True (P:=_ ∧ 0 < _ + 1)) by (split; [done|lia]). f_equal.
        destruct (decide (to_Value o ∈ splitPoints ∧ 0 < count_val (to_Value o) outs)) as [_|Hn]; cbn [default].
        -- unfold id. apply wrap_u_small. lia.
        -- assert (count_val (to_Value o) outs = 0) as -> by (apply dec_stable; intros ?; apply Hn; split; [done|lia]). done.
      * rewrite IH. by rewrite !decide_False by tauto.
    + replace (count_val v outs + 0) with (count_val v outs) by lia. rewrite <- IH.
      case_bool_decide; [|done]. by rewrite lookup_insert_ne.
Qed.

(** The loop over the counts keeps the largest denomination with three outputs. *)
Lemma mix_fold_spec (l : list (Z * Z)) : Forall (λ '(v, c), 0 < v) l → ∀ d c,
  foldl (λ '(mixDenom, mixCount) '(val, count),
      if count <? 3 then (mixDenom, mixCount)
      else if mixDenom <? val then (val, count) else (mixDenom, mixCount)) (0, 0) l = (d, c) →
  ((d, c) = (0, 0) ∨ ((d, c) ∈ l ∧ 3 <= c)) ∧ 0 <= d ∧ ∀ v n, (v, n) ∈ l → 3 <= n → v <= d.
Proof.
  intros HF. induction l as [|[v n] l IH] using rev_ind; intros d c.
  - cbn. intros [= <- <-]. split_and!; [by left|done|]. by intros v n H%elem_of_nil.
  - apply Forall_app in HF as [HF Hv]. rewrite Forall_singleton in Hv. rewrite foldl_snoc.
    destruct (foldl _ (0, 0) l) as [d0 c0]. specialize (IH HF d0 c0 eq_refl) as (H1 & H2 & H3).
    assert (∀ x, x ∈ l → x ∈ l ++ [(v, n)]) as Hin by (intros; apply elem_of_app; by left).
    assert ((v, n) ∈ l ++ [(v, n)]) as Hlast by (apply elem_of_app; right; by apply list_elem_of_singleton).
    assert (∀ v' n', (v', n') ∈ l ++ [(v, n)] → (v', n') ∈ l ∨ (v' = v ∧ n' = n)) as Happ.
    { intros v' n' [?|[= -> ->]%list_elem_of_singleton]%elem_of_app; auto. }
    destruct (Z.ltb_spec n 3); [|destruct (Z.ltb_spec d0 v)]; intros [= <- <-].
    + split_and!; [destruct H1 as [?|[? ?]]; auto|done|]. intros v' n' [?|[-> ->]]%Happ ?; [eauto|lia].
    + split_and!; [right; split; [done|lia]|lia|]. intros v' n' [?|[-> ->]]%Happ ?; [|lia].
      specialize (H3 v' n' ltac:(done) ltac:(done)). lia.
    + split_and!; [destruct H1 as [?|[? ?]]; auto|done|]. intros v' n' [?|[-> ->]]%Happ ?; [eauto|lia].
Qed.

Lemma splitPoints_pos v : v ∈ splitPoints → 0 < v.
Proof. assert (Forall (λ v, 0 < v) splitPoints) as H by (by repeat constructor). rewrite Forall_forall in H. apply H. Qed.

(** Which mix a transaction is does not depend on the order of the map: the
    largest denomination that at least three outputs pay, with their number,
    or (0, 0) when there is none. *)
Lemma IsMixTx_largest {R : RangeOrder Z Z} tx m d c :
  zlen (tx_TxOut tx) < 2 ^ 32 → (3 <= length (tx_TxOut tx))%nat → (3 <= length (tx_TxIn tx))%nat →
  IsMixTx tx = (m, d, c) →
  (∀ v, v ∈ splitPoints → 3 <= count_val v (tx_TxOut tx) → v <= d) ∧
  ((d, c) = (0, 0) ∨ (d ∈ splitPoints ∧ c = count_val d (tx_TxOut tx) ∧ 3 <= c)).
Proof.
  intros Hl H1 H2. unfold IsMixTx. rewrite bool_decide_false by lia.
  destruct (foldl _ (0, 0) _) as [d0 c0] eqn:E. intros [= _ <- <-].
  apply mix_fold_spec in E as (Hc & Hd & Hmax).
  - split.
    + intros v Hv H3. apply (Hmax v (count_val v (tx_TxOut tx))); [|done].
      apply elem_of_range. rewrite mixed_outs_lookup, decide_True by (done || (split; [done|lia])). done.
    + destruct Hc as [?|[Hc H3]]; [by left|right]. apply elem_of_range in Hc.
      rewrite mixed_outs_lookup in Hc by done. case_decide as Hs; [|done]. injection Hc as <-. by destruct Hs.
  - apply Forall_forall. intros [v n] Hv%elem_of_range. rewrite mixed_outs_lookup in Hv by done.
    case_decide as Hs; [|done]. by apply splitPoints_pos, Hs.
Qed.

Lemma split_fold outs amt : zlen outs < 2 ^ 32 →
  foldl (λ '(t, n) o, if to_Value o =? amt then (u32 (t + 1), n) else (t, u32 (n + 1))) (0, 0) outs =
    (count_val amt outs, zlen outs - count_val amt outs).
Proof.
  induction outs as [|o outs IH] using rev_ind; intros Hl; [done|].
  rewrite zlen_app in *. change (zlen [o]) with 1 in *. rewrite foldl_snoc, IH, count_val_snoc by lia.
  pose proof (count_val_nonneg amt outs). pose proof (count_val_le amt outs).
  destruct (Z.eqb_spec (to_Value o) amt) as [E|E].
  - rewrite decide_True by done. unfold u32. rewrite wrap_u_small by lia. f_equal. lia.
  - rewrite decide_False by done. unfold u32. rewrite wrap_u_small by lia. f_equal; lia.
Qed.

(** The number kept with a transaction is that of the outputs of its
    denomination. *)
Lemma mix_of_count {lib : BlockLib} {RM : RangeOrder Z Z} price tx d c :
  zlen (tx_TxOut tx) < 2 ^ 32 → mix_of (RM:=RM) price tx = (d, c) →
  c = 0 ∨ c = count_val d (tx_TxOut tx) ∧ 3 <= c.
Proof.
  intros Hl. unfold mix_of. destruct (isStake tx); [intros [= _ <-]; by left|].
  destruct (IsMixTx tx) as [[m d0] c0] eqn:E. destruct (Z.eqb_spec c0 0) as [->|Hc].
  - unfold IsMixedSplitTx. case_bool_decide; [intros [= _ <-]; by left|]. rewrite split_fold by done.
    match goal with |- context [if ?x then (false, 0, 0) else _] => destruct x eqn:Eb end; [intros [= _ <-]; by left|].
    apply orb_false_iff in Eb as [?%Z.ltb_ge ?]. intros [= <- <-]. by right.
  - intros [= <- <-]. right. unfold IsMixTx in E.
    case_bool_decide as Hlen; [by injection E as _ _ <-|].
    destruct (IsMixTx_largest tx m d0 c0) as [_ [[= -> ->]|(_ & ? & ?)]]; [done|lia|lia| |done|done].
    unfold IsMixTx. by rewrite bool_decide_false.
Qed.

Section Rows.
Context {fl : SSFeeLib} {lib : BlockLib} {RM RS RV : RangeOrder Z Z}.
Abbreviation process_tx := (process_tx (RM:=RM) (RS:=RS) (RV:=RV)).
Abbreviation process_loop := (process_loop (RM:=RM) (RS:=RS) (RV:=RV)).
Abbreviation ExtractBlockTransactions := (ExtractBlockTransactions (RM:=RM) (RS:=RS) (RV:=RV)).

(** Ways in which the rows of a transaction and the transaction agree. *)
Record rows_of (isValid isMainchain : bool) (tree : Z) (i : nat) (tx : MsgTx)
    (t : Tx) (vo : list Vout) (vi : list VinTxProperty) : Prop := {
  ro_id : t_TxID t = tx_Hash tx;
  ro_index : t_BlockIndex t = Z.of_nat i;
  ro_tree : t_Tree t = tree;
  ro_type : t_TxType t = dbType tx;
  ro_valid : t_IsValid t = isValid || (tree =? TxTreeStake);
  ro_main : t_IsMainchainBlock t = isMainchain;
  ro_ids : t_VinDbIds t = [] ∧ t_VoutDbIds t = [];
  ro_mix : isStake tx = true → t_MixCount t = 0;
  ro_vouts : length vo = length (tx_TxOut tx);
  ro_vins : length vi = length (tx_TxIn tx);
  ro_vout j v : vo !! j = Some v → ∃ o, tx_TxOut tx !! j = Some o ∧
    v_TxHash v = tx_Hash tx ∧ v_TxIndex v = Z.of_nat j ∧ v_CoinType v = to_CoinType o ∧
    v_Addresses v = snd (ExtractAddrs o) ∧ (to_CoinType o = CoinTypeVAR → v_Value v = u64 (to_Value o));
  ro_vin j v : vi !! j = Some v → ∃ o, tx_TxIn tx !! j = Some o ∧
    vin_PrevTxHash v = op_Hash (ti_PreviousOutPoint o) ∧ vin_PrevTxIndex v = op_Index (ti_PreviousOutPoint o) ∧
    vin_TxID v = tx_Hash tx ∧ vin_TxIndex v = Z.of_nat j ∧ vin_ValueIn v = ti_ValueIn o
}.

(** The transaction belongs in the tree it is in. *)
Definition in_tree (tree : Z) (tx : MsgTx) : Prop := isStake tx = true → tree = TxTreeStake.

Lemma process_tx_rows b tree iv im i tx : in_tree tree tx →
  ∃ t vo vi, process_tx b tree iv im i tx = Some (t, vo, vi) ∧ rows_of iv im tree i tx t vo vi.
Proof.
  intros Ht. unfold process_tx. cbv zeta.
  replace (isStake tx && negb (tree =? TxTreeStake)) with false.
  2:{ destruct (isStake tx) eqn:E; [|done]. by rewrite (Ht E). }
  destruct (mix_of (mb_SBits b) tx) as [d c] eqn:Em.
  destruct (sum_spent (tx_TxIn tx)) as [vs ss], (sum_sent (tx_TxOut tx)) as [vt st].
  do 3 eexists. split; [done|]. constructor; try done; cbn [t_TxID t_VinDbIds t_VoutDbIds t_MixCount].
  - intros E. unfold mix_of in Em. rewrite E in Em. by injection Em as _ <-.
  - apply length_imap.
  - apply length_imap.
  - intros j v H. rewrite list_lookup_imap in H. destruct (tx_TxOut tx !! j) as [o|]; [|done].
    exists o. split; [done|]. cbn in H. unfold make_vout in H. destruct (ExtractAddrs o) as [sc addrs].
    injection H as <-. cbn. split_and!; try done. by intros ->.
  - intros j v H. rewrite list_lookup_imap in H. destruct (tx_TxIn tx !! j) as [o|]; [|done].
    exists o. injection H as <-. by cbn.
Qed.

Lemma process_tx_skips b tree iv im i tx :
  isStake tx = true → tree ≠ TxTreeStake → process_tx b tree iv im i tx = None.
Proof. intros H Ht. unfold process_tx. rewrite H. by destruct (Z.eqb_spec tree TxTreeStake). Qed.

Lemma process_loop_rows b tree iv im txs : Forall (in_tree tree) txs → ∀ i ts vouts vins,
  process_loop b tree iv im i txs = (ts, vouts, vins) →
  length ts = length txs ∧ length vouts = length txs ∧ length vins = length txs ∧
  ∀ k tx, txs !! k = Some tx → ∃ t vo vi, ts !! k = Some t ∧ vouts !! k = Some vo ∧ vins !! k = Some vi ∧
    rows_of iv im tree (i + k) tx t vo vi.
Proof.
  induction 1 as [|tx txs Ht _ IH]; intros i ts vouts vins; cbn [process_loop BlockTxns.process_loop].
  - intros [= <- <- <-]. split_and!; try done. 
  - destruct (BlockTxns.process_loop b tree iv im (S i) txs) as [[ts' vouts'] vins'] eqn:E.
    destruct (process_tx_rows b tree iv im i tx Ht) as (t & vo & vi & -> & Hr). intros [= <- <- <-].
    destruct (IH _ _ _ _ E) as (H1 & H2 & H3 & H4). cbn. split_and!; [lia..|].
    intros [|k] tx' Hk.
    + injection Hk as <-. exists t, vo, vi. by rewrite Nat.add_0_r.
    + destruct (H4 k tx' Hk) as (t' & vo' & vi' & ? & ? & ? & ?). exists t', vo', vi'.
      by replace (i + S k)%nat with (S i + k)%nat by lia.
Qed.

Definition tree_txs (b : MsgBlock) (tree : Z) : list MsgTx :=
  if tree =? TxTreeRegular then mb_Transactions b else if tree =? TxTreeStake then mb_STransactions b else [].

Lemma Extract_loop b tree iv im :
  ExtractBlockTransactions b tree iv im = process_loop b tree iv im 0 (tree_txs b tree).
Proof.
  unfold ExtractBlockTransactions, tree_txs. destruct (tree =? TxTreeRegular); [done|]. by destruct (tree =? TxTreeStake).
Qed.

(** C36: The three slices extracted from a tree line up: entry [k] of each
    describes transaction [k] of the tree, when every transaction is in the
    tree of its type. *)
Theorem extracted_rows_aligned b tree iv im ts vouts vins :
  Forall (in_tree tree) (tree_txs b tree) →
  ExtractBlockTransactions b tree iv im = (ts, vouts, vins) →
  length ts = length (tree_txs b tree) ∧ length vouts = length (tree_txs b tree) ∧ length vins = length (tree_txs b tree) ∧
  ∀ k tx, tree_txs b tree !! k = Some tx → ∃ t vo vi, ts !! k = Some t ∧ vouts !! k = Some vo ∧ vins !! k = Some vi ∧
    rows_of iv im tree k tx t vo vi.
Proof.
  intros HF. rewrite Extract_loop. intros H. by apply (process_loop_rows _ _ _ _ _ HF 0) in H.
Qed.

Lemma process_loop_app b tree iv im txs1 txs2 : ∀ i,
  process_loop b tree iv im i (txs1 ++ txs2) =
    let '(t1, o1, i1) := process_loop b tree iv im i txs1 in
    let '(t2, o2, i2) := process_loop b tree iv im (i + length txs1) txs2 in
    (t1 ++ t2, o1 ++ o2, i1 ++ i2).
Proof.
  induction txs1 as [|tx txs1 IH]; intros i; cbn [app BlockTxns.process_loop length].
  - rewrite Nat.add_0_r. by destruct (BlockTxns.process_loop b tree iv im i txs2) as [[? ?] ?].
  - rewrite IH. replace (i + S (length txs1))%nat with (S i + length txs1)%nat by lia.
    destruct (BlockTxns.process_loop b tree iv im (S i) txs1) as [[? ?] ?].
    destruct (BlockTxns.process_loop b tree iv im (S i + length txs1) txs2) as [[? ?] ?].
    by destruct (process_tx b tree iv im i tx) as [[[? ?] ?]|].
Qed.

(** After a transaction that is skipped because it is in the wrong tree, the
    slices do not line up: where the next transaction is found, the slices of
    its outputs and inputs have the empty entries of the skipped one. *)
Theorem skipped_transaction_shifts b tree iv im txs1 bad tx txs2 ts vouts vins :
  tree ≠ TxTreeStake → tree_txs b tree = txs1 ++ bad :: tx :: txs2 →
  Forall (in_tree tree) txs1 → isStake bad = true → isStake tx = false →
  ExtractBlockTransactions b tree iv im = (ts, vouts, vins) →
  ∃ t, ts !! length txs1 = Some t ∧ t_TxID t = tx_Hash tx ∧ t_NumVout t = zlen (tx_TxOut tx) ∧
    vouts !! length txs1 = Some [] ∧ vins !! length txs1 = Some [] ∧ (length ts < length vouts)%nat.
Proof.
  intros Htree Htxs H1 Hbad Htx. rewrite Extract_loop, Htxs, process_loop_app.
  destruct (BlockTxns.process_loop b tree iv im 0 txs1) as [[t1 o1] i1] eqn:E1.
  destruct (process_loop_rows _ _ _ _ _ H1 _ _ _ _ E1) as (L1 & L2 & L3 & _). cbn [BlockTxns.process_loop].
  rewrite (process_tx_skips _ _ _ _ _ bad) by done.
  assert (in_tree tree tx) as Hin by (by intros E; rewrite Htx in E).
  destruct (process_tx_rows b tree iv im (S (0 + length txs1)) tx Hin) as (t & vo & vi & Et & Hr). rewrite Et.
  assert (t_NumVout t = zlen (tx_TxOut tx)) as Hn.
  { unfold process_tx in Et. cbv zeta in Et. rewrite Htx in Et. cbn [andb] in Et.
    destruct (mix_of _ tx), (sum_spent _), (sum_sent _). by injection Et as <- _ _. }
  destruct (BlockTxns.process_loop b tree iv im (S (S (0 + length txs1))) txs2) as [[t2 o2] i2] eqn:E2.
  intros [= <- <- <-]. exists t. rewrite <- L1 at 1. rewrite <- L2 at 1. rewrite <- L3 at 1.
  rewrite !list_lookup_middle by done. split_and!; try done; [by apply Hr|].
  rewrite !length_app. cbn [length]. assert (length t2 <= length o2)%nat; [|lia]. clear -E2.
  revert E2. generalize (S (S (0 + length txs1))). revert t2 o2 i2.
  induction txs2 as [|x l IH]; intros t2 o2 i2 n; cbn [BlockTxns.process_loop]; [by intros [= <- <- _]|].
  destruct (BlockTxns.process_loop b tree iv im (S n) l) as [[t3 o3] i3] eqn:E.
  specialize (IH _ _ _ _ E). destruct (process_tx b tree iv im n x) as [[[? ?] ?]|]; intros [= <- <- _]; cbn; lia.
Qed.

(** ** Amounts *)
Definition ska_ins (tx : MsgTx) : list Z := omap ti_SKAValueIn (tx_TxIn tx).
Definition var_ins (tx : MsgTx) : list Z :=
  omap (λ i, match ti_SKAValueIn i with Some _ => None | None => Some (ti_ValueIn i) end) (tx_TxIn tx).
Definition ska_outs (tx : MsgTx) : list (Z * Z) :=
  omap (λ o, if to_CoinType o =? CoinTypeVAR then None else
             v ← to_SKAValue o; if IsSKA (to_CoinType o) then Some (to_CoinType o, v) else None) (tx_TxOut tx).
Definition var_outs (tx : MsgTx) : list Z :=
  omap (λ o, if to_CoinType o =? CoinTypeVAR then Some (to_Value o) else None) (tx_TxOut tx).

Lemma omap_snoc {A B} (f : A → option B) l x : omap f (l ++ [x]) = omap f l ++ match f x with Some y => [y] | None => [] end.
Proof. rewrite omap_app. cbn. by destruct (f x). Qed.

(** The sum under one key. *)
Definition only (k : Z) (l : list Z) : gmap Z Z := if bool_decide (l = []) then ∅ else {[k := zsum l]}.

Lemma only_snoc k l v : bigIntMapAdd (only k l) k v = only k (l ++ [v]).
Proof.
  unfold only, bigIntMapAdd. rewrite zsum_snoc, (bool_decide_false (l ++ [v] = [])) by (by destruct l).
  case_bool_decide as H.
  - subst. by rewrite lookup_empty, insert_empty.
  - by rewrite lookup_singleton_eq, insert_singleton_eq.
Qed.

Lemma sum_spent_spec tx : sum_spent (tx_TxIn tx) = (i64 (zsum (var_ins tx)), only placeholder (ska_ins tx)).
Proof.
  unfold sum_spent, var_ins, ska_ins. induction (tx_TxIn tx) as [|x l IH] using rev_ind; [done|].
  rewrite foldl_snoc, IH, !omap_snoc. destruct (ti_SKAValueIn x) as [v|].
  - by rewrite only_snoc, app_nil_r.
  - rewrite app_nil_r, zsum_snoc. unfold i64. by rewrite wrap_s_add_idemp_l.
Qed.

Lemma sum_sent_spec tx ct : Forall (λ '(c, _), c = ct) (ska_outs tx) →
  sum_sent (tx_TxOut tx) = (i64 (zsum (var_outs tx)), only ct (snd <$> ska_outs tx)).
Proof.
  unfold sum_sent, var_outs, ska_outs. induction (tx_TxOut tx) as [|x l IH] using rev_ind; [done|].
  rewrite foldl_snoc, !omap_snoc. intros [H Hx]%Forall_app. rewrite IH by done. cbn beta iota.
  destruct (to_CoinType x =? CoinTypeVAR).
  - rewrite app_nil_r, zsum_snoc. unfold i64. by rewrite wrap_s_add_idemp_l.
  - rewrite app_nil_r. destruct (to_SKAValue x) as [v|]; [|by rewrite app_nil_r]. cbn in Hx |- *.
    destruct (IsSKA (to_CoinType x)); [|by rewrite app_nil_r].
    rewrite Forall_singleton in Hx. by rewrite fmap_app, Hx, only_snoc.
Qed.

Lemma first_key_only (R : RangeOrder Z Z) k l : first_key R (only k l) = if bool_decide (l = []) then None else Some k.
Proof.
  unfold first_key, only. case_bool_decide.
  - assert (range_of (∅ : gmap Z Z) = []) as ->; [|done].
    apply Permutation_nil_r. by rewrite range_perm, map_to_list_empty.
  - assert (range_of ({[k := zsum l]} : gmap Z Z) = [(k, zsum l)]) as ->; [|done].
    apply Permutation_singleton_r. by rewrite range_perm, map_to_list_singleton.
Qed.

(** The amounts of a transaction with SKA outputs of one coin do not
    depend on the order in which Go visits the maps: what is spent and sent in
    the coin are the sums over the inputs and outputs, the fee is their
    difference when that is positive, the inputs carry the coin type of the
    outputs, and the VAR amounts are the sums of the others, as int64. *)
Theorem single_coin_amounts b tree iv im i tx ct t vo vi :
  Forall (λ '(c, _), c = ct) (ska_outs tx) → ska_outs tx ≠ [] → ska_ins tx ≠ [] →
  process_tx b tree iv im i tx = Some (t, vo, vi) →
  let spent := zsum (ska_ins tx) in
  let sent := zsum (snd <$> ska_outs tx) in
  t_SpentByCoin t = Some {[ct := bigString spent]} ∧ t_SentByCoin t = Some {[ct := bigString sent]} ∧
  t_FeesByCoin t = (if sent <? spent then Some {[ct := bigString (spent - sent)]} else None) ∧
  Forall (λ v, vin_CoinType v = ct) vi ∧
  t_Spent t = i64 (zsum (var_ins tx)) ∧ t_Sent t = i64 (zsum (var_outs tx)) ∧
  t_Fees t = i64 (zsum (var_ins tx) - zsum (var_outs tx)).
Proof.
  intros HF Hout Hin. unfold process_tx. cbv zeta. destruct (isStake tx && _); [done|].
  destruct (mix_of _ tx) as [d c]. rewrite sum_spent_spec, (sum_sent_spec tx ct) by done.
  assert (snd <$> ska_outs tx ≠ []) as Hout' by (by destruct (ska_outs tx)).
  assert (resolve_spent (RS:=RS) (only placeholder (ska_ins tx)) (only ct (snd <$> ska_outs tx)) =
          {[ct := zsum (ska_ins tx)]}) as ->.
  { unfold resolve_spent. rewrite first_key_only, (bool_decide_false (snd <$> _ = [])) by done.
    unfold only. rewrite (bool_decide_false (ska_ins tx = [])), lookup_singleton_eq by done.
    rewrite delete_singleton_eq. unfold bigIntMapAdd. by rewrite lookup_empty, insert_empty. }
  rewrite first_key_only, (bool_decide_false (snd <$> _ = [])) by done. cbn [default]. unfold id.
  unfold only. rewrite (bool_decide_false (snd <$> _ = [])) by done.
  set (spent := zsum (ska_ins tx)). set (sent := zsum (snd <$> ska_outs tx)).
  assert (ska_fees {[ct := spent]} {[ct := sent]} = if sent <? spent then {[ct := spent - sent]} else ∅) as Hf.
  { unfold ska_fees. apply map_eq. intros k. rewrite map_lookup_imap. destruct (decide (k = ct)) as [->|Hk].
    - rewrite !lookup_singleton_eq. cbn. destruct (Z.ltb_spec sent spent); destruct (Z.ltb_spec 0 (spent - sent)); try lia.
      + by rewrite lookup_singleton_eq.
      + by rewrite lookup_empty.
    - rewrite lookup_singleton_ne by done. cbn. by destruct (sent <? spent); rewrite ?lookup_singleton_ne, ?lookup_empty. }
  rewrite Hf. intros [= <- <- <-]. cbn.
  assert (∀ k v, ({[k := v]} : gmap Z Z) ≠ ∅) as Hne by (intros; apply map_non_empty_singleton).
  rewrite (bool_decide_false ({[ct := spent]} = ∅)) by done. cbn [andb].
  unfold bigIntMapToStrings. rewrite !(bool_decide_false (_ = ∅)) by done. rewrite !map_fmap_singleton.
  split_and!; try done.
  - destruct (sent <? spent).
    + by rewrite bool_decide_false, map_fmap_singleton.
    + by rewrite bool_decide_true.
  - apply Forall_forall. intros v (j & x & -> & _)%elem_of_lookup_imap_1. done.
  - unfold i64. by apply wrap_s_sub_idemp.
Qed.

(** ** Mixed outputs *)
Lemma mix_of_denom price tx d c : zlen (tx_TxOut tx) < 2 ^ 32 → 0 <= price < 2 ^ 62 →
  mix_of (RM:=RM) price tx = (d, c) → (d, c) = (0, 0) ∨ 0 < d ∧ 3 <= c.
Proof.
  intros Hl Hp. unfold mix_of. destruct (isStake tx); [intros [= <- <-]; by left|].
  destruct (IsMixTx (R:=RM) tx) as [[m d0] c0] eqn:E. destruct (Z.eqb_spec c0 0) as [->|Hc].
  - unfold IsMixedSplitTx. case_bool_decide; [intros [= <- <-]; by left|]. rewrite split_fold by done.
    match goal with |- context [if ?x then (false, 0, 0) else _] => destruct x eqn:Eb end; [intros [= <- <-]; by left|].
    apply orb_false_iff in Eb as [?%Z.ltb_ge ?]. intros [= <- <-]. right. split; [|done].
    match goal with |- 0 < i64 (price + ?f) => replace f with 2980 by reflexivity end.
    unfold i64. rewrite wrap_s_small by lia. lia.
  - intros [= <- <-]. right. unfold IsMixTx in E. case_bool_decide as Hlen; [by injection E as _ _ <-|].
    destruct (IsMixTx_largest (R:=RM) tx m d0 c0) as [_ [[= -> ->]|(H & _ & ?)]]; [done|lia|lia| |done|].
    { unfold IsMixTx. by rewrite bool_decide_false. }
    split; [by apply splitPoints_pos|done].
Qed.

Lemma filter_mixed (f : nat → TxOut → Vout) outs d : 0 < d →
  (∀ i o, v_Mixed (f i o) = (to_CoinType o =? CoinTypeVAR) && (0 <? d) && (d =? to_Value o)) →
  (∀ o, o ∈ outs → to_Value o = d → to_CoinType o = CoinTypeVAR) →
  zlen (filter (λ v, v_Mixed v) (imap f outs)) = count_val d outs.
Proof.
  intros Hd. revert f. induction outs as [|o outs IH]; intros f Hf Hv; [done|].
  rewrite imap_cons, filter_cons. unfold count_val. rewrite filter_cons.
  assert (v_Mixed (f 0%nat o) = bool_decide (to_Value o = d)) as E.
  { rewrite Hf, (proj2 (Z.ltb_lt 0 d)), andb_true_r by done. case_bool_decide as Ho.
    - rewrite (Hv o) by (done || by left). by rewrite Z.eqb_refl, <- Ho, Z.eqb_refl.
    - destruct (Z.eqb_spec d (to_Value o)); [done|]. apply andb_false_r. }
  rewrite E. specialize (IH (f ∘ S) (λ i, Hf (S i)) (λ o' H, Hv o' ltac:(by right))). unfold count_val, zlen in *.
  destruct (decide (to_Value o = d)); case_bool_decide; try done; cbn [Is_true];
    first [rewrite decide_True by done|rewrite decide_False by (by intros [])]; cbn [length]; lia.
Qed.

(** The outputs stored as mixed are as many as the mix count of the
    transaction, which is 0 or at least 3. *)
Theorem mixed_outputs_counted b tree iv im i tx t vo vi :
  zlen (tx_TxOut tx) < 2 ^ 31 → 0 <= mb_SBits b < 2 ^ 62 →
  process_tx b tree iv im i tx = Some (t, vo, vi) →
  (∀ o, o ∈ tx_TxOut tx → to_Value o = t_MixDenom t → to_CoinType o = CoinTypeVAR) →
  zlen (filter (λ v, v_Mixed v) vo) = t_MixCount t ∧ (t_MixCount t = 0 ∨ 3 <= t_MixCount t).
Proof.
  intros Hl Hp. unfold process_tx. cbv zeta. destruct (isStake tx && _); [done|].
  destruct (mix_of _ tx) as [d c] eqn:E. destruct (sum_spent _), (sum_sent _). intros [= <- <- <-]. cbn. intros Hv.
  assert (zlen (tx_TxOut tx) < 2 ^ 32) as Hl' by lia.
  pose proof (mix_of_count _ _ _ _ Hl' E) as Hc. pose proof (mix_of_denom _ _ _ _ Hl' Hp E) as Hd.
  pose proof (count_val_nonneg d (tx_TxOut tx)). pose proof (count_val_le d (tx_TxOut tx)).
  assert (i32 c = c) as -> by (apply wrap_s_small; [done|]; destruct Hc as [->|[-> _]]; lia).
  split; [|lia]. destruct Hd as [[= -> ->]|[Hd ?]].
  - assert (∀ (f : nat → TxOut → Vout) outs, (∀ i o, v_Mixed (f i o) = false) →
      zlen (filter (λ v, v_Mixed v) (imap f outs)) = 0) as G.
    { intros f outs. revert f. induction outs as [|o outs IH]; intros f Hf; [done|].
      rewrite imap_cons, filter_cons, Hf. apply (IH (f ∘ S)). intros. apply Hf. }
    apply G. intros io o. unfold make_vout. destruct (ExtractAddrs o). cbn. by rewrite andb_false_r.
  - rewrite (filter_mixed _ _ d) by (done || (intros io o; unfold make_vout; by destruct (ExtractAddrs o))).
    destruct Hc as [?|[? _]]; [lia|done].
Qed.
End Rows.

(** ** Examples *)
Module Witness.
Definition fl : SSFeeLib :=
  {| isSSFee := λ _, false; HasSSFeeMarker := λ _, SSFeeMarkerNone; IsSKA := λ c, 0 <? c; MaxPrevOutIndex := 4294967295 |}.
(** A transaction whose hash begins with 1 is a ticket. *)
Definition lib : BlockLib :=
  {| DetermineTxType := λ tx, if hd 0 (tx_Hash tx) =? 1 then TxTypeSStx else TxTypeRegular;
     ExtractAddrs := λ _, (STPubKeyHashEcdsaSecp256k1, ["A"%string]);
     standalone_IsCoinBaseTx := λ _ _, false |}.
Definition R : RangeOrder Z Z := canonical_range.
#[local] Existing Instances fl lib R.

Definition txin (v : Z) (ska : option Z) : TxIn := mkTxIn (mkOutPoint [9] 0 0) v ska.
Definition mixed : MsgTx := mkTx [2] (replicate 3 (txin 300000 None)) (replicate 3 (mkTxOut (2 ^ 18) 0 None [])).
Definition ticket : MsgTx := mkTx [1] [txin 5 None] [mkTxOut 5 0 None []].
Definition skaTx : MsgTx := mkTx [3] [txin 0 (Some 900)] [mkTxOut 0 7 (Some 500) []; mkTxOut 0 7 (Some 300) []].
Definition blk (txs : list MsgTx) : MsgBlock := mkMsgBlock [8] 5 [7] (mkTime 0 0 true) 1000 1 txs [ticket].

Lemma extracted_rows_aligned_witness : ∃ ts vouts vins,
  ExtractBlockTransactions (blk [mixed; skaTx]) TxTreeRegular true true = (ts, vouts, vins) ∧ length ts = 2%nat.
Proof.
  destruct (ExtractBlockTransactions (blk [mixed; skaTx]) TxTreeRegular true true) as [[ts vouts] vins] eqn:E.
  exists ts, vouts, vins. split; [done|].
  destruct (extracted_rows_aligned (blk [mixed; skaTx]) TxTreeRegular true true ts vouts vins) as [-> _]; [|exact E|done].
  repeat constructor; done.
Defined.

Lemma skipped_transaction_shifts_witness : ∃ ts vouts vins,
  ExtractBlockTransactions (blk [mixed; ticket; skaTx]) TxTreeRegular true true = (ts, vouts, vins) ∧
  (t_TxID <$> ts !! 1%nat) = Some [3] ∧ vouts !! 1%nat = Some [].
Proof.
  destruct (ExtractBlockTransactions (blk [mixed; ticket; skaTx]) TxTreeRegular true true) as [[ts vouts] vins] eqn:E.
  exists ts, vouts, vins. split; [done|].
  destruct (skipped_transaction_shifts (blk [mixed; ticket; skaTx]) TxTreeRegular true true [mixed] ticket skaTx [] ts vouts vins)
    as (t & Ht & Hid & _ & Hvo & _); [done|done| |done|done|exact E|].
  - repeat constructor; done.
  - cbn [length] in *. by rewrite Ht, Hvo; cbn; rewrite Hid.
Defined.

Lemma single_coin_amounts_witness : ∃ t vo vi,
  process_tx (blk [skaTx]) TxTreeRegular true true 0 skaTx = Some (t, vo, vi) ∧ t_FeesByCoin t = Some {[7 := "100"%string]}.
Proof.
  do 3 eexists. split; [reflexivity|].
  assert (ska_outs skaTx = [(7, 500); (7, 300)]) as Eo by reflexivity.
  destruct (single_coin_amounts (blk [skaTx]) TxTreeRegular true true 0 skaTx 7 _ _ _
    ltac:(rewrite Eo; by repeat constructor) ltac:(by rewrite Eo) ltac:(done) eq_refl) as (_ & _ & H & _).
  exact H.
Defined.

Lemma mixed_outputs_counted_witness : ∃ t vo vi,
  process_tx (blk [mixed]) TxTreeRegular true true 0 mixed = Some (t, vo, vi) ∧ t_MixCount t = 3 ∧
  zlen (filter (λ v, v_Mixed v) vo) = 3.
Proof.
  do 3 eexists. split; [reflexivity|]. split; [reflexivity|].
  refine (proj1 (mixed_outputs_counted (blk [mixed]) TxTreeRegular true true 0 mixed _ _ _ _ _ eq_refl _)); [done|done|].
  intros o Ho _. assert (Forall (λ o, to_CoinType o = CoinTypeVAR) (tx_TxOut mixed)) as H by (by repeat constructor).
  rewrite Forall_forall in H. by apply H.
Defined.
End Witness.
