(* ===== verification/UtxoStore.v ===== *)
(** * Caches of the block storage (db/dcrpg/pgblockchain.go)

    The cache of unspent outputs by transaction and index, the cache of ticket
    row IDs, and the cache of the ticket pool graphs.  The outputs are kept in
    a map of maps; the theorems show that it behaves as one map from outpoints
    to outputs, with its size, and that no empty inner map remains. *)
From stdpp Require Import gmap strings.
From S2P Require Import Prelude StakeTx BlockTxns.
Open Scope Z_scope.

(** ** Unspent outputs *)
Record UTXOData := mkUtxo {
  u_Addresses : list string; u_Value : Z; u_Mixed : bool; u_VoutDbID : Z; u_CoinType : Z; u_SKAValue : string
}.
(** [UTXO]: the outpoint and the data. *)
Abbreviation outpoint := (Hash * Z)%type.
Abbreviation UTXO := (outpoint * UTXOData)%type.

Abbreviation utxoStore := (gmap Hash (gmap Z UTXOData)).
Definition newUtxoStore : utxoStore := ∅.

Definition utxo_Get (txHash : Hash) (txIndex : Z) (u : utxoStore) : option UTXOData * utxoStore :=
  let inner := default ∅ (u !! txHash) in
  match inner !! txIndex with
  | Some d =>
    let inner := delete txIndex inner in
    (Some d, if bool_decide (size inner = 0%nat) then delete txHash u else <[txHash := inner]> u)
  | None => (None, u)
  end.

Definition utxo_Peek (txHash : Hash) (txIndex : Z) (u : utxoStore) : option UTXOData :=
  match u !! txHash with Some txVals => txVals !! txIndex | None => None end.

Definition utxo_set (txHash : Hash) (txIndex : Z) (d : UTXOData) (u : utxoStore) : utxoStore :=
  match u !! txHash with
  | None => <[txHash := {[txIndex := d]}]> u
  | Some txUTXOVals => <[txHash := <[txIndex := d]> txUTXOVals]> u
  end.
Definition utxo_Set : Hash → Z → UTXOData → utxoStore → utxoStore := utxo_set.

Definition Reinit (utxos : list UTXO) (u : utxoStore) : utxoStore :=
  match utxos with
  | [] => u
  | _ => foldl (λ c '((h, i), d), utxo_set h i d c) ∅ utxos
  end.

Definition utxo_Size (u : utxoStore) : Z := map_sum (λ m, Z.of_nat (size m)) u.

(** *** The outputs of a block's transactions *)
Definition utxo_of (voutDbIDs : list Z) (n iv : nat) (vout : Vout) : option UTXO :=
  if (v_Value vout =? 0) && (v_CoinType vout =? CoinTypeVAR) then None else
  let voutDbID := if bool_decide (length voutDbIDs = n) then i64 (default 0 (voutDbIDs !! iv)) else -1 in
  Some ((v_TxHash vout, v_TxIndex vout),
        mkUtxo (v_Addresses vout) (i64 (v_Value vout)) (v_Mixed vout) voutDbID (v_CoinType vout) (v_SKAValue vout)).

Definition utxos_of (tx : Tx) (vouts : list Vout) : list UTXO :=
  omap id (imap (utxo_of (t_VoutDbIds tx) (length vouts)) vouts).

(** [None] is the panic where there are fewer slices of outputs than
    transactions. *)
Fixpoint updateUtxoCache (dbVouts : list (list Vout)) (txns : list Tx) (u : utxoStore) : option utxoStore :=
  match txns with
  | [] => Some u
  | tx :: txns =>
    match dbVouts with
    | [] => None
    | vouts :: dbVouts =>
      updateUtxoCache dbVouts txns (foldl (λ u '((h, i), d), utxo_Set h i d u) u (utxos_of tx vouts))
    end
  end.

(** ** Row IDs of tickets

    The receiver may be nil. The query of the tickets table fails with
    [None]. *)
Record TicketTxnIDGetter := mkGetter { idCache : gmap Hash Z }.
Definition NewTicketTxnIDGetter : TicketTxnIDGetter := mkGetter ∅.

Definition TxnDbID (retrieveTicketID : Hash → option Z) (txid : Hash) (expire : bool) (t : option TicketTxnIDGetter)
    : res unit Z * option TicketTxnIDGetter :=
  match t with
  | None => (Panic, t)
  | Some g =>
    match idCache g !! txid with
    | Some dbID => (Ok dbID, if expire then Some (mkGetter (delete txid (idCache g))) else t)
    | None => (match retrieveTicketID txid with Some id => Ok id | None => Err tt end, t)
    end
  end.

Definition getter_Set (txid : Hash) (txDbID : Z) (t : option TicketTxnIDGetter) : option TicketTxnIDGetter :=
  match t with None => None | Some g => Some (mkGetter (<[txid := txDbID]> (idCache g))) end.

(** [Panic] is the index panic when there are fewer IDs than hashes; the pairs
    before it are stored. *)
Fixpoint setN_loop (txid : list Hash) (txDbID : list Z) (c : gmap Hash Z) : res unit unit * gmap Hash Z :=
  match txid, txDbID with
  | [], _ => (Ok tt, c)
  | h :: txid, i :: txDbID => setN_loop txid txDbID (<[h := i]> c)
  | _, _ => (Panic, c)
  end.
Definition SetN (txid : list Hash) (txDbID : list Z) (t : option TicketTxnIDGetter)
    : res unit unit * option TicketTxnIDGetter :=
  match t with
  | None => (Ok tt, None)
  | Some g => let '(r, c) := setN_loop txid txDbID (idCache g) in (r, Some (mkGetter c))
  end.

(** ** Ticket pool graphs

    One entry of each map by interval; [G] is the type of a graph. *)
Section Graphs.
Context {G : Type}.
Record ticketPoolDataCache := mkGraphs {
  g_Height : gmap Z Z; TimeGraphCache : gmap Z G; PriceGraphCache : gmap Z G; DonutGraphCache : gmap Z G
}.
Definition emptyGraphs : ticketPoolDataCache := mkGraphs ∅ ∅ ∅ ∅.
Definition NumIntervals : Z := 5.

Definition TicketPoolData (interval height : Z) (c : ticketPoolDataCache)
    : option G * option G * option G * Z * bool * bool :=
  let t := TimeGraphCache c !! interval in
  let p := PriceGraphCache c !! interval in
  let d := DonutGraphCache c !! interval in
  let intervalFound := bool_decide (is_Some t) && bool_decide (is_Some p) && bool_decide (is_Some d) in
  let actualHeight := default 0 (g_Height c !! interval) in
  (t, p, d, actualHeight, intervalFound, negb (actualHeight =? height)).

Definition UpdateTicketPoolData (interval : Z) (t p d : G) (height : Z) (c : ticketPoolDataCache) : ticketPoolDataCache :=
  if NumIntervals <=? interval then c else
  mkGraphs (<[interval := height]> (g_Height c)) (<[interval := t]> (TimeGraphCache c))
    (<[interval := p]> (PriceGraphCache c)) (<[interval := d]> (DonutGraphCache c)).
End Graphs.
Arguments ticketPoolDataCache G : clear implicits.

(** ** The store as one map *)
Definition flat_list (u : utxoStore) : list UTXO :=
  map_to_list u ≫= λ '(h, m), (λ '(i, d), ((h, i), d)) <$> map_to_list m.
Definition flat (u : utxoStore) : gmap outpoint UTXOData := list_to_map (flat_list u).

Lemma elem_of_flat_list u h i d : ((h, i), d) ∈ flat_list u ↔ utxo_Peek h i u = Some d.
Proof.
  unfold flat_list, utxo_Peek. rewrite list_elem_of_bind. split.
  - intros ([h' m] & Hd & Hm%elem_of_map_to_list). apply list_elem_of_fmap in Hd as ([i' d'] & [= -> -> ->] & Hd).
    rewrite Hm. by apply elem_of_map_to_list.
  - destruct (u !! h) as [m|] eqn:Hm; [|done]. intros Hi. exists (h, m). split; [|by apply elem_of_map_to_list].
    apply list_elem_of_fmap. exists (i, d). split; [done|]. by apply elem_of_map_to_list.
Qed.

Lemma flat_list_nodup u : NoDup (flat_list u).*1.
Proof.
  apply NoDup_fmap_fst.
  - intros [h i] d d' H1%elem_of_flat_list H2%elem_of_flat_list. congruence.
  - apply NoDup_bind; [| |apply NoDup_map_to_list].
    + intros [h m] [h' m'] y Hm%elem_of_map_to_list Hm'%elem_of_map_to_list Hy Hy'.
      apply list_elem_of_fmap in Hy as ([i d] & -> & _). apply list_elem_of_fmap in Hy' as ([i' d'] & [= <- _ _] & _).
      congruence.
    + intros [h m] _. apply NoDup_fmap_2; [|apply NoDup_map_to_list]. intros [i d] [i' d']. by intros [= -> ->].
Qed.

Lemma flat_lookup u h i : flat u !! (h, i) = utxo_Peek h i u.
Proof.
  apply option_eq. intros d. unfold flat.
  rewrite <- elem_of_flat_list. symmetry. apply elem_of_list_to_map, flat_list_nodup.
Qed.

Lemma Size_flat u : utxo_Size u = Z.of_nat (size (flat u)).
Proof.
  unfold flat. rewrite <- length_map_to_list, map_to_list_to_map by apply flat_list_nodup.
  unfold utxo_Size, map_sum, flat_list. rewrite map_fold_foldr.
  induction (map_to_list u) as [|[h m] l IH]; [done|].
  cbn [foldr mbind list_bind uncurry]. rewrite length_app, length_fmap, length_map_to_list, IH.
  rewrite Nat2Z.inj_add. done.
Qed.

(** No inner map is empty. *)
Definition no_empty (u : utxoStore) : Prop := ∀ h m, u !! h = Some m → m ≠ ∅.

Lemma Peek_set h i d u h' i' :
  utxo_Peek h' i' (utxo_set h i d u) = if decide ((h', i') = (h, i)) then Some d else utxo_Peek h' i' u.
Proof.
  unfold utxo_Peek, utxo_set. destruct (decide (h' = h)) as [->|Hh].
  - destruct (u !! h) as [m|]; rewrite lookup_insert_eq; destruct (decide (i' = i)) as [->|Hi].
    + by rewrite decide_True, lookup_insert_eq.
    + rewrite decide_False, lookup_insert_ne by congruence. done.
    + by rewrite decide_True, lookup_singleton_eq.
    + rewrite decide_False, lookup_singleton_ne by congruence. done.
  - rewrite decide_False by congruence. by destruct (u !! h); rewrite lookup_insert_ne.
Qed.

Lemma flat_set h i d u : flat (utxo_set h i d u) = <[(h, i) := d]> (flat u).
Proof.
  apply map_eq. intros [h' i']. rewrite flat_lookup, Peek_set. case_decide as E.
  - by rewrite E, lookup_insert_eq.
  - by rewrite lookup_insert_ne, flat_lookup by done.
Qed.

Lemma set_no_empty h i d u : no_empty u → no_empty (utxo_set h i d u).
Proof.
  intros Hu h' m. unfold utxo_set. destruct (u !! h); intros [[<- <-]|[_ H]]%lookup_insert_Some;
    [apply insert_non_empty|by apply (Hu h')|apply map_non_empty_singleton|by apply (Hu h')].
Qed.

Lemma Get_flat h i u : ∃ u', utxo_Get h i u = (flat u !! (h, i), u') ∧ flat u' = delete (h, i) (flat u) ∧
  (no_empty u → no_empty u').
Proof.
  rewrite flat_lookup. unfold utxo_Get. destruct (default ∅ (u !! h) !! i) as [d|] eqn:Ed.
  - destruct (u !! h) as [m|] eqn:Em; [|done]. cbn [default] in *. unfold id in *.
    eexists. unfold utxo_Peek at 1. rewrite Em, Ed. split; [done|]. split.
    + apply map_eq. intros [h' i']. rewrite flat_lookup. destruct (decide ((h', i') = (h, i))) as [E|E].
      * rewrite E, lookup_delete_eq. injection E as -> ->. unfold utxo_Peek. case_bool_decide.
        -- by rewrite lookup_delete_eq.
        -- by rewrite lookup_insert_eq, lookup_delete_eq.
      * rewrite lookup_delete_ne, flat_lookup by done. unfold utxo_Peek. destruct (decide (h' = h)) as [->|Hh].
        -- rewrite Em. assert (i ≠ i') as Hi by congruence. case_bool_decide as Hs.
           ++ rewrite lookup_delete_eq. apply map_size_empty_inv in Hs.
              pose proof (f_equal (lookup i') Hs) as E'. rewrite lookup_delete_ne in E' by done. by rewrite E'.
           ++ by rewrite lookup_insert_eq, lookup_delete_ne.
        -- case_bool_decide; [by rewrite lookup_delete_ne|by rewrite lookup_insert_ne].
    + intros Hu h' m'. case_bool_decide as Hs.
      * intros [_ H]%lookup_delete_Some. by apply (Hu h').
      * intros [[_ Hm]|[_ H]]%lookup_insert_Some; [|by apply (Hu h')]. intros ->. by rewrite Hm in Hs.
  - exists u. assert (utxo_Peek h i u = None) as E by (unfold utxo_Peek; destruct (u !! h); [exact Ed|done]).
    rewrite E. split; [done|]. split; [|done]. rewrite delete_id; [done|]. by rewrite flat_lookup.
Qed.

Lemma flat_new : flat newUtxoStore = ∅.
Proof. apply map_eq. intros [h i]. by rewrite flat_lookup. Qed.

Definition sets (l : list UTXO) (u : utxoStore) : utxoStore := foldl (λ u '((h, i), d), utxo_set h i d u) u l.
Definition inserts (l : list UTXO) (m : gmap outpoint UTXOData) : gmap outpoint UTXOData :=
  foldl (λ m '(k, d), <[k := d]> m) m l.

Lemma sets_flat l : ∀ u, flat (sets l u) = inserts l (flat u) ∧ (no_empty u → no_empty (sets l u)).
Proof.
  induction l as [|[[h i] d] l IH]; intros u; [done|].
  change (sets _ u) with (sets l (utxo_set h i d u)). change (inserts _ ?m) with (inserts l (<[(h, i) := d]> m)).
  destruct (IH (utxo_set h i d u)) as [H1 H2]. rewrite H1, flat_set. split; [done|]. intros Hu. by apply H2, set_no_empty.
Qed.

(** *** Simulation

    The operations in sequence, on the store and on a map from outpoints. *)
Inductive cache_op :=
| OpGet (h : Hash) (i : Z) | OpPeek (h : Hash) (i : Z) | OpSet (h : Hash) (i : Z) (d : UTXOData)
| OpReinit (l : list UTXO) | OpSize.
Inductive answer := AData (d : option UTXOData) | ASize (n : Z) | ANone.

Definition store_op (o : cache_op) (u : utxoStore) : answer * utxoStore :=
  match o with
  | OpGet h i => let '(d, u) := utxo_Get h i u in (AData d, u)
  | OpPeek h i => (AData (utxo_Peek h i u), u)
  | OpSet h i d => (ANone, utxo_Set h i d u)
  | OpReinit l => (ANone, Reinit l u)
  | OpSize => (ASize (utxo_Size u), u)
  end.
Definition map_op (o : cache_op) (m : gmap outpoint UTXOData) : answer * gmap outpoint UTXOData :=
  match o with
  | OpGet h i => (AData (m !! (h, i)), delete (h, i) m)
  | OpPeek h i => (AData (m !! (h, i)), m)
  | OpSet h i d => (ANone, <[(h, i) := d]> m)
  | OpReinit [] => (ANone, m)
  | OpReinit l => (ANone, inserts l ∅)
  | OpSize => (ASize (Z.of_nat (size m)), m)
  end.
Fixpoint run_ops {S} (step : cache_op → S → answer * S) (ops : list cache_op) (s : S) : list answer * S :=
  match ops with
  | [] => ([], s)
  | o :: ops => let '(a, s) := step o s in let '(l, s) := run_ops step ops s in (a :: l, s)
  end.

Lemma store_op_sim o u : ∃ a u', store_op o u = (a, u') ∧ map_op o (flat u) = (a, flat u') ∧ (no_empty u → no_empty u').
Proof.
  destruct o as [h i|h i|h i d|l|]; cbn [store_op map_op].
  - destruct (Get_flat h i u) as (u' & -> & <- & Hu). eauto.
  - rewrite flat_lookup. eauto.
  - unfold utxo_Set. rewrite <- flat_set. do 2 eexists. split_and!; [done..|apply set_no_empty].
  - destruct l as [|x l]; [eauto|]. do 2 eexists. split_and!; [done| |].
    + rewrite <- flat_new. by rewrite <- (proj1 (sets_flat (x :: l) newUtxoStore)).
    + intros _. by apply (proj2 (sets_flat (x :: l) newUtxoStore)).
  - rewrite Size_flat. eauto.
Qed.

(** C37: The map of maps implements one map from outpoints to outputs: any
    sequence of operations on a new store gives the answers it gives on the
    map, and leaves no empty inner map. *)
Theorem utxoStore_refines_map ops :
  ∃ u, run_ops store_op ops newUtxoStore = ((run_ops map_op ops ∅).1, u) ∧ flat u = (run_ops map_op ops ∅).2 ∧
    no_empty u ∧ utxo_Size u = Z.of_nat (size (flat u)).
Proof.
  rewrite <- flat_new. assert (no_empty newUtxoStore) as Hn by done. revert Hn. generalize newUtxoStore.
  induction ops as [|o ops IH]; intros u Hu; cbn [run_ops].
  - exists u. by rewrite Size_flat.
  - destruct (store_op_sim o u) as (a & u' & -> & -> & Hu'). destruct (IH u' (Hu' Hu)) as (u2 & -> & H0 & H1 & H2).
    exists u2. by destruct (run_ops map_op ops (flat u')).
Qed.
