(* ===== verification/TicketSpends.v ===== *)
(** * Ticket updates of a stored block (db/dcrpg/pgblockchain.go,
      db/dcrpg/queries.go)

    What storing the stake transactions of a block finds out about tickets: the
    tickets its votes and revocations spend, the lottery winners that did not
    vote, and the pool status each of these tickets receives.  The theorems
    show that the misses are the validators without a vote, when the count of
    votes and misses panics, that cached row IDs are those of the table, and
    that every ticket is updated once with the status of its case. *)
From stdpp Require Import gmap strings.
From S2P Require Import Prelude StakeTx CoinStats BlockTxns UtxoStore.
Open Scope Z_scope.

Inductive TicketSpendType := TicketUnspent | TicketRevoked | TicketVoted.
Inductive TicketPoolStatus := PoolStatusLive | PoolStatusVoted | PoolStatusExpired | PoolStatusMissed.
#[export] Instance TicketSpendType_eq_dec : EqDecision TicketSpendType.
Proof. solve_decision. Defined.
#[export] Instance TicketPoolStatus_eq_dec : EqDecision TicketPoolStatus.
Proof. solve_decision. Defined.

(** ** Spent tickets *)
Inductive SpendErr := ECount | ETxID | ETicketID (h : Hash).

(** The entries of the four parallel slices. *)
Record TicketSpend := mkSpend {
  sp_spendingTxDbID : Z; sp_type : TicketSpendType; sp_ticketHash : Hash; sp_ticketDbID : Z
}.

Section Collect.
Context (retrieveTicketID : Hash → option Z).
Abbreviation GM := (goM (option TicketTxnIDGetter) SpendErr).

Definition getTicketID (h : Hash) (expire : bool) : GM Z := λ t,
  let '(r, t) := TxnDbID retrieveTicketID h expire t in
  (match r with Ok i => Ok i | Err _ => Err (ETicketID h) | Panic => Panic | NoFuel => NoFuel end, t).

(** The spend type and the index of the input that spends the ticket. *)
Definition spend_kind (t : DbTxType) : option (TicketSpendType * Z) :=
  match t with
  | StakeTxType TxTypeSSGen => Some (TicketVoted, 1)
  | StakeTxType TxTypeSSRtx => Some (TicketRevoked, 0)
  | _ => None
  end.

Fixpoint collect_loop (isMainchain : bool) (dbTxns : list Tx) (txDbIDs : list Z) (msgTxns : list MsgTx) (i : Z)
    : GM (list TicketSpend) :=
  match dbTxns, msgTxns with
  | tx :: dbTxns, msgTx :: msgTxns =>
    match spend_kind (t_TxType tx) with
    | None => collect_loop isMainchain dbTxns txDbIDs msgTxns (i + 1)
    | Some (spendType, ind) =>
      if negb (bool_decide (t_TxID tx = tx_Hash msgTx)) then fail ETxID else
      match slice_at (tx_TxIn msgTx) ind with
      | None => collect_loop isMainchain dbTxns txDbIDs msgTxns (i + 1)
      | Some vin =>
        match slice_at txDbIDs i with
        | None => panic
        | Some spendingTxDbID =>
          let ticketHash := op_Hash (ti_PreviousOutPoint vin) in
          t ← getTicketID ticketHash isMainchain;
          rest ← collect_loop isMainchain dbTxns txDbIDs msgTxns (i + 1);
          mret (mkSpend spendingTxDbID spendType ticketHash t :: rest)
        end
      end
    end
  | _, _ => mret []
  end.

Definition collectTicketSpendDBInfo (dbTxns : list Tx) (txDbIDs : list Z) (msgTxns : list MsgTx) (isMainchain : bool)
    : GM (list TicketSpend) :=
  if negb (bool_decide (length msgTxns = length dbTxns)) then fail ECount else
  collect_loop isMainchain dbTxns txDbIDs msgTxns 0.
End Collect.

(** ** Misses *)
(** The first miss equal to [h] is replaced by the last one. *)
Fixpoint find_index (h : Hash) (l : list Hash) (im : nat) : option nat :=
  match l with
  | [] => None
  | x :: l => if bool_decide (x = h) then Some im else find_index h l (S im)
  end.
Definition remove_miss (h : Hash) (misses : list Hash) : list Hash :=
  match find_index h misses 0 with
  | Some im => take (length misses - 1) (<[im := default [] (last misses)]> misses)
  | None => misses
  end.

(** The loop over the votes, by the tickets they spend and the answers of the
    insert statement (the row ID, or nothing for no row). *)
Fixpoint vote_loop (votes : list (Hash * option Z)) (ids : list Z) (misses : list Hash) : list Z * list Hash :=
  match votes with
  | [] => (ids, misses)
  | (h, row) :: votes =>
    vote_loop votes (match row with Some id => ids ++ [id] | None => ids end) (remove_miss h misses)
  end.

(** [None] is the panic of the count. *)
Definition count_votes (validators : list Hash) (votes : list (Hash * option Z)) : option (list Z * list Hash) :=
  let '(ids, misses) := vote_loop votes [] validators in
  if (0 <? zlen validators) && negb (zlen ids + zlen misses =? 5) then None else Some (ids, misses).

(** The rows of the misses table: hashes with a row ID. *)
Definition miss_map (misses : list (Hash * option Z)) : gmap Hash Z :=
  foldl (λ m '(h, row), match row with Some id => <[h := id]> m | None => m end) ∅ misses.

(** ** Status of the tickets

    The stake node: whether it knows the ticket as expired, and the tickets that
    missed or expired by its block. *)
Class TicketNode := { ExistsExpiredTicket : Hash → bool; MissedByBlock : list Hash }.

Section Status.
Context {node : TicketNode} {R : RangeOrder Hash Z}.

Definition spend_status (sp : TicketSpend) : TicketPoolStatus :=
  match sp_type sp with
  | TicketVoted => PoolStatusVoted
  | TicketRevoked => if negb (ExistsExpiredTicket (sp_ticketHash sp)) then PoolStatusMissed else PoolStatusExpired
  | TicketUnspent => PoolStatusLive
  end.
Definition revokes_of (spends : list TicketSpend) : gmap Hash Z :=
  foldl (λ m sp, match sp_type sp with TicketRevoked => <[sp_ticketHash sp := sp_ticketDbID sp]> m | _ => m end) ∅ spends.

Definition unspent_missed (revokes misses : gmap Hash Z) : list Hash :=
  foldl (λ l '(miss, _), match revokes !! miss with Some _ => l | None => l ++ [miss] end) [] (range_of misses).

(** The unspent misses with their statuses, then the unspent expires. *)
Definition unspentEnM (revokes misses : gmap Hash Z) : list Hash * list TicketPoolStatus :=
  let unspentMissed := unspent_missed revokes misses in
  let unspentMisses : gset Hash := list_to_set unspentMissed in
  foldl (λ '(l, statuses) missHash,
    if ExistsExpiredTicket missHash then
      if negb (bool_decide (missHash ∈ unspentMisses)) && bool_decide (revokes !! missHash = None)
      then (l ++ [missHash], statuses ++ [PoolStatusExpired]) else (l, statuses)
    else (l, statuses))
    (unspentMissed, (λ _, PoolStatusMissed) <$> unspentMissed) MissedByBlock.
End Status.

(** ** Misses *)
Lemma find_index_spec h l : ∀ im,
  match find_index h l im with
  | Some k => ∃ j, k = (im + j)%nat ∧ l !! j = Some h
  | None => h ∉ l
  end.
Proof.
  induction l as [|x l IH]; intros im; cbn; [by intros ?%elem_of_nil|]. case_bool_decide as E.
  - exists 0%nat. split; [lia|by subst].
  - specialize (IH (S im)). destruct (find_index h l (S im)) as [k|].
    + destruct IH as (j & -> & Hj). exists (S j). split; [lia|done].
    + intros [->|?]%elem_of_cons; done.
Qed.

Lemma remove_miss_notin h l : h ∉ l → remove_miss h l = l.
Proof.
  intros H. unfold remove_miss. pose proof (find_index_spec h l 0) as Hs. destruct (find_index h l 0) as [k|]; [|done].
  destruct Hs as (j & _ & Hj). by apply list_elem_of_lookup_2 in Hj.
Qed.

Lemma remove_miss_in h l : h ∈ l → h :: remove_miss h l ≡ₚ l.
Proof.
  intros H. unfold remove_miss. pose proof (find_index_spec h l 0) as Hs. destruct (find_index h l 0) as [k|]; [|done].
  destruct Hs as (j & -> & Hj). cbn [Nat.add].
  destruct (decide (l = [])) as [->|Hn]; [by apply elem_of_nil in H|].
  destruct (exists_last Hn) as (l' & x & ->). rewrite last_snoc. cbn [default]. unfold id.
  rewrite length_app. cbn [length]. replace (length l' + 1 - 1)%nat with (length l') by lia.
  destruct (decide (j < length l')%nat) as [Hlt|Hge].
  - rewrite insert_app_l, take_app_le, take_ge by (rewrite ?length_insert; lia).
    rewrite lookup_app_l in Hj by done.
    transitivity (h :: x :: take j l' ++ drop (S j) l').
    + constructor. rewrite insert_take_drop by done. symmetry. apply Permutation_middle.
    + rewrite <- (take_drop_middle l' j h Hj) at 3. rewrite <- app_assoc. cbn. rewrite <- Permutation_middle.
      constructor. rewrite app_assoc. apply Permutation_cons_append.
  - apply lookup_lt_Some in Hj as Hlt. rewrite length_app in Hlt. cbn in Hlt. assert (j = length l') as -> by lia.
    rewrite lookup_app_r, Nat.sub_diag in Hj by done. injection Hj as ->.
    rewrite insert_app_r_alt, take_app_length by done. apply Permutation_cons_append.
Qed.

(** The votes, one miss is taken out for each: what is left and how many rows
    were inserted. *)
Lemma vote_loop_ids votes : ∀ ids misses, (vote_loop votes ids misses).1 = ids ++ omap snd votes.
Proof.
  induction votes as [|[h row] votes IH]; intros ids misses; cbn; [by rewrite app_nil_r|].
  rewrite IH. destruct row; [by rewrite <- app_assoc|done].
Qed.

Lemma remove_miss_elem h l : NoDup l → NoDup (remove_miss h l) ∧ ∀ x, x ∈ remove_miss h l ↔ x ∈ l ∧ x ≠ h.
Proof.
  intros Hl. destruct (decide (h ∈ l)) as [Hin|Hin].
  - pose proof (remove_miss_in h l Hin) as P. assert (NoDup (h :: remove_miss h l)) as Hn by (by rewrite P).
    apply NoDup_cons in Hn as [Hh Hn]. split; [done|]. intros x.
    assert (x ∈ l ↔ x ∈ h :: remove_miss h l) as -> by (by rewrite P). rewrite elem_of_cons. split.
    + intros Hx. split; [by right|]. by intros ->.
    + intros [[->|?] ?]; done.
  - rewrite remove_miss_notin by done. split; [done|]. intros x. split; [|by intros [? _]].
    intros Hx. split; [done|]. by intros ->.
Qed.

Lemma vote_loop_misses votes : ∀ ids misses, NoDup misses →
  NoDup (vote_loop votes ids misses).2 ∧
  ∀ x, x ∈ (vote_loop votes ids misses).2 ↔ x ∈ misses ∧ x ∉ votes.*1.
Proof.
  induction votes as [|[h row] votes IH]; intros ids misses Hm; cbn [vote_loop fmap list_fmap fst].
  - split; [done|]. intros x. split; [|by intros [? _]]. intros Hx. split; [done|]. apply not_elem_of_nil.
  - destruct (remove_miss_elem h misses Hm) as [Hm' He]. destruct (IH (match row with Some id => ids ++ [id] | None => ids end) _ Hm') as [IH1 IH2].
    split; [done|]. intros x. rewrite IH2, He, not_elem_of_cons. tauto.
Qed.

Lemma vote_loop_length votes : ∀ ids misses, NoDup misses → NoDup votes.*1 → votes.*1 ⊆ misses →
  (length (vote_loop votes ids misses).2 + length votes = length misses)%nat.
Proof.
  intros ids misses Hm Hv Hs. destruct (vote_loop_misses votes ids misses Hm) as [H1 H2].
  assert ((vote_loop votes ids misses).2 ++ votes.*1 ≡ₚ misses) as P.
  { apply NoDup_Permutation; [|done|].
    - apply NoDup_app. split_and!; [done| |done]. intros x [_ ?]%H2. done.
    - intros x. rewrite elem_of_app, H2. destruct (decide (x ∈ votes.*1)) as [Hx|Hx]; [|tauto].
      specialize (Hs x Hx). tauto. }
  apply Permutation_length in P. by rewrite length_app, length_fmap in P.
Qed.

(** When a block's votes spend distinct tickets among its five validators,
    the misses are exactly the validators without a vote, and the count panics
    exactly when the insert of a vote returned no row. *)
Theorem misses_are_absent_votes validators votes :
  NoDup validators → length validators = 5%nat → NoDup votes.*1 → votes.*1 ⊆ validators →
  match count_votes validators votes with
  | Some (ids, misses) => Forall (λ v, is_Some v.2) votes ∧ ids = omap snd votes ∧
      misses ≡ₚ filter (λ h, h ∉ votes.*1) validators ∧ (length misses = 5 - length votes)%nat
  | None => ∃ h, (h, None) ∈ votes
  end.
Proof.
  intros Hn Hl Hv Hs. unfold count_votes. pose proof (vote_loop_ids votes [] validators) as Hi.
  destruct (vote_loop_misses votes [] validators Hn) as [H1 H2].
  pose proof (vote_loop_length votes [] validators Hn Hv Hs) as H3.
  destruct (vote_loop votes [] validators) as [ids misses]. cbn [fst snd app] in *. subst ids.
  unfold zlen. rewrite Hl. cbn [Z.ltb Z.compare andb negb].
  assert (length (omap snd votes) = length votes ∧ Forall (λ v : Hash * option Z, is_Some v.2) votes ∨
          (length (omap snd votes) < length votes)%nat ∧ ∃ h : Hash, (h, None) ∈ votes) as Hc.
  { clear. induction votes as [|[h [row|]] votes IH]; cbn; [by left| |].
    - destruct IH as [[-> ?]|[? [h' ?]]]; [left; split; [done|by constructor]|right]. split; [lia|]. exists h'. by right.
    - right. split; [destruct IH as [[-> _]|[? _]]; lia|]. exists h. by left. }
  replace (0 <? Z.of_nat 5) with true by done. cbn [andb].
  destruct Hc as [[Hc HF]|[Hc Hex]]; destruct (Z.eqb_spec (Z.of_nat (length (omap snd votes)) + Z.of_nat (length misses)) 5);
    cbn [negb]; try lia; [|done].
  split_and!; [done|done| |lia]. apply NoDup_Permutation; [done|by apply NoDup_filter|].
  intros x. rewrite H2, list_elem_of_filter. tauto.
Qed.

(** ** Spent tickets *)
Section CollectFacts.
Context (retrieveTicketID : Hash → option Z).
Abbreviation collect_loop := (collect_loop retrieveTicketID).
Abbreviation collectTicketSpendDBInfo := (collectTicketSpendDBInfo retrieveTicketID).

(** Cached row IDs are those of the tickets table. *)
Definition coherent (t : option TicketTxnIDGetter) : Prop :=
  ∃ g, t = Some g ∧ ∀ h i, idCache g !! h = Some i → retrieveTicketID h = Some i.

Lemma getTicketID_coherent h e t : coherent t →
  ∃ t', getTicketID retrieveTicketID h e t =
    (match retrieveTicketID h with Some i => Ok i | None => Err (ETicketID h) end, t') ∧ coherent t'.
Proof.
  intros (g & -> & Hg). unfold getTicketID, TxnDbID. destruct (idCache g !! h) as [i|] eqn:E.
  - rewrite (Hg _ _ E). eexists. split; [done|]. destruct e; eexists; (split; [done|]); [|exact Hg].
    cbn [idCache]. intros h' i' [_ H]%lookup_delete_Some. by apply Hg.
  - exists (Some g). split; [by destruct (retrieveTicketID h)|]. by exists g.
Qed.

Lemma collect_loop_coherent im dbTxns : ∀ ids msgTxns i t t2, coherent t → coherent t2 →
  (collect_loop im dbTxns ids msgTxns i t).1 = (collect_loop im dbTxns ids msgTxns i t2).1 ∧
  coherent (collect_loop im dbTxns ids msgTxns i t).2 ∧
  ∀ l, (collect_loop im dbTxns ids msgTxns i t).1 = Ok l →
    Forall (λ sp, retrieveTicketID (sp_ticketHash sp) = Some (sp_ticketDbID sp)) l.
Proof.
  induction dbTxns as [|tx dbTxns IH]; intros ids msgTxns i t t2 Ht Ht2; cbn [TicketSpends.collect_loop].
  { cbn. split_and!; [done|done|]. intros l [= <-]. constructor. }
  destruct msgTxns as [|msgTx msgTxns]. { cbn. split_and!; [done|done|]. intros l [= <-]. constructor. }
  destruct (spend_kind (t_TxType tx)) as [[ty ind]|]; [|by apply IH].
  case_bool_decide; cbn [negb]; [|done]. destruct (slice_at (tx_TxIn msgTx) ind) as [vin|]; [|by apply IH].
  destruct (slice_at ids i) as [id|]; [|done]. set (h := op_Hash (ti_PreviousOutPoint vin)). cbv zeta.
  destruct (getTicketID_coherent h im t Ht) as (t' & Et & Ht'). destruct (getTicketID_coherent h im t2 Ht2) as (t2' & Et2 & Ht2').
  unfold mbind, goM_bind. rewrite Et, Et2. destruct (retrieveTicketID h) as [k|] eqn:Ek; [|done].
  destruct (IH ids msgTxns (i + 1) t' t2' Ht' Ht2') as (H1 & H2 & H3).
  destruct (collect_loop im dbTxns ids msgTxns (i + 1) t') as [[l|e| |] s], (collect_loop im dbTxns ids msgTxns (i + 1) t2') as [r2 s2];
    cbn in *; subst r2; cbn; split_and!; try done.
  intros l' [= <-]. constructor; [done|]. by apply H3.
Qed.

(** What a block's votes and revocations spend does not depend on what the
    cache of row IDs holds, as long as its entries are those of the tickets
    table, which it keeps; the IDs found are those of the table. *)
Theorem spent_tickets_cache_transparent dbTxns ids msgTxns im t :
  coherent t →
  (collectTicketSpendDBInfo dbTxns ids msgTxns im t).1 =
    (collectTicketSpendDBInfo dbTxns ids msgTxns im (Some NewTicketTxnIDGetter)).1 ∧
  coherent (collectTicketSpendDBInfo dbTxns ids msgTxns im t).2 ∧
  ∀ l, (collectTicketSpendDBInfo dbTxns ids msgTxns im t).1 = Ok l →
    Forall (λ sp, retrieveTicketID (sp_ticketHash sp) = Some (sp_ticketDbID sp)) l.
Proof.
  intros Ht. unfold collectTicketSpendDBInfo. case_bool_decide; cbn [negb].
  - apply collect_loop_coherent; [done|]. by exists NewTicketTxnIDGetter.
  - by cbn.
Qed.
End CollectFacts.

(** ** Status of the tickets *)
Section StatusFacts.
Context {node : TicketNode} {R : RangeOrder Hash Z}.

Definition revoked (spends : list TicketSpend) (h : Hash) : Prop :=
  ∃ sp, sp ∈ spends ∧ sp_type sp = TicketRevoked ∧ sp_ticketHash sp = h.

Lemma revokes_of_spec spends h : is_Some (revokes_of spends !! h) ↔ revoked spends h.
Proof.
  unfold revokes_of. induction spends as [|sp spends IH] using rev_ind.
  - cbn [foldl]. rewrite lookup_empty. split; [by intros [? ?]|]. intros (sp & H & _). by apply elem_of_nil in H.
  - rewrite foldl_snoc. unfold revoked. setoid_rewrite elem_of_app. setoid_rewrite list_elem_of_singleton.
    assert (revoked spends h → ∃ x, (x ∈ spends ∨ x = sp) ∧ sp_type x = TicketRevoked ∧ sp_ticketHash x = h) as Hl.
    { intros (x & ? & ? & ?). exists x. auto. }
    destruct (sp_type sp) eqn:Et.
    + rewrite IH. split; [done|]. intros (x & [?| ->] & Hx & ?); [by exists x|congruence].
    + destruct (decide (sp_ticketHash sp = h)) as [<-|Hn].
      * rewrite lookup_insert_eq. split; [|by eauto]. intros _. exists sp. auto.
      * rewrite lookup_insert_ne, IH by done. split; [done|]. intros (x & [?| ->] & ? & ?); [by exists x|done].
    + rewrite IH. split; [done|]. intros (x & [?| ->] & Hx & ?); [by exists x|congruence].
Qed.

Lemma unspent_missed_filter revokes misses :
  unspent_missed revokes misses = filter (λ h, revokes !! h = None) (range_of misses).*1.
Proof.
  unfold unspent_missed. induction (range_of misses) as [|[h i] l IH] using rev_ind; [done|].
  rewrite foldl_snoc, IH, fmap_app, filter_app. cbn [fmap list_fmap fst]. change (filter _ [h]) with (if decide (revokes !! h = None) then [h] else []).
  destruct (decide (revokes !! h = None)) as [E|E].
  - by rewrite E.
  - rewrite app_nil_r. by destruct (revokes !! h).
Qed.

Lemma unspent_missed_spec revokes misses :
  NoDup (unspent_missed revokes misses) ∧
  ∀ h, h ∈ unspent_missed revokes misses ↔ is_Some (misses !! h) ∧ revokes !! h = None.
Proof.
  rewrite unspent_missed_filter. split.
  - apply NoDup_filter. rewrite range_perm. apply NoDup_fst_map_to_list.
  - intros h. rewrite list_elem_of_filter, range_perm, list_elem_of_fmap.
    split; [intros [? ([h' i] & -> & H%elem_of_map_to_list)]; eauto|].
    intros [[i Hi] ?]. split; [done|]. exists (h, i). split; [done|]. by apply elem_of_map_to_list.
Qed.

(** The unspent expires that the loop appends. *)
Definition new_expires (revokes misses : gmap Hash Z) : list Hash :=
  filter (λ h, (ExistsExpiredTicket h = true) ∧ (h ∉ unspent_missed revokes misses) ∧ revokes !! h = None) MissedByBlock.

Lemma unspentEnM_eq revokes misses :
  unspentEnM revokes misses =
    (unspent_missed revokes misses ++ new_expires revokes misses,
     ((λ _, PoolStatusMissed) <$> unspent_missed revokes misses) ++ ((λ _, PoolStatusExpired) <$> new_expires revokes misses)).
Proof.
  unfold unspentEnM, new_expires. generalize (unspent_missed revokes misses). intros um. cbv zeta.
  induction MissedByBlock as [|h l IH] using rev_ind; [by rewrite !app_nil_r|].
  rewrite foldl_snoc, IH, filter_app. cbn beta iota.
  destruct (decide ((ExistsExpiredTicket h = true) ∧ (h ∉ um) ∧ revokes !! h = None)) as [(H1 & H2 & H3)|Hn].
  - rewrite (filter_singleton_True _ h) by done. rewrite H1, (bool_decide_false (h ∈ list_to_set um)), (bool_decide_true (_ = None)) by
      (done || by rewrite elem_of_list_to_set). cbn [negb andb].
    by rewrite fmap_app, !app_assoc.
  - rewrite (filter_singleton_False _ h), !app_nil_r by done.
    destruct (ExistsExpiredTicket h); [|done].
    destruct (bool_decide (h ∈ list_to_set um)) eqn:E1; [done|]. destruct (bool_decide (revokes !! h = None)) eqn:E2; [|done].
    apply bool_decide_eq_false in E1. apply bool_decide_eq_true in E2. rewrite elem_of_list_to_set in E1. by destruct Hn.
Qed.

(** A ticket the block leaves unspent receives a status exactly when it is a
    lottery winner that did not vote and was not revoked (missed), or a ticket
    the node lists and knows as expired that is neither (expired); no ticket
    receives two, and none that the block revokes receives one here. *)
Theorem unspent_ticket_statuses spends misses hs statuses :
  NoDup MissedByBlock →
  unspentEnM (revokes_of spends) misses = (hs, statuses) →
  length hs = length statuses ∧ NoDup hs ∧ (∀ h, h ∈ hs → ¬ revoked spends h) ∧
  ∀ h s, (h, s) ∈ zip hs statuses ↔
    (s = PoolStatusMissed ∧ is_Some (misses !! h) ∧ ¬ revoked spends h) ∨
    (s = PoolStatusExpired ∧ h ∈ MissedByBlock ∧ ExistsExpiredTicket h = true ∧ misses !! h = None ∧ ¬ revoked spends h).
Proof.
  intros Hnd. rewrite unspentEnM_eq. intros [= <- <-]. set (rs := revokes_of spends). set (um := unspent_missed rs misses).
  set (ne := new_expires rs misses).
  assert (∀ h, rs !! h = None ↔ ¬ revoked spends h) as Hr.
  { intros h. rewrite <- revokes_of_spec. fold rs. by rewrite eq_None_not_Some. }
  destruct (unspent_missed_spec rs misses) as [Hum1 Hum2]. fold um in Hum1, Hum2.
  assert (∀ h, h ∈ ne ↔ h ∈ MissedByBlock ∧ ExistsExpiredTicket h = true ∧ misses !! h = None ∧ ¬ revoked spends h) as Hne.
  { intros h. unfold ne, new_expires. rewrite list_elem_of_filter. fold um. rewrite Hum2, Hr.
    destruct (misses !! h) as [i|] eqn:Em; [|rewrite is_Some_alt; tauto].
    split; [|by intros (? & ? & ? & ?)]. intros [(? & Hx & ?) ?]. destruct Hx. eauto. }
  split_and!.
  - rewrite !length_app, !length_fmap. lia.
  - apply NoDup_app. split_and!; [done| |by apply NoDup_filter].
    intros h [[i Hi] _]%Hum2 (_ & _ & Hn & _)%Hne. congruence.
  - intros h [Hh|Hh]%elem_of_app; [by apply Hum2 in Hh as [_ ?%Hr]|by apply Hne in Hh as (_ & _ & _ & ?)].
  - intros h s. rewrite zip_with_app by (by rewrite length_fmap). rewrite elem_of_app.
    assert (∀ (l : list Hash) (c : TicketPoolStatus), (h, s) ∈ zip l ((λ _, c) <$> l) ↔ h ∈ l ∧ s = c) as G.
    { intros l c. induction l as [|x l IH]; cbn.
      - split; [by intros ?%elem_of_nil|]. by intros [?%elem_of_nil _].
      - rewrite !elem_of_cons, IH. split; [intros [[= -> ->]|[? ?]]; auto|]. intros [[->|?] ->]; auto. }
    rewrite !G, Hne, Hum2, Hr. tauto.
Qed.
End StatusFacts.

(** ** Examples *)
Module Witness.
Definition val (n : Z) : Hash := [n].
Definition validators : list Hash := val <$> [1; 2; 3; 4; 5].
Definition votes : list (Hash * option Z) := [(val 4, Some 10); (val 2, Some 11); (val 5, Some 12)].

Lemma misses_are_absent_votes_witness :
  ∃ ids misses, count_votes validators votes = Some (ids, misses) ∧ length misses = 2%nat ∧ ids = [10; 11; 12].
Proof.
  do 2 eexists. split; [reflexivity|].
  assert (NoDup validators) as H1 by (by apply (bool_decide_unpack (NoDup validators)); vm_compute).
  assert (NoDup votes.*1) as H2 by (by apply (bool_decide_unpack (NoDup votes.*1)); vm_compute).
  assert (votes.*1 ⊆ validators) as H3.
  { intros x Hx. unfold votes, validators, val in *. cbn in *. rewrite !elem_of_cons in *. rewrite elem_of_nil in *. tauto. }
  pose proof (misses_are_absent_votes validators votes H1 eq_refl H2 H3) as (_ & H & _ & Hl).
  split; [exact Hl|exact H].
Defined.

Definition vote : Tx := mkDbTx [] 5 (AddressRows.mkTime 0 0 true) (StakeTxType TxTypeSSGen) 1 [9] 0 0 0 0 None None None
  0 0 2 [] 1 [] [] true true.
Definition voteMsg : MsgTx := mkTx [9] [mkTxIn (mkOutPoint [] 0 0) 0 None; mkTxIn (mkOutPoint (val 4) 0 1) 0 None] [].
Definition table (h : Hash) : option Z := if bool_decide (h = val 4) then Some 77 else None.

Lemma spent_tickets_cache_transparent_witness :
  (collectTicketSpendDBInfo table [vote] [3] [voteMsg] true (Some (mkGetter {[val 4 := 77]}))).1 =
    Ok [mkSpend 3 TicketVoted (val 4) 77].
Proof.
  destruct (spent_tickets_cache_transparent table [vote] [3] [voteMsg] true (Some (mkGetter {[val 4 := 77]}))) as [-> _].
  - eexists. split; [done|]. cbn [idCache]. intros h i [<- <-]%lookup_singleton_Some. reflexivity.
  - reflexivity.
Defined.

Definition node : TicketNode := {| ExistsExpiredTicket := λ h, bool_decide (h = val 7); MissedByBlock := [val 6; val 7] |}.
Definition R : RangeOrder Hash Z := canonical_range.
#[local] Existing Instances node R.

Lemma unspent_ticket_statuses_witness : ∃ hs statuses,
  unspentEnM (revokes_of [mkSpend 3 TicketRevoked (val 8) 1]) {[val 6 := 2]} = (hs, statuses) ∧
  (val 7, PoolStatusExpired) ∈ zip hs statuses.
Proof.
  destruct (unspentEnM (revokes_of [mkSpend 3 TicketRevoked (val 8) 1]) {[val 6 := 2]}) as [hs statuses] eqn:E.
  exists hs, statuses. split; [done|].
  assert (NoDup MissedByBlock) as Hn.
  { cbn. apply NoDup_cons. split; [|apply NoDup_singleton]. by intros [= ?]%list_elem_of_singleton. }
  destruct (unspent_ticket_statuses [mkSpend 3 TicketRevoked (val 8) 1] {[val 6 := 2]} hs statuses Hn E) as (_ & _ & _ & H).
  apply H. right. split_and!; [done| |done|done|].
  - right. by left.
  - intros (sp & ->%list_elem_of_singleton & _ & Hsp). by cbn in Hsp.
Defined.
End Witness.
