(* ===== verification/TxOutData.v ===== *)
(** * Addresses of an output in the vouts table (db/dcrpg/queries.go)

    How the address list of an output is written to the script_addresses column
    and how it is read back, by the scanner and by retrieveTxOutData.  The
    theorems show that a list of one address survives both, and that an empty
    list and a list of several addresses do not survive retrieveTxOutData. *)
From Stdlib Require Import Ascii.
From stdpp Require Import gmap strings.
From S2P Require Import Prelude UtxoStore.
Open Scope Z_scope.

(** [pq.StringArray.Value]: the text of an array of strings, every element in
    double quotes; the text of an element without quotes and backslashes is
    itself. *)
Class PqLib := { pq_StringArray_Value : list string → string }.
Definition quote : ascii := "034"%char.
Definition quoted (s : string) : string := (String quote EmptyString +:+ s +:+ String quote EmptyString)%string.
Fixpoint join_comma (l : list string) : string :=
  match l with
  | [] => ""
  | [a] => a
  | a :: l => (a +:+ "," +:+ join_comma l)%string
  end.
Definition plain_char (c : ascii) : bool :=
  negb (bool_decide (c = quote)) && negb (bool_decide (c = "\"%char)) && negb (bool_decide (c = ","%char)) &&
  negb (bool_decide (c = "{"%char)) && negb (bool_decide (c = "}"%char)).
Fixpoint plain (s : string) : bool :=
  match s with EmptyString => true | String c s => plain_char c && plain s end.
Class PqLaws `{PqLib} : Prop := {
  string_array_text l : forallb plain l = true →
    pq_StringArray_Value l = ("{" +:+ join_comma (quoted <$> l) +:+ "}")%string
}.

(** ** Go strings *)
(** [strings.Split(s, ",")]. *)
Fixpoint Split_comma (s : string) : list string :=
  match s with
  | EmptyString => [EmptyString]
  | String c s =>
    match Split_comma s with
    | x :: l => if bool_decide (c = ","%char) then EmptyString :: x :: l else String c x :: l
    | [] => []
    end
  end.

(** The replacer that removes braces. *)
Fixpoint remove_braces (s : string) : string :=
  match s with
  | EmptyString => EmptyString
  | String c s =>
    if bool_decide (c = "{"%char) || bool_decide (c = "}"%char) then remove_braces s else String c (remove_braces s)
  end.

Definition last_char (s : string) : option ascii := last (String.list_ascii_of_string s).

(** ** addressList *)
Section AddressList.
Context {lib : PqLib}.

Definition addressList_Value (al : list string) : string :=
  match al with
  | [] => "unknown"
  | [a] => a
  | _ => pq_StringArray_Value al
  end.

(** The source is a string. *)
Definition addressList_Scan (src : string) : list string :=
  if bool_decide (src = "unknown"%string) || bool_decide (src = "{}"%string) then []
  else if (2 <? Z.of_nat (String.length src)) && bool_decide (String.get 0 src = Some "{"%char)
            && bool_decide (last_char src = Some "}"%char)
  then Split_comma src
  else [src].

(** ** retrieveTxOutData *)
(** The row of the vouts table, by the columns selected. *)
Record VoutRow := mkVoutRow {
  vr_id : Z; vr_script_addresses : string; vr_value : Z; vr_mixed : bool; vr_coin_type : Z; vr_ska_value : string
}.
Definition TxOutData_of_row (r : VoutRow) : UTXOData :=
  mkUtxo (Split_comma (remove_braces (vr_script_addresses r))) (vr_value r) (vr_mixed r) (vr_id r) (vr_coin_type r) (vr_ska_value r).

(** The addresses of an output as they are stored and read again. *)
Definition reread (al : list string) : list string := Split_comma (remove_braces (addressList_Value al)).
End AddressList.

(** ** Facts *)
Lemma Split_comma_nonempty s : ∃ x l, Split_comma s = x :: l.
Proof.
  induction s as [|c s (x & l & IH)]; cbn; [eauto|]. rewrite IH. case_bool_decide; eauto.
Qed.

(** No comma. *)
Fixpoint no_comma (s : string) : bool :=
  match s with EmptyString => true | String c s => negb (bool_decide (c = ","%char)) && no_comma s end.

Lemma Split_comma_one s : no_comma s = true → Split_comma s = [s].
Proof.
  induction s as [|c s IH]; cbn; [done|]. intros [Hc Hs]%andb_true_iff. rewrite IH by done.
  by destruct (bool_decide (c = ","%char)).
Qed.

Lemma Split_comma_app a s : no_comma a = true → Split_comma (a +:+ String "," s)%string = a :: Split_comma s.
Proof.
  induction a as [|c a IH]; simpl.
  - intros _. by destruct (Split_comma_nonempty s) as (x & l & ->).
  - intros [Hc Ha]%andb_true_iff. rewrite IH by done. by destruct (bool_decide (c = ","%char)).
Qed.

Lemma Split_join l x : forallb no_comma (x :: l) = true → Split_comma (join_comma (x :: l)) = x :: l.
Proof.
  revert x. induction l as [|y l IH]; intros x [Hx Hl]%andb_true_iff.
  - by apply Split_comma_one.
  - change (join_comma (x :: y :: l)) with (x +:+ String "," (join_comma (y :: l)))%string.
    by rewrite Split_comma_app, IH.
Qed.

Lemma remove_braces_app a b : remove_braces (a +:+ b)%string = (remove_braces a +:+ remove_braces b)%string.
Proof.
  induction a as [|c a IH]; simpl; [done|]. destruct (_ || _); [done|]. simpl. by rewrite IH.
Qed.

Lemma plain_spec s : plain s = true → no_comma s = true ∧ remove_braces s = s.
Proof.
  induction s as [|c s IH]; cbn; [done|]. intros [Hc Hs]%andb_true_iff. destruct (IH Hs) as [-> ->].
  unfold plain_char in Hc. rewrite !andb_true_iff, !negb_true_iff in Hc. destruct Hc as ((((_ & _) & ->) & ->) & ->). done.
Qed.

Lemma append_nil s : (s +:+ "")%string = s.
Proof. induction s as [|c s IH]; [done|]. change (String c (s +:+ "")%string = String c s). by rewrite IH. Qed.

Lemma no_comma_app a b : no_comma (a +:+ b)%string = no_comma a && no_comma b.
Proof. induction a as [|c a IH]; simpl; [done|]. by rewrite IH, andb_assoc. Qed.

Lemma quoted_spec s : plain s = true → no_comma (quoted s) = true ∧ remove_braces (quoted s) = quoted s.
Proof.
  intros Hs. destruct (plain_spec s Hs) as [H1 H2]. unfold quoted. split.
  - by rewrite !no_comma_app, H1.
  - by rewrite !remove_braces_app, H2.
Qed.

Lemma remove_braces_join l : Forall (λ s, remove_braces s = s) l → remove_braces (join_comma l) = join_comma l.
Proof.
  induction 1 as [|a l Ha Hl IH]; [done|]. destruct l as [|b l]; [done|].
  change (join_comma (a :: b :: l)) with (a +:+ "," +:+ join_comma (b :: l))%string.
  by rewrite !remove_braces_app, Ha, IH.
Qed.

Section Facts.
Context {lib : PqLib} {laws : PqLaws}.

(** The addresses of an output read back by retrieveTxOutData are those
    stored only when there is exactly one: no address is read as the address
    [unknown], and several are read with their quotes. *)
Theorem reread_addresses al : forallb plain al = true →
  reread al = match al with [] => ["unknown"%string] | [a] => [a] | _ => quoted <$> al end ∧
  (reread al = al ↔ length al = 1%nat).
Proof.
  intros Hp.
  assert (reread al = match al with [] => ["unknown"%string] | [a] => [a] | _ => quoted <$> al end) as E.
  { unfold reread, addressList_Value. destruct al as [|a [|b l]]; [done| |].
    - cbn in Hp. rewrite andb_true_r in Hp. destruct (plain_spec a Hp) as [H1 ->]. by apply Split_comma_one.
    - rewrite string_array_text by done. rewrite !remove_braces_app. set (q := quoted <$> a :: b :: l).
      assert (Forall (λ s, no_comma s = true ∧ remove_braces s = s) q) as Hq.
      { unfold q. apply Forall_fmap, Forall_forall. intros s Hs.
        apply quoted_spec. assert (∀ x, x ∈ a :: b :: l → plain x = true) as G; [|by apply G].
        clear -Hp. induction (a :: b :: l) as [|y k IH]; [by intros x ?%elem_of_nil|].
        cbn in Hp. apply andb_true_iff in Hp as [H1 H2]. intros x [->|?]%elem_of_cons; auto. }
      rewrite remove_braces_join by (eapply Forall_impl; [exact Hq|]; by intros s [_ ?]).
      cbn [remove_braces bool_decide]. change ("" +:+ join_comma q +:+ "")%string with (join_comma q +:+ "")%string.
      rewrite append_nil.
      apply Split_join. assert (forallb no_comma q = true) as G; [|exact G].
      clear -Hq. induction Hq as [|x k [Hx _] _ IH]; cbn; [done|]. by rewrite Hx. }
  split; [exact E|]. rewrite E. destruct al as [|a [|b l]]; cbn; [split; discriminate|done|].
  split; [|discriminate]. intros [= H _]. exfalso. apply (f_equal String.length) in H. unfold quoted in H.
  assert (∀ x y, String.length (x +:+ y)%string = (String.length x + String.length y)%nat) as G.
  { induction x as [|c x IHx]; intros; simpl; [done|]. by rewrite IHx. }
  rewrite !G in H. simpl in H. lia.
Qed.
End Facts.

(** ** Examples *)
Module Witness.
Definition lib : PqLib := {| pq_StringArray_Value := λ l, ("{" +:+ join_comma (quoted <$> l) +:+ "}")%string |}.
Lemma laws : @PqLaws lib.
Proof. constructor. by intros l _. Qed.

Lemma reread_addresses_witness :
  reread (lib:=lib) [] = ["unknown"%string] ∧ reread (lib:=lib) ["Dsa"; "Dsb"]%string = [quoted "Dsa"; quoted "Dsb"].
Proof.
  split.
  - exact (proj1 (reread_addresses (lib:=lib) (laws:=laws) [] eq_refl)).
  - exact (proj1 (reread_addresses (lib:=lib) (laws:=laws) ["Dsa"; "Dsb"]%string eq_refl)).
Defined.
End Witness.
