(* ===== verification/StoreTree.v ===== *)
(** * Storing one tree of a block (db/dcrpg/pgblockchain.go, db/dcrpg/queries.go)

    storeBlockTxnTree with the functions it calls: the cache of unspent outputs
    before and after the rows are inserted, the outputs tagged as mixed, the
    rows of outputs, inputs and transactions, the ticket updates of the stake
    tree, and the spending of the previous outputs.  The SQL statements are
    operations of an abstract database.  The theorems are in StoreFacts (the
    cache, the mixed outputs) and StoreSafe (panics). *)
From stdpp Require Import gmap strings.
From S2P Require Import Prelude StakeTx SSFee AddressRows CoinStats BlockTxns UtxoStore TicketSpends TxOutData.
Open Scope Z_scope.

(** ** The database

    The answer of a query for one row: the row, [sql.ErrNoRows], or another
    error. *)
Inductive sqlres (A : Type) : Type := Row (a : A) | ErrNoRows | SqlErr.
Arguments Row {A} a.
Arguments ErrNoRows {A}.
Arguments SqlErr {A}.

(** The statements whose preparation may fail. *)
Inductive stmt :=
| VoutStmt | VinStmt | TxStmt | TicketStmt | VoteStmt | AgendaStmt | AgendaVotesStmt | MissStmt | SpendStmt | StatusStmt
| AddressStmt.

(** The tables, with one operation for each statement (the two flags select the
    text of an insert statement), and the number of a transaction type in the
    node library.  The agendas tables and the map of stored agendas are updated
    by two operations, before the votes and for the choices of a vote. *)
Class BlockDB := {
  DB : Type;
  Begin : DB → option DB;
  Commit : DB → option DB;
  Rollback : DB → DB;
  PrepareOK : stmt → DB → bool;
  CloseOK : stmt → DB → bool;
  InsertVout : bool → bool → Vout → DB → sqlres Z * DB;
  InsertVin : bool → bool → VinTxProperty → DB → sqlres Z * DB;
  InsertTx : bool → bool → Tx → DB → sqlres Z * DB;
  InsertTicket : bool → bool → Tx → Z → DB → sqlres Z * DB;
  InsertVote : bool → bool → Tx → MsgTx → Z → DB → sqlres Z * DB;
  LoadAgendas : DB → option DB;
  InsertAgendaVotes : MsgTx → Z → DB → option DB;
  InsertMiss : bool → bool → Hash → DB → sqlres Z * DB;
  InsertAddress : bool → bool → AddressRow → DB → sqlres Z * DB;
  SetTicketSpending : TicketSpend → Z → TicketPoolStatus → DB → option DB;
  SetTicketStatus : Z → TicketPoolStatus → DB → option DB;
  SetMatchingTx : Hash → Z → Hash → bool → DB → option Z * DB;
  SetVoutsSpent : list Z → Z → DB → option Z * DB;
  SelectTxOut : Hash → Z → Z → DB → sqlres VoutRow;
  SelectTicketID : Hash → DB → option Z;
  SSGenVoteValid : MsgTx → bool;
  TxTypeNum : TxType → Z
}.

Inductive StoreErr :=
| EBegin | EPrepare (s : stmt) | EInsert (s : stmt) | ECommit | ESpends (e : SpendErr) | ETicketRow (h : Hash)
| ENotVote | EAgenda | ETxOut | EMatching | EVoutsSpent.

(** The result of a tree, when its error is nil. *)
Record storeTxnsResult := mkResult {
  numVins : Z; numVouts : Z; numAddresses : Z; r_txDbIDs : list Z; r_addresses : gset string; mixSetDelta : Z
}.

Section Store.
Context {bdb : BlockDB} {node : TicketNode} {RH : RangeOrder Hash Z}.

(** The parts of ChainDB that are used. *)
Record ChainDB := mkChainDB { pg_db : DB; utxoCache : utxoStore; unspentTicketCache : option TicketTxnIDGetter }.
Abbreviation SM := (goM ChainDB StoreErr).
Definition set_db (d : DB) (s : ChainDB) : ChainDB := mkChainDB d (utxoCache s) (unspentTicketCache s).
Definition set_utxos (u : utxoStore) (s : ChainDB) : ChainDB := mkChainDB (pg_db s) u (unspentTicketCache s).
Definition set_tickets (t : option TicketTxnIDGetter) (s : ChainDB) : ChainDB := mkChainDB (pg_db s) (utxoCache s) t.

Definition query {A} (f : DB → sqlres A * DB) : SM (sqlres A) := λ s, let '(r, d) := f (pg_db s) in (Ok r, set_db d s).
Definition step {A} (e : StoreErr) (f : DB → option A * DB) : SM A := λ s,
  let '(r, d) := f (pg_db s) in (match r with Some a => Ok a | None => Err e end, set_db d s).
Definition begin : SM unit := λ s, match Begin (pg_db s) with Some d => (Ok tt, set_db d s) | None => (Err EBegin, s) end.
Definition commit : SM unit := λ s, match Commit (pg_db s) with Some d => (Ok tt, set_db d s) | None => (Err ECommit, s) end.
Definition rollback (e : StoreErr) {A} : SM A := λ s, (Err e, set_db (Rollback (pg_db s)) s).
Definition prepare (st : stmt) : SM unit := λ s,
  if PrepareOK st (pg_db s) then (Ok tt, s) else rollback (EPrepare st) s.

(** ** Mixed outputs *)
Definition i8 := wrap_s 8.

(** Whether all previous outputs of a transaction are mixed: the loop over its
    inputs.  An output that is not cached is looked up and cached. *)
Fixpoint all_mixed (vins : list VinTxProperty) (s : ChainDB) : bool * ChainDB :=
  match vins with
  | [] => (true, s)
  | vin :: vins =>
    let h := vin_PrevTxHash vin in
    if bool_decide (h = zeroHash) then all_mixed vins s else
    match utxo_Peek h (vin_PrevTxIndex vin) (utxoCache s) with
    | Some utxo => if u_Mixed utxo then all_mixed vins s else (false, s)
    | None =>
      match SelectTxOut h (vin_PrevTxIndex vin) (i8 (vin_PrevTxTree vin)) (pg_db s) with
      | Row r =>
        let utxo := TxOutData_of_row r in
        let s := set_utxos (utxo_Set h (vin_PrevTxIndex vin) utxo (utxoCache s)) s in
        if u_Mixed utxo then all_mixed vins s else (false, s)
      | _ => (false, s)
      end
    end
  end.

Definition set_mixed (v : Vout) : Vout :=
  mkVout (v_TxHash v) (v_TxIndex v) (v_TxTree v) (v_TxType v) (v_Value v) (v_CoinType v) (v_SKAValue v) (v_Type v)
    (v_Addresses v) true.

Definition TxIsRegular (t : DbTxType) : bool := bool_decide (t = StakeTxType TxTypeRegular).

Fixpoint tag_mixed (txns : list Tx) (vouts : list (list Vout)) (vins : list (list VinTxProperty)) (s : ChainDB)
    : list (list Vout) * ChainDB :=
  match txns, vouts, vins with
  | tx :: txns, vo :: vouts, vi :: vins =>
    let '(vo, s) :=
      if 0 <? t_MixCount tx then (vo, s)
      else if TxIsRegular (t_TxType tx) then (vo, s)
      else let '(m, s) := all_mixed vi s in (if m : bool then set_mixed <$> vo else vo, s) in
    let '(vouts, s) := tag_mixed txns vouts vins s in (vo :: vouts, s)
  | _, _, _ => (vouts, s)
  end.

(** The value of the new mixed outputs of valid transactions. *)
Fixpoint mix_created (txns : list Tx) (vouts : list (list Vout)) (mixDiff : Z) : Z :=
  match txns, vouts with
  | tx :: txns, vo :: vouts =>
    mix_created txns vouts
      (if t_IsValid tx then foldl (λ d v, if v_Mixed v then i64 (d + i64 (v_Value v)) else d) mixDiff vo else mixDiff)
  | _, _ => mixDiff
  end.

(** ** Rows of outputs, inputs and transactions *)
(** The integer in the type column. *)
Definition dbTypeNum (t : DbTxType) : Z :=
  match t with
  | StakeTxType t => TxTypeNum t
  | TxTypeBlockRewardPoS => 101
  | TxTypeBlockRewardPoW => 102
  | TxTypeSSFeePoS => 103
  | TxTypeSSFeePoW => 104
  | TxTypeTicketPurchase => 105
  end.

Definition zeroTime : TimeDef := mkTime (-62135596800) 0 true.

Definition vout_rows (v : Vout) (id : Z) : list AddressRow :=
  (λ addr, mkRow addr false None false zeroTime (v_TxHash v) (v_TxIndex v) (v_Value v) id 0 (dbTypeNum (v_TxType v)) 0 0
             (v_CoinType v) (v_SKAValue v)) <$> v_Addresses v.

Fixpoint insertVoutsStmt (checked doUpsert : bool) (vouts : list Vout) (ids : list Z) (rows : list AddressRow)
    : SM (list Z * list AddressRow) :=
  match vouts with
  | [] => mret (ids, rows)
  | v :: vouts =>
    r ← query (InsertVout checked doUpsert v);
    match r with
    | Row id => insertVoutsStmt checked doUpsert vouts (ids ++ [id]) (rows ++ vout_rows v id)
    | ErrNoRows => insertVoutsStmt checked doUpsert vouts ids rows
    | SqlErr => fail (EInsert VoutStmt)
    end
  end.

(** The IDs so far, with the error: [ErrNoRows] counts as none. *)
Fixpoint insertVinsStmt (checked doUpsert : bool) (vins : list VinTxProperty) (ids : list Z) : SM (list Z) :=
  match vins with
  | [] => mret ids
  | v :: vins =>
    r ← query (InsertVin checked doUpsert v);
    match r with
    | Row id => insertVinsStmt checked doUpsert vins (ids ++ [id])
    | ErrNoRows => mret ids
    | SqlErr => fail (EInsert VinStmt)
    end
  end.

Fixpoint insertTxnsStmt (checked update : bool) (txns : list Tx) (ids : list Z) : SM (list Z) :=
  match txns with
  | [] => mret ids
  | tx :: txns =>
    r ← query (InsertTx checked update tx);
    match r with
    | Row id => insertTxnsStmt checked update txns (ids ++ [id])
    | ErrNoRows => insertTxnsStmt checked update txns ids
    | SqlErr => fail (EInsert TxStmt)
    end
  end.

(** A failed Close returns no IDs and the nil error of the inserts. *)
Definition insertTxnsDbTxn (txns : list Tx) (checked update : bool) : SM (list Z) := λ s,
  if PrepareOK TxStmt (pg_db s) then
    (ids ← insertTxnsStmt checked update txns [];
     ok ← gets (λ s, CloseOK TxStmt (pg_db s));
     mret (if ok : bool then ids else [])) s
  else (Err (EPrepare TxStmt), s).

Definition set_ids (tx : Tx) (vouts : list Vout) (voutIds vinIds : list Z) : Tx :=
  mkDbTx (t_BlockHash tx) (t_BlockHeight tx) (t_BlockTime tx) (t_TxType tx) (t_Tree tx) (t_TxID tx) (t_BlockIndex tx)
    (t_Spent tx) (t_Sent tx) (t_Fees tx) (t_SpentByCoin tx) (t_SentByCoin tx) (t_FeesByCoin tx) (t_MixCount tx) (t_MixDenom tx)
    (t_NumVin tx) vinIds (t_NumVout tx) vouts voutIds (t_IsValid tx) (t_IsMainchainBlock tx).

(** An error of an insert rolls the transaction back. *)
Definition or_rollback {A} (m : SM A) : SM A := λ s,
  match m s with (Err e, s) => rollback e s | r => r end.

Fixpoint storeTxns_loop (checked doUpsert : bool) (txns : list Tx) (vouts : list (list Vout)) (vins : list (list VinTxProperty))
    : SM (list Tx * list (list AddressRow)) :=
  match txns, vouts, vins with
  | [], _, _ => mret ([], [])
  | tx :: txns, vo :: vouts, vi :: vins =>
    '(voutIds, rows) ← or_rollback (insertVoutsStmt checked doUpsert vo [] []);
    vinIds ← or_rollback (insertVinsStmt checked doUpsert vi []);
    '(ts, rs) ← storeTxns_loop checked doUpsert txns vouts vins;
    mret (set_ids tx vo voutIds vinIds :: ts, rows :: rs)
  | _, _, _ => panic
  end.

(** The transactions with their row IDs, the address rows of each, and the IDs
    of the transactions. *)
Definition storeTxns (dupChecks : bool) (txns : list Tx) (vouts : list (list Vout)) (vins : list (list VinTxProperty))
    (update : bool) : SM (list Tx * list (list AddressRow) * list Z) :=
  begin ≫= λ _, prepare VoutStmt ≫= λ _, prepare VinStmt ≫= λ _,
  '(ts, rows) ← storeTxns_loop dupChecks update txns vouts vins;
  ids ← insertTxnsDbTxn ts dupChecks update;
  commit ≫= λ _, mret (ts, rows, ids).

Definition set_funding (tx : Tx) (valid : bool) (r : AddressRow) : AddressRow :=
  mkRow (Address r) valid (MatchingTxHash r) true (t_BlockTime tx) (TxHash r) (TxVinVoutIndex r) (Value r) (VinVoutDbID r)
    (MergedCount r) (AddressRows.TxType r) (AtomsCredit r) (AtomsDebit r) (CoinType r) (SKAValue r).

(** [dbAddressRows] has a slice for each transaction. *)
Fixpoint flattenAddressRows (dbAddressRows : list (list AddressRow)) (txns : list Tx) : list AddressRow :=
  match txns, dbAddressRows with
  | tx :: txns, rows :: dbAddressRows =>
    let validMainChainTx := t_IsMainchainBlock tx && (t_IsValid tx || (t_Tree tx =? TxTreeStake)) in
    (set_funding tx validMainChainTx <$> filter (λ r, (Value r =? 0) && (CoinType r =? 0) = false) rows)
      ++ flattenAddressRows dbAddressRows txns
  | _, _ => []
  end.

(** ** Tickets, votes and misses *)
Definition isTicket (tx : Tx) : bool :=
  bool_decide (t_TxType tx = StakeTxType TxTypeSStx) || bool_decide (t_TxType tx = TxTypeTicketPurchase).

(** The price is read from the first output, unguarded. *)
Fixpoint insertTickets_loop (checked update : bool) (tickets : list (Tx * Z)) (ids : list Z) : SM (list Z) :=
  match tickets with
  | [] => mret ids
  | (tx, txDbID) :: tickets =>
    match t_Vouts tx with
    | [] => panic
    | _ =>
      r ← query (InsertTicket checked update tx txDbID);
      match r with
      | Row id => insertTickets_loop checked update tickets (ids ++ [id])
      | ErrNoRows => insertTickets_loop checked update tickets ids
      | SqlErr => rollback (EInsert TicketStmt)
      end
    end
  end.

(** The tickets with their row IDs; [None] is the index panic. *)
Fixpoint choose_tickets (txns : list Tx) (txDbIDs : list Z) : option (list (Tx * Z)) :=
  match txns with
  | [] => Some []
  | tx :: txns =>
    rest ← choose_tickets txns (tail txDbIDs);
    if isTicket tx then id ← head txDbIDs; Some ((tx, id) :: rest) else Some rest
  end.

Definition insertTickets (txns : list Tx) (txDbIDs : list Z) (checked update : bool) : SM (list Z * list Tx) :=
  begin ≫= λ _, prepare TicketStmt ≫= λ _,
  match choose_tickets txns txDbIDs with
  | None => panic
  | Some tickets =>
    ids ← insertTickets_loop checked update tickets [];
    commit ≫= λ _, mret (ids, tickets.*1)
  end.

(** [unspentTicketCache.Set(newTicketTx[it].TxID, tdbid)]. *)
Fixpoint cache_tickets (ids : list Z) (tickets : list Tx) (t : option TicketTxnIDGetter) : option TicketTxnIDGetter :=
  match ids, tickets with
  | id :: ids, tx :: tickets => cache_tickets ids tickets (getter_Set (t_TxID tx) id t)
  | _, _ => t
  end.

Definition onTickets {A} (m : (Hash → option Z) → goM (option TicketTxnIDGetter) SpendErr A) : SM A := λ s,
  let '(r, t) := m (λ h, SelectTicketID h (pg_db s)) (unspentTicketCache s) in
  (match r with Ok a => Ok a | Err e => Err (ESpends e) | Panic => Panic | NoFuel => NoFuel end, set_tickets t s).

Definition agendas (f : DB → option DB) : SM unit := λ s,
  match f (pg_db s) with Some d => (Ok tt, set_db d s) | None => rollback EAgenda s end.

(** Without a cache the row ID is 0. *)
Definition voteTicketID (h : Hash) : SM Z := λ s,
  match unspentTicketCache s with
  | None => (Ok 0, s)
  | Some _ => onTickets (λ sel, getTicketID sel h false) s
  end.

(** The votes with the transactions of the block, which the rows are aligned
    with. *)
Definition choose_votes (txns : list Tx) (msgTxs : list MsgTx) : list (Tx * MsgTx) :=
  filter (λ p, t_TxType p.1 = StakeTxType TxTypeSSGen) (zip txns msgTxs).

(** The ticket each vote spends, with the row ID of the vote. *)
Fixpoint insertVotes_loop (checked update : bool) (votes : list (Tx * MsgTx)) : SM (list (Hash * option Z)) :=
  match votes with
  | [] => mret []
  | (tx, msgTx) :: votes =>
    if negb (SSGenVoteValid msgTx) then rollback ENotVote else
    match tx_TxIn msgTx with
    | _ :: vin :: _ =>
      let h := op_Hash (ti_PreviousOutPoint vin) in
      id ← or_rollback (voteTicketID h);
      r ← query (InsertVote checked update tx msgTx id);
      match r with
      | SqlErr => rollback (EInsert VoteStmt)
      | r =>
        (match r with
         | Row i => if checked && negb update then mret tt else agendas (InsertAgendaVotes msgTx i)
         | _ => mret tt
         end) ≫= λ _,
        rest ← insertVotes_loop checked update votes;
        mret ((h, match r with Row i => Some i | _ => None end) :: rest)
      end
    | _ => panic
    end
  end.

Fixpoint insertMisses_loop (checked update : bool) (misses : list Hash) : SM (list (Hash * option Z)) :=
  match misses with
  | [] => mret []
  | h :: misses =>
    r ← query (InsertMiss checked update h);
    match r with
    | SqlErr => rollback (EInsert MissStmt)
    | r =>
      rest ← insertMisses_loop checked update misses;
      mret ((h, match r with Row i => Some i | _ => None end) :: rest)
    end
  end.

(** The misses with their row IDs. *)
Definition insertVotes (txns : list Tx) (msgTxs : list MsgTx) (validators : list Hash) (checked update : bool)
    : SM (gmap Hash Z) :=
  let votes := choose_votes txns msgTxs in
  if bool_decide (votes = []) then mret ∅ else
  begin ≫= λ _, prepare VoteStmt ≫= λ _, prepare AgendaStmt ≫= λ _, prepare AgendaVotesStmt ≫= λ _,
  agendas LoadAgendas ≫= λ _,
  rows ← insertVotes_loop checked update votes;
  match count_votes validators rows with
  | None => panic
  | Some (_, misses) =>
    if bool_decide (misses = []) then commit ≫= λ _, mret ∅ else
    prepare MissStmt ≫= λ _,
    missRows ← insertMisses_loop checked update misses;
    commit ≫= λ _, mret (miss_map missRows)
  end.

(** A failed statement rolls back and ends the loop; the callers only log
    it. *)
Fixpoint setSpending_loop (height : Z) (spends : list TicketSpend) : SM unit :=
  match spends with
  | [] => mret tt
  | sp :: spends => λ s,
    match SetTicketSpending sp height (spend_status sp) (pg_db s) with
    | Some d => setSpending_loop height spends (set_db d s)
    | None => rollback (EInsert SpendStmt) s
    end
  end.
Definition setSpendingForTickets (height : Z) (spends : list TicketSpend) : SM unit :=
  begin ≫= λ _, prepare SpendStmt ≫= λ _, setSpending_loop height spends ≫= λ _, commit.

Fixpoint setStatus_loop (tickets : list (Z * TicketPoolStatus)) : SM unit :=
  match tickets with
  | [] => mret tt
  | (id, status) :: tickets => λ s,
    match SetTicketStatus id status (pg_db s) with
    | Some d => setStatus_loop tickets (set_db d s)
    | None => rollback (EInsert StatusStmt) s
    end
  end.
Definition setPoolStatusForTickets (tickets : list (Z * TicketPoolStatus)) : SM unit :=
  if bool_decide (tickets = []) then mret tt else
  begin ≫= λ _, prepare StatusStmt ≫= λ _, setStatus_loop tickets ≫= λ _, commit.

(** The error is logged. *)
Definition logged (m : SM unit) : SM unit := λ s,
  match m s with (Err _, s) => (Ok tt, s) | r => r end.

Fixpoint ticket_rows (hs : list Hash) : SM (list Z) :=
  match hs with
  | [] => mret []
  | h :: hs => λ s,
    match onTickets (λ sel, getTicketID sel h false) s with
    | (Ok id, s) => (rest ← ticket_rows hs; mret (id :: rest)) s
    | (Err _, s) => (Err (ETicketRow h), s)
    | (Panic, s) => (Panic, s)
    | (NoFuel, s) => (NoFuel, s)
    end
  end.

(** The part of storeBlockTxnTree for the stake tree. *)
Definition store_stake (dupChecks update isMainchain : bool) (height : Z) (validators : list Hash)
    (txns : list Tx) (txDbIDs : list Z) (msgTxs : list MsgTx) : SM unit :=
  '(ids, tickets) ← insertTickets txns txDbIDs dupChecks update;
  modify (λ s, set_tickets (cache_tickets ids tickets (unspentTicketCache s)) s) ≫= λ _,
  misses ← insertVotes txns msgTxs validators dupChecks update;
  spends ← onTickets (λ sel, collectTicketSpendDBInfo sel txns txDbIDs msgTxs isMainchain);
  logged (setSpendingForTickets height spends) ≫= λ _,
  let '(unspent, statuses) := unspentEnM (revokes_of spends) misses in
  rows ← ticket_rows unspent;
  logged (setPoolStatusForTickets (zip rows statuses)).

(** ** Spending the previous outputs *)
Definition zeroUtxo : UTXOData := mkUtxo [] 0 false 0 0 "".

Definition spent_data (vin : VinTxProperty) (utxoData : option UTXOData) : SM UTXOData := λ s,
  match utxoData with
  | Some d => (Ok d, s)
  | None =>
    match SelectTxOut (vin_PrevTxHash vin) (vin_PrevTxIndex vin) (i8 (vin_PrevTxTree vin)) (pg_db s) with
    | Row r => (Ok (TxOutData_of_row r), s)
    | ErrNoRows => (Ok zeroUtxo, s)
    | SqlErr => (Err ETxOut, s)
    end
  end.

Definition spending_row (tx : Tx) (vin : VinTxProperty) (vinDbID : Z) (d : UTXOData) (addr : string) : AddressRow :=
  mkRow addr (t_IsMainchainBlock tx && t_IsValid tx) (Some (vin_PrevTxHash vin)) false (t_BlockTime tx) (vin_TxID vin)
    (vin_TxIndex vin) (u_Value d) vinDbID 0 (dbTypeNum (vin_TxType vin)) 0 0 (u_CoinType d) (u_SKAValue d).

Fixpoint insert_spending (dupChecks update : bool) (rows : list AddressRow) : SM unit :=
  match rows with
  | [] => mret tt
  | row :: rows =>
    r ← query (InsertAddress dupChecks update row);
    match r with
    | Row _ => insert_spending dupChecks update rows
    | _ => fail (EInsert AddressStmt)
    end
  end.

(** The addresses, the row ID of the spent output and whether it is mixed. *)
Definition insertSpendingAddressRow (dupChecks update updateFundingRow : bool) (tx : Tx) (vin : VinTxProperty) (vinDbID : Z)
    (utxoData : option UTXOData) : SM (list string * Z * bool) :=
  d ← spent_data vin utxoData;
  insert_spending dupChecks update (spending_row tx vin vinDbID d <$> u_Addresses d) ≫= λ _,
  (if updateFundingRow && t_IsValid tx
   then step EMatching (SetMatchingTx (vin_PrevTxHash vin) (vin_PrevTxIndex vin) (vin_TxID vin) (t_IsMainchainBlock tx))
   else mret 0) ≫= λ _,
  mret (u_Addresses d, u_VoutDbID d, u_Mixed d).

Definition evict (vin : VinTxProperty) : SM (option UTXOData) := λ s,
  let '(d, u) := utxo_Get (vin_PrevTxHash vin) (vin_PrevTxIndex vin) (utxoCache s) in (Ok d, set_utxos u s).

(** What the loops accumulate: the number of addresses, the addresses, the
    change of the mix set. *)
Record spend_acc := mkAcc { a_num : Z; a_addrs : gset string; a_mix : Z }.

(** The loop over the inputs of a transaction; [iv] indexes [VinDbIds]. *)
Fixpoint spend_vins (dupChecks update updateFundingRow isMainchain : bool) (tx : Tx) (iv : Z) (vins : list VinTxProperty)
    (voutDbIDs : list Z) (acc : spend_acc) : SM (list Z * spend_acc) :=
  match vins with
  | [] => mret (voutDbIDs, acc)
  | vin :: vins =>
    if bool_decide (vin_PrevTxHash vin = zeroHash)
    then spend_vins dupChecks update updateFundingRow isMainchain tx (iv + 1) vins voutDbIDs acc else
    match slice_at (t_VinDbIds tx) iv with
    | None => panic
    | Some vinDbID =>
      utxoData ← evict vin;
      '(fromAddrs, voutDbID, mixedVout) ←
        or_rollback (insertSpendingAddressRow dupChecks update updateFundingRow tx vin vinDbID utxoData);
      let mix := if mixedVout && t_IsValid tx && isMainchain then i64 (a_mix acc - vin_ValueIn vin) else a_mix acc in
      spend_vins dupChecks update updateFundingRow isMainchain tx (iv + 1) vins (voutDbIDs ++ [voutDbID])
        (mkAcc (a_num acc + zlen fromAddrs) (a_addrs acc ∪ list_to_set fromAddrs) mix)
    end
  end.

Definition setSpendingForVouts (voutDbIDs : list Z) (txDbID : Z) : SM unit :=
  n ← step EVoutsSpent (SetVoutsSpent voutDbIDs txDbID);
  if n =? zlen voutDbIDs then mret tt else fail EVoutsSpent.

Fixpoint spend_txns (dupChecks update updateFundingRow isMainchain : bool) (txns : list Tx)
    (vins : list (list VinTxProperty)) (txDbIDs : list Z) (acc : spend_acc) : SM spend_acc :=
  match txns with
  | [] => mret acc
  | tx :: txns =>
    match vins, txDbIDs with
    | vi :: vins, txDbID :: txDbIDs =>
      '(voutDbIDs, acc) ← spend_vins dupChecks update updateFundingRow isMainchain tx 0 vi [] acc;
      (if t_IsValid tx && isMainchain && (0 <? zlen voutDbIDs)
       then or_rollback (setSpendingForVouts voutDbIDs txDbID) else mret tt) ≫= λ _,
      spend_txns dupChecks update updateFundingRow isMainchain txns vins txDbIDs acc
    | _, _ => panic
    end
  end.

Fixpoint insert_addresses (dupChecks update : bool) (rows : list AddressRow) : SM unit :=
  match rows with
  | [] => mret tt
  | row :: rows =>
    r ← query (InsertAddress dupChecks update row);
    match r with
    | SqlErr => fail (EInsert AddressStmt)
    | _ => insert_addresses dupChecks update rows
    end
  end.
Definition insertAddressRowsDbTx (rows : list AddressRow) (dupChecks update : bool) : SM unit := λ s,
  if PrepareOK AddressStmt (pg_db s) then insert_addresses dupChecks update rows s else (Err (EPrepare AddressStmt), s).

Definition update_cache (vouts : list (list Vout)) (txns : list Tx) : SM unit := λ s,
  match updateUtxoCache vouts txns (utxoCache s) with
  | Some u => (Ok tt, set_utxos u s)
  | None => (Panic, s)
  end.

(** The scan of the regular transactions for swaps skips the coinbase with an
    unguarded slice; what it finds goes to a table of its own, and its errors
    are logged. *)
Definition scan_swaps (b : MsgBlock) (txTree : Z) : SM unit :=
  if txTree =? TxTreeStake then mret tt else
  match mb_Transactions b with [] => panic | _ :: _ => mret tt end.

(** ** storeBlockTxnTree

    The address rows are flattened and the cache is updated before the stake
    part; the program does both concurrently with it, and they share no
    state. *)
Definition storeBlockTxnTree {fl : SSFeeLib} {lib : BlockLib} {RM RS RV : RangeOrder Z Z}
    (dupChecks : bool) (b : MsgBlock) (validators : list Hash) (txTree : Z)
    (isValid isMainchain update updateFundingRow : bool) : SM storeTxnsResult :=
  let '(txns, vouts, vins) := ExtractBlockTransactions (RM:=RM) (RS:=RS) (RV:=RV) b txTree isValid isMainchain in
  update_cache vouts txns ≫= λ _,
  vouts ← (λ s, let '(vouts, s) := tag_mixed txns vouts vins s in (Ok vouts, s));
  let mixDiff := if isMainchain then mix_created txns vouts 0 else 0 in
  '(txns, rows, txDbIDs) ← storeTxns dupChecks txns vouts vins update;
  let flat := flattenAddressRows rows txns in
  update_cache vouts txns ≫= λ _,
  let validators := if isMainchain then validators else [] in
  (if txTree =? TxTreeStake
   then store_stake dupChecks update isMainchain (mb_Height b) validators txns txDbIDs (mb_STransactions b)
   else mret tt) ≫= λ _,
  begin ≫= λ _,
  or_rollback (insertAddressRowsDbTx flat dupChecks update) ≫= λ _,
  let acc := mkAcc (zsum (zlen <$> rows)) (list_to_set (Address <$> flat)) mixDiff in
  acc ← spend_txns dupChecks update updateFundingRow isMainchain txns vins txDbIDs acc;
  scan_swaps b txTree ≫= λ _, commit ≫= λ _,
  mret (mkResult (zsum ((λ t, zlen (t_VinDbIds t)) <$> txns)) (zsum ((λ t, zlen (t_VoutDbIds t)) <$> txns))
          (a_num acc) txDbIDs (a_addrs acc) (a_mix acc)).
End Store.

(** ** A small database

    Every statement succeeds; the state counts the rows. *)
Module Sample.
Definition row {A} (a : A) (d : Z) : sqlres Z * Z := (Row d, d + 1).
Definition db : BlockDB :=
  {| DB := Z; Begin := Some; Commit := Some; Rollback := id; PrepareOK := λ _ _, true; CloseOK := λ _ _, true;
     InsertVout := λ _ _, row; InsertVin := λ _ _, row; InsertTx := λ _ _, row; InsertTicket := λ _ _ tx _, row tx;
     InsertVote := λ _ _ tx _ _, row tx; LoadAgendas := Some;
     InsertAgendaVotes := λ _ _, Some; InsertMiss := λ _ _, row; InsertAddress := λ _ _, row;
     SetTicketSpending := λ _ _ _, Some; SetTicketStatus := λ _ _, Some;
     SetMatchingTx := λ _ _ _ _ d, (Some 1, d); SetVoutsSpent := λ ids _ d, (Some (zlen ids), d);
     SelectTxOut := λ _ _ _ _, ErrNoRows; SelectTicketID := λ _ _, Some 1; SSGenVoteValid := λ _, true; TxTypeNum := λ _, 0 |}.
Definition node : TicketNode := {| ExistsExpiredTicket := λ _, false; MissedByBlock := [] |}.
Definition fl : SSFeeLib :=
  {| isSSFee := λ _, false; HasSSFeeMarker := λ _, SSFeeMarkerNone; IsSKA := λ c, 0 <? c; MaxPrevOutIndex := 4294967295 |}.
(** The first byte of its hash is the type of a transaction. *)
Definition lib : BlockLib :=
  {| DetermineTxType := λ tx, match hd 0 (tx_Hash tx) with
       1 => TxTypeSStx | 2 => TxTypeSSGen | 3 => TxTypeTreasuryBase | _ => TxTypeRegular end;
     ExtractAddrs := λ _, (STPubKeyHashEcdsaSecp256k1, ["A"%string]); standalone_IsCoinBaseTx := λ _ _, false |}.
Definition RZ : RangeOrder Z Z := canonical_range.
Definition RH : RangeOrder Hash Z := canonical_range.

Definition txin (h : Hash) (i v : Z) : TxIn := mkTxIn (mkOutPoint h i 0) v None.
Definition txout (v : Z) : TxOut := mkTxOut v 0 None [].
Definition treasuryBase : MsgTx := mkTx [3; 1] [txin zeroHash 0 0] [txout 7].
Definition ticket : MsgTx := mkTx [1; 1] [txin [9] 0 5] [txout 5].
Definition vote (n : Z) : MsgTx := mkTx [2; n] [txin zeroHash 0 2; txin [1; 10 + n] 0 5] [txout 7].
Definition regular : MsgTx := mkTx [8; 1] [txin [9] 1 6] [txout 4; txout 2].
Definition block : MsgBlock :=
  mkMsgBlock [0; 1] 5 [0; 0] (mkTime 0 0 true) 1000 1 [regular] [treasuryBase; vote 1; vote 2; vote 3; ticket].
Definition validators : list Hash := (λ n, [1; 10 + n]) <$> [1; 2; 3; 4; 5].
(** The two outputs that the block spends first are cached, both mixed. *)
Definition utxos : utxoStore :=
  {[ [9] := {[ 0 := mkUtxo ["A"%string] 5 true 1 0 ""; 1 := mkUtxo ["A"%string] 6 true 2 0 "" ]} ]}.
Definition start : @ChainDB db := @mkChainDB db 0 utxos (Some NewTicketTxnIDGetter).
End Sample.
