(* ===== verification/StoreFacts.v ===== *)
(** * Storing a tree: what is cached and mixed

    The theorems about storeBlockTxnTree (StoreTree): the outputs cached after
    a tree is stored, the change of the set of mixed coins, and the outputs
    tagged as mixed. *)
From stdpp Require Import gmap strings.
From S2P Require Import Prelude GoPost StakeTx SSFee AddressRows CoinStats BlockTxns UtxoStore TicketSpends TxOutData StoreTree.
Open Scope Z_scope.

(** ** Maps built by insertions *)
Lemma inserts_app l1 l2 m : inserts (l1 ++ l2) m = inserts l2 (inserts l1 m).
Proof. apply foldl_app. Qed.
Lemma inserts_notin l : ∀ m k, k ∉ l.*1 → inserts l m !! k = m !! k.
Proof.
  induction l as [|[k' d] l IH]; intros m k; [done|]. cbn [fmap list_fmap fst]. rewrite not_elem_of_cons. intros [Hk Hl].
  change (inserts _ m) with (inserts l (<[k' := d]> m)). by rewrite IH, lookup_insert_ne.
Qed.
Lemma inserts_in l k : k ∈ l.*1 → ∃ d, (k, d) ∈ l ∧ ∀ m, inserts l m !! k = Some d.
Proof.
  induction l as [|[k' d] l IH]; cbn [fmap list_fmap fst]; [by intros ?%elem_of_nil|]. intros Hk.
  destruct (decide (k ∈ l.*1)) as [Hin|Hin].
  - destruct (IH Hin) as (d' & Hd & H). exists d'. split; [by right|]. intros m. apply H.
  - apply elem_of_cons in Hk as [->|?]; [|done]. exists d. split; [by left|]. intros m.
    change (inserts _ m) with (inserts l (<[k' := d]> m)). by rewrite inserts_notin, lookup_insert_eq.
Qed.

Definition deletes (ks : list outpoint) (m : gmap outpoint UTXOData) : gmap outpoint UTXOData :=
  foldl (λ m k, delete k m) m ks.
Lemma deletes_lookup ks : ∀ m k, deletes ks m !! k = if decide (k ∈ ks) then None else m !! k.
Proof.
  induction ks as [|k' ks IH]; intros m k; [done|]. change (deletes _ m) with (deletes ks (delete k' m)). rewrite IH.
  destruct (decide (k ∈ ks)) as [Hk|Hk]; [by rewrite decide_True by (by right)|].
  destruct (decide (k = k')) as [->|Hn].
  - by rewrite lookup_delete_eq, decide_True by (by left).
  - rewrite lookup_delete_ne, decide_False; [done| |done]. by intros [?|?]%elem_of_cons.
Qed.

(** ** Outputs and previous outputs *)
Definition created (txns : list Tx) (vouts : list (list Vout)) : list UTXO := concat (zip_with utxos_of txns vouts).

Lemma updateUtxoCache_flat txns : ∀ vouts u, (length txns <= length vouts)%nat →
  ∃ u', updateUtxoCache vouts txns u = Some u' ∧ flat u' = inserts (created txns vouts) (flat u) ∧ (no_empty u → no_empty u').
Proof.
  induction txns as [|tx txns IH]; intros [|vo vouts] u Hl; cbn [length] in Hl; try lia; cbn [updateUtxoCache]; [by eauto..|].
  destruct (sets_flat (utxos_of tx vo) u) as [Hs Hn]. destruct (IH vouts (sets (utxos_of tx vo) u)) as (u' & Hu & Hf & He); [lia|].
  exists u'. split; [exact Hu|]. split; [|auto]. rewrite Hf, Hs.
  change (created (tx :: txns) (vo :: vouts)) with (utxos_of tx vo ++ created txns vouts). by rewrite inserts_app.
Qed.

Lemma updateUtxoCache_None txns : ∀ vouts u, (length vouts < length txns)%nat → updateUtxoCache vouts txns u = None.
Proof.
  induction txns as [|tx txns IH]; intros [|vo vouts] u Hl; cbn [length] in Hl; try lia; cbn; [done|]. apply IH. lia.
Qed.

Definition key (vin : VinTxProperty) : outpoint := (vin_PrevTxHash vin, vin_PrevTxIndex vin).
Definition has_prev (vin : VinTxProperty) : bool := negb (bool_decide (vin_PrevTxHash vin = zeroHash)).
(** The previous outputs of one transaction's inputs, and of the inputs of the
    transactions. *)
Definition prevs1 (vins : list VinTxProperty) : list outpoint := key <$> filter (λ v, has_prev v) vins.
Definition prevs (txns : list Tx) (vins : list (list VinTxProperty)) : list outpoint :=
  concat (prevs1 <$> take (length txns) vins).

Lemma prevs1_cons vin vins :
  prevs1 (vin :: vins) = if has_prev vin then key vin :: prevs1 vins else prevs1 vins.
Proof. unfold prevs1. rewrite filter_cons. by destruct (has_prev vin). Qed.

Section Cache.
Context {bdb : BlockDB} {node : TicketNode} {RH : RangeOrder Hash Z}.
Abbreviation SM := (goM ChainDB StoreErr).

(** ** The calls that do not touch the cache of outputs *)
Lemma keeps_query {A} (f : DB → sqlres A * DB) : keeps utxoCache (query f).
Proof. intros s. unfold query. by destruct (f (pg_db s)). Qed.
Lemma keeps_step {A} e (f : DB → option A * DB) : keeps utxoCache (step e f).
Proof. intros s. unfold step. by destruct (f (pg_db s)). Qed.
Lemma keeps_begin : keeps utxoCache begin.
Proof. intros s. unfold begin. by destruct (Begin (pg_db s)). Qed.
Lemma keeps_commit : keeps utxoCache commit.
Proof. intros s. unfold commit. by destruct (Commit (pg_db s)). Qed.
Lemma keeps_rollback {A} e : keeps utxoCache (rollback (A:=A) e).
Proof. done. Qed.
Lemma keeps_prepare st : keeps utxoCache (prepare st).
Proof. intros s. unfold prepare. by destruct (PrepareOK st (pg_db s)). Qed.
Lemma keeps_or_rollback {A} (m : SM A) : keeps utxoCache m → keeps utxoCache (or_rollback m).
Proof. intros H s. unfold or_rollback. specialize (H s). by destruct (m s) as [[a|e| |] s']. Qed.
Lemma keeps_onTickets {A} (m : (Hash → option Z) → goM (option TicketTxnIDGetter) SpendErr A) : keeps utxoCache (onTickets m).
Proof. intros s. unfold onTickets. by destruct (m _ (unspentTicketCache s)) as [[a|e| |] t]. Qed.
Lemma keeps_logged (m : SM unit) : keeps utxoCache m → keeps utxoCache (logged m).
Proof. intros H s. unfold logged. specialize (H s). by destruct (m s) as [[a|e| |] s']. Qed.
Hint Resolve keeps_query keeps_step keeps_begin keeps_commit keeps_rollback keeps_prepare keeps_or_rollback keeps_onTickets keeps_logged : keeps.

Lemma keeps_insertVouts c d vouts : ∀ ids rows, keeps utxoCache (insertVoutsStmt c d vouts ids rows).
Proof. induction vouts; intros; cbn [insertVoutsStmt]; solve_keeps. Qed.
Lemma keeps_insertVins c d vins : ∀ ids, keeps utxoCache (insertVinsStmt c d vins ids).
Proof. induction vins; intros; cbn [insertVinsStmt]; solve_keeps. Qed.
Lemma keeps_insertTxns c d txns : ∀ ids, keeps utxoCache (insertTxnsStmt c d txns ids).
Proof. induction txns; intros; cbn [insertTxnsStmt]; solve_keeps. Qed.
Hint Resolve keeps_insertVouts keeps_insertVins keeps_insertTxns : keeps.
Lemma keeps_insertTxnsDbTxn txns c d : keeps utxoCache (insertTxnsDbTxn txns c d).
Proof.
  intros s. unfold insertTxnsDbTxn. destruct (PrepareOK TxStmt (pg_db s)); [|done].
  revert s. change (keeps utxoCache (ids ← insertTxnsStmt c d txns [];
     ok ← gets (λ s, CloseOK TxStmt (pg_db s)); mret (if ok : bool then ids else []) : SM (list Z))). solve_keeps.
Qed.
Lemma keeps_storeTxns_loop c d txns : ∀ vouts vins, keeps utxoCache (storeTxns_loop c d txns vouts vins).
Proof. induction txns; intros [|vo vouts] [|vi vins]; cbn [storeTxns_loop]; solve_keeps. Qed.
Hint Resolve keeps_insertTxnsDbTxn keeps_storeTxns_loop : keeps.
Lemma keeps_storeTxns c txns vouts vins d : keeps utxoCache (storeTxns c txns vouts vins d).
Proof. unfold storeTxns. solve_keeps. Qed.

Lemma keeps_insertTickets txns ids c d : keeps utxoCache (insertTickets txns ids c d).
Proof.
  unfold insertTickets. assert (∀ l ids, keeps utxoCache (insertTickets_loop c d l ids)).
  { induction l as [|[tx i] l IH]; intros; cbn [insertTickets_loop]; solve_keeps. }
  solve_keeps.
Qed.
Lemma keeps_agendas f : keeps utxoCache (agendas f).
Proof. intros s. unfold agendas. by destruct (f (pg_db s)). Qed.
Lemma keeps_voteTicketID h : keeps utxoCache (voteTicketID h).
Proof. intros s. unfold voteTicketID. destruct (unspentTicketCache s); [apply keeps_onTickets|done]. Qed.
Hint Resolve keeps_agendas keeps_voteTicketID : keeps.
Lemma keeps_insertVotes txns msgs vs c d : keeps utxoCache (insertVotes txns msgs vs c d).
Proof.
  unfold insertVotes. assert (∀ l, keeps utxoCache (insertVotes_loop c d l)).
  { induction l as [|[tx i] l IH]; intros; cbn [insertVotes_loop]; solve_keeps. }
  assert (∀ l, keeps utxoCache (insertMisses_loop c d l)).
  { induction l as [|h l IH]; intros; cbn [insertMisses_loop]; solve_keeps. }
  cbv zeta. solve_keeps.
Qed.
Lemma keeps_setSpending h spends : keeps utxoCache (setSpendingForTickets h spends).
Proof.
  unfold setSpendingForTickets. assert (∀ l, keeps utxoCache (setSpending_loop h l)).
  { induction l as [|sp l IH]; cbn [setSpending_loop]; [done|]. intros s.
    destruct (SetTicketSpending sp h (spend_status sp) (pg_db s)) as [d|]; [|done]. by rewrite (IH (set_db d s)). }
  solve_keeps.
Qed.
Lemma keeps_setStatus l : keeps utxoCache (setPoolStatusForTickets l).
Proof.
  unfold setPoolStatusForTickets. assert (∀ l, keeps utxoCache (setStatus_loop l)).
  { clear l. induction l as [|[i st] l IH]; cbn [setStatus_loop]; [done|]. intros s.
    destruct (SetTicketStatus i st (pg_db s)) as [d|]; [|done]. by rewrite (IH (set_db d s)). }
  solve_keeps.
Qed.
Lemma keeps_ticket_rows hs : keeps utxoCache (ticket_rows hs).
Proof.
  induction hs as [|h hs IH]; cbn [ticket_rows]; [done|]. intros s.
  pose proof (keeps_onTickets (λ sel, getTicketID sel h false) s) as H.
  destruct (onTickets _ s) as [[a|e| |] s']; cbn in H |- *; try done.
  rewrite <- H. revert s'  H. intros s' _. unfold mbind, goM_bind. specialize (IH s'). by destruct (ticket_rows hs s') as [[l|e| |] s2].
Qed.
Hint Resolve keeps_insertTickets keeps_insertVotes keeps_setSpending keeps_setStatus keeps_ticket_rows : keeps.
Lemma keeps_modify_tickets f : keeps utxoCache (modify (λ s, set_tickets (f s) s) : SM unit).
Proof. done. Qed.
Hint Resolve keeps_modify_tickets : keeps.
Lemma keeps_store_stake c d im h vs txns ids msgs : keeps utxoCache (store_stake c d im h vs txns ids msgs).
Proof. unfold store_stake. cbv zeta. solve_keeps. Qed.

Lemma keeps_scan_swaps b tree : keeps utxoCache (scan_swaps b tree).
Proof. unfold scan_swaps. solve_keeps. Qed.

(** ** What the loops do to it *)
Lemma update_cache_post P vouts txns s : (length txns <= length vouts)%nat →
  post P (update_cache vouts txns) s (λ _ s', flat (utxoCache s') = inserts (created txns vouts) (flat (utxoCache s)) ∧
    pg_db s' = pg_db s ∧ unspentTicketCache s' = unspentTicketCache s).
Proof.
  intros Hl. unfold post, update_cache. destruct (updateUtxoCache_flat txns vouts (utxoCache s) Hl) as (u & -> & Hf & _). by cbn.
Qed.

(** Looking for mixed outputs caches some of the previous outputs. *)
Definition more_cached (ks : list outpoint) (s s' : ChainDB) : Prop :=
  ∃ l, Forall (λ k, k ∈ ks) l.*1 ∧ flat (utxoCache s') = inserts l (flat (utxoCache s)) ∧
    pg_db s' = pg_db s ∧ unspentTicketCache s' = unspentTicketCache s.

Lemma more_cached_refl ks s : more_cached ks s s.
Proof. by exists []. Qed.
Lemma more_cached_trans ks1 ks2 s1 s2 s3 : more_cached ks1 s1 s2 → more_cached ks2 s2 s3 → more_cached (ks1 ++ ks2) s1 s3.
Proof.
  intros (l1 & H1 & F1 & D1 & T1) (l2 & H2 & F2 & D2 & T2). exists (l1 ++ l2). split_and!; try congruence.
  - rewrite fmap_app. apply Forall_app. split; (eapply Forall_impl; [eassumption|]); intros k Hk; apply elem_of_app; auto.
  - by rewrite inserts_app, F2, F1.
Qed.

Lemma all_mixed_cached vins : ∀ s m s', all_mixed vins s = (m, s') → more_cached (prevs1 vins) s s'.
Proof.
  induction vins as [|vin vins IH]; intros s m s'; cbn [all_mixed]; [intros [= _ <-]; apply more_cached_refl|].
  rewrite prevs1_cons. unfold has_prev. case_bool_decide as Hz; cbn [negb]; [apply IH|].
  assert (∀ s1 s2, more_cached (prevs1 vins) s1 s2 → more_cached (key vin :: prevs1 vins) s1 s2) as Hw.
  { intros s1 s2 H. apply (more_cached_trans [key vin] _ s1 s1 s2); [apply more_cached_refl|done]. }
  destruct (utxo_Peek _ _ (utxoCache s)) as [utxo|] eqn:Ep.
  { destruct (u_Mixed utxo); [intros H; by apply Hw, (IH s m)|intros [= _ <-]; apply more_cached_refl]. }
  destruct (SelectTxOut _ _ _ (pg_db s)) as [r| |]; [|intros [= _ <-]; apply more_cached_refl..].
  set (s1 := set_utxos _ s). assert (more_cached [key vin] s s1) as H1.
  { exists [(key vin, TxOutData_of_row r)]. split_and!; [by repeat constructor| |done|done].
    unfold s1. cbn [utxoCache set_utxos]. unfold utxo_Set. by rewrite flat_set. }
  destruct (u_Mixed (TxOutData_of_row r)).
  - intros H. apply (more_cached_trans [key vin] _ s s1 s'); [done|by apply (IH s1 m)].
  - intros [= _ <-]. apply (more_cached_trans [key vin] _ s s1 s1); [done|apply more_cached_refl].
Qed.

(** The outputs of a transaction after it has been considered. *)
Definition tagged (vo vo' : list Vout) : Prop := vo' = vo ∨ vo' = set_mixed <$> vo.

Lemma tagged_refl vouts : Forall2 tagged vouts vouts.
Proof. induction vouts; constructor; [by left|done]. Qed.

Lemma tag_mixed_cached txns : ∀ vouts vins s vouts' s', (length txns <= length vouts)%nat → (length txns <= length vins)%nat →
  tag_mixed txns vouts vins s = (vouts', s') → more_cached (prevs txns vins) s s' ∧ Forall2 tagged vouts vouts'.
Proof.
  induction txns as [|tx txns IH]; intros vouts vins s vouts' s' H1 H2; cbn [tag_mixed].
  { intros [= <- <-]. split; [apply more_cached_refl|apply tagged_refl]. }
  destruct vouts as [|vo vouts]; [by cbn in H1; lia|]. destruct vins as [|vi vins]; [by cbn in H2; lia|]. cbn [length] in *.
  unfold prevs. cbn [length take fmap list_fmap concat]. change (concat _) with (prevs txns vins).
  assert (∃ vo1 s1, (if 0 <? t_MixCount tx then (vo, s) else if TxIsRegular (t_TxType tx) then (vo, s)
    else let '(m, s) := all_mixed vi s in (if m : bool then set_mixed <$> vo else vo, s)) = (vo1, s1) ∧
    more_cached (prevs1 vi) s s1 ∧ tagged vo vo1) as (vo1 & s1 & -> & Hc & Ht).
  { assert (tagged vo vo ∧ tagged vo (set_mixed <$> vo)) as [? ?] by (split; [by left|by right]).
    pose proof (more_cached_refl (prevs1 vi) s). destruct (0 <? t_MixCount tx); [eauto|].
    destruct (TxIsRegular (t_TxType tx)); [eauto|]. destruct (all_mixed vi s) as [m s1] eqn:E.
    apply all_mixed_cached in E. destruct m; eauto. }
  destruct (tag_mixed txns vouts vins s1) as [vouts1 s2] eqn:E. intros [= <- <-].
  destruct (IH vouts vins s1 vouts1 s2 ltac:(lia) ltac:(lia) E) as [Hc' HF]. split; [by eapply more_cached_trans|by constructor].
Qed.
(** ** Spending *)
Lemma keeps_insert_spending c d rows : keeps utxoCache (insert_spending c d rows).
Proof. induction rows; cbn [insert_spending]; solve_keeps. Qed.
Lemma keeps_insert_addresses c d rows : keeps utxoCache (insert_addresses c d rows).
Proof. induction rows; cbn [insert_addresses]; solve_keeps. Qed.
Lemma keeps_spent_data vin u : keeps utxoCache (spent_data vin u).
Proof. intros s. unfold spent_data. destruct u; [done|]. by destruct (SelectTxOut _ _ _ _). Qed.
Hint Resolve keeps_insert_spending keeps_insert_addresses keeps_spent_data : keeps.
Lemma keeps_insertAddressRowsDbTx rows c d : keeps utxoCache (insertAddressRowsDbTx rows c d).
Proof. intros s. unfold insertAddressRowsDbTx. destruct (PrepareOK _ _); [apply keeps_insert_addresses|done]. Qed.
Lemma keeps_insertSpending c d f tx vin id u : keeps utxoCache (insertSpendingAddressRow c d f tx vin id u).
Proof. unfold insertSpendingAddressRow. solve_keeps. Qed.
Lemma keeps_setSpendingForVouts ids i : keeps utxoCache (setSpendingForVouts ids i).
Proof. unfold setSpendingForVouts. solve_keeps. Qed.
Hint Resolve keeps_insertAddressRowsDbTx keeps_insertSpending keeps_setSpendingForVouts : keeps.

Lemma post_or_rollback P {A} (m : SM A) s Q : post P m s Q → post P (or_rollback m) s Q.
Proof. unfold post, or_rollback. by destruct (m s) as [[a|e| |] s']. Qed.

Lemma post_any {A} (m : SM A) s : post True m s (λ _ _, True).
Proof. unfold post. by destruct (m s) as [[a|e| |] s']. Qed.

(** The data of a cached output decides what is reported about it. *)
Lemma insertSpending_cached c d f tx vin id u s :
  post True (insertSpendingAddressRow c d f tx vin id (Some u)) s (λ r _, r = (u_Addresses u, u_VoutDbID u, u_Mixed u)).
Proof.
  unfold insertSpendingAddressRow. apply post_bind. cbn [post spent_data]. apply post_bind.
  eapply post_mono; [apply post_any|]. intros _ s1 _. apply post_bind. eapply post_mono; [apply post_any|]. by intros _ s2 _.
Qed.

Definition mixed_at (M : gmap outpoint UTXOData) (k : outpoint) : bool :=
  match M !! k with Some d => u_Mixed d | None => false end.

(** The values of the inputs that spend mixed outputs. *)
Definition spent_mixed (M : gmap outpoint UTXOData) (vins : list VinTxProperty) : list Z :=
  vin_ValueIn <$> filter (λ v, has_prev v && mixed_at M (key v)) vins.
Lemma spent_mixed_cons M vin vins :
  spent_mixed M (vin :: vins) = if has_prev vin && mixed_at M (key vin) then vin_ValueIn vin :: spent_mixed M vins else spent_mixed M vins.
Proof. unfold spent_mixed. rewrite filter_cons. by destruct (has_prev vin && mixed_at M (key vin)). Qed.

Definition sub64 (m : Z) (l : list Z) : Z := foldl (λ m v, i64 (m - v)) m l.

(** All outputs that are spent are cached, with the data of [M]. *)
Definition cached_in (M : gmap outpoint UTXOData) (ks : list outpoint) (m : gmap outpoint UTXOData) : Prop :=
  NoDup ks ∧ ∀ k, k ∈ ks → is_Some (M !! k) ∧ m !! k = M !! k.

Lemma spend_vins_post c d f im tx M vins : ∀ iv ids acc s,
  post True (spend_vins c d f im tx iv vins ids acc) s (λ r s',
    flat (utxoCache s') = deletes (prevs1 vins) (flat (utxoCache s)) ∧
    (cached_in M (prevs1 vins) (flat (utxoCache s)) →
     a_mix r.2 = if t_IsValid tx && im then sub64 (a_mix acc) (spent_mixed M vins) else a_mix acc)).
Proof.
  induction vins as [|vin vins IH]; intros iv ids acc s; cbn [spend_vins].
  { apply post_ret. split; [done|]. intros _. by destruct (t_IsValid tx && im). }
  rewrite prevs1_cons, spent_mixed_cons. unfold has_prev. case_bool_decide as Hz; cbn [negb andb]; [apply IH|].
  destruct (slice_at (t_VinDbIds tx) iv) as [vinDbID|]; [|done].
  apply post_bind. unfold post at 1, evict. destruct (Get_flat (vin_PrevTxHash vin) (vin_PrevTxIndex vin) (utxoCache s)) as (u & Eg & Hf & _).
  rewrite Eg. set (s1 := set_utxos u s). apply post_bind.
  pose proof (keeps_post True utxoCache _ s1 _ (keeps_or_rollback _ (keeps_insertSpending c d f tx vin vinDbID (flat (utxoCache s) !! key vin))) (post_any _ s1)) as Hp.
  assert (∀ x, flat (utxoCache s) !! key vin = Some x →
    post True (or_rollback (insertSpendingAddressRow c d f tx vin vinDbID (Some x))) s1
      (λ r _, r = (u_Addresses x, u_VoutDbID x, u_Mixed x))) as Hx.
  { intros x _. apply post_or_rollback, insertSpending_cached. }
  fold (key vin). destruct (flat (utxoCache s) !! key vin) as [x|] eqn:Ek.
  - pose proof (post_and _ _ _ _ _ Hp (Hx x eq_refl)) as Hb. eapply post_mono; [exact Hb|].
    intros [[addrs vid] mixed] s2 [[_ Hs2] [= -> -> ->]].
    eapply post_mono; [apply IH|]. intros [ids' acc'] s' [H1 H2]. cbn [fst snd] in *.
    rewrite H1, Hs2. unfold s1. cbn [utxoCache set_utxos]. rewrite Hf. split; [done|].
    intros [Hn Hc]. apply NoDup_cons in Hn as [Hk Hn]. rewrite H2.
    + assert (M !! key vin = Some x) as HM by (rewrite <- Ek; symmetry; apply Hc; by left).
      unfold mixed_at. rewrite HM. cbn [a_mix]. destruct (u_Mixed x), (t_IsValid tx), im; done.
    + split; [done|]. intros k Hin. rewrite Hs2. unfold s1. cbn [utxoCache set_utxos]. rewrite Hf.
      destruct (Hc k ltac:(by right)) as [Hs Hm]. split; [done|]. rewrite <- Hm. fold (key vin).
      rewrite lookup_delete_ne; [done|]. intros E. by rewrite E in Hk.
  - eapply post_mono; [exact Hp|]. intros [[addrs vid] mixed] s2 [_ Hs2].
    eapply post_mono; [apply IH|]. intros [ids' acc'] s' [H1 _]. rewrite H1, Hs2. unfold s1. cbn [utxoCache set_utxos].
    rewrite Hf. split; [done|]. intros [_ Hc]. destruct (Hc (key vin) ltac:(by left)) as [[y Hy] Hm]. congruence.
Qed.

(** The values spent from the mix set by the valid transactions. *)
Fixpoint spent_mixed_all (M : gmap outpoint UTXOData) (txns : list Tx) (vins : list (list VinTxProperty)) : list Z :=
  match txns, vins with
  | tx :: txns, vi :: vins => (if t_IsValid tx then spent_mixed M vi else []) ++ spent_mixed_all M txns vins
  | _, _ => []
  end.

Lemma spend_txns_post c d f im M txns : ∀ vins ids acc s,
  post True (spend_txns c d f im txns vins ids acc) s (λ acc' s',
    flat (utxoCache s') = deletes (prevs txns vins) (flat (utxoCache s)) ∧
    (cached_in M (prevs txns vins) (flat (utxoCache s)) →
     a_mix acc' = if im then sub64 (a_mix acc) (spent_mixed_all M txns vins) else a_mix acc)).
Proof.
  induction txns as [|tx txns IH]; intros vins ids acc s; cbn [spend_txns].
  { apply post_ret. unfold prevs. cbn [length take]. rewrite take_0. split; [done|]. intros _. by destruct im. }
  destruct vins as [|vi vins]; [done|]. destruct ids as [|id ids]; [done|].
  change (prevs (tx :: txns) (vi :: vins)) with (prevs1 vi ++ prevs txns vins).
  apply post_bind. eapply post_mono; [apply (spend_vins_post c d f im tx M)|]. intros [vids acc1] s1 [H1 H2].
  apply post_bind.
  match goal with |- post True ?m s1 _ => assert (keeps utxoCache m) as Hk by (destruct (t_IsValid tx && im && _); solve_keeps) end.
  eapply post_mono; [apply (keeps_post True utxoCache _ s1 _ Hk (post_any _ s1))|]. intros _ s2 [_ Hs2].
  eapply post_mono; [apply IH|]. intros acc' s' [H3 H4]. cbn [snd] in *. split.
  - rewrite H3, Hs2, H1. unfold deletes. by rewrite foldl_app.
  - intros [Hn Hc]. apply NoDup_app in Hn as (Hn1 & Hd & Hn2).
    assert (cached_in M (prevs1 vi) (flat (utxoCache s))) as Hc1.
    { split; [done|]. intros k Hk1. apply Hc. apply elem_of_app. by left. }
    rewrite H4, (H2 Hc1).
    + cbn [spent_mixed_all]. destruct im; [|by rewrite andb_false_r]. rewrite andb_true_r.
      destruct (t_IsValid tx); [|done]. unfold sub64. by rewrite foldl_app.
    + split; [done|]. intros k Hk2. destruct (Hc k ltac:(apply elem_of_app; by right)) as [Hs Hm]. split; [done|].
      rewrite Hs2, H1, deletes_lookup, decide_False; [done|]. intros Hk1. by apply (Hd k).
Qed.

(** ** Tagging when all previous outputs are cached *)
Definition tag_tx (m : gmap outpoint UTXOData) (tx : Tx) (vo : list Vout) (vi : list VinTxProperty) : list Vout :=
  if 0 <? t_MixCount tx then vo
  else if TxIsRegular (t_TxType tx) then vo
  else if forallb (λ v, negb (has_prev v) || mixed_at m (key v)) vi then set_mixed <$> vo else vo.
Fixpoint tag_all (m : gmap outpoint UTXOData) (txns : list Tx) (vouts : list (list Vout)) (vins : list (list VinTxProperty))
    : list (list Vout) :=
  match txns, vouts, vins with
  | tx :: txns, vo :: vouts, vi :: vins => tag_tx m tx vo vi :: tag_all m txns vouts vins
  | _, _, _ => vouts
  end.

Definition all_cached (m : gmap outpoint UTXOData) (ks : list outpoint) : Prop := ∀ k, k ∈ ks → is_Some (m !! k).

Lemma all_mixed_spec vins s : all_cached (flat (utxoCache s)) (prevs1 vins) →
  all_mixed vins s = (forallb (λ v, negb (has_prev v) || mixed_at (flat (utxoCache s)) (key v)) vins, s).
Proof.
  induction vins as [|vin vins IH]; [done|]. rewrite prevs1_cons. cbn [all_mixed forallb]. unfold has_prev at 1 2.
  case_bool_decide as Hz; cbn [negb orb andb]; [exact IH|]. intros Hc.
  destruct (Hc (key vin) ltac:(by left)) as [d Hd]. unfold mixed_at at 1. rewrite Hd.
  unfold key in Hd. rewrite flat_lookup in Hd. rewrite Hd. destruct (u_Mixed d); [|done]. apply IH. intros k Hk. apply Hc. by right.
Qed.

Lemma tag_mixed_spec txns : ∀ vouts vins s, all_cached (flat (utxoCache s)) (prevs txns vins) →
  tag_mixed txns vouts vins s = (tag_all (flat (utxoCache s)) txns vouts vins, s).
Proof.
  induction txns as [|tx txns IH]; intros vouts vins s Hc; [done|]. cbn [tag_mixed tag_all].
  destruct vouts as [|vo vouts]; [done|]. destruct vins as [|vi vins]; [done|].
  change (prevs (tx :: txns) (vi :: vins)) with (prevs1 vi ++ prevs txns vins) in Hc.
  assert (all_cached (flat (utxoCache s)) (prevs1 vi)) as H1 by (intros k Hk; apply Hc, elem_of_app; by left).
  assert (all_cached (flat (utxoCache s)) (prevs txns vins)) as H2 by (intros k Hk; apply Hc, elem_of_app; by right).
  unfold tag_tx. rewrite (all_mixed_spec vi s H1).
  destruct (0 <? t_MixCount tx); [by rewrite IH|]. destruct (TxIsRegular (t_TxType tx)); [by rewrite IH|].
  by rewrite IH.
Qed.

(** ** Inserting the rows changes only the row IDs *)
Definition same_tx (tx t : Tx) : Prop := ∃ vo a c, t = set_ids tx vo a c.

Lemma storeTxns_loop_post c d txns : ∀ vouts vins s,
  post True (storeTxns_loop c d txns vouts vins) s (λ r _, Forall2 same_tx txns r.1).
Proof.
  induction txns as [|tx txns IH]; intros vouts vins s; cbn [storeTxns_loop]; [apply post_ret; constructor|].
  destruct vouts as [|vo vouts]; [done|]. destruct vins as [|vi vins]; [done|].
  apply post_bind. eapply post_mono; [apply post_any|]. intros [ids rows] s1 _.
  apply post_bind. eapply post_mono; [apply post_any|]. intros vids s2 _.
  apply post_bind. eapply post_mono; [apply IH|]. intros [ts rs] s3 H. apply post_ret. constructor; [|done].
  by exists vo, ids, vids.
Qed.

Lemma post_result P {A} (m : SM A) s Q : post P m s Q → post P m s (λ a s', m s = (Ok a, s') ∧ Q a s').
Proof. unfold post. by destruct (m s) as [[a|e| |] s']. Qed.
Lemma storeTxns_post c d txns vouts vins s :
  post True (storeTxns c txns vouts vins d) s (λ r s', storeTxns c txns vouts vins d s = (Ok r, s') ∧ Forall2 same_tx txns r.1.1 ∧ utxoCache s' = utxoCache s).
Proof.
  apply post_result. apply (keeps_post True utxoCache); [apply keeps_storeTxns|]. unfold storeTxns.
  do 3 (apply post_bind; eapply post_mono; [apply post_any|]; intros ? ? _).
  apply post_bind. eapply post_mono; [apply storeTxns_loop_post|]. intros [ts rows] s1 H.
  do 2 (apply post_bind; eapply post_mono; [apply post_any|]; intros ? ? _). by apply post_ret.
Qed.

(** Keys and flags do not depend on the row IDs. *)
Definition flags (l : list UTXO) : list (outpoint * bool) := prod_map id u_Mixed <$> l.
Lemma flags_keys l : l.*1 = (flags l).*1.
Proof. unfold flags. rewrite <- list_fmap_compose. by apply list_fmap_ext. Qed.

Lemma utxos_of_flags tx t vo : flags (utxos_of tx vo) = flags (utxos_of t vo).
Proof.
  unfold utxos_of, flags. generalize (length vo) as n. generalize (t_VoutDbIds tx), (t_VoutDbIds t). intros l1 l2 n.
  assert (∀ f g : nat → Vout → option UTXO, (∀ i v, prod_map id u_Mixed <$> f i v = prod_map id u_Mixed <$> g i v) →
    prod_map id u_Mixed <$> omap id (imap f vo) = prod_map id u_Mixed <$> omap id (imap g vo)) as G; [|apply G].
  - induction vo as [|v vo IH]; intros f g H; [done|]. rewrite !imap_cons. pose proof (H 0%nat v) as H0.
    specialize (IH (f ∘ S) (g ∘ S) (λ i, H (S i))). cbn [omap list_omap]. unfold id at 1 3.
    destruct (f 0%nat v) as [p|], (g 0%nat v) as [q|]; try done.
    assert (prod_map id u_Mixed p = prod_map id u_Mixed q) as Hp by by apply (inj Some).
    by apply (f_equal2 cons).
  - intros i v. unfold utxo_of. by destruct (_ && _).
Qed.

Lemma created_flags txns ts : length txns = length ts → ∀ vouts, flags (created txns vouts) = flags (created ts vouts).
Proof.
  revert ts. induction txns as [|tx txns IH]; intros [|t ts] Hl vouts; try done. destruct vouts as [|vo vouts]; [done|].
  change (created (tx :: txns) (vo :: vouts)) with (utxos_of tx vo ++ created txns vouts).
  change (created (t :: ts) (vo :: vouts)) with (utxos_of t vo ++ created ts vouts).
  unfold flags. rewrite !fmap_app. f_equal; [apply utxos_of_flags|]. apply IH. by injection Hl.
Qed.

Lemma tagged_keys tx vo vo' : tagged vo vo' → (utxos_of tx vo).*1 = (utxos_of tx vo').*1.
Proof.
  intros [->| ->]; [done|]. unfold utxos_of. rewrite length_fmap. generalize (length vo). intros n.
  assert (∀ f : nat → Vout → option UTXO, (∀ i v, fst <$> f i v = fst <$> f i (set_mixed v)) →
    (omap id (imap f vo)).*1 = (omap id (imap f (set_mixed <$> vo))).*1) as G; [|apply G; intros i v; unfold utxo_of; cbn; by destruct (_ && _)].
  induction vo as [|v vo IH]; intros f H; [done|]. cbn [fmap list_fmap]. rewrite !imap_cons. pose proof (H 0%nat v) as H0.
  specialize (IH (f ∘ S) (λ i, H (S i))). cbn [omap list_omap]. unfold id at 1 3.
  destruct (f 0%nat v), (f 0%nat (set_mixed v)); try done. cbn in *. injection H0 as H0. f_equal; [exact H0|exact IH].
Qed.

Lemma created_keys txns vouts vouts' : Forall2 tagged vouts vouts' → (created txns vouts).*1 = (created txns vouts').*1.
Proof.
  intros HF. revert txns. induction HF as [|vo vo' vouts vouts' Ht _ IH]; intros [|tx txns]; try done.
  change (created (tx :: txns) (vo :: vouts)) with (utxos_of tx vo ++ created txns vouts).
  change (created (tx :: txns) (vo' :: vouts')) with (utxos_of tx vo' ++ created txns vouts').
  rewrite !fmap_app. f_equal; [by apply tagged_keys|apply IH].
Qed.

Lemma mixed_at_flags l l' m : flags l = flags l' → ∀ k, mixed_at (inserts l m) k = mixed_at (inserts l' m) k.
Proof.
  intros Hf k. unfold mixed_at.
  assert (∀ l m, (u_Mixed <$> inserts l m) = foldl (λ m '(k, b), <[k := b]> m) (u_Mixed <$> m) (flags l)) as G.
  { clear. induction l as [|[k d] l IH]; intros m; [done|].
    change (inserts _ m) with (inserts l (<[k := d]> m)). by rewrite IH, fmap_insert. }
  assert ((u_Mixed <$> inserts l m) !! k = (u_Mixed <$> inserts l' m) !! k) as E by (by rewrite !G, Hf).
  rewrite !lookup_fmap in E. destruct (inserts l m !! k), (inserts l' m !! k); cbn in E; congruence.
Qed.

(** ** The whole tree *)
Context {fl : SSFeeLib} {lib : BlockLib} {RM RS RV : RangeOrder Z Z}.
Abbreviation Extract := (ExtractBlockTransactions (RM:=RM) (RS:=RS) (RV:=RV)).
Abbreviation storeTree := (storeBlockTxnTree (RM:=RM) (RS:=RS) (RV:=RV)).

Lemma extract_lengths b tree iv im txns vouts vins : Extract b tree iv im = (txns, vouts, vins) →
  (length txns <= length vouts)%nat ∧ (length txns <= length vins)%nat.
Proof.
  rewrite Extract_loop. generalize 0%nat as n. revert txns vouts vins.
  induction (tree_txs b tree) as [|tx txs IH]; intros txns vouts vins n; cbn [BlockTxns.process_loop]; [by intros [= <- <- <-]|].
  destruct (BlockTxns.process_loop b tree iv im (S n) txs) as [[t o] i] eqn:E. destruct (IH _ _ _ _ E).
  destruct (process_tx b tree iv im n tx) as [[[? ?] ?]|]; intros [= <- <- <-]; cbn; lia.
Qed.

Lemma same_tx_valid txns ts : Forall2 same_tx txns ts → t_IsValid <$> ts = t_IsValid <$> txns.
Proof. induction 1 as [|tx t txns ts (vo & a & c & ->) _ IH]; [done|]. cbn. by rewrite IH. Qed.

Lemma spent_mixed_all_valid M txns : ∀ ts vins, t_IsValid <$> ts = t_IsValid <$> txns →
  spent_mixed_all M ts vins = spent_mixed_all M txns vins.
Proof.
  induction txns as [|tx txns IH]; intros [|t ts] vins; cbn; [done..|]. intros [= Ht H].
  destruct vins as [|vi vins]; [done|]. by rewrite Ht, (IH _ _ H).
Qed.

(** What a call that succeeds has done to the cache and to the mix set. *)
Definition stored (im : bool) (txns : list Tx) (vouts : list (list Vout)) (vins : list (list VinTxProperty))
    (m : gmap outpoint UTXOData) (vouts' : list (list Vout)) (m2 : gmap outpoint UTXOData) (ts : list Tx)
    (r : storeTxnsResult) (s' : ChainDB) : Prop :=
  Forall2 same_tx txns ts ∧ Forall2 tagged vouts vouts' ∧
  (∃ l, Forall (λ k, k ∈ prevs txns vins) l.*1 ∧ m2 = inserts l (inserts (created txns vouts) m)) ∧
  flat (utxoCache s') = deletes (prevs txns vins) (inserts (created ts vouts') m2) ∧
  (NoDup (prevs txns vins) → all_cached (inserts (created ts vouts') m2) (prevs txns vins) →
   mixSetDelta r = if im then sub64 (mix_created txns vouts' 0) (spent_mixed_all (inserts (created ts vouts') m2) txns vins) else 0).

Lemma storeBlockTxnTree_post dup b validators tree iv im update fund txns vouts vins s s1 vouts' s2 :
  Extract b tree iv im = (txns, vouts, vins) →
  update_cache vouts txns s = (Ok tt, s1) → tag_mixed txns vouts vins s1 = (vouts', s2) →
  post True (storeTree dup b validators tree iv im update fund) s
    (λ r s', ∃ ts, (∃ rows ids s3, storeTxns dup txns vouts' vins update s2 = (Ok (ts, rows, ids), s3)) ∧ stored im txns vouts vins (flat (utxoCache s)) vouts' (flat (utxoCache s2)) ts r s').
Proof.
  intros E E1 E2. destruct (extract_lengths _ _ _ _ _ _ _ E) as [Hl1 Hl2]. unfold storeBlockTxnTree. rewrite E.
  apply post_bind. pose proof (update_cache_post True vouts txns s Hl1) as H1. unfold post in H1. rewrite E1 in H1.
  unfold post at 1. rewrite E1. destruct H1 as (Hf1 & Hd1 & Ht1).
  apply post_bind. unfold post at 1. rewrite E2.
  destruct (tag_mixed_cached _ _ _ _ _ _ Hl1 Hl2 E2) as [(l & Hl & Hf2 & _) HF].
  apply post_bind. eapply post_mono; [apply storeTxns_post|]. intros [[ts rows] ids] s3 (Erun & Hsame & Hu3). cbn [fst] in Hsame.
  pose proof (Forall2_length _ _ _ Hsame) as Hlt. pose proof (Forall2_length _ _ _ HF) as Hlv.
  apply post_bind. eapply post_mono; [apply (update_cache_post True vouts' ts s3); lia|]. intros _ s4 (Hf4 & _).
  rewrite Hu3 in Hf4. set (M := inserts (created ts vouts') (flat (utxoCache s2))) in *.
  apply post_bind.
  match goal with |- post True ?m s4 _ => assert (keeps utxoCache m) as Hk by (destruct (tree =? TxTreeStake); solve_keeps) end.
  eapply post_mono; [apply (keeps_post True utxoCache _ s4 _ Hk (post_any _ s4))|]. intros _ s5 [_ Hu5].
  apply post_bind. eapply post_mono; [apply (keeps_post True utxoCache _ s5 _ keeps_begin (post_any _ s5))|]. intros _ s6 [_ Hu6].
  apply post_bind.
  eapply post_mono; [apply (keeps_post True utxoCache _ s6 _ (keeps_or_rollback _ (keeps_insertAddressRowsDbTx _ dup update)) (post_any _ s6))|].
  intros _ s7 [_ Hu7]. apply post_bind. eapply post_mono; [apply (spend_txns_post dup update fund im M)|].
  intros acc s7' [H8 Hmix]. apply post_bind.
  eapply post_mono; [apply (keeps_post True utxoCache _ s7' _ (keeps_scan_swaps b tree) (post_any _ s7'))|]. intros _ s8 [_ Hu8]. rewrite Hu7, Hu6, Hu5, Hf4 in H8, Hmix. rewrite <- Hu8 in H8.
  apply post_bind. eapply post_mono; [apply (keeps_post True utxoCache _ s8 _ keeps_commit (post_any _ s8))|]. intros _ s9 [_ Hu9].
  assert (prevs ts vins = prevs txns vins) as Hp by (unfold prevs; by rewrite Hlt).
  rewrite Hp in H8, Hmix. apply post_ret. exists ts. split; [by eauto|]. split_and!; [done..| | |].
  - exists l. split; [done|]. by rewrite Hf2, Hf1.
  - by rewrite Hu9.
  - intros Hn Hc. cbn [mixSetDelta]. rewrite Hmix by (split; [done|]; intros k Hin; split; [by apply Hc|done]). cbn [a_mix].
    destruct im; [|done]. by rewrite (spent_mixed_all_valid _ txns ts) by by apply same_tx_valid.
Qed.

(** *** The cache *)
Lemma elem_of_created k d txns : ∀ vouts, (k, d) ∈ created txns vouts →
  ∃ i j tx vo v, txns !! i = Some tx ∧ vouts !! i = Some vo ∧ vo !! j = Some v ∧
    utxo_of (t_VoutDbIds tx) (length vo) j v = Some (k, d).
Proof.
  induction txns as [|tx txns IH]; intros [|vo vouts]; try by intros ?%elem_of_nil.
  change (created (tx :: txns) (vo :: vouts)) with (utxos_of tx vo ++ created txns vouts).
  rewrite elem_of_app. intros [Hk|Hk].
  - unfold utxos_of in Hk. apply list_elem_of_omap in Hk as (x & Hx & Hid). apply elem_of_lookup_imap_1 in Hx as (j & v & -> & Hj).
    by exists 0%nat, j, tx, vo, v.
  - destruct (IH _ Hk) as (i & j & t & vo' & v & H). by exists (S i), j, t, vo', v.
Qed.

(** The data cached for an output: that of the output, with its tag as mixed,
    and the ID of its row, if the rows of all outputs of its transaction have
    one. *)
Definition describes (ts : list Tx) (vouts : list (list Vout)) (k : outpoint) (d : UTXOData) : Prop :=
  ∃ i j t vo v, ts !! i = Some t ∧ vouts !! i = Some vo ∧ vo !! j = Some v ∧ k = (v_TxHash v, v_TxIndex v) ∧
    d = mkUtxo (v_Addresses v) (i64 (v_Value v)) (v_Mixed v)
          (if decide (length (t_VoutDbIds t) = length vo) then i64 (default 0 (t_VoutDbIds t !! j)) else -1) (v_CoinType v) (v_SKAValue v).

Lemma created_describes ts vouts k d : (k, d) ∈ created ts vouts → describes ts vouts k d.
Proof.
  intros Hk. destruct (elem_of_created _ _ _ _ Hk) as (i & j & t & vo & v & Ht & Hi & Hj & Hu).
  unfold utxo_of in Hu. destruct (_ && _); [done|]. injection Hu as <- <-. exists i, j, t, vo, v. split_and!; [done..|].
  by destruct (decide _) as [E|E]; [rewrite bool_decide_true|rewrite bool_decide_false].
Qed.

(** C3: After a tree is stored, no previous output of its transactions is
    cached; an output of the tree that is not spent in it is (those of no value
    in VAR excepted), with its addresses and amounts, with the tag as mixed that
    it has got, and with the ID that its row was given when it was inserted; and
    nothing else has changed. *)
Theorem cache_after_store dup b validators tree iv im update fund txns vouts vins s r s' k :
  Extract b tree iv im = (txns, vouts, vins) →
  storeTree dup b validators tree iv im update fund s = (Ok r, s') →
  let cached u := flat (utxoCache u) !! k in
  ∃ s1 vouts' s2 ts rows ids s3,
  update_cache vouts txns s = (Ok tt, s1) ∧ tag_mixed txns vouts vins s1 = (vouts', s2) ∧
  storeTxns dup txns vouts' vins update s2 = (Ok (ts, rows, ids), s3) ∧ Forall2 tagged vouts vouts' ∧
  (k ∈ prevs txns vins → cached s' = None) ∧
  (k ∉ prevs txns vins → k ∉ (created txns vouts).*1 → cached s' = cached s) ∧
  (k ∉ prevs txns vins → k ∈ (created txns vouts).*1 → ∃ d, cached s' = Some d ∧ describes ts vouts' k d).
Proof.
  intros E Hr cached. destruct (extract_lengths _ _ _ _ _ _ _ E) as [Hl1 Hl2].
  destruct (updateUtxoCache_flat txns vouts (utxoCache s) Hl1) as (u & Eu & _).
  set (s1 := set_utxos u s). assert (update_cache vouts txns s = (Ok tt, s1)) as E1 by (unfold update_cache; by rewrite Eu).
  destruct (tag_mixed txns vouts vins s1) as [vouts' s2] eqn:E2.
  pose proof (storeBlockTxnTree_post dup b validators tree iv im update fund _ _ _ s s1 vouts' s2 E E1 E2) as Hp.
  apply (post_Ok _ _ _ _ _ _ Hp) in Hr as (ts & (rows & ids & s3 & Erun) & Hsame & Htag & (l & Hl & Hm2) & Hf & _).
  exists s1, vouts', s2, ts, rows, ids, s3. do 4 (split; [done|]). unfold cached. rewrite Hf, deletes_lookup, Hm2.
  assert ((created ts vouts').*1 = (created txns vouts).*1) as Hkeys.
  { rewrite (created_keys _ _ _ Htag), !flags_keys. f_equal. symmetry. by apply created_flags, (Forall2_length _ _ _ Hsame). }
  split_and!; [by intros ?; rewrite decide_True|intros Hk Hc; rewrite decide_False by done..].
  - rewrite inserts_notin by by rewrite Hkeys. rewrite inserts_notin, inserts_notin; [done|done|].
    intros Hin. rewrite Forall_forall in Hl. by apply Hk, Hl.
  - destruct (inserts_in (created ts vouts') k ltac:(by rewrite Hkeys)) as (d & Hd & HM). exists d.
    split; [apply HM|]. by eapply created_describes.
Qed.

(** *** The mix set *)
(** The values of the mixed outputs of the valid transactions. *)
Fixpoint created_mixed (txns : list Tx) (vouts : list (list Vout)) : list Z :=
  match txns, vouts with
  | tx :: txns, vo :: vouts =>
    (if t_IsValid tx then v_Value <$> filter (λ v, v_Mixed v) vo else []) ++ created_mixed txns vouts
  | _, _ => []
  end.

Lemma mix_fold vo : ∀ m, foldl (λ d v, if v_Mixed v then i64 (d + i64 (v_Value v)) else d) (i64 m) vo =
  i64 (m + zsum (v_Value <$> filter (λ v, v_Mixed v) vo)).
Proof.
  induction vo as [|v vo IH]; intros m; [by rewrite Z.add_0_r|]. rewrite filter_cons. cbn [foldl].
  destruct (v_Mixed v); cbn [Is_true]; [|by rewrite IH]. rewrite decide_True by done. cbn [fmap list_fmap zsum]. unfold i64 in *.
  rewrite wrap_s_add_idemp_l, Z.add_comm, wrap_s_add_idemp_l, IH by done. f_equal.
  change (zsum (v_Value v :: ?l)) with (v_Value v + zsum l). lia.
Qed.

Lemma mix_created_spec txns : ∀ vouts m, mix_created txns vouts (i64 m) = i64 (m + zsum (created_mixed txns vouts)).
Proof.
  induction txns as [|tx txns IH]; intros [|vo vouts] m; cbn [mix_created created_mixed]; try by rewrite Z.add_0_r.
  rewrite zsum_app. destruct (t_IsValid tx).
  - rewrite mix_fold, IH. f_equal. lia.
  - rewrite IH. f_equal. 
Qed.

Lemma sub64_spec l : ∀ m, sub64 (i64 m) l = i64 (m - zsum l).
Proof.
  induction l as [|v l IH]; intros m; [by rewrite Z.sub_0_r|]. change (sub64 (i64 m) (v :: l)) with (sub64 (i64 (i64 m - v)) l).
  unfold i64 in *. replace (wrap_s 64 m - v) with (wrap_s 64 m + - v) by lia. rewrite wrap_s_add_idemp_l, IH by done.
  f_equal. change (zsum (v :: l)) with (v + zsum l). lia.
Qed.

Lemma spent_mixed_all_ext M M' txns : (∀ k, mixed_at M k = mixed_at M' k) → ∀ vins,
  spent_mixed_all M txns vins = spent_mixed_all M' txns vins.
Proof.
  intros H. assert (∀ vi, spent_mixed M vi = spent_mixed M' vi) as H1.
  { induction vi as [|v vi IH]; [done|]. by rewrite !spent_mixed_cons, IH, H. }
  induction txns as [|tx txns IH]; intros [|vi vins]; cbn [spent_mixed_all]; [done..|]. by rewrite H1, IH.
Qed.

(** C20: When every previous output of a tree is cached or created in it, and none
    is spent twice, the change of the mix set is what the valid transactions
    add in mixed outputs less what they spend of them; the outputs of a stake
    transaction are mixed if all of its previous outputs are. *)
Theorem mix_set_accounting dup b validators tree iv im update fund txns vouts vins s r s' :
  Extract b tree iv im = (txns, vouts, vins) →
  storeTree dup b validators tree iv im update fund s = (Ok r, s') →
  let m1 := inserts (created txns vouts) (flat (utxoCache s)) in
  let vouts' := tag_all m1 txns vouts vins in
  let M := inserts (created txns vouts') m1 in
  NoDup (prevs txns vins) → all_cached m1 (prevs txns vins) →
  mixSetDelta r =
    if im then i64 (zsum (created_mixed txns vouts') - zsum (spent_mixed_all M txns vins)) else 0.
Proof.
  intros E Hr m1 vouts' M Hn Hc. destruct (extract_lengths _ _ _ _ _ _ _ E) as [Hl1 Hl2].
  destruct (updateUtxoCache_flat txns vouts (utxoCache s) Hl1) as (u & Eu & Hfu & _).
  set (s1 := set_utxos u s). assert (update_cache vouts txns s = (Ok tt, s1)) as E1 by (unfold update_cache; by rewrite Eu).
  assert (flat (utxoCache s1) = m1) as Hm1 by done.
  assert (tag_mixed txns vouts vins s1 = (vouts', s1)) as E2 by (rewrite tag_mixed_spec; by rewrite Hm1).
  pose proof (storeBlockTxnTree_post dup b validators tree iv im update fund _ _ _ s s1 vouts' s1 E E1 E2) as Hp.
  destruct (post_Ok _ _ _ _ _ _ Hp Hr) as (ts & _ & Hsame & Htag & _ & _ & Hmix). rewrite Hm1 in Hmix.
  pose proof (Forall2_length _ _ _ Hsame) as Hlen.
  rewrite Hmix; [|done|].
  - destruct im; [|done]. change 0 with (i64 0) at 1. rewrite mix_created_spec, sub64_spec. f_equal. f_equal. f_equal.
    apply spent_mixed_all_ext. intros k. apply mixed_at_flags. symmetry. by apply created_flags.
  - intros k Hk. destruct (decide (k ∈ (created ts vouts').*1)) as [Hi|Hi].
    + destruct (inserts_in _ _ Hi) as (d & _ & HM). rewrite HM. eauto.
    + rewrite inserts_notin by done. by apply Hc.
Qed.

(** *** Transactions without previous outputs *)
Lemma tag_mixed_lookup txns : ∀ vouts vins s vouts' s' k tx vo vi,
  tag_mixed txns vouts vins s = (vouts', s') → txns !! k = Some tx → vouts !! k = Some vo → vins !! k = Some vi →
  t_MixCount tx <= 0 → TxIsRegular (t_TxType tx) = false → Forall (λ v, has_prev v = false) vi →
  vouts' !! k = Some (set_mixed <$> vo).
Proof.
  induction txns as [|t txns IH]; intros [|o vouts] [|i vins] s vouts' s' k tx vo vi; try done. cbn [tag_mixed].
  destruct (if 0 <? t_MixCount t then _ else _) as [o' s1] eqn:E. destruct (tag_mixed txns vouts vins s1) as [l s2] eqn:El.
  intros [= <- <-]. destruct k as [|k]; [|by apply (IH _ _ _ _ _ _ tx vo vi El)]. cbn. intros [= ->] [= ->] [= ->] Hm Hr Hf.
  rewrite (proj2 (Z.ltb_ge _ _)), Hr in E by lia.
  assert (all_mixed vi s = (true, s)) as Ha.
  { clear -Hf. induction Hf as [|v vi Hv _ IH]; [done|]. cbn [all_mixed]. unfold has_prev in Hv.
    by case_bool_decide. }
  rewrite Ha in E. by injection E as <- _.
Qed.

(** All outputs of a stake transaction without previous outputs, like the
    base transaction of the treasury, are tagged as mixed, and count in the mix
    set: there is no previous output that is not mixed. *)
Theorem null_inputs_tagged b iv im txns vouts vins s vouts' s' k tx :
  Extract b TxTreeStake iv im = (txns, vouts, vins) → tag_mixed txns vouts vins s = (vouts', s') →
  mb_STransactions b !! k = Some tx → isStake tx = true →
  Forall (λ i, op_Hash (ti_PreviousOutPoint i) = zeroHash) (tx_TxIn tx) →
  ∃ vo, vouts' !! k = Some vo ∧ length vo = length (tx_TxOut tx) ∧ Forall (λ v, v_Mixed v = true) vo.
Proof.
  rewrite Extract_loop. intros E Ht Hk Hs Hf.
  assert (Forall (in_tree TxTreeStake) (tree_txs b TxTreeStake)) as Hin by (apply Forall_forall; by intros x _).
  destruct (process_loop_rows b TxTreeStake iv im _ Hin 0 _ _ _ E) as (_ & _ & _ & H).
  destruct (H k tx Hk) as (t & vo & vi & Etx & Evo & Evi & Hrow).
  assert (has_prev <$> vi = (λ i, negb (bool_decide (op_Hash (ti_PreviousOutPoint i) = zeroHash))) <$> tx_TxIn tx) as Hp.
  { apply (list_eq_same_length _ _ (length (tx_TxIn tx))); rewrite ?length_fmap, ?(ro_vins _ _ _ _ _ _ _ _ Hrow); [done..|].
    intros j x y _. rewrite !list_lookup_fmap. destruct (vi !! j) as [v|] eqn:Ev; [|done].
    destruct (ro_vin _ _ _ _ _ _ _ _ Hrow j v Ev) as (o & -> & Ho & _). intros [= <-] [= <-]. unfold has_prev. by rewrite Ho. }
  exists (set_mixed <$> vo). split_and!.
  - apply (tag_mixed_lookup _ _ _ _ _ _ _ _ _ vi Ht Etx Evo Evi).
    + by rewrite (ro_mix _ _ _ _ _ _ _ _ Hrow).
    + rewrite (ro_type _ _ _ _ _ _ _ _ Hrow). unfold TxIsRegular, isStake, dbType in *.
      destruct (stakeType tx); try done. by destruct (first_marker _).
    + clear -Hp Hf. revert Hp. generalize (tx_TxIn tx), Hf. clear. induction vi as [|v vi IH]; intros [|i l]; try done.
      rewrite Forall_cons. intros [Hi Hl] [= Hv H]. constructor; [|by apply (IH l)]. rewrite Hv. by rewrite bool_decide_true.
  - by rewrite length_fmap, (ro_vouts _ _ _ _ _ _ _ _ Hrow).
  - apply Forall_fmap, Forall_forall. by intros v _.
Qed.
End Cache.

Module Witness.
Import Sample.
#[local] Existing Instances db node fl lib RZ RH.
Abbreviation run tree s := (storeBlockTxnTree (RM:=RZ) (RS:=RZ) (RV:=RZ) true block validators tree true true true true s).
Abbreviation rows tree := (ExtractBlockTransactions (RM:=RZ) (RS:=RZ) (RV:=RZ) block tree true true).
Definition isOk {E A} (r : res E A) : bool := match r with Ok _ => true | _ => false end.
Lemma isOk_run {S E A} (p : res E A * S) : isOk p.1 = true → ∃ a s, p = (Ok a, s).
Proof. destruct p as [[a|e| |] s]; try done. eauto. Qed.

Lemma triple {A B C} (x : A * B * C) : x = (x.1.1, x.1.2, x.2).
Proof. by destruct x as [[a b] c]. Qed.

Lemma run_regular : ∃ r s', run TxTreeRegular start = (Ok r, s').
Proof. apply isOk_run. vm_compute. reflexivity. Qed.
Lemma run_stake : ∃ r s', run TxTreeStake start = (Ok r, s').
Proof. apply isOk_run. vm_compute. reflexivity. Qed.

Lemma cache_after_store_witness : ∃ r s', run TxTreeRegular start = (Ok r, s') ∧
  flat (utxoCache s') !! ([9], 1) = None ∧ flat (utxoCache s') !! ([9], 0) = flat utxos !! ([9], 0) ∧
  is_Some (flat (utxoCache s') !! ([8; 1], 1)).
Proof.
  destruct run_regular as (r & s' & E). exists r, s'. split; [exact E|].
  pose proof (λ k, cache_after_store true block validators TxTreeRegular true true true true
    (rows TxTreeRegular).1.1 (rows TxTreeRegular).1.2 (rows TxTreeRegular).2 start r s' k (triple _) E) as H.
  assert (prevs (rows TxTreeRegular).1.1 (rows TxTreeRegular).2 = [([9], 1)]) as Hp by (vm_compute; reflexivity).
  assert ((created (rows TxTreeRegular).1.1 (rows TxTreeRegular).1.2).*1 = [([8; 1], 0); ([8; 1], 1)]) as Hc by (vm_compute; reflexivity).
  rewrite Hp, Hc in H. split_and!.
  - destruct (H ([9], 1)) as (? & ? & ? & ? & ? & ? & ? & _ & _ & _ & _ & H1 & _). apply H1. by left.
  - destruct (H ([9], 0)) as (? & ? & ? & ? & ? & ? & ? & _ & _ & _ & _ & _ & H1 & _). apply H1; rewrite !elem_of_cons, elem_of_nil; intuition congruence.
  - destruct (H ([8; 1], 1)) as (? & ? & ? & ? & ? & ? & ? & _ & _ & _ & _ & _ & _ & H1). destruct H1 as (d & Hd & _); [rewrite !elem_of_cons, elem_of_nil; intuition congruence|by right; left|].
    by exists d.
Defined.

(** The regular transaction spends a mixed output of 6, and its outputs are not
    mixed. *)
Lemma mix_set_accounting_witness : ∃ r s', run TxTreeRegular start = (Ok r, s') ∧ mixSetDelta r = -6.
Proof.
  destruct run_regular as (r & s' & E). exists r, s'. split; [exact E|].
  rewrite (mix_set_accounting true block validators TxTreeRegular true true true true
    (rows TxTreeRegular).1.1 (rows TxTreeRegular).1.2 (rows TxTreeRegular).2 start r s' (triple _) E).
  - vm_compute. reflexivity.
  - assert (prevs (rows TxTreeRegular).1.1 (rows TxTreeRegular).2 = [([9], 1)]) as -> by (vm_compute; reflexivity). apply NoDup_singleton.
  - assert (prevs (rows TxTreeRegular).1.1 (rows TxTreeRegular).2 = [([9], 1)]) as -> by (vm_compute; reflexivity).
    intros k ->%list_elem_of_singleton. vm_compute. eauto.
Defined.

Lemma null_inputs_tagged_witness : ∃ vouts' s',
  tag_mixed (rows TxTreeStake).1.1 (rows TxTreeStake).1.2 (rows TxTreeStake).2 start = (vouts', s') ∧
  ∃ vo, vouts' !! 0%nat = Some vo ∧ length vo = 1%nat ∧ Forall (λ v, v_Mixed v = true) vo.
Proof.
  destruct (tag_mixed _ _ _ start) as [vouts' s'] eqn:Et. exists vouts', s'. split; [done|].
  apply (null_inputs_tagged block true true (rows TxTreeStake).1.1 (rows TxTreeStake).1.2 (rows TxTreeStake).2
    start vouts' s' 0%nat treasuryBase (triple _) Et); [done..|]. by repeat constructor.
Defined.
End Witness.
