(* ===== verification/StoreSafe.v ===== *)
(** * Storing a tree does not panic

    The conditions under which storeBlockTxnTree (StoreTree) returns, with a
    result or an error: every statement that inserts a row answers with a row
    or an error, the block is well-formed, and the cache of ticket row IDs
    exists.  Each is needed: the slices of row IDs are indexed without a check,
    as are the inputs of a vote and the outputs of a ticket, and the count of
    votes and misses panics. *)
From stdpp Require Import gmap strings.
From S2P Require Import Prelude GoPost StakeTx SSFee AddressRows CoinStats BlockTxns UtxoStore TicketSpends TxOutData StoreTree.
Open Scope Z_scope.

Section Safe.
Context {bdb : BlockDB} {node : TicketNode} {RH : RangeOrder Hash Z}.
Abbreviation SM := (goM ChainDB StoreErr).

(** ** Calls that return, and keep the ticket cache *)
Definition ok (s : ChainDB) : Prop := is_Some (unspentTicketCache s).
Definition returns {A} (r : res StoreErr A) : Prop := match r with Ok _ | Err _ => True | _ => False end.
Definition safe {A} (m : SM A) : Prop := ∀ s, ok s → returns (m s).1 ∧ ok (m s).2.
(** What is known of the result. *)
Definition gives {A} (m : SM A) (Q : A → Prop) : Prop := ∀ s, post True m s (λ a _, Q a).

Lemma safe_ret {A} (a : A) : safe (mret a).
Proof. by intros s H. Qed.
Lemma safe_fail {A} e : safe (fail e : SM A).
Proof. by intros s H. Qed.
Lemma safe_bind_with {A B} (Q : A → Prop) (m : SM A) (k : A → SM B) :
  safe m → gives m Q → (∀ a, Q a → safe (k a)) → safe (m ≫= k).
Proof.
  intros Hm HQ Hk s H. destruct (Hm s H) as [H1 H2]. specialize (HQ s). unfold post, mbind, goM_bind in *.
  destruct (m s) as [[a|e| |] s']; try done. by apply Hk.
Qed.
Lemma gives_any {A} (m : SM A) : gives m (λ _, True).
Proof. intros s. unfold post. by destruct (m s) as [[a|e| |] s']. Qed.
Lemma safe_bind {A B} (m : SM A) (k : A → SM B) : safe m → (∀ a, safe (k a)) → safe (m ≫= k).
Proof. intros Hm Hk. eapply safe_bind_with; [done|apply gives_any|auto]. Qed.
Lemma safe_query {A} (f : DB → sqlres A * DB) : safe (query f).
Proof. intros s H. unfold query. by destruct (f (pg_db s)). Qed.
Lemma safe_step {A} e (f : DB → option A * DB) : safe (step e f).
Proof. intros s H. unfold step. by destruct (f (pg_db s)) as [[a|] d]. Qed.
Lemma safe_begin : safe begin.
Proof. intros s H. unfold begin. by destruct (Begin (pg_db s)). Qed.
Lemma safe_commit : safe commit.
Proof. intros s H. unfold commit. by destruct (Commit (pg_db s)). Qed.
Lemma safe_rollback {A} e : safe (rollback e : SM A).
Proof. by intros s H. Qed.
Lemma safe_prepare st : safe (prepare st).
Proof. intros s H. unfold prepare. by destruct (PrepareOK st (pg_db s)). Qed.
Lemma safe_gets {A} (f : ChainDB → A) : safe (gets f).
Proof. by intros s H. Qed.
Lemma safe_or_rollback {A} (m : SM A) : safe m → safe (or_rollback m).
Proof. intros H s Hs. destruct (H s Hs) as [H1 H2]. unfold or_rollback. by destruct (m s) as [[a|e| |] s']. Qed.
Lemma safe_logged (m : SM unit) : safe m → safe (logged m).
Proof. intros H s Hs. destruct (H s Hs) as [H1 H2]. unfold logged. by destruct (m s) as [[a|e| |] s']. Qed.

Lemma gives_ret {A} (a : A) (Q : A → Prop) : Q a → gives (mret a) Q.
Proof. by intros H s. Qed.
Lemma gives_fail {A} e (Q : A → Prop) : gives (fail e) Q.
Proof. done. Qed.
Lemma gives_panic {A} (Q : A → Prop) : gives panic Q.
Proof. done. Qed.
Lemma gives_bind {A B} (m : SM A) (k : A → SM B) Q R : gives m Q → (∀ a, Q a → gives (k a) R) → gives (m ≫= k) R.
Proof.
  intros Hm Hk s. apply post_bind. eapply post_mono; [apply Hm|]. intros a s' Ha. by apply Hk.
Qed.
Lemma gives_any_bind {A B} (m : SM A) (k : A → SM B) R : (∀ a, gives (k a) R) → gives (m ≫= k) R.
Proof. intros Hk. eapply gives_bind; [apply gives_any|auto]. Qed.
Lemma gives_or_rollback {A} (m : SM A) Q : gives m Q → gives (or_rollback m) Q.
Proof. intros H s. specialize (H s). unfold or_rollback, post in *. by destruct (m s) as [[a|e| |] s']. Qed.
Lemma gives_mono {A} (m : SM A) (Q R : A → Prop) : gives m Q → (∀ a, Q a → R a) → gives m R.
Proof. intros H HQ s. eapply post_mono; [apply H|]. auto. Qed.

Create HintDb safe.
Hint Resolve safe_ret safe_fail safe_query safe_step safe_begin safe_commit safe_rollback safe_prepare safe_gets
  safe_or_rollback safe_logged : safe.
Ltac solve_safe :=
  repeat first
    [ progress intros
    | solve [auto with safe]
    | apply safe_bind
    | match goal with |- safe (match ?x with _ => _ end) => destruct x eqn:? end
    | match goal with |- safe (let _ := _ in _) => cbv zeta end ].

(** ** The rows of a tree *)
(** Every insert answers with a row or an error, and statements close. *)
Record rows_or_errors : Prop := {
  vin_row c u v d : (InsertVin c u v d).1 ≠ ErrNoRows;
  tx_row c u t d : (InsertTx c u t d).1 ≠ ErrNoRows;
  vote_row c u t m i d : (InsertVote c u t m i d).1 ≠ ErrNoRows;
  tx_close d : CloseOK TxStmt d = true
}.
Context (RE : rows_or_errors).

Lemma gives_query {A} (f : DB → sqlres A * DB) : (∀ d, (f d).1 ≠ ErrNoRows) → gives (query f) (λ r, r ≠ ErrNoRows).
Proof. intros H s. unfold query, post. specialize (H (pg_db s)). by destruct (f (pg_db s)). Qed.

Lemma safe_insertVouts c u vouts : ∀ ids rows, safe (insertVoutsStmt c u vouts ids rows).
Proof. induction vouts; intros; cbn [insertVoutsStmt]; solve_safe. Qed.
Lemma safe_insertVins c u vins : ∀ ids, safe (insertVinsStmt c u vins ids).
Proof. induction vins; intros; cbn [insertVinsStmt]; solve_safe. Qed.
Lemma gives_insertVins c u vins : ∀ ids, gives (insertVinsStmt c u vins ids) (λ r, length r = (length ids + length vins)%nat).
Proof.
  induction vins as [|v vins IH]; intros ids; cbn [insertVinsStmt length]; [apply gives_ret; lia|].
  eapply gives_bind; [apply gives_query, (vin_row RE)|]. intros [id| |] H; [|done|apply gives_fail].
  eapply gives_mono; [apply IH|]. cbn. intros r ->. rewrite length_app. cbn. lia.
Qed.
Lemma safe_insertTxnsStmt c u txns : ∀ ids, safe (insertTxnsStmt c u txns ids).
Proof. induction txns; intros; cbn [insertTxnsStmt]; solve_safe. Qed.
Lemma gives_insertTxnsStmt c u txns : ∀ ids, gives (insertTxnsStmt c u txns ids) (λ r, length r = (length ids + length txns)%nat).
Proof.
  induction txns as [|v txns IH]; intros ids; cbn [insertTxnsStmt length]; [apply gives_ret; lia|].
  eapply gives_bind; [apply gives_query, (tx_row RE)|]. intros [id| |] H; [|done|apply gives_fail].
  eapply gives_mono; [apply IH|]. cbn. intros r ->. rewrite length_app. cbn. lia.
Qed.
Hint Resolve safe_insertVouts safe_insertVins safe_insertTxnsStmt : safe.

Lemma safe_insertTxnsDbTxn txns c u : safe (insertTxnsDbTxn txns c u).
Proof.
  intros s Hs. unfold insertTxnsDbTxn. destruct (PrepareOK TxStmt (pg_db s)); [|by split].
  eapply safe_bind; [auto with safe| |exact Hs]. intros ids. solve_safe.
Qed.
Lemma gives_insertTxnsDbTxn txns c u : gives (insertTxnsDbTxn txns c u) (λ ids, length ids = length txns).
Proof.
  assert (gives (ids ← insertTxnsStmt c u txns []; ok ← gets (λ s, CloseOK TxStmt (pg_db s)); mret (if ok : bool then ids else []))
    (λ ids, length ids = length txns)) as H.
  { eapply gives_bind; [apply gives_insertTxnsStmt|]. intros ids H.
    apply (gives_bind _ _ (λ b, b = true)); [intros s'; apply (tx_close RE)|]. intros b ->. by apply gives_ret. }
  intros s. specialize (H s). unfold post, insertTxnsDbTxn in *. by destruct (PrepareOK TxStmt (pg_db s)).
Qed.
Hint Resolve safe_insertTxnsDbTxn : safe.

(** The transaction has its row IDs, as many as inputs. *)
Definition ided (txns : list Tx) (vouts : list (list Vout)) (vins : list (list VinTxProperty)) (ts : list Tx) : Prop :=
  length ts = length txns ∧ ∀ i t, ts !! i = Some t → ∃ tx vo vi a c,
    txns !! i = Some tx ∧ vouts !! i = Some vo ∧ vins !! i = Some vi ∧ t = set_ids tx vo a c ∧ length c = length vi.

Lemma safe_storeTxns_loop c u txns : ∀ vouts vins, (length txns <= length vouts)%nat → (length txns <= length vins)%nat →
  safe (storeTxns_loop c u txns vouts vins).
Proof.
  induction txns as [|tx txns IH]; intros [|vo vouts] [|vi vins] H1 H2; cbn [length] in *; try lia; cbn [storeTxns_loop]; [auto with safe..|].
  assert (safe (storeTxns_loop c u txns vouts vins)) by (apply IH; lia). solve_safe.
Qed.
Lemma gives_storeTxns_loop c u txns : ∀ vouts vins, gives (storeTxns_loop c u txns vouts vins) (λ r, ided txns vouts vins r.1).
Proof.
  induction txns as [|tx txns IH]; intros vouts vins; cbn [storeTxns_loop]; [by apply gives_ret|].
  destruct vouts as [|vo vouts]; [apply gives_panic|]. destruct vins as [|vi vins]; [apply gives_panic|].
  apply gives_any_bind. intros [voutIds rows].
  eapply gives_bind; [apply gives_or_rollback, gives_insertVins|]. cbn. intros vinIds Hc.
  eapply gives_bind; [apply IH|]. intros [ts rs] [Hl Hi]. apply gives_ret. split; cbn in *; [by rewrite Hl|].
  intros [|i] t Ht; [injection Ht as <-; by exists tx, vo, vi, voutIds, vinIds|]. by apply Hi.
Qed.
Lemma safe_storeTxns c u txns vouts vins : (length txns <= length vouts)%nat → (length txns <= length vins)%nat →
  safe (storeTxns c txns vouts vins u).
Proof. intros H1 H2. pose proof (safe_storeTxns_loop c u txns vouts vins H1 H2). unfold storeTxns. solve_safe. Qed.
Lemma gives_storeTxns c u txns vouts vins :
  gives (storeTxns c txns vouts vins u) (λ r, ided txns vouts vins r.1.1 ∧ length r.2 = length txns).
Proof.
  unfold storeTxns. do 3 (apply gives_any_bind; intros _).
  eapply gives_bind; [apply gives_storeTxns_loop|]. intros [ts rows] H.
  eapply gives_bind; [apply gives_insertTxnsDbTxn|]. intros ids Hl. apply gives_any_bind. intros _. apply gives_ret.
  split; [done|]. cbn. rewrite Hl. apply H.
Qed.

(** ** The stake tree *)
Lemma safe_onTickets {A} (m : (Hash → option Z) → goM (option TicketTxnIDGetter) SpendErr A) :
  (∀ sel t, is_Some t → match (m sel t).1 with Ok _ | Err _ => True | _ => False end ∧ is_Some (m sel t).2) → safe (onTickets m).
Proof.
  intros H s Hs. unfold onTickets. destruct (H (λ h, SelectTicketID h (pg_db s)) (unspentTicketCache s) Hs) as [H1 H2].
  by destruct (m _ (unspentTicketCache s)) as [[a|e| |] t].
Qed.

Lemma getTicketID_returns sel h e t : is_Some t →
  match (getTicketID sel h e t).1 with Ok _ | Err _ => True | _ => False end ∧ is_Some (getTicketID sel h e t).2.
Proof.
  intros [g ->]. unfold getTicketID, TxnDbID. destruct (idCache g !! h); [by destruct e|]. by destruct (sel h).
Qed.

Lemma collect_loop_returns sel im ids : ∀ txns msgs i t, 0 <= i → i + zlen txns <= zlen ids → is_Some t →
  match (collect_loop sel im txns ids msgs i t).1 with Ok _ | Err _ => True | _ => False end ∧
  is_Some (collect_loop sel im txns ids msgs i t).2.
Proof.
  induction txns as [|tx txns IH]; intros msgs i t H0 Hi Ht; cbn [collect_loop]; [done|].
  destruct msgs as [|msg msgs]; [done|]. unfold zlen in *. cbn [length] in Hi.
  destruct (spend_kind (t_TxType tx)) as [[ty ind]|]; [|apply IH; [lia..|done]].
  destruct (negb _); [done|]. destruct (slice_at (tx_TxIn msg) ind) as [vin|]; [|apply IH; [lia..|done]].
  destruct (slice_at_Some ids i ltac:(unfold zlen; lia)) as [id ->].
  pose proof (getTicketID_returns sel (op_Hash (ti_PreviousOutPoint vin)) im t Ht) as Hg.
  unfold mbind, goM_bind. destruct (getTicketID sel _ im t) as [[a|e| |] t1]; cbn in Hg; try tauto.
  specialize (IH msgs (i + 1) t1 ltac:(lia) ltac:(lia) (proj2 Hg)).
  by destruct (collect_loop sel im txns ids msgs (i + 1) t1) as [[l|e| |] t2].
Qed.

Lemma safe_collect txns ids msgs im : length ids = length txns →
  safe (onTickets (λ sel, collectTicketSpendDBInfo sel txns ids msgs im)).
Proof.
  intros Hl. apply safe_onTickets. intros sel t Ht. unfold collectTicketSpendDBInfo. destruct (negb _); [done|].
  apply collect_loop_returns; [done|unfold zlen; lia|done].
Qed.
Lemma safe_getTicketID h e : safe (onTickets (λ sel, getTicketID sel h e)).
Proof. apply safe_onTickets. intros sel t Ht. by apply getTicketID_returns. Qed.
Lemma safe_voteTicketID h : safe (voteTicketID h).
Proof. intros s [g Hg]. unfold voteTicketID. rewrite Hg. apply safe_getTicketID. by exists g. Qed.
Lemma safe_agendas f : safe (agendas f).
Proof. intros s Hs. unfold agendas. by destruct (f (pg_db s)). Qed.
Hint Resolve safe_getTicketID safe_voteTicketID safe_agendas : safe.

Lemma choose_tickets_Some txns : ∀ ids, length ids = length txns →
  ∃ l, choose_tickets txns ids = Some l ∧ Forall (λ p, p.1 ∈ txns ∧ isTicket p.1 = true) l.
Proof.
  induction txns as [|tx txns IH]; intros [|id ids] Hl; try done; [by exists []|]. injection Hl as Hl.
  destruct (IH ids Hl) as (l & E & HF). cbn [choose_tickets tail head]. rewrite E. cbn.
  assert (Forall (λ p, p.1 ∈ tx :: txns ∧ isTicket p.1 = true) l) as HF'.
  { eapply Forall_impl; [exact HF|]. intros p [H1 H2]. split; [by right|done]. }
  destruct (isTicket tx) eqn:Et; [|by exists l]. exists ((tx, id) :: l). split; [done|]. constructor; [|done]. split; [by left|done].
Qed.

Lemma safe_insertTickets txns ids c u : length ids = length txns →
  (∀ t, t ∈ txns → isTicket t = true → t_Vouts t ≠ []) → safe (insertTickets txns ids c u).
Proof.
  intros Hl Ht. unfold insertTickets. destruct (choose_tickets_Some txns ids Hl) as (l & -> & HF).
  assert (∀ acc, safe (insertTickets_loop c u l acc)).
  { induction HF as [|[t id] l [Hin Hit] _ IH]; intros acc; cbn [insertTickets_loop]; [apply safe_ret|].
    specialize (Ht t Hin Hit). destruct (t_Vouts t); [done|]. solve_safe. }
  solve_safe.
Qed.

(** The tickets that the votes spend. *)
Definition vote_ticket (msg : MsgTx) : option Hash :=
  match tx_TxIn msg with _ :: vin :: _ => Some (op_Hash (ti_PreviousOutPoint vin)) | _ => None end.
Definition has_ticket (p : Tx * MsgTx) : Prop := SSGenVoteValid p.2 = true → is_Some (vote_ticket p.2).

Lemma safe_insertVotes_loop c u votes : Forall has_ticket votes → safe (insertVotes_loop c u votes).
Proof.
  induction 1 as [|[t msg] votes Hp _ IH]; cbn [insertVotes_loop]; [apply safe_ret|]. unfold has_ticket, vote_ticket in Hp. cbn in Hp.
  destruct (SSGenVoteValid msg); cbn [negb]; [|auto with safe].
  destruct (tx_TxIn msg) as [|i0 [|vin l]]; [destruct (Hp eq_refl); done..|]. solve_safe.
Qed.
Lemma gives_insertVotes_loop c u votes :
  gives (insertVotes_loop c u votes) (λ rows, rows.*1 = omap vote_ticket votes.*2 ∧ Forall (λ r, is_Some r.2) rows).
Proof.
  induction votes as [|[t msg] votes IH]; cbn [insertVotes_loop]; [by apply gives_ret|].
  destruct (SSGenVoteValid msg); cbn [negb]; [|done]. cbn [fmap list_fmap snd omap list_omap].
  unfold vote_ticket at 1. destruct (tx_TxIn msg) as [|i0 [|vin l]]; [apply gives_panic..|]. apply gives_any_bind. intros id.
  eapply gives_bind; [apply gives_query; intros d; apply (vote_row RE)|]. intros [i| |] Hr; [|done|done].
  apply gives_any_bind. intros _.
  eapply gives_bind; [apply IH|]. intros rows [H1 H2]. apply gives_ret. cbn. split; [by rewrite H1|]. by constructor.
Qed.

(** The validators of a main chain block. *)
Definition lottery (validators : list Hash) (votes : list Hash) : Prop :=
  validators = [] ∨ (length validators = 5%nat ∧ NoDup validators ∧ NoDup votes ∧ votes ⊆ validators).

Lemma count_votes_Some validators rows : Forall (λ r : Hash * option Z, is_Some r.2) rows → lottery validators rows.*1 →
  is_Some (count_votes validators rows).
Proof.
  intros Hr Hv. unfold count_votes. pose proof (vote_loop_ids rows [] validators) as Hi.
  pose proof (vote_loop_length rows [] validators) as Hl.
  destruct (vote_loop rows [] validators) as [ids misses]. cbn [fst snd app] in *. subst ids.
  destruct Hv as [->|(H5 & Hn & Hnr & Hs)]; [done|]. specialize (Hl Hn Hnr Hs).
  assert (length (omap snd rows) = length rows) as Ho.
  { clear -Hr. induction Hr as [|[h r] rows [i Hi] _ IH]; [done|]. cbn in *. rewrite Hi. cbn. by rewrite IH. }
  unfold zlen. rewrite Ho. destruct (Z.eqb_spec (Z.of_nat (length rows) + Z.of_nat (length misses)) 5); [|lia]. by rewrite andb_false_r.
Qed.

Lemma safe_insertVotes txns msgs validators c u : Forall has_ticket (choose_votes txns msgs) →
  lottery validators (omap vote_ticket (choose_votes txns msgs).*2) → safe (insertVotes txns msgs validators c u).
Proof.
  intros Hv Hl. unfold insertVotes. cbv zeta. destruct (bool_decide (choose_votes txns msgs = [])); [auto with safe|].
  do 5 (apply safe_bind; [auto with safe|]; intros _).
  eapply safe_bind_with; [by apply safe_insertVotes_loop|apply gives_insertVotes_loop|]. intros rows [H1 H2]. rewrite <- H1 in Hl.
  destruct (count_votes_Some _ _ H2 Hl) as [[ids misses] ->].
  assert (∀ l, safe (insertMisses_loop c u l)).
  { induction l as [|h l IH]; cbn [insertMisses_loop]; solve_safe. }
  solve_safe.
Qed.

Lemma safe_setSpending h spends : safe (setSpendingForTickets h spends).
Proof.
  unfold setSpendingForTickets. assert (∀ l, safe (setSpending_loop h l)).
  { induction l as [|sp l IH]; cbn [setSpending_loop]; [apply safe_ret|]. intros s Hs.
    destruct (SetTicketSpending sp h (spend_status sp) (pg_db s)); [|by split]. by apply IH. }
  solve_safe.
Qed.
Lemma safe_setStatus l : safe (setPoolStatusForTickets l).
Proof.
  unfold setPoolStatusForTickets. assert (∀ l, safe (setStatus_loop l)).
  { clear l. induction l as [|[i st] l IH]; cbn [setStatus_loop]; [apply safe_ret|]. intros s Hs.
    destruct (SetTicketStatus i st (pg_db s)); [|by split]. by apply IH. }
  solve_safe.
Qed.
Lemma safe_ticket_rows hs : safe (ticket_rows hs).
Proof.
  induction hs as [|h hs IH]; cbn [ticket_rows]; [apply safe_ret|]. intros s Hs.
  destruct (safe_getTicketID h false s Hs) as [H1 H2].
  destruct (onTickets _ s) as [[a|e| |] s']; cbn in *; try done.
  assert (safe (rest ← ticket_rows hs; mret (a :: rest))) as Hb by solve_safe. by apply Hb.
Qed.
Hint Resolve safe_setSpending safe_setStatus safe_ticket_rows : safe.

Lemma cache_tickets_Some ids : ∀ tickets t, is_Some t → is_Some (cache_tickets ids tickets t).
Proof.
  induction ids as [|id ids IH]; intros [|tx tickets] t Ht; cbn; try done. apply IH. destruct Ht as [g ->]. cbn. eauto.
Qed.

Lemma safe_store_stake c u im h validators txns ids msgs : length ids = length txns →
  (∀ t, t ∈ txns → isTicket t = true → t_Vouts t ≠ []) → Forall has_ticket (choose_votes txns msgs) →
  lottery validators (omap vote_ticket (choose_votes txns msgs).*2) → safe (store_stake c u im h validators txns ids msgs).
Proof.
  intros Hl Ht Hv Hlot. pose proof (safe_insertTickets txns ids c u Hl Ht). pose proof (safe_insertVotes txns msgs validators c u Hv Hlot).
  pose proof (safe_collect txns ids msgs im Hl). unfold store_stake. cbv zeta.
  assert (∀ ids tickets, safe (modify (λ s, set_tickets (cache_tickets ids tickets (unspentTicketCache s)) s))).
  { intros l1 l2 s Hs. split; [done|]. by apply cache_tickets_Some. }
  solve_safe.
Qed.

(** ** Spending *)
Lemma safe_insertSpending c u f tx vin id d : safe (insertSpendingAddressRow c u f tx vin id d).
Proof.
  unfold insertSpendingAddressRow. assert (∀ l, safe (insert_spending c u l)).
  { induction l as [|r l IH]; cbn [insert_spending]; solve_safe. }
  assert (safe (spent_data vin d)).
  { intros s Hs. unfold spent_data. destruct d; [done|]. by destruct (SelectTxOut _ _ _ _). }
  solve_safe.
Qed.
Lemma safe_evict vin : safe (evict vin).
Proof. intros s Hs. unfold evict. by destruct (utxo_Get _ _ _). Qed.
Hint Resolve safe_insertSpending safe_evict : safe.

Lemma safe_spend_vins c u f im tx vins : ∀ iv ids acc, 0 <= iv → iv + zlen vins <= zlen (t_VinDbIds tx) →
  safe (spend_vins c u f im tx iv vins ids acc).
Proof.
  induction vins as [|vin vins IH]; intros iv ids acc H0 Hi; cbn [spend_vins]; [apply safe_ret|].
  unfold zlen in *. cbn [length] in Hi. assert (∀ ids acc, safe (spend_vins c u f im tx (iv + 1) vins ids acc)) by (intros; apply IH; lia).
  case_bool_decide; [done|]. destruct (slice_at_Some (t_VinDbIds tx) iv ltac:(unfold zlen; lia)) as [id ->]. solve_safe.
Qed.

Lemma safe_spend_txns c u f im ts : ∀ vins ids acc, length ids = length ts →
  (∀ i t, ts !! i = Some t → ∃ vi, vins !! i = Some vi ∧ length (t_VinDbIds t) = length vi) →
  safe (spend_txns c u f im ts vins ids acc).
Proof.
  induction ts as [|t ts IH]; intros vins [|id ids] acc Hl Hv; try done. cbn [spend_txns].
  destruct (Hv 0%nat t eq_refl) as (vi & Hvi & Hlen). destruct vins as [|vi' vins]; [done|]. injection Hvi as ->.
  pose proof (safe_spend_vins c u f im t vi 0 [] acc ltac:(done) ltac:(unfold zlen; lia)).
  injection Hl as Hl. assert (∀ acc, safe (spend_txns c u f im ts vins ids acc)).
  { intros acc'. apply IH; [done|]. intros i t' Hi. apply (Hv (S i) t' Hi). }
  assert (∀ ids i, safe (setSpendingForVouts ids i)) by (intros; unfold setSpendingForVouts; solve_safe).
  solve_safe.
Qed.

Lemma safe_insertAddressRowsDbTx rows c u : safe (insertAddressRowsDbTx rows c u).
Proof.
  assert (∀ l, safe (insert_addresses c u l)) as H.
  { induction l as [|r l IH]; cbn [insert_addresses]; solve_safe. }
  intros s Hs. unfold insertAddressRowsDbTx. destruct (PrepareOK _ _); [by apply H|by split].
Qed.
Hint Resolve safe_insertAddressRowsDbTx : safe.

(** ** The whole tree *)
Context {fl : SSFeeLib} {lib : BlockLib} {RM RS RV : RangeOrder Z Z}.
Abbreviation Extract := (ExtractBlockTransactions (RM:=RM) (RS:=RS) (RV:=RV)).
Abbreviation storeTree := (storeBlockTxnTree (RM:=RM) (RS:=RS) (RV:=RV)).

(** What the consensus rules say about the stake transactions of a block: a
    ticket has an output, a vote spends a ticket with its second input, and the
    votes of a block of the main chain spend distinct winners of the lottery. *)
Definition is_ticket_type (t : DbTxType) : Prop := t = StakeTxType TxTypeSStx ∨ t = TxTypeTicketPurchase.
Definition votes_of (txs : list MsgTx) : list MsgTx := filter (λ tx, dbType tx = StakeTxType TxTypeSSGen) txs.
Record stake_rules (txs : list MsgTx) (im : bool) (validators : list Hash) : Prop := {
  sr_tickets tx : tx ∈ txs → is_ticket_type (dbType tx) → tx_TxOut tx ≠ [];
  sr_votes tx : tx ∈ votes_of txs → SSGenVoteValid tx = true → is_Some (vote_ticket tx);
  sr_lottery : im = true → lottery validators (omap vote_ticket (votes_of txs))
}.

Lemma choose_votes_of ts txs : Forall2 (λ t tx, t_TxType t = dbType tx) ts txs → (choose_votes ts txs).*2 = votes_of txs.
Proof.
  induction 1 as [|t tx ts txs Ht _ IH]; [done|]. unfold choose_votes, votes_of in *. cbn [zip zip_with]. rewrite !filter_cons.
  cbn [fst]. rewrite Ht. destruct (decide (dbType tx = StakeTxType TxTypeSSGen)); cbn; by rewrite IH.
Qed.

Lemma tag_mixed_lengths txns : ∀ vouts vins s, length <$> (tag_mixed txns vouts vins s).1 = length <$> vouts.
Proof.
  induction txns as [|tx txns IH]; intros [|vo vouts] [|vi vins] s; try done. cbn [tag_mixed].
  destruct (if 0 <? t_MixCount tx then _ else _) as [vo' s1] eqn:E.
  specialize (IH vouts vins s1). destruct (tag_mixed txns vouts vins s1) as [l s2]. cbn in *. rewrite IH. f_equal.
  destruct (0 <? t_MixCount tx); [by injection E as <- _|]. destruct (TxIsRegular (t_TxType tx)); [by injection E as <- _|].
  destruct (all_mixed vi s) as [[] s']; injection E as <- _; [by rewrite length_fmap|done].
Qed.

Lemma all_mixed_ok vins : ∀ s, ok s → ok (all_mixed vins s).2.
Proof.
  induction vins as [|vin vins IH]; intros s Hs; cbn [all_mixed]; [done|]. case_bool_decide; [by apply IH|].
  destruct (utxo_Peek _ _ _); [destruct (u_Mixed _); [by apply IH|done]|].
  destruct (SelectTxOut _ _ _ _); try done. destruct (u_Mixed _); [by apply IH|done].
Qed.
Lemma tag_mixed_ok txns : ∀ vouts vins s, ok s → ok (tag_mixed txns vouts vins s).2.
Proof.
  induction txns as [|tx txns IH]; intros [|vo vouts] [|vi vins] s Hs; try done. cbn [tag_mixed].
  destruct (if 0 <? t_MixCount tx then _ else _) as [vo' s1] eqn:E.
  assert (ok s1) as Hs1.
  { destruct (0 <? t_MixCount tx); [by injection E as _ <-|]. destruct (TxIsRegular (t_TxType tx)); [by injection E as _ <-|].
    pose proof (all_mixed_ok vi s Hs). destruct (all_mixed vi s) as [m s']. by injection E as _ <-. }
  specialize (IH vouts vins s1 Hs1). by destruct (tag_mixed txns vouts vins s1).
Qed.

Lemma updateUtxoCache_Some txns : ∀ vouts u, (length txns <= length vouts)%nat → is_Some (updateUtxoCache vouts txns u).
Proof.
  induction txns as [|tx txns IH]; intros [|vo vouts] u Hl; cbn [length] in *; try lia; [eauto..|]. apply IH. lia.
Qed.
Lemma safe_update_cache vouts txns : (length txns <= length vouts)%nat → safe (update_cache vouts txns).
Proof.
  intros Hl s Hs. unfold update_cache. by destruct (updateUtxoCache_Some txns vouts (utxoCache s) Hl) as [u ->].
Qed.

(** C19: Storing a tree returns a result or an error, and does not panic, when
    inserts answer with a row or an error, statements close, the transactions
    are in the tree of their type, there is a coinbase, and the stake transactions obey the
    consensus rules. *)
Theorem stored_tree_returns dup b validators tree iv im update fund s :
  ok s → mb_Transactions b ≠ [] → Forall (in_tree tree) (tree_txs b tree) →
  (tree = TxTreeStake → stake_rules (mb_STransactions b) im validators) →
  returns (storeTree dup b validators tree iv im update fund s).1.
Proof.
  intros Hs Hcb Hin Hst. unfold storeBlockTxnTree. destruct (Extract b tree iv im) as [[txns vouts] vins] eqn:E.
  rewrite Extract_loop in E. destruct (process_loop_rows _ _ _ _ _ Hin 0 _ _ _ E) as (L1 & L2 & L3 & Hrows).
  match goal with |- returns (?m s).1 => assert (safe m) as Hm; [|by apply Hm] end.
  apply safe_bind; [apply safe_update_cache; lia|]. intros _.
  apply (safe_bind_with (λ vo : list (list Vout), length <$> vo = length <$> vouts)).
  { intros s1 Hs1. pose proof (tag_mixed_ok txns vouts vins s1 Hs1). by destruct (tag_mixed txns vouts vins s1). }
  { intros s1. pose proof (tag_mixed_lengths txns vouts vins s1). unfold post. by destruct (tag_mixed txns vouts vins s1). }
  intros vouts' Hv. assert (length vouts' = length vouts) as Lv by (by rewrite <- (length_fmap length vouts'), Hv, length_fmap).
  eapply safe_bind_with; [apply safe_storeTxns; lia|apply gives_storeTxns|]. intros [[ts rows] ids] [[Lt Hts] Lids]. cbn [fst snd] in *.
  apply safe_bind; [apply safe_update_cache; lia|]. intros _.
  assert (∀ i t, ts !! i = Some t → ∃ tx vi, tree_txs b tree !! i = Some tx ∧ t_TxType t = dbType tx ∧
    length (t_Vouts t) = length (tx_TxOut tx) ∧ vins !! i = Some vi ∧ length (t_VinDbIds t) = length vi) as Ht.
  { intros i t Hi. destruct (Hts i t Hi) as (t0 & vo' & vi & a & c & H1 & H2 & H3 & -> & Hc).
    destruct (lookup_lt_is_Some_2 (tree_txs b tree) i) as [tx Htx]; [apply lookup_lt_Some in H1; lia|].
    destruct (Hrows i tx Htx) as (t1 & vo & vi1 & H1' & H2' & H3' & Hr). assert (t1 = t0) as -> by congruence.
    exists tx, vi. split_and!; try done; [apply Hr|]. cbn [t_Vouts set_ids]. rewrite <- (ro_vouts _ _ _ _ _ _ _ _ Hr).
    apply (f_equal (lookup i)) in Hv. rewrite !list_lookup_fmap, H2, H2' in Hv. by injection Hv. }
  apply safe_bind.
  { destruct (Z.eqb_spec tree TxTreeStake) as [->|]; [|auto with safe]. specialize (Hst eq_refl).
    change (tree_txs b TxTreeStake) with (mb_STransactions b) in *.
    assert (Forall2 (λ t tx, t_TxType t = dbType tx) ts (mb_STransactions b)) as HF.
    { apply Forall2_same_length_lookup_2; [lia|]. intros i t tx Hi Hx. destruct (Ht i t Hi) as (tx' & _ & Hx' & ? & _). congruence. }
    pose proof (choose_votes_of _ _ HF) as Hcv. apply safe_store_stake; [lia| | |].
    - intros t (i & Hi)%list_elem_of_lookup_1 Hit. destruct (Ht i t Hi) as (tx & _ & Hx & Hty & Hlen & _).
      assert (tx_TxOut tx ≠ []) as Hne.
      { apply (sr_tickets _ _ _ Hst); [by apply list_elem_of_lookup_2 in Hx|]. rewrite <- Hty. unfold isTicket in Hit.
        apply orb_true_iff in Hit as [H%bool_decide_eq_true|H%bool_decide_eq_true]; [by left|by right]. }
      intros E0. rewrite E0 in Hlen. by destruct (tx_TxOut tx).
    - apply Forall_forall. intros p Hp Hvalid. apply (sr_votes _ _ _ Hst); [|done]. rewrite <- Hcv. by apply list_elem_of_fmap_2.
    - rewrite Hcv. destruct im; [by apply (sr_lottery _ _ _ Hst)|by left]. }
  intros _. assert (safe (spend_txns dup update fund im ts vins ids
    (mkAcc (zsum (zlen <$> rows)) (list_to_set (Address <$> flattenAddressRows rows ts)) (if im then mix_created txns vouts' 0 else 0)))) as Hsp.
  { apply safe_spend_txns; [lia|]. intros i t Hi. destruct (Ht i t Hi) as (_ & vi & _ & _ & _ & ? & ?). by exists vi. }
  assert (safe (scan_swaps b tree)) by (unfold scan_swaps; destruct (mb_Transactions b); [done|]; solve_safe).
  solve_safe.
Qed.
End Safe.

Module Witness.
Import Sample.
#[local] Existing Instances db node fl lib RZ RH.
Lemma stored_tree_returns_witness :
  returns (storeBlockTxnTree (RM:=RZ) (RS:=RZ) (RV:=RZ) true block validators TxTreeStake true true true true start).1.
Proof.
  apply stored_tree_returns; [by constructor|by eexists|done|by repeat constructor|]. intros _. constructor.
  - intros tx Hin _. change (mb_STransactions block) with [treasuryBase; vote 1; vote 2; vote 3; ticket] in Hin.
    rewrite !elem_of_cons, elem_of_nil in Hin. by destruct Hin as [->|[->|[->|[->|[->|[]]]]]].
  - intros tx Hin _. change (votes_of (mb_STransactions block)) with [vote 1; vote 2; vote 3] in Hin.
    rewrite !elem_of_cons, elem_of_nil in Hin. destruct Hin as [->|[->|[->|[]]]]; by eexists.
  - intros _. right. split; [done|]. split; [|split].
    + apply (bool_decide_unpack _). vm_compute. exact I.
    + apply (bool_decide_unpack _). vm_compute. exact I.
    + intros h. change (h ∈ [[1; 11]; [1; 12]; [1; 13]] → h ∈ validators). unfold validators. cbn.
      rewrite !elem_of_cons, elem_of_nil. intuition.
Defined.
End Witness.
