(* ===== verification/Reorg.v ===== *)
(** * Moving the chain's tip to a side chain (db/dcrpg/pgblockchain.go)

    The database side of a reorganization: TipToSideChain walks from the best
    block to the new root and takes each block off the main chain in the tables
    of blocks, transactions, inputs, outputs, addresses, votes, tickets and
    miners.  The tables are maps by row ID, and each statement is what its SQL
    text says (db/dcrpg/internal).  Every statement may fail; the program logs
    that and goes on.  The theorems say what becomes of each row, which
    addresses are dropped from the address cache, that the walk ends, when it
    does not, and what the table of miners keeps. *)
From Stdlib Require Import Ascii.
From stdpp Require Import gmap strings.
From S2P Require Import Prelude GoPost CoinStats BlockTxns AddressCache.
Open Scope Z_scope.

(** ** Tables *)
Record BlockRow := mkBlockRow { br_height : Z; br_prev : Hash; br_main : bool }.
Record TxRow := mkTxRow {
  tr_hash : Hash; tr_block : Hash; tr_height : Z; tr_tree : Z; tr_index : Z; tr_vins : list Z; tr_vouts : list Z; tr_main : bool
}.
(** The script type is that of the column, NULL addresses are [None]. *)
Record OutRow := mkOutRow {
  or_tx_hash : Hash; or_script_type : ScriptClass; or_value : Z; or_addresses : option string; or_spend : option Z
}.
Record AddrRow := mkAddrRow { ar_address : string; ar_is_funding : bool; ar_vin_vout : Z; ar_main : bool }.
(** A row of the votes or of the tickets table. *)
Record StakeRow := mkStakeRow { sr_block : Hash; sr_main : bool }.
Record MinerRow := mkMinerRow { first_seen : Z; last_used : Z; blocks_mined : Z }.

Record Tables := mkTables {
  t_blocks : gmap Hash BlockRow; t_txs : gmap Z TxRow; t_vins : gmap Z bool; t_outs : gmap Z OutRow;
  t_addrs : gmap Z AddrRow; t_votes : gmap Z StakeRow; t_tickets : gmap Z StakeRow; t_miners : gmap string MinerRow
}.
Definition set_blocks m T := mkTables m (t_txs T) (t_vins T) (t_outs T) (t_addrs T) (t_votes T) (t_tickets T) (t_miners T).
Definition set_txs m T := mkTables (t_blocks T) m (t_vins T) (t_outs T) (t_addrs T) (t_votes T) (t_tickets T) (t_miners T).
Definition set_vins m T := mkTables (t_blocks T) (t_txs T) m (t_outs T) (t_addrs T) (t_votes T) (t_tickets T) (t_miners T).
Definition set_outs m T := mkTables (t_blocks T) (t_txs T) (t_vins T) m (t_addrs T) (t_votes T) (t_tickets T) (t_miners T).
Definition set_addrs m T := mkTables (t_blocks T) (t_txs T) (t_vins T) (t_outs T) m (t_votes T) (t_tickets T) (t_miners T).
Definition set_votes m T := mkTables (t_blocks T) (t_txs T) (t_vins T) (t_outs T) (t_addrs T) m (t_tickets T) (t_miners T).
Definition set_tickets m T := mkTables (t_blocks T) (t_txs T) (t_vins T) (t_outs T) (t_addrs T) (t_votes T) m (t_miners T).
Definition set_miners m T := mkTables (t_blocks T) (t_txs T) (t_vins T) (t_outs T) (t_addrs T) (t_votes T) (t_tickets T) m.

(** ** Statements *)
Section Statements.
Context {RT : RangeOrder Z TxRow} {RA : RangeOrder Z AddrRow}.

(** [UPDATE blocks SET is_mainchain = $2 WHERE hash = $1 RETURNING
    previous_hash]; no row is an error. *)
Definition UpdateBlockMainchain (h : Hash) (isMainchain : bool) (T : Tables) : option Hash * Tables :=
  match t_blocks T !! h with
  | None => (None, T)
  | Some r => (Some (br_prev r), set_blocks (<[h := mkBlockRow (br_height r) (br_prev r) isMainchain]> (t_blocks T)) T)
  end.

Definition tx_main (isMainchain : bool) (h : Hash) (t : TxRow) : TxRow :=
  if decide (tr_block t = h)
  then mkTxRow (tr_hash t) (tr_block t) (tr_height t) (tr_tree t) (tr_index t) (tr_vins t) (tr_vouts t) isMainchain else t.
Definition UpdateTxnsMainchainByBlock (isMainchain : bool) (h : Hash) (T : Tables) : option Z * Tables :=
  (Some (Z.of_nat (size (filter (λ p, tr_block p.2 = h) (t_txs T)))), set_txs (tx_main isMainchain h <$> t_txs T) T).

(** The output's spending transaction is in the block. *)
Definition spent_in (h : Hash) (T : Tables) (o : OutRow) : bool :=
  match or_spend o with Some i => bool_decide (tr_block <$> t_txs T !! i = Some h) | None => false end.
Definition unspend (o : OutRow) : OutRow := mkOutRow (or_tx_hash o) (or_script_type o) (or_value o) (or_addresses o) None.
Definition clearVoutAllSpendTxRowIDs (h : Hash) (T : Tables) : option Z * Tables :=
  (Some (Z.of_nat (size (filter (λ p, spent_in h T p.2 = true) (t_outs T)))),
   set_outs ((λ o, if spent_in h T o then unspend o else o) <$> t_outs T) T).

(** [SELECT vin_db_ids, vout_db_ids, is_mainchain FROM transactions WHERE
    block_hash = $1], in any order. *)
Definition SelectTxnsVinsVoutsByBlock (h : Hash) (T : Tables) : option (list (list Z * list Z * bool)) * Tables :=
  (Some ((λ p, (tr_vins p.2, tr_vouts p.2, tr_main p.2)) <$> filter (λ p, tr_block p.2 = h) (range_of (t_txs T))), T).

Definition SetIsMainchainByVinID (id : Z) (isMainchain : bool) (T : Tables) : option Z * Tables :=
  (Some (if decide (is_Some (t_vins T !! id)) then 1 else 0), set_vins (alter (λ _, isMainchain) id (t_vins T)) T).

Definition addr_main (valid funding : bool) (id : Z) (r : AddrRow) : AddrRow :=
  if decide (ar_is_funding r = funding ∧ ar_vin_vout r = id)
  then mkAddrRow (ar_address r) (ar_is_funding r) (ar_vin_vout r) valid else r.
(** [UPDATE addresses SET valid_mainchain=$1 WHERE is_funding = ... AND
    tx_vin_vout_row_id=$2 RETURNING address]: all rows are updated, and
    [QueryRow] gets the address of the first. [Some None] is [sql.ErrNoRows]. *)
Definition SetAddressMainchain (funding valid : bool) (id : Z) (T : Tables) : option (option string) * Tables :=
  (Some (ar_address ∘ snd <$> head (filter (λ p, ar_is_funding p.2 = funding ∧ ar_vin_vout p.2 = id) (range_of (t_addrs T)))),
   set_addrs (addr_main valid funding id <$> t_addrs T) T).

Definition stake_main (isMainchain : bool) (h : Hash) (r : StakeRow) : StakeRow :=
  if decide (sr_block r = h) then mkStakeRow (sr_block r) isMainchain else r.
Definition count_block (h : Hash) (m : gmap Z StakeRow) : Z := Z.of_nat (size (filter (λ p, sr_block p.2 = h) m)).
Definition UpdateVotesMainchainByBlock (isMainchain : bool) (h : Hash) (T : Tables) : option Z * Tables :=
  (Some (count_block h (t_votes T)), set_votes (stake_main isMainchain h <$> t_votes T) T).
Definition UpdateTicketsMainchainByBlock (isMainchain : bool) (h : Hash) (T : Tables) : option Z * Tables :=
  (Some (count_block h (t_tickets T)), set_tickets (stake_main isMainchain h <$> t_tickets T) T).

Definition SelectBlockHeightByHash (h : Hash) (T : Tables) : option Z * Tables := (br_height <$> t_blocks T !! h, T).

(** The addresses that the block's coinbase pays: [script_addresses] is no list
    of several ([NOT LIKE '{%}']). *)
Definition is_list (a : string) : bool :=
  match a with String c _ => Ascii.eqb c "{"%char && bool_decide (last (String.list_ascii_of_string a) = Some "}"%char) | _ => false end.
Definition pays_miner (o : OutRow) (a : string) : bool :=
  match or_script_type o with SCPubKeyHash | SCScriptHash | SCPubKey | SCPubkeyAlt | SCPubkeyHashAlt => true | _ => false end
  && (0 <? or_value o) && bool_decide (or_addresses o = Some a)
  && negb (bool_decide (a = ""%string)) && negb (bool_decide (a = "unknown"%string)) && negb (is_list a).
Definition is_coinbase_row (height : Z) (h : Hash) (t : TxRow) : bool :=
  (tr_height t =? height) && bool_decide (tr_block t = h) && (tr_tree t =? 0) && (tr_index t =? 0).
Definition mined_by (height : Z) (h : Hash) (T : Tables) (a : string) : bool :=
  existsb (λ o, existsb (λ t, is_coinbase_row height h t && bool_decide (or_tx_hash o = tr_hash t)) (map_to_list (t_txs T)).*2
                && pays_miner o a) (map_to_list (t_outs T)).*2.
Definition revert_miner (height : Z) (m : MinerRow) : MinerRow :=
  mkMinerRow (first_seen m)
    (if (last_used m =? height) && (1 <? blocks_mined m) then height - 1 else last_used m) (0 `max` (blocks_mined m - 1)).
Definition RevertOrphanMinerUpdate (height : Z) (h : Hash) (T : Tables) : option unit * Tables :=
  (Some tt, set_miners (map_imap (λ a m, Some (if mined_by height h T a then revert_miner height m else m)) (t_miners T)) T).
Definition CleanupMinerZeros (T : Tables) : option unit * Tables :=
  (Some tt, set_miners (filter (λ p, 0 < blocks_mined p.2) (t_miners T)) T).
(** [upsertMiner]. *)
Definition upsert_miner (height : Z) (m : option MinerRow) : option MinerRow :=
  Some match m with
  | None => mkMinerRow height height 1
  | Some m => mkMinerRow (first_seen m) height (blocks_mined m + 1)
  end.
Definition upsertMiner (a : string) (height : Z) (T : Tables) : option unit * Tables :=
  (Some tt, set_miners (partial_alter (upsert_miner height) a (t_miners T)) T).

(** ** The walk

    The [n]-th statement fails when [conn n] is false, and then changes
    nothing.  No error leaves the walk. *)
Record PgState := mkPg {
  tables : Tables; conn : nat → bool; clock : nat; best_hash : Hash; best_height : Z; AddrCache : AddressCache
}.
Abbreviation M := (goM PgState Empty_set).
Definition exec {A} (f : Tables → option A * Tables) : M (option A) := λ s,
  if conn s (clock s)
  then let '(r, T) := f (tables s) in (Ok r, mkPg T (conn s) (S (clock s)) (best_hash s) (best_height s) (AddrCache s))
  else (Ok None, mkPg (tables s) (conn s) (S (clock s)) (best_hash s) (best_height s) (AddrCache s)).
Definition set_best (h : Hash) (height : Z) (s : PgState) : PgState :=
  mkPg (tables s) (conn s) (clock s) h height (AddrCache s).

(** The rows updated so far, with whether an error ended the loop. *)
Fixpoint setVinsMainchainOneTxn (vinDbIDs : list Z) (isMainchain : bool) (rowsUpdated : Z) : M (Z * bool) :=
  match vinDbIDs with
  | [] => mret (rowsUpdated, true)
  | id :: vinDbIDs =>
    c ← exec (SetIsMainchainByVinID id isMainchain);
    match c with
    | Some c => setVinsMainchainOneTxn vinDbIDs isMainchain (rowsUpdated + c)
    | None => mret (rowsUpdated, false)
    end
  end.

(** On an error the rows updated for its transaction are not counted. *)
Fixpoint setVinsMainchainForMany (blk : list (list Z * list Z * bool)) (rowsUpdated : Z) : M Z :=
  match blk with
  | [] => mret rowsUpdated
  | (vs, _, isMainchain) :: blk =>
    '(n, ok) ← setVinsMainchainOneTxn vs isMainchain 0;
    if ok : bool then setVinsMainchainForMany blk (rowsUpdated + n) else mret rowsUpdated
  end.

(** The row IDs are returned also when setting the flags fails. *)
Definition setVinsMainchainByBlock (h : Hash) : M (Z * list (list Z) * list (list Z)) :=
  blk ← exec (SelectTxnsVinsVoutsByBlock h);
  match blk with
  | None => mret (0, [], [])
  | Some blk =>
    n ← setVinsMainchainForMany blk 0;
    mret (n, (λ p, p.1.1) <$> blk, (λ p, p.1.2) <$> blk)
  end.

(** One of the two loops; [false] if an error ended it. *)
Fixpoint update_addrs (funding valid : bool) (ids : list Z) (addrs : gset string) (n : Z) : M (gset string * Z * bool) :=
  match ids with
  | [] => mret (addrs, n, true)
  | id :: ids =>
    r ← exec (SetAddressMainchain funding valid id);
    match r with
    | None => mret (addrs, n, false)
    | Some None => update_addrs funding valid ids addrs n
    | Some (Some a) => update_addrs funding valid ids ({[a]} ∪ addrs) (n + 1)
    end
  end.
(** The addresses (none on an error) and the number of rows. *)
Definition updateAddressesMainchainByIDs (vinsBlk voutsBlk : list (list Z)) (isValidMainchain : bool) : M (gset string * Z) :=
  '(addrs, n, ok) ← update_addrs false isValidMainchain (concat vinsBlk) ∅ 0;
  if negb ok then mret (∅, n) else
  '(addrs, n', ok) ← update_addrs true isValidMainchain (concat voutsBlk) addrs 0;
  mret (if ok : bool then addrs else ∅, n + n').

(** One block: the previous hash (zero when the block was not found) and the
    addresses of its rows. *)
Definition orphan_block (tipHash : Hash) : M (Hash * gset string) :=
  prev ← exec (UpdateBlockMainchain tipHash false);
  exec (UpdateTxnsMainchainByBlock false tipHash) ≫= λ _,
  exec (clearVoutAllSpendTxRowIDs tipHash) ≫= λ _,
  '(_, vinDbIDsBlk, voutDbIDsBlk) ← setVinsMainchainByBlock tipHash;
  '(addrs, _) ← updateAddressesMainchainByIDs vinDbIDsBlk voutDbIDsBlk false;
  exec (UpdateVotesMainchainByBlock false tipHash) ≫= λ _,
  exec (UpdateTicketsMainchainByBlock false tipHash) ≫= λ _,
  height ← exec (SelectBlockHeightByHash tipHash);
  (match height with
   | None => mret tt
   | Some height => exec (RevertOrphanMinerUpdate height tipHash) ≫= λ _, exec CleanupMinerZeros ≫= λ _, mret tt
   end) ≫= λ _,
  let tipHash := default zeroHash prev in
  height ← exec (SelectBlockHeightByHash tipHash);
  modify (set_best tipHash (default 0 height)) ≫= λ _,
  mret (tipHash, addrs).

Fixpoint TipToSideChain_loop (fuel : nat) (mainRoot tipHash : Hash) (blocksMoved : Z) (addresses : gset string)
    : M (Hash * Z * gset string) := λ s,
  if decide (tipHash = mainRoot) then (Ok (tipHash, blocksMoved, addresses), s) else
  match fuel with
  | O => (NoFuel, s)
  | S fuel =>
    ('(tipHash, addrs) ← orphan_block tipHash;
     TipToSideChain_loop fuel mainRoot tipHash (blocksMoved + 1) (addresses ∪ addrs)) s
  end.

Definition clear_addresses (addrs : gset string) : M unit := λ s,
  if decide (addrs = ∅) then (Ok tt, s) else
  (Ok tt, mkPg (tables s) (conn s) (clock s) (best_hash s) (best_height s) (Clear (Some (elements addrs)) (AddrCache s)).2).

Definition TipToSideChain (fuel : nat) (mainRoot : Hash) : M (Hash * Z) :=
  tip ← gets best_hash;
  '(tipHash, blocksMoved, addresses) ← TipToSideChain_loop fuel mainRoot tip 0 ∅;
  clear_addresses addresses ≫= λ _, mret (tipHash, blocksMoved).
End Statements.

(** ** What the walk does when no statement fails *)
Definition live (s : PgState) : Prop := ∀ n, conn s n = true.
(** [s] with other tables. *)
Definition upd (T : Tables) (k : nat) (s : PgState) : PgState := mkPg T (conn s) k (best_hash s) (best_height s) (AddrCache s).

Lemma upd_upd T1 k1 T2 k2 s : upd T2 k2 (upd T1 k1 s) = upd T2 k2 s.
Proof. done. Qed.
Lemma live_upd T k s : live s → live (upd T k s).
Proof. done. Qed.
Lemma upd_id s : upd (tables s) (clock s) s = s.
Proof. by destruct s. Qed.

Section Effect.
Context {RT : RangeOrder Z TxRow} {RA : RangeOrder Z AddrRow}.

Lemma post_exec {A} (f : Tables → option A * Tables) s (Q : option A → PgState → Prop) :
  live s → Q (f (tables s)).1 (upd (f (tables s)).2 (S (clock s)) s) → post False (exec f) s Q.
Proof. intros Hl HQ. unfold post, exec. rewrite (Hl (clock s)). by destruct (f (tables s)). Qed.

(** The same for a statement with a known answer, whatever the clock says. *)
Lemma post_run {A} (f : Tables → option A * Tables) r T' s (Q : option A → PgState → Prop) :
  live s → f (tables s) = (r, T') → (∀ k, Q r (upd T' k s)) → post False (exec f) s Q.
Proof. intros Hl E HQ. apply post_exec; [done|]. by rewrite E. Qed.

Definition vins_set (b : bool) (ids : list Z) (m : gmap Z bool) : gmap Z bool := foldl (λ m id, alter (λ _, b) id m) m ids.
Lemma vins_set_lookup b ids : ∀ m i, vins_set b ids m !! i = (if decide (i ∈ ids) then λ _, b else id) <$> m !! i.
Proof.
  induction ids as [|x ids IH]; intros m i; [rewrite decide_False by (by intros ?%elem_of_nil); cbn; by destruct (m !! i)|].
  change (vins_set b (x :: ids) m) with (vins_set b ids (alter (λ _, b) x m)). rewrite IH.
  destruct (decide (i = x)) as [->|Hx].
  - rewrite lookup_alter_eq, (decide_True (P:=x ∈ x :: ids)) by (by left). destruct (m !! x); [|done]. by destruct (decide (x ∈ ids)).
  - rewrite lookup_alter_ne by done. destruct (decide (i ∈ ids)) as [Hi|Hi].
    + by rewrite decide_True by (by right).
    + rewrite decide_False; [done|]. by intros [?|?]%elem_of_cons.
Qed.

Lemma vinsOneTxn_post ids b : ∀ n s, live s →
  post False (setVinsMainchainOneTxn ids b n) s
    (λ r s', r.2 = true ∧ ∃ k, s' = upd (set_vins (vins_set b ids (t_vins (tables s))) (tables s)) k s).
Proof.
  induction ids as [|x ids IH]; intros n s Hl; cbn [setVinsMainchainOneTxn].
  { apply post_ret. split; [done|]. exists (clock s). rewrite <- (upd_id s) at 1. by destruct s as [[] ? ? ? ? ?]. }
  apply post_bind, post_exec; [done|]. cbn [fst snd SetIsMainchainByVinID].
  eapply post_mono; [apply IH; by apply live_upd|]. intros [n' ok] s' [Hok (k & ->)]. split; [done|]. by exists k.
Qed.

(** All transactions of the list have the same flag. *)
Lemma vinsForMany_post b blk : Forall (λ p : list Z * list Z * bool, p.2 = b) blk → ∀ n s, live s →
  post False (setVinsMainchainForMany blk n) s
    (λ _ s', ∃ k, s' = upd (set_vins (vins_set b (concat ((λ p, p.1.1) <$> blk)) (t_vins (tables s))) (tables s)) k s).
Proof.
  induction 1 as [|[[vs os] b'] blk Hb _ IH]; intros n s Hl; cbn [setVinsMainchainForMany].
  { apply post_ret. exists (clock s). rewrite <- (upd_id s) at 1. by destruct s as [[] ? ? ? ? ?]. }
  cbn in Hb. subst b'. apply post_bind. eapply post_mono; [by apply vinsOneTxn_post|].
  intros [n' ok] s' [Hok (k & ->)]. cbn in Hok. subst ok. eapply post_mono; [apply IH; by apply live_upd|].
  intros _ s2 (k2 & ->). exists k2. cbn [fmap list_fmap concat fst]. unfold vins_set. by rewrite foldl_app.
Qed.

(** The rows of the addresses table for one kind of IDs. *)
Definition addrs_set (funding : bool) (ids : list Z) (m : gmap Z AddrRow) : gmap Z AddrRow :=
  foldl (λ m id, addr_main false funding id <$> m) m ids.
Definition off (r : AddrRow) : AddrRow := mkAddrRow (ar_address r) (ar_is_funding r) (ar_vin_vout r) false.
Lemma addrs_set_lookup funding ids : ∀ m i, addrs_set funding ids m !! i =
  (λ r, if decide (ar_is_funding r = funding ∧ ar_vin_vout r ∈ ids) then off r else r) <$> m !! i.
Proof.
  induction ids as [|x ids IH]; intros m i.
  - cbn. destruct (m !! i) as [r|]; [|done]. cbn. by rewrite decide_False by (by intros [_ ?%elem_of_nil]).
  - change (addrs_set funding (x :: ids) m) with (addrs_set funding ids (addr_main false funding x <$> m)). rewrite IH, lookup_fmap.
    destruct (m !! i) as [r|]; [|done]. cbn. unfold addr_main. f_equal.
    destruct (decide (ar_is_funding r = funding ∧ ar_vin_vout r = x)) as [[H1 H2]|Hn]; cbn [ar_is_funding ar_vin_vout].
    + rewrite (decide_True (P:=ar_is_funding r = funding ∧ ar_vin_vout r ∈ x :: ids)) by (split; [done|]; rewrite H2; by left).
      by destruct (decide _).
    + destruct (decide (ar_is_funding r = funding ∧ ar_vin_vout r ∈ ids)) as [[H1 H2]|Hn'].
      * by rewrite decide_True by (split; [done|by right]).
      * rewrite decide_False; [done|]. intros [? [?|?]%elem_of_cons]; [by apply Hn|by apply Hn'].
Qed.

(** For a row that is turned off, the address of a row with its output or input
    is reported. *)
Definition reported (funding : bool) (ids : list Z) (m : gmap Z AddrRow) (addrs : gset string) : Prop :=
  ∀ i r, m !! i = Some r → ar_is_funding r = funding → ar_vin_vout r ∈ ids →
    ∃ j r', m !! j = Some r' ∧ ar_is_funding r' = funding ∧ ar_vin_vout r' = ar_vin_vout r ∧ ar_address r' ∈ addrs.

Lemma addr_main_same b f x r : ar_is_funding (addr_main b f x r) = ar_is_funding r ∧ ar_vin_vout (addr_main b f x r) = ar_vin_vout r ∧
  ar_address (addr_main b f x r) = ar_address r.
Proof. unfold addr_main. by destruct (decide _). Qed.

Lemma head_row funding x m i r : m !! i = Some r → ar_is_funding r = funding → ar_vin_vout r = x →
  ∃ j r', m !! j = Some r' ∧ ar_is_funding r' = funding ∧ ar_vin_vout r' = x ∧
    head (filter (λ p : Z * AddrRow, ar_is_funding p.2 = funding ∧ ar_vin_vout p.2 = x) (range_of m)) = Some (j, r').
Proof.
  intros Hi Hf Hx.
  destruct (filter (λ p : Z * AddrRow, ar_is_funding p.2 = funding ∧ ar_vin_vout p.2 = x) (range_of m)) as [|[j r'] l] eqn:E.
  - assert ((i, r) ∈ @nil (Z * AddrRow)) as H; [|by apply elem_of_nil in H]. rewrite <- E.
    apply list_elem_of_filter. split; [done|]. by apply elem_of_range.
  - exists j, r'. assert ((j, r') ∈ (j, r') :: l) as H by (by left). rewrite <- E in H.
    apply list_elem_of_filter in H as [[H1 H2] H3%elem_of_range]. by split_and!.
Qed.

Lemma update_addrs_post funding ids : ∀ addrs n s, live s →
  post False (update_addrs funding false ids addrs n) s (λ r s', r.2 = true ∧ addrs ⊆ r.1.1 ∧
    reported funding ids (t_addrs (tables s)) r.1.1 ∧
    ∃ k, s' = upd (set_addrs (addrs_set funding ids (t_addrs (tables s))) (tables s)) k s).
Proof.
  induction ids as [|x ids IH]; intros addrs n s Hl; cbn [update_addrs].
  { apply post_ret. split_and!; [done|done|by intros i r _ _ ?%elem_of_nil|]. exists (clock s). rewrite <- (upd_id s) at 1.
    by destruct s as [[] ? ? ? ? ?]. }
  apply post_bind, post_exec; [done|]. cbn [fst snd SetAddressMainchain].
  set (m := t_addrs (tables s)). set (T1 := set_addrs _ _).
  assert (∀ A : gset string, reported funding ids (addr_main false funding x <$> m) A → reported funding ids m A) as Hback.
  { intros A H i r Hi Hf Hx. destruct (H i (addr_main false funding x r)) as (j & r' & Hj & H1 & H2 & H3).
    - by rewrite lookup_fmap, Hi.
    - by rewrite (proj1 (addr_main_same _ _ _ r)).
    - by rewrite (proj1 (proj2 (addr_main_same _ _ _ r))).
    - rewrite lookup_fmap in Hj. destruct (m !! j) as [r0|] eqn:E0; [|done]. injection Hj as <-.
      destruct (addr_main_same false funding x r0) as (E1 & E2 & E3), (addr_main_same false funding x r) as (_ & E4 & _).
      exists j, r0. rewrite <- E1, <- E2, <- E3, H2, E4 by done. by split_and!. }
  destruct (ar_address ∘ snd <$> head _) as [a|] eqn:Ea.
  - eapply post_mono; [apply IH; by apply live_upd|]. intros [[A n'] ok] s' (Hok & Hs & Hr & (k & ->)). cbn [fst snd] in *.
    split_and!; [done|set_solver| |by exists k]. intros i r Hi Hf [Hx|Hx]%elem_of_cons; [|by apply (Hback A Hr i)].
    destruct (head_row funding x m i r Hi Hf Hx) as (j & r' & Hj & H1 & H2 & Hh). rewrite Hh in Ea.
    injection Ea as <-. exists j, r'. rewrite Hx. split_and!; try done. apply Hs. set_solver.
  - eapply post_mono; [apply IH; by apply live_upd|]. intros [[A n'] ok] s' (Hok & Hs & Hr & (k & ->)). cbn [fst snd] in *.
    split_and!; [done|done| |by exists k]. intros i r Hi Hf [Hx|Hx]%elem_of_cons; [|by apply (Hback A Hr i)].
    destruct (head_row funding x m i r Hi Hf Hx) as (j & r' & Hj & H1 & H2 & Hh). by rewrite Hh in Ea.
Qed.

(** *** The rows of a set of blocks *)
Definition in_blocks (B : gset Hash) (T : Tables) (P : TxRow → Prop) : Prop := ∃ j t, t_txs T !! j = Some t ∧ tr_block t ∈ B ∧ P t.
Definition block_txs (B : gset Hash) (T : Tables) : list TxRow := filter (λ t, tr_block t ∈ B) (map_to_list (t_txs T)).*2.
Definition vin_ids (B : gset Hash) (T : Tables) : list Z := concat (tr_vins <$> block_txs B T).
Definition vout_ids (B : gset Hash) (T : Tables) : list Z := concat (tr_vouts <$> block_txs B T).

Lemma elem_of_block_txs B T t : t ∈ block_txs B T ↔ ∃ j, t_txs T !! j = Some t ∧ tr_block t ∈ B.
Proof.
  unfold block_txs. rewrite list_elem_of_filter, list_elem_of_fmap. split.
  - intros [Hb ([j t'] & -> & Hj%elem_of_map_to_list)]. by exists j.
  - intros (j & Hj & Hb). split; [done|]. exists (j, t). split; [done|]. by apply elem_of_map_to_list.
Qed.
Lemma elem_of_concat_fmap {A} (f : A → list Z) l i : i ∈ concat (f <$> l) ↔ ∃ x, x ∈ l ∧ i ∈ f x.
Proof.
  induction l as [|x l IH]; cbn; [split; [by intros ?%elem_of_nil|by intros (? & ?%elem_of_nil & _)]|].
  rewrite elem_of_app, IH. setoid_rewrite elem_of_cons. split; [intros [?|(y & ? & ?)]; eauto|].
  intros (y & [->|?] & ?); eauto.
Qed.
Lemma elem_of_vin_ids B T i : i ∈ vin_ids B T ↔ in_blocks B T (λ t, i ∈ tr_vins t).
Proof. unfold vin_ids, in_blocks. rewrite elem_of_concat_fmap. setoid_rewrite elem_of_block_txs. naive_solver. Qed.
Lemma elem_of_vout_ids B T i : i ∈ vout_ids B T ↔ in_blocks B T (λ t, i ∈ tr_vouts t).
Proof. unfold vout_ids, in_blocks. rewrite elem_of_concat_fmap. setoid_rewrite elem_of_block_txs. naive_solver. Qed.

Definition touched (B : gset Hash) (T : Tables) (r : AddrRow) : Prop :=
  if ar_is_funding r then ar_vin_vout r ∈ vout_ids B T else ar_vin_vout r ∈ vin_ids B T.
#[local] Instance touched_dec B T r : Decision (touched B T r).
Proof. unfold touched. destruct (ar_is_funding r); apply _. Defined.

Definition tx_off (t : TxRow) : TxRow :=
  mkTxRow (tr_hash t) (tr_block t) (tr_height t) (tr_tree t) (tr_index t) (tr_vins t) (tr_vouts t) false.
Definition spent_by (B : gset Hash) (T : Tables) (o : OutRow) : Prop :=
  match or_spend o with Some i => match t_txs T !! i with Some t => tr_block t ∈ B | None => False end | None => False end.
#[local] Instance spent_by_dec B T o : Decision (spent_by B T o).
Proof. unfold spent_by. destruct (or_spend o) as [i|]; [destruct (t_txs T !! i)|]; apply _. Defined.

(** [T'] is [T] with the blocks of [B] off the main chain; the miners are left
    out. *)
Record orphaned (B : gset Hash) (T T' : Tables) : Prop := {
  or_blocks h : t_blocks T' !! h =
    (λ r, if decide (h ∈ B) then mkBlockRow (br_height r) (br_prev r) false else r) <$> t_blocks T !! h;
  or_txs i : t_txs T' !! i = (λ t, if decide (tr_block t ∈ B) then tx_off t else t) <$> t_txs T !! i;
  or_vins i : t_vins T' !! i = (λ b, if decide (i ∈ vin_ids B T) then false else b) <$> t_vins T !! i;
  or_outs i : t_outs T' !! i = (λ o, if decide (spent_by B T o) then unspend o else o) <$> t_outs T !! i;
  or_addrs i : t_addrs T' !! i = (λ r, if decide (touched B T r) then off r else r) <$> t_addrs T !! i;
  or_votes i : t_votes T' !! i = (λ r, if decide (sr_block r ∈ B) then mkStakeRow (sr_block r) false else r) <$> t_votes T !! i;
  or_tickets i : t_tickets T' !! i = (λ r, if decide (sr_block r ∈ B) then mkStakeRow (sr_block r) false else r) <$> t_tickets T !! i
}.

(** Case analysis on every condition of a goal about options of rows. *)
Ltac cases := repeat match goal with
  | |- context [decide ?P] => destruct (decide P)
  | |- context [?m !! ?i] => destruct (m !! i) eqn:?; cbn
  end.

Lemma orphaned_empty T : orphaned ∅ T T.
Proof.
  assert (∀ i, (i ∉ vin_ids ∅ T) ∧ (i ∉ vout_ids ∅ T)) as H.
  { intros i. rewrite elem_of_vin_ids, elem_of_vout_ids. split; by intros (j & t & _ & ?%elem_of_empty & _). }
  assert (∀ r, ¬ touched ∅ T r) as Ht by (intros r; unfold touched; destruct (ar_is_funding r); apply H).
  assert (∀ o, ¬ spent_by ∅ T o) as Hs by (intros o; unfold spent_by; destruct (or_spend o); [destruct (t_txs T !! _)|]; set_solver).
  constructor; intros i; match goal with |- ?x = _ <$> ?y => destruct y as [r|] eqn:E; cbn; [|done] end; rewrite decide_False;
    try done; try apply H; try apply Ht; try apply Hs; set_solver.
Qed.

Lemma in_blocks_orphaned B B' T T' (P : TxRow → Prop) : orphaned B T T' → (∀ t, P (tx_off t) ↔ P t) →
  in_blocks B' T' P ↔ in_blocks B' T P.
Proof.
  intros H HP. unfold in_blocks. split; intros (j & t & Hj & Hb & Ht).
  - rewrite (or_txs _ _ _ H) in Hj. destruct (t_txs T !! j) as [t0|] eqn:E; [|done]. injection Hj as <-. exists j, t0.
    destruct (decide _); [|done]. split_and!; [done|done|by apply HP].
  - exists j, (if decide (tr_block t ∈ B) then tx_off t else t). split; [by rewrite (or_txs _ _ _ H), Hj|].
    destruct (decide _); [|done]. split; [done|by apply HP].
Qed.
Lemma vin_ids_orphaned B B' T T' i : orphaned B T T' → i ∈ vin_ids B' T' ↔ i ∈ vin_ids B' T.
Proof. intros H. rewrite !elem_of_vin_ids. by apply (in_blocks_orphaned B). Qed.
Lemma vout_ids_orphaned B B' T T' i : orphaned B T T' → i ∈ vout_ids B' T' ↔ i ∈ vout_ids B' T.
Proof. intros H. rewrite !elem_of_vout_ids. by apply (in_blocks_orphaned B). Qed.
Lemma in_blocks_union B1 B2 T P : in_blocks (B1 ∪ B2) T P ↔ in_blocks B1 T P ∨ in_blocks B2 T P.
Proof. unfold in_blocks. set_solver. Qed.
Lemma touched_union B1 B2 T r : touched (B1 ∪ B2) T r ↔ touched B1 T r ∨ touched B2 T r.
Proof.
  unfold touched. destruct (ar_is_funding r); rewrite ?elem_of_vin_ids, ?elem_of_vout_ids; apply in_blocks_union.
Qed.
Lemma touched_orphaned B B' T T' r : orphaned B T T' → touched B' T' r ↔ touched B' T r.
Proof.
  intros H. unfold touched. destruct (ar_is_funding r); [by apply (vout_ids_orphaned B)|by apply (vin_ids_orphaned B)].
Qed.
Lemma spent_by_orphaned B B' T T' o : orphaned B T T' → spent_by B' T' o ↔ spent_by B' T o.
Proof.
  intros H. unfold spent_by. destruct (or_spend o) as [i|]; [|done]. rewrite (or_txs _ _ _ H).
  destruct (t_txs T !! i) as [t|]; [|done]. cbn. by destruct (decide _).
Qed.

(** Two steps of conditional changes are one. *)
Lemma if_if {A} (P Q R : Prop) `{Decision P, Decision Q, Decision R} (x y z : A) (f : A → A) :
  (R ↔ P ∨ Q) → f x = y → f y = y → z = (if decide Q then f (if decide P then y else x) else if decide P then y else x) →
  z = if decide R then y else x.
Proof. intros HR Hx Hy ->. destruct (decide P), (decide Q), (decide R); tauto || done. Qed.

Lemma orphaned_trans B1 B2 T T1 T2 : orphaned B1 T T1 → orphaned B2 T1 T2 → orphaned (B1 ∪ B2) T T2.
Proof.
  intros H1 H2.
  constructor; intros i.
  - rewrite (or_blocks _ _ _ H2), (or_blocks _ _ _ H1). destruct (t_blocks T !! i) as [r|]; [|done]. cbn. f_equal.
    apply (if_if (i ∈ B1) (i ∈ B2) _ r _ _ (λ r, mkBlockRow (br_height r) (br_prev r) false)); [apply elem_of_union|done..].
  - rewrite (or_txs _ _ _ H2), (or_txs _ _ _ H1). destruct (t_txs T !! i) as [t|]; [|done]. cbn. f_equal.
    apply (if_if (tr_block t ∈ B1) (tr_block t ∈ B2) _ t _ _ tx_off); [apply elem_of_union|done|done|].
    destruct (decide (tr_block t ∈ B1)); cbn; done.
  - rewrite (or_vins _ _ _ H2), (or_vins _ _ _ H1). destruct (t_vins T !! i) as [b|]; [|done]. cbn. f_equal.
    apply (if_if (i ∈ vin_ids B1 T) (i ∈ vin_ids B2 T1) _ b _ _ (λ _, false)); [|done..].
    rewrite (vin_ids_orphaned B1 B2 T T1 i H1), !elem_of_vin_ids. apply in_blocks_union.
  - rewrite (or_outs _ _ _ H2), (or_outs _ _ _ H1). destruct (t_outs T !! i) as [o|]; [|done]. cbn. f_equal.
    destruct (decide (spent_by B1 T o)) as [Hs|Hs].
    + rewrite (decide_False (P:=spent_by B2 T1 (unspend o))) by (unfold spent_by; cbn; tauto). rewrite decide_True; [done|]. unfold spent_by in *. destruct (or_spend o); [|done].
      destruct (t_txs T !! _); [|done]. set_solver.
    + apply decide_ext. rewrite (spent_by_orphaned B1 B2 T T1 o H1). unfold spent_by in *. destruct (or_spend o); [|done].
      destruct (t_txs T !! _); [|done]. set_solver.
  - rewrite (or_addrs _ _ _ H2), (or_addrs _ _ _ H1). destruct (t_addrs T !! i) as [r|]; [|done]. cbn. f_equal.
    apply (if_if (touched B1 T r) (touched B2 T r) _ r _ _ off); [apply touched_union|done|done|].
    destruct (decide (touched B1 T r)); apply decide_ext; by rewrite (touched_orphaned B1 B2 T T1 _ H1).
  - rewrite (or_votes _ _ _ H2), (or_votes _ _ _ H1). destruct (t_votes T !! i) as [r|]; [|done]. cbn. f_equal.
    apply (if_if (sr_block r ∈ B1) (sr_block r ∈ B2) _ r _ _ (λ r, mkStakeRow (sr_block r) false)); [apply elem_of_union|done|done|].
    destruct (decide (sr_block r ∈ B1)); cbn; done.
  - rewrite (or_tickets _ _ _ H2), (or_tickets _ _ _ H1). destruct (t_tickets T !! i) as [r|]; [|done]. cbn. f_equal.
    apply (if_if (sr_block r ∈ B1) (sr_block r ∈ B2) _ r _ _ (λ r, mkStakeRow (sr_block r) false)); [apply elem_of_union|done|done|].
    destruct (decide (sr_block r ∈ B1)); cbn; done.
Qed.

(** *** One block *)
(** The rows of the block, as the statement lists them. *)
Lemma select_ids (f : TxRow → list Z) h T T2 i : t_txs T2 = tx_main false h <$> t_txs T → (∀ t, f (tx_off t) = f t) →
  i ∈ concat ((λ p : Z * TxRow, f p.2) <$> filter (λ p, tr_block p.2 = h) (range_of (t_txs T2))) ↔
  in_blocks {[h]} T (λ t, i ∈ f t).
Proof.
  intros E Hf. rewrite elem_of_concat_fmap. unfold in_blocks. rewrite E. unfold tx_main. split.
  - intros ([j t] & [Hb Hj%elem_of_range]%list_elem_of_filter & Hi). cbn [snd] in *. rewrite lookup_fmap in Hj.
    destruct (t_txs T !! j) as [t0|] eqn:E0; [|done]. injection Hj as <-. exists j, t0.
    destruct (decide (tr_block t0 = h)); [|done]. split; [done|]. split; [set_solver|]. by rewrite <- Hf.
  - intros (j & t & Hj & Hb%elem_of_singleton & Hi). exists (j, tx_off t). split; [|cbn; by rewrite Hf].
    apply list_elem_of_filter. split; [done|]. apply elem_of_range. rewrite lookup_fmap, Hj. cbn. by rewrite decide_True.
Qed.

Definition addresses_reported (B : gset Hash) (T : Tables) (A : gset string) : Prop :=
  ∀ i r, t_addrs T !! i = Some r → touched B T r →
    ∃ j r', t_addrs T !! j = Some r' ∧ ar_is_funding r' = ar_is_funding r ∧ ar_vin_vout r' = ar_vin_vout r ∧ ar_address r' ∈ A.

Lemma vinsByBlock_post h T s : live s → t_txs (tables s) = tx_main false h <$> t_txs T →
  post False (setVinsMainchainByBlock h) s (λ r s', ∃ k ids, s' = upd (set_vins (vins_set false ids (t_vins (tables s))) (tables s)) k s ∧
    ids = concat r.1.2 ∧ (∀ i, i ∈ concat r.1.2 ↔ i ∈ vin_ids {[h]} T) ∧ (∀ i, i ∈ concat r.2 ↔ i ∈ vout_ids {[h]} T)).
Proof.
  intros Hl E. unfold setVinsMainchainByBlock. apply post_bind, post_exec; [done|]. cbn [fst snd SelectTxnsVinsVoutsByBlock].
  set (blk := _ <$> filter _ _). apply post_bind. rewrite (upd_upd (tables s)) || idtac.
  eapply post_mono; [apply (vinsForMany_post false blk); [|by apply live_upd]|].
  { unfold blk. apply Forall_fmap, Forall_forall. intros [j t] [Hb Hj%elem_of_range]%list_elem_of_filter. cbn in *.
    rewrite E, lookup_fmap in Hj. destruct (t_txs T !! j) as [t0|]; [|done]. injection Hj as <-. unfold tx_main in *.
    by destruct (decide (tr_block t0 = h)). }
  intros n s2 (k & ->). apply post_ret. cbn [fst snd tables upd]. exists k. eexists. split_and!; [done|done| |].
  - intros i. unfold blk. rewrite elem_of_vin_ids, <- list_fmap_compose. by apply (select_ids tr_vins).
  - intros i. unfold blk. rewrite elem_of_vout_ids, <- list_fmap_compose. by apply (select_ids tr_vouts).
Qed.

(** Both kinds of rows. *)
Lemma updateAddresses_post vins vouts s : live s →
  post False (updateAddressesMainchainByIDs vins vouts false) s (λ r s', ∃ k,
    s' = upd (set_addrs (addrs_set true (concat vouts) (addrs_set false (concat vins) (t_addrs (tables s)))) (tables s)) k s ∧
    reported false (concat vins) (t_addrs (tables s)) r.1 ∧ reported true (concat vouts) (t_addrs (tables s)) r.1).
Proof.
  intros Hl. unfold updateAddressesMainchainByIDs. apply post_bind. eapply post_mono; [by apply update_addrs_post|].
  intros [[A n] ok] s1 (Hok & _ & Hr & (k & ->)). cbn [fst snd] in *. subst ok. cbn [negb].
  apply post_bind. eapply post_mono; [apply update_addrs_post; by apply live_upd|].
  intros [[A' n'] ok] s2 (Hok & Hs & Hr' & (k2 & ->)). cbn [fst snd tables upd t_addrs set_addrs] in *. subst ok. apply post_ret.
  exists k2. split_and!; [done| |].
  - intros i r Hi Hf Hx. destruct (Hr i r Hi Hf Hx) as (j & r' & ? & ? & ? & ?). exists j, r'. split_and!; try done. by apply Hs.
  - intros i r Hi Hf Hx.
    assert (∀ i, addrs_set false (concat vins) (t_addrs (tables s)) !! i =
      (λ r, if decide (ar_is_funding r = false ∧ ar_vin_vout r ∈ concat vins) then off r else r) <$> t_addrs (tables s) !! i) as Hset
      by (intros; apply addrs_set_lookup).
    destruct (Hr' i r) as (j & r' & Hj & H1 & H2 & H3); [|done|done|].
    + rewrite Hset, Hi. cbn. rewrite decide_False; [done|]. intros [? _]. congruence.
    + rewrite Hset in Hj. destruct (t_addrs (tables s) !! j) as [r0|] eqn:E0; [|done]. injection Hj as <-.
      exists j, r0. by destruct (decide _).
Qed.

Lemma orphaned_one h row T T1 Tf vins vouts : t_blocks T !! h = Some row →
  (∀ i, i ∈ vins ↔ i ∈ vin_ids {[h]} T) → (∀ i, i ∈ vouts ↔ i ∈ vout_ids {[h]} T) →
  t_txs T1 = tx_main false h <$> t_txs T →
  t_blocks Tf = <[h := mkBlockRow (br_height row) (br_prev row) false]> (t_blocks T) → t_txs Tf = t_txs T1 →
  t_outs Tf = (λ o, if spent_in h T1 o then unspend o else o) <$> t_outs T →
  t_vins Tf = vins_set false vins (t_vins T) → t_addrs Tf = addrs_set true vouts (addrs_set false vins (t_addrs T)) →
  t_votes Tf = stake_main false h <$> t_votes T → t_tickets Tf = stake_main false h <$> t_tickets T →
  orphaned {[h]} T Tf.
Proof.
  intros Hrow Hvin Hvout E1 Eb Et Eo Ev Ea Evo Eti.
  assert (∀ (x : Hash) (A : Type) (a b : A), (if decide (x ∈ ({[h]} : gset Hash)) then a else b) = if decide (x = h) then a else b) as Hd.
  { intros x A a b. apply decide_ext, elem_of_singleton. }
  constructor; intros i.
  - rewrite Eb. destruct (decide (i = h)) as [->|Hi].
    + rewrite lookup_insert_eq, Hrow. cbn. by rewrite Hd, decide_True.
    + rewrite lookup_insert_ne by done. destruct (t_blocks T !! i); [|done]. cbn. by rewrite Hd, decide_False.
  - rewrite Et, E1, lookup_fmap. destruct (t_txs T !! i) as [t|]; [|done]. cbn. by rewrite Hd.
  - rewrite Ev, vins_set_lookup. destruct (t_vins T !! i) as [b|]; [|done]. cbn.
    rewrite (decide_ext _ _ _ _ (iff_sym (Hvin i))). by destruct (decide (i ∈ vins)).
  - rewrite Eo, lookup_fmap. destruct (t_outs T !! i) as [o|]; [|done]. cbn. f_equal.
    unfold spent_in. destruct (or_spend o) as [x|] eqn:Ex; [|by rewrite (decide_False (P:=spent_by {[h]} T o)) by (unfold spent_by; rewrite Ex; tauto)].
    rewrite E1, lookup_fmap. destruct (t_txs T !! x) as [t|] eqn:Ext.
    + cbn. assert (tr_block (tx_main false h t) = tr_block t) as -> by (unfold tx_main; by destruct (decide _)).
      assert (spent_by {[h]} T o ↔ tr_block t = h) as Hs by (unfold spent_by; rewrite Ex, Ext; set_solver).
      rewrite (decide_ext _ _ _ _ Hs). case_bool_decide as Hb; [rewrite decide_True|rewrite decide_False]; congruence.
    + cbn. rewrite (decide_False (P:=spent_by {[h]} T o)); [done|]. unfold spent_by. rewrite Ex, Ext. tauto.
  - rewrite Ea, !addrs_set_lookup. destruct (t_addrs T !! i) as [r|]; [|done]. cbn. f_equal.
    assert (touched {[h]} T r ↔ (ar_is_funding r = true ∧ ar_vin_vout r ∈ vouts) ∨ (ar_is_funding r = false ∧ ar_vin_vout r ∈ vins)) as Ht.
    { unfold touched. rewrite Hvin, Hvout. destruct (ar_is_funding r); naive_solver. }
    rewrite (decide_ext _ _ _ _ Ht). clear Ht.
    destruct (decide (ar_is_funding r = false ∧ ar_vin_vout r ∈ vins)) as [[Hf Hv]|Hn]; cbn [ar_is_funding ar_vin_vout off].
    + rewrite (decide_False (P:=ar_is_funding r = true ∧ _)) by (intros [? _]; congruence). by rewrite decide_True by auto.
    + destruct (decide (ar_is_funding r = true ∧ ar_vin_vout r ∈ vouts)) as [Hy|Hy]; [by rewrite decide_True by auto|].
      rewrite decide_False by tauto. done.
  - rewrite Evo, lookup_fmap. destruct (t_votes T !! i) as [r|]; [|done]. cbn. by rewrite Hd.
  - rewrite Eti, lookup_fmap. destruct (t_tickets T !! i) as [r|]; [|done]. cbn. by rewrite Hd.
Qed.

Lemma orphan_block_post h row s : live s → t_blocks (tables s) !! h = Some row →
  post False (orphan_block h) s (λ r s', r.1 = br_prev row ∧ orphaned {[h]} (tables s) (tables s') ∧
    addresses_reported {[h]} (tables s) r.2 ∧ live s' ∧ AddrCache s' = AddrCache s ∧
    best_hash s' = br_prev row ∧ best_height s' = default 0 (br_height <$> t_blocks (tables s) !! br_prev row)).
Proof.
  intros Hl Hrow. set (T := tables s) in *. unfold orphan_block.
  apply post_bind. eapply post_run; [done|unfold UpdateBlockMainchain; fold T; by rewrite Hrow|]. intros k1. fold T.
  apply post_bind. eapply post_run; [done|done|]. intros k2. rewrite upd_upd. cbn [tables upd t_txs set_blocks].
  apply post_bind. eapply post_run; [done|done|]. intros k3. rewrite upd_upd. cbn [tables upd].
  apply post_bind. eapply post_mono; [apply (vinsByBlock_post h T); [by apply live_upd|done]|].
  intros [[n vins] vouts] s1 (k4 & ids & -> & -> & Hvin & Hvout). cbn [fst snd] in *. rewrite upd_upd.
  apply post_bind. eapply post_mono; [apply updateAddresses_post; by apply live_upd|].
  intros [A n'] s2 (k5 & -> & Hr1 & Hr2). cbn [fst snd] in *. rewrite upd_upd.
  apply post_bind. eapply post_run; [done|done|]. intros k6. rewrite upd_upd.
  apply post_bind. eapply post_run; [done|done|]. intros k7. rewrite upd_upd.
  apply post_bind. eapply post_run; [done|done|]. intros k8. rewrite upd_upd.
  cbn [tables upd t_blocks t_txs t_vins t_outs t_addrs t_votes t_tickets t_miners set_blocks set_txs set_vins set_outs set_addrs set_votes set_tickets set_miners fst snd] in *.
  rewrite lookup_insert_eq. cbn [fmap option_fmap option_map br_height default from_option id].
  match goal with |- post False _ (upd ?T8 _ _) _ => set (Tf := T8) end.
  assert (orphaned {[h]} T Tf) as Ho.
  { by eapply (orphaned_one h row T (set_txs (tx_main false h <$> t_txs T) T) Tf (concat vins) (concat vouts)). }
  apply post_bind, post_bind. eapply post_run; [done|done|]. intros k9. rewrite upd_upd.
  apply post_bind. eapply post_run; [done|done|]. intros k10. rewrite upd_upd.
  apply post_ret. apply post_bind. eapply post_run; [done|done|]. intros k11. rewrite upd_upd.
  unfold id. cbn [post modify mret goM_ret mbind goM_bind fst snd tables upd set_best best_hash best_height AddrCache].
  split; [done|]. split; [destruct Ho; by constructor|]. split_and!; try done.
  - intros i r Hi Ht. unfold touched in Ht. destruct (ar_is_funding r) eqn:Ef.
    + destruct (Hr2 i r Hi Ef ltac:(by apply Hvout)) as (j & r' & ? & ? & ? & ?). by exists j, r'.
    + destruct (Hr1 i r Hi Ef ltac:(by apply Hvin)) as (j & r' & ? & ? & ? & ?). by exists j, r'.
  - cbn. rewrite (or_blocks _ _ _ Ho). destruct (t_blocks T !! br_prev row) as [r|]; [|done]. cbn. by destruct (decide _).
Qed.

(** *** The whole branch *)
(** The blocks from [tip] back to the root, which is not among them. *)
Fixpoint branch (T : Tables) (tip : Hash) (hs : list Hash) (root : Hash) : Prop :=
  match hs with
  | [] => tip = root
  | h :: hs => h = tip ∧ h ≠ root ∧ ∃ row, t_blocks T !! h = Some row ∧ branch T (br_prev row) hs root
  end.

Lemma branch_orphaned B T T' hs : orphaned B T T' → ∀ tip root, branch T tip hs root → branch T' tip hs root.
Proof.
  intros Ho. induction hs as [|h hs IH]; intros tip root; cbn [branch]; [done|].
  intros (-> & Hr & row & Hrow & Hb). split; [done|]. split; [done|]. rewrite (or_blocks _ _ _ Ho), Hrow. cbn.
  eexists. split; [done|]. apply IH. by destruct (decide _).
Qed.

Lemma reported_orphaned B1 B2 T T1 A1 A2 : orphaned B1 T T1 → addresses_reported B1 T A1 → addresses_reported B2 T1 A2 →
  addresses_reported (B1 ∪ B2) T (A1 ∪ A2).
Proof.
  intros Ho H1 H2 i r Hi Ht. destruct (decide (touched B1 T r)) as [Ht1|Ht1].
  - destruct (H1 i r Hi Ht1) as (j & r' & ? & ? & ? & ?). exists j, r'. split_and!; [done..|set_solver].
  - assert (touched B2 T1 r) as Ht2 by (apply (touched_orphaned B1 B2 T T1 r Ho); apply touched_union in Ht; tauto).
    destruct (H2 i r) as (j & r' & Hj & H3 & H4 & H5); [|done|].
    + rewrite (or_addrs _ _ _ Ho), Hi. cbn. by rewrite decide_False.
    + rewrite (or_addrs _ _ _ Ho) in Hj. destruct (t_addrs T !! j) as [r0|] eqn:E; [|done]. injection Hj as <-.
      exists j, r0. destruct (decide _); split_and!; done || set_solver.
Qed.

Lemma loop_step P fuel root tip n A s Q : tip ≠ root →
  post P ('(tipHash, addrs) ← orphan_block tip; TipToSideChain_loop fuel root tipHash (n + 1) (A ∪ addrs)) s Q →
  post P (TipToSideChain_loop (S fuel) root tip n A) s Q.
Proof. intros H. unfold post. cbn [TipToSideChain_loop]. by rewrite decide_False. Qed.

Lemma loop_post root hs : ∀ fuel n A s, (length hs <= fuel)%nat → live s → branch (tables s) (best_hash s) hs root →
  post False (TipToSideChain_loop fuel root (best_hash s) n A) s (λ r s', r.1 = (root, n + zlen hs) ∧
    orphaned (list_to_set hs) (tables s) (tables s') ∧ (∃ A', r.2 = A ∪ A' ∧ addresses_reported (list_to_set hs) (tables s) A') ∧
    live s' ∧ AddrCache s' = AddrCache s ∧ best_hash s' = root ∧
    best_height s' = match hs with [] => best_height s | _ => default 0 (br_height <$> t_blocks (tables s) !! root) end).
Proof.
  induction hs as [|h hs IH]; intros fuel n A s Hf Hl; cbn [branch length] in *.
  { intros E. unfold post. destruct fuel; cbn; rewrite decide_True by done; rewrite E, Z.add_0_r; split_and!; try done;
      try (apply orphaned_empty); exists ∅; (split; [set_solver|]); intros i r _ Ht; unfold touched in Ht;
      destruct (ar_is_funding r); rewrite ?elem_of_vin_ids, ?elem_of_vout_ids in Ht; destruct Ht as (? & ? & _ & ? & _); set_solver. }
  intros (-> & Hne & row & Hrow & Hb). destruct fuel as [|fuel]; [lia|]. apply loop_step; [done|].
  apply post_bind. eapply post_mono; [by apply orphan_block_post|]. intros [prev A1] s1 (Hp & Ho & Hr & Hl1 & Hc & Hbh & Hht).
  cbn [fst snd] in *. subst prev. rewrite <- Hbh.
  eapply post_mono; [apply IH; [lia|done|rewrite Hbh; by eapply branch_orphaned]|].
  intros r s' (H1 & H2 & (A' & HA & H3) & H4 & H5 & H6 & H7).
  split; [rewrite H1; f_equal; unfold zlen; cbn [length]; lia|]. split; [by eapply orphaned_trans|]. split.
  { exists (A1 ∪ A'). split; [rewrite HA; set_solver|]. by eapply reported_orphaned. }
  split; [done|]. split; [congruence|]. split; [done|]. rewrite H7. destruct hs as [|h' hs].
  - cbn in Hb. by rewrite Hht, Hb.
  - rewrite (or_blocks _ _ _ Ho). destruct (t_blocks (tables s) !! root); [|done]. cbn. by destruct (decide _).
Qed.

Lemma clear_post A s : post False (clear_addresses A) s (λ _ s',
  tables s' = tables s ∧ best_hash s' = best_hash s ∧ best_height s' = best_height s ∧
  ∀ x, a (AddrCache s') !! x = if decide (x ∈ A) then None else a (AddrCache s) !! x).
Proof.
  unfold clear_addresses, post. destruct (decide (A = ∅)) as [->|Hn]; cbn; split_and!; try done; intros x.
  assert (∀ l n ac, a (Clear_loop l n ac).2 !! x = if decide (x ∈ l) then None else a ac !! x) as H.
    { induction l as [|y l IH]; intros n ac; cbn [Clear_loop].
      - by rewrite decide_False by (by intros ?%elem_of_nil).
      - rewrite bind_gets. destruct (a ac !! y) as [it|] eqn:E; [rewrite bind_modify|]; rewrite IH; cbn [a set_a].
        + destruct (decide (x = y)) as [->|Hxy].
          * rewrite (decide_True (P:=y ∈ y :: l)) by (by left). rewrite lookup_delete_eq. by destruct (decide (y ∈ l)).
          * rewrite lookup_delete_ne by done. apply decide_ext. rewrite elem_of_cons. tauto.
        + destruct (decide (x = y)) as [->|Hxy].
          * rewrite (decide_True (P:=y ∈ y :: l)) by (by left). by destruct (decide (y ∈ l)).
          * apply decide_ext. rewrite elem_of_cons. tauto. }
    change (a (Clear_loop (elements A) 0 (AddrCache s)).2 !! x = if decide (x ∈ A) then None else a (AddrCache s) !! x).
    rewrite H. apply decide_ext, elem_of_elements.
Qed.

(** C18: When no statement fails and the blocks lead from the best block back to
    the new root, the walk ends with the root as best block; exactly the rows
    of the blocks it passed are off the main chain, the outputs that these
    blocks spent are unspent.  For each output and each input whose address rows
    changed, the address of one of its rows is dropped from the cache; the other
    addresses of an output with several stay cached as they were, since only one
    row of the update's result is read. *)
Theorem TipToSideChain_orphans_branch fuel root hs s : live s → branch (tables s) (best_hash s) hs root → (length hs <= fuel)%nat →
  ∃ s', TipToSideChain fuel root s = (Ok (root, zlen hs), s') ∧
    orphaned (list_to_set hs) (tables s) (tables s') ∧ best_hash s' = root ∧
    best_height s' = match hs with [] => best_height s | _ => default 0 (br_height <$> t_blocks (tables s) !! root) end ∧
    ∀ i r, t_addrs (tables s) !! i = Some r → touched (list_to_set hs) (tables s) r →
      ∃ j r', t_addrs (tables s) !! j = Some r' ∧ ar_is_funding r' = ar_is_funding r ∧ ar_vin_vout r' = ar_vin_vout r ∧
        a (AddrCache s') !! ar_address r' = None.
Proof.
  intros Hl Hb Hf.
  assert (post False (TipToSideChain fuel root) s (λ r s', r = (root, zlen hs) ∧ orphaned (list_to_set hs) (tables s) (tables s') ∧
    best_hash s' = root ∧ best_height s' = match hs with [] => best_height s | _ => default 0 (br_height <$> t_blocks (tables s) !! root) end ∧
    ∃ A, addresses_reported (list_to_set hs) (tables s) A ∧ ∀ x, x ∈ A → a (AddrCache s') !! x = None)) as Hp.
  { unfold TipToSideChain. apply post_bind. unfold post at 1, gets. apply post_bind. eapply post_mono; [by apply (loop_post root hs)|].
    intros [[tip n] A] s1 ([= -> ->] & Ho & (A' & HA & Hr) & _ & _ & Hbh & Hht). cbn [snd] in HA.
    apply post_bind. eapply post_mono; [apply clear_post|]. intros _ s2 (Ht & Hbh2 & Hht2 & Hc). apply post_ret.
    rewrite Ht, Hbh2, Hht2. split_and!; try done. exists A. split; [|by intros x Hx; rewrite Hc, decide_True].
    rewrite HA. by replace (∅ ∪ A') with A' by set_solver. }
  unfold post in Hp. destruct (TipToSideChain fuel root s) as [[r|e| |] s'] eqn:E; try done.
  destruct Hp as (-> & Ho & Hbh & Hht & A & Hr & Hc). exists s'. split_and!; try done.
  intros i r Hi Ht. destruct (Hr i r Hi Ht) as (j & r' & ? & ? & ? & ?). exists j, r'. split_and!; try done. by apply Hc.
Qed.


(** ** When a statement fails

    No block has the zero hash. *)
Abbreviation M := (goM PgState Empty_set).
Definition rooted (s : PgState) : Prop := t_blocks (tables s) !! zeroHash = None.
Definition calm {A} (m : M A) : Prop := ∀ s, rooted s → post False m s (λ _ s', rooted s').
Lemma calm_ret {A} (x : A) : calm (mret x).
Proof. by intros s H. Qed.
Lemma calm_bind {A B} (m : M A) (k : A → M B) : calm m → (∀ x, calm (k x)) → calm (m ≫= k).
Proof. intros Hm Hk s H. apply post_bind. eapply post_mono; [by apply Hm|]. intros x s' H'. by apply Hk. Qed.
Lemma calm_exec {A} (f : Tables → option A * Tables) :
  (∀ T, t_blocks T !! zeroHash = None → t_blocks (f T).2 !! zeroHash = None) → calm (exec f).
Proof.
  intros Hf s H. unfold post, exec. destruct (conn s (clock s)); [|done]. specialize (Hf (tables s) H). by destruct (f (tables s)).
Qed.
Ltac solve_calm := repeat first [progress intros | apply calm_ret | apply calm_bind
  | (apply calm_exec; by intros ? ?) | assumption
  | match goal with |- calm (match ?x with _ => _ end) => destruct x end].

Lemma calm_UpdateBlock h b : calm (exec (UpdateBlockMainchain h b)).
Proof.
  apply calm_exec. intros T H. unfold UpdateBlockMainchain. destruct (t_blocks T !! h) eqn:E; [|done]. cbn [snd t_blocks set_blocks].
  rewrite lookup_insert_ne; [done|]. intros ->. congruence.
Qed.
Lemma calm_vins blk : ∀ n, calm (setVinsMainchainForMany blk n).
Proof.
  assert (∀ ids b n, calm (setVinsMainchainOneTxn ids b n)) as H.
  { induction ids as [|i ids IH]; intros b n; cbn [setVinsMainchainOneTxn]; [apply calm_ret|].
    apply calm_bind; [by apply calm_exec|]. intros [c|]; [apply IH|apply calm_ret]. }
  induction blk as [|[[vs os] b] blk IH]; intros n; cbn [setVinsMainchainForMany]; [apply calm_ret|].
  apply calm_bind; [apply H|]. intros [m []]; [apply IH|apply calm_ret].
Qed.
Lemma calm_addrs f v ids : ∀ A n, calm (update_addrs f v ids A n).
Proof.
  induction ids as [|i ids IH]; intros A n; cbn [update_addrs]; [apply calm_ret|].
  apply calm_bind; [by apply calm_exec|]. intros [[x|]|]; [apply IH..|apply calm_ret].
Qed.
Lemma calm_byBlock h : calm (setVinsMainchainByBlock h).
Proof.
  unfold setVinsMainchainByBlock. apply calm_bind; [by apply calm_exec|]. intros [blk|]; [|apply calm_ret].
  apply calm_bind; [apply calm_vins|]. intros n. apply calm_ret.
Qed.
Lemma calm_addresses vins vouts v : calm (updateAddressesMainchainByIDs vins vouts v).
Proof.
  unfold updateAddressesMainchainByIDs. apply calm_bind; [apply calm_addrs|]. intros [[A k] []]; cbn [negb]; [|apply calm_ret].
  apply calm_bind; [apply calm_addrs|]. intros [[A' k'] ok]. apply calm_ret.
Qed.
Lemma post_calm {A B} (m : M A) (k : A → M B) s Q : calm m → rooted s → (∀ x s', rooted s' → post False (k x) s' Q) → post False (m ≫= k) s Q.
Proof. intros Hm Hr Hk. apply post_bind. eapply post_mono; [by apply Hm|]. auto. Qed.

(** A block that is not found, or whose flag cannot be set, is followed by the
    zero hash. *)
Lemma orphan_block_lost h s : rooted s → (conn s (clock s) = false ∨ t_blocks (tables s) !! h = None) →
  post False (orphan_block h) s (λ r s', r.1 = zeroHash ∧ rooted s').
Proof.
  intros Hr Hf. unfold orphan_block. apply post_bind.
  assert (post False (exec (UpdateBlockMainchain h false)) s (λ r s', r = None ∧ rooted s')) as H1.
  { unfold post, exec. destruct (conn s (clock s)); [|done]. destruct Hf as [?|Hf]; [done|].
    unfold UpdateBlockMainchain. by rewrite Hf. }
  eapply post_mono; [exact H1|]. intros p s1 [-> Hr1]. cbn [default].
  apply post_calm; [by apply calm_exec|done|]. intros _ s2 Hr2.
  apply post_calm; [by apply calm_exec|done|]. intros _ s3 Hr3.
  apply post_calm; [apply calm_byBlock|done|]. intros [[n vins] vouts] s4 Hr4.
  apply post_calm; [apply calm_addresses|done|]. intros [A n'] s5 Hr5.
  apply post_calm; [by apply calm_exec|done|]. intros _ s6 Hr6.
  apply post_calm; [by apply calm_exec|done|]. intros _ s7 Hr7.
  apply post_calm; [by apply calm_exec|done|]. intros ht s8 Hr8.
  apply post_calm; [solve_calm|done|]. intros _ s9 Hr9.
  apply post_calm; [by apply calm_exec|done|]. by intros ht' s10 Hr10.
Qed.

Lemma loop_lost root fuel : root ≠ zeroHash → ∀ n A s, rooted s →
  (TipToSideChain_loop fuel root zeroHash n A s).1 = NoFuel.
Proof.
  intros Hne. induction fuel as [|fuel IH]; intros n A s Hr; cbn [TipToSideChain_loop]; rewrite decide_False by done; [done|].
  pose proof (orphan_block_lost zeroHash s Hr (or_intror Hr)) as Hp. unfold post in Hp. unfold mbind, goM_bind.
  destruct (orphan_block zeroHash s) as [[[h B]|e| |] s']; try done. destruct Hp as [Hh Hr']. cbn in Hh. subst h. by apply IH.
Qed.

(** When the first statement for the best block fails, or the best block is
    not in the table, the walk does not end: the error is logged and the walk
    goes on from the zero hash. *)
Theorem TipToSideChain_runs_away fuel root s : rooted s → root ≠ zeroHash → best_hash s ≠ root →
  conn s (clock s) = false ∨ t_blocks (tables s) !! best_hash s = None →
  (TipToSideChain fuel root s).1 = NoFuel.
Proof.
  intros Hr Hne Hb Hf. unfold TipToSideChain. rewrite bind_gets.
  assert ((TipToSideChain_loop fuel root (best_hash s) 0 ∅ s).1 = NoFuel) as H.
  { destruct fuel as [|fuel]; cbn [TipToSideChain_loop]; rewrite decide_False by done; [done|].
    pose proof (orphan_block_lost (best_hash s) s Hr Hf) as Hp. unfold post in Hp. unfold mbind, goM_bind.
    destruct (orphan_block (best_hash s) s) as [[[h B]|e| |] s']; try done. destruct Hp as [Hh Hr']. cbn in Hh. subst h.
    by apply loop_lost. }
  unfold mbind, goM_bind. destruct (TipToSideChain_loop fuel root (best_hash s) 0 ∅ s) as [[x|e| |] s']; done.
Qed.

(** ** Miners *)
Definition times {A} (n : nat) (f : A → A) (x : A) : A := Nat.iter n f x.
Definition mine (a : string) (height : Z) (T : Tables) : Tables := (upsertMiner a height T).2.
Definition unmine (height : Z) (h : Hash) (T : Tables) : Tables :=
  (CleanupMinerZeros (RevertOrphanMinerUpdate height h T).2).2.

Lemma mine_lookup addr height k : ∀ T, t_miners (times k (mine addr height) T) !! addr = Nat.iter k (upsert_miner height) (t_miners T !! addr) ∧
  t_txs (times k (mine addr height) T) = t_txs T ∧ t_outs (times k (mine addr height) T) = t_outs T.
Proof.
  induction k as [|k IH]; intros T; [done|]. destruct (IH T) as (H1 & H2 & H3).
  change (times (S k) (mine addr height) T) with (mine addr height (times k (mine addr height) T)).
  unfold mine at 1 3 5. cbn [snd upsertMiner t_miners t_txs t_outs set_miners]. rewrite lookup_partial_alter_eq, H1. by split_and!.
Qed.

(** The table of miners counts a block once for each of its outputs to the
    miner, and an orphaned block is taken off once: with [k] outputs to the
    miner [k - 1] blocks too many stay. *)
Theorem orphan_miner_count T height h addr m k :
  t_miners T !! addr = Some m → 0 < blocks_mined m → mined_by height h T addr = true →
  blocks_mined <$> t_miners (unmine height h (times (S k) (mine addr height) T)) !! addr = Some (blocks_mined m + Z.of_nat k).
Proof.
  intros Hm Hpos Hby. destruct (mine_lookup addr height (S k) T) as (H1 & H2 & H3).
  assert (∃ m', Nat.iter (S k) (upsert_miner height) (Some m) = Some m' ∧ blocks_mined m' = blocks_mined m + Z.of_nat (S k)) as (m' & Em & Hn).
  { clear -Hpos. induction k as [|k (m' & Em & Hn)]; [eexists; split; [done|]; cbn; lia|].
    change (Nat.iter (S (S k)) (upsert_miner height) (Some m)) with (upsert_miner height (Nat.iter (S k) (upsert_miner height) (Some m))).
    rewrite Em. eexists. split; [done|]. cbn [blocks_mined]. lia. }
  unfold unmine. set (T1 := times (S k) (mine addr height) T) in *. rewrite Hm, Em in H1. cbn [CleanupMinerZeros snd t_miners set_miners].
  cbn [RevertOrphanMinerUpdate snd t_miners set_miners].
  assert (mined_by height h T1 addr = true) as Hby1 by (unfold mined_by in *; by rewrite H2, H3).
  assert (map_imap (λ x r, Some (if mined_by height h T1 x then revert_miner height r else r)) (t_miners T1) !! addr = Some (revert_miner height m')) as Hr.
  { rewrite map_lookup_imap, H1. cbn [mbind option_bind]. by rewrite Hby1. }
  assert (blocks_mined (revert_miner height m') = blocks_mined m + Z.of_nat k) as Hk by (unfold revert_miner; cbn [blocks_mined]; lia).
  rewrite <- Hk. apply fmap_Some_2, map_lookup_filter_Some. split; [exact Hr|]. cbn [snd]. lia.
Qed.
End Effect.

Module Witness.
#[local] Instance RT : RangeOrder Z TxRow := canonical_range.
#[local] Instance RA : RangeOrder Z AddrRow := canonical_range.
(** Blocks 1, 2 and 3; the coinbase of block 3 pays the miner in both of its
    outputs, and spends nothing; its other transaction spends output 1. *)
Definition h1 : Hash := [1].
Definition h2 : Hash := [2].
Definition h3 : Hash := [3].
Definition sample : Tables := mkTables
  {[h1 := mkBlockRow 1 zeroHash true; h2 := mkBlockRow 2 h1 true; h3 := mkBlockRow 3 h2 true]}
  {[10 := mkTxRow [10] h2 2 0 0 [] [1] true; 11 := mkTxRow [11] h3 3 0 0 [] [2; 3] true; 12 := mkTxRow [12] h3 3 0 1 [5] [4] true]}
  {[5 := true]}
  {[1 := mkOutRow [10] SCPubKeyHash 7 (Some "a"%string) (Some 12); 2 := mkOutRow [11] SCPubKeyHash 5 (Some "m"%string) None;
    3 := mkOutRow [11] SCPubKeyHash 5 (Some "m"%string) None; 4 := mkOutRow [12] SCPubKeyHash 7 (Some "b"%string) None]}
  {[20 := mkAddrRow "a" true 1 true; 21 := mkAddrRow "m" true 2 true; 22 := mkAddrRow "m" true 3 true;
    23 := mkAddrRow "a" false 5 true; 24 := mkAddrRow "b" true 4 true]}
  {[30 := mkStakeRow h3 true]} {[40 := mkStakeRow h2 true]} {["m"%string := mkMinerRow 1 1 1]}.
Definition start (conn : nat → bool) : PgState := mkPg sample conn 0 h3 3 (NewAddressCache 10 10 1000).

Lemma TipToSideChain_orphans_branch_witness : ∃ s', TipToSideChain 5 h1 (start (λ _, true)) = (Ok (h1, 2), s') ∧
  best_height s' = 1 ∧ (tr_main <$> t_txs (tables s') !! 12) = Some false ∧ t_vins (tables s') !! 5 = Some false.
Proof.
  destruct (TipToSideChain_orphans_branch 5 h1 [h3; h2] (start (λ _, true))) as (s' & E & Ho & _ & Hht & _); [done| |cbn; lia|].
  - cbn [branch]. split; [done|]. split; [done|]. exists (mkBlockRow 3 h2 true). split; [reflexivity|]. split; [done|]. split; [done|].
    exists (mkBlockRow 2 h1 true). by split.
  - exists s'. split; [exact E|]. split; [exact Hht|]. split.
    + rewrite (or_txs _ _ _ Ho). vm_compute. reflexivity.
    + rewrite (or_vins _ _ _ Ho). vm_compute. reflexivity.
Defined.

Lemma TipToSideChain_runs_away_witness : (TipToSideChain 1000 h1 (start (λ n, negb (n =? 0)%nat))).1 = NoFuel.
Proof. apply (TipToSideChain_runs_away 1000); [reflexivity|done..|by left]. Defined.

Lemma orphan_miner_count_witness :
  blocks_mined <$> t_miners (unmine 3 h3 (times 2 (mine "m" 3) sample)) !! "m"%string = Some 2.
Proof. apply (orphan_miner_count sample 3 h3 "m" (mkMinerRow 1 1 1) 1); [reflexivity|done|vm_compute; reflexivity]. Defined.
End Witness.
