(* ===== verification/Prefetch.v ===== *)
(** * The block prefetcher (rpcutils/prefetcher.go)

    [BlockPrefetchClient] answers block requests from two stored blocks or
    from the node, and has a goroutine fetch the successor of each requested
    block.  A request that needs a new target returns with the mutex still
    held by a goroutine that runs [retarget] and unlocks.  The node may answer
    a request in several ways over time: [answers] is the relation of a hash
    to the blocks and headers that the node may send for it, and an operation
    takes the replies it got as arguments. *)
From S2P Require Import Prelude.

Section Prefetch.
(** wire.MsgBlock, chainjson.GetBlockHeaderVerboseResult and what is read of
    them, and chainhash.NewHashFromStr. *)
Context {MsgBlock Header : Type}
  (BlockHash : MsgBlock → Hash) (HeaderHeight : MsgBlock → Z)
  (h_Hash h_NextHash : Header → string) (NewHashFromStr : string → option Hash).

(** ** Model *)
Record blockData := mkBlockData {
  height : Z; hash : Hash; msgBlock : option MsgBlock; headerResult : option Header
}.
Record BlockPrefetchClient := mkClient { current : blockData; next : blockData; hits : Z; misses : Z }.

(** [new(blockData)]. *)
Definition newBlockData : blockData := mkBlockData 0 zeroHash None None.
Definition NewBlockPrefetchClient : BlockPrefetchClient := mkClient newBlockData newBlockData 0 0.

Definition storeNext (b : MsgBlock) (r : Header) (p : BlockPrefetchClient) : BlockPrefetchClient :=
  mkClient (next p) (mkBlockData (HeaderHeight b) (BlockHash b) (Some b) (Some r)) (hits p) (misses p).

(** The two replies of the node; [None] is a non-nil error. *)
Definition retrieveBlockAndHeaderResult (rb : option MsgBlock) (rh : option Header) : option (MsgBlock * Header) :=
  b ← rb; r ← rh; Some (b, r).

Definition haveBlockHash (h : Hash) (p : BlockPrefetchClient) : bool :=
  bool_decide (hash (next p) = h) || bool_decide (hash (current p) = h).
Definition haveBlockHeight (h : Z) (p : BlockPrefetchClient) : bool :=
  (height (next p) =? h) || (height (current p) =? h).

(** What a call returns: the two pointers, or an error. *)
Abbreviation reply := (res unit (option MsgBlock * option Header)).

(** The third component is the hash that the goroutine which now holds the
    mutex passes to [retarget]; [None] when the mutex was unlocked. *)
Definition GetBlockData (h : Hash) (rb : option MsgBlock) (rh : option Header) (p : BlockPrefetchClient)
    : reply * BlockPrefetchClient * option string :=
  if decide (hash (current p) = h) then
    (Ok (msgBlock (current p), headerResult (current p)),
     mkClient (current p) (next p) (u64 (hits p + 1)) (misses p), None)
  else if decide (hash (next p) = h) then
    match headerResult (next p) with
    | None => (Panic, p, None)
    | Some r =>
      (Ok (msgBlock (next p), headerResult (next p)),
       mkClient (current p) (next p) (u64 (hits p + 1)) (misses p), Some (h_NextHash r))
    end
  else
    let p := mkClient (current p) (next p) (hits p) (u64 (misses p + 1)) in
    match retrieveBlockAndHeaderResult rb rh with
    | None => (Err tt, p, None)
    | Some (b, r) => (Ok (Some b, Some r), p, Some (h_NextHash r))
    end.

Definition same_hash (s : string) (r : option Header) : bool :=
  match r with Some r => String.eqb s (h_Hash r) | None => false end.

(** What [retarget] sends to the fetcher. *)
Definition retarget (s : string) (p : BlockPrefetchClient) : option Hash :=
  if String.eqb s "" then None
  else if same_hash s (headerResult (next p)) then None
  else if same_hash s (headerResult (current p)) then None
  else NewHashFromStr s.

Definition RetrieveAndStoreNext (h : Hash) (rb : option MsgBlock) (rh : option Header)
    (p : BlockPrefetchClient) : BlockPrefetchClient :=
  if haveBlockHash h p then p else
  match retrieveBlockAndHeaderResult rb rh with
  | None => p
  | Some (b, r) => storeNext b r p
  end.

(** ** The client, its mutex and its goroutines *)
Definition chanCap : nat := 10.

Inductive fetcher_pc := FIdle | FWant (h : Hash).

Record system := mkSys {
  client : BlockPrefetchClient;
  holder : option string;         (* the goroutine in retargetAndUnlock *)
  retargetChan : list Hash;
  fetcher : fetcher_pc
}.

(** What the node may answer. *)
Context (answers : Hash → MsgBlock → Header → Prop).
Definition replies (h : Hash) (rb : option MsgBlock) (rh : option Header) : Prop :=
  ∀ b r, rb = Some b → rh = Some r → answers h b r.

Inductive event := Tau | Answered (h : Hash) (a : reply).

Inductive step : system → event → system → Prop :=
| step_get s h rb rh a p' pend :
    holder s = None → replies h rb rh → GetBlockData h rb rh (client s) = (a, p', pend) →
    step s (Answered h a) (mkSys p' pend (retargetChan s) (fetcher s))
| step_skip s str :
    holder s = Some str → retarget str (client s) = None →
    step s Tau (mkSys (client s) None (retargetChan s) (fetcher s))
| step_send s str h :
    holder s = Some str → retarget str (client s) = Some h → (length (retargetChan s) < chanCap)%nat →
    step s Tau (mkSys (client s) None (retargetChan s ++ [h]) (fetcher s))
| step_take s h rest :
    fetcher s = FIdle → retargetChan s = h :: rest →
    step s Tau (mkSys (client s) (holder s) rest (FWant h))
| step_fetch s h rb rh :
    fetcher s = FWant h → holder s = None → replies h rb rh →
    step s Tau (mkSys (RetrieveAndStoreNext h rb rh (client s)) None (retargetChan s) FIdle).

Definition init : system := mkSys NewBlockPrefetchClient None [] FIdle.

Inductive reachable : system → Prop :=
| reach_init : reachable init
| reach_step s e s' : reachable s → step s e s' → reachable s'.

(** ** Invariant *)
(** A stored block is empty, or what the node answered for its hash. *)
Definition data_ok (d : blockData) : Prop :=
  d = newBlockData ∨ ∃ b r, msgBlock d = Some b ∧ headerResult d = Some r ∧ answers (hash d) b r.

Record inv (s : system) : Prop := {
  inv_current : data_ok (current (client s));
  inv_next : data_ok (next (client s));
  inv_empty : next (client s) = newBlockData → current (client s) = newBlockData;
  inv_chan : (length (retargetChan s) <= chanCap)%nat
}.

(** The node sends the block that it was asked for. *)
Hypothesis answers_hash : ∀ h b r, answers h b r → BlockHash b = h.

Lemma prefetch_inv_get s h rb rh a p' pend :
  inv s → GetBlockData h rb rh (client s) = (a, p', pend) →
  current p' = current (client s) ∧ next p' = next (client s).
Proof.
  intros _. unfold GetBlockData. case_decide; [by intros [= _ <- _]|]. case_decide.
  - destruct (headerResult _); by intros [= _ <- _].
  - destruct (retrieveBlockAndHeaderResult rb rh) as [[b r]|]; by intros [= _ <- _].
Qed.

Lemma prefetch_inv_step s e s' : inv s → step s e s' → inv s'.
Proof.
  intros Hi Hs. destruct Hs as [s h rb rh a p' pend Hh Hr E|s str Hh E|s str h Hh E Hc|s h rest Hf E|s h rb rh Hf Hh Hr].
  - destruct (prefetch_inv_get _ _ _ _ _ _ _ Hi E) as [E1 E2]. destruct Hi. by split; cbn; rewrite ?E1, ?E2.
  - by destruct Hi.
  - destruct Hi. split; cbn; try done. rewrite length_app. cbn. lia.
  - destruct Hi as [? ? ? Hch]. split; cbn; try done. rewrite E in Hch. cbn in Hch. lia.
  - destruct Hi as [Hc Hn He Hch]. unfold RetrieveAndStoreNext. destruct (haveBlockHash h (client s)); [by split|].
    unfold retrieveBlockAndHeaderResult. destruct rb as [b|], rh as [r|]; cbn; try by split.
    specialize (Hr b r eq_refl eq_refl). split; cbn; try done.
    right. exists b, r. cbn. by rewrite (answers_hash h b r Hr).
Qed.

Lemma reachable_inv s : reachable s → inv s.
Proof.
  induction 1 as [|s e s' _ IH Hs]; [|by eapply prefetch_inv_step].
  split; cbn; try done; [by left|by left|unfold chanCap; lia].
Qed.

(** C32: the prefetcher answers what the node answers.  However requests, the
    retargeting goroutine and the fetcher interleave, a request for a block
    (other than the zero hash) never panics and returns an error or a block and a header that
    the node sent together for exactly that hash; a stored block is never
    returned for another hash or paired with another header. *)
Theorem prefetch_refines_node s h a s' :
  reachable s → step s (Answered h a) s' → h ≠ zeroHash →
  a = Err tt ∨ ∃ b r, a = Ok (Some b, Some r) ∧ answers h b r ∧ BlockHash b = h.
Proof.
  intros Hr%reachable_inv Hs Hz. destruct Hr as [Hc Hn _ _].
  inversion Hs as [s0 h0 rb rh a0 p' pend Hh Hrep E| | | |]; subst. clear Hs.
  assert (∀ d, data_ok d → hash d = h →
    ∃ b r, msgBlock d = Some b ∧ headerResult d = Some r ∧ answers h b r ∧ BlockHash b = h) as Hdata.
  { intros d [->|(b & r & Eb & Er & Ha)] <-; [done|]. exists b, r. split_and!; try done. by eapply answers_hash. }
  unfold GetBlockData in E. case_decide as Hcur; [|case_decide as Hnext].
  - injection E as <- _ _. destruct (Hdata _ Hc Hcur) as (b & r & -> & -> & Ha). right. by exists b, r.
  - destruct (Hdata _ Hn Hnext) as (b & r & Eb & Er & Ha). rewrite Eb, Er in E. injection E as <- _ _.
    right. by exists b, r.
  - unfold retrieveBlockAndHeaderResult in E. destruct rb as [b|], rh as [r|]; cbn in E; injection E as <- _ _; try by left.
    right. exists b, r. specialize (Hrep b r eq_refl eq_refl). split_and!; try done. by eapply answers_hash.
Qed.

(** ** Progress *)
Definition stuck (s : system) : Prop := ∀ e s', ¬ step s e s'.

(** Before the first block is stored, a request for a block that has a
    successor leaves the mutex to the goroutine that retargets. *)
Definition fresh_client (m : Z) : BlockPrefetchClient := mkClient newBlockData newBlockData 0 m.

Lemma fresh_get h b r m ch f :
  h ≠ zeroHash → answers h b r → reachable (mkSys (fresh_client m) None ch f) →
  reachable (mkSys (fresh_client (u64 (m + 1))) (Some (h_NextHash r)) ch f).
Proof.
  intros Hz Ha Hr. eapply reach_step; [exact Hr|].
  apply (step_get (mkSys (fresh_client m) None ch f) h (Some b) (Some r) (Ok (Some b, Some r))
    (fresh_client (u64 (m + 1))) (Some (h_NextHash r))); [done| |].
  - intros b' r' [= <-] [= <-]. done.
  - unfold GetBlockData. cbn. by rewrite !decide_False by done.
Qed.

Lemma fresh_retarget r m h1 :
  h_NextHash r ≠ "" → NewHashFromStr (h_NextHash r) = Some h1 →
  retarget (h_NextHash r) (fresh_client m) = Some h1.
Proof. intros Hne E. unfold retarget. destruct (String.eqb_spec (h_NextHash r) ""); [done|exact E]. Qed.

Lemma fresh_rounds h b r h1 n : ∀ m ch f,
  h ≠ zeroHash → answers h b r → h_NextHash r ≠ "" → NewHashFromStr (h_NextHash r) = Some h1 →
  (length ch + n <= chanCap)%nat → reachable (mkSys (fresh_client m) None ch f) →
  ∃ m', reachable (mkSys (fresh_client m') None (ch ++ replicate n h1) f).
Proof.
  induction n as [|n IH]; intros m ch f Hz Ha Hne E Hlen Hr.
  { exists m. by rewrite app_nil_r. }
  pose proof (fresh_get h b r m ch f Hz Ha Hr) as Hg.
  destruct (IH (u64 (m + 1)) (ch ++ [h1]) f) as (m' & Hm'); try done.
  - rewrite length_app. cbn. lia.
  - eapply reach_step; [exact Hg|]. apply (step_send (mkSys (fresh_client (u64 (m + 1))) (Some (h_NextHash r)) ch f) (h_NextHash r) h1); [done| |cbn; lia].
    by apply fresh_retarget.
  - exists m'. by rewrite <- app_assoc in Hm'.
Qed.

(** When the prefetcher stops for good.  The only states in which nothing
    can move are those where a goroutine holds the mutex to send to a full
    channel while the fetcher, which alone empties it, waits for that mutex;
    and such a state is reached by requests alone, twelve times the same block
    with a successor before the fetcher first gets the mutex. *)
Theorem prefetch_stuck h b r h1 :
  h ≠ zeroHash → answers h b r → h_NextHash r ≠ "" → NewHashFromStr (h_NextHash r) = Some h1 →
  (∀ s, reachable s → stuck s →
     ∃ str h2 w, holder s = Some str ∧ retarget str (client s) = Some h2 ∧
       length (retargetChan s) = chanCap ∧ fetcher s = FWant w) ∧
  ∃ s, reachable s ∧ stuck s.
Proof.
  intros Hz Ha Hne E. split.
  - intros s Hr%reachable_inv Hstuck. destruct (holder s) as [str|] eqn:Eh.
    2:{ exfalso. destruct (GetBlockData h None None (client s)) as [[a p'] pend] eqn:Eg.
        apply (Hstuck (Answered h a) (mkSys p' pend (retargetChan s) (fetcher s))).
        by apply (step_get s h None None). }
    destruct (retarget str (client s)) as [h2|] eqn:Er.
    2:{ exfalso. eapply Hstuck. by apply (step_skip s str). }
    destruct (decide (length (retargetChan s) < chanCap)%nat).
    { exfalso. eapply Hstuck. by apply (step_send s str h2). }
    destruct (fetcher s) as [|w] eqn:Ef.
    { exfalso. destruct (retargetChan s) as [|x rest] eqn:Ec; [cbn in *; unfold chanCap in *; lia|].
      eapply Hstuck. by apply (step_take s x rest). }
    exists str, h2, w. split_and!; try done. pose proof (inv_chan _ Hr). lia.
  - destruct (fresh_rounds h b r h1 1 0 [] FIdle) as (m1 & H1); try done; [cbn; unfold chanCap; lia|apply reach_init|].
    assert (reachable (mkSys (fresh_client m1) None [] (FWant h1))) as H2.
    { eapply reach_step; [exact H1|]. by apply (step_take (mkSys (fresh_client m1) None [h1] FIdle) h1 []). }
    destruct (fresh_rounds h b r h1 10 m1 [] (FWant h1)) as (m2 & H3); try done.
    pose proof (fresh_get h b r m2 _ _ Hz Ha H3) as H4. eexists. split; [exact H4|].
    intros e s' Hs. pose proof (fresh_retarget r (u64 (m2 + 1)) h1 Hne E) as Ert.
    inversion Hs; subst; cbn in *; try congruence; unfold chanCap in *; cbn in *; lia.
Qed.
End Prefetch.

(** ** Instances *)
Module Witness.
(** Blocks are their number; the hash of block [n] is 31 zeroes and [n], its
    header is [n] and names block [n + 1] as the next one. *)
Definition h_of (n : Z) : Hash := replicate 31 0 ++ [n].
Definition name_of (n : Z) : string := bigString n.
Definition parse (s : string) : option Hash := h_of <$> SetString10 s.
Definition node (h : Hash) (b r : Z) : Prop := h = h_of b ∧ r = b ∧ 0 < b.

Lemma node_hash h b r : node h b r → h_of b = h.
Proof. by intros (-> & _). Qed.

Definition answer5 : res unit (option Z * option Z) := Ok (Some 5, Some 5).
Abbreviation get1 := (@step Z Z h_of (λ b, b) name_of (λ n, name_of (n + 1)) parse node).

Lemma prefetch_refines_node_witness :
  ∃ s', get1 init (Answered (h_of 5) answer5) s' ∧
    (answer5 = Err tt ∨ ∃ b r, answer5 = Ok (Some b, Some r) ∧ node (h_of 5) b r ∧ h_of b = h_of 5).
Proof.
  assert (get1 init (Answered (h_of 5) answer5)
    (mkSys (fresh_client 1) (Some (name_of 6)) [] FIdle)) as Hs.
  { refine (step_get _ _ _ _ _ _ init (h_of 5) (Some 5) (Some 5) _ _ _ eq_refl _ _).
    - intros b r [= <-] [= <-]. done.
    - reflexivity. }
  eexists. split; [exact Hs|].
  refine (prefetch_refines_node _ _ _ _ _ _ node_hash _ _ _ _ _ Hs _).
  - apply reach_init.
  - done.
Defined.

Lemma prefetch_stuck_witness :
  ∃ s, @reachable Z Z h_of (λ b, b) name_of (λ n, name_of (n + 1)) parse node s ∧
    @stuck Z Z h_of (λ b, b) name_of (λ n, name_of (n + 1)) parse node s.
Proof.
  refine (proj2 (prefetch_stuck h_of (λ b, b) name_of (λ n, name_of (n + 1)) parse node node_hash
    (h_of 5) 5 5 (h_of 6) _ _ _ _)).
  - done.
  - done.
  - done.
  - reflexivity.
Defined.
End Witness.
