(* ===== verification/ChainWalk.v ===== *)
(** * Walks over the block chain (rpcutils/rpcclient.go)

    CommonAncestor, SideChainFull with its reversal in place, the choice of side
    chain tips, and OrphanedTipLength.  The node that answers is a parameter;
    it answers the same while a walk lasts.  The theorems show that
    CommonAncestor finds the highest block below both tips, with the chains
    from it to the tips, whenever there is one within its bound; that a side
    chain is the walk back to the main chain, lowest block first; and what
    OrphanedTipLength counts. *)
From stdpp Require Import gmap strings.
From S2P Require Import Prelude.
Open Scope Z_scope.

(** ** The node *)
(** What is used of a block header, and of its verbose form. *)
Record Header := mkHeader { h_Height : Z; h_PrevBlock : Hash }.
Record HeaderVerbose := mkVerbose { Confirmations : Z; PreviousHash : string; ChainWork : string }.

(** The node's answers, and [chainhash.NewHashFromStr]; [None] is an error. *)
Class Node := {
  GetBlock : Hash → option Header;
  GetBlockHash : Z → option Hash;
  client_GetBlockHeaderVerbose : Hash → option HeaderVerbose;
  NewHashFromStr : string → option Hash;
  HashString : Hash → string
}.

Definition maxAncestorChainLength : Z := 8192.

Inductive WalkErr :=
| ENilClient | EGetBlock (h : Hash) | EAncestorMaxChainLength | EAncestorAtGenesis (chainA chainB : list Hash)
| EHeader (h : string) | ETipOnMainChain | EDBHash | ENodeHash | ENoAncestor.

Section Walks.
Context {node : Node}.

(** ** CommonAncestor

    The result is the ancestor and the chains from it, without it, to the
    tips.  The length is counted once for two blocks of the same height. *)
Fixpoint ancestor_loop (fuel : nat) (length : Z) (hashA hashB : Hash) (chainA chainB : list Hash)
    : res WalkErr (Hash * list Hash * list Hash) :=
  match fuel with
  | O => NoFuel
  | S fuel =>
    if maxAncestorChainLength <=? length then Err EAncestorMaxChainLength else
    match GetBlock hashA with
    | None => Err (EGetBlock hashA)
    | Some blockA =>
      match GetBlock hashB with
      | None => Err (EGetBlock hashB)
      | Some blockB =>
        if h_Height blockB <? h_Height blockA
        then ancestor_loop fuel (length + 1) (h_PrevBlock blockA) hashB (hashA :: chainA) chainB
        else if h_Height blockA <? h_Height blockB
        then ancestor_loop fuel (length + 1) hashA (h_PrevBlock blockB) chainA (hashB :: chainB)
        else
          let chainA := hashA :: chainA in
          let chainB := hashB :: chainB in
          if bool_decide (h_PrevBlock blockA = zeroHash) then Err (EAncestorAtGenesis chainA chainB) else
          if bool_decide (h_PrevBlock blockA = h_PrevBlock blockB) then Ok (h_PrevBlock blockA, chainA, chainB)
          else ancestor_loop fuel (length + 1) (h_PrevBlock blockA) (h_PrevBlock blockB) chainA chainB
      end
    end
  end.

(** One more round than the bound on the length. *)
Definition CommonAncestor (client : bool) (hashA hashB : Hash) : res WalkErr (Hash * list Hash * list Hash) :=
  if negb client then Err ENilClient
  else ancestor_loop (S (Z.to_nat maxAncestorChainLength)) 0 hashA hashB [] [].

(** ** Side chains *)
Definition GetBlockHeaderVerboseByString (hash : string) : option HeaderVerbose :=
  h ← NewHashFromStr hash; client_GetBlockHeaderVerbose h.
Definition GetBlockHeaderVerbose (idx : Z) : option HeaderVerbose :=
  h ← GetBlockHash idx; client_GetBlockHeaderVerbose h.
Definition GetChainWork (h : Hash) : option string := ChainWork <$> client_GetBlockHeaderVerbose h.
(** The block and its hash; the hash is returned also without the block. *)
Definition GetBlockAt (ind : Z) : option Header * option Hash :=
  match GetBlockHash ind with None => (None, None) | Some h => (GetBlock h, Some h) end.

(** The status of a chain tip, and the tips of side chains. *)
Definition sideChainTips (allTips : list (string * string)) : list (string * string) :=
  filter (λ t, t.2 = "valid-headers"%string ∨ t.2 = "valid-fork"%string) allTips.

(** [s[i], s[j] = s[j], s[i]] for [i] from 0 to [N/2 - 1], which divides as Go
    does. *)
Definition swap {A} (i j : nat) (s : list A) : list A :=
  match s !! i, s !! j with Some x, Some y => <[j := x]> (<[i := y]> s) | _, _ => s end.
Definition reverseStringSlice {A} (s : list A) : list A :=
  let N := length s in
  foldl (λ s i, swap i (N - 1 - i) s) s (seq 0 (N `div` 2)).

Fixpoint sideChain_loop (fuel : nat) (tipHash hash : string) (sideChain : list string) : res WalkErr (list string) :=
  match fuel with
  | O => NoFuel
  | S fuel =>
    match GetBlockHeaderVerboseByString hash with
    | None => Err (EHeader hash)
    | Some header =>
      if negb (Confirmations header =? -1) then
        if bool_decide (hash = tipHash) then Err ETipOnMainChain else Ok (reverseStringSlice sideChain)
      else sideChain_loop fuel tipHash (PreviousHash header) (sideChain ++ [hash])
    end
  end.
Definition SideChainFull (fuel : nat) (tipHash : string) : res WalkErr (list string) := sideChain_loop fuel tipHash tipHash [].

(** ** OrphanedTipLength

    [done] says at which round the context is cancelled; the result is then 0. *)
Fixpoint orphaned_loop (fuel : nat) (done : Z → bool) (hashFunc : Z → option string) (tipHeight commonHeight : Z)
    : res WalkErr Z :=
  match fuel with
  | O => NoFuel
  | S fuel =>
    if done commonHeight then Ok 0 else
    match hashFunc commonHeight with
    | None => Err EDBHash
    | Some dbHash =>
      match GetBlockHash commonHeight with
      | None => Err ENodeHash
      | Some nodeHash =>
        if bool_decide (HashString nodeHash = dbHash) then Ok (tipHeight - commonHeight) else
        let commonHeight := commonHeight - 1 in
        if commonHeight <? 0 then Err ENoAncestor else orphaned_loop fuel done hashFunc tipHeight commonHeight
      end
    end
  end.
Definition OrphanedTipLength (done : Z → bool) (tipHeight : Z) (hashFunc : Z → option string) : res WalkErr Z :=
  orphaned_loop (S (Z.to_nat tipHeight)) done hashFunc tipHeight tipHeight.

(** ** Ancestors *)
(** The block [n] steps below [h]. *)
Fixpoint below (n : nat) (h : Hash) : option Hash :=
  match n with O => Some h | S n => b ← GetBlock h; below n (h_PrevBlock b) end.

(** The hashes of [l] lead from above [base] to [tip]. *)
Fixpoint chain_to (base : Hash) (l : list Hash) (tip : Hash) : Prop :=
  match l with
  | [] => base = tip
  | x :: l => (h_PrevBlock <$> GetBlock x) = Some base ∧ chain_to x l tip
  end.

(** Heights go up by one. *)
Definition heights_ok : Prop := ∀ h b b', GetBlock h = Some b → GetBlock (h_PrevBlock b) = Some b' → h_Height b = h_Height b' + 1.

Lemma below_app m n h c : below m h = Some c → below (m + n) h = below n c.
Proof. revert h. induction m as [|m IH]; cbn; intros h; [by intros [= ->]|]. destruct (GetBlock h); [apply IH|done]. Qed.

Lemma below_height n : ∀ h b c bc, heights_ok → GetBlock h = Some b → below n h = Some c → GetBlock c = Some bc →
  h_Height b = h_Height bc + Z.of_nat n.
Proof.
  induction n as [|n IH]; intros h b c bc Hh Hb Hc Hbc; cbn in Hc.
  - injection Hc as <-. rewrite Hb in Hbc. injection Hbc as <-. lia.
  - rewrite Hb in Hc. cbn in Hc. destruct (GetBlock (h_PrevBlock b)) as [b'|] eqn:Eb'.
    + rewrite (Hh h b b' Hb Eb'), (IH _ _ _ _ Hh Eb' Hc Hbc). lia.
    + destruct n; cbn in Hc; [injection Hc as <-; congruence|]. by rewrite Eb' in Hc.
Qed.

(** A common block strictly below both. *)
Definition strictly_below (h c : Hash) : Prop := ∃ n, (0 < n)%nat ∧ below n h = Some c.

Lemma strictly_below_inv h b c : GetBlock h = Some b → strictly_below h c → ∃ n, below n (h_PrevBlock b) = Some c.
Proof. intros Hb (n & Hn & Hc). destruct n as [|n]; [lia|]. cbn in Hc. rewrite Hb in Hc. by exists n. Qed.

Lemma below_S_known n h c : below (S n) h = Some c → ∃ b, GetBlock h = Some b ∧ below n (h_PrevBlock b) = Some c.
Proof. cbn. destruct (GetBlock h) as [b|]; [|done]. by exists b. Qed.

(** ** What CommonAncestor returns *)
Definition is_tip_chain (anc : Hash) (chain : list Hash) (tip : Hash) : Prop := chain_to anc chain tip ∧ chain ≠ [].

(** One round, with both blocks known. *)
Lemma ancestor_loop_S fuel len hA hB cA cB bA bB : GetBlock hA = Some bA → GetBlock hB = Some bB → len < maxAncestorChainLength →
  ancestor_loop (S fuel) len hA hB cA cB =
    if h_Height bB <? h_Height bA then ancestor_loop fuel (len + 1) (h_PrevBlock bA) hB (hA :: cA) cB
    else if h_Height bA <? h_Height bB then ancestor_loop fuel (len + 1) hA (h_PrevBlock bB) cA (hB :: cB)
    else if bool_decide (h_PrevBlock bA = zeroHash) then Err (EAncestorAtGenesis (hA :: cA) (hB :: cB))
    else if bool_decide (h_PrevBlock bA = h_PrevBlock bB) then Ok (h_PrevBlock bA, hA :: cA, hB :: cB)
    else ancestor_loop fuel (len + 1) (h_PrevBlock bA) (h_PrevBlock bB) (hA :: cA) (hB :: cB).
Proof. intros HA HB Hl. cbn [ancestor_loop]. rewrite HA, HB. by destruct (Z.leb_spec maxAncestorChainLength len); [lia|]. Qed.

Lemma chain_to_cons h b l tip : GetBlock h = Some b → chain_to h l tip → chain_to (h_PrevBlock b) (h :: l) tip.
Proof. intros Hb Hl. split; [by rewrite Hb|done]. Qed.

(** With a common block [m] and [n] steps below, the loop finds an ancestor,
    and no common block is above it. *)
Lemma ancestor_loop_finds tipA tipB : heights_ok → GetBlock zeroHash = None → ∀ fuel len hA hB cA cB m n c bc,
  below m hA = Some c → below n hB = Some c → GetBlock c = Some bc → (0 < m)%nat → (0 < n)%nat →
  (m `max` n <= fuel)%nat → len + Z.of_nat (m `max` n) <= maxAncestorChainLength →
  chain_to hA cA tipA → chain_to hB cB tipB →
  ∃ anc A B, ancestor_loop fuel len hA hB cA cB = Ok (anc, A, B) ∧ is_tip_chain anc A tipA ∧ is_tip_chain anc B tipB ∧
    ∀ c', is_Some (GetBlock c') → strictly_below hA c' → strictly_below hB c' → ∃ j, below j anc = Some c'.
Proof.
  intros Hh Hz. induction fuel as [|fuel IH]; intros len hA hB cA cB m n c bc Hm Hn Hc Hm0 Hn0 Hf Hl HA HB; [lia|].
  destruct m as [|m]; [lia|]. destruct n as [|n]; [lia|].
  destruct (below_S_known _ _ _ Hm) as (bA & EA & Hm'), (below_S_known _ _ _ Hn) as (bB & EB & Hn').
  pose proof (below_height _ _ _ _ _ Hh EA Hm Hc) as HhA. pose proof (below_height _ _ _ _ _ Hh EB Hn Hc) as HhB.
  rewrite (ancestor_loop_S _ _ _ _ _ _ _ _ EA EB) by lia.
  pose proof (chain_to_cons _ _ _ _ EA HA) as HA'. pose proof (chain_to_cons _ _ _ _ EB HB) as HB'.
  (* A block strictly below both is not above the lower of them. *)
  assert (∀ h b, GetBlock h = Some b → ∀ c' b', GetBlock c' = Some b' → strictly_below h c' → h_Height b' < h_Height b) as Hlow.
  { intros h b Eb c' b' Ec' (k & Hk & Hb). rewrite (below_height _ _ _ _ _ Hh Eb Hb Ec'). lia. }
  assert (∀ h b c', GetBlock h = Some b → strictly_below h c' → c' ≠ h_PrevBlock b → strictly_below (h_PrevBlock b) c') as Hstep.
  { intros h b c' Eb Hs Hne. destruct (strictly_below_inv _ _ _ Eb Hs) as [[|k] Hk]; [injection Hk as <-; done|].
    exists (S k). split; [lia|done]. }
  assert (∀ h b, GetBlock h = Some b → ∀ b', GetBlock (h_PrevBlock b) = Some b' → h_Height b = h_Height b' + 1) as Hprev by (intros; by eapply Hh).
  destruct (Z.ltb_spec (h_Height bB) (h_Height bA)) as [Hlt|Hge].
  - destruct m as [|m]; [lia|].
    destruct (IH (len + 1) (h_PrevBlock bA) hB (hA :: cA) cB (S m) (S n) c bc) as (anc & A & B & E & H1 & H2 & H3); try done; [lia..|].
    exists anc, A, B. split_and!; try done. intros c' [b' Ec'] HsA HsB. apply H3; [by exists b'| |done].
    apply (Hstep _ _ _ EA HsA). intros ->. pose proof (Hlow _ _ EB _ _ Ec' HsB). pose proof (Hprev _ _ EA _ Ec'). lia.
  - destruct (Z.ltb_spec (h_Height bA) (h_Height bB)) as [Hlt|Hge'].
    + destruct n as [|n]; [lia|].
      destruct (IH (len + 1) hA (h_PrevBlock bB) cA (hB :: cB) (S m) (S n) c bc) as (anc & A & B & E & H1 & H2 & H3); try done; [lia..|].
      exists anc, A, B. split_and!; try done. intros c' [b' Ec'] HsA HsB. apply H3; [by exists b'|done|].
      apply (Hstep _ _ _ EB HsB). intros ->. pose proof (Hlow _ _ EA _ _ Ec' HsA). pose proof (Hprev _ _ EB _ Ec'). lia.
    + assert (m = n) as -> by lia. rewrite bool_decide_false.
      2:{ intros E. rewrite E in Hm'. destruct n as [|n].
          - change (Some zeroHash = Some c) in Hm'. assert (zeroHash = c) as Ez by congruence. rewrite <- Ez in Hc. congruence.
          - destruct (below_S_known _ _ _ Hm') as (b & Eb & _). congruence. }
      case_bool_decide as Ep.
      * exists (h_PrevBlock bA), (hA :: cA), (hB :: cB). split_and!; try done; [by rewrite Ep|].
        intros c' _ HsA _. by apply (strictly_below_inv _ _ _ EA).
      * destruct n as [|n]; [cbn in Hm', Hn'; congruence|].
        destruct (IH (len + 1) (h_PrevBlock bA) (h_PrevBlock bB) (hA :: cA) (hB :: cB) (S n) (S n) c bc)
          as (anc & A & B & E & H1 & H2 & H3); try done; [lia..|].
        exists anc, A, B. split_and!; try done. intros c' [b' Ec'] HsA HsB. apply H3; [by exists b'|..].
        -- apply (Hstep _ _ _ EA HsA). intros ->. destruct (strictly_below_inv _ _ _ EB HsB) as [[|k] Hk]; [by injection Hk|].
           assert (strictly_below (h_PrevBlock bB) (h_PrevBlock bA)) as Hs by (exists (S k); split; [lia|done]).
           destruct (below_S_known _ _ _ Hk) as (bB' & EB' & _). pose proof (Hlow _ _ EB' _ _ Ec' Hs).
           pose proof (Hprev _ _ EA _ Ec'). pose proof (Hprev _ _ EB _ EB'). lia.
        -- apply (Hstep _ _ _ EB HsB). intros ->. destruct (strictly_below_inv _ _ _ EA HsA) as [[|k] Hk]; [by injection Hk|].
           assert (strictly_below (h_PrevBlock bA) (h_PrevBlock bB)) as Hs by (exists (S k); split; [lia|done]).
           destruct (below_S_known _ _ _ Hk) as (bA' & EA' & _). pose proof (Hlow _ _ EA' _ _ Ec' Hs).
           pose proof (Hprev _ _ EB _ Ec'). pose proof (Hprev _ _ EA _ EA'). lia.
Qed.

(** C17: CommonAncestor finds the common ancestor of two tips that have a block
    in common at most 8192 blocks below each of them: its chains lead from the ancestor to the
    tips, and every block that is below both tips is the ancestor or below it. *)
Theorem CommonAncestor_finds hashA hashB m n c : heights_ok → GetBlock zeroHash = None →
  below m hashA = Some c → below n hashB = Some c → is_Some (GetBlock c) → (0 < m)%nat → (0 < n)%nat →
  Z.of_nat (m `max` n) <= maxAncestorChainLength →
  ∃ anc A B, CommonAncestor true hashA hashB = Ok (anc, A, B) ∧ is_tip_chain anc A hashA ∧ is_tip_chain anc B hashB ∧
    ∀ c', is_Some (GetBlock c') → strictly_below hashA c' → strictly_below hashB c' → ∃ j, below j anc = Some c'.
Proof.
  intros Hh Hz HA HB [bc Hc] Hm Hn Hl. unfold CommonAncestor. cbn [negb].
  apply (ancestor_loop_finds hashA hashB Hh Hz _ _ _ _ _ _ m n c bc); done || lia.
Qed.

(** The rounds are bounded by the length. *)
Lemma ancestor_loop_total fuel : ∀ len hA hB cA cB, len <= maxAncestorChainLength < Z.of_nat fuel + len →
  ancestor_loop fuel len hA hB cA cB ≠ NoFuel ∧ ancestor_loop fuel len hA hB cA cB ≠ Panic.
Proof.
  induction fuel as [|fuel IH]; intros len hA hB cA cB Hf; [lia|]. cbn [ancestor_loop].
  destruct (Z.leb_spec maxAncestorChainLength len); [done|]. destruct (GetBlock hA) as [bA|]; [|done].
  destruct (GetBlock hB) as [bB|]; [|done].
  destruct (_ <? _); [apply IH; lia|]. destruct (_ <? _); [apply IH; lia|].
  case_bool_decide; [done|]. case_bool_decide; [done|]. apply IH. lia.
Qed.

(** CommonAncestor always returns. *)
Lemma CommonAncestor_total client hashA hashB : ∃ r, CommonAncestor client hashA hashB = r ∧ r ≠ NoFuel ∧ r ≠ Panic.
Proof.
  eexists. split; [done|]. unfold CommonAncestor. destruct client; [|done]. cbn [negb].
  apply ancestor_loop_total. unfold maxAncestorChainLength. lia.
Qed.

(** ** Side chains *)
Lemma swap_at {A} (s : list A) i j k : (i < length s)%nat → (j < length s)%nat →
  swap i j s !! k = if decide (k = i) then s !! j else if decide (k = j) then s !! i else s !! k.
Proof.
  intros Hi Hj. unfold swap. destruct (lookup_lt_is_Some_2 s i Hi) as [x Ex], (lookup_lt_is_Some_2 s j Hj) as [y Ey]. rewrite Ex, Ey.
  destruct (decide (k = j)) as [->|Hkj].
  - rewrite list_lookup_insert_eq by (by rewrite length_insert). destruct (decide (j = i)) as [->|]; [congruence|done].
  - rewrite list_lookup_insert_ne by done. destruct (decide (k = i)) as [->|]; [by rewrite list_lookup_insert_eq|].
    by rewrite list_lookup_insert_ne.
Qed.
Lemma length_swap {A} (s : list A) i j : length (swap i j s) = length s.
Proof. unfold swap. destruct (s !! i), (s !! j); rewrite ?length_insert; done. Qed.

(** After [n] swaps the first and the last [n] elements have changed places. *)
Lemma reverse_swaps {A} (s : list A) n : (2 * n <= length s)%nat →
  let s' := foldl (λ s' i, swap i (length s - 1 - i) s') s (seq 0 n) in
  length s' = length s ∧ ∀ k, s' !! k = if decide (k < length s ∧ (k < n ∨ length s - n <= k))%nat then s !! (length s - 1 - k)%nat else s !! k.
Proof.
  induction n as [|n IH]; intros Hn; cbv zeta.
  - split; [done|]. intros k. by rewrite decide_False by lia.
  - destruct (IH ltac:(lia)) as [Hl Hk]. rewrite seq_S, foldl_app. cbn [foldl Nat.add]. set (s1 := foldl _ s (seq 0 n)) in *.
    split; [by rewrite length_swap|]. intros k. rewrite swap_at by lia. rewrite !Hk.
    destruct (decide (k = n)) as [->|Hkn].
    + rewrite (decide_False (P:=(length s - 1 - n < length s ∧ (length s - 1 - n < n ∨ length s - n <= length s - 1 - n))%nat)) by lia.
      by rewrite decide_True by lia.
    + destruct (decide (k = length s - 1 - n)%nat) as [->|Hkm].
      * rewrite decide_False by lia. rewrite decide_True by lia. f_equal. lia.
      * apply decide_ext. lia.
Qed.

(** The reversal in place is a reversal. *)
Lemma reverseStringSlice_reverse {A} (s : list A) : reverseStringSlice s = reverse s.
Proof.
  unfold reverseStringSlice. pose proof (Nat.div_mod (length s) 2 ltac:(lia)) as Hd. pose proof (Nat.mod_upper_bound (length s) 2 ltac:(lia)).
  destruct (reverse_swaps s (length s / 2)) as [Hl Hk]; [lia|]. cbv zeta in *.
  apply list_eq. intros k. rewrite Hk. destruct (decide (k < length s)%nat) as [Hlt|Hge].
  - rewrite reverse_lookup by done. destruct (decide _) as [|Hn]; [f_equal; lia|]. f_equal. lia.
  - rewrite decide_False by lia. rewrite !lookup_ge_None_2; [done|rewrite length_reverse; lia|lia].
Qed.

(** The side chain blocks from [tip] down to [base], a block of the main chain. *)
Fixpoint side_walk (tip : string) (l : list string) (base : string) : Prop :=
  match l with
  | [] => tip = base ∧ ∃ b, GetBlockHeaderVerboseByString base = Some b ∧ Confirmations b ≠ -1
  | x :: l => x = tip ∧ ∃ b, GetBlockHeaderVerboseByString x = Some b ∧ Confirmations b = -1 ∧ side_walk (PreviousHash b) l base
  end.

Lemma sideChain_loop_walk tipHash l base : ∀ fuel tip acc, side_walk tip l base → (length l < fuel)%nat → base ≠ tipHash →
  sideChain_loop fuel tipHash tip acc = Ok (reverse (acc ++ l)).
Proof.
  induction l as [|x l IH]; intros [|fuel] tip acc Hw Hf Hb; cbn [length] in *; try lia; cbn [sideChain_loop side_walk] in *.
  - destruct Hw as (-> & b & Eb & Hc). rewrite Eb. destruct (Z.eqb_spec (Confirmations b) (-1)); [done|]. cbn [negb].
    rewrite bool_decide_false by done. by rewrite app_nil_r, reverseStringSlice_reverse.
  - destruct Hw as (-> & b & Eb & Hc & Hw). rewrite Eb, Hc. cbn [Z.eqb Pos.eqb negb].
    rewrite (IH fuel (PreviousHash b) (acc ++ [tip]) Hw) by (lia || done). by rewrite <- app_assoc.
Qed.

(** SideChainFull returns the blocks of a side chain from the one after the
    main chain up to the tip, and refuses a tip on the main chain. *)
Theorem SideChainFull_lists fuel tip l base : side_walk tip l base → (length l < fuel)%nat → base ∉ l →
  SideChainFull fuel tip = match l with [] => Err ETipOnMainChain | _ => Ok (reverse l) end.
Proof.
  intros Hw Hf Hb. unfold SideChainFull. destruct l as [|x l].
  - destruct Hw as (-> & b & Eb & Hc). destruct fuel; [lia|]. cbn [sideChain_loop]. rewrite Eb.
    destruct (Z.eqb_spec (Confirmations b) (-1)); [done|]. cbn [negb]. by rewrite bool_decide_true.
  - rewrite (sideChain_loop_walk tip (x :: l) base) by (done || (destruct Hw as [-> _]; intros ->; apply Hb; by left)). done.
Qed.

(** ** Orphaned tips *)
Definition heights_agree (hashFunc : Z → option string) (h : Z) : Prop :=
  ∃ d n, hashFunc h = Some d ∧ GetBlockHash h = Some n ∧ HashString n = d.
Definition both_known (hashFunc : Z → option string) (h : Z) : Prop := is_Some (hashFunc h) ∧ is_Some (GetBlockHash h).

Lemma orphaned_loop_spec hashFunc tip k : ∀ fuel h, (∀ i, k <= i <= h → both_known hashFunc i) → heights_agree hashFunc k →
  (∀ i, k < i <= h → ¬ heights_agree hashFunc i) → 0 <= k <= h → h - k < Z.of_nat fuel →
  orphaned_loop fuel (λ _, false) hashFunc tip h = Ok (tip - k).
Proof.
  induction fuel as [|fuel IH]; intros h Hkn Hk Hno Hh Hf; [lia|]. cbn [orphaned_loop].
  destruct (Hkn h ltac:(lia)) as [[d Ed] [n En]]. rewrite Ed, En. case_bool_decide as E.
  - assert (k = h) as ->; [|done]. destruct (Z.eq_dec k h); [done|]. destruct (Hno h ltac:(lia)). by exists d, n.
  - assert (k ≠ h) as Hne. { intros ->. destruct Hk as (d' & n' & Ed' & En' & E'). congruence. }
    destruct (Z.ltb_spec (h - 1) 0); [lia|]. apply IH; try lia; try done; intros i Hi; [apply Hkn|apply Hno]; lia.
Qed.

Lemma orphaned_loop_none hashFunc tip : ∀ fuel h, (∀ i, 0 <= i <= h → both_known hashFunc i) →
  (∀ i, 0 <= i <= h → ¬ heights_agree hashFunc i) → 0 <= h < Z.of_nat fuel →
  orphaned_loop fuel (λ _, false) hashFunc tip h = Err ENoAncestor.
Proof.
  induction fuel as [|fuel IH]; intros h Hkn Hno Hh; [lia|]. cbn [orphaned_loop].
  destruct (Hkn h ltac:(lia)) as [[d Ed] [n En]]. rewrite Ed, En. case_bool_decide as E.
  - destruct (Hno h ltac:(lia)). by exists d, n.
  - destruct (Z.ltb_spec (h - 1) 0); [done|]. apply IH; try lia; intros i Hi; [apply Hkn|apply Hno]; lia.
Qed.

(** OrphanedTipLength counts the heights above the highest one at which the
    database and the node agree; without one it is an error. *)
Theorem OrphanedTipLength_counts tip hashFunc k : 0 <= tip → (∀ i, 0 <= i <= tip → both_known hashFunc i) →
  (∀ i, k < i <= tip → ¬ heights_agree hashFunc i) → (k = -1 ∨ 0 <= k <= tip ∧ heights_agree hashFunc k) →
  OrphanedTipLength (λ _, false) tip hashFunc = if k =? -1 then Err ENoAncestor else Ok (tip - k).
Proof.
  intros Ht Hkn Hno [->|[Hk Ha]]; unfold OrphanedTipLength.
  - apply orphaned_loop_none; [done| |lia]. intros i Hi. apply Hno. lia.
  - destruct (Z.eqb_spec k (-1)); [lia|]. apply (orphaned_loop_spec _ _ k); try done; [|lia]. intros i Hi. apply Hkn. lia.
Qed.
End Walks.

Module Witness.
(** Blocks 1 - 2 and 1 - 3 - 4; hashes are printed as strings of their byte. *)
Definition blocks (h : Hash) : option Header :=
  if decide (h = [1]) then Some (mkHeader 0 zeroHash) else
  if decide (h = [2]) then Some (mkHeader 1 [1]) else
  if decide (h = [3]) then Some (mkHeader 1 [1]) else
  if decide (h = [4]) then Some (mkHeader 2 [3]) else None.
Definition verbose (h : Hash) : option HeaderVerbose :=
  if decide (h = [1]) then Some (mkVerbose 3 "" "") else
  if decide (h = [3]) then Some (mkVerbose (-1) "1" "") else
  if decide (h = [4]) then Some (mkVerbose (-1) "3" "") else None.
#[local] Instance sample : Node := {|
  GetBlock := blocks; client_GetBlockHeaderVerbose := verbose;
  GetBlockHash := λ i, if decide (i = 0) then Some [1] else if decide (i = 1) then Some [2] else None;
  NewHashFromStr := λ s, if decide (s = "1"%string) then Some [1] else if decide (s = "3"%string) then Some [3]
                         else if decide (s = "4"%string) then Some [4] else None;
  HashString := λ h, match h with 1 :: _ => "1" | 2 :: _ => "2" | _ => "" end%string |}.

Lemma sample_heights : heights_ok.
Proof. intros h b b'. unfold GetBlock, sample, blocks. intros H. repeat case_decide; simplify_eq; cbn [h_PrevBlock]; repeat case_decide; intros; simplify_eq; done. Qed.

Lemma CommonAncestor_finds_witness : ∃ A B, CommonAncestor true [2] [4] = Ok ([1], A, B).
Proof.
  destruct (CommonAncestor_finds [2] [4] 1 2 [1]) as (anc & A & B & E & HA & HB & Hc);
    [exact sample_heights|reflexivity..|by eexists|lia|lia|vm_compute; done|].
  exists A, B. rewrite E. assert (CommonAncestor true [2] [4] = Ok ([1], [[2]], [[3]; [4]])) as E' by reflexivity. congruence.
Defined.

Lemma SideChainFull_lists_witness : SideChainFull 5 "4" = Ok ["3"; "4"]%string.
Proof.
  apply (SideChainFull_lists 5 "4" ["4"; "3"]%string "1"); [|cbn; lia|].
  - split; [done|]. exists (mkVerbose (-1) "3" ""). split; [reflexivity|]. split; [done|]. split; [done|].
    exists (mkVerbose (-1) "1" ""). split; [reflexivity|]. split; [done|]. split; [done|]. by exists (mkVerbose 3 "" "").
  - by intros [?|[?|?%elem_of_nil]%elem_of_cons]%elem_of_cons.
Defined.

Lemma OrphanedTipLength_counts_witness :
  OrphanedTipLength (λ _, false) 1 (λ i, if decide (i = 0) then Some "1" else Some "7")%string = Ok 1.
Proof.
  apply (OrphanedTipLength_counts 1 (λ i, if decide (i = 0) then Some "1" else Some "7")%string 0); [lia|..].
  - intros i Hi. assert (i = 0 ∨ i = 1) as [->| ->] by lia; by split; eexists.
  - intros i Hi (d & n & Hd & Hn & E). assert (i = 1) as -> by lia. cbn in Hd, Hn. injection Hd as <-. injection Hn as <-. done.
  - right. split; [lia|]. by exists "1"%string, [1].
Defined.
End Witness.
