(* ===== verification/Notifier.v ===== *)
(** * The notifier (cmd/dcrdata/internal/notification/notifier.go)

    All notifications of the node go through one queue.  A message is processed
    by calling the groups of handlers registered for its kind one group after
    the other; the handlers of a group run concurrently, and the next group
    starts when all have returned or the deadline has passed.  Handlers that
    miss the deadline keep running.

    The processing is a step relation: messages arrive, the queue is read,
    handlers return and deadlines pass in any order.  The theorems show that
    which messages are processed, in which order, with which handlers, and the
    block that the next one has to connect to, depend only on the order of
    arrival; and that without a missed deadline no two groups overlap. *)
From stdpp Require Import gmap strings.
From S2P Require Import Prelude ChainWalk.
Open Scope Z_scope.

(** ** Messages *)
Record BlockHeader := mkBH { bh_Hash : Hash; bh_Height : Z; bh_PrevBlock : Hash }.
Record BranchTips := mkTips { OldChainHead : Hash; OldChainHeight : Z; NewChainHead : Hash; NewChainHeight : Z }.
Inductive Msg := MsgBlock (bh : BlockHeader) | MsgReorg (d : BranchTips) | MsgTx (txid : Hash).

(** What the handlers are called with. *)
Record ReorgData := mkReorg {
  rd_CommonAncestor : Hash; rd_NewChain : list Hash; rd_NewChainHead : Hash; rd_NewChainHeight : Z;
  rd_OldChain : list Hash; rd_OldChainHead : Hash; rd_OldChainHeight : Z
}.
Inductive Work := WBlock (bh : BlockHeader) | WReorg (r : ReorgData) | WTx (txid : Hash).

(** A call of a handler: the number of the message, the group and the place in
    the group. *)
Abbreviation Call := (nat * nat * nat)%type.

Definition anyQ_capacity : nat := 1024.

Section Notifier.
Context {node : ChainWalk.Node}.

(** The number of handlers of each group. *)
Record Handlers := mkHandlers { tx_groups : list nat; block_groups : list nat; reorg_groups : list nat }.
Definition NewNotifier : Handlers := mkHandlers [] [] [].
Definition RegisterTxHandlerGroup (n : nat) (h : Handlers) : Handlers := mkHandlers (tx_groups h ++ [n]) (block_groups h) (reorg_groups h).
Definition RegisterBlockHandlerGroup (n : nat) (h : Handlers) : Handlers := mkHandlers (tx_groups h) (block_groups h ++ [n]) (reorg_groups h).
(** The handlers are wrapped and registered as block handlers. *)
Definition RegisterBlockHandlerLiteGroup : nat → Handlers → Handlers := RegisterBlockHandlerGroup.
Definition RegisterReorgHandlerGroup (n : nat) (h : Handlers) : Handlers := mkHandlers (tx_groups h) (block_groups h) (reorg_groups h ++ [n]).

Context (handlers : Handlers).

Definition groups (w : Work) : list nat :=
  match w with WBlock _ => block_groups handlers | WReorg _ => reorg_groups handlers | WTx _ => tx_groups handlers end.

(** The handlers of the [i]-th group, called for message [n]. *)
Definition handler_calls (n i k : nat) : list Call := (λ j, (n, i, j)) <$> seq 0 k.

(** ** The state

    [previous] is the block that the next one has to connect to; [cur] is the
    message being processed with its group; [input] are all messages that
    arrived, and [started] all calls, in order. *)
Record State := mkState {
  anyQ : list Msg; previous : Hash * Z; seqno : nat; cur : option (Work * nat); running : list Call;
  input : list Msg; started : list Call
}.

Definition SetPreviousBlock (prevHash : Hash) (prevHeight : Z) (s : State) : State :=
  mkState (anyQ s) (prevHash, prevHeight) (seqno s) (cur s) (running s) (input s) (started s).

(** What is done with a message, given the previous block: a block that does not
    connect and a reorganization without a common ancestor are dropped. *)
Definition accept (prev : Hash) (m : Msg) : option Work :=
  match m with
  | MsgBlock bh => if bool_decide (bh_PrevBlock bh = prev) then Some (WBlock bh) else None
  | MsgReorg d =>
    match CommonAncestor true (NewChainHead d) (OldChainHead d) with
    | Ok (ancestor, newChain, oldChain) =>
      Some (WReorg (mkReorg ancestor newChain (NewChainHead d) (NewChainHeight d) oldChain (OldChainHead d) (OldChainHeight d)))
    | _ => None
    end
  | MsgTx tx => Some (WTx tx)
  end.

(** The previous block after the message; a height of int32 is converted to
    uint32. *)
Definition advance_previous (w : Work) (prev : Hash * Z) : Hash * Z :=
  match w with
  | WBlock bh => (bh_Hash bh, bh_Height bh)
  | WReorg r => (rd_NewChainHead r, u32 (rd_NewChainHeight r))
  | WTx _ => prev
  end.

(** The end of processing a message. *)
Definition end_message (s : State) : State := mkState (anyQ s) (previous s) (S (seqno s)) None (running s) (input s) (started s).

(** Starts the [i]-th group, or ends when there is none. *)
Definition enter (w : Work) (i : nat) (s : State) : State :=
  match groups w !! i with
  | Some k =>
    let cs := handler_calls (seqno s) i k in
    mkState (anyQ s) (previous s) (seqno s) (Some (w, i)) (running s ++ cs) (input s) (started s ++ cs)
  | None => let '(h, height) := advance_previous w (previous s) in end_message (SetPreviousBlock h height s)
  end.

Definition group_running (n i : nat) (s : State) : Prop := ∃ j, (n, i, j) ∈ running s.

(** The deadline and the return of the last handler may both be ready, so that
    the deadline can win although no handler is running. *)
Inductive Label := Arrives (m : Msg) | Takes | Returns (c : Call) | GroupDone | Deadline.

Inductive step : State → Label → State → Prop :=
| step_arrives s m : (length (anyQ s) < anyQ_capacity)%nat →
    step s (Arrives m) (mkState (anyQ s ++ [m]) (previous s) (seqno s) (cur s) (running s) (input s ++ [m]) (started s))
| step_drops s m q : cur s = None → anyQ s = m :: q → accept (previous s).1 m = None →
    step s Takes (mkState q (previous s) (seqno s) None (running s) (input s) (started s))
| step_takes s m q w : cur s = None → anyQ s = m :: q → accept (previous s).1 m = Some w →
    step s Takes (enter w 0 (mkState q (previous s) (seqno s) None (running s) (input s) (started s)))
| step_returns s c l1 l2 : running s = l1 ++ c :: l2 →
    step s (Returns c) (mkState (anyQ s) (previous s) (seqno s) (cur s) (l1 ++ l2) (input s) (started s))
| step_group_done s w i : cur s = Some (w, i) → ¬ group_running (seqno s) i s →
    step s GroupDone (enter w (S i) s)
| step_deadline s w i : cur s = Some (w, i) →
    step s Deadline (match w with WTx _ => end_message s | _ => enter w (S i) s end).

Inductive steps : State → list Label → State → Prop :=
| steps_nil s : steps s [] s
| steps_snoc s ls s1 l s2 : steps s ls s1 → step s1 l s2 → steps s (ls ++ [l]) s2.

Definition start (prev : Hash * Z) : State := mkState [] prev 0 None [] [] [].

(** ** What the messages say

    The works of a sequence of messages and the previous block after them. *)
Fixpoint dispatch (prev : Hash * Z) (ms : list Msg) : list Work * (Hash * Z) :=
  match ms with
  | [] => ([], prev)
  | m :: ms =>
    match accept prev.1 m with
    | None => dispatch prev ms
    | Some w => let '(ws, prev) := dispatch (advance_previous w prev) ms in (w :: ws, prev)
    end
  end.

Lemma dispatch_snoc ms m : ∀ prev, dispatch prev (ms ++ [m]) =
  let '(ws, p) := dispatch prev ms in
  match accept p.1 m with None => (ws, p) | Some w => (ws ++ [w], advance_previous w p) end.
Proof.
  induction ms as [|x ms IH]; intros prev; cbn [app dispatch]; [by destruct (accept prev.1 m)|].
  destruct (accept prev.1 x) as [w|]; [|apply IH]. rewrite IH. destruct (dispatch (advance_previous w prev) ms) as [ws p].
  by destruct (accept p.1 m).
Qed.

(** The calls of the first [k] groups for the [n]-th work. *)
Definition first_groups (n : nat) (w : Work) (k : nat) : list Call :=
  concat ((λ i, handler_calls n i (default 0%nat (groups w !! i))) <$> seq 0 k).
Lemma first_groups_S n w k c : groups w !! k = Some c → first_groups n w (S k) = first_groups n w k ++ handler_calls n k c.
Proof.
  intros Hk. unfold first_groups. rewrite seq_S, fmap_app, concat_app. cbn [Nat.add fmap list_fmap concat]. by rewrite Hk, app_nil_r.
Qed.

(** The calls for works of which the first groups were called. *)
Definition log_of (hist : list (Work * nat)) : list Call := concat (imap (λ n '(w, k), first_groups n w k) hist).
Lemma log_of_snoc hist w k : log_of (hist ++ [(w, k)]) = log_of hist ++ first_groups (length hist) w k.
Proof. unfold log_of. rewrite imap_app, concat_app. cbn. by rewrite Nat.add_0_r, app_nil_r. Qed.

(** Only transactions may miss groups. *)
Definition complete (p : Work * nat) : Prop := match p.1 with WTx _ => (p.2 <= length (tx_groups handlers))%nat | w => p.2 = length (groups w) end.

(** ** The invariant *)
Record inv (prev0 : Hash * Z) (s : State) : Prop := {
  inv_split : ∃ P hist, input s = P ++ anyQ s ∧ Forall complete hist ∧ seqno s = length hist ∧
    match cur s with
    | None => dispatch prev0 P = (hist.*1, previous s) ∧ started s = log_of hist
    | Some (w, i) => (∃ c, groups w !! i = Some c) ∧
        dispatch prev0 P = (hist.*1 ++ [w], advance_previous w (previous s)) ∧ started s = log_of (hist ++ [(w, S i)])
    end
}.

(** Entering a group, or leaving after the last. *)
Lemma enter_inv prev0 s w i P hist : input s = P ++ anyQ s → Forall complete hist → seqno s = length hist → (i <= length (groups w))%nat →
  dispatch prev0 P = (hist.*1 ++ [w], advance_previous w (previous s)) → started s = log_of (hist ++ [(w, i)]) → inv prev0 (enter w i s).
Proof.
  intros Hin Hc Hs Hi Hd Hst. constructor. unfold enter. destruct (groups w !! i) as [k|] eqn:Ek.
  - exists P, hist. cbn. split_and!; try done; [by exists k|]. rewrite Hst, !log_of_snoc, (first_groups_S _ _ _ _ Ek), Hs.
    by rewrite app_assoc.
  - apply lookup_ge_None in Ek. assert (i = length (groups w)) as -> by lia.
    destruct (advance_previous w (previous s)) as [h ht] eqn:Ea. exists P, (hist ++ [(w, length (groups w))]). cbn.
    split_and!; [done| | | |done].
    + apply Forall_app. split; [done|]. apply Forall_singleton. unfold complete. cbn [fst snd]. by destruct w.
    + rewrite length_app. cbn. lia.
    + by rewrite fmap_app.
Qed.

Lemma step_inv prev0 s l s' : inv prev0 s → step s l s' → inv prev0 s'.
Proof.
  intros [(P & hist & Hin & Hc & Hs & Hcur)] Hstep. inversion Hstep; subst; clear Hstep.
  - constructor. exists P, hist. cbn. split; [by rewrite Hin, <- app_assoc|]. by split_and!.
  - rewrite H in Hcur. destruct Hcur as [Hd Hst]. constructor. exists (P ++ [m]), hist. cbn. split; [by rewrite Hin, H0, <- app_assoc|].
    split_and!; try done. by rewrite dispatch_snoc, Hd, H1.
  - rewrite H in Hcur. destruct Hcur as [Hd Hst]. apply (enter_inv _ _ _ _ (P ++ [m]) hist); cbn; try done.
    + by rewrite Hin, H0, <- app_assoc.
    + lia.
    + by rewrite dispatch_snoc, Hd, H1.
    + rewrite log_of_snoc, Hst. unfold first_groups. cbn. by rewrite app_nil_r.
  - constructor. exists P, hist. cbn. by split_and!.
  - rewrite H in Hcur. destruct Hcur as ((c & Hg) & Hd & Hst). apply lookup_lt_Some in Hg as Hlt.
    by apply (enter_inv _ _ _ _ P hist).
  - rewrite H in Hcur. destruct Hcur as ((c & Hg) & Hd & Hst). apply lookup_lt_Some in Hg as Hlt.
    assert (∀ t, w = WTx t → inv prev0 (end_message s)) as Htx.
    { intros t ->. constructor. exists P, (hist ++ [(WTx t, S i)]). cbn. split_and!; [done| | | |done].
      - apply Forall_app. split; [done|]. apply Forall_singleton. unfold complete. cbn in *. lia.
      - rewrite length_app. cbn. lia.
      - by rewrite fmap_app. }
    destruct w; [by apply (enter_inv _ _ _ _ P hist)..|by eapply Htx].
Qed.

Lemma steps_inv prev0 ls s : steps (start prev0) ls s → inv prev0 s.
Proof.
  remember (start prev0) as s0 eqn:E0. induction 1 as [s|s ls s1 l s2 _ IH Hl]; [subst|by eapply step_inv; [apply IH|]].
  constructor. by exists [], [].
Qed.

(** C14: The notifier implements the sequential dispatch of the messages, however
    arrivals, returns of handlers and missed deadlines interleave: the messages
    taken from the queue are a prefix [P] of those that arrived; the works done
    and the block that the next one has to connect to are the ones that
    [dispatch] computes from [P]; the calls started so far are those of the
    groups of these works in the order of registration, and only a transaction
    may have been left with groups not called. *)
Theorem notifier_refines_dispatch prev0 ls s : steps (start prev0) ls s →
  ∃ P hist, input s = P ++ anyQ s ∧ Forall complete hist ∧
    match cur s with
    | None => dispatch prev0 P = (hist.*1, previous s) ∧ started s = log_of hist
    | Some (w, i) => dispatch prev0 P = (hist.*1 ++ [w], advance_previous w (previous s)) ∧ started s = log_of (hist ++ [(w, S i)])
    end.
Proof.
  intros [(P & hist & Hin & Hc & _ & Hcur)]%steps_inv. exists P, hist. split_and!; [done..|].
  destruct (cur s) as [[w i]|]; [|done]. by destruct Hcur as (_ & ? & ?).
Qed.

(** ** Overlap

    The running calls are all of the current group. *)
Definition only_current (s : State) : Prop :=
  ∀ c, c ∈ running s → ∃ w i j, cur s = Some (w, i) ∧ c = (seqno s, i, j).

Lemma enter_current w i s : running s = [] → only_current (enter w i s).
Proof.
  intros Hr c. unfold enter. destruct (groups w !! i) as [k|].
  - cbn [running cur seqno]. rewrite Hr. cbn [app]. unfold handler_calls. intros (j & -> & _)%list_elem_of_fmap. by exists w, i, j.
  - destruct (advance_previous w (previous s)) as [h ht]. cbn. rewrite Hr. by intros ?%elem_of_nil.
Qed.

Lemma only_current_idle s : only_current s → (∀ w i, cur s = Some (w, i) → ¬ group_running (seqno s) i s) → running s = [].
Proof.
  intros Hcur Hno. destruct (running s) as [|c l] eqn:Er; [done|exfalso].
  destruct (Hcur c) as (w & i & j & Hw & ->); [rewrite Er; apply list_elem_of_here|].
  apply (Hno w i Hw). exists j. rewrite Er. apply list_elem_of_here.
Qed.

Lemma step_current s l s' : only_current s → step s l s' → l ≠ Deadline → only_current s'.
Proof.
  intros Hcur Hstep Hl. inversion Hstep as [| | |? c l1 l2 Hr| |]; subst; clear Hstep; try done.
  - intros c (w & i & j & Hw & _)%Hcur. congruence.
  - apply enter_current. apply (only_current_idle s); [done|]. intros w' i. congruence.
  - intros c'. cbn. intros Hc'. apply Hcur. rewrite Hr. set_solver.
  - apply enter_current. apply (only_current_idle s); [done|]. intros w' i'. congruence.
Qed.

(** As long as no deadline passes, handlers of different messages or of
    different groups never run at the same time: every running call is of the
    message being processed and of its current group, and nothing runs between
    two messages.  (The source warns that a missed deadline breaks this.) *)
Theorem groups_do_not_overlap prev0 ls s : steps (start prev0) ls s → Deadline ∉ ls →
  ∀ c, c ∈ running s → ∃ w i j, cur s = Some (w, i) ∧ c = (seqno s, i, j).
Proof.
  change (steps (start prev0) ls s → Deadline ∉ ls → only_current s).
  remember (start prev0) as s0 eqn:E0. induction 1 as [s|s ls s1 l s2 _ IH Hl]; intros Hd.
  - subst. by intros c ?%elem_of_nil.
  - apply (step_current s1 l); [|done|]; [apply IH; [done|]|intros ->]; set_solver.
Qed.

(** ** Progress

    The number of steps that remain to be done. *)
Definition weight (l : list nat) : nat := sum_list (S <$> l).
Definition message_groups (m : Msg) : list nat :=
  match m with MsgBlock _ => block_groups handlers | MsgReorg _ => reorg_groups handlers | MsgTx _ => tx_groups handlers end.
Definition remaining (s : State) : nat :=
  length (running s) + match cur s with Some (w, i) => S (weight (drop (S i) (groups w))) | None => 0 end +
  sum_list ((λ m, S (weight (message_groups m))) <$> anyQ s).

Lemma accept_groups prev m w : accept prev m = Some w → groups w = message_groups m.
Proof.
  destruct m as [bh|d|tx]; unfold accept; cbn [groups message_groups]; [case_bool_decide; [by intros [= <-]|done]| |by intros [= <-]].
  destruct (CommonAncestor true (NewChainHead d) (OldChainHead d)) as [[[a nc] oc]| | |]; by intros [= <-].
Qed.

(** The work that is left besides the current message. *)
Definition others (s : State) : nat := length (running s) + sum_list ((λ m, S (weight (message_groups m))) <$> anyQ s).
Lemma enter_remaining w i s : (remaining (enter w i s) = others s + weight (drop i (groups w)))%nat.
Proof.
  unfold enter, remaining, others. destruct (groups w !! i) as [k|] eqn:Ek.
  - cbn [running cur anyQ]. rewrite (drop_S _ _ _ Ek), length_app. unfold weight, handler_calls. rewrite length_fmap, length_seq, fmap_cons. cbn [sum_list foldr]. unfold id. lia.
  - destruct (advance_previous w (previous s)) as [h ht]. cbn [SetPreviousBlock end_message running cur anyQ].
    rewrite drop_ge by (by apply lookup_ge_None). cbn. lia.
Qed.

Definition is_arrival (l : Label) : bool := match l with Arrives _ => true | _ => false end.

Lemma step_remaining s l s' : step s l s' → is_arrival l = false → (remaining s' < remaining s)%nat.
Proof.
  intros Hstep Hl. inversion Hstep as [|? m q Hc Hq Ha|? m q w Hc Hq Ha|? c l1 l2 Hr|? w i Hc Hg|? w i Hc]; subst; clear Hstep; try done.
  - unfold remaining. rewrite Hc, Hq. cbn. lia.
  - rewrite enter_remaining, (accept_groups _ _ _ Ha). unfold remaining, others. rewrite Hc, Hq. rewrite fmap_cons, drop_0. cbn [running anyQ sum_list foldr]. unfold id. lia.
  - unfold remaining. rewrite Hr. cbn [running cur anyQ]. rewrite !length_app. cbn [length]. lia.
  - rewrite enter_remaining. unfold remaining, others. rewrite Hc. lia.
  - destruct w; try (rewrite enter_remaining; unfold remaining, others; rewrite Hc; lia).
    unfold remaining. rewrite Hc. cbn [end_message running cur anyQ]. lia.
Qed.

Lemma steps_remaining s ls s' : steps s ls s' → Forall (λ l, is_arrival l = false) ls →
  (length ls + remaining s' <= remaining s)%nat ∧ input s' = input s.
Proof.
  induction 1 as [s|s ls s1 l s2 _ IH Hl]; intros Hf; [cbn; split; [lia|done]|].
  apply Forall_app in Hf as [Hls Hf]. rewrite Forall_singleton in Hf. destruct (IH Hls) as [Hlen Hin].
  pose proof (step_remaining _ _ _ Hl Hf). rewrite length_app. cbn [length]. split; [lia|]. rewrite <- Hin. clear -Hl Hf.
  inversion Hl; subst; try done; unfold enter; repeat (case_match; try done).
Qed.

Lemma stuck_idle s : (∀ l s', step s l s' → is_arrival l = true) → cur s = None ∧ anyQ s = [] ∧ running s = [].
Proof.
  intros Hno. assert (running s = []) as Hr.
  { destruct (running s) as [|c l] eqn:Er; [done|]. by specialize (Hno _ _ (step_returns s c [] l Er)). }
  destruct (cur s) as [[w i]|] eqn:Ec; [by specialize (Hno _ _ (step_deadline s w i Ec))|].
  destruct (anyQ s) as [|m q] eqn:Eq; [done|]. destruct (accept (previous s).1 m) as [w|] eqn:Ea.
  - by specialize (Hno _ _ (step_takes s m q w Ec Eq Ea)).
  - by specialize (Hno _ _ (step_drops s m q Ec Eq Ea)).
Qed.

(** C38: Everything that arrived gets processed if every handler returns: when no
    more messages arrive, at most [remaining s] further steps are possible,
    whatever their order, and where no step is left the queue is empty, no
    handler is running, and the block that the next one has to connect to is
    the one [dispatch] computes from all the messages. *)
Theorem notifier_drains prev0 ls s ls' s' : steps (start prev0) ls s → steps s ls' s' → Forall (λ l, is_arrival l = false) ls' →
  (length ls' <= remaining s)%nat ∧
  ((∀ l s2, step s' l s2 → is_arrival l = true) → anyQ s' = [] ∧ running s' = [] ∧ previous s' = (dispatch prev0 (input s)).2).
Proof.
  intros H1 H2 Hf. destruct (steps_remaining _ _ _ H2 Hf) as [Hlen Hin]. split; [lia|].
  intros (Hc & Hq & Hr)%stuck_idle. split_and!; [done..|]. apply steps_inv in H1. clear Hlen Hf. 
  assert (inv prev0 s') as [(P & hist & HP & _ & _ & Hcur)].
  { clear -H1 H2. induction H2 as [|s ls s1 l s2 _ IH Hl]; [done|]. by eapply step_inv; [apply IH|]. }
  rewrite Hc in Hcur. destruct Hcur as [Hd _]. rewrite Hq, app_nil_r in HP. by rewrite <- Hin, HP, Hd.
Qed.
End Notifier.

(** ** Concrete instances *)
Module Witness.
#[local] Existing Instance ChainWalk.Witness.sample.

(** Two groups of block handlers, the second empty. *)
Definition registered : Handlers := RegisterBlockHandlerGroup 0 (RegisterBlockHandlerLiteGroup 1 NewNotifier).
Definition block2 : BlockHeader := mkBH [2] 1 [1].
Definition arrived : State := mkState [MsgBlock block2] ([1], 0) 0 None [] [MsgBlock block2] [].
Definition busy : State := mkState [] ([1], 0) 0 (Some (WBlock block2, 0%nat)) [(0, 0, 0)%nat] [MsgBlock block2] [(0, 0, 0)%nat].

Lemma arrives : step registered (start ([1], 0)) (Arrives (MsgBlock block2)) arrived.
Proof. apply (step_arrives registered (start ([1], 0)) (MsgBlock block2)). vm_compute. lia. Qed.
Lemma takes : step registered arrived Takes busy.
Proof. by apply (step_takes registered arrived (MsgBlock block2) [] (WBlock block2)). Qed.
Lemma sample_steps : steps registered (start ([1], 0)) [Arrives (MsgBlock block2); Takes] busy.
Proof.
  apply (steps_snoc registered _ [Arrives (MsgBlock block2)] arrived); [|apply takes].
  apply (steps_snoc registered _ [] (start ([1], 0))); [constructor|apply arrives].
Qed.

Lemma notifier_refines_dispatch_witness : ∃ P (hist : list (Work * nat)), input busy = P ++ anyQ busy ∧ dispatch ([1], 0) P = (hist.*1 ++ [WBlock block2], ([2], 1)).
Proof.
  destruct (notifier_refines_dispatch registered ([1], 0) _ busy sample_steps) as (P & hist & Hin & _ & Hd & _). by exists P, hist.
Defined.

Lemma groups_do_not_overlap_witness : ∃ w i j, cur busy = Some (w, i) ∧ (0, 0, 0)%nat = (seqno busy, i, j).
Proof. apply (groups_do_not_overlap registered ([1], 0) _ busy sample_steps); [set_solver|]. apply list_elem_of_here. Defined.

(** The message waits; after it is taken, its handler returns and both groups
    end, nothing is left to do. *)
Definition done_state : State := mkState [] ([2], 1) 1 None [] [MsgBlock block2] [(0, 0, 0)%nat].
Lemma rest_steps : steps registered busy [Returns (0, 0, 0)%nat; GroupDone; GroupDone] done_state.
Proof.
  set (b1 := mkState [] ([1], 0) 0 (Some (WBlock block2, 0%nat)) [] [MsgBlock block2] [(0, 0, 0)%nat]).
  set (b2 := mkState [] ([1], 0) 0 (Some (WBlock block2, 1%nat)) [] [MsgBlock block2] [(0, 0, 0)%nat]).
  apply (steps_snoc registered busy [Returns (0, 0, 0)%nat; GroupDone] b2).
  - apply (steps_snoc registered busy [Returns (0, 0, 0)%nat] b1).
    + apply (steps_snoc registered busy [] busy); [constructor|]. by apply (step_returns registered busy (0, 0, 0)%nat [] []).
    + apply (step_group_done registered b1 (WBlock block2) 0); [done|]. by intros (j & ?%elem_of_nil).
  - apply (step_group_done registered b2 (WBlock block2) 1); [done|]. by intros (j & ?%elem_of_nil).
Qed.

Lemma notifier_drains_witness : previous done_state = (dispatch ([1], 0) (input busy)).2.
Proof.
  apply (notifier_drains registered ([1], 0) _ busy _ done_state sample_steps rest_steps); [by repeat constructor|].
  intros l s2 Hl. inversion Hl; subst; try done. by destruct l1.
Defined.
End Witness.
