(* ===== verification/PubSubTypes.v ===== *)
(** * Signals, messages and subscriptions (pubsub/types/pubsub_types.go, pubsub/websocket.go)

    The signals that go between the clients and the hub, the check of a
    subscription request, and the subscriptions of a client.  The theorems say
    exactly which requests are valid, and that the two sets a client keeps, of
    signals and of addresses, stand for one set of topics: a client is
    subscribed to a topic when the last request about it was to subscribe. *)
From Stdlib Require Import Ascii.
From stdpp Require Import gmap strings.
From S2P Require Import Prelude.
Open Scope Z_scope.

(** ** Signals *)
Abbreviation HubSignal := Z (only parsing).
Definition SigSubscribe : HubSignal := 0.
Definition SigUnsubscribe : HubSignal := 1.
Definition SigDecodeTx : HubSignal := 2.
Definition SigGetMempoolTxs : HubSignal := 3.
Definition SigSendTx : HubSignal := 4.
Definition SigVersion : HubSignal := 5.
Definition SigNewBlock : HubSignal := 6.
Definition SigMempoolUpdate : HubSignal := 7.
Definition SigPingAndUserCount : HubSignal := 8.
Definition SigNewTx : HubSignal := 9.
Definition SigNewTxs : HubSignal := 10.
Definition SigAddressTx : HubSignal := 11.
Definition SigSyncStatus : HubSignal := 12.
Definition SigByeNow : HubSignal := 13.
Definition SigUnknown : HubSignal := 14.

Definition eventIDs : list (HubSignal * string) :=
  [(SigSubscribe, "subscribe"); (SigUnsubscribe, "unsubscribe"); (SigDecodeTx, "decodetx");
   (SigGetMempoolTxs, "getmempooltxs"); (SigSendTx, "sendtx"); (SigVersion, "getversion"); (SigNewBlock, "newblock");
   (SigMempoolUpdate, "mempool"); (SigPingAndUserCount, "ping"); (SigNewTx, "newtx"); (SigNewTxs, "newtxs");
   (SigAddressTx, "address"); (SigSyncStatus, "blockchainSync"); (SigByeNow, "bye"); (SigUnknown, "unknown")]%string.

Definition Subscriptions : list (string * HubSignal) :=
  [("newblock", SigNewBlock); ("mempool", SigMempoolUpdate); ("ping", SigPingAndUserCount); ("newtxs", SigNewTxs);
   ("address", SigAddressTx); ("blockchainSync", SigSyncStatus)]%string.

(** A map given by its entries; a key occurs once. *)
Fixpoint entry {K V} `{EqDecision K} (k : K) (m : list (K * V)) : option V :=
  match m with [] => None | (k', v) :: m => if decide (k' = k) then Some v else entry k m end.

Definition HubSignal_String (s : HubSignal) : string := default "invalid"%string (entry s eventIDs).
Definition HubSignal_IsValid (s : HubSignal) : bool := bool_decide (is_Some (entry s eventIDs)).

(** ** Messages

    The dynamic types that the code tests for; a pointer may be nil. *)
Record AddressMessage := mkAM { Address : string; TxHash : string }.
Record MempoolTx := mkMempoolTx { TxID : string }.
Inductive Payload := NoMsg | MsgAddress (am : option AddressMessage) | MsgTx (tx : option MempoolTx) | MsgTxs (txs : list MempoolTx).
Record HubMessage := mkHM { Signal : HubSignal; HubMsg : Payload }.

Definition HubMessage_IsValid (m : HubMessage) : bool :=
  HubSignal_IsValid (Signal m) &&
  (if Signal m =? SigAddressTx then match HubMsg m with MsgAddress _ => true | _ => false end
   else if Signal m =? SigNewTx then match HubMsg m with MsgTx _ => true | _ => false end
   else if Signal m =? SigNewTxs then match HubMsg m with MsgTxs _ => true | _ => false end
   else true).

(** ** Requests

    [event[:idx]] and [event[idx+1:]] for the index of the first colon. *)
Fixpoint cut_colon (s : string) : option (string * string) :=
  match s with
  | EmptyString => None
  | String c s => if Ascii.eqb c ":"%char then Some (""%string, s) else '(a, b) ← cut_colon s; Some (String c a, b)
  end.

Section Requests.
(** [base58.CheckDecode] returns no error. *)
Context (CheckDecode : string → bool).

Definition invalidSubscription : HubSignal * Payload * bool := (SigUnknown, NoMsg, false).
Definition ValidateSubscription (event : string) : HubSignal * Payload * bool :=
  let '(sig, msgStr) := default (event, ""%string) (cut_colon event) in
  match entry sig Subscriptions with
  | None => invalidSubscription
  | Some sub =>
    if sub =? SigAddressTx then
      if CheckDecode msgStr then (sub, MsgAddress (Some (mkAM msgStr "")), true) else invalidSubscription
    else if bool_decide (msgStr = ""%string) then (sub, NoMsg, true) else invalidSubscription
  end.
End Requests.

(** ** The subscriptions of a client *)
Record client := mkClient { subs : gset HubSignal; addrs : gset string; newTxs : list MempoolTx }.
Definition newClient : client := mkClient ∅ ∅ [].

Definition set_subs (u : gset HubSignal) (c : client) : client := mkClient u (addrs c) (newTxs c).
Definition set_addrs (a : gset string) (c : client) : client := mkClient (subs c) a (newTxs c).
Definition set_newTxs (t : list MempoolTx) (c : client) : client := mkClient (subs c) (addrs c) t.

(** The address of a message; a nil message panics, another type is an error. *)
Definition msg_address (m : HubMessage) : res string string :=
  match HubMsg m with
  | MsgAddress (Some am) => Ok (Address am)
  | MsgAddress None => Panic
  | _ => Err "not an AddressMessage"%string
  end.

Definition isSubscribed (m : HubMessage) (c : client) : res string bool :=
  if negb (bool_decide (Signal m ∈ subs c)) then Ok false
  else if Signal m =? SigAddressTx then
    match msg_address m with Ok a => Ok (bool_decide (a ∈ addrs c)) | Err _ => Ok false | Panic => Panic | NoFuel => NoFuel end
  else Ok true.

(** Signals that are not subscriptions. *)
Definition not_subscription (s : HubSignal) : bool :=
  (s =? SigPingAndUserCount) || (s =? SigByeNow) || (s =? SigDecodeTx) || (s =? SigSendTx) || (s =? SigSubscribe) || (s =? SigUnsubscribe).

Definition subscribe (m : HubMessage) (c : client) : res string bool * client :=
  if Signal m =? SigAddressTx then
    match msg_address m with
    | Ok a => (Ok true, set_subs ({[Signal m]} ∪ subs c) (set_addrs ({[a]} ∪ addrs c) c))
    | Err e => (Err e, c) | Panic => (Panic, c) | NoFuel => (NoFuel, c)
    end
  else if not_subscription (Signal m) then (Ok false, c)
  else (Ok true, set_subs ({[Signal m]} ∪ subs c) c).

Definition unsubscribe (m : HubMessage) (c : client) : res string unit * client :=
  if Signal m =? SigAddressTx then
    match msg_address m with
    | Ok a =>
      let c := set_addrs (addrs c ∖ {[a]}) c in
      (Ok tt, if bool_decide (addrs c = ∅) then set_subs (subs c ∖ {[SigAddressTx]}) c else c)
    | Err e => (Err e, c) | Panic => (Panic, c) | NoFuel => (NoFuel, c)
    end
  else (Ok tt, set_subs (subs c ∖ {[Signal m]}) c).

Definition unsubscribeAll (c : client) : client := set_subs ∅ (set_addrs ∅ c).

(** ** Properties *)
Lemma cut_colon_Some s a b : cut_colon s = Some (a, b) → s = (a ++ ":" ++ b)%string.
Proof.
  revert a. induction s as [|c s IH]; intros a; cbn [cut_colon]; [done|]. destruct (Ascii.eqb c ":"%char) eqn:E.
  - apply Ascii.eqb_eq in E as ->. by intros [= <- <-].
  - destruct (cut_colon s) as [[a' b']|]; [|done]. cbn. intros [= <- <-]. by rewrite (IH a' eq_refl).
Qed.

(** No character of the string is a colon. *)
Fixpoint no_colon (s : string) : bool := match s with EmptyString => true | String c s => negb (Ascii.eqb c ":"%char) && no_colon s end.
Lemma cut_colon_None s : cut_colon s = None ↔ no_colon s = true.
Proof.
  induction s as [|c s IH]; cbn; [done|]. destruct (Ascii.eqb c ":"%char); [done|]. cbn [negb andb]. rewrite <- IH.
  by destruct (cut_colon s) as [[a b]|].
Qed.
Lemma cut_colon_first a b : no_colon a = true → cut_colon (a ++ ":" ++ b) = Some (a, b).
Proof.
  induction a as [|c a IH]; [done|]. cbn [no_colon]. intros [Hc Ha]%andb_true_iff. apply negb_true_iff in Hc.
  change (String c a ++ ":" ++ b)%string with (String c (a ++ ":" ++ b)). cbn [cut_colon]. by rewrite Hc, (IH Ha).
Qed.

Lemma entry_elem {K V} `{EqDecision K} (k : K) (v : V) m : entry k m = Some v → (k, v) ∈ m.
Proof. induction m as [|[k' v'] m IH]; cbn; [done|]. case_decide; [intros [= <-]; subst; constructor|intros ?; constructor; by apply IH]. Qed.

Lemma subscription_names sig sub : entry sig Subscriptions = Some sub →
  no_colon sig = true ∧ (sub =? SigAddressTx) = bool_decide (sig = "address"%string).
Proof.
  intros Hin%entry_elem. unfold Subscriptions in Hin. rewrite !elem_of_cons, elem_of_nil in Hin.
  destruct_or! Hin; simplify_eq; done.
Qed.

(** What a request names: a subscription without a message, or an address that
    decodes; a colon with nothing after it makes no difference. *)
Definition named (CheckDecode : string → bool) (sig rest : string) (sub : HubSignal) (msg : Payload) : Prop :=
  entry sig Subscriptions = Some sub ∧
  (if bool_decide (sub = SigAddressTx) then CheckDecode rest = true ∧ msg = MsgAddress (Some (mkAM rest "")) else rest = ""%string ∧ msg = NoMsg).
Definition names (CheckDecode : string → bool) (event : string) (sub : HubSignal) (msg : Payload) : Prop :=
  ∃ sig rest, (event = sig ++ ":" ++ rest ∨ event = sig ∧ rest = "")%string ∧ named CheckDecode sig rest sub msg.

Lemma ValidateSubscription_named CheckDecode event sig rest sub msg : default (event, ""%string) (cut_colon event) = (sig, rest) →
  ValidateSubscription CheckDecode event = (sub, msg, true) ↔ named CheckDecode sig rest sub msg.
Proof.
  unfold ValidateSubscription, invalidSubscription, named. intros ->.
  destruct (entry sig Subscriptions) as [sub'|]; [|by split; [intros ?; simplify_eq|intros [? _]]].
  split.
  - destruct (Z.eqb_spec sub' SigAddressTx); [destruct (CheckDecode rest) eqn:?|case_bool_decide];
      intros ?; simplify_eq; split; try done; case_bool_decide; done.
  - intros [[= ->] H]. revert H. case_bool_decide; destruct (Z.eqb_spec sub SigAddressTx); try done; intros [-> ->]; done.
Qed.

(** A subscription request is accepted exactly if it is the name of a
    subscription, or "address:" with an address that decodes, and the signal
    and the message are those it names. *)
Theorem ValidateSubscription_spec CheckDecode event sub msg :
  ValidateSubscription CheckDecode event = (sub, msg, true) ↔ names CheckDecode event sub msg.
Proof.
  split.
  - destruct (cut_colon event) as [[sig rest]|] eqn:Ec.
    + intros H%(ValidateSubscription_named _ _ sig rest); [|by rewrite Ec].
      exists sig, rest. split; [left; by apply cut_colon_Some|done].
    + intros H%(ValidateSubscription_named _ _ event ""); [|by rewrite Ec]. exists event, ""%string. split; [by right|done].
  - intros (sig & rest & Hev & Hn). apply (ValidateSubscription_named _ _ sig rest); [|done].
    destruct Hn as [[Hc _]%subscription_names _].
    destruct Hev as [->|[-> ->]]; [by rewrite cut_colon_first|]. by apply cut_colon_None in Hc as ->.
Qed.

(** ** Topics

    The subscriptions of a client stand for a set of topics. *)
Inductive Topic := TSig (s : HubSignal) | TAddr (a : string).
#[global] Instance Topic_eq_dec : EqDecision Topic.
Proof. solve_decision. Defined.

Definition topic (m : HubMessage) : option Topic :=
  if Signal m =? SigAddressTx then match msg_address m with Ok a => Some (TAddr a) | _ => None end else Some (TSig (Signal m)).

Inductive Request := Sub (m : HubMessage) | Unsub (m : HubMessage) | UnsubAll.
(** The client after a request; [None] is a panic. *)
Definition request (r : Request) (c : client) : option client :=
  match r with
  | Sub m => match subscribe m c with (Panic, _) => None | (_, c) => Some c end
  | Unsub m => match unsubscribe m c with (Panic, _) => None | (_, c) => Some c end
  | UnsubAll => Some (unsubscribeAll c)
  end.
Definition requests (rs : list Request) (c : client) : option client := foldl (λ oc r, c ← oc; request r c) (Some c) rs.

(** Whether the last request about a topic was to subscribe. *)
Definition wanted (t : Topic) (rs : list Request) : bool :=
  foldl (λ b r, match r with
    | Sub m => if bool_decide (topic m = Some t) && negb (not_subscription (Signal m)) then true else b
    | Unsub m => if bool_decide (topic m = Some t) then false else b
    | UnsubAll => false
    end) false rs.

(** The client has the topics that [f] says. *)
Definition has_topics (f : Topic → bool) (c : client) : Prop :=
  (∀ s, s ≠ SigAddressTx → s ∈ subs c ↔ f (TSig s) = true) ∧ (∀ a, a ∈ addrs c ↔ f (TAddr a) = true) ∧
  (SigAddressTx ∈ subs c ↔ addrs c ≠ ∅).

Lemma requests_snoc rs r c : requests (rs ++ [r]) c = c ← requests rs c; request r c.
Proof. unfold requests. by rewrite foldl_snoc. Qed.
Lemma wanted_snoc t rs r : wanted t (rs ++ [r]) = match r with
    | Sub m => if bool_decide (topic m = Some t) && negb (not_subscription (Signal m)) then true else wanted t rs
    | Unsub m => if bool_decide (topic m = Some t) then false else wanted t rs
    | UnsubAll => false
    end.
Proof. unfold wanted. by rewrite foldl_snoc. Qed.

Lemma topic_address m : Signal m = SigAddressTx → topic m = match msg_address m with Ok a => Some (TAddr a) | _ => None end.
Proof. unfold topic. by intros ->. Qed.
Lemma topic_signal m : Signal m ≠ SigAddressTx → topic m = Some (TSig (Signal m)).
Proof. unfold topic. intros Hs. by apply Z.eqb_neq in Hs as ->. Qed.

(** A topic that is not the one of the message keeps its place. *)
Lemma has_topics_ext f g c : (∀ t, f t = g t) → has_topics f c → has_topics g c.
Proof. intros E (Hs & Ha & Hb). split_and!; [intros s Hs'|intros a|done]; rewrite <- E; auto. Qed.

Definition subscribed_topic (m : HubMessage) (f : Topic → bool) (t : Topic) : bool :=
  if bool_decide (topic m = Some t) && negb (not_subscription (Signal m)) then true else f t.
Definition unsubscribed_topic (m : HubMessage) (f : Topic → bool) (t : Topic) : bool :=
  if bool_decide (topic m = Some t) then false else f t.

Lemma subscribe_topics f m c c' : has_topics f c → request (Sub m) c = Some c' → has_topics (subscribed_topic m f) c'.
Proof.
  intros Hc Hr. unfold request, subscribe in Hr. unfold subscribed_topic. destruct (Z.eqb_spec (Signal m) SigAddressTx) as [E|E].
  - pose proof (topic_address m E) as Ht. destruct (msg_address m) as [a|e| |]; simplify_eq.
    2, 3: by eapply has_topics_ext, Hc; intros t; rewrite Ht.
    destruct Hc as (Hs & Ha & Hb). rewrite E in *. split_and!; [intros s Hs'|intros b|]; cbn [subs addrs set_subs set_addrs]; rewrite ?Ht.
    + rewrite bool_decide_eq_false_2 by done. cbn [andb]. rewrite <- Hs by done. set_solver.
    + destruct (decide (a = b)) as [->|Hab]; [rewrite bool_decide_eq_true_2 by done; cbn; set_solver|].
      rewrite bool_decide_eq_false_2 by congruence. cbn [andb]. rewrite <- Ha. set_solver.
    + set_solver.
  - pose proof (topic_signal m E) as Ht. destruct (not_subscription (Signal m)) eqn:En; simplify_eq.
    { eapply has_topics_ext, Hc. intros t. cbn [negb]. by rewrite andb_false_r. }
    destruct Hc as (Hs & Ha & Hb). split_and!; [intros s Hs'|intros b|]; cbn [subs addrs set_subs]; rewrite ?Ht.
    + destruct (decide (s = Signal m)) as [->|Hne]; [rewrite bool_decide_eq_true_2 by done; cbn; set_solver|].
      rewrite bool_decide_eq_false_2 by congruence. cbn [andb]. rewrite <- Hs by done. set_solver.
    + rewrite bool_decide_eq_false_2 by done. cbn [andb]. by rewrite <- Ha.
    + rewrite <- Hb. set_solver.
Qed.

Lemma unsubscribe_topics f m c c' : has_topics f c → request (Unsub m) c = Some c' → has_topics (unsubscribed_topic m f) c'.
Proof.
  intros Hc Hr. unfold request, unsubscribe in Hr. unfold unsubscribed_topic. destruct (Z.eqb_spec (Signal m) SigAddressTx) as [E|E].
  - pose proof (topic_address m E) as Ht. destruct (msg_address m) as [a|e| |]; simplify_eq.
    2, 3: by eapply has_topics_ext, Hc; intros t; rewrite Ht.
    destruct Hc as (Hs & Ha & Hb). cbn [addrs set_addrs].
    case_bool_decide as Hd; (split_and!; [intros s Hs'|intros b|]); cbn [subs addrs set_subs set_addrs]; rewrite ?Ht.
    1, 4: rewrite bool_decide_eq_false_2 by done; rewrite <- Hs by done; set_solver.
    1, 3: destruct (decide (a = b)) as [->|Hab]; [rewrite bool_decide_eq_true_2 by done; set_solver|];
      rewrite bool_decide_eq_false_2 by congruence; rewrite <- Ha; set_solver.
    all: set_solver.
  - pose proof (topic_signal m E) as Ht. simplify_eq. destruct Hc as (Hs & Ha & Hb). split_and!; [intros s Hs'|intros b|]; cbn [subs addrs set_subs]; rewrite ?Ht.
    + destruct (decide (s = Signal m)) as [->|Hne]; [rewrite bool_decide_eq_true_2 by done; set_solver|].
      rewrite bool_decide_eq_false_2 by congruence. rewrite <- Hs by done. set_solver.
    + rewrite bool_decide_eq_false_2 by done. by rewrite <- Ha.
    + rewrite <- Hb. set_solver.
Qed.

Lemma request_topics rs r c c' : has_topics (λ t, wanted t rs) c → request r c = Some c' → has_topics (λ t, wanted t (rs ++ [r])) c'.
Proof.
  intros Hc Hr. eapply has_topics_ext; [intros t; symmetry; apply wanted_snoc|]. destruct r as [m|m|].
  - by apply (subscribe_topics _ m c).
  - by apply (unsubscribe_topics _ m c).
  - injection Hr as <-. unfold has_topics. cbn. set_solver.
Qed.

Lemma requests_topics rs c : requests rs newClient = Some c → has_topics (λ t, wanted t rs) c.
Proof.
  revert c. induction rs as [|r rs IH] using rev_ind; intros c Hc.
  - injection Hc as <-. unfold has_topics, newClient, wanted. cbn. set_solver.
  - rewrite requests_snoc in Hc. destruct (requests rs newClient) as [c0|]; [|done]. cbn in Hc.
    eapply request_topics; [by apply IH|done].
Qed.

(** After any requests that did not panic, a client is subscribed to a message
    exactly if the last request about its topic, the signal or for address
    signals the address, was to subscribe: the two sets that a client keeps
    stand for a set of topics. *)
Theorem isSubscribed_wanted rs c m t : requests rs newClient = Some c → topic m = Some t →
  isSubscribed m c = Ok (wanted t rs).
Proof.
  intros (Hs & Ha & Hb)%requests_topics Ht. unfold isSubscribed. destruct (Z.eqb_spec (Signal m) SigAddressTx) as [E|E].
  - rewrite (topic_address m E) in Ht. destruct (msg_address m) as [a|e| |]; simplify_eq.
    assert (bool_decide (a ∈ addrs c) = wanted (TAddr a) rs) as <-.
    { apply eq_bool_prop_intro. rewrite bool_decide_spec, Ha. by destruct (wanted (TAddr a) rs). }
    rewrite E. case_bool_decide as Hin; [done|]. cbn [negb]. rewrite bool_decide_eq_false_2; [done|].
    intros Hac. apply Hin, Hb. set_solver.
  - rewrite (topic_signal m E) in Ht. injection Ht as <-. specialize (Hs _ E).
    case_bool_decide as Hin; cbn [negb]; f_equal; [symmetry; by apply Hs|]. destruct (wanted _ rs); [|done]. by destruct Hin; apply Hs.
Qed.

(** ** Concrete instances *)
Module Witness.
Definition address (a : string) : HubMessage := mkHM SigAddressTx (MsgAddress (Some (mkAM a ""))).
Definition newblock : HubMessage := mkHM SigNewBlock NoMsg.

(** One of two addresses is left. *)
Lemma isSubscribed_wanted_witness : ∃ c, requests [Sub (address "A"); Sub (address "B"); Sub newblock; Unsub (address "A")] newClient = Some c ∧
  isSubscribed (address "B") c = Ok true.
Proof.
  eexists. split; [reflexivity|].
  apply (isSubscribed_wanted [Sub (address "A"); Sub (address "B"); Sub newblock; Unsub (address "A")] _ _ (TAddr "B")); reflexivity.
Defined.
End Witness.
