(* ===== verification/PubSubHub.v ===== *)
(** * The websocket hub (pubsub/websocket.go, pubsub/pubsubhub.go)

    One goroutine runs the hub: it takes messages, registrations and the end of
    connections from unbuffered channels and broadcasts to the clients, each of
    which has a buffered channel (spoke) and goroutines of its own.  The hub
    and the connections are a step relation; each operation of the hub is a
    function that may panic (closing a closed channel, sending on one).

    The goroutines of a connection read what the PubSubHub keeps of the mempool
    and of the chain, of which only matters here whether the pointers are nil.

    The theorems show that the hub never panics and counts its clients right,
    and that a goroutine of a connection does only when it finds one of those
    pointers nil; what a broadcast does to every client; that a client gets the
    transactions relayed since it registered, in order and once, but for those
    of the one write that fails; and that the hub does not stop when a
    connection is being served. *)
From stdpp Require Import gmap strings.
From S2P Require Import Prelude PubSubTypes.
Open Scope Z_scope.

(** ** State *)
Definition NewTxBufferSize : nat := 5.
Definition spoke_capacity : nat := 64.
Definition ticker_capacity : nat := 6.

(** A connection's handler (WebSocketHandler): sending to Register, accepting the
    websocket, its loops running, sendLoop returned after a write that failed
    (receiveLoop may still handle a request), sending to Unregister, returned. *)
Inductive Phase := Registering | Accepting | Serving | Closing | Leaving | Gone.
#[global] Instance Phase_eq_dec : EqDecision Phase.
Proof. solve_decision. Defined.

(** What sendLoop writes; the payload of a block and of the mempool is not
    modelled. *)
Inductive Push := PushAddress (am : AddressMessage) | PushBlock | PushMempool | PushUsers (n : Z) | PushTxs (txs : list MempoolTx) | PushBye.

(** A connection, by its spoke: the data of the client, the content of the spoke,
    whether it and the channel [killed] are closed, what was written, and the
    transactions that were taken from its buffer for a write that failed.
    [since] is the number of transactions relayed when it registered. *)
Record Conn := mkConn {
  data : client; queue : list HubMessage; closed : bool; killed : bool; phase : Phase; pushed : list Push; lost : list MempoolTx;
  since : nat
}.
Definition set_data (d : client) (k : Conn) : Conn := mkConn d (queue k) (closed k) (killed k) (phase k) (pushed k) (lost k) (since k).
Definition set_queue (q : list HubMessage) (k : Conn) : Conn := mkConn (data k) q (closed k) (killed k) (phase k) (pushed k) (lost k) (since k).
Definition close_spoke (k : Conn) : Conn := mkConn (data k) (queue k) true (killed k) (phase k) (pushed k) (lost k) (since k).
Definition kill (k : Conn) : Conn := mkConn (data k) (queue k) (closed k) true Gone (pushed k) (lost k) (since k).
Definition set_phase (p : Phase) (k : Conn) : Conn := mkConn (data k) (queue k) (closed k) (killed k) p (pushed k) (lost k) (since k).
Definition set_since (n : nat) (k : Conn) : Conn := mkConn (data k) (queue k) (closed k) (killed k) (phase k) (pushed k) (lost k) n.
Definition add_push (p : Push) (k : Conn) : Conn := mkConn (data k) (queue k) (closed k) (killed k) (phase k) (pushed k ++ [p]) (lost k) (since k).

Definition txs_of (p : Push) : list MempoolTx := match p with PushTxs txs => txs | _ => [] end.
Definition fail_write (p : Push) (k : Conn) : Conn :=
  mkConn (data k) (queue k) (closed k) (killed k) Closing (pushed k) (lost k ++ txs_of p) (since k).

(** Whether the mempool inventory and the answer of getblockchaininfo that the
    PubSubHub keeps are not nil; the constructor sets the first, and Store the
    second to what the collector found (nil for a block that is not the best
    one of the node any more). *)
Record Page := mkPage { invs : bool; BlockchainInfo : bool }.
Definition NewPage : Page := mkPage true false.

(** Where the Run loop is: at its select, about to reset the ticker, in the loop
    that sends to the clients, waiting for clients to end, or returned. *)
Inductive HubPC := AtSelect | Resetting | Broadcasting (m : HubMessage) (all : bool) | Killing (kills : list nat) | Stopped.
Inductive TickerSig := tickerSigReset | tickerSigStop.

(** [relayed] are all new transactions that the hub took. *)
Record State := mkState {
  conns : gmap nat Conn; clients : gset nat; numClients : Z; timeToSendTxBuffer : bool;
  bufferTickerChan : list TickerSig; tickerClosed : bool; quit : bool; pc : HubPC; relayed : list MempoolTx; psh : Page
}.
Definition NewWebsocketHub : State := mkState ∅ ∅ 0 false [] false false AtSelect [] NewPage.

Definition set_conns (f : gmap nat Conn → gmap nat Conn) (s : State) : State :=
  mkState (f (conns s)) (clients s) (numClients s) (timeToSendTxBuffer s) (bufferTickerChan s) (tickerClosed s) (quit s) (pc s) (relayed s) (psh s).
Definition set_clients (cs : gset nat) (s : State) : State :=
  mkState (conns s) cs (Z.of_nat (size cs)) (timeToSendTxBuffer s) (bufferTickerChan s) (tickerClosed s) (quit s) (pc s) (relayed s) (psh s).
Definition SetTimeToSendTxBuffer (ready : bool) (s : State) : State :=
  mkState (conns s) (clients s) (numClients s) ready (bufferTickerChan s) (tickerClosed s) (quit s) (pc s) (relayed s) (psh s).
Definition set_ticker (l : list TickerSig) (cl : bool) (s : State) : State :=
  mkState (conns s) (clients s) (numClients s) (timeToSendTxBuffer s) l cl (quit s) (pc s) (relayed s) (psh s).
Definition set_pc (p : HubPC) (s : State) : State :=
  mkState (conns s) (clients s) (numClients s) (timeToSendTxBuffer s) (bufferTickerChan s) (tickerClosed s) (quit s) p (relayed s) (psh s).
Definition set_quit (s : State) : State :=
  mkState (conns s) (clients s) (numClients s) (timeToSendTxBuffer s) (bufferTickerChan s) (tickerClosed s) true (pc s) (relayed s) (psh s).
Definition log_tx (tx : MempoolTx) (s : State) : State :=
  mkState (conns s) (clients s) (numClients s) (timeToSendTxBuffer s) (bufferTickerChan s) (tickerClosed s) (quit s) (pc s) (relayed s ++ [tx]) (psh s).

Definition set_psh (p : Page) (s : State) : State :=
  mkState (conns s) (clients s) (numClients s) (timeToSendTxBuffer s) (bufferTickerChan s) (tickerClosed s) (quit s) (pc s) (relayed s) p.

(** ** Operations of the hub

    [order] is the order in which the map of clients is walked, [pick] the
    choice of a select that can go on in two ways. *)
Abbreviation result := (res unit State).
Fixpoint for_each (f : nat → State → result) (l : list nat) (s : State) : result :=
  match l with [] => Ok s | c :: l => match f c s with Ok s => for_each f l s | r => r end end.

Definition registerClient (c : nat) (s : State) : State :=
  set_clients ({[c]} ∪ clients s) (set_conns (alter (λ k, set_since (length (relayed s)) (set_phase Accepting k)) c) s).

(** Closing the spoke of a client. *)
Definition close (c : nat) (s : State) : result :=
  match conns s !! c with
  | Some k => if closed k then Panic else Ok (set_conns <[c := close_spoke k]> s)
  | None => Panic
  end.

Definition unregisterClient (c : nat) (s : State) : result :=
  if bool_decide (c ∈ clients s) then close c (set_clients (clients s ∖ {[c]}) s) else Ok s.

Definition unregisterAllClients (order : list nat) (s : State) : result :=
  match for_each (λ c s, close c (set_clients (clients s ∖ {[c]}) s)) order s with
  | Ok s => Ok (set_pc (Killing order) s)
  | r => r
  end.

(** [sendMsg] *)
Definition sendMsg (pick : nat → bool) (c : nat) (m : HubMessage) (s : State) : result :=
  match conns s !! c with
  | None => Panic
  | Some k =>
    if closed k then Panic
    else if bool_decide (length (queue k) < spoke_capacity)%nat && negb (killed k && pick c)
    then Ok (set_conns <[c := set_queue (queue k ++ [m]) k]> s)
    else unregisterClient c s
  end.

(** The loop over the clients for a message; [all] is [sendToAll]. *)
Definition signal_client (pick : nat → bool) (m : HubMessage) (all : bool) (c : nat) (s : State) : result :=
  if all then sendMsg pick c m s else
  match conns s !! c with
  | None => Panic
  | Some k =>
    match isSubscribed m (data k) with
    | Ok true => sendMsg pick c m s
    | Ok false | Err _ => Ok s
    | Panic => Panic
    | NoFuel => NoFuel
    end
  end.

Definition broadcast (pick : nat → bool) (order : list nat) (m : HubMessage) (all : bool) (s : State) : result :=
  match for_each (signal_client pick m all) order s with
  | Ok s => Ok (set_pc AtSelect (if negb all && (Signal m =? SigNewTxs) then SetTimeToSendTxBuffer false s else s))
  | r => r
  end.

(** [addTxToBuffer] of txList and of WebsocketHub, whose
    result is that of the last client. *)
Definition add_tx (tx : MempoolTx) (d : client) : bool * client :=
  let t := newTxs d ++ [tx] in (bool_decide (NewTxBufferSize <= length t)%nat, set_newTxs t d).
Definition addTxToBuffer (order : list nat) (tx : MempoolTx) (s : State) : bool * State :=
  foldl (λ '(ready, s) c,
    match conns s !! c with
    | Some k => let '(r, d) := add_tx tx (data k) in (r, set_conns <[c := set_data d k]> s)
    | None => (ready, s)
    end) (false, s) order.

Definition newTxsMsg : HubMessage := mkHM SigNewTxs (MsgTxs []).

(** A message from HubRelay, up to the loop over the clients.  When the buffers
    are not to be sent, the [break] leaves the switch only. *)
Definition receive (order : list nat) (m : HubMessage) (s : State) : State :=
  if bool_decide (clients s = ∅) then s
  else if negb (HubMessage_IsValid m) then s
  else if (Signal m =? SigNewBlock) || (Signal m =? SigMempoolUpdate) || (Signal m =? SigSyncStatus)
  then set_pc (Broadcasting m false) s
  else if (Signal m =? SigPingAndUserCount) || (Signal m =? SigByeNow) then set_pc (Broadcasting m true) s
  else if Signal m =? SigAddressTx then
    match HubMsg m with MsgAddress (Some _) => set_pc (Broadcasting m false) s | _ => s end
  else if Signal m =? SigNewTx then
    match HubMsg m with
    | MsgTx (Some tx) =>
      let '(ready, s) := addTxToBuffer order tx (log_tx tx s) in
      if ready : bool then set_pc Resetting s
      else set_pc (Broadcasting (if timeToSendTxBuffer s then newTxsMsg else m) false) s
    | _ => s
    end
  else s.

(** [bufferTickerChan <- sig] *)
Definition send_ticker (sig : TickerSig) (s : State) : result :=
  if tickerClosed s then Panic else Ok (set_ticker (bufferTickerChan s ++ [sig]) false s).

(** ** Operations of a connection

    sendLoop with the message [m], up to the write: what is to be written, if
    anything.  The buffer of transactions is emptied before the write, and the
    mempool inventory is read for what goes with them. *)
Definition send_push (p : Page) (n : Z) (m : HubMessage) (k : Conn) : res unit (option Push * Conn) :=
  if negb (HubMessage_IsValid m) then Ok (None, k) else
  let unsubscribed :=
    if (Signal m =? SigByeNow) || (Signal m =? SigPingAndUserCount) then Ok false
    else match isSubscribed m (data k) with Ok b => Ok (negb b) | Err _ => Ok true | Panic => Panic | NoFuel => NoFuel end in
  match unsubscribed with
  | Ok true => Ok (None, k)
  | Ok false =>
    if Signal m =? SigAddressTx then
      match HubMsg m with MsgAddress (Some am) => Ok (Some (PushAddress am), k) | MsgAddress None => Panic | _ => Ok (None, k) end
    else if Signal m =? SigNewBlock then Ok (Some PushBlock, k)
    else if Signal m =? SigMempoolUpdate then Ok (Some PushMempool, k)
    else if Signal m =? SigPingAndUserCount then Ok (Some (PushUsers n), k)
    else if Signal m =? SigNewTxs then
      match newTxs (data k) with
      | [] => Ok (None, k)
      | txs => if invs p then Ok (Some (PushTxs txs), set_data (set_newTxs [] (data k)) k) else Panic
      end
    else if Signal m =? SigByeNow then Ok (Some PushBye, k)
    else Ok (None, k)
  | Err e => Err e | Panic => Panic | NoFuel => NoFuel
  end.

(** The write; when it fails, sendLoop returns. *)
Definition write (wrote : bool) (p : option Push) (k : Conn) : Conn :=
  match p with None => k | Some p => if wrote then add_push p k else fail_write p k end.

(** The request getmempooltxs: both pointers are dereferenced. *)
Definition getmempooltxs (p : Page) : res unit unit := if BlockchainInfo p then if invs p then Ok tt else Panic else Panic.

(** ** Steps *)
Section Steps.
Context (CheckDecode : string → bool).

(** What receiveLoop does with a valid request. *)
Definition valid_request (r : Request) : Prop :=
  match r with
  | Sub m | Unsub m => ∃ event, ValidateSubscription CheckDecode event = (Signal m, HubMsg m, true)
  | UnsubAll => False
  end.

(** The phases in which receiveLoop may run. *)
Definition receiving (p : Phase) : Prop := p = Serving ∨ p = Closing.

(** The requests decodetx, sendtx, version and ping, and those that are refused or
    ignored, change nothing here ([AsksOther]); a reply that cannot be written
    ends receiveLoop. *)
Inductive Label :=
| Connects (c : nat) | Registers (c : nat) | AcceptFails (c : nat) | AcceptOk (c : nat)
| Requests (c : nat) (r : Request) | AsksMempool (c : nat) | AsksOther (c : nat) | Sends (c : nat) (wrote : bool)
| StoresMempool (inv : bool) | StoresBlock (info : bool) | LoopsEnd (c : nat) | Unregisters (c : nat)
| Relays (m : HubMessage) | Resets | Broadcasts | Tick | TakesSig | Stops | Quits | SeesKilled | Ends.

Inductive step : State → Label → result → Prop :=
| step_connects s c : conns s !! c = None →
    step s (Connects c) (Ok (set_conns <[c := mkConn newClient [] false false Registering [] [] 0]> s))
| step_registers s c k : pc s = AtSelect → conns s !! c = Some k → phase k = Registering →
    step s (Registers c) (Ok (registerClient c s))
| step_accept_fails s c k : conns s !! c = Some k → phase k = Accepting → step s (AcceptFails c) (Ok (set_conns <[c := kill k]> s))
| step_accept_ok s c k : conns s !! c = Some k → phase k = Accepting →
    step s (AcceptOk c) (Ok (set_conns <[c := set_phase Serving k]> s))
| step_requests s c k r : conns s !! c = Some k → receiving (phase k) → valid_request r →
    step s (Requests c r) (match request r (data k) with Some d => Ok (set_conns <[c := set_data d k]> s) | None => Panic end)
| step_asks_mempool s c k : conns s !! c = Some k → receiving (phase k) →
    step s (AsksMempool c) (match getmempooltxs (psh s) with Ok _ => Ok s | Err e => Err e | Panic => Panic | NoFuel => NoFuel end)
| step_asks_other s c k : conns s !! c = Some k → receiving (phase k) → step s (AsksOther c) (Ok s)
| step_sends s c k m q wrote : conns s !! c = Some k → phase k = Serving → queue k = m :: q →
    step s (Sends c wrote) (match send_push (psh s) (numClients s) m (set_queue q k) with
                            | Ok (p, k) => Ok (set_conns <[c := write wrote p k]> s) | Err e => Err e | Panic => Panic | NoFuel => NoFuel end)
| step_stores_mempool s inv : step s (StoresMempool inv) (Ok (set_psh (mkPage inv (BlockchainInfo (psh s))) s))
| step_stores_block s info : step s (StoresBlock info) (Ok (set_psh (mkPage (invs (psh s)) info) s))
| step_loops_end s c k : conns s !! c = Some k → receiving (phase k) →
    step s (LoopsEnd c) (Ok (set_conns <[c := set_data (unsubscribeAll (data k)) (set_phase Leaving k)]> s))
| step_unregisters s c k : pc s = AtSelect → conns s !! c = Some k → phase k = Leaving →
    step s (Unregisters c) (match unregisterClient c s with Ok s => Ok (set_conns (alter kill c) s) | r => r end)
| step_relays s m order : pc s = AtSelect → order ≡ₚ elements (clients s) → step s (Relays m) (Ok (receive order m s))
| step_resets s : pc s = Resetting → (length (bufferTickerChan s) < ticker_capacity)%nat →
    step s Resets (match send_ticker tickerSigReset s with Ok s => Ok (set_pc (Broadcasting newTxsMsg false) s) | r => r end)
| step_broadcasts s m all pick order : pc s = Broadcasting m all → order ≡ₚ elements (clients s) →
    step s Broadcasts (broadcast pick order m all s)
| step_tick s : tickerClosed s = false → step s Tick (Ok (SetTimeToSendTxBuffer true s))
| step_takes_sig s sig l : bufferTickerChan s = sig :: l → tickerClosed s = false →
    step s TakesSig (Ok (set_ticker l (match sig with tickerSigStop => true | tickerSigReset => false end) s))
| step_stops s : quit s = false → step s Stops (Ok (set_quit s))
| step_quits s order : pc s = AtSelect → quit s = true → (length (bufferTickerChan s) < ticker_capacity)%nat →
    order ≡ₚ elements (clients s) →
    step s Quits (match send_ticker tickerSigStop s with Ok s => unregisterAllClients order s | r => r end)
| step_sees_killed s c ks k : pc s = Killing (c :: ks) → conns s !! c = Some k → killed k = true →
    step s SeesKilled (Ok (set_pc (Killing ks) s))
| step_ends s : pc s = Killing [] → step s Ends (Ok (set_pc Stopped s)).

Inductive steps : State → list Label → result → Prop :=
| steps_nil s : steps s [] (Ok s)
| steps_snoc s ls s1 l r : steps s ls (Ok s1) → step s1 l r → steps s (ls ++ [l]) r.
End Steps.

(** ** Walks over the clients

    What one client can see of the state, and the rest. *)
Definition view (c : nat) (s : State) : option Conn * bool := (conns s !! c, bool_decide (c ∈ clients s)).
Definition rest (s : State) := (timeToSendTxBuffer s, bufferTickerChan s, tickerClosed s, quit s, pc s, relayed s).
Definition counted (s : State) : Prop := numClients s = Z.of_nat (size (clients s)).

(** An operation on the client [c] that only changes its view, as [g] says. *)
Definition local (g : option Conn * bool → option Conn * bool) (c : nat) (s : State) (r : result) : Prop :=
  ∃ s', r = Ok s' ∧ view c s' = g (view c s) ∧ (∀ c', c' ≠ c → view c' s' = view c' s) ∧ rest s' = rest s ∧ (counted s → counted s').

Definition open_view (v : option Conn * bool) : Prop := ∃ k, v = (Some k, true) ∧ closed k = false.

Lemma for_each_local f g order : NoDup order → ∀ s,
  (∀ c s, open_view (view c s) → local (g c) c s (f c s)) → (∀ c, c ∈ order → open_view (view c s)) →
  ∃ s', for_each f order s = Ok s' ∧ (∀ c, c ∈ order → view c s' = g c (view c s)) ∧
    (∀ c, c ∉ order → view c s' = view c s) ∧ rest s' = rest s ∧ (counted s → counted s').
Proof.
  induction 1 as [|c order Hc _ IH]; intros s Hf Ho; cbn [for_each].
  - exists s. split_and!; try done. by intros c ?%elem_of_nil.
  - destruct (Hf c s) as (s1 & -> & Hg & Hoth & Hr & Hn); [apply Ho; by left|].
    destruct (IH s1 Hf) as (s' & -> & Hin & Hout & Hr' & Hn').
    { intros c' Hc'. rewrite Hoth by (intros ->; done). apply Ho. by right. }
    exists s'. split; [done|]. split; [|split; [|split; [congruence|auto]]].
    + intros c' [->|Hc']%elem_of_cons; [by rewrite (Hout c Hc)|]. rewrite (Hin c' Hc'), Hoth; [done|]. by intros ->.
    + intros c' [Hne Hc']%not_elem_of_cons. rewrite (Hout c' Hc'). by apply Hoth.
Qed.

(** *** The operations on one client *)
Lemma view_insert_eq c k s : view c (set_conns <[c := k]> s) = (Some k, bool_decide (c ∈ clients s)).
Proof. unfold view. cbn. by rewrite lookup_insert_eq. Qed.
Lemma view_insert_ne c c' k s : c' ≠ c → view c' (set_conns <[c := k]> s) = view c' s.
Proof. intros H. unfold view. cbn. by rewrite lookup_insert_ne. Qed.
Lemma view_remove_ne c c' s : c' ≠ c → view c' (set_clients (clients s ∖ {[c]}) s) = view c' s.
Proof. intros H. unfold view. cbn. f_equal. apply bool_decide_ext. set_solver. Qed.

Definition close_view (v : option Conn * bool) : option Conn * bool := (close_spoke <$> v.1, false).

Lemma close_local c s : open_view (view c s) → local close_view c s (close c (set_clients (clients s ∖ {[c]}) s)).
Proof.
  intros (k & Hv & Ho). unfold view in Hv. injection Hv as Hk Hc. unfold close. cbn [conns set_clients]. rewrite Hk, Ho.
  eexists. split; [done|]. split_and!; [|intros c' Hne|done|done].
  - rewrite view_insert_eq. unfold view, close_view. cbn. rewrite Hk. cbn. f_equal. apply bool_decide_eq_false_2. set_solver.
  - rewrite view_insert_ne by done. by apply view_remove_ne.
Qed.

Lemma unregister_local c s : open_view (view c s) → local close_view c s (unregisterClient c s).
Proof.
  intros Hv. unfold unregisterClient. rewrite bool_decide_eq_true_2; [by apply close_local|].
  destruct Hv as (k & [= _ Hc] & _). by apply bool_decide_eq_true in Hc.
Qed.

(** Messages that do not make a client panic. *)
Definition msg_ok (m : HubMessage) : Prop := Signal m = SigAddressTx → ∃ am, HubMsg m = MsgAddress (Some am).
Lemma isSubscribed_ok m d : msg_ok m → ∃ b, isSubscribed m d = Ok b.
Proof.
  intros Hm. unfold isSubscribed. case_bool_decide; cbn [negb]; [|by eexists]. destruct (Z.eqb_spec (Signal m) SigAddressTx) as [E|]; [|by eexists].
  unfold msg_address. destruct (Hm E) as [am ->]. by eexists.
Qed.

Definition wants (m : HubMessage) (all : bool) (k : Conn) : bool :=
  all || match isSubscribed m (data k) with Ok b => b | _ => false end.
Definition room (pick : nat → bool) (c : nat) (k : Conn) : bool :=
  bool_decide (length (queue k) < spoke_capacity)%nat && negb (killed k && pick c).

(** The effect of a message on a client. *)
Definition signal_view (pick : nat → bool) (m : HubMessage) (all : bool) (c : nat) (v : option Conn * bool) : option Conn * bool :=
  match v.1 with
  | Some k => if wants m all k then if room pick c k then (Some (set_queue (queue k ++ [m]) k), v.2) else close_view v else v
  | None => v
  end.

Lemma sendMsg_local pick m all c s k : open_view (view c s) → conns s !! c = Some k → wants m all k = true →
  local (signal_view pick m all c) c s (sendMsg pick c m s).
Proof.
  intros Hv Hk Hw. pose proof Hv as (k' & [= Hk' Hc] & Ho). assert (k' = k) as -> by congruence.
  unfold sendMsg. rewrite Hk, Ho. fold (room pick c k). destruct (room pick c k) eqn:Er.
  - eexists. split; [done|]. split_and!; [|intros c' Hne; by apply view_insert_ne|done|done].
    rewrite view_insert_eq. unfold signal_view, view. cbn [fst snd]. by rewrite Hk, Hw, Er.
  - destruct (unregister_local c s Hv) as (s' & -> & Hg & Hrest). exists s'. split; [done|]. split; [|done].
    rewrite Hg. unfold signal_view. cbn [view fst]. by rewrite Hk, Hw, Er.
Qed.

Lemma signal_client_local pick m all c s : msg_ok m → open_view (view c s) →
  local (signal_view pick m all c) c s (signal_client pick m all c s).
Proof.
  intros Hm Hv. pose proof Hv as (k & [= Hk Hc] & Ho). unfold signal_client.
  destruct all eqn:Ea; [by apply (sendMsg_local pick m true c s k)|]. rewrite Hk.
  destruct (isSubscribed_ok m (data k) Hm) as [b Hb]. rewrite Hb. destruct b.
  - apply (sendMsg_local pick m false c s k); [done..|]. unfold wants. by rewrite Hb.
  - exists s. split; [done|]. split_and!; try done. unfold signal_view, wants. cbn [view fst]. by rewrite Hk, Hb.
Qed.

(** *** The walks *)
Lemma broadcast_walk pick order m all s : msg_ok m → NoDup order → (∀ c, c ∈ order → open_view (view c s)) →
  ∃ s', for_each (signal_client pick m all) order s = Ok s' ∧ (∀ c, c ∈ order → view c s' = signal_view pick m all c (view c s)) ∧
    (∀ c, c ∉ order → view c s' = view c s) ∧ rest s' = rest s ∧ (counted s → counted s').
Proof. intros Hm Hd Ho. apply for_each_local; [done| |done]. intros c s1 Hc. by apply signal_client_local. Qed.

Lemma close_walk order s : NoDup order → (∀ c, c ∈ order → open_view (view c s)) →
  ∃ s', for_each (λ c s, close c (set_clients (clients s ∖ {[c]}) s)) order s = Ok s' ∧ (∀ c, c ∈ order → view c s' = close_view (view c s)) ∧
    (∀ c, c ∉ order → view c s' = view c s) ∧ rest s' = rest s ∧ (counted s → counted s').
Proof. intros Hd Ho. apply (for_each_local _ (λ _, close_view)); [done| |done]. intros c s1 Hc. by apply close_local. Qed.

Definition buffered (tx : MempoolTx) (k : Conn) : Conn := set_data (add_tx tx (data k)).2 k.

Lemma addTxToBuffer_walk tx order : NoDup order → ∀ s0 b, let s' := (foldl (λ '(ready, s) c,
    match conns s !! c with Some k => let '(r, d) := add_tx tx (data k) in (r, set_conns <[c := set_data d k]> s) | None => (ready, s) end)
    (b, s0) order).2 in
  (∀ c, c ∈ order → conns s' !! c = buffered tx <$> conns s0 !! c) ∧ (∀ c, c ∉ order → conns s' !! c = conns s0 !! c) ∧
  clients s' = clients s0 ∧ numClients s' = numClients s0 ∧ rest s' = rest s0.
Proof.
  induction 1 as [|c order Hc _ IH]; intros s b; cbn [foldl]; [split_and!; try done; by intros c ?%elem_of_nil|].
  destruct (conns s !! c) as [k|] eqn:Ek.
  - destruct (add_tx tx (data k)) as [r d] eqn:Ed. destruct (IH (set_conns <[c := set_data d k]> s) r) as (Hin & Hout & Hcl & Hn & Hr).
    split_and!; [intros c' [->|Hc']%elem_of_cons|intros c' [Hne Hc']%not_elem_of_cons|done..].
    + rewrite Hout by done. cbn. rewrite lookup_insert_eq, Ek. cbn. unfold buffered. by rewrite Ed.
    + rewrite Hin by done. cbn. rewrite lookup_insert_ne; [done|]. by intros ->.
    + rewrite Hout by done. cbn. by rewrite lookup_insert_ne.
  - destruct (IH s b) as (Hin & Hout & Hcl & Hn & Hr). split_and!; [intros c' [->|Hc']%elem_of_cons|intros c' [Hne Hc']%not_elem_of_cons|done..].
    + rewrite Hout by done. by rewrite Ek.
    + by apply Hin.
    + by apply Hout.
Qed.

(** ** The invariant *)
(** The transactions that were written to a client. *)
Definition sent (ps : list Push) : list MempoolTx := concat (txs_of <$> ps).
Lemma sent_snoc ps p : sent (ps ++ [p]) = sent ps ++ txs_of p.
Proof. unfold sent. rewrite fmap_app, concat_app. cbn. by rewrite app_nil_r. Qed.

(** A registered client has an open spoke, and has been sent, or lost in the write
    that failed, or buffers what was relayed since it registered; nothing is lost
    as long as sendLoop is to run. *)
Definition send_runs (p : Phase) : bool := bool_decide (p = Accepting) || bool_decide (p = Serving).
Definition live_ok (rel : list MempoolTx) (k : Conn) : Prop :=
  closed k = false ∧ phase k ≠ Registering ∧ (since k <= length rel)%nat ∧ sent (pushed k) ++ lost k ++ newTxs (data k) = drop (since k) rel.
Definition conn_ok (rel : list MempoolTx) (v : option Conn * bool) : Prop :=
  match v.1 with
  | None => v.2 = false
  | Some k =>
    (v.2 = true → live_ok rel k) ∧ (phase k = Registering → closed k = false ∧ sent (pushed k) ++ lost k ++ newTxs (data k) = []) ∧ (send_runs (phase k) = true → lost k = []) ∧
    (length (queue k) <= spoke_capacity)%nat ∧ Forall msg_ok (queue k) ∧ (killed k = true → phase k = Gone)
  end.

Definition ended (p : HubPC) : Prop := match p with Killing _ | Stopped => True | _ => False end.
Definition ticker_ok (l : list TickerSig) (cl : bool) (p : HubPC) : Prop := cl = true ∨ tickerSigStop ∈ l → ended p.

Record inv (s : State) : Prop := {
  inv_conns : ∀ c, conn_ok (relayed s) (view c s);
  inv_count : counted s;
  inv_msg : match pc s with Broadcasting m _ => msg_ok m | _ => True end;
  inv_ticker : ticker_ok (bufferTickerChan s) (tickerClosed s) (pc s)
}.

Lemma inv_open s c : inv s → c ∈ clients s → open_view (view c s).
Proof.
  intros [Hc _ _ _] Hin. specialize (Hc c). unfold conn_ok, view in Hc. unfold open_view, view.
  rewrite bool_decide_eq_true_2 in * by done. destruct (conns s !! c) as [k|]; cbn in Hc; [|done]. exists k. split; [done|]. by destruct (proj1 Hc eq_refl).
Qed.

Lemma inv_closed_open s c k : inv s → conns s !! c = Some k → c ∈ clients s → closed k = false ∧ phase k ≠ Registering.
Proof.
  intros [Hc _ _ _] Hk Hin. specialize (Hc c). unfold conn_ok, view in Hc. rewrite Hk, bool_decide_eq_true_2 in Hc by done. cbn in Hc.
  destruct Hc as (Hl & _). by destruct (Hl eq_refl) as (? & ? & _).
Qed.

(** A change of one connection. *)
Lemma inv_update s c k : inv s → conn_ok (relayed s) (Some k, bool_decide (c ∈ clients s)) → inv (set_conns <[c := k]> s).
Proof.
  intros Hi Hk. destruct Hi as [Hc Hn Hm Ht]. constructor; [|done..]. intros c'. cbn [relayed set_conns].
  destruct (decide (c' = c)) as [->|Hne]; [by rewrite view_insert_eq|]. rewrite view_insert_ne by done. apply Hc.
Qed.
Lemma inv_conn s c k : inv s → conns s !! c = Some k → conn_ok (relayed s) (Some k, bool_decide (c ∈ clients s)).
Proof. intros [Hc _ _ _] Hk. specialize (Hc c). unfold view in Hc. by rewrite Hk in Hc. Qed.

Lemma inv_live s c k : inv s → conns s !! c = Some k → phase k ≠ Gone → killed k = false.
Proof. intros Hi Hk Hp. destruct (inv_conn s c k Hi Hk) as (_ & _ & _ & _ & _ & Hg). destruct (killed k); [|done]. by destruct Hp, Hg. Qed.

(** A change of what is not in the views. *)
Lemma inv_rest s s' : inv s → conns s' = conns s → clients s' = clients s → numClients s' = numClients s → relayed s' = relayed s →
  match pc s' with Broadcasting m _ => msg_ok m | _ => True end → ticker_ok (bufferTickerChan s') (tickerClosed s') (pc s') → inv s'.
Proof.
  intros [Hc Hn Hm Ht] E1 E2 E3 E4 Hm' Ht'. constructor; [|unfold counted; by rewrite E2, E3|done..].
  intros c. unfold view. rewrite E1, E2, E4. apply Hc.
Qed.

Lemma order_clients s order : order ≡ₚ elements (clients s) → NoDup order ∧ ∀ c, c ∈ order ↔ c ∈ clients s.
Proof. intros Hp. split; [rewrite Hp; apply NoDup_elements|]. intros c. rewrite Hp. apply elem_of_elements. Qed.

(** *** Views after the walks *)
Lemma close_view_ok rel v : conn_ok rel v → (∃ k, v = (Some k, true) ∧ phase k ≠ Registering) → conn_ok rel (close_view v).
Proof. intros Hv (k & -> & Hp). destruct Hv as (_ & _ & Hq). unfold conn_ok, close_view. cbn. split_and!; [done|by intros ?|apply Hq..]. Qed.

Lemma signal_view_ok rel pick m all c v : msg_ok m → conn_ok rel v → open_view v → conn_ok rel (signal_view pick m all c v).
Proof.
  intros Hm Hv (k & -> & Ho). unfold signal_view. cbn [fst snd]. destruct (wants m all k); [|done].
  destruct (room pick c k) eqn:Er; [|apply close_view_ok; [done|]; exists k; split; [done|]; by destruct (proj1 Hv eq_refl) as (_ & ? & _)].
  apply andb_true_iff in Er as [Hlen%bool_decide_eq_true _]. destruct Hv as (Hl & Hr & Hs & Hq1 & Hq2 & Hg). unfold conn_ok. cbn.
  split_and!; [done..| | |done].
  - rewrite length_app. cbn. lia.
  - apply Forall_app. split; [done|]. by apply Forall_singleton.
Qed.

Lemma broadcast_inv pick order m all s : inv s → pc s = Broadcasting m all → order ≡ₚ elements (clients s) →
  ∃ s', broadcast pick order m all s = Ok s' ∧ inv s' ∧ (∀ c, c ∈ clients s → view c s' = signal_view pick m all c (view c s)) ∧
    (∀ c, c ∉ clients s → view c s' = view c s).
Proof.
  intros Hi Hpc [Hd Ho]%order_clients. pose proof Hi as [Hc Hn Hm Ht]. rewrite Hpc in Hm, Ht.
  destruct (broadcast_walk pick order m all s Hm Hd) as (s' & E & Hin & Hout & Hr & Hn'); [intros c Hc'; apply inv_open; [done|by apply Ho]|].
  unfold broadcast. rewrite E. injection Hr as _ Hch Hcl _ _ Hrel. eexists. split; [done|].
  set (s2 := if negb all && _ then _ else _).
  assert (conns s2 = conns s' ∧ clients s2 = clients s' ∧ numClients s2 = numClients s' ∧ relayed s2 = relayed s' ∧
    bufferTickerChan s2 = bufferTickerChan s' ∧ tickerClosed s2 = tickerClosed s') as (E1 & E2 & E3 & E4 & E5 & E6) by by (subst s2; case_match).
  split; [|split].
  - constructor.
    + intros c. unfold view. cbn [conns clients relayed set_pc]. rewrite E1, E2, E4, Hrel. change (conn_ok (relayed s) (view c s')).
      destruct (decide (c ∈ order)) as [Hco|Hco]; [|rewrite Hout by done; apply Hc]. rewrite Hin by done.
      apply signal_view_ok; [done|apply Hc|]. apply inv_open; [done|by apply Ho].
    + unfold counted. cbn [numClients clients set_pc]. rewrite E2, E3. by apply Hn'.
    + done.
    + intros Hx. cbn [bufferTickerChan tickerClosed set_pc] in Hx. rewrite E5, E6, Hch, Hcl in Hx. by apply Ht in Hx.
  - intros c Hc'. unfold view. cbn [conns clients set_pc]. rewrite E1, E2. apply Hin. by apply Ho.
  - intros c Hc'. unfold view. cbn [conns clients set_pc]. rewrite E1, E2. apply Hout. by rewrite Ho.
Qed.

Lemma unregister_inv s c : inv s → c ∈ clients s → ∃ s', unregisterClient c s = Ok s' ∧ inv s' ∧ view c s' = close_view (view c s) ∧ relayed s' = relayed s.
Proof.
  intros Hi Hc. destruct (unregister_local c s) as (s' & E & Hv & Hoth & Hr & Hn); [by apply inv_open|].
  exists s'. pose proof Hi as [Hcs Hcn Hm Ht]. injection Hr as _ Hch Hcl _ Hpc Hrel. split; [done|]. split; [|done]. constructor.
  - intros c'. rewrite Hrel. destruct (decide (c' = c)) as [->|Hne]; [|by rewrite Hoth]. rewrite Hv. apply close_view_ok; [done|].
    destruct (inv_open s c Hi Hc) as (k & Hk & _). exists k. split; [done|]. injection Hk as Hk _. by apply (inv_closed_open s c).
  - auto.
  - by rewrite Hpc.
  - by rewrite Hpc, Hch, Hcl.
Qed.

(** The state may differ from one with the invariant in what the walk does not
    read. *)
Lemma unregisterAll_inv order s0 s : inv s0 → conns s = conns s0 → clients s = clients s0 → numClients s = numClients s0 → relayed s = relayed s0 →
  order ≡ₚ elements (clients s) → ∃ s', unregisterAllClients order s = Ok s' ∧ inv s' ∧ pc s' = Killing order ∧
    (∀ c k, conns s !! c = Some k → ∃ k', conns s' !! c = Some k' ∧ phase k' = phase k ∧ killed k' = killed k).
Proof.
  intros Hi E1 E2 E3 E4 [Hd Ho]%order_clients. pose proof Hi as [Hc Hn _ _].
  assert (∀ c, view c s = view c s0) as Hv by (intros c; unfold view; by rewrite E1, E2).
  destruct (close_walk order s Hd) as (s' & E & Hin & Hout & Hr & Hn').
  { intros c Hc'. rewrite Hv. apply inv_open; [done|]. rewrite <- E2. by apply Ho. }
  unfold unregisterAllClients. rewrite E. injection Hr as _ _ _ _ _ Hrel. eexists. split; [done|]. split; [|split; [done|]].
  - constructor; [| |done|done].
    + intros c. change (conn_ok (relayed s') (view c s')). rewrite Hrel, E4. destruct (decide (c ∈ order)) as [Hco|Hco]; [|rewrite Hout, Hv by done; apply Hc].
      rewrite Hin, Hv by done. apply Ho in Hco. rewrite E2 in Hco. apply close_view_ok; [done|].
      destruct (inv_open s0 c Hi Hco) as (k & Hk & _). exists k. split; [done|]. injection Hk as Hk _. by apply (inv_closed_open s0 c).
    + unfold counted. cbn. apply Hn'. unfold counted. by rewrite E2, E3.
  - intros c k Hk. cbn [conns set_pc]. destruct (decide (c ∈ order)) as [Hco|Hco].
    + specialize (Hin c Hco). unfold view, close_view in Hin. injection Hin as Hx _. rewrite Hk in Hx. by eexists.
    + specialize (Hout c Hco). injection Hout as Hx _. rewrite Hk in Hx. by eexists.
Qed.

(** *** Messages from the relay *)
Lemma drop_snoc_le {A} n (l : list A) x : (n <= length l)%nat → drop n (l ++ [x]) = drop n l ++ [x].
Proof. intros H. rewrite drop_app. by replace (n - length l)%nat with 0%nat by lia. Qed.

Lemma buffered_ok rel tx v : conn_ok rel v → conn_ok (rel ++ [tx]) ((if v.2 then buffered tx <$> v.1 else v.1), v.2).
Proof.
  destruct v as [[k|] []]; cbn; [|intros (_ & Hr & Hq); by split|done..]. intros (Hl & Hr & Hq). split; [intros _|split; [|done]].
  - destruct (Hl eq_refl) as (Ho & Hp & Hs & He). unfold live_ok. cbn -[sent]. split_and!; [done..|rewrite length_app; lia|].
    by rewrite drop_snoc_le, <- He, !app_assoc.
  - intros Hp. by destruct (Hl eq_refl) as (_ & ? & _).
Qed.

Lemma addTxToBuffer_inv order tx s : inv s → pc s = AtSelect → order ≡ₚ elements (clients s) →
  inv (addTxToBuffer order tx (log_tx tx s)).2 ∧ rest (addTxToBuffer order tx (log_tx tx s)).2 = rest (log_tx tx s).
Proof.
  intros [Hc Hn Hm Ht] Hpc [Hd Ho]%order_clients. unfold addTxToBuffer.
  destruct (addTxToBuffer_walk tx order Hd (log_tx tx s) false) as (Hin & Hout & Hcl & Hnum & Hr).
  set (s' := snd _) in *. split; [|done]. injection Hr as _ Hch Hcls _ Hpc' Hrel. rewrite Hpc in *. constructor.
  - intros c. rewrite Hrel. cbn [relayed log_tx]. specialize (Hc c). apply (buffered_ok _ tx) in Hc.
    assert (view c s' = (if (view c s).2 then buffered tx <$> (view c s).1 else (view c s).1, (view c s).2)) as ->; [|done].
    unfold view. cbn [fst snd]. rewrite Hcl. cbn [clients log_tx]. f_equal. case_bool_decide as Hcc.
    + by apply Hin, Ho.
    + apply Hout. by rewrite Ho.
  - unfold counted. rewrite Hcl, Hnum. apply Hn.
  - by rewrite Hpc'.
  - by rewrite Hpc', Hch, Hcls.
Qed.

Lemma hub_set_pc_inv s p : inv s → match p with Broadcasting m _ => msg_ok m | _ => True end → ¬ ended (pc s) → inv (set_pc p s).
Proof. intros Hi Hp He. apply (inv_rest s); try done. intros Hx. by apply (inv_ticker s Hi) in Hx. Qed.

Lemma receive_inv order m s : inv s → pc s = AtSelect → order ≡ₚ elements (clients s) → inv (receive order m s).
Proof.
  intros Hi Hpc Hp. assert (∀ p, match p with Broadcasting m _ => msg_ok m | _ => True end → inv (set_pc p s)) as Hset.
  { intros p Hm. apply hub_set_pc_inv; [done..|]. rewrite Hpc. by intros []. }
  unfold receive. case_bool_decide; [done|]. destruct (HubMessage_IsValid m) eqn:Ev; cbn [negb]; [|done].
  destruct (_ || _ || _) eqn:E1; [apply Hset; intros Hs; rewrite Hs in E1; by vm_compute in E1|].
  destruct ((Signal m =? SigPingAndUserCount) || _) eqn:E2; [apply Hset; intros Hs; rewrite Hs in E2; by vm_compute in E2|].
  destruct (Z.eqb_spec (Signal m) SigAddressTx) as [E3|E3].
  { destruct (HubMsg m) as [|[am|]| |] eqn:Em; try done. apply Hset. intros _. by exists am. }
  destruct (Signal m =? SigNewTx); [|done]. destruct (HubMsg m) as [| |[tx|]|]; try done.
  destruct (addTxToBuffer_inv order tx s Hi Hpc Hp) as [Hi' Hr].
  destruct (addTxToBuffer order tx (log_tx tx s)) as [ready s']. cbn [snd] in *. injection Hr as _ _ _ _ Hpc' _. cbn in Hpc'. rewrite Hpc in Hpc'.
  assert (¬ ended (pc s')) as He by (rewrite Hpc'; intros []).
  destruct ready; apply hub_set_pc_inv; try done. destruct (timeToSendTxBuffer s'); by intros Hs.
Qed.

(** *** Connections *)
Definition page_ok (p : Page) : Prop := invs p = true.
Lemma add_push_ok rel b k p : txs_of p = [] → conn_ok rel (Some k, b) → conn_ok rel (Some (add_push p k), b).
Proof. intros Hp Hk. unfold conn_ok, live_ok in *. cbn -[sent] in *. rewrite sent_snoc, Hp, app_nil_r. done. Qed.
Lemma fail_write_ok rel b k p : txs_of p = [] → phase k = Serving → conn_ok rel (Some k, b) → conn_ok rel (Some (fail_write p k), b).
Proof.
  intros Hp Hs (Hl & _ & Hlost & Hq & Hf & Hg). unfold conn_ok, live_ok in *. cbn -[sent] in *. rewrite Hp, app_nil_r.
  split_and!; [|done..|intros Hk; apply Hg in Hk; congruence]. intros Hb. by destruct (Hl Hb) as (? & _ & ? & ?).
Qed.
Lemma write_txs_ok rel b k txs w : phase k = Serving → newTxs (data k) = txs → conn_ok rel (Some k, b) →
  conn_ok rel (Some (write w (Some (PushTxs txs)) (set_data (set_newTxs [] (data k)) k)), b).
Proof.
  intros Hs <- (Hl & _ & Hlost & Hq & Hf & Hg). rewrite Hs in Hlost. specialize (Hlost eq_refl).
  destruct w; unfold conn_ok, live_ok in *; cbn -[sent] in *; rewrite ?sent_snoc, Hlost in *; cbn [app txs_of] in *; rewrite ?app_nil_r.
  - split_and!; try done. by rewrite Hs.
  - split_and!; try done; [intros Hb; by destruct (Hl Hb) as (? & _ & ? & ?)|]. intros Hk. apply Hg in Hk. congruence.
Qed.
Lemma send_push_ok p n m k rel b w : msg_ok m → phase k = Serving → conn_ok rel (Some k, b) →
  (∃ o k', send_push p n m k = Ok (o, k') ∧ conn_ok rel (Some (write w o k'), b)) ∨ (send_push p n m k = Panic ∧ invs p = false).
Proof.
  intros Hm Hs Hk. assert (∀ x, txs_of x = [] → conn_ok rel (Some (write w (Some x) k), b)) as Hp.
  { intros x Hx. destruct w; cbn [write]; [by apply add_push_ok|by apply fail_write_ok]. }
  unfold send_push. destruct (HubMessage_IsValid m); cbn [negb]; [|left; by do 2 eexists].
  set (u := if (Signal m =? SigByeNow) || _ then Ok false else _). assert (∃ b, u = Ok b) as [[] ->].
  { subst u. case_match; [by eexists|]. destruct (isSubscribed_ok m (data k) Hm) as [b' ->]. by eexists. }
  { left. by do 2 eexists. }
  destruct (Z.eqb_spec (Signal m) SigAddressTx) as [E|]; [left; destruct (Hm E) as [am ->]; do 2 eexists; split; [done|by apply Hp]|].
  repeat (case_match; [left; do 2 eexists; split; [done|by apply Hp]|]).
  destruct (Signal m =? SigNewTxs); [|left; case_match; do 2 eexists; (split; [done|]); [by apply Hp|done]].
  destruct (newTxs (data k)) as [|tx txs] eqn:Et; [left; by do 2 eexists|]. destruct (invs p); [|by right]. left. do 2 eexists. split; [done|].
  by apply write_txs_ok.
Qed.

Lemma valid_request_ok CheckDecode r d : valid_request CheckDecode r →
  ∃ d', request r d = Some d' ∧ newTxs d' = newTxs d.
Proof.
  assert (∀ m, (∃ event, ValidateSubscription CheckDecode event = (Signal m, HubMsg m, true)) → Signal m = SigAddressTx → ∃ a, msg_address m = Ok a) as Hok.
  { intros m (event & (sig & rest & _ & _ & Hn)%ValidateSubscription_spec) E. rewrite bool_decide_eq_true_2 in Hn by done.
    destruct Hn as [_ Hn]. unfold msg_address. rewrite Hn. by eexists. }
  destruct r as [m|m|]; cbn [valid_request request]; [intros Hv; specialize (Hok _ Hv)..|done].
  all: unfold subscribe, unsubscribe; destruct (Z.eqb_spec (Signal m) SigAddressTx) as [E|].
  1, 3: destruct (Hok E) as [a ->]. all: repeat case_match; simplify_eq; by eexists.
Qed.

Lemma send_push_phase p n m k o k' : send_push p n m k = Ok (o, k') → phase k' = phase k.
Proof. unfold send_push. intros H. repeat case_match; by simplify_eq. Qed.

(** A change of phase, of the closing of [killed] or of the subscriptions. *)
Lemma conn_ok_move rel k k' b : conn_ok rel (Some k, b) → phase k ≠ Registering → phase k' ≠ Registering →
  closed k' = closed k → since k' = since k → pushed k' = pushed k → lost k' = lost k → (send_runs (phase k') = true → send_runs (phase k) = true) → newTxs (data k') = newTxs (data k) → queue k' = queue k →
  (killed k' = true → phase k' = Gone) → conn_ok rel (Some k', b).
Proof.
  intros (Hl & _ & Hs & Hq & Hf & Hg) Hp Hp' E1 E2 E3 E6 Hs' E4 E5 Hk. unfold conn_ok, live_ok in *. cbn [fst snd] in *. rewrite E1, E2, E3, E4, E5, E6.
  split_and!; [|done|auto|done..]. intros Hb. by destruct (Hl Hb) as (? & _ & ? & ?).
Qed.

Lemma register_inv s c k : inv s → pc s = AtSelect → conns s !! c = Some k → phase k = Registering → inv (registerClient c s).
Proof.
  intros Hi Hpc Hk Hp. pose proof Hi as [Hc Hn Hm Ht]. rewrite Hpc in Ht. constructor; [|done|cbn; by rewrite Hpc|cbn; by rewrite Hpc].
  intros c'. cbn [relayed registerClient set_clients set_conns]. destruct (decide (c' = c)) as [->|Hne].
  - pose proof (inv_conn s c k Hi Hk) as (_ & Hr & _ & Hq1 & Hq2 & Hg). destruct (Hr Hp) as [Ho He]. unfold view. cbn. rewrite lookup_alter_eq, Hk.
    unfold conn_ok, live_ok. cbn -[sent]. rewrite drop_all. split_and!; [done|by intros ?|by apply app_nil in He as [_ [? _]%app_nil]|done|done|]. cbn in Hg. intros Hx. apply Hg in Hx. by rewrite Hp in Hx.
  - specialize (Hc c'). unfold view in *. cbn. rewrite lookup_alter_ne by done. rewrite (bool_decide_ext _ (c' ∈ clients s)); [done|]. set_solver.
Qed.

Lemma send_ticker_ok sig s : inv s → ¬ ended (pc s) → send_ticker sig s = Ok (set_ticker (bufferTickerChan s ++ [sig]) false s).
Proof.
  intros Hi He. unfold send_ticker. destruct (tickerClosed s) eqn:E; [|done]. exfalso. apply He, (inv_ticker s Hi). by left.
Qed.

Lemma kill_inv s c k : inv s → conns s !! c = Some k → phase k ≠ Registering → inv (set_conns (alter kill c) s).
Proof.
  intros Hi Hk Hp. assert (set_conns (alter kill c) s = set_conns <[c := kill k]> s) as ->.
  { unfold set_conns. f_equal. apply map_eq. intros c'. destruct (decide (c' = c)) as [->|];
      [by rewrite lookup_alter_eq, lookup_insert_eq, Hk|by rewrite lookup_alter_ne, lookup_insert_ne]. }
  apply inv_update; [done|]. by apply (conn_ok_move _ k); [by apply inv_conn|..].
Qed.

Lemma unregisters_inv s c k : inv s → conns s !! c = Some k → phase k = Leaving →
  ∃ s', match unregisterClient c s with Ok s => Ok (set_conns (alter kill c) s) | r => r end = Ok s' ∧ inv s'.
Proof.
  intros Hi Hk Hp. destruct (decide (c ∈ clients s)) as [Hc|Hc].
  - destruct (unregister_inv s c Hi Hc) as (s' & -> & Hi' & Hv & _). eexists. split; [done|].
    unfold view, close_view in Hv. injection Hv as Hk' _. rewrite Hk in Hk'. apply (kill_inv s' c (close_spoke k)); [done..|]. cbn. by rewrite Hp.
  - unfold unregisterClient. rewrite bool_decide_eq_false_2 by done. eexists. split; [done|]. apply (kill_inv s c k); [done..|]. by rewrite Hp.
Qed.

(** When the hub sees that it is to quit, the clients are all unregistered, and it
    waits for them. *)
Lemma quits_inv s order : inv s → pc s = AtSelect → order ≡ₚ elements (clients s) →
  ∃ s', match send_ticker tickerSigStop s with Ok s => unregisterAllClients order s | r => r end = Ok s' ∧ inv s' ∧ pc s' = Killing order ∧
    (∀ c k, conns s !! c = Some k → ∃ k', conns s' !! c = Some k' ∧ phase k' = phase k ∧ killed k' = killed k).
Proof.
  intros Hi Hpc Ho. rewrite send_ticker_ok; [|done|rewrite Hpc; by intros []]. by apply (unregisterAll_inv order s (set_ticker _ false s)).
Qed.

(** The steps that find a pointer nil. *)
Definition finds_nil (p : Page) (l : Label) : Prop :=
  match l with
  | AsksMempool _ => BlockchainInfo p = false ∨ invs p = false
  | Sends _ _ => invs p = false
  | _ => False
  end.
Definition step_ok (s : State) (l : Label) (r : result) : Prop := (∃ s', r = Ok s' ∧ inv s') ∨ (r = Panic ∧ finds_nil (psh s) l).

Lemma receiving_live p : receiving p → p ≠ Registering ∧ p ≠ Gone.
Proof. by intros [->| ->]. Qed.
Lemma inv_psh s p : inv s → inv (set_psh p s).
Proof. intros Hi. apply (inv_rest s); try done; apply Hi. Qed.

Lemma conn_step_inv CheckDecode s l r : inv s → step CheckDecode s l r →
  match l with Connects _ | Registers _ | AcceptFails _ | AcceptOk _ | Requests _ _ | AsksMempool _ | AsksOther _ | Sends _ _ | LoopsEnd _ | Unregisters _ => True | _ => False end →
  step_ok s l r.
Proof.
  intros Hi Hs. inversion Hs as [? c Hn|? c k Hpc Hk Hp|? c k Hk Hp|? c k Hk Hp|? c k r' Hk Hp Hv|? c k Hk Hp|? c k Hk Hp|? c k m q w Hk Hp Hq|? b|? b|? c k Hk Hp|? c k Hpc Hk Hp
    |? m order Hpc Ho|? Hpc Hlen|? m all pick order Hpc Ho|? Ht|? sig q Hq Ht|? Hq|? order Hpc Hq Hlen Ho|? c ks k Hpc Hk Hkill|? Hpc]; subst; clear Hs; intros Hl; try destruct Hl.
  - left. eexists. split; [done|]. apply inv_update; [done|]. pose proof (inv_conns s Hi c) as Hc. unfold view, conn_ok in Hc. rewrite Hn in Hc. cbn in Hc.
    rewrite Hc. unfold conn_ok. cbn. split_and!; [done..|lia|constructor|done].
  - left. eexists. split; [done|]. by apply (register_inv s c k).
  - left. eexists. split; [done|]. apply inv_update; [done|]. apply (conn_ok_move _ k); try done; [by apply inv_conn|by rewrite Hp].
  - left. eexists. split; [done|]. apply inv_update; [done|]. apply (conn_ok_move _ k); try done; [by apply inv_conn|by rewrite Hp|by rewrite Hp|]; cbn; by rewrite (inv_live s c k Hi Hk) by by rewrite Hp.
  - apply receiving_live in Hp as [Hp1 Hp2]. destruct (valid_request_ok CheckDecode r' (data k) Hv) as (d & -> & Hd). left. eexists. split; [done|]. apply inv_update; [done|].
    apply (conn_ok_move _ k); try done; [by apply inv_conn|]. cbn. by rewrite (inv_live s c k Hi Hk).
  - unfold step_ok, getmempooltxs. cbn. destruct (BlockchainInfo (psh s)); [destruct (invs (psh s))|]; [left; by exists s|right; by auto..].
  - left. by exists s.
  - pose proof (inv_conn s c k Hi Hk) as Hc. assert (msg_ok m ∧ conn_ok (relayed s) (Some (set_queue q k), bool_decide (c ∈ clients s))) as [Hm Hc'].
    { destruct Hc as (Hl1 & Hr & Hlost & Hlen & Hf & Hg). rewrite Hq in Hlen, Hf. apply Forall_cons in Hf as [Hm Hf]. split; [done|].
      unfold conn_ok. cbn in *. split_and!; [done..|lia|done|done]. }
    destruct (send_push_ok (psh s) (numClients s) m (set_queue q k) _ _ w Hm Hp Hc') as [(o & k' & -> & Hk')|[-> Hn]]; [left; eexists; split; [done|]; by apply inv_update|by right].
  - apply receiving_live in Hp as [Hp1 Hp2]. left. eexists. split; [done|]. apply inv_update; [done|]. apply (conn_ok_move _ k); try done; [by apply inv_conn|]. cbn. by rewrite (inv_live s c k Hi Hk).
  - left. by apply (unregisters_inv s c k).
Qed.

Lemma hub_step_inv CheckDecode s l r : inv s → step CheckDecode s l r → step_ok s l r.
Proof.
  intros Hi Hs. pose proof (conn_step_inv CheckDecode s l r Hi Hs) as Hconn. revert Hconn.
  inversion Hs as [? c Hn|? c k Hpc Hk Hp|? c k Hk Hp|? c k Hk Hp|? c k r' Hk Hp Hv|? c k Hk Hp|? c k Hk Hp|? c k m q w Hk Hp Hq|? b|? b|? c k Hk Hp|? c k Hpc Hk Hp
    |? m order Hpc Ho|? Hpc Hlen|? m all pick order Hpc Ho|? Ht|? sig q Hq Ht|? Hq|? order Hpc Hq Hlen Ho|? c ks k Hpc Hk Hkill|? Hpc]; subst; clear Hs; intros Hconn; try (by apply Hconn); clear Hconn; left.
  - eexists. split; [done|]. by apply inv_psh.
  - eexists. split; [done|]. by apply inv_psh.
  - eexists. split; [done|]. by apply receive_inv.
  - rewrite send_ticker_ok; [|done|rewrite Hpc; by intros []]. eexists. split; [done|].
    apply (inv_rest s); try done. intros [?|[H|?%list_elem_of_singleton]%elem_of_app]; [done| |done].
    pose proof (inv_ticker s Hi) as Hx. rewrite Hpc in Hx. apply Hx. by right.
  - destruct (broadcast_inv pick order m all s) as (s' & -> & Hi' & _); [done..|]. by exists s'.
  - eexists. split; [done|]. apply (inv_rest s); try done; apply Hi.
  - eexists. split; [done|]. apply (inv_rest s); try done; [apply Hi|]. pose proof (inv_ticker s Hi) as Hx. rewrite Hq in Hx.
    intros [Hc|Hin]; apply Hx; right; [|by right]. destruct sig; [done|by left].
  - eexists. split; [done|]. apply (inv_rest s); try done; apply Hi.
  - destruct (quits_inv s order) as (s' & -> & Hi' & _); [done..|]. by exists s'.
  - eexists. split; [done|]. apply (inv_rest s); try done.
  - eexists. split; [done|]. apply (inv_rest s); try done.
Qed.

Lemma inv_new : inv NewWebsocketHub.
Proof. constructor; [done..|]. intros [?|?%elem_of_nil]; done. Qed.
Lemma hub_steps_inv CheckDecode s0 ls r : inv s0 → steps CheckDecode s0 ls r →
  (∃ s, r = Ok s ∧ inv s) ∨ (r = Panic ∧ ∃ ls1 l s1, ls = ls1 ++ [l] ∧ steps CheckDecode s0 ls1 (Ok s1) ∧ finds_nil (psh s1) l).
Proof.
  intros Hi. induction 1 as [s|s ls s1 l r Hs IH Hl]; [left; by exists s|]. destruct (IH Hi) as [(s1' & [= <-] & Hi1)|[? _]]; [|done].
  destruct (hub_step_inv _ _ _ _ Hi1 Hl) as [?|[-> Hn]]; [by left|]. right. split; [done|]. by exists ls, l, s1.
Qed.
Lemma hub_steps_ok CheckDecode s0 ls s : inv s0 → steps CheckDecode s0 ls (Ok s) → inv s.
Proof. intros Hi Hs. by destruct (hub_steps_inv _ _ _ _ Hi Hs) as [(s' & [= <-] & ?)|[? _]]. Qed.

(** *** What is stored, from the steps *)
Definition stored_page (p : Page) (ls : list Label) : Page :=
  foldl (λ p l, match l with StoresMempool b => mkPage b (BlockchainInfo p) | StoresBlock b => mkPage (invs p) b | _ => p end) p ls.
Lemma for_each_psh f order : (∀ c s s', f c s = Ok s' → psh s' = psh s) → ∀ s s', for_each f order s = Ok s' → psh s' = psh s.
Proof.
  intros Hf. induction order as [|c order IH]; intros s s'; cbn [for_each]; [by intros [= <-]|]. destruct (f c s) as [s1| | |] eqn:E; [|done..].
  intros H. rewrite (IH s1 s' H). by eapply Hf.
Qed.
Lemma close_psh c s s' : close c s = Ok s' → psh s' = psh s.
Proof. unfold close. intros E. repeat case_match; by simplify_eq. Qed.
Lemma unregister_psh c s s' : unregisterClient c s = Ok s' → psh s' = psh s.
Proof. unfold unregisterClient. case_match; [intros E; by rewrite (close_psh _ _ _ E)|by intros [= <-]]. Qed.
Lemma signal_psh pick m all c s s' : signal_client pick m all c s = Ok s' → psh s' = psh s.
Proof.
  assert (sendMsg pick c m s = Ok s' → psh s' = psh s) as Hsend; [|unfold signal_client; intros E; repeat case_match; simplify_eq; by auto].
  unfold sendMsg. destruct (conns s !! c); [|done]. destruct (closed _); [done|]. case_match; [by intros [= <-]|apply unregister_psh].
Qed.
Lemma broadcast_psh pick order m all s s' : broadcast pick order m all s = Ok s' → psh s' = psh s.
Proof.
  unfold broadcast. destruct (for_each _ _ _) as [s1| | |] eqn:E; [|done..]. intros [= <-].
  apply for_each_psh in E; [by case_match|]. intros c s2 s3. apply signal_psh.
Qed.
Lemma unregisterAll_psh order s s' : unregisterAllClients order s = Ok s' → psh s' = psh s.
Proof.
  unfold unregisterAllClients. destruct (for_each _ _ _) as [s1| | |] eqn:E; [|done..]. intros [= <-].
  apply for_each_psh in E; [done|]. intros c s2 s3 Hc. by rewrite (close_psh _ _ _ Hc).
Qed.
Lemma receive_psh order m s : psh (receive order m s) = psh s.
Proof.
  assert (∀ tx s, psh (addTxToBuffer order tx s).2 = psh s) as Hadd.
  { intros tx. unfold addTxToBuffer. generalize false. induction order as [|c order IH]; intros b s0; [done|]. cbn [foldl].
    destruct (conns s0 !! c); [|apply IH]. destruct (add_tx tx _). by rewrite IH. }
  unfold receive. case_bool_decide; [done|]. do 4 (case_match; [try done; repeat case_match; done|]). case_match; [|done].
  destruct (HubMsg m) as [| |[tx|]|]; try done. specialize (Hadd tx (log_tx tx s)). destruct (addTxToBuffer order tx (log_tx tx s)) as [b s']. by destruct b.
Qed.
Lemma step_psh CheckDecode s l s' : step CheckDecode s l (Ok s') → psh s' = stored_page (psh s) [l].
Proof.
  intros Hs. inversion Hs; subst; clear Hs; try done; cbn [stored_page foldl].
  - by case_match; simplify_eq.
  - by case_match; simplify_eq.
  - by repeat case_match; simplify_eq.
  - destruct (unregisterClient c s) as [s1| | |] eqn:E; simplify_eq. cbn. by apply unregister_psh in E.
  - apply receive_psh.
  - unfold send_ticker in *. by repeat case_match; simplify_eq.
  - by eapply broadcast_psh.
  - unfold send_ticker in *. destruct (tickerClosed s); [done|]. by match goal with H : unregisterAllClients _ _ = _ |- _ => rewrite (unregisterAll_psh _ _ _ H) end.
Qed.
Lemma steps_psh CheckDecode s0 ls s : steps CheckDecode s0 ls (Ok s) → psh s = stored_page (psh s0) ls.
Proof.
  remember (Ok s) as r eqn:Er. intros Hs. revert s Er. induction Hs as [s0|s0 ls s1 l r _ IH Hl]; intros s Er; [by injection Er as <-|]. subst r.
  rewrite (step_psh _ _ _ _ Hl), (IH s1 eq_refl). unfold stored_page. by rewrite foldl_app.
Qed.

(** C15: The hub never panics: no spoke is closed twice or sent on when closed, the
    ticker's channel is not sent on when closed, no address message is nil; the
    spokes of registered clients are open, and NumClients is their number.  A
    goroutine of a connection panics only where it finds a pointer nil: the
    answer to getmempooltxs when no blockchain info is stored (no block yet, or
    the last one without), and that answer or the sending of transactions when a
    nil inventory was stored last. *)
Theorem hub_never_panics CheckDecode ls r : steps CheckDecode NewWebsocketHub ls r →
  (∃ s, r = Ok s ∧ numClients s = Z.of_nat (size (clients s)) ∧
    ∀ c, c ∈ clients s → ∃ k, conns s !! c = Some k ∧ closed k = false ∧ phase k ≠ Registering) ∨
  (r = Panic ∧ ∃ ls1 c, let p := stored_page NewPage ls1 in
    (ls = ls1 ++ [AsksMempool c] ∧ (BlockchainInfo p = false ∨ invs p = false)) ∨
    (∃ wrote, ls = ls1 ++ [Sends c wrote] ∧ invs p = false)).
Proof.
  intros [(s & -> & Hi)|[-> (ls1 & l & s1 & -> & Hs & Hn)]]%(hub_steps_inv _ _ _ _ inv_new).
  - left. exists s. split; [done|]. split; [apply Hi|]. intros c Hc.
    destruct (inv_open s c Hi Hc) as (k & [= Hk _] & _). exists k. split; [done|]. by apply (inv_closed_open s c).
  - right. split; [done|]. rewrite (steps_psh _ _ _ _ Hs) in Hn. change (psh NewWebsocketHub) with NewPage in Hn.
    destruct l; try destruct Hn; exists ls1, c; cbn zeta; [left; by auto..|right; by eexists].
Qed.

(** What a broadcast does, in whatever order the clients are walked: a client
    that is not subscribed is left alone; one that is gets the message as the
    last in its spoke; one whose spoke is full, or (if the select picks that)
    whose handler has returned, is unregistered and its spoke closed, and it
    misses the message.  Nobody else is touched. *)
Theorem broadcast_delivers CheckDecode ls s m all pick order : steps CheckDecode NewWebsocketHub ls (Ok s) →
  pc s = Broadcasting m all → order ≡ₚ elements (clients s) → ∃ s', broadcast pick order m all s = Ok s' ∧
  ∀ c k, conns s !! c = Some k →
    if bool_decide (c ∈ clients s) && wants m all k then
      if room pick c k then conns s' !! c = Some (set_queue (queue k ++ [m]) k) ∧ c ∈ clients s'
      else conns s' !! c = Some (close_spoke k) ∧ c ∉ clients s'
    else conns s' !! c = Some k ∧ (c ∈ clients s' ↔ c ∈ clients s).
Proof.
  intros Hi%(hub_steps_ok _ _ _ _ inv_new) Hpc Ho.
  destruct (broadcast_inv pick order m all s Hi Hpc Ho) as (s' & E & _ & Hin & Hout). exists s'. split; [done|]. intros c k Hk.
  case_bool_decide as Hc; cbn [andb].
  - specialize (Hin c Hc). unfold signal_view, view in Hin. cbn [fst snd] in Hin. rewrite Hk, (bool_decide_eq_true_2 (c ∈ clients s)) in Hin by done.
    destruct (wants m all k); [destruct (room pick c k)|]; injection Hin as Hk' Hb; rewrite Hk';
      [apply bool_decide_eq_true in Hb; done|apply bool_decide_eq_false in Hb; done|].
    apply bool_decide_eq_true in Hb. by split; [|split].
  - specialize (Hout c Hc). injection Hout as Hk' Hb. rewrite Hk', Hk. split; [done|].
    rewrite (bool_decide_eq_false_2 (c ∈ clients s)) in Hb by done. apply bool_decide_eq_false in Hb. by split; intros ?.
Qed.

(** C16: However relays, registrations, requests, writes (some of which fail) and
    timers interleave, the transactions relayed since a registered client
    registered are, in their order and each once, those that were written to it,
    those of the write that failed, and those in its buffer.  None was lost as
    long as its sendLoop runs, which returns when a write fails: then the
    transactions taken for that write are gone, while the client stays
    registered until its handler is done. *)
Theorem transactions_in_order CheckDecode ls s c k : steps CheckDecode NewWebsocketHub ls (Ok s) →
  c ∈ clients s → conns s !! c = Some k →
  sent (pushed k) ++ lost k ++ newTxs (data k) = drop (since k) (relayed s) ∧ (send_runs (phase k) = true → lost k = []).
Proof.
  intros Hi%(hub_steps_ok _ _ _ _ inv_new) Hc Hk. destruct (inv_conn s c k Hi Hk) as (Hl & _ & Hlost & _).
  split; [|done]. apply Hl. cbn. by apply bool_decide_eq_true_2.
Qed.

(** ** Shutting down

    The hub waits for a client whose handler cannot return. *)
Definition in_handler (p : Phase) : Prop := receiving p ∨ p = Leaving.
Definition waits_for (c : nat) (s : State) : Prop :=
  ∃ ks k, pc s = Killing ks ∧ c ∈ ks ∧ conns s !! c = Some k ∧ in_handler (phase k).

Lemma waits_for_step CheckDecode c s l s' : inv s → waits_for c s → step CheckDecode s l (Ok s') → waits_for c s'.
Proof.
  intros Hi (ks & k & Hpc & Hc & Hk & Hp) Hs.
  assert (∀ c' k', (c' = c → in_handler (phase k')) → waits_for c (set_conns <[c' := k']> s)) as Hset.
  { intros c' k' Hp'. destruct (decide (c' = c)) as [->|Hne].
    - exists ks, k'. cbn. rewrite lookup_insert_eq. by split_and!; auto.
    - exists ks, k. cbn. rewrite lookup_insert_ne by done. done. }
  inversion Hs as [? c1 Hn|? c1 k1 Hpc1 Hk1 Hp1|? c1 k1 Hk1 Hp1|? c1 k1 Hk1 Hp1|? c1 k1 r' Hk1 Hp1 Hv|? c1 k1 Hk1 Hp1|? c1 k1 Hk1 Hp1|? c1 k1 m q w Hk1 Hp1 Hq|? b|? b|? c1 k1 Hk1 Hp1|? c1 k1 Hpc1 Hk1 Hp1
    |? m order Hpc1 Ho|? Hpc1 Hlen|? m all pick order Hpc1 Ho|? Ht|? sig q Hq Ht|? Hq|? order Hpc1 Hq Hlen Ho|? c1 ks1 k1 Hpc1 Hk1 Hkill|? Hpc1]; subst; clear Hs; try congruence.
  - apply Hset. intros ->. congruence.
  - apply Hset. intros ->. destruct Hp as [[]|]; congruence.
  - apply Hset. intros _. by left; left.
  - destruct (request r' (data k1)); [|done]. simplify_eq. apply Hset. intros _. by left.
  - destruct (getmempooltxs _); simplify_eq. by exists ks, k.
  - by exists ks, k.
  - destruct (send_push _ _ _ _) as [[o k2]| | |] eqn:E2; simplify_eq. apply Hset. intros ->.
    pose proof (send_push_phase _ _ _ _ _ _ E2) as Hph. cbn in Hph. destruct o; [destruct w|]; cbn; [left; left; congruence|by left; right|left; left; congruence].
  - by exists ks, k.
  - by exists ks, k.
  - apply Hset. intros _. by right.
  - by exists ks, k.
  - by exists ks, k.
  - by exists ks, k.
  - rewrite Hpc in Hpc1. injection Hpc1 as ->. exists ks1, k. split_and!; try done. apply elem_of_cons in Hc as [->|Hc]; [|done].
    exfalso. assert (k1 = k) as -> by congruence. rewrite (inv_live s c1 k Hi Hk) in Hkill; [done|]. by destruct Hp as [[->| ->]| ->].
  - rewrite Hpc in Hpc1. injection Hpc1 as ->. by apply elem_of_nil in Hc.
Qed.

(** Shutdown hangs: if a client is being served, or is about to unregister,
    when the hub sees that it is to quit, the hub never stops.  It waits for the
    client's [killed] channel, which the handler closes only after sending to
    Unregister, which only the hub reads. *)
Theorem stop_never_ends CheckDecode ls s c k s1 ls2 s2 : steps CheckDecode NewWebsocketHub ls (Ok s) →
  c ∈ clients s → conns s !! c = Some k → in_handler (phase k) →
  step CheckDecode s Quits (Ok s1) → steps CheckDecode s1 ls2 (Ok s2) → pc s2 ≠ Stopped.
Proof.
  intros Hi%(hub_steps_ok _ _ _ _ inv_new) Hc Hk Hp Hq H2.
  assert (inv s1 ∧ waits_for c s1) as [Hi1 Hw].
  { inversion Hq as [| | | | | | | | | | | | | | | | | |? order Hpc Hquit Hlen Ho E1 E2 E3| |]; subst.
    destruct (quits_inv s order Hi Hpc Ho) as (s' & E & Hi' & Hpc' & Hph). rewrite E in E3. injection E3 as ->. split; [done|].
    destruct (Hph c k Hk) as (k' & Hk' & Hp' & _). exists order, k'. rewrite Hp'. split_and!; try done. by rewrite Ho, elem_of_elements. }
  assert (inv s2 ∧ waits_for c s2) as [_ (ks & k2 & Hpc & _)]; [|by rewrite Hpc].
  clear -H2 Hi1 Hw. remember (Ok s2) as r eqn:Er. revert s2 Er. induction H2 as [s|s ls s1 l r _ IH Hl]; intros s2 Er.
  - by injection Er as <-.
  - subst r. destruct (IH Hi1 Hw s1 eq_refl) as [Hi' Hw']. destruct (hub_step_inv _ _ _ _ Hi' Hl) as [(s' & [= <-] & Hi2)|[? _]]; [|done].
    split; [done|]. by apply (waits_for_step CheckDecode c s1 l).
Qed.

(** Whether the buffers are said to be ready depends on the last client alone. *)
Lemma addTxToBuffer_last order c tx s k : NoDup (order ++ [c]) → conns s !! c = Some k →
  (addTxToBuffer (order ++ [c]) tx s).1 = bool_decide (NewTxBufferSize <= S (length (newTxs (data k))))%nat.
Proof.
  intros [Hd [Hc _]]%NoDup_app Hk. unfold addTxToBuffer. rewrite foldl_snoc.
  destruct (addTxToBuffer_walk tx order Hd s false) as (_ & Hout & _). specialize (Hout c).
  destruct (foldl _ (false, s) order) as [b s'] eqn:E. cbn [snd] in Hout. rewrite Hout, Hk by (intros Hx; apply (Hc c Hx), list_elem_of_here).
  unfold add_tx. cbn [fst]. apply bool_decide_ext. rewrite length_app. cbn. lia.
Qed.

(** ** Concrete instances *)
Module Witness.
Definition no_address (_ : string) : bool := false.
Definition tx1 : MempoolTx := mkMempoolTx "t1".
Definition newtxs_request : Request := Sub (mkHM SigNewTxs NoMsg).

(** A client connects, is accepted and subscribes to transactions. *)
Definition conn0 : Conn := mkConn newClient [] false false Serving [] [] 0.
Definition subscribed : Conn := set_data (set_subs {[SigNewTxs]} newClient) conn0.
Definition served : State := mkState {[0%nat := subscribed]} {[0%nat]} 1 false [] false false AtSelect [] NewPage.

Lemma to_served : steps no_address NewWebsocketHub [Connects 0; Registers 0; AcceptOk 0; Requests 0 newtxs_request] (Ok served).
Proof.
  set (s1 := set_conns <[0%nat := mkConn newClient [] false false Registering [] [] 0]> NewWebsocketHub).
  set (s2 := registerClient 0 s1).
  set (s3 := set_conns <[0%nat := conn0]> s2).
  apply (steps_snoc _ _ [Connects 0; Registers 0; AcceptOk 0] s3).
  - apply (steps_snoc _ _ [Connects 0; Registers 0] s2).
    + apply (steps_snoc _ _ [Connects 0] s1).
      * apply (steps_snoc _ _ [] NewWebsocketHub); [constructor|]. by apply step_connects.
      * by eapply step_registers.
    + by eapply (step_accept_ok _ s2 0 (set_since 0 (set_phase Accepting (mkConn newClient [] false false Registering [] [] 0)))).
  - assert (step no_address s3 (Requests 0 newtxs_request) (match request newtxs_request newClient with Some d => Ok (set_conns <[0%nat := set_data d conn0]> s3) | None => Panic end)) as H.
    { apply (step_requests _ s3 0 conn0); [reflexivity|by left|]. by exists "newtxs"%string. }
    exact H.
Qed.

Lemma hub_never_panics_witness : ∃ s, Ok (E := unit) served = Ok s ∧ numClients s = 1.
Proof.
  destruct (hub_never_panics no_address _ _ to_served) as [(s & E & Hn & _)|[? _]]; [|done]. exists s. split; [done|]. by injection E as <-.
Defined.

(** getmempooltxs panics when no block has been stored, and when the last one was
    not the best block of the node any more when it was collected: nothing
    recovers the panic of receiveLoop's goroutine. *)
Lemma getmempooltxs_panics : steps no_address NewWebsocketHub ([Connects 0; Registers 0; AcceptOk 0; Requests 0 newtxs_request] ++ [AsksMempool 0]) Panic ∧
  steps no_address NewWebsocketHub ([Connects 0; Registers 0; AcceptOk 0; Requests 0 newtxs_request] ++ [StoresBlock true] ++ [StoresBlock false] ++ [AsksMempool 0]) Panic.
Proof.
  assert (∀ s ls, steps no_address NewWebsocketHub ls (Ok s) → conns s !! 0%nat = Some subscribed → BlockchainInfo (psh s) = false →
    steps no_address NewWebsocketHub (ls ++ [AsksMempool 0]) Panic) as H.
  { intros s ls Hs Hk Hb. eapply steps_snoc; [exact Hs|]. pose proof (step_asks_mempool no_address s 0 subscribed Hk ltac:(by left)) as Ha.
    unfold getmempooltxs in Ha. by rewrite Hb in Ha. }
  split; [by apply (H served); [apply to_served|..]|]. rewrite !app_assoc. eapply (H (set_psh (mkPage true false) (set_psh (mkPage true true) served))); [|done..].
  eapply steps_snoc; [eapply steps_snoc; [apply to_served|exact (step_stores_block _ _ true)]|exact (step_stores_block _ _ false)].
Qed.

(** The ticker fires and a transaction is relayed: the buffers are to be sent. *)
Definition relay_tx : HubMessage := mkHM SigNewTx (MsgTx (Some tx1)).
Definition sending : State := receive [0%nat] relay_tx (SetTimeToSendTxBuffer true served).
Lemma to_sending : steps no_address NewWebsocketHub [Connects 0; Registers 0; AcceptOk 0; Requests 0 newtxs_request; Tick; Relays relay_tx] (Ok sending).
Proof.
  apply (steps_snoc _ _ [Connects 0; Registers 0; AcceptOk 0; Requests 0 newtxs_request; Tick] (SetTimeToSendTxBuffer true served)).
  - apply (steps_snoc _ _ [Connects 0; Registers 0; AcceptOk 0; Requests 0 newtxs_request] served); [apply to_served|]. by apply step_tick.
  - apply step_relays; [done|]. vm_compute. done.
Qed.

Lemma broadcast_delivers_witness : ∃ s', broadcast (λ _, false) [0%nat] newTxsMsg false sending = Ok s' ∧
  queue <$> conns s' !! 0%nat = Some [newTxsMsg].
Proof.
  destruct (broadcast_delivers no_address _ sending newTxsMsg false (λ _, false) [0%nat] to_sending) as (s' & E & H); [reflexivity|vm_compute; done|].
  exists s'. split; [exact E|]. specialize (H 0%nat (set_data (mkClient {[SigNewTxs]} ∅ [tx1]) conn0)). cbn in H.
  destruct H as [-> _]; [|done]. vm_compute. done.
Defined.

(** The write of the buffer fails: the transaction is gone, and the client still
    registered. *)
Definition signalled : State := match broadcast (λ _, false) [0%nat] newTxsMsg false sending with Ok s => s | _ => sending end.
Definition signalled_conn : Conn := set_queue [newTxsMsg] (set_data (mkClient {[SigNewTxs]} ∅ [tx1]) conn0).
Definition failed : State :=
  set_conns <[0%nat := mkConn (mkClient {[SigNewTxs]} ∅ []) [] false false Closing [] [tx1] 0]> signalled.
Lemma to_failed : steps no_address NewWebsocketHub
  ([Connects 0; Registers 0; AcceptOk 0; Requests 0 newtxs_request; Tick; Relays relay_tx] ++ [Broadcasts] ++ [Sends 0 false]) (Ok failed).
Proof.
  rewrite app_assoc. eapply (steps_snoc _ _ _ signalled); [eapply steps_snoc; [apply to_sending|]|].
  - apply (step_broadcasts _ sending newTxsMsg false (λ _, false) [0%nat]); [done|vm_compute; done].
  - pose proof (step_sends no_address signalled 0 signalled_conn newTxsMsg [] false ltac:(vm_compute; reflexivity) eq_refl eq_refl) as H.
    exact H.
Qed.
Lemma transactions_in_order_witness : lost <$> conns failed !! 0%nat = Some [tx1] ∧ bool_decide (0%nat ∈ clients failed) = true.
Proof.
  split; [|by vm_compute]. destruct (conns failed !! 0%nat) as [k|] eqn:E; [|by vm_compute in E]. cbn.
  destruct (transactions_in_order no_address _ failed 0 k to_failed ltac:(vm_compute; done) E) as [H _]. f_equal.
  assert (sent (pushed k) = [] ∧ newTxs (data k) = [] ∧ drop (since k) (relayed failed) = [tx1]) as (H1 & H2 & H3) by (vm_compute in E; by injection E as <-).
  by rewrite H1, H2, H3, app_nil_r in H.
Defined.

(** The hub is told to quit while the client is served. *)
Definition quitting : State := set_quit served.
Lemma to_quitting : steps no_address NewWebsocketHub [Connects 0; Registers 0; AcceptOk 0; Requests 0 newtxs_request; Stops] (Ok quitting).
Proof.
  apply (steps_snoc _ _ [Connects 0; Registers 0; AcceptOk 0; Requests 0 newtxs_request] served); [apply to_served|]. by apply step_stops.
Qed.
Definition waiting : State := mkState {[0%nat := close_spoke subscribed]} ∅ 0 false [tickerSigStop] false true (Killing [0%nat]) [] NewPage.
Lemma quits : step no_address quitting Quits (Ok waiting).
Proof.
  assert (Ok waiting = match send_ticker tickerSigStop quitting with Ok s => unregisterAllClients [0%nat] s | r => r end) as -> by reflexivity.
  apply step_quits; [done|done|cbn; unfold ticker_capacity; lia|vm_compute; done].
Qed.

Lemma stop_never_ends_witness : pc waiting ≠ Stopped.
Proof.
  apply (stop_never_ends no_address _ quitting 0 subscribed waiting [] waiting to_quitting); [vm_compute; done|reflexivity|by left; left|exact quits|constructor].
Defined.
End Witness.
