(* ===== verification/StoreBlock.v ===== *)
(** * Storing a block (db/dcrpg/pgblockchain.go, db/dcrpg/queries.go)

    StoreBlock with updateLastBlock: the tickets of the block and of its
    parent, the two transaction trees (of StoreTree), the change of the mix
    set, the rows of the block, its miners, the link from the parent and the
    invalidation of a parent that the votes disapprove, the best block in memory
    and in the database, and the addresses dropped from the cache.

    The trees are stored by two goroutines that share the cache of unspent
    outputs under its lock; here one runs after the other, in either order. *)
From stdpp Require Import gmap strings.
From S2P Require Import Prelude StakeTx SSFee PoolInfoCache AddressRows AddressCache BlockTxns UtxoStore TicketSpends TxOutData StoreTree GoPost.
Open Scope Z_scope.

(** ** The database

    The statements that StoreBlock executes besides those of the trees. *)
Class BlockOps {bdb : BlockDB} := {
  InsertBlock : MsgBlock → string → list Hash → list Z → list Z → bool → bool → bool → DB → option Z * DB;
  UpsertMinerRow : string → Z → DB → option unit * DB;
  InsertBlockPrevNext : Z → Hash → Hash → DB → sqlres unit * DB;
  SelectBlockFlags : Hash → DB → option (bool * bool);
  SelectBlockChainRowIDByHash : Hash → DB → sqlres Z;
  UpdateBlockNext : Z → Hash → DB → option Z * DB;
  UpdateLastBlockValid : Z → bool → DB → option Z * DB;
  ClearRegularSpends : Hash → DB → option Z * DB;
  SelectTxsByBlockHash : Hash → DB → option (list (Hash * Z * Z));
  SetIsValidIsMainchainByTxHash : bool → bool → Hash → Z → DB → option Z * DB;
  UpdateRegularTxnsValidByBlock : bool → Hash → DB → option (list Z) * DB;
  SelectRegularTxnsVinsVoutsByBlock : Hash → DB → option (list (list Z * list Z));
  SetAddressMainchain : bool → bool → Z → DB → sqlres string * DB;
  UpsertStats : Z → TicketPoolInfo → DB → option unit * DB;
  SetMetaDBBestBlock : Z → Hash → DB → option Z * DB
}.

(** What updateLastBlock fails with; the row of the parent may not exist. *)
Inductive LastErr := ENoRow | ELookup | ENext | EValid | EClear | EVins | ETxns | EAddresses.
Inductive BlockErr :=
| ENoPoolInfo | EPoolHeight | EWinner | EReg (e : StoreErr) | EStk (e : StoreErr) | EBoth (e e' : StoreErr)
| EInsertBlock | EPrevNext | ELast (e : LastErr) | EStats | EBestBlock.

Section StoreBlock.
Context {bdb : BlockDB} {bops : BlockOps} {node : TicketNode} {fl : SSFeeLib} {lib : BlockLib}.
Context {RH : RangeOrder Hash Z} {RM RS RV : RangeOrder Z Z}.

(** The pool info of the stake database, and [chainhash.NewHashFromStr]. *)
Context (PoolInfo : Hash → option TicketPoolInfo) (NewHashFromStr : string → option Hash).

(** ** State *)
Record PgStore := mkPgStore {
  chain : ChainDB; lastBlock : gmap Hash Z; mixSetDiffs : gmap Z Z; bestBlock : Hash * Z;
  addressCache : AddressCache; InBatchSync : bool; dupChecks : bool
}.
Abbreviation M := (goM PgStore BlockErr).
Definition set_chain (c : ChainDB) (s : PgStore) : PgStore :=
  mkPgStore c (lastBlock s) (mixSetDiffs s) (bestBlock s) (addressCache s) (InBatchSync s) (dupChecks s).
Definition set_lastBlock (h : Hash) (id : Z) (s : PgStore) : PgStore :=
  mkPgStore (chain s) (<[h := id]> (lastBlock s)) (mixSetDiffs s) (bestBlock s) (addressCache s) (InBatchSync s) (dupChecks s).
Definition set_mixSetDiffs (height diff : Z) (s : PgStore) : PgStore :=
  mkPgStore (chain s) (lastBlock s) (<[height := diff]> (mixSetDiffs s)) (bestBlock s) (addressCache s) (InBatchSync s) (dupChecks s).
Definition set_bestBlock (h : Hash) (height : Z) (s : PgStore) : PgStore :=
  mkPgStore (chain s) (lastBlock s) (mixSetDiffs s) (h, height) (addressCache s) (InBatchSync s) (dupChecks s).
Definition set_addressCache (c : AddressCache) (s : PgStore) : PgStore :=
  mkPgStore (chain s) (lastBlock s) (mixSetDiffs s) (bestBlock s) c (InBatchSync s) (dupChecks s).

(** A statement, and a query that changes nothing. *)
Definition stm {A} (f : DB → A * DB) : M A := λ s,
  let '(r, d) := f (pg_db (chain s)) in (Ok r, set_chain (set_db d (chain s)) s).
Definition qry {A} (f : DB → A) : M A := gets (λ s, f (pg_db (chain s))).
Definition or_err {A} (e : BlockErr) (r : option A) : M A := match r with Some a => mret a | None => fail e end.
(** A statement that has to change exactly one row. *)
Definition one_row (e : BlockErr) (f : DB → option Z * DB) : M unit :=
  r ← stm f; n ← or_err e r; if n =? 1 then mret tt else fail e.

(** ** updateLastBlock *)
Definition updateLastBlockValid (id : Z) (isValid : bool) : M unit := one_row (ELast EValid) (UpdateLastBlockValid id isValid).
Definition updateBlockNext (id : Z) (next : Hash) : M unit := one_row (ELast ENext) (UpdateBlockNext id next).

Fixpoint update_vins (isValid isMainchain : bool) (txs : list (Hash * Z * Z)) : M unit :=
  match txs with
  | [] => mret tt
  | (txHash, tree, time) :: txs =>
    r ← stm (SetIsValidIsMainchainByTxHash (isValid || (tree =? TxTreeStake)) isMainchain txHash time);
    n ← or_err (ELast EVins) r;
    if n <? 1 then fail (ELast EVins) else update_vins isValid isMainchain txs
  end.
Definition updateLastVins (h : Hash) (isValid isMainchain : bool) : M unit :=
  txs ← qry (SelectTxsByBlockHash h); txs ← or_err (ELast EVins) txs; update_vins isValid isMainchain txs.

Fixpoint address_rows (funding valid : bool) (ids : list Z) (addrs : gset string) : M (gset string) :=
  match ids with
  | [] => mret addrs
  | id :: ids =>
    r ← stm (SetAddressMainchain funding valid id);
    match r with
    | Row a => address_rows funding valid ids ({[a]} ∪ addrs)
    | ErrNoRows => address_rows funding valid ids addrs
    | SqlErr => fail (ELast EAddresses)
    end
  end.
(** updateAddressesMainchainByIDs is its two loops. *)
Definition updateLastAddressesValid (h : Hash) (isValid : bool) : M (gset string) :=
  rows ← qry (SelectRegularTxnsVinsVoutsByBlock h); rows ← or_err (ELast EAddresses) rows;
  addrs ← address_rows false isValid (concat rows.*1) ∅;
  address_rows true isValid (concat rows.*2) addrs.

Definition clear_cache (addrs : gset string) : M unit :=
  modify (λ s, set_addressCache (Clear (Some (elements addrs)) (addressCache s)).2 s).

(** The tables of a parent that was disapproved. *)
Definition invalidate (id : Z) (h : Hash) (isMainchain : bool) : M unit :=
  updateLastBlockValid id false ≫= λ _,
  r ← stm (ClearRegularSpends h); or_err (ELast EClear) r ≫= λ _,
  updateLastVins h false isMainchain ≫= λ _,
  r ← stm (UpdateRegularTxnsValidByBlock false h); or_err (ELast ETxns) r ≫= λ _,
  addrs ← updateLastAddressesValid h false;
  if decide (addrs = ∅) then mret tt else clear_cache addrs.

Definition updateLastBlock (b : MsgBlock) (isMainchain : bool) : M unit :=
  let last := mb_PrevBlock b in
  if decide (last = zeroHash) then mret tt else
  flags ← (if isMainchain then mret None else qry (λ d, Some (SelectBlockFlags last d)));
  match flags with
  | Some None | Some (Some (_, true)) => mret tt
  | _ =>
    cached ← gets (λ s, lastBlock s !! last);
    id ← (match cached with
          | Some id => mret id
          | None => r ← qry (SelectBlockChainRowIDByHash last);
                    match r with Row id => mret id | ErrNoRows => fail (ELast ENoRow) | SqlErr => fail (ELast ELookup) end
          end);
    updateBlockNext id (mb_Hash b) ≫= λ _,
    if Z.testbit (mb_VoteBits b) 0 then mret tt else invalidate id last isMainchain
  end.

(** ** StoreBlock *)
Definition winners_of (tpi : TicketPoolInfo) : M (list Hash) := or_err EWinner (mapM NewHashFromStr (tpi_Winners tpi)).

Definition pool_info (b : MsgBlock) : M (TicketPoolInfo * list Hash) :=
  tpi ← or_err ENoPoolInfo (PoolInfo (mb_Hash b));
  if negb (tpi_Height tpi =? mb_Height b) then fail EPoolHeight else
  w ← winners_of tpi; mret (tpi, w).

Definition validators_of (b : MsgBlock) : M (list Hash) :=
  if decide (mb_PrevBlock b = zeroHash) then mret [] else
  tpi ← or_err ENoPoolInfo (PoolInfo (mb_PrevBlock b)); winners_of tpi.

(** One tree; an error is a result. *)
Definition store_tree (b : MsgBlock) (validators : list Hash) (tree : Z) (isValid isMainchain update fund : bool)
    : M (storeTxnsResult + StoreErr) := λ s,
  match storeBlockTxnTree (RM:=RM) (RS:=RS) (RV:=RV) (dupChecks s) b validators tree isValid isMainchain update fund (chain s) with
  | (Ok r, c) => (Ok (inl r), set_chain c s)
  | (Err e, c) => (Ok (inr e), set_chain c s)
  | (Panic, c) => (Panic, set_chain c s)
  | (NoFuel, c) => (NoFuel, set_chain c s)
  end.

(** Both trees, the regular one first if [regFirst]. *)
Definition store_trees (regFirst : bool) (b : MsgBlock) (validators : list Hash) (isValid isMainchain update fund : bool)
    : M (storeTxnsResult * storeTxnsResult) :=
  let run tree := store_tree b validators tree isValid isMainchain update fund in
  '(reg, stk) ← (if regFirst then reg ← run TxTreeRegular; stk ← run TxTreeStake; mret (reg, stk)
                 else stk ← run TxTreeStake; reg ← run TxTreeRegular; mret (reg, stk));
  match reg, stk with
  | inl reg, inl stk => mret (reg, stk)
  | inr e, inl _ => fail (EReg e)
  | inl _, inr e => fail (EStk e)
  | inr e, inr e' => fail (EBoth e e')
  end.

(** The addresses that the outputs of the coinbase pay. *)
Definition pow_script (sc : ScriptClass) : bool :=
  match sc with SCPubKeyHash | SCScriptHash | SCPubKey | SCPubkeyHashAlt | SCPubkeyAlt => true | _ => false end.
Definition miners (b : MsgBlock) : list string :=
  match mb_Transactions b with
  | [] => []
  | coinbase :: _ => concat ((λ o, let '(class, addrs) := ExtractAddrs o in
      if pow_script (NewScriptClass class) then addrs else []) <$> tx_TxOut coinbase)
  end.
Fixpoint upsert_miners (addrs : list string) (height : Z) : M unit :=
  match addrs with [] => mret tt | a :: addrs => stm (UpsertMinerRow a height) ≫= λ _, upsert_miners addrs height end.

(** An error of updateLastBlock that stops StoreBlock; a missing row does not. *)
Definition tolerated (e : LastErr) : bool := match e with ENoRow => true | _ => false end.
Definition try_last (b : MsgBlock) (isMainchain : bool) : M (option BlockErr) := λ s,
  match updateLastBlock b isMainchain s with
  | (Ok _, s) => (Ok None, s)
  | (Err e, s) => (match e with ELast e' => if tolerated e' then Ok (Some e) else Err e | _ => Err e end, s)
  | (Panic, s) => (Panic, s)
  | (NoFuel, s) => (NoFuel, s)
  end.

(** The best block, in memory first. *)
Definition advance_best (b : MsgBlock) (id : Z) (tpi : TicketPoolInfo) : M unit :=
  modify (set_bestBlock (mb_Hash b) (mb_Height b)) ≫= λ _,
  r ← stm (UpsertStats id tpi); or_err EStats r ≫= λ _,
  one_row EBestBlock (SetMetaDBBestBlock (mb_Height b) (mb_Hash b)).

(** With an error left by updateLastBlock: the steps for the main chain and the
    cache set it anew. *)
Definition StoreBlock (regFirst : bool) (b : MsgBlock) (isValid isMainchain update fund : bool) (chainWork : string)
    : M (Z * Z * Z) :=
  info ← (if isMainchain then r ← pool_info b; mret (Some r) else mret None);
  validators ← (if isMainchain then validators_of b else mret []);
  '(reg, stk) ← store_trees regFirst b validators isValid isMainchain update fund;
  (if isMainchain then modify (set_mixSetDiffs (mb_Height b) (i64 (mixSetDelta reg + mixSetDelta stk))) else mret tt) ≫= λ _,
  dup ← gets dupChecks;
  r ← stm (InsertBlock b chainWork (from_option snd [] info) (r_txDbIDs reg) (r_txDbIDs stk) isValid isMainchain dup);
  id ← or_err EInsertBlock r;
  modify (set_lastBlock (mb_Hash b) id) ≫= λ _,
  (if isMainchain then upsert_miners (miners b) (mb_Height b) else mret tt) ≫= λ _,
  r ← stm (InsertBlockPrevNext id (mb_Hash b) (mb_PrevBlock b));
  (match r with SqlErr => fail EPrevNext | _ => mret tt end) ≫= λ _,
  left ← try_last b isMainchain;
  (match info with Some (tpi, _) => advance_best b id tpi | None => mret tt end) ≫= λ _,
  batch ← gets InBatchSync;
  (if batch : bool
   then match info, left with None, Some e => fail e | _, _ => mret tt end
   else clear_cache (r_addresses reg ∪ r_addresses stk)) ≫= λ _,
  mret (numVins stk + numVins reg, numVouts stk + numVouts reg, numAddresses stk + numAddresses reg).

(** ** What the calls leave alone *)
Definition memory (s : PgStore) := (lastBlock s, mixSetDiffs s, bestBlock s, InBatchSync s, dupChecks s).

Lemma memory_eq s s' : memory s = memory s' →
  lastBlock s = lastBlock s' ∧ mixSetDiffs s = mixSetDiffs s' ∧ bestBlock s = bestBlock s' ∧ InBatchSync s = InBatchSync s'.
Proof. by intros [= -> -> -> -> _]. Qed.

Lemma keeps_stm {A} (f : DB → A * DB) : keeps memory (stm f).
Proof. intros s. unfold stm. by destruct (f (pg_db (chain s))). Qed.
Lemma keeps_or_err {A T} (f : PgStore → T) e (r : option A) : keeps f (or_err e r).
Proof. by destruct r. Qed.
Lemma keeps_modify (f : PgStore → PgStore) : (∀ s, memory (f s) = memory s) → keeps memory (modify f : M unit).
Proof. intros H s. apply H. Qed.
Hint Resolve keeps_stm keeps_or_err : keeps.

Lemma keeps_one_row e f : keeps memory (one_row e f).
Proof. unfold one_row. solve_keeps. Qed.
Lemma keeps_update_vins v m txs : keeps memory (update_vins v m txs).
Proof. induction txs as [|[[h tree] t] txs IH]; cbn [update_vins]; [apply kept_ret|]. solve_keeps. Qed.
Lemma keeps_address_rows f v ids : ∀ addrs, keeps memory (address_rows f v ids addrs).
Proof.
  induction ids as [|id ids IH]; intros addrs; cbn [address_rows]; [apply kept_ret|].
  apply kept_bind; [apply keeps_stm|]. intros [a| |]; [apply IH..|apply kept_fail].
Qed.
Lemma keeps_clear addrs : keeps memory (clear_cache addrs).
Proof. by apply keeps_modify. Qed.
Hint Resolve keeps_one_row keeps_update_vins keeps_address_rows keeps_clear : keeps.

Lemma keeps_invalidate id h m : keeps memory (invalidate id h m).
Proof. unfold invalidate, updateLastBlockValid, updateLastVins, updateLastAddressesValid, qry. solve_keeps. Qed.
Hint Resolve keeps_invalidate : keeps.
Lemma keeps_updateLastBlock b m : keeps memory (updateLastBlock b m).
Proof. unfold updateLastBlock, updateBlockNext, qry. solve_keeps. Qed.
Lemma keeps_try_last b m : keeps memory (try_last b m).
Proof.
  intros s. unfold try_last. pose proof (keeps_updateLastBlock b m s) as H. destruct (updateLastBlock b m s) as [[u|e| |] s']; try done.
Qed.
Lemma keeps_upsert_miners addrs h : keeps memory (upsert_miners addrs h).
Proof. induction addrs as [|a addrs IH]; cbn [upsert_miners]; [apply kept_ret|]. solve_keeps. Qed.
Lemma keeps_store_tree b v tree iv im u f : keeps memory (store_tree b v tree iv im u f).
Proof. intros s. unfold store_tree. by destruct (storeBlockTxnTree _ _ _ _ _ _ _ _ _) as [[r|e| |] c]. Qed.
Hint Resolve keeps_try_last keeps_upsert_miners keeps_store_tree : keeps.
Lemma keeps_store_trees rf b v iv im u f : keeps memory (store_trees rf b v iv im u f).
Proof. unfold store_trees. solve_keeps. Qed.
Lemma keeps_pool_info {T} (f : PgStore → T) b : keeps f (pool_info b).
Proof. unfold pool_info, winners_of. solve_keeps. Qed.
Lemma keeps_validators_of {T} (f : PgStore → T) b : keeps f (validators_of b).
Proof. unfold validators_of, winners_of. solve_keeps. Qed.
Hint Resolve keeps_store_trees keeps_pool_info keeps_validators_of : keeps.

(** ** Outcomes

    What holds of the result, an error included, and of the state. *)
Definition outcome {A} (m : M A) (s : PgStore) (Q : res BlockErr A → PgStore → Prop) : Prop := Q (m s).1 (m s).2.
Definition continue {A B} (k : A → M B) (Q : res BlockErr B → PgStore → Prop) (r : res BlockErr A) (s : PgStore) : Prop :=
  match r with Ok a => outcome (k a) s Q | Err e => Q (Err e) s | Panic => Q Panic s | NoFuel => Q NoFuel s end.

Lemma outcome_bind {A B} (m : M A) (k : A → M B) s Q : outcome m s (continue k Q) → outcome (m ≫= k) s Q.
Proof. unfold outcome, continue, mbind, goM_bind. by destruct (m s) as [[a|e| |] s']. Qed.
Lemma bind_stm {A B} (f : DB → A * DB) (k : A → M B) s :
  (stm f ≫= k) s = let '(r, d) := f (pg_db (chain s)) in k r (set_chain (set_db d (chain s)) s).
Proof. unfold stm, mbind, goM_bind. by destruct (f (pg_db (chain s))). Qed.
Lemma bind_ret {A B} (x : A) (k : A → M B) s : (mret x ≫= k) s = k x s.
Proof. done. Qed.
Lemma outcome_modify {B} f (k : unit → M B) s Q : outcome (k tt) (f s) Q → outcome (modify f ≫= k) s Q.
Proof. done. Qed.
Lemma outcome_gets {A B} (f : PgStore → A) (k : A → M B) s Q : outcome (k (f s)) s Q → outcome (gets f ≫= k) s Q.
Proof. done. Qed.
(** A call that leaves the memory alone. *)
Lemma outcome_keeps {A B} (m : M A) (k : A → M B) s (Q : res BlockErr B → PgStore → Prop) : keeps memory m →
  (∀ (r : res BlockErr B) s', memory s' = memory s → (∀ b, r ≠ Ok b) → Q r s') →
  (∀ a s', m s = (Ok a, s') → memory s' = memory s → outcome (k a) s' Q) → outcome (m ≫= k) s Q.
Proof.
  intros Hm He Hk. apply outcome_bind. unfold outcome, continue. specialize (Hm s).
  destruct (m s) as [[a|e| |] s'] eqn:E; cbn in *; [by apply Hk|by apply He..].
Qed.

Definition block_ids (b : MsgBlock) : Hash * Z := (mb_Hash b, mb_Height b).
(** The errors after the best block in memory has changed. *)
Definition late (e : BlockErr) : Prop := e = EStats ∨ e = EBestBlock.

(** The end of StoreBlock for a block of the main chain. *)
Definition committed (b : MsgBlock) (reg stk : storeTxnsResult) (s s' : PgStore) : Prop :=
  bestBlock s' = block_ids b ∧ mixSetDiffs s' = <[mb_Height b := i64 (mixSetDelta reg + mixSetDelta stk)]> (mixSetDiffs s) ∧
  (∃ id, lastBlock s' = <[mb_Hash b := id]> (lastBlock s)) ∧
  (InBatchSync s = false → ∀ x, x ∈ r_addresses reg ∪ r_addresses stk → a (addressCache s') !! x = None).

Lemma clear_cache_gone addrs s : ∀ x, x ∈ addrs → a (addressCache (clear_cache addrs s).2) !! x = None.
Proof.
  intros x Hx. cbn. assert (∀ l n ac, (x ∈ l ∨ a ac !! x = None) → a (Clear_loop l n ac).2 !! x = None) as H.
  { induction l as [|y l IH]; intros n ac Hl; cbn [Clear_loop]; [by destruct Hl as [?%elem_of_nil|]|].
    rewrite bind_gets. destruct (AddressCache.a ac !! y) as [it|] eqn:E; [rewrite bind_modify|]; apply IH; cbn.
    - destruct (decide (x = y)) as [->|]; [right; apply lookup_delete_eq|]. rewrite lookup_delete_ne by done. set_solver.
    - destruct (decide (x = y)) as [->|]; [by right|]. set_solver. }
  apply H. left. by apply elem_of_elements.
Qed.

Definition main_outcome (trees : list Hash → M (storeTxnsResult * storeTxnsResult)) (b : MsgBlock) (s : PgStore)
    (r : res BlockErr (Z * Z * Z)) (s' : PgStore) : Prop :=
  match r with
  | Ok n => ∃ v reg stk, (validators_of b s).1 = Ok v ∧ (trees v s).1 = Ok (reg, stk) ∧
      n = (numVins stk + numVins reg, numVouts stk + numVouts reg, numAddresses stk + numAddresses reg) ∧ committed b reg stk s s'
  | Err e => bestBlock s' = bestBlock s ∨ late e ∧ bestBlock s' = block_ids b
  | _ => True
  end.

(** A failure while the best block is still the old one. *)
Lemma early_failure trees b s r s' : bestBlock s' = bestBlock s → (∀ n, r ≠ Ok n) → main_outcome trees b s r s'.
Proof. intros Hb Hr. destruct r as [n|e| |]; [by destruct (Hr n)|by left|done..]. Qed.

Lemma advance_best_memory b id tpi s : let '(r, s') := advance_best b id tpi s in
  memory s' = memory (set_bestBlock (mb_Hash b) (mb_Height b) s) ∧ match r with Err e => late e | Ok _ => True | _ => False end.
Proof.
  unfold advance_best. rewrite bind_modify. set (s0 := set_bestBlock _ _ s). rewrite bind_stm.
  destruct (UpsertStats id tpi _) as [[[]|] d]; [|by split; [|left]]. unfold one_row. cbn [or_err]. rewrite bind_ret, bind_stm.
  destruct (SetMetaDBBestBlock _ _ _) as [[n|] d2]; [|by split; [|right]]. cbn [or_err]. rewrite bind_ret.
  destruct (n =? 1); [done|by split; [|right]].
Qed.

(** The end, from the best block on. *)
Lemma outcome_advance {B} b id tpi (k : unit → M B) s (Q : res BlockErr B → PgStore → Prop) :
  (∀ r s', (∀ n, r ≠ Ok n) → (∀ e, r = Err e → late e) → memory s' = memory (set_bestBlock (mb_Hash b) (mb_Height b) s) → Q r s') →
  (∀ s', memory s' = memory (set_bestBlock (mb_Hash b) (mb_Height b) s) → outcome (k tt) s' Q) →
  outcome (advance_best b id tpi ≫= k) s Q.
Proof.
  intros He Hk. apply outcome_bind. pose proof (advance_best_memory b id tpi s) as H. unfold outcome.
  destruct (advance_best b id tpi s) as [[[]|e| |] s']; destruct H as [Hm Hr]; cbn in *; [by apply Hk|apply He; [done|by intros ? [= <-]|done]|done..].
Qed.

Lemma StoreBlock_main rf b iv u f cw s : outcome (StoreBlock rf b iv true u f cw) s
  (main_outcome (λ v, store_trees rf b v iv true u f) b s).
Proof.
  assert (∀ (s1 s2 : PgStore) r, bestBlock s1 = bestBlock s → memory s2 = memory s1 → (∀ n, r ≠ Ok n) →
    main_outcome (λ v, store_trees rf b v iv true u f) b s r s2) as Hearly.
  { intros s1 s2 r H1 (_ & _ & Hm & _)%memory_eq Hr. apply early_failure; [congruence|done]. }
  unfold StoreBlock. apply outcome_keeps; [solve_keeps|intros; by eapply Hearly|]. intros info s1 Ei _.
  apply bind_inv_Ok in Ei as ([tpi w] & s0 & Ep & [= <- <-]).
  assert (s0 = s) as ->; [pose proof (keeps_pool_info id b s) as H; by rewrite Ep in H|].
  apply outcome_keeps; [solve_keeps|intros; apply (Hearly s); [done|congruence|done]|]. intros v s2 Ev _.
  assert (s2 = s) as ->; [pose proof (keeps_validators_of id b s) as H; by rewrite Ev in H|].
  apply outcome_keeps; [solve_keeps|intros; apply (Hearly s); [done|congruence|done]|]. intros [reg stk] s3 Et Hm3.
  apply outcome_modify, outcome_gets. set (s4 := set_mixSetDiffs _ _ s3).
  assert (memory s4 = memory (set_mixSetDiffs (mb_Height b) (i64 (mixSetDelta reg + mixSetDelta stk)) s)) as Hm4.
  { pose proof Hm3 as (E1 & E2 & E3 & E4)%memory_eq.
    assert (dupChecks s3 = dupChecks s) as E5 by (unfold memory in *; congruence). subst s4. unfold memory. cbn. by rewrite E1, E2, E3, E4, E5. }
  clearbody s4. pose proof Hm4 as (Hl4 & Hd4 & Hb4 & Hs4)%memory_eq. cbn in Hl4, Hd4, Hb4, Hs4. clear Hm3.
  apply outcome_keeps; [solve_keeps|intros; by apply (Hearly s4)|]. intros ins s5 _ Hm5.
  apply outcome_keeps; [solve_keeps|intros; apply (Hearly s4); [done|congruence|done]|]. intros id s6 _ Hm6.
  assert (memory s6 = memory s4) as (El & Ed & Eb & Es)%memory_eq by congruence.
  apply outcome_modify. set (s7 := set_lastBlock _ id s6). assert (bestBlock s7 = bestBlock s) as Hb7 by (cbn; congruence).
  apply outcome_keeps; [solve_keeps|intros; by apply (Hearly s7)|]. intros _ s8 _ Hm8.
  apply outcome_keeps; [solve_keeps|intros; apply (Hearly s7); [done|congruence|done]|]. intros pn s9 _ Hm9.
  apply outcome_keeps; [solve_keeps|intros; apply (Hearly s7); [done|congruence|done]|]. intros _ s10 _ Hm10.
  apply outcome_keeps; [solve_keeps|intros; apply (Hearly s7); [done|congruence|done]|]. intros left s11 _ Hm11.
  assert (memory s11 = memory s7) as (El' & Ed' & Eb' & Es')%memory_eq by congruence. cbn in El', Ed', Es'.
  apply outcome_advance.
  { intros r s' Hr Hlate (_ & _ & Hm & _)%memory_eq. destruct r as [n|e| |]; [by destruct (Hr n)| |done..].
    right. split; [by apply Hlate|]. by rewrite Hm. }
  intros s12 (El2 & Ed2 & Eb2 & Es2)%memory_eq. cbn in El2, Ed2, Eb2, Es2.
  apply outcome_gets. apply outcome_bind.
  assert (∀ s13, memory s13 = memory s12 → (InBatchSync s = false → ∀ x, x ∈ r_addresses reg ∪ r_addresses stk → a (addressCache s13) !! x = None) →
    committed b reg stk s s13) as Hc.
  { intros s13 (E1 & E2 & E3 & E4)%memory_eq Ha. split_and!; [by rewrite E3, Eb2|congruence|exists id; congruence|done]. }
  destruct (InBatchSync s12) eqn:Ebatch.
  - unfold outcome, continue. exists v, reg, stk. rewrite Ev, Et. split; [done|]. split; [done|]. split; [done|]. apply Hc; [done|]. congruence.
  - unfold outcome, continue. exists v, reg, stk. rewrite Ev, Et. split; [done|]. split; [done|]. split; [done|]. apply Hc; [by apply keeps_clear|]. intros _ x Hx. by apply clear_cache_gone.
Qed.

(** C4: A block of the main chain that is stored becomes the best block; the
    change of the mix set at its height is what its two trees changed it by,
    its row is remembered, and, unless the chain is being synchronized, the
    addresses of both trees are dropped from the address cache. *)
Theorem StoreBlock_commits rf b iv u f cw s n s' : StoreBlock rf b iv true u f cw s = (Ok n, s') →
  ∃ v reg stk, (validators_of b s).1 = Ok v ∧ (store_trees rf b v iv true u f s).1 = Ok (reg, stk) ∧
    bestBlock s' = (mb_Hash b, mb_Height b) ∧
    mixSetDiffs s' = <[mb_Height b := i64 (mixSetDelta reg + mixSetDelta stk)]> (mixSetDiffs s) ∧
    (∃ id, lastBlock s' = <[mb_Hash b := id]> (lastBlock s)) ∧
    (InBatchSync s = false → ∀ x, x ∈ r_addresses reg ∪ r_addresses stk → a (addressCache s') !! x = None).
Proof.
  intros E. pose proof (StoreBlock_main rf b iv u f cw s) as H. unfold outcome in H. rewrite E in H.
  destruct H as (v & reg & stk & Hv & Ht & _ & Hc). by exists v, reg, stk.
Qed.

(** C39: When storing a block of the main chain fails, the best block in memory is
    the one from before, unless it is the block statistics or the best block
    of the database that could not be written: then the memory is already
    ahead of the database. *)
Theorem StoreBlock_failure rf b iv u f cw s e s' : StoreBlock rf b iv true u f cw s = (Err e, s') →
  bestBlock s' = bestBlock s ∨ (e = EStats ∨ e = EBestBlock) ∧ bestBlock s' = (mb_Hash b, mb_Height b).
Proof. intros E. pose proof (StoreBlock_main rf b iv u f cw s) as H. unfold outcome in H. by rewrite E in H. Qed.

(** An approving block only links its parent: nothing makes a parent valid again
    that an orphaned block disapproved. *)
Lemma approved_parent b s id : Z.testbit (mb_VoteBits b) 0 = true → mb_PrevBlock b ≠ zeroHash → lastBlock s !! mb_PrevBlock b = Some id →
  (updateLastBlock b true s).2 = set_chain (set_db (UpdateBlockNext id (mb_Hash b) (pg_db (chain s))).2 (chain s)) s.
Proof.
  intros Hv Hp Hid. unfold updateLastBlock. rewrite decide_False by done. rewrite bind_ret, bind_gets, Hid, bind_ret, Hv.
  unfold updateBlockNext, one_row. unfold mbind at 1, goM_bind at 1. rewrite bind_stm.
  destruct (UpdateBlockNext _ _ _) as [[n|] d]; [|done]. cbn [or_err]. rewrite bind_ret. by destruct (n =? 1).
Qed.
End StoreBlock.

(** ** Concrete instances *)
Module Witness.
#[local] Existing Instances Sample.db Sample.node Sample.fl Sample.lib Sample.RH.
#[local] Instance RZ : RangeOrder Z Z := Sample.RZ.

(** Every statement succeeds, but the last when [d] is negative. *)
#[local] Instance ops : BlockOps :=
  {| InsertBlock := λ _ _ _ _ _ _ _ _ d, (Some 77, d + 1); UpsertMinerRow := λ _ _ d, (Some tt, d + 1);
     InsertBlockPrevNext := λ _ _ _ d, (Row tt, d + 1); SelectBlockFlags := λ _ _, Some (true, true);
     SelectBlockChainRowIDByHash := λ _ _, Row 76; UpdateBlockNext := λ _ _ d, (Some 1, d + 1);
     UpdateLastBlockValid := λ _ _ d, (Some 1, d + 1); ClearRegularSpends := λ _ d, (Some 1, d + 1);
     SelectTxsByBlockHash := λ _ _, Some []; SetIsValidIsMainchainByTxHash := λ _ _ _ _ d, (Some 1, d + 1);
     UpdateRegularTxnsValidByBlock := λ _ _ d, (Some [], d + 1); SelectRegularTxnsVinsVoutsByBlock := λ _ _, Some [];
     SetAddressMainchain := λ _ _ _ d, (ErrNoRows, d); UpsertStats := λ _ _ d, (Some tt, d + 1);
     SetMetaDBBestBlock := λ _ _ d, (if d <? 0 then None else Some 1, d + 1) |}.

(** The winners of the parent are the validators of the sample block. *)
Definition info (h : Hash) : option TicketPoolInfo :=
  if decide (h = [0; 1]) then Some (mkTPI 5 0 (f64_of_Z 0) (f64_of_Z 0) [])
  else Some (mkTPI 4 0 (f64_of_Z 0) (f64_of_Z 0) ["1"; "2"; "3"; "4"; "5"]%string).
Definition parse (s : string) : option Hash := match s with "1" => Some [1; 11] | "2" => Some [1; 12] | "3" => Some [1; 13]
  | "4" => Some [1; 14] | "5" => Some [1; 15] | _ => None end%string.
Definition store (d : Z) : PgStore := mkPgStore (set_db d Sample.start) ∅ ∅ ([0; 0], 4) (NewAddressCache 10 10 1000) false false.
Abbreviation run d := (StoreBlock info parse true Sample.block true true true true "" (store d)).

Lemma stored_ok : match (run 0).1 with Ok _ => true | _ => false end = true.
Proof. vm_compute. reflexivity. Qed.
Lemma StoreBlock_commits_witness : bestBlock (run 0).2 = ([0; 1], 5) ∧ is_Some (mixSetDiffs (run 0).2 !! 5).
Proof.
  pose proof stored_ok as Hok. destruct (run 0) as [[n|e| |] s'] eqn:E; try discriminate Hok.
  destruct (StoreBlock_commits info parse true Sample.block true true true "" (store 0) n s' E) as (v & reg & stk & _ & _ & Hb & Hm & _).
  cbn [snd]. split; [exact Hb|]. rewrite Hm. exists (i64 (mixSetDelta reg + mixSetDelta stk)). apply lookup_insert_eq.
Defined.

(** The best block of the database cannot be written. *)
Lemma run_fails : match (run (-1000)).1 with Err EBestBlock => true | _ => false end = true.
Proof. vm_compute. reflexivity. Qed.
Lemma StoreBlock_failure_witness : bestBlock (run (-1000)).2 = ([0; 0], 4) ∨ bestBlock (run (-1000)).2 = ([0; 1], 5).
Proof.
  pose proof run_fails as Hf. destruct (run (-1000)) as [[n|e| |] s'] eqn:E; try discriminate Hf.
  destruct (StoreBlock_failure info parse true Sample.block true true true "" (store (-1000)) e s' E) as [Hb|[_ Hb]]; [left; exact Hb|right; exact Hb].
Defined.
End Witness.
