(* ===== verification/ChainMonitor.v ===== *)
(** * The database follows a reorganization (db/dcrpg/chainmonitor.go)

    switchToSideChain takes the blocks of the old chain off the main chain
    (TipToSideChain, of Reorg) and stores the blocks of the new chain
    (StoreBlock); ReorgHandler, which the notifier calls, checks where that
    ends.  The monitor is a client of two interfaces, of a store of blocks and
    of a switch of the tip, with what each promises about the best block;
    Reorg and StoreBlock implement them.

    The theorems: a reorganization that is reported as done has ended at the
    new head, and when the parts succeed it is done. *)
From stdpp Require Import gmap strings.
From S2P Require Import Prelude Notifier StakeTx SSFee PoolInfoCache AddressRows AddressCache BlockTxns StoreTree.
From S2P Require StoreBlock Reorg.
From S2P Require Import TicketSpends GoPost.
Open Scope Z_scope.

(** ** Interfaces

    The hash and height of the best block. *)
Class Tip (S : Type) := best : S → Hash * Z.

Class BlockStore (S : Type) `{Tip S} := {
  StoreError : Type;
  Store : MsgBlock → string → goM S StoreError unit;
  Store_best b w s s' : Store b w s = (Ok tt, s') → best s' = (mb_Hash b, mb_Height b)
}.

(** [leads s root h]: the switch of the tip to [root], of height [h], can be done. *)
Class TipSwitch (S : Type) `{Tip S} := {
  Switch : Hash → goM S Empty_set (Hash * Z);
  leads : S → Hash → Z → Prop;
  Switch_best s root h : leads s root h → ∃ n s', Switch root s = (Ok (root, n), s') ∧ (best s').2 = h
}.

(** ** The implementations *)
#[global] Instance PgState_tip : Tip Reorg.PgState := λ s, (Reorg.best_hash s, Reorg.best_height s).

Section Moved.
Context {RT : RangeOrder Z Reorg.TxRow} {RA : RangeOrder Z Reorg.AddrRow}.

Lemma TipToSideChain_moves fuel root hs s : Reorg.live s → Reorg.branch (Reorg.tables s) (Reorg.best_hash s) hs root →
  hs ≠ [] → (length hs <= fuel)%nat →
  ∃ s', Reorg.TipToSideChain fuel root s = (Ok (root, zlen hs), s') ∧
    Reorg.best_height s' = default 0 (Reorg.br_height <$> Reorg.t_blocks (Reorg.tables s) !! root).
Proof.
  intros Hl Hb Hne Hf.
  assert (post False (Reorg.TipToSideChain fuel root) s (λ r s', r = (root, zlen hs) ∧
    Reorg.best_height s' = default 0 (Reorg.br_height <$> Reorg.t_blocks (Reorg.tables s) !! root))) as Hp.
  { unfold Reorg.TipToSideChain. apply post_bind. unfold post at 1, gets. apply post_bind. eapply post_mono; [by apply (Reorg.loop_post root hs)|].
    intros [[tip n] A] s1 ([= -> ->] & _ & _ & _ & _ & _ & Hht). apply post_bind. eapply post_mono; [apply Reorg.clear_post|].
    intros _ s2 (_ & _ & Hht2 & _). apply post_ret. split; [done|]. rewrite Hht2, Hht. by destruct hs. }
  unfold post in Hp. destruct (Reorg.TipToSideChain fuel root s) as [[r|e| |] s'] eqn:E; try done. destruct Hp as [-> Hht]. by exists s'.
Qed.

(** The blocks of the table bound the walk. *)
Program Definition pg_switch : TipSwitch Reorg.PgState :=
  {| Switch := λ root s, Reorg.TipToSideChain (size (Reorg.t_blocks (Reorg.tables s))) root s;
     leads := λ s root h, Reorg.live s ∧ ∃ hs, hs ≠ [] ∧ (length hs <= size (Reorg.t_blocks (Reorg.tables s)))%nat ∧
       Reorg.branch (Reorg.tables s) (Reorg.best_hash s) hs root ∧
       Reorg.br_height <$> Reorg.t_blocks (Reorg.tables s) !! root = Some h |}.
Next Obligation.
  intros s root h (Hl & hs & Hne & Hlen & Hb & Hh). destruct (TipToSideChain_moves _ root hs s Hl Hb Hne Hlen) as (s' & E & Hht).
  exists (zlen hs), s'. split; [done|]. cbn. by rewrite Hht, Hh.
Qed.
End Moved.

Section Stored.
Context {bdb : BlockDB} {bops : StoreBlock.BlockOps} {node : TicketNode} {fl : SSFeeLib} {lib : BlockLib}.
Context {RH : RangeOrder Hash Z} {RM RS RV : RangeOrder Z Z}.
Context (PoolInfo : Hash → option TicketPoolInfo) (NewHashFromStr : string → option Hash).

#[local] Instance PgStore_tip : Tip StoreBlock.PgStore := StoreBlock.bestBlock.
(** Blocks are stored as valid, on the main chain, over existing records. *)
Definition store_main (b : MsgBlock) (chainWork : string) : goM StoreBlock.PgStore StoreBlock.BlockErr unit :=
  StoreBlock.StoreBlock (RM:=RM) (RS:=RS) (RV:=RV) PoolInfo NewHashFromStr true b true true true true chainWork ≫= λ _, mret tt.
Program Definition pg_store : BlockStore StoreBlock.PgStore := {| Store := store_main |}.
Next Obligation.
  intros b w s s' (n & s1 & E & [= <-])%bind_inv_Ok.
  pose proof (StoreBlock.StoreBlock_main (RM:=RM) (RS:=RS) (RV:=RV) PoolInfo NewHashFromStr true b true true true w s) as H.
  unfold StoreBlock.outcome in H. rewrite E in H. by destruct H as (v & reg & stk & _ & _ & _ & Hb & _).
Qed.
End Stored.

(** ** The monitor *)
Inductive MonErr (E : Type) :=
| ENoSideChain | EFlag | EGetBlock (h : Hash) | EChainWork (h : Hash) | EConnect (h : Hash) (e : E)
| EWrongHeight (h : Z) | EWrongHash (h : Hash).
Arguments ENoSideChain {E}.
Arguments EFlag {E}.
Arguments EGetBlock {E} h.
Arguments EChainWork {E} h.
Arguments EConnect {E} h e.
Arguments EWrongHeight {E} h.
Arguments EWrongHash {E} h.

Section Monitor.
Context {S : Type} `{!Tip S} {store : BlockStore S} {switch : TipSwitch S}.
(** The cache of the stake database, the node, and [GetChainWork]. *)
Context (BlockCached : Z → option MsgBlock) (GetBlock : Hash → option MsgBlock) (GetChainWork : Hash → option string).

Abbreviation M := (goM S (MonErr StoreError)).
Definition lift_switch {A} (m : goM S Empty_set A) : M A := λ s,
  match m s with (Ok a, s) => (Ok a, s) | (Err e, s) => match e with end | (Panic, s) => (Panic, s) | (NoFuel, s) => (NoFuel, s) end.
Definition lift_store (h : Hash) (m : goM S StoreError unit) : M unit := λ s,
  match m s with (Ok a, s) => (Ok a, s) | (Err e, s) => (Err (EConnect h e), s) | (Panic, s) => (Panic, s) | (NoFuel, s) => (NoFuel, s) end.

(** The block of the cache at the height, if it has the hash, else the node's. *)
Definition fetch (h : Hash) (height : Z) : option MsgBlock :=
  match BlockCached height with
  | Some b => if decide (mb_Hash b = h) then Some b else GetBlock h
  | None => GetBlock h
  end.

(** Stores the new chain; the height (int32) and hash of the last block. *)
Fixpoint connect (newChain : list Hash) (currentHeight : Z) (last : Z * Hash) : M (Z * Hash) :=
  match newChain with
  | [] => mret last
  | h :: newChain =>
    match fetch h currentHeight with
    | None => fail (EGetBlock h)
    | Some b =>
      match GetChainWork (mb_Hash b) with
      | None => fail (EChainWork (mb_Hash b))
      | Some w => lift_store h (Store b w) ≫= λ _, connect newChain (currentHeight + 1) (i32 (mb_Height b), mb_Hash b)
      end
    end
  end.

Definition switchToSideChain (reorgData : option ReorgData) : M (Z * Hash) :=
  match reorgData with
  | None => fail ENoSideChain
  | Some d =>
    if decide (rd_NewChain d = []) then fail ENoSideChain else
    let commonAncestorHeight := rd_NewChainHeight d - zlen (rd_NewChain d) in
    let mainRoot := rd_CommonAncestor d in
    '(newMainRoot, _) ← lift_switch (Switch mainRoot);
    if decide (mainRoot = newMainRoot) then
      mainTip ← gets (λ s, (best s).2);
      if negb (mainTip =? commonAncestorHeight) then panic else
      '(endHeight, endHash) ← connect (rd_NewChain d) (commonAncestorHeight + 1) (0, zeroHash);
      mainTip ← gets (λ s, (best s).2);
      if negb (mainTip =? endHeight) then panic else mret (endHeight, endHash)
    else fail EFlag
  end.

Definition ReorgHandler (reorg : ReorgData) : M unit :=
  '(tipHeight, tipHash) ← switchToSideChain (Some reorg);
  if negb (tipHeight =? rd_NewChainHeight reorg) then fail (EWrongHeight tipHeight)
  else if decide (tipHash = rd_NewChainHead reorg) then mret tt else fail (EWrongHash tipHash).

(** ** Theorems *)
Lemma lift_store_Ok h m s a s' : lift_store h m s = (Ok a, s') → m s = (Ok a, s').
Proof. unfold lift_store. destruct (m s) as [[x|e| |] s1]; [by intros [= -> ->]|done..]. Qed.

Lemma connect_best newChain : ∀ height last s r s', connect newChain height last s = (Ok r, s') → newChain ≠ [] → (best s').1 = r.2.
Proof.
  induction newChain as [|h newChain IH]; intros height last s r s' E Hne; [done|]. cbn [connect] in E.
  destruct (fetch h height) as [b|]; [|done]. destruct (GetChainWork (mb_Hash b)) as [w|]; [|done].
  apply bind_inv_Ok in E as ([] & s1 & Es%lift_store_Ok & E). destruct newChain as [|h' newChain].
  - injection E as <- <-. by rewrite (Store_best _ _ _ _ Es).
  - by apply IH in E.
Qed.

(** C5: A reorganization that the database's handler reports as done has ended
    with the new head, at its height, as the best block, whatever happened on
    the way. *)
Theorem ReorgHandler_done reorg s s' : ReorgHandler reorg s = (Ok tt, s') →
  best s' = (rd_NewChainHead reorg, rd_NewChainHeight reorg).
Proof.
  unfold ReorgHandler, switchToSideChain. intros ([h hash] & s1 & E & E2)%bind_inv_Ok.
  destruct (decide (rd_NewChain reorg = [])) as [|Hne]; [done|]. apply bind_inv_Ok in E as ([root n] & s2 & _ & E).
  destruct (decide (rd_CommonAncestor reorg = root)); [|done]. apply bind_inv_Ok in E as (t & s3 & [= <- <-] & E).
  destruct (negb _); [done|]. apply bind_inv_Ok in E as ([eh ehash] & s4 & Ec & E). apply bind_inv_Ok in E as (t2 & s5 & [= <- <-] & E).
  destruct (Z.eqb_spec (best s4).2 eh) as [He|]; [|done]. injection E as <- <- <-.
  destruct (Z.eqb_spec eh (rd_NewChainHeight reorg)) as [Hh|]; [|done]. destruct (decide (ehash = rd_NewChainHead reorg)) as [Ha|]; [|done].
  injection E2 as <-. apply connect_best in Ec; [|done]. cbn in Ec. destruct (best s4); cbn in *; congruence.
Qed.

(** The blocks [l] can be fetched, from the height on, and stored. *)
Fixpoint can_store (l : list Hash) (height : Z) (s : S) : Prop :=
  match l with
  | [] => True
  | h :: l => ∃ b w s', fetch h height = Some b ∧ mb_Hash b = h ∧ mb_Height b = height ∧ GetChainWork h = Some w ∧
      Store b w s = (Ok tt, s') ∧ can_store l (height + 1) s'
  end.

Lemma connect_all l : ∀ height acc s, can_store l height s → 0 <= height → height + zlen l < 2 ^ 31 → l ≠ [] →
  ∃ s' h, connect l height acc s = (Ok (height + zlen l - 1, h), s') ∧ last l = Some h ∧ (best s').2 = height + zlen l - 1.
Proof.
  induction l as [|h l IH]; intros height acc s; [done|]. intros (b & w & s1 & Hf & Hh & Hht & Hw & Hs & Hl) H0 H31 _.
  cbn [connect]. rewrite Hf, Hh, Hw. unfold mbind, goM_bind, lift_store. rewrite Hs.
  assert (i32 (mb_Height b) = height) as -> by (rewrite Hht; apply wrap_s_small; unfold zlen in *; cbn in *; lia).
  destruct l as [|h' l].
  - exists s1, h. rewrite (Store_best _ _ _ _ Hs). change (zlen [h]) with 1. replace (height + 1 - 1) with height by lia. by rewrite Hh.
  - destruct (IH (height + 1) (height, h) s1 Hl) as (s' & h2 & E & Hlast & Hb); [lia|rewrite (zlen_cons h) in H31; lia|done|].
    exists s', h2. rewrite (zlen_cons h). replace (height + (zlen (h' :: l) + 1) - 1) with (height + 1 + zlen (h' :: l) - 1) by lia. by split_and!.
Qed.

(** C40: A reorganization is done when the tip can be switched to the common
    ancestor, and the blocks of the new chain can be fetched and stored after
    that. *)
Theorem ReorgHandler_succeeds reorg s : let h := rd_NewChainHeight reorg - zlen (rd_NewChain reorg) in
  leads s (rd_CommonAncestor reorg) h → last (rd_NewChain reorg) = Some (rd_NewChainHead reorg) →
  0 <= h → rd_NewChainHeight reorg < 2 ^ 31 - 1 →
  (∀ n s1, Switch (rd_CommonAncestor reorg) s = (Ok (rd_CommonAncestor reorg, n), s1) → can_store (rd_NewChain reorg) (h + 1) s1) →
  ∃ s', ReorgHandler reorg s = (Ok tt, s').
Proof.
  intros h Hl Hlast H0 H31 Hst. destruct (Switch_best s _ _ Hl) as (n & s1 & E & Hb). specialize (Hst n s1 E).
  assert (rd_NewChain reorg ≠ []) as Hne by by intros E0; rewrite E0 in Hlast.
  destruct (connect_all _ (h + 1) (0, zeroHash) s1 Hst) as (s' & hash & Ec & Hla & Hb'); [lia|lia|done|].
  exists s'. unfold ReorgHandler, switchToSideChain. rewrite decide_False by done. unfold mbind, goM_bind, lift_switch, gets. rewrite E.
  rewrite decide_True by done. rewrite Hb. fold h. rewrite Z.eqb_refl. cbn [negb]. rewrite Ec, Hb', Z.eqb_refl. cbn [negb mret goM_ret].
  unfold mret, goM_ret. replace (h + 1 + zlen (rd_NewChain reorg) - 1) with (rd_NewChainHeight reorg) by (subst h; lia).
  rewrite Z.eqb_refl. cbn [negb]. rewrite decide_True by congruence. done.
Qed.

(** A height that is not the one of the common ancestor is a panic. *)
Lemma wrong_height_panics reorg s n s1 : rd_NewChain reorg ≠ [] → Switch (rd_CommonAncestor reorg) s = (Ok (rd_CommonAncestor reorg, n), s1) →
  (best s1).2 ≠ rd_NewChainHeight reorg - zlen (rd_NewChain reorg) → (ReorgHandler reorg s).1 = Panic.
Proof.
  intros Hne E Hb. unfold ReorgHandler, switchToSideChain. rewrite decide_False by done. unfold mbind, goM_bind, lift_switch, gets. rewrite E.
  rewrite decide_True by done. by apply Z.eqb_neq in Hb as ->.
Qed.
End Monitor.

(** ** Concrete instances *)
Module Witness.
#[local] Instance RT : RangeOrder Z Reorg.TxRow := canonical_range.
#[local] Instance RA : RangeOrder Z Reorg.AddrRow := canonical_range.
#[local] Existing Instance pg_switch.
(** A store that only moves the best block. *)
#[local] Program Instance tip_store : BlockStore Reorg.PgState :=
  {| StoreError := unit; Store := λ b _, modify (Reorg.set_best (mb_Hash b) (mb_Height b)) |}.
Next Obligation. by intros b w s s' [= <-]. Qed.

(** Blocks 2 and 3 of the sample are replaced by 7 and 8. *)
Definition cached (_ : Z) : option MsgBlock := None.
Definition block (h : Hash) (height : Z) : MsgBlock := mkMsgBlock h height zeroHash (mkTime 0 0 true) 0 1 [] [].
Definition node_block (h : Hash) : option MsgBlock :=
  if decide (h = [7]) then Some (block [7] 2) else if decide (h = [8]) then Some (block [8] 3) else None.
Definition work (h : Hash) : option string := Some "00"%string.
Definition reorg : ReorgData := mkReorg [1] [[7]; [8]] [8] 3 [[2]; [3]] [3] 3.
Definition before : Reorg.PgState := Reorg.Witness.start (λ _, true).

Lemma before_leads : leads before [1] 1.
Proof.
  split; [done|]. exists [[3]; [2]]. split; [done|]. split; [vm_compute; lia|]. split; [|reflexivity].
  split; [done|]. split; [done|]. exists (Reorg.mkBlockRow 3 [2] true). split; [reflexivity|]. split; [done|]. split; [done|].
  exists (Reorg.mkBlockRow 2 [1] true). by split.
Qed.

Lemma ReorgHandler_succeeds_witness : ∃ s', ReorgHandler cached node_block work reorg before = (Ok tt, s').
Proof.
  apply (ReorgHandler_succeeds cached node_block work reorg before); [exact before_leads|reflexivity|vm_compute; done|vm_compute; reflexivity|].
  intros n s1 _. exists (block [7] 2), "00"%string, (Reorg.set_best [7] 2 s1). do 5 (split; [reflexivity|]).
  exists (block [8] 3), "00"%string, (Reorg.set_best [8] 3 (Reorg.set_best [7] 2 s1)). do 5 (split; [reflexivity|]). exact I.
Defined.

Lemma ReorgHandler_done_witness : ∃ s', ReorgHandler cached node_block work reorg before = (Ok tt, s') ∧ best s' = ([8], 3).
Proof.
  destruct (ReorgHandler cached node_block work reorg before) as [[[]|e| |] s'] eqn:E; [|by vm_compute in E..].
  exists s'. split; [reflexivity|]. exact (ReorgHandler_done cached node_block work reorg before s' E).
Defined.

(** The query for the height of the common ancestor, the 26th statement, fails:
    the best height becomes 0, and the handler panics. *)
Lemma lost_height_panics : (ReorgHandler cached node_block work reorg (Reorg.Witness.start (λ n, negb (n =? 25)%nat))).1 = Panic.
Proof. vm_compute. reflexivity. Qed.
End Witness.
