(* ===== verification/AnonymitySet.v ===== *)
(** * The anonymity set (db/dcrpg/pgblockchain.go, db/dcrpg/queries.go)

    The series of the value of mixed outputs that are unspent at each height.
    It is extended in two ways: from the changes that StoreBlock left in
    mixSetDiffs, when those of all missing heights are there, or else from the
    mixed outputs of the database.  The theorem is that both give the same
    series, and that it is what it is said to be. *)
From stdpp Require Import gmap.
From S2P Require Import Prelude.
Open Scope Z_scope.

(** ** From the cached changes *)
Inductive AnonErr := EDeltaNotFound (h : Z).

(** Whether all heights from [h] to the target are cached; the heights are
    uint32. *)
Fixpoint cached_loop (fuel : nat) (diffs : gmap Z Z) (h target : Z) : res AnonErr bool :=
  match fuel with
  | O => NoFuel
  | S fuel =>
    if target <? h then Ok true else
    match diffs !! h with None => Ok false | Some _ => cached_loop fuel diffs (u32 (h + 1)) target end
  end.

(** [anonymitySet]: [None] is that no query is needed, otherwise the height after
    which outputs are queried.  [heights] is the number of heights of the
    charts. *)
Definition anonymitySet (diffs : gmap Z Z) (set : list Z) (heights : Z) : res AnonErr (option Z) :=
  let next := u32 (zlen set) in
  match cached_loop (S (size diffs)) diffs next (u32 (heights - 1)) with
  | Ok true => Ok None
  | Ok false => Ok (Some (i32 next - 1))
  | Err e => Err e | Panic => Panic | NoFuel => NoFuel
  end.

Fixpoint append_loop (fuel : nat) (h target lastSet : Z) (nextSets : list Z) : goM (gmap Z Z) AnonErr (list Z) := λ diffs,
  match fuel with
  | O => (NoFuel, diffs)
  | S fuel =>
    if target <? h then (Ok nextSets, diffs) else
    match diffs !! h with
    | None => (Err (EDeltaNotFound h), diffs)
    | Some setDiff =>
      let lastSet := i64 (lastSet + setDiff) in
      append_loop fuel (u32 (h + 1)) target lastSet (nextSets ++ [u64 lastSet]) (delete h diffs)
    end
  end.

(** The method [appendAnonymitySet] without rows. *)
Definition appendCached (set : list Z) (heights : Z) : goM (gmap Z Z) AnonErr (list Z) := λ diffs,
  let next := u32 (zlen set) in
  match (if 0 <? next then i64 <$> slice_at set (next - 1) else Some 0) with
  | None => (Panic, diffs)
  | Some lastSet =>
    (nextSets ← append_loop (S (size diffs)) next (u32 (heights - 1)) lastSet [];
     mret (set ++ nextSets)) diffs
  end.

(** ** From the database *)
Record MixedVout := mkMixed { mx_value : Z; mx_fund : Z; mx_spend : option Z }.

(** [SelectMixedVouts]: of the mixed outputs of the main chain those that are not
    spent, or spent after [bestHeight]. *)
Definition SelectMixedVouts (outs : list MixedVout) (bestHeight : Z) : list MixedVout :=
  filter (λ o, (0 <? mx_value o) && match mx_spend o with Some s => bestHeight <? s | None => true end = true) outs.

Definition add_diff (h v : Z) (m : gmap Z Z) : gmap Z Z := <[h := i64 (default 0 (m !! h) + v)]> m.
Definition scan_row (next : Z) (m : gmap Z Z) (o : MixedVout) : gmap Z Z :=
  let m := match mx_spend o with Some s => add_diff s (- mx_value o) m | None => m end in
  if mx_fund o <? next then m else add_diff (mx_fund o) (mx_value o) m.

(** The loop over the heights from [h] on, [n] of them; [prev] is the last value
    of the series. *)
Fixpoint append_diffs (n : nat) (h : Z) (setDiffs : gmap Z Z) (set : list Z) : res AnonErr (list Z) :=
  match n with
  | O => Ok set
  | S n =>
    match (if 0 <? h then slice_at set (h - 1) else Some 0) with
    | None => Panic
    | Some prev => append_diffs n (h + 1) setDiffs (set ++ [u64 (i64 (default 0 (setDiffs !! h) + i64 prev))])
    end
  end.

(** The function [appendAnonymitySet]. *)
Definition appendRows (set : list Z) (heights : Z) (rows : list MixedVout) : res AnonErr (list Z) :=
  let next := zlen set in
  append_diffs (Z.to_nat (heights - next)) next (foldl (scan_row next) ∅ rows) set.

(** ** What the series is *)
(** The value of the outputs with a property. *)
Definition value_of (P : MixedVout → bool) (outs : list MixedVout) : Z := zsum (mx_value <$> filter (λ o, P o = true) outs).
(** Funded and not spent up to a height. *)
Definition unspent_at (h : Z) (o : MixedVout) : bool :=
  (mx_fund o <=? h) && match mx_spend o with Some s => h <? s | None => true end.
Definition anonymity (outs : list MixedVout) (h : Z) : Z := value_of (unspent_at h) outs.
(** The change at a height. *)
Definition change (outs : list MixedVout) (h : Z) : Z :=
  value_of (λ o, mx_fund o =? h) outs - value_of (λ o, bool_decide (mx_spend o = Some h)) outs.

(** Outputs have a positive value and are spent after they are funded (or in the
    same block), and all of them fit an int64. *)
Record outs_ok (outs : list MixedVout) : Prop := {
  oo_value : ∀ o, o ∈ outs → 0 < mx_value o;
  oo_order : ∀ o s, o ∈ outs → mx_spend o = Some s → mx_fund o <= s;
  oo_fund : ∀ o, o ∈ outs → 0 <= mx_fund o;
  oo_total : zsum (mx_value <$> outs) < 2 ^ 63
}.

Lemma value_of_cons P o outs : value_of P (o :: outs) = (if P o then mx_value o else 0) + value_of P outs.
Proof. unfold value_of. rewrite filter_cons. destruct (P o); [by rewrite decide_True|by rewrite decide_False]. Qed.

Lemma value_of_one P o : value_of P [o] = if P o then mx_value o else 0.
Proof. rewrite value_of_cons. cbn. lia. Qed.

Lemma anonymity_step outs h : (∀ o s, o ∈ outs → mx_spend o = Some s → mx_fund o <= s) →
  anonymity outs h = anonymity outs (h - 1) + change outs h.
Proof.
  unfold anonymity, change. induction outs as [|o outs IH]; intros Ho; [done|]. rewrite !value_of_cons, IH by (intros; eapply Ho; [by right|done]).
  assert ((if unspent_at h o then mx_value o else 0) = (if unspent_at (h - 1) o then mx_value o else 0) +
    ((if mx_fund o =? h then mx_value o else 0) - (if bool_decide (mx_spend o = Some h) then mx_value o else 0))); [|lia].
  unfold unspent_at. destruct (mx_spend o) as [s|] eqn:Es.
  - specialize (Ho o s ltac:(by left) Es). destruct (Z.eqb_spec (mx_fund o) h); case_bool_decide as Hs; simplify_eq;
      repeat match goal with |- context[?a <=? ?b] => destruct (Z.leb_spec a b) | |- context[?a <? ?b] => destruct (Z.ltb_spec a b) end;
      cbn [andb]; try lia; try (by injection Hs as ->; lia).
    all: try (exfalso; apply Hs; f_equal; lia).
  - rewrite bool_decide_eq_false_2 by done. rewrite !andb_true_r.
    destruct (Z.leb_spec (mx_fund o) h), (Z.leb_spec (mx_fund o) (h - 1)), (Z.eqb_spec (mx_fund o) h); lia.
Qed.

Lemma value_of_le P outs : (∀ o, o ∈ outs → 0 < mx_value o) → 0 <= value_of P outs <= zsum (mx_value <$> outs).
Proof.
  unfold value_of. induction outs as [|o outs IH]; intros Hv; [done|]. fold (value_of P (o :: outs)). rewrite value_of_cons.
  pose proof (Hv o ltac:(by left)). specialize (IH ltac:(intros; apply Hv; by right)). fold (value_of P outs) in IH. cbn. unfold zsum in *. cbn. destruct (P o); lia.
Qed.
Lemma value_of_ext P Q outs : (∀ o, o ∈ outs → P o = Q o) → value_of P outs = value_of Q outs.
Proof.
  induction outs as [|o outs IH]; intros H; [done|]. rewrite !value_of_cons, (H o ltac:(by left)), IH; [done|]. intros; apply H; by right.
Qed.
#[export] Instance value_of_perm P : Proper ((≡ₚ) ==> (=)) (value_of P).
Proof. intros l l' H. unfold value_of. by rewrite H. Qed.

Lemma anonymity_range outs h : outs_ok outs → 0 <= anonymity outs h < 2 ^ 63.
Proof. intros [Hv _ _ Ht]. pose proof (value_of_le (unspent_at h) outs Hv). unfold anonymity. lia. Qed.
Lemma anonymity_before outs : outs_ok outs → anonymity outs (-1) = 0.
Proof.
  intros [_ _ Hf _]. unfold anonymity. rewrite (value_of_ext _ (λ _, false)).
  - unfold value_of. clear. induction outs as [|o outs IH]; [done|]. by rewrite filter_cons, decide_False.
  - intros o Ho. specialize (Hf o Ho). unfold unspent_at. by replace (mx_fund o <=? -1) with false by lia.
Qed.

Definition series (outs : list MixedVout) (n : Z) : list Z := anonymity outs <$> seqZ 0 n.
Lemma zlen_series outs n : 0 <= n → zlen (series outs n) = n.
Proof. intros Hn. unfold zlen, series. rewrite length_fmap, length_seqZ. lia. Qed.
Lemma series_at outs n i : 0 <= i < n → slice_at (series outs n) i = Some (anonymity outs i).
Proof.
  intros Hi. unfold slice_at, series. rewrite (proj2 (Z.ltb_ge i 0)) by lia. rewrite list_lookup_fmap, lookup_seqZ_lt by lia. cbn. f_equal. f_equal. lia.
Qed.
Lemma series_snoc outs n : 0 <= n → series outs (n + 1) = series outs n ++ [anonymity outs n].
Proof. intros Hn. unfold series. rewrite seqZ_app by lia. by rewrite fmap_app. Qed.

(** The next value, with the conversions between int64 and uint64. *)
Lemma next_value outs h : outs_ok outs → u64 (i64 (anonymity outs (h - 1) + change outs h)) = anonymity outs h.
Proof.
  intros Ho. rewrite <- anonymity_step by apply Ho. pose proof (anonymity_range outs h Ho).
  unfold i64, u64. rewrite wrap_s_small by lia. apply wrap_u_small. lia.
Qed.
Lemma i64_anonymity outs h : outs_ok outs → i64 (anonymity outs h) = anonymity outs h.
Proof. intros Ho. pose proof (anonymity_range outs h Ho). apply wrap_s_small; lia. Qed.

(** *** The rows of the query *)
Lemma scan_row_change next h m o : next <= h →
  i64 (default 0 (scan_row next m o !! h)) = i64 (default 0 (m !! h) + change [o] h).
Proof.
  intros Hn. unfold scan_row, change. rewrite !value_of_one.
  assert (∀ k v m, default 0 (add_diff k v m !! h) = if decide (h = k) then i64 (default 0 (m !! h) + v) else default 0 (m !! h)) as Ha.
  { intros k v m'. unfold add_diff. case_decide as E; [subst; by rewrite lookup_insert_eq|by rewrite lookup_insert_ne]. }
  assert (∀ a b, i64 (i64 a + b) = i64 (a + b)) as Hw by (intros; apply wrap_s_add_idemp_l; lia).
  assert (∀ a, i64 (i64 a) = i64 a) as Hi by (intros a; pose proof (Hw a 0) as E; by rewrite !Z.add_0_r in E).
  assert (i64 (default 0 (match mx_spend o with Some s => add_diff s (- mx_value o) m | None => m end !! h)) =
    i64 (default 0 (m !! h) - (if bool_decide (mx_spend o = Some h) then mx_value o else 0))) as Hs.
  { destruct (mx_spend o) as [s|]; [|by rewrite bool_decide_eq_false_2, Z.sub_0_r].
    rewrite Ha. case_decide as E; [subst; by rewrite bool_decide_eq_true_2, Hi|]. rewrite bool_decide_eq_false_2, Z.sub_0_r by congruence. done. }
  destruct (Z.ltb_spec (mx_fund o) next).
  - rewrite Hs. destruct (Z.eqb_spec (mx_fund o) h); [lia|f_equal; lia].
  - rewrite Ha. destruct (decide (h = mx_fund o)) as [E|E].
    + rewrite Hi, <- Hw, Hs, Hw. destruct (Z.eqb_spec (mx_fund o) h); [f_equal; lia|lia].
    + rewrite Hs. destruct (Z.eqb_spec (mx_fund o) h); [lia|f_equal; lia].
Qed.

Lemma change_cons o outs h : change (o :: outs) h = change [o] h + change outs h.
Proof. unfold change. rewrite !(value_of_cons _ o outs), !value_of_one. lia. Qed.

Lemma scan_rows_change next h rows : next <= h → ∀ m,
  i64 (default 0 (foldl (scan_row next) m rows !! h)) = i64 (default 0 (m !! h) + change rows h).
Proof.
  intros Hn. induction rows as [|o rows IH]; intros m; cbn [foldl]; [by rewrite Z.add_0_r|].
  rewrite IH, change_cons. rewrite <- (wrap_s_add_idemp_l 64 (default 0 (scan_row next m o !! h))) by lia. fold i64.
  rewrite scan_row_change by done. unfold i64. rewrite wrap_s_add_idemp_l by lia. f_equal. lia.
Qed.

(** The outputs that are not selected were spent before. *)
Lemma change_selected outs next h : outs_ok outs → next <= h → change (SelectMixedVouts outs (next - 1)) h = change outs h.
Proof.
  intros [Hv Ho _ _] Hn. unfold SelectMixedVouts. induction outs as [|o outs IH]; [done|].
  assert (change (filter (λ o, (0 <? mx_value o) && match mx_spend o with Some s => next - 1 <? s | None => true end = true) outs) h = change outs h) as E.
  { apply IH; intros; [apply Hv|eapply Ho]; (by right) || done. }
  rewrite filter_cons, change_cons. case_decide as Hd; [by rewrite change_cons, E|]. rewrite E.
  pose proof (Hv o ltac:(by left)). destruct (mx_spend o) as [s|] eqn:Es.
  - specialize (Ho o s ltac:(by left) Es). assert (s <= next - 1) by (destruct (Z.ltb_spec 0 (mx_value o)), (Z.ltb_spec (next - 1) s); try lia; by destruct Hd).
    unfold change. rewrite !value_of_one, Es, bool_decide_eq_false_2 by (intros [= ->]; lia).
    destruct (Z.eqb_spec (mx_fund o) h); lia.
  - exfalso. apply Hd. rewrite andb_true_r. lia.
Qed.

Lemma append_diffs_series outs d : outs_ok outs → ∀ n h, 0 <= h →
  (∀ k, h <= k < h + Z.of_nat n → i64 (default 0 (d !! k)) = i64 (change outs k)) →
  append_diffs n h d (series outs h) = Ok (series outs (h + Z.of_nat n)).
Proof.
  intros Ho. induction n as [|n IH]; intros h Hh Hd; cbn [append_diffs]; [by rewrite Z.add_0_r|].
  assert (∃ prev, (if 0 <? h then slice_at (series outs h) (h - 1) else Some 0) = Some prev ∧ prev = anonymity outs (h - 1)) as (prev & -> & ->).
  { destruct (Z.ltb_spec 0 h); [eexists; split; [apply series_at; lia|done]|].
    replace h with 0 by lia. eexists; split; [done|]. by rewrite anonymity_before. }
  rewrite i64_anonymity by done. unfold i64. rewrite <- wrap_s_add_idemp_l by lia. fold i64. unfold i64 in Hd. rewrite (Hd h) by lia.
  unfold i64. rewrite wrap_s_add_idemp_l by lia. rewrite (Z.add_comm (change outs h)). fold (i64 (anonymity outs (h - 1) + change outs h)). rewrite next_value by done.
  rewrite <- series_snoc, IH by (done || lia || (intros; apply Hd; lia)). do 2 f_equal. lia.
Qed.

Lemma change_perm rows rows' h : rows ≡ₚ rows' → change rows h = change rows' h.
Proof. intros H. unfold change. by rewrite H. Qed.

Lemma appendRows_series outs next heights rows : outs_ok outs → 0 <= next <= heights →
  rows ≡ₚ SelectMixedVouts outs (next - 1) → appendRows (series outs next) heights rows = Ok (series outs heights).
Proof.
  intros Ho Hn Hr. unfold appendRows. rewrite zlen_series by lia. rewrite append_diffs_series; [do 2 f_equal; lia|done|lia|].
  intros k Hk. rewrite scan_rows_change by lia. rewrite lookup_empty. cbn [default].
  by rewrite (change_perm _ _ _ Hr), change_selected by (done || lia).
Qed.

(** *** The cached changes *)
(** The fuel is enough: every height that the loop passes is in the map. *)
Lemma cached_loop_spec diffs target : target < 2 ^ 32 - 1 → ∀ fuel (D : gmap Z Z) h, (size D < fuel)%nat → 0 <= h →
  (∀ k, h <= k → D !! k = diffs !! k) →
  ∃ b, cached_loop fuel diffs h target = Ok b ∧ (b = true ↔ ∀ k, h <= k <= target → is_Some (diffs !! k)).
Proof.
  intros Ht. induction fuel as [|fuel IH]; intros D h Hf Hh HD; [lia|]. cbn [cached_loop].
  destruct (Z.ltb_spec target h) as [Hlt|Hle]; [exists true; split; [done|]; split; [intros _ k Hk; lia|done]|].
  destruct (diffs !! h) as [x|] eqn:Ex.
  - assert (size (delete h D) < fuel)%nat. { rewrite map_size_delete, HD, Ex by lia. cbn. pose proof (map_size_ne_0_lookup_1 D) as Hne.
      assert (size D ≠ 0%nat) by (apply map_size_ne_0_lookup; exists h; rewrite HD, Ex by lia; by eexists). lia. }
    assert (u32 (h + 1) = h + 1) as -> by (apply wrap_u_small; lia).
    destruct (IH (delete h D) (h + 1)) as (b & -> & Hb); [done|lia|intros k Hk; rewrite lookup_delete_ne by lia; apply HD; lia|].
    exists b. split; [done|]. rewrite Hb. split; intros Hk k Hkk; [|apply Hk; lia].
    destruct (decide (k = h)) as [->|]; [rewrite Ex; by eexists|apply Hk; lia].
  - exists false. split; [done|]. split; [done|]. intros Hk. destruct (Hk h) as [? ?]; [lia|congruence].
Qed.

Lemma append_loop_series outs target : outs_ok outs → target < 2 ^ 32 - 1 → ∀ fuel (diffs : gmap Z Z) h nextSets, (size diffs < fuel)%nat → 0 <= h <= target + 1 →
  (∀ k, h <= k <= target → diffs !! k = Some (change outs k)) →
  ∃ diffs', append_loop fuel h target (anonymity outs (h - 1)) nextSets diffs = (Ok (nextSets ++ (anonymity outs <$> seqZ h (target + 1 - h))), diffs') ∧
    ∀ k, diffs' !! k = if decide (h <= k <= target) then None else diffs !! k.
Proof.
  intros Ho Ht. induction fuel as [|fuel IH]; intros diffs h nextSets Hf Hh Hd; [lia|]. cbn [append_loop].
  destruct (Z.ltb_spec target h) as [Hlt|Hle].
  { eexists. split; [|intros k; by rewrite decide_False by lia]. replace (target + 1 - h) with 0 by lia. by rewrite app_nil_r. }
  rewrite (Hd h) by lia. assert (u32 (h + 1) = h + 1) as -> by (apply wrap_u_small; lia).
  assert (i64 (anonymity outs (h - 1) + change outs h) = anonymity outs h) as ->.
  { rewrite <- anonymity_step by apply Ho. by apply i64_anonymity. }
  assert (u64 (anonymity outs h) = anonymity outs h) as ->. { pose proof (anonymity_range outs h Ho). apply wrap_u_small. lia. }
  assert (size (delete h diffs) < fuel)%nat.
  { rewrite map_size_delete, Hd by lia. cbn. assert (size diffs ≠ 0%nat) by (apply map_size_ne_0_lookup; exists h; rewrite Hd by lia; by eexists). lia. }
  destruct (IH (delete h diffs) (h + 1) (nextSets ++ [anonymity outs h])) as (diffs' & E & Hk); [done|lia|intros k Hk; rewrite lookup_delete_ne by lia; apply Hd; lia|].
  rewrite Z.add_simpl_r in E. rewrite E. exists diffs'. split.
  - replace (target + 1 - h) with (Z.succ (target + 1 - (h + 1))) by lia. rewrite (seqZ_cons h) by lia. cbn [fmap list_fmap].
    rewrite Z.pred_succ, <- Z.add_1_r. by rewrite <- app_assoc.
  - intros k. rewrite Hk. destruct (decide (k = h)) as [->|Hne].
    + rewrite (decide_True (P := h <= h <= target)), decide_False, lookup_delete_eq by lia. done.
    + rewrite lookup_delete_ne by done. repeat case_decide; lia || done.
Qed.

Lemma series_app outs n m : 0 <= n <= m → series outs n ++ (anonymity outs <$> seqZ n (m - n)) = series outs m.
Proof. intros H. unfold series. rewrite <- fmap_app. f_equal.
  replace m with (n + (m - n)) at 2 by lia. by rewrite seqZ_app by lia. Qed.

Lemma appendCached_series outs next heights diffs : outs_ok outs → 0 <= next <= heights → 0 < heights < 2 ^ 32 →
  (∀ h, next <= h < heights → diffs !! h = Some (change outs h)) →
  ∃ diffs', appendCached (series outs next) heights diffs = (Ok (series outs heights), diffs') ∧
    ∀ k, diffs' !! k = if decide (next <= k < heights) then None else diffs !! k.
Proof.
  intros Ho Hn Hh Hd. unfold appendCached. rewrite zlen_series by lia. unfold u32. rewrite (wrap_u_small 32 next), (wrap_u_small 32 (heights - 1)) by lia.
  assert ((if 0 <? next then i64 <$> slice_at (series outs next) (next - 1) else Some 0) = Some (anonymity outs (next - 1))) as ->.
  { destruct (Z.ltb_spec 0 next); [rewrite series_at by lia; cbn; by rewrite i64_anonymity|].
    replace next with 0 by lia. by rewrite anonymity_before. }
  destruct (append_loop_series outs (heights - 1) Ho ltac:(lia) (S (size diffs)) diffs next []) as (diffs' & E & Hk); [lia|lia|intros; apply Hd; lia|].
  exists diffs'. split; [|intros k; rewrite Hk; repeat case_decide; lia || done].
  rewrite (bind_Ok _ _ _ _ _ E). cbn. rewrite <- (series_app outs next heights) by lia. by replace (heights - 1 + 1 - next) with (heights - next) by lia.
Qed.

(** C10: The two ways of extending the anonymity set agree.  From the series of the
    first [next] heights, [appendAnonymitySet] with the rows of the query (in any
    order) gives the series of all heights: the value, without wrapping, of the
    mixed outputs that are funded at a height or before and not spent then.  When
    mixSetDiffs holds the changes of all missing heights then [anonymitySet] asks
    for no query and the method [appendAnonymitySet] gives the same series and
    consumes exactly these entries; when one of them is missing then the query
    is made, from the last height of the series. *)
Theorem anonymity_sets_agree outs rows diffs next heights :
  outs_ok outs → 0 <= next <= heights → 0 < heights < 2 ^ 31 → rows ≡ₚ SelectMixedVouts outs (next - 1) →
  appendRows (series outs next) heights rows = Ok (series outs heights) ∧
  ((∀ h, next <= h < heights → diffs !! h = Some (change outs h)) →
    anonymitySet diffs (series outs next) heights = Ok None ∧
    ∃ diffs', appendCached (series outs next) heights diffs = (Ok (series outs heights), diffs') ∧
      ∀ k, diffs' !! k = if decide (next <= k < heights) then None else diffs !! k) ∧
  (∀ h, next <= h < heights → diffs !! h = None → anonymitySet diffs (series outs next) heights = Ok (Some (next - 1))).
Proof.
  intros Ho Hn Hh Hr. split; [by apply appendRows_series|].
  assert (∃ b, anonymitySet diffs (series outs next) heights = Ok (if b : bool then None else Some (next - 1)) ∧
    (b = true ↔ ∀ k, next <= k <= heights - 1 → is_Some (diffs !! k))) as (b & -> & Hb).
  { unfold anonymitySet. unfold u32. rewrite zlen_series, (wrap_u_small 32 next), (wrap_u_small 32 (heights - 1)) by lia.
    destruct (cached_loop_spec diffs (heights - 1) ltac:(lia) (S (size diffs)) diffs next) as (b & -> & Hb); [lia|lia|done|].
    exists b. split; [|done]. destruct b; [done|]. unfold i32. by rewrite wrap_s_small by lia. }
  split.
  - intros Hd. split; [|apply appendCached_series; done || lia].
    destruct b; [done|]. discriminate (proj2 Hb ltac:(intros; rewrite Hd by lia; by eexists)).
  - intros h Hhh Hd. destruct b; [|done]. destruct (proj1 Hb eq_refl h) as [? ?]; [lia|congruence].
Qed.

Module Witness.
(** Three mixed outputs: one spent before the new heights, one spent in them and
    one unspent. *)
Definition outs : list MixedVout := [mkMixed 10 0 (Some 1); mkMixed 20 1 (Some 3); mkMixed 5 2 None].
Definition rows : list MixedVout := [mkMixed 5 2 None; mkMixed 20 1 (Some 3)].
Definition diffs : gmap Z Z := <[2 := 5]> (<[3 := -20]> (<[4 := 0]> (<[9 := 7]> ∅))).

Example series_outs : series outs 5 = [10; 20; 25; 5; 5].
Proof. reflexivity. Qed.

Lemma outs_ok_ok : outs_ok outs.
Proof.
  assert (Forall (λ o, 0 < mx_value o ∧ (∀ s, mx_spend o = Some s → mx_fund o <= s) ∧ 0 <= mx_fund o) outs) as H.
  { repeat (apply Forall_cons_2); [..|constructor]; cbn; (split; [lia|]); (split; [|lia]); intros s [= <-]; lia. }
  rewrite Forall_forall in H. split; [| | |done]; intros; by eapply H.
Qed.

Lemma anonymity_sets_agree_witness :
  (appendRows [10; 20] 5 rows = Ok [10; 20; 25; 5; 5] ∧ anonymitySet diffs [10; 20] 5 = Ok None) ∧
  (∃ diffs', appendCached [10; 20] 5 diffs = (Ok [10; 20; 25; 5; 5], diffs') ∧ diffs' !! 3 = None ∧ diffs' !! 9 = Some 7) ∧
  anonymitySet (delete 3 diffs) [10; 20] 5 = Ok (Some 1).
Proof.
  assert (rows ≡ₚ SelectMixedVouts outs (2 - 1)) as Hr by apply Permutation_swap.
  pose proof (λ d, anonymity_sets_agree outs rows d 2 5 outs_ok_ok ltac:(lia) ltac:(lia) Hr) as H.
  destruct (H diffs) as (H1 & H2 & _). destruct H2 as (H2 & diffs' & H3 & Hk).
  { intros h Hh. assert (h = 2 ∨ h = 3 ∨ h = 4) as [->|[->| ->]] by lia; reflexivity. }
  split; [by split|]. split; [exists diffs'; split; [exact H3|]; split; by rewrite Hk|].
  destruct (H (delete 3 diffs)) as (_ & _ & H4). apply (H4 3); [lia|reflexivity].
Defined.
End Witness.
