(* ===== verification/AddrBalance.v ===== *)
(** * The balance of an address (db/dcrpg/queries.go, db/dbtypes/types.go)

    It is computed in two ways: retrieveAddressBalance sums the groups of a
    query, and ReduceAddressHistory sums the rows of the address themselves,
    which AddressHistory does when it has all of them.  Both results are cached
    as the same balance.  The theorem says where they agree. *)
From stdpp Require Import gmap strings.
From S2P Require Import Prelude AddressRows AddressCache.
Open Scope Z_scope.

(** Types of transactions: those of the stake package, and those of the database. *)
Class StakeTypes := { stSStx : Z; stSSGen : Z; stSSRtx : Z; stSSFee : Z }.
Definition BlockRewardPoS : Z := 101.
Definition BlockRewardPoW : Z := 102.
Definition SSFeePoS : Z := 103.
Definition SSFeePoW : Z := 104.
Definition TicketPurchase : Z := 105.

(** [math.Float64bits]. *)
Definition f64_bits (f : float64) : Z :=
  match f with
  | S754_zero s => if s : bool then 2 ^ 63 else 0
  | S754_infinity s => (if s : bool then 2 ^ 63 else 0) + 2047 * 2 ^ 52
  | S754_nan => 2047 * 2 ^ 52 + 2 ^ 51 + 1
  | S754_finite s m e => (if s : bool then 2 ^ 63 else 0) +
      (if Z.pos m <? 2 ^ 52 then Z.pos m else (e + 1075) * 2 ^ 52 + (Z.pos m - 2 ^ 52))
  end.
Definition ratio (a b : Z) : Z := f64_bits (f64_div (f64_of_Z a) (f64_of_Z b)).
(** [big.Float]: the integers are exact with at least 64 bits, the quotient has
    the larger precision, and the conversion to float64 rounds again. *)
Definition big_ratio (a b : Z) : Z :=
  let prec := Z.max 64 (Z.max (Z.log2 a + 1) (Z.log2 b + 1)) in
  let f z := binary_normalize prec (2 ^ 31) z 0 false in
  f64_bits (match SFdiv prec (2 ^ 31) (f a) (f b) with
            | S754_finite s m e => binary_normalize 53 1024 (if s : bool then - Z.pos m else Z.pos m) e s
            | q => q
            end).

Definition NewCoinBalance (c : Z) : CoinBalance := mkCB c 0 0 0 0 "" "" 0 "" 0 0.
Definition coin (c : Z) (m : gmap Z CoinBalance) : CoinBalance := default (NewCoinBalance c) (m !! c).
(** An accumulator of a coin, made when it is nil. *)
Definition big_add (c : Z) (s : string) (m : gmap Z Z) : gmap Z Z := <[c := BigAddSKA (default 0 (m !! c)) s]> m.

Definition add_unspent (n v : Z) (cb : CoinBalance) : CoinBalance :=
  mkCB (cb_CoinType cb) (cb_NumSpent cb) (i64 (cb_NumUnspent cb + n)) (cb_TotalSpent cb) (i64 (cb_TotalUnspent cb + v))
    (cb_TotalSpentSKA cb) (cb_TotalUnspentSKA cb) (cb_TotalReceived cb) (cb_TotalReceivedSKA cb) (cb_FromStake cb) (cb_ToStake cb).
Definition add_spent (n v : Z) (cb : CoinBalance) : CoinBalance :=
  mkCB (cb_CoinType cb) (i64 (cb_NumSpent cb + n)) (cb_NumUnspent cb) (i64 (cb_TotalSpent cb + v)) (cb_TotalUnspent cb)
    (cb_TotalSpentSKA cb) (cb_TotalUnspentSKA cb) (cb_TotalReceived cb) (cb_TotalReceivedSKA cb) (cb_FromStake cb) (cb_ToStake cb).

(** The sums over all coins, in int64. *)
Definition with_totals (addr : string) (coins : gmap Z CoinBalance) : AddressBalance :=
  mkBal addr coins (i64 (map_sum (λ cb, cb_NumSpent cb + cb_NumUnspent cb) coins)) (i64 (map_sum cb_NumSpent coins)).

(** ** The query *)
Section Balance.
Context {st : StakeTypes}.
(** The ska_value of a row of vouts. *)
Context (vout_ska : Z → option string).

Record Group := mkGroup {
  g_txType : Z; g_coinType : Z; g_count : Z; g_total : Z; g_skaTotal : string;
  g_isFunding : bool; g_noMatchingTx : bool; g_isChange : bool
}.

(** The amount of a row; [None] is a cast that fails, NULL adds nothing.  The
    fallback for a spending row joins its id, which is one of vins, to vouts. *)
Definition ska_text (r : AddressRow) : string :=
  if IsFunding r then SKAValue r else if decide (SKAValue r = ""%string) then default ""%string (vout_ska (VinVoutDbID r)) else SKAValue r.
Definition numeric (s : string) : option Z := if decide (s = ""%string) then Some 0 else SetString10 s.

Definition is_nil {A} (o : option A) : bool := match o with None => true | Some _ => false end.
Definition is_change (rows : list AddressRow) (r : AddressRow) : bool :=
  bool_decide (TxHash r ∈ TxHash <$> filter (λ r, IsFunding r = false) rows).
Definition key (rows : list AddressRow) (r : AddressRow) : Z * Z * bool * bool * bool :=
  (TxType r, CoinType r, IsFunding r, is_nil (MatchingTxHash r), is_change rows r).
Definition group_of (rows : list AddressRow) (k : Z * Z * bool * bool * bool) : Group :=
  let '(ty, ct, fund, nomatch, change) := k in
  let rs := filter (λ r, key rows r = k) rows in
  mkGroup ty ct (zlen rs) (zsum (Value <$> rs)) (bigString (zsum ((λ r, default 0 (numeric (ska_text r))) <$> rs))) fund nomatch change.

(** The groups, in some order, of the rows of the address that are valid and of
    the main chain. *)
Definition SelectAddressSpentUnspentCountAndValue (rows : list AddressRow) : option (list Group) :=
  if forallb (λ r, negb (is_nil (numeric (ska_text r)))) rows then Some (group_of rows <$> remove_dups (key rows <$> rows)) else None.

(** ** retrieveAddressBalance *)
Record BalAcc := mkBA {
  ba_coins : gmap Z CoinBalance;
  fromStakeVAR : Z; toStakeVAR : Z; receivedVAR : Z; receivedExclIssuanceVAR : Z;
  skaSpent : gmap Z Z; skaUnspent : gmap Z Z; skaReceived : gmap Z Z; skaReceivedExcl : gmap Z Z; skaFromStake : gmap Z Z
}.
Definition emptyAcc : BalAcc := mkBA ∅ 0 0 0 0 ∅ ∅ ∅ ∅ ∅.

(** The coins of the accumulator change only at the group's coin. *)
Definition put_coin (c : Z) (f : CoinBalance → CoinBalance) (b : BalAcc) : BalAcc :=
  mkBA (<[c := f (coin c (ba_coins b))]> (ba_coins b)) (fromStakeVAR b) (toStakeVAR b) (receivedVAR b) (receivedExclIssuanceVAR b)
    (skaSpent b) (skaUnspent b) (skaReceived b) (skaReceivedExcl b) (skaFromStake b).

Definition pos_reward (t : Z) : bool := (t =? BlockRewardPoS) || (t =? SSFeePoS).
Definition to_stake (t : Z) : bool := (t =? TicketPurchase) || (t =? SSFeePoS) || (t =? stSSGen) || (t =? stSSRtx).

Definition unspent_group (g : Group) (b : BalAcc) : BalAcc :=
  let c := g_coinType g in
  if c =? 0 then put_coin c (add_unspent (g_count g) (g_total g)) b else
  let b := put_coin c (add_unspent (g_count g) 0) b in
  mkBA (ba_coins b) (fromStakeVAR b) (toStakeVAR b) (receivedVAR b) (receivedExclIssuanceVAR b)
    (skaSpent b) (big_add c (g_skaTotal g) (skaUnspent b)) (skaReceived b) (skaReceivedExcl b) (skaFromStake b).

Definition funding_group (g : Group) (b : BalAcc) : BalAcc :=
  let c := g_coinType g in
  let excl := negb (g_txType g =? BlockRewardPoW) && negb (g_isChange g) in
  if c =? 0 then
    mkBA (ba_coins b) (if excl && pos_reward (g_txType g) then i64 (fromStakeVAR b + g_total g) else fromStakeVAR b) (toStakeVAR b)
      (i64 (receivedVAR b + g_total g)) (if excl then i64 (receivedExclIssuanceVAR b + g_total g) else receivedExclIssuanceVAR b)
      (skaSpent b) (skaUnspent b) (skaReceived b) (skaReceivedExcl b) (skaFromStake b)
  else
    mkBA (ba_coins b) (fromStakeVAR b) (toStakeVAR b) (receivedVAR b) (receivedExclIssuanceVAR b)
      (skaSpent b) (skaUnspent b) (big_add c (g_skaTotal g) (skaReceived b))
      (if excl then big_add c (g_skaTotal g) (skaReceivedExcl b) else skaReceivedExcl b)
      (if excl && pos_reward (g_txType g) then big_add c (g_skaTotal g) (skaFromStake b) else skaFromStake b).

Definition spending_group (g : Group) (b : BalAcc) : BalAcc :=
  let c := g_coinType g in
  if g_noMatchingTx g then b else
  if c =? 0 then
    let b := put_coin c (add_spent (g_count g) (g_total g)) b in
    mkBA (ba_coins b) (fromStakeVAR b) (if to_stake (g_txType g) then i64 (toStakeVAR b + g_total g) else toStakeVAR b) (receivedVAR b)
      (receivedExclIssuanceVAR b) (skaSpent b) (skaUnspent b) (skaReceived b) (skaReceivedExcl b) (skaFromStake b)
  else
    let b := put_coin c (add_spent (g_count g) 0) b in
    mkBA (ba_coins b) (fromStakeVAR b) (toStakeVAR b) (receivedVAR b) (receivedExclIssuanceVAR b)
      (big_add c (g_skaTotal g) (skaSpent b)) (skaUnspent b) (skaReceived b) (skaReceivedExcl b) (skaFromStake b).

(** One row of the result; every group makes its coin known. *)
Definition scan_group (b : BalAcc) (g : Group) : BalAcc :=
  let b := put_coin (g_coinType g) id b in
  let b := if g_isFunding g && g_noMatchingTx g then unspent_group g b else b in
  if g_isFunding g then funding_group g b else spending_group g b.

(** The strings, with the fallback for what was spent, and the fractions. *)
Definition spent_ska (spent unspent received : option Z) : string :=
  match spent with
  | Some s => if 0 <? s then bigString s else
      match received with Some r => bigString (Z.max 0 (r - default 0 unspent)) | None => "" end
  | None => match received with Some r => bigString (Z.max 0 (r - default 0 unspent)) | None => "" end
  end.
Definition str (o : option Z) : string := from_option bigString ""%string o.

Definition finish_coin (b : BalAcc) (c : Z) (cb : CoinBalance) : CoinBalance :=
  if 0 <? c then
    mkCB (cb_CoinType cb) (cb_NumSpent cb) (cb_NumUnspent cb) (cb_TotalSpent cb) (cb_TotalUnspent cb)
      (spent_ska (skaSpent b !! c) (skaUnspent b !! c) (skaReceived b !! c)) (str (skaUnspent b !! c)) (cb_TotalReceived cb) (str (skaReceived b !! c))
      (match skaReceivedExcl b !! c, skaFromStake b !! c with
       | Some recvExcl, Some from => if 0 <? recvExcl then big_ratio from recvExcl else 0
       | _, _ => 0
       end) (cb_ToStake cb)
  else
    mkCB (cb_CoinType cb) (cb_NumSpent cb) (cb_NumUnspent cb) (cb_TotalSpent cb) (cb_TotalUnspent cb)
      (cb_TotalSpentSKA cb) (cb_TotalUnspentSKA cb) (receivedVAR b) (cb_TotalReceivedSKA cb)
      (if 0 <? receivedExclIssuanceVAR b then ratio (fromStakeVAR b) (receivedExclIssuanceVAR b) else 0)
      (if 0 <? cb_TotalSpent cb then ratio (toStakeVAR b) (cb_TotalSpent cb) else 0).

Inductive BalErr := EBalQuery | EBalScan.
(** Counts and sums have to fit an int64. *)
Definition scans (g : Group) : bool := (- 2 ^ 63 <=? g_total g) && (g_total g <? 2 ^ 63).

Definition balance_of_groups (addr : string) (gs : list Group) : AddressBalance :=
  let b := foldl scan_group emptyAcc gs in with_totals addr (map_imap (λ c cb, Some (finish_coin b c cb)) (ba_coins b)).

Definition retrieveAddressBalance (groups : option (list Group)) (addr : string) : res BalErr AddressBalance :=
  match groups with
  | None => Err EBalQuery
  | Some gs => if forallb scans gs then Ok (balance_of_groups addr gs) else Err EBalScan
  end.

(** ** ReduceAddressHistory *)
Definition TxTypeString (t : Z) : string :=
  if t =? stSSGen then "Vote" else if t =? stSStx then "Ticket" else if t =? stSSRtx then "Revocation" else if t =? stSSFee then "Stake Fee"
  else if (t =? BlockRewardPoS) || (t =? BlockRewardPoW) then "Miner Reward"
  else if (t =? SSFeePoS) || (t =? SSFeePoW) then "Stake Fee" else if t =? TicketPurchase then "Ticket" else "Regular".

(** What is set of [AddressTx]; amounts in coins are float64. *)
Record AddressTx := mkAddressTx {
  at_TxID : Hash; at_TxType : string; at_InOutID : Z; at_Time : TimeDef; at_ReceivedTotal : Z; at_SentTotal : Z;
  at_ReceivedTotalSKA : string; at_SentTotalSKA : string; at_IsFunding : bool; at_MatchedTx : option Hash;
  at_MergedTxnCount : Z; at_CoinType : Z; at_SKAValue : string
}.
Record AddressInfo := mkInfo {
  ai_Address : string; ai_Transactions : list AddressTx; ai_TxnsFunding : list AddressTx; ai_TxnsSpending : list AddressTx;
  ai_AmountReceived : Z; ai_AmountSent : Z; ai_AmountUnspent : Z; ai_Balance : AddressBalance; ai_ActiveCoins : list Z
}.
Definition ToCoin (a : Z) : Z := ratio a 100000000.

Definition address_tx (r : AddressRow) : AddressTx :=
  let var := CoinType r =? 0 in
  mkAddressTx (TxHash r) (TxTypeString (TxType r)) (TxVinVoutIndex r) (TxBlockTime r)
    (if IsFunding r && var then ToCoin (i64 (Value r)) else 0) (if negb (IsFunding r) && var then ToCoin (i64 (Value r)) else 0)
    (if IsFunding r && negb var then SKAValue r else ""%string) (if negb (IsFunding r) && negb var then SKAValue r else ""%string)
    (IsFunding r) (MatchingTxHash r) (MergedCount r) (CoinType r) (SKAValue r).

Record Reduction := mkRed {
  rd_received : Z; rd_sent : Z; rd_fromStake : Z; rd_toStake : Z; rd_coins : gmap Z CoinBalance;
  rd_receivedSKA : gmap Z Z; rd_spentSKA : gmap Z Z; rd_txs : list AddressTx
}.
Definition one_unspent (cb : CoinBalance) : CoinBalance := add_unspent 1 0 cb.
Definition one_spent (cb : CoinBalance) : CoinBalance := add_spent 1 0 cb.

Definition reduce_row (d : Reduction) (r : AddressRow) : Reduction :=
  if negb (ValidMainChain r) then d else
  let c := CoinType r in let v := i64 (Value r) in
  let regular := bool_decide (TxTypeString (TxType r) = "Regular"%string) in
  let coins := <[c := coin c (rd_coins d)]> (rd_coins d) in
  let txs := rd_txs d ++ [address_tx r] in
  if IsFunding r then
    let coins := if is_nil (MatchingTxHash r) then <[c := one_unspent (coin c coins)]> coins else coins in
    if c =? 0 then mkRed (i64 (rd_received d + v)) (rd_sent d) (if regular then rd_fromStake d else i64 (rd_fromStake d + v)) (rd_toStake d)
      coins (rd_receivedSKA d) (rd_spentSKA d) txs
    else mkRed (rd_received d) (rd_sent d) (rd_fromStake d) (rd_toStake d) coins (big_add c (SKAValue r) (rd_receivedSKA d)) (rd_spentSKA d) txs
  else
    let coins := <[c := one_spent (coin c coins)]> coins in
    if c =? 0 then mkRed (rd_received d) (i64 (rd_sent d + v)) (rd_fromStake d) (if regular then rd_toStake d else i64 (rd_toStake d + v))
      coins (rd_receivedSKA d) (rd_spentSKA d) txs
    else mkRed (rd_received d) (rd_sent d) (rd_fromStake d) (rd_toStake d) coins (rd_receivedSKA d) (big_add c (SKAValue r) (rd_spentSKA d)) txs.

(** receivedByCoin and sentByCoin have the sums of VAR only. *)
Definition reduce_coin (d : Reduction) (c : Z) (cb : CoinBalance) : CoinBalance :=
  let received := if c =? 0 then rd_received d else 0 in let sent := if c =? 0 then rd_sent d else 0 in
  let recv := rd_receivedSKA d !! c in let spent := rd_spentSKA d !! c in
  let unspent := default 0 recv - default 0 spent in
  let ska (s : string) := if 0 <? c then s else ""%string in
  mkCB (cb_CoinType cb) (cb_NumSpent cb) (cb_NumUnspent cb) sent (i64 (received - sent)) (ska (str spent))
    (ska (if unspent =? 0 then ""%string else bigString unspent)) received (ska (str recv)) (cb_FromStake cb) (cb_ToStake cb).

Definition reduce_rows (rows : list AddressRow) : Reduction := foldl reduce_row (mkRed 0 0 0 0 ∅ ∅ ∅ []) rows.
Definition reduced_balance (addr : string) (d : Reduction) : AddressBalance :=
  with_totals addr (map_imap (λ c cb, Some (reduce_coin d c cb)) (rd_coins d)).

(** The info and the fractions from and to stake. *)
Definition ReduceAddressHistory (rows : list AddressRow) : option AddressInfo * Z * Z :=
  match rows with
  | [] => (None, 0, 0)
  | r0 :: _ =>
    let d := reduce_rows rows in
    (Some (mkInfo (Address r0) (rd_txs d) (filter (λ t, at_IsFunding t = true) (rd_txs d)) (filter (λ t, at_IsFunding t = false) (rd_txs d))
      (rd_received d) (rd_sent d) (i64 (rd_received d - rd_sent d)) (reduced_balance (Address r0) d)
      (merge_sort Z.le (elements (dom (rd_coins d))))),
     if 0 <? rd_received d then ratio (rd_fromStake d) (rd_received d) else 0,
     if 0 <? rd_sent d then ratio (rd_toStake d) (rd_sent d) else 0)
  end.

(** ** Sums of selected elements *)
Definition csum {A} (P : A → bool) (f : A → Z) (l : list A) : Z := zsum (f <$> filter (λ x, P x = true) l).
(** A sum that exists when something is selected. *)
Definition osum {A} (P : A → bool) (f : A → Z) (l : list A) : option Z := if existsb P l then Some (csum P f l) else None.

Section Sums.
Context {A : Type}.
Implicit Types (P Q : A → bool) (f : A → Z) (l : list A).

Lemma csum_snoc P f l x : csum P f (l ++ [x]) = csum P f l + (if P x then f x else 0).
Proof.
  unfold csum. rewrite filter_app, fmap_app, zsum_app, filter_cons. destruct (P x); [rewrite decide_True by done|rewrite decide_False by done]; cbn; unfold zsum; lia.
Qed.
Lemma csum_cons P f x l : csum P f (x :: l) = (if P x then f x else 0) + csum P f l.
Proof. unfold csum. rewrite filter_cons. destruct (P x); [rewrite decide_True by done|rewrite decide_False by done]; cbn; unfold zsum; lia. Qed.
Lemma csum_perm P f l l' : l ≡ₚ l' → csum P f l = csum P f l'.
Proof. intros H. unfold csum. by rewrite H. Qed.
Lemma existsb_snoc P l x : existsb P (l ++ [x]) = existsb P l || P x.
Proof. rewrite existsb_app. cbn. by rewrite orb_false_r. Qed.
Lemma existsb_perm P l l' : l ≡ₚ l' → existsb P l = existsb P l'.
Proof. induction 1; cbn; [done|congruence|destruct (P x), (P y); done|congruence]. Qed.
Lemma osum_snoc P f l x : osum P f (l ++ [x]) = if P x then Some (default 0 (osum P f l) + f x) else osum P f l.
Proof.
  unfold osum. rewrite existsb_snoc, csum_snoc. destruct (P x); [rewrite orb_true_r|rewrite orb_false_r, Z.add_0_r; done].
  destruct (existsb P l) eqn:E; [done|]. cbn. f_equal. f_equal. unfold csum. induction l as [|y l IH]; [done|].
  cbn in E. apply orb_false_iff in E as [E1 E2]. rewrite filter_cons, decide_False by (rewrite E1; done). auto.
Qed.
Lemma osum_perm P f l l' : l ≡ₚ l' → osum P f l = osum P f l'.
Proof. intros H. unfold osum. by rewrite (csum_perm P f _ _ H), (existsb_perm P _ _ H). Qed.
Lemma default_osum P f l : default 0 (osum P f l) = csum P f l.
Proof.
  unfold osum. destruct (existsb P l) eqn:E; [done|]. cbn. symmetry. induction l as [|y l IH]; [done|].
  cbn in E. apply orb_false_iff in E as [E1 E2]. rewrite csum_cons, E1, IH by done. done.
Qed.
Lemma csum_split P Q f l : csum P f l = csum (λ x, P x && Q x) f l + csum (λ x, P x && negb (Q x)) f l.
Proof. induction l as [|x l IH]; [done|]. rewrite !csum_cons, IH. destruct (P x), (Q x); cbn; lia. Qed.
Lemma csum_ext P Q f g l : (∀ x, x ∈ l → P x = Q x ∧ (P x = true → f x = g x)) → csum P f l = csum Q g l.
Proof.
  induction l as [|x l IH]; intros H; [done|]. rewrite !csum_cons. destruct (H x ltac:(by left)) as [HP Hf].
  rewrite <- HP, IH by (intros; apply H; by right). destruct (P x); [|done]. by rewrite Hf.
Qed.
Lemma existsb_ext P Q l : (∀ x, x ∈ l → P x = Q x) → existsb P l = existsb Q l.
Proof. induction l as [|x l IH]; intros H; [done|]. cbn. rewrite (H x ltac:(by left)), IH; [done|]. intros; apply H; by right. Qed.
Lemma csum_nonneg P f l : (∀ x, x ∈ l → P x = true → 0 <= f x) → 0 <= csum P f l.
Proof.
  induction l as [|x l IH]; intros H; [done|]. rewrite csum_cons. pose proof (IH ltac:(intros; apply H; [by right|done])).
  pose proof (H x ltac:(by left)). destruct (P x); lia.
Qed.

(** Summing the sums of the groups of a list by a key. *)
Lemma group_csum `{EqDecision K} (k : A → K) (P : K → bool) f l ks : NoDup ks →
  zsum ((λ x, zsum (f <$> filter (λ r, k r = x) l)) <$> filter (λ x, P x = true) ks) = csum (λ r, P (k r) && bool_decide (k r ∈ ks)) f l.
Proof.
  induction 1 as [|x ks Hx Hnd IH].
  - cbn. unfold csum. symmetry. induction l as [|r l IHl]; [done|]. rewrite filter_cons, decide_False; [done|]. rewrite bool_decide_eq_false_2 by apply not_elem_of_nil. by rewrite andb_false_r.
  - assert (csum (λ r, P (k r) && bool_decide (k r ∈ x :: ks)) f l =
      csum (λ r, P (k r) && bool_decide (k r = x)) f l + csum (λ r, P (k r) && bool_decide (k r ∈ ks)) f l) as ->.
    { clear IH. induction l as [|r l IHl]; [done|]. rewrite !csum_cons, IHl. destruct (P (k r)); cbn; [|lia].
      rewrite (bool_decide_ext _ _ (elem_of_cons ks (k r) x)), bool_decide_or.
      destruct (decide (k r = x)) as [->|Hne]; [rewrite bool_decide_eq_true_2, (bool_decide_eq_false_2 (x ∈ ks)) by done; cbn; lia|].
      rewrite (bool_decide_eq_false_2 (k r = x)) by done. cbn. lia. }
    rewrite <- IH, filter_cons. destruct (P x) eqn:E.
    + rewrite decide_True by done. cbn [fmap list_fmap]. change (zsum (?a :: ?b)) with (a + zsum b). f_equal.
      unfold csum. f_equal. f_equal. clear -E. induction l as [|r l IHl]; [done|]. rewrite !filter_cons, IHl.
      destruct (decide (k r = x)) as [->|Hne]; [by rewrite E, decide_True by (by rewrite bool_decide_eq_true_2)|].
      rewrite (decide_False (P := P (k r) && _ = true)); [done|]. rewrite bool_decide_eq_false_2 by done. by rewrite andb_false_r.
    + rewrite decide_False by done. assert (csum (λ r, P (k r) && bool_decide (k r = x)) f l = 0) as ->; [|done].
      clear -E. induction l as [|r l IHl]; [done|]. rewrite csum_cons, IHl. destruct (decide (k r = x)) as [->|]; [by rewrite E|].
      rewrite bool_decide_eq_false_2 by done. by rewrite andb_false_r.
Qed.
End Sums.

(** ** The groups, summed *)
Lemma BigAddSKA_sum acc s : BigAddSKA acc s = acc + default 0 (SetString10 s).
Proof.
  unfold BigAddSKA. destruct (bool_decide_reflect (s = ""%string)) as [->|]; [cbn; lia|].
  destruct (bool_decide_reflect (s = "0"%string)) as [->|]; [cbn; lia|]. cbn. destruct (SetString10 s); cbn; lia.
Qed.
Definition g_ska (g : Group) : Z := default 0 (SetString10 (g_skaTotal g)).

Definition coin_upd (g : Group) (cb : CoinBalance) : CoinBalance :=
  let v := if g_coinType g =? 0 then g_total g else 0 in
  if g_isFunding g then (if g_noMatchingTx g then add_unspent (g_count g) v cb else cb)
  else if g_noMatchingTx g then cb else add_spent (g_count g) v cb.

Lemma coin_put c f m : coin c (<[c := f]> m) = f.
Proof. unfold coin. by rewrite lookup_insert_eq. Qed.

Lemma scan_coins b g : ba_coins (scan_group b g) = <[g_coinType g := coin_upd g (coin (g_coinType g) (ba_coins b))]> (ba_coins b).
Proof.
  unfold scan_group, unspent_group, funding_group, spending_group, coin_upd.
  destruct (g_isFunding g), (g_noMatchingTx g), (g_coinType g =? 0); cbn [andb put_coin ba_coins];
    rewrite ?coin_put, ?insert_insert_eq; done.
Qed.

Definition gU (c : Z) (g : Group) : bool := (g_coinType g =? c) && g_isFunding g && g_noMatchingTx g.
Definition gF (c : Z) (g : Group) : bool := (g_coinType g =? c) && g_isFunding g.
Definition gS (c : Z) (g : Group) : bool := (g_coinType g =? c) && negb (g_isFunding g) && negb (g_noMatchingTx g).

Definition var (c z : Z) : Z := if c =? 0 then i64 z else 0.
Definition sums_coin (c nspent nunspent vspent vunspent : Z) : CoinBalance :=
  mkCB c (i64 nspent) (i64 nunspent) (var c vspent) (var c vunspent) "" "" 0 "" 0 0.

Lemma i64_sum_l x y : i64 (i64 x + y) = i64 (x + y).
Proof. apply wrap_s_add_idemp_l. lia. Qed.
Lemma i64_zero : i64 0 = 0.
Proof. done. Qed.

Lemma scan_coin gs c : ba_coins (foldl scan_group emptyAcc gs) !! c =
  if existsb (λ g, g_coinType g =? c) gs
  then Some (sums_coin c (csum (gS c) g_count gs) (csum (gU c) g_count gs) (csum (gS c) g_total gs) (csum (gU c) g_total gs)) else None.
Proof.
  induction gs as [|g gs IH] using rev_ind; [done|]. rewrite foldl_snoc, scan_coins, existsb_snoc, !csum_snoc.
  set (b := foldl scan_group emptyAcc gs) in *. destruct (Z.eqb_spec (g_coinType g) c) as [Hc|Hc].
  - rewrite orb_true_r, Hc, lookup_insert_eq. f_equal. unfold coin. rewrite IH. unfold gU, gS, coin_upd. rewrite Hc, Z.eqb_refl.
    assert (∀ P f, existsb (λ g, g_coinType g =? c) gs = false → (∀ g, P g = true → g_coinType g = c) → csum P f gs = 0) as H0.
    { intros P f He HP. rewrite <- default_osum. unfold osum. assert (existsb P gs = false) as ->; [|done].
      apply not_true_iff_false. intros (x & Hx & Hp)%existsb_exists. rewrite <- not_true_iff_false in He. apply He, existsb_exists. exists x. split; [done|]. apply Z.eqb_eq; auto. }
    destruct (existsb (λ g, g_coinType g =? c) gs) eqn:He; cbn [default from_option].
    + destruct (g_isFunding g), (g_noMatchingTx g); cbn [andb negb]; rewrite ?Z.add_0_r; unfold sums_coin, add_unspent, add_spent, var; cbn;
        destruct (c =? 0); cbn; rewrite ?i64_sum_l, ?Z.add_0_r; try done.
    + rewrite !H0 by (done || (intros x Hx; unfold gU, gS in Hx; rewrite ?andb_true_iff in Hx; lia)).
      destruct (g_isFunding g), (g_noMatchingTx g); cbn [andb negb]; rewrite ?Z.add_0_r; unfold sums_coin, add_unspent, add_spent, var, NewCoinBalance; cbn;
        destruct (c =? 0); cbn; rewrite ?Z.add_0_l; done.
  - rewrite orb_false_r, lookup_insert_ne by done. rewrite IH. unfold gU, gS. rewrite (proj2 (Z.eqb_neq _ _) Hc). cbn. rewrite !Z.add_0_r. done.
Qed.

Definition non_var (c : Z) (o : option Z) : option Z := if c =? 0 then None else o.

Lemma lookup_big_add c c' s (m : gmap Z Z) : big_add c s m !! c' = if c =? c' then Some (default 0 (m !! c) + default 0 (SetString10 s)) else m !! c'.
Proof.
  unfold big_add. rewrite BigAddSKA_sum. destruct (Z.eqb_spec c c') as [->|]; [by rewrite lookup_insert_eq|by rewrite lookup_insert_ne].
Qed.

Ltac ska_fields := unfold scan_group, unspent_group, funding_group, spending_group.
Lemma scan_ska gs c : let b := foldl scan_group emptyAcc gs in
  skaUnspent b !! c = non_var c (osum (gU c) g_ska gs) ∧ skaReceived b !! c = non_var c (osum (gF c) g_ska gs) ∧
  skaSpent b !! c = non_var c (osum (gS c) g_ska gs) ∧ receivedVAR b = i64 (csum (gF 0) g_total gs).
Proof.
  cbv zeta. induction gs as [|g gs (IHu & IHr & IHs & IHv)] using rev_ind.
  { cbn. rewrite !lookup_empty. unfold non_var, osum, csum. cbn. by destruct (c =? 0). }
  rewrite foldl_snoc, !osum_snoc, csum_snoc. set (b := foldl scan_group emptyAcc gs) in *.
  unfold scan_group, unspent_group, funding_group, spending_group, gU, gF, gS in *.
  destruct (g_isFunding g) eqn:Ef, (g_noMatchingTx g) eqn:En, (Z.eqb_spec (g_coinType g) 0) as [E0|E0];
    cbn [andb negb put_coin skaUnspent skaReceived skaSpent receivedVAR]; rewrite ?lookup_big_add, ?andb_true_r, ?andb_false_r, ?Z.add_0_r, ?IHv, ?i64_sum_l;
    unfold non_var in *; destruct (Z.eqb_spec (g_coinType g) c) as [Ec|Ec]; cbn [andb]; rewrite ?Ec, ?IHu, ?IHr, ?IHs; try (by split_and!);
    repeat match goal with |- context[?x =? 0] => destruct (Z.eqb_spec x 0) end; try lia; split_and!; try done; try congruence.
Qed.

(** ** From groups to rows *)
Definition rU (c : Z) (r : AddressRow) : bool := (CoinType r =? c) && IsFunding r && is_nil (MatchingTxHash r).
Definition rF (c : Z) (r : AddressRow) : bool := (CoinType r =? c) && IsFunding r.
Definition rS (c : Z) (r : AddressRow) : bool := (CoinType r =? c) && negb (IsFunding r) && negb (is_nil (MatchingTxHash r)).
Definition r_ska (r : AddressRow) : Z := default 0 (numeric (ska_text r)).

Section Groups.
Context (rows : list AddressRow).
Let ks := remove_dups (key rows <$> rows).

Lemma key_in r : r ∈ rows → key rows r ∈ ks.
Proof. intros Hr. apply elem_of_remove_dups, list_elem_of_fmap. by exists r. Qed.

Lemma groups_csum (P : Group → bool) (f : Group → Z) (f' : AddressRow → Z) :
  (∀ k, f (group_of rows k) = zsum (f' <$> filter (λ r, key rows r = k) rows)) →
  csum P f (group_of rows <$> ks) = csum (λ r, P (group_of rows (key rows r))) f' rows.
Proof.
  intros Hf. transitivity (csum (λ r, P (group_of rows (key rows r)) && bool_decide (key rows r ∈ ks)) f' rows).
  - rewrite <- (group_csum (key rows) (λ k, P (group_of rows k)) f' rows ks) by apply NoDup_remove_dups. unfold csum. f_equal.
    induction ks as [|k l IH]; [done|]. cbn [fmap list_fmap]. rewrite !filter_cons.
    destruct (decide (P (group_of rows k) = true)); cbn [fmap list_fmap]; [f_equal; [apply Hf|exact IH]|exact IH].
  - apply csum_ext. intros r Hr. split; [|done]. by rewrite bool_decide_eq_true_2, andb_true_r by by apply key_in.
Qed.

Lemma groups_existsb (P : Group → bool) : existsb P (group_of rows <$> ks) = existsb (λ r, P (group_of rows (key rows r))) rows.
Proof.
  apply eq_true_iff_eq. rewrite !existsb_exists. split.
  - intros (g & Hg & HP). apply list_elem_of_In, list_elem_of_fmap in Hg as (k & -> & Hk). apply elem_of_remove_dups, list_elem_of_fmap in Hk as (r & -> & Hr).
    exists r. by split; [apply list_elem_of_In|].
  - intros (r & Hr & HP). exists (group_of rows (key rows r)). split; [|done]. apply list_elem_of_In, list_elem_of_fmap. eexists. split; [done|].
    apply key_in. by apply list_elem_of_In.
Qed.

Lemma g_ska_group k : g_ska (group_of rows k) = zsum (r_ska <$> filter (λ r, key rows r = k) rows).
Proof. destruct k as [[[[? ?] ?] ?] ?]. cbn. unfold g_ska. cbn. by rewrite SetString10_bigString. Qed.
Lemma g_count_group k : g_count (group_of rows k) = zsum ((λ _, 1) <$> filter (λ r, key rows r = k) rows).
Proof.
  destruct k as [[[[? ?] ?] ?] ?]. cbn. unfold zlen. generalize (filter (λ r, key rows r = (z, z0, b, b0, b1)) rows) as l.
  induction l as [|r l IH]; [done|]. cbn [fmap list_fmap length]. change (zsum (1 :: ?l)) with (1 + zsum l). rewrite <- IH. lia.
Qed.
Lemma g_total_group k : g_total (group_of rows k) = zsum (Value <$> filter (λ r, key rows r = k) rows).
Proof. by destruct k as [[[[? ?] ?] ?] ?]. Qed.
End Groups.

(** ** The rows, reduced *)
Definition rSp (c : Z) (r : AddressRow) : bool := (CoinType r =? c) && negb (IsFunding r).
Definition r_amt (r : AddressRow) : Z := default 0 (SetString10 (SKAValue r)).

Definition reduce_upd (r : AddressRow) (cb : CoinBalance) : CoinBalance :=
  if IsFunding r then (if is_nil (MatchingTxHash r) then one_unspent cb else cb) else one_spent cb.

Lemma reduce_coins d r : ValidMainChain r = true →
  rd_coins (reduce_row d r) = <[CoinType r := reduce_upd r (coin (CoinType r) (rd_coins d))]> (rd_coins d).
Proof.
  intros Hv. unfold reduce_row, reduce_upd. rewrite Hv. cbn [negb].
  destruct (IsFunding r), (is_nil (MatchingTxHash r)), (CoinType r =? 0); cbn [rd_coins]; rewrite ?coin_put, ?insert_insert_eq; done.
Qed.

Definition valid_rows (rows : list AddressRow) : Prop := ∀ r, r ∈ rows → ValidMainChain r = true.
Lemma valid_rows_snoc rows r : valid_rows (rows ++ [r]) → valid_rows rows ∧ ValidMainChain r = true.
Proof. intros H. split; [intros x Hx; apply H, elem_of_app; by left|]. apply H, elem_of_app. right. apply list_elem_of_here. Qed.

Lemma csum_none {A} (P Q : A → bool) f (l : list A) : existsb Q l = false → (∀ x, P x = true → Q x = true) → csum P f l = 0.
Proof.
  intros He HP. rewrite <- default_osum. unfold osum. assert (existsb P l = false) as ->; [|done].
  apply not_true_iff_false. intros (x & Hx & Hp)%existsb_exists. rewrite <- not_true_iff_false in He. apply He, existsb_exists. exists x. auto.
Qed.

Lemma reduce_coin_sums rows c : valid_rows rows → rd_coins (reduce_rows rows) !! c =
  if existsb (λ r, CoinType r =? c) rows
  then Some (mkCB c (i64 (csum (rSp c) (λ _, 1) rows)) (i64 (csum (rU c) (λ _, 1) rows)) 0 0 "" "" 0 "" 0 0) else None.
Proof.
  unfold reduce_rows. induction rows as [|r rows IH] using rev_ind; intros Hv; [done|]. apply valid_rows_snoc in Hv as [Hvr Hv].
  rewrite foldl_snoc, reduce_coins by done. rewrite existsb_snoc, !csum_snoc. specialize (IH Hvr).
  set (d := foldl reduce_row _ rows) in *. destruct (Z.eqb_spec (CoinType r) c) as [Hc|Hc].
  - rewrite orb_true_r, Hc, lookup_insert_eq. f_equal. unfold coin. rewrite IH. unfold rU, rSp, reduce_upd. rewrite Hc, Z.eqb_refl.
    destruct (existsb (λ r, CoinType r =? c) rows) eqn:He; cbn [default from_option].
    + destruct (IsFunding r), (is_nil (MatchingTxHash r)); cbn [andb negb]; rewrite ?Z.add_0_r; unfold one_unspent, one_spent, add_unspent, add_spent; cbn;
        rewrite ?i64_sum_l; done.
    + rewrite !(csum_none _ _ _ _ He) by (intros x Hx; rewrite ?andb_true_iff in Hx; tauto).
      destruct (IsFunding r), (is_nil (MatchingTxHash r)); done.
  - rewrite orb_false_r, lookup_insert_ne by done. rewrite IH. unfold rU, rSp. rewrite (proj2 (Z.eqb_neq _ _) Hc). cbn. by rewrite !Z.add_0_r.
Qed.

Lemma i64_add_r x y : i64 (x + i64 y) = i64 (x + y).
Proof. by rewrite Z.add_comm, i64_sum_l, Z.add_comm. Qed.

Lemma reduce_sums rows c : valid_rows rows → let d := reduce_rows rows in
  rd_received d = i64 (csum (rF 0) Value rows) ∧ rd_sent d = i64 (csum (rSp 0) Value rows) ∧
  rd_receivedSKA d !! c = non_var c (osum (rF c) r_amt rows) ∧ rd_spentSKA d !! c = non_var c (osum (rSp c) r_amt rows).
Proof.
  cbv zeta. unfold reduce_rows. induction rows as [|r rows IH] using rev_ind; intros Hv.
  { cbn. rewrite !lookup_empty. unfold non_var, osum. cbn. by destruct (c =? 0). }
  apply valid_rows_snoc in Hv as [Hvr Hv]. destruct (IH Hvr) as (I1 & I2 & I3 & I4). clear IH.
  rewrite foldl_snoc, !osum_snoc, !csum_snoc. set (d := foldl reduce_row _ rows) in *. unfold reduce_row. rewrite Hv. cbn [negb].
  unfold rF, rSp in *. change (default 0 (SetString10 (SKAValue r))) with (r_amt r).
  destruct (IsFunding r) eqn:Ef, (Z.eqb_spec (CoinType r) 0) as [E0|E0]; cbn [andb negb rd_received rd_sent rd_receivedSKA rd_spentSKA];
    rewrite ?lookup_big_add, ?andb_true_r, ?andb_false_r, ?Z.add_0_r, ?I1, ?I2, ?i64_sum_l, ?i64_add_r;
    unfold non_var in *; destruct (Z.eqb_spec (CoinType r) c) as [Ec|Ec]; cbn [andb]; rewrite ?Ec, ?I3, ?I4; try (by split_and!);
    repeat match goal with |- context[?x =? 0] => destruct (Z.eqb_spec x 0) end; try lia; split_and!; try done; try congruence.
Qed.

(** ** Where both agree *)
Definition amount (s : string) : Z := default 0 (SetString10 s).
(** Equal but for the fractions of stake; amounts in text are compared as numbers. *)
Record same_coin (x y : CoinBalance) : Prop := {
  sc_type : cb_CoinType x = cb_CoinType y; sc_spent : cb_NumSpent x = cb_NumSpent y; sc_unspent : cb_NumUnspent x = cb_NumUnspent y;
  sc_total_spent : cb_TotalSpent x = cb_TotalSpent y; sc_total_unspent : cb_TotalUnspent x = cb_TotalUnspent y;
  sc_received : cb_TotalReceived x = cb_TotalReceived y;
  sc_ska_spent : amount (cb_TotalSpentSKA x) = amount (cb_TotalSpentSKA y);
  sc_ska_unspent : amount (cb_TotalUnspentSKA x) = amount (cb_TotalUnspentSKA y);
  sc_ska_received : amount (cb_TotalReceivedSKA x) = amount (cb_TotalReceivedSKA y)
}.
Record same_balance (x y : AddressBalance) : Prop := {
  sb_address : b_Address x = b_Address y; sb_coins : ∀ c, option_Forall2 same_coin (b_Coins x !! c) (b_Coins y !! c);
  sb_outputs : b_TotalOutputs x = b_TotalOutputs y; sb_inputs : b_TotalInputs x = b_TotalInputs y
}.

(** The rows of an address: every spending row has its funding transaction, and
    what is spent of a coin is what its matched funding rows received; the amounts
    in SKA are written out. *)
Record matched_rows (addr : string) (rows : list AddressRow) : Prop := {
  mr_address : ∀ r, r ∈ rows → Address r = addr; mr_valid : valid_rows rows;
  mr_coin : ∀ r, r ∈ rows → 0 <= CoinType r;
  mr_spending : ∀ r, r ∈ rows → IsFunding r = false → MatchingTxHash r ≠ None;
  mr_ska : ∀ r, r ∈ rows → CoinType r ≠ 0 → ∃ z, 0 <= z ∧ SetString10 (SKAValue r) = Some z;
  mr_var_sums : csum (rSp 0) Value rows = csum (λ r, rF 0 r && negb (is_nil (MatchingTxHash r))) Value rows;
  mr_ska_sums : ∀ c, c ≠ 0 → csum (rSp c) r_amt rows = csum (λ r, rF c r && negb (is_nil (MatchingTxHash r))) r_amt rows
}.

Lemma map_sum_fmap (f : CoinBalance → Z) (m : gmap Z CoinBalance) : map_sum f m = map_sum id (f <$> m).
Proof.
  induction m as [|c x m Hc IH] using map_ind; [by rewrite fmap_empty, !map_sum_empty|].
  rewrite fmap_insert, !map_sum_insert, IH; [done|by rewrite lookup_fmap, Hc|done].
Qed.
Lemma map_sum_pointwise (f : CoinBalance → Z) (m m' : gmap Z CoinBalance) :
  (∀ c, option_Forall2 (λ x y, f x = f y) (m !! c) (m' !! c)) → map_sum f m = map_sum f m'.
Proof.
  intros H. rewrite (map_sum_fmap f m), (map_sum_fmap f m'). f_equal. apply map_eq. intros c. rewrite !lookup_fmap. destruct (H c); cbn; [by f_equal|done].
Qed.
Lemma same_with_totals addr m m' : (∀ c, option_Forall2 same_coin (m !! c) (m' !! c)) → same_balance (with_totals addr m) (with_totals addr m').
Proof.
  intros H. split; [done|exact H|cbn; f_equal..]; apply map_sum_pointwise; intros c; destruct (H c) as [x y [? ? ? ? ? ? ? ? ?]|]; constructor; congruence.
Qed.

Lemma amount_str o : amount (str o) = default 0 o.
Proof. destruct o; [|done]. unfold amount. cbn. by rewrite SetString10_bigString. Qed.
Lemma amount_spent spent unspent received : 0 <= default 0 spent → default 0 received - default 0 unspent = default 0 spent → (received = None → default 0 unspent = 0) →
  amount (spent_ska spent unspent received) = default 0 spent.
Proof.
  unfold spent_ska. intros H0 H Hn. assert (amount match received with Some r => bigString (Z.max 0 (r - default 0 unspent)) | None => "" end = default 0 spent) as E.
  { destruct received as [r|]; cbn in *; [unfold amount; rewrite SetString10_bigString; cbn; lia|]. specialize (Hn eq_refl). cbn. lia. }
  destruct spent as [s|]; [|done]. destruct (Z.ltb_spec 0 s); [|done]. unfold amount. by rewrite SetString10_bigString.
Qed.

Section Agree.
Context (addr : string) (rows : list AddressRow) (gs : list Group).
Hypothesis matched : matched_rows addr rows.
Hypothesis groups : gs ≡ₚ group_of rows <$> remove_dups (key rows <$> rows).

Lemma gs_csum P f f' : (∀ k, f (group_of rows k) = zsum (f' <$> filter (λ r, key rows r = k) rows)) →
  csum P f gs = csum (λ r, P (group_of rows (key rows r))) f' rows.
Proof. intros Hf. rewrite (csum_perm _ _ _ _ groups). by apply groups_csum. Qed.
Lemma gs_existsb P : existsb P gs = existsb (λ r, P (group_of rows (key rows r))) rows.
Proof. rewrite (existsb_perm _ _ _ groups). apply groups_existsb. Qed.
Lemma gs_osum P f f' : (∀ k, f (group_of rows k) = zsum (f' <$> filter (λ r, key rows r = k) rows)) →
  osum P f gs = osum (λ r, P (group_of rows (key rows r))) f' rows.
Proof. intros Hf. unfold osum. by rewrite gs_existsb, (gs_csum P f f'). Qed.

Lemma spending_matched c r : r ∈ rows → rS c r = rSp c r.
Proof.
  intros Hr. unfold rS, rSp. destruct (IsFunding r) eqn:E; [by rewrite !andb_false_r|].
  pose proof (mr_spending _ _ matched r Hr E). destruct (MatchingTxHash r); [by rewrite andb_true_r|done].
Qed.
Lemma ska_written c r : c ≠ 0 → r ∈ rows → CoinType r = c → r_ska r = r_amt r ∧ 0 <= r_amt r.
Proof.
  intros Hc Hr E. destruct (mr_ska _ _ matched r Hr) as (z & Hz & Es); [by rewrite E|]. unfold r_ska, r_amt, ska_text. rewrite Es. split; [|done].
  assert (SKAValue r ≠ ""%string) as Hne by (intros E0; by rewrite E0 in Es).
  destruct (IsFunding r); [|rewrite decide_False by done]; unfold numeric; rewrite decide_False, Es by done; done.
Qed.
Lemma row_of_csum (Q : AddressRow → bool) c r : rF c r = true ∨ rSp c r = true ∨ rS c r = true ∨ rU c r = true → CoinType r = c.
Proof. unfold rF, rSp, rS, rU. rewrite !andb_true_iff. intuition lia. Qed.

(** What was received is what is unspent and what was spent. *)
Lemma received_split f c : csum (rSp c) f rows = csum (λ r, rF c r && negb (is_nil (MatchingTxHash r))) f rows →
  csum (rF c) f rows = csum (rU c) f rows + csum (rSp c) f rows.
Proof. intros ->. apply (csum_split (rF c) (λ r, is_nil (MatchingTxHash r))). Qed.

Let b := foldl scan_group emptyAcc gs.
Let d := reduce_rows rows.

Lemma ska_sums c : c ≠ 0 →
  skaUnspent b !! c = osum (rU c) r_amt rows ∧ skaReceived b !! c = osum (rF c) r_amt rows ∧ skaSpent b !! c = osum (rSp c) r_amt rows.
Proof.
  intros Hc. destruct (scan_ska gs c) as (Hu & Hr & Hs & _). fold b in Hu, Hr, Hs. rewrite Hu, Hr, Hs. unfold non_var. rewrite (proj2 (Z.eqb_neq _ _) Hc).
  assert (∀ P Q, (∀ r, r ∈ rows → P r = Q r) → (∀ r, r ∈ rows → Q r = true → CoinType r = c) → osum P r_ska rows = osum Q r_amt rows) as Ho.
  { intros P Q H1 H2. unfold osum. rewrite (existsb_ext P Q) by done. rewrite (csum_ext P Q r_ska r_amt); [done|]. intros r Hin. split; [auto|].
    intros HP. rewrite H1 in HP by done. destruct (ska_written c r) as [-> _]; auto. }
  rewrite !(gs_osum _ g_ska r_ska) by apply g_ska_group.
  split_and!; apply Ho; intros r Hin; try done; try (intros H; apply (row_of_csum (λ _, true)); tauto). by apply spending_matched.
Qed.

Lemma same_coins c : option_Forall2 same_coin (map_imap (λ c cb, Some (reduce_coin d c cb)) (rd_coins d) !! c)
  (map_imap (λ c cb, Some (finish_coin b c cb)) (ba_coins b) !! c).
Proof.
  rewrite !map_lookup_imap. pose proof (mr_valid _ _ matched) as Hv. unfold d at 2, b at 2. rewrite reduce_coin_sums, scan_coin, gs_existsb by done.
  change (existsb (λ r, g_coinType (group_of rows (key rows r)) =? c) rows) with (existsb (λ r, CoinType r =? c) rows).
  destruct (existsb (λ r, CoinType r =? c) rows) eqn:He; [|constructor]. cbn [mbind option_bind]. constructor.
  assert (0 <= c) as Hc0. { apply existsb_exists in He as (r & Hr & <-%Z.eqb_eq). eapply (mr_coin _ _ matched). by apply list_elem_of_In. }
  assert (∀ f f', (∀ k, f (group_of rows k) = zsum (f' <$> filter (λ r, key rows r = k) rows)) →
    csum (gS c) f gs = csum (rSp c) f' rows ∧ csum (gU c) f gs = csum (rU c) f' rows) as Hg.
  { intros f f' Hf. rewrite !(gs_csum _ f f') by done. split; apply csum_ext; intros r Hr; [|done]. split; [|done]. by apply spending_matched. }
  destruct (Hg _ _ (g_count_group rows)) as [-> ->]. destruct (Hg _ _ (g_total_group rows)) as [-> ->].
  destruct (reduce_sums rows c Hv) as (R1 & R2 & R3 & R4). fold d in R1, R2, R3, R4.
  unfold reduce_coin, finish_coin. destruct (Z.ltb_spec 0 c) as [Hpos|Hle].
  - destruct (ska_sums c) as (Su & Sr & Ss); [lia|]. rewrite Su, Sr, Ss, R3, R4. unfold sums_coin, non_var, var. rewrite (proj2 (Z.eqb_neq c 0)) by lia.
    pose proof (received_split r_amt c (mr_ska_sums _ _ matched c ltac:(lia))) as Hsplit.
    rewrite <- (default_osum (rF c)), <- (default_osum (rU c)), <- (default_osum (rSp c)) in Hsplit.
    split; cbn [cb_CoinType cb_NumSpent cb_NumUnspent cb_TotalSpent cb_TotalUnspent cb_TotalReceived cb_TotalSpentSKA cb_TotalUnspentSKA cb_TotalReceivedSKA]; try done.
    + rewrite amount_str, amount_spent; [done| |lia|].
      * rewrite default_osum. apply csum_nonneg. intros r Hr HP. eapply (ska_written c); [lia|done|]. apply (row_of_csum (λ _, true)). tauto.
      * intros Hn. unfold osum in Hn. destruct (existsb (rF c) rows) eqn:Ef; [done|]. rewrite default_osum. eapply csum_none; [exact Ef|].
        unfold rU, rF. intros r. rewrite !andb_true_iff. tauto.
    + rewrite amount_str. destruct (Z.eqb_spec (default 0 (osum (rF c) r_amt rows) - default 0 (osum (rSp c) r_amt rows)) 0); [cbn; lia|].
      unfold amount. rewrite SetString10_bigString. cbn. lia.
  - assert (c = 0) as -> by lia. cbn [Z.eqb]. rewrite R1, R2. destruct (scan_ska gs 0) as (_ & _ & _ & Hrecv). fold b in Hrecv. rewrite Hrecv.
    rewrite (gs_csum (gF 0) g_total Value) by apply g_total_group.
    change (csum (λ r, gF 0 (group_of rows (key rows r))) Value rows) with (csum (rF 0) Value rows).
    split; cbn; try done. unfold i64. rewrite wrap_s_sub_idemp by lia. f_equal.
    rewrite (received_split Value 0 (mr_var_sums _ _ matched)). lia.
Qed.
End Agree.

(** C12: The two balances agree: for an address whose spending rows are matched by
    as much funding, the balance that is computed from all rows of the address
    and the one computed from the groups of the query, in whatever order they
    come, have the same counts and amounts for the same coins. *)
Theorem balances_agree addr rows gs bal : matched_rows addr rows → rows ≠ [] →
  gs ≡ₚ group_of rows <$> remove_dups (key rows <$> rows) → retrieveAddressBalance (Some gs) addr = Ok bal →
  ∃ info from to, ReduceAddressHistory rows = (Some info, from, to) ∧ same_balance (ai_Balance info) bal.
Proof.
  intros Hm Hne Hg Hbal. unfold retrieveAddressBalance in Hbal. destruct (forallb scans gs); [|done]. injection Hbal as <-.
  destruct rows as [|r0 rows]; [done|]. do 3 eexists. split; [reflexivity|]. cbn [ai_Balance]. unfold reduced_balance, balance_of_groups.
  rewrite (mr_address _ _ Hm r0) by by left. apply same_with_totals. intros c. by apply (same_coins addr).
Qed.
End Balance.

(** ** Concrete instances *)
Module Witness.
#[local] Instance types : StakeTypes := {| stSStx := 1; stSSGen := 2; stSSRtx := 3; stSSFee := 7 |}.
Definition row (h : Z) (match_ : option Hash) (funding : bool) (ty c v : Z) (ska : string) : AddressRow :=
  mkRow "a" true match_ funding (NewTimeDefFromUNIX 5) [h] 0 v 0 0 ty 0 0 c ska.
(** A spent and an unspent output of VAR, the second a stake fee, and one of SKA. *)
Definition rows : list AddressRow :=
  [row 1 (Some [2]) true 0 0 100 ""; row 2 (Some [1]) false 0 0 100 ""; row 3 None true SSFeePoS 0 50 ""; row 4 None true 0 1 0 "7"].
Definition groups : list Group := default [] (SelectAddressSpentUnspentCountAndValue (λ _, None) rows).
Definition bal : AddressBalance := match retrieveAddressBalance (Some groups) "a" with Ok b => b | _ => with_totals "" ∅ end.

Lemma rows_matched : matched_rows "a" rows.
Proof.
  assert (Forall (λ r, Address r = "a"%string ∧ ValidMainChain r = true ∧ 0 <= CoinType r ∧ (IsFunding r = false → MatchingTxHash r ≠ None) ∧
    (CoinType r ≠ 0 → ∃ z, 0 <= z ∧ SetString10 (SKAValue r) = Some z)) rows) as H.
  { repeat (apply Forall_cons_2); [..|constructor]; cbn; split_and!; try done; try lia. intros _. by exists 7. }
  rewrite Forall_forall in H. split; unfold valid_rows; intros; try (by eapply H); [reflexivity|]. unfold rows, rSp, rF. rewrite !csum_cons. cbn. rewrite !andb_false_r. by destruct c.
Qed.

Lemma balances_agree_witness : ∃ info from to, ReduceAddressHistory rows = (Some info, from, to) ∧ same_balance (ai_Balance info) bal.
Proof.
  apply (balances_agree (λ _, None) "a" rows groups bal rows_matched); [discriminate|reflexivity|]. vm_compute. reflexivity.
Defined.

(** The fractions do not agree: the unspent output came from stake. *)
Lemma stake_fraction_lost : match (ReduceAddressHistory rows).1.1 with Some info =>
  cb_FromStake <$> b_Coins (ai_Balance info) !! 0 = Some 0 ∧ cb_FromStake <$> b_Coins bal !! 0 = Some (ratio 50 150) | None => False end.
Proof. vm_compute. by split. Qed.
End Witness.
