(* ===== verification/AddrHistory.v ===== *)
(** * Queries of an address (db/dcrpg/pgblockchain.go)

    AddressBalance, AddressHistory and the queries of the rows of an address:
    each looks into the address cache, and else takes the lock of the address,
    queries the database and stores the result.  Requests run concurrently with
    each other and with the storing of blocks, so a request is a process: a tree
    of atomic actions on the shared state, of which a scheduler runs one at a
    time.

    The theorems: run alone, a request returns the page of the rows of the
    database, cached or not; run concurrently, what is cached and returned is
    what the database had at some time; and it need not be what it has, since
    rows that were read before a block is stored may be cached after it. *)
From stdpp Require Import gmap strings.
From S2P Require Import Prelude AddressRows AddressCache Locks AddrBalance.
Open Scope Z_scope.

(** The table of addresses: its rows for an address (of the main chain, in
    order of time, at most three million), the groups for the balance, and the
    counts of the views. *)
Class AddrDB := {
  ADB : Type;
  SelectAddressRows : string → ADB → option (list AddressRow);
  SelectBalanceGroups : string → ADB → option (list Group);
  CountMerged : string → AddrTxnViewType → Z → ADB → option Z;
  CountRows : string → option Z → ADB → option Z;
  DecodeAddress : string → bool;
  rows_valid addr d l : SelectAddressRows addr d = Some l → Forall (λ r, ValidMainChain r = true ∧ MergedCount r = 0) l;
  rows_limit addr d l : SelectAddressRows addr d = Some l → zlen l <= 3000000
}.

Inductive AddrErr :=
| EDecode | EQuery | EBalance (e : BalErr) | ERetry | ECache (e : CacheErr) | ESlice (e : RowErr) | EReduce | EView.

Section Queries.
Context {st : StakeTypes} {adb : AddrDB} {R : RangeOrder string AddressCacheItem}.

Record World := mkWorld { w_db : ADB; w_best : Hash * Z; w_cache : AddressCache; w_rows : CacheLock.CacheLock; w_bal : CacheLock.CacheLock }.
Definition set_cache (c : AddressCache) (w : World) : World := mkWorld (w_db w) (w_best w) c (w_rows w) (w_bal w).

(** ** Processes

    An action that returns [None] is blocked. *)
Inductive proc (A : Type) :=
| Done (r : res AddrErr A)
| Act (X : Type) (f : World → option (X * World)) (k : X → proc A).
Arguments Done {A} r.
Arguments Act {A X} f k.

Definition stop {A B} (r : res AddrErr A) (k : A → proc B) : proc B :=
  match r with Ok a => k a | Err e => Done (Err e) | Panic => Done Panic | NoFuel => Done NoFuel end.
Fixpoint pbind {A B} (k : A → proc B) (p : proc A) : proc B :=
  match p with Done r => stop r k | Act f p => Act f (λ x, pbind k (p x)) end.
#[local] Instance proc_ret : MRet proc := λ A a, Done (Ok a).
#[local] Instance proc_bind : MBind proc := λ A B k p, pbind k p.
Definition raise {A} (e : AddrErr) : proc A := Done (Err e).

(** The error as a value. *)
Fixpoint ptry {A} (p : proc A) : proc (A + AddrErr) :=
  match p with
  | Done (Err e) => Done (Ok (inr e))
  | Done r => stop r (λ a, Done (Ok (inl a)))
  | Act f p => Act f (λ x, ptry (p x))
  end.

Definition look {A} (f : World → A) : proc A := Act (λ w, Some (f w, w)) (λ x, Done (Ok x)).
Definition lift_cache {A} (r : res CacheErr A) : res AddrErr A :=
  match r with Ok a => Ok a | Err e => Err (ECache e) | Panic => Panic | NoFuel => NoFuel end.
(** The methods of the cache are atomic. *)
Definition on_cache {A} (m : AC A) : proc A := Act (λ w, let '(r, c) := m (w_cache w) in Some (lift_cache r, set_cache c w)) Done.

(** *** Locks: one of the rows and one of the balance of an address *)
Inductive which := LRows | LBal.
Definition lock_of (l : which) (w : World) : CacheLock.CacheLock := match l with LRows => w_rows w | LBal => w_bal w end.
Definition set_lock (l : which) (c : CacheLock.CacheLock) (w : World) : World :=
  match l with
  | LRows => mkWorld (w_db w) (w_best w) (w_cache w) c (w_bal w)
  | LBal => mkWorld (w_db w) (w_best w) (w_cache w) (w_rows w) c
  end.
(** The channel to wait for, or the one to close. *)
Definition try_lock (l : which) (addr : string) : proc (nat + nat) := Act (λ w,
  match CacheLock.TryLock addr (lock_of l w) with
  | (true, Some ch, _, c) => Some (inl ch, set_lock l c w)
  | (_, _, Some ch, c) => Some (inr ch, set_lock l c w)
  | _ => None
  end) (λ x, Done (Ok x)).
Definition wait (l : which) (ch : nat) : proc unit := Act (λ w,
  if decide (ch ∈ closed (CacheLock.cs (lock_of l w))) then Some (tt, w) else None) (λ x, Done (Ok x)).
Definition release (l : which) (addr : string) (ch : nat) : proc unit :=
  Act (λ w, Some (tt, set_lock l (CacheLock.done addr (lock_of l w)) w)) (λ _,
    Act (λ w, match CacheLock.close ch (lock_of l w) with
              | Some c => Some (Ok tt, set_lock l c w)
              | None => Some (Panic, w)
              end) Done).

(** ** The balance *)
Fixpoint pg_AddressBalance (fuel : nat) (address : string) : proc (AddressBalance * bool) :=
  match fuel with
  | O => Done NoFuel
  | S fuel =>
    if negb (DecodeAddress address) then raise EDecode else
    best ← look w_best;
    '(bal, validBlock) ← on_cache (Balance address);
    match bal, validBlock with
    | Some bal, Some _ => mret (bal, false)
    | _, _ =>
      l ← try_lock LBal address;
      match l with
      | inl ch => wait LBal ch ≫= λ _, pg_AddressBalance fuel address
      | inr ch =>
        r ← look (λ w, retrieveAddressBalance (SelectBalanceGroups address (w_db w)) address);
        match r with
        | Ok bal =>
          updated ← on_cache (StoreBalance address (Some bal) (Some (NewBlockID best.1 best.2)));
          release LBal address ch ≫= λ _, mret (bal, updated)
        | Err e => release LBal address ch ≫= λ _, raise (EBalance e)
        | Panic => Done Panic
        | NoFuel => Done NoFuel
        end
      end
    end
  end.

(** ** The rows *)
(** The rows and the error. *)
Definition updateAddressRows (address : string) : proc (option (list AddressRow) * option AddrErr) :=
  l ← try_lock LRows address;
  match l with
  | inl ch => wait LRows ch ≫= λ _, mret (None, Some ERetry)
  | inr ch =>
    on_cache (ClearRows address) ≫= λ _,
    best ← look w_best;
    r ← look (λ w, SelectAddressRows address (w_db w));
    match r with
    | None => release LRows address ch ≫= λ _, mret (None, Some EQuery)
    | Some rows =>
      on_cache (StoreRows address (nil_if_empty rows) (Some (NewBlockID best.1 best.2))) ≫= λ _,
      release LRows address ch ≫= λ _, mret (nil_if_empty rows, None)
    end
  end.

Definition lift_row {A} (r : res RowErr A) : proc A :=
  match r with Ok a => mret a | Err e => raise (ESlice e) | Panic => Done Panic | NoFuel => Done NoFuel end.

(** The cached rows are those of VAR, coin type 0. *)
Fixpoint AddressRowsMerged (fuel : nat) (address : string) : proc (list AddressRowMerged) :=
  match fuel with
  | O => Done NoFuel
  | S fuel =>
    if negb (DecodeAddress address) then raise EDecode else
    '(rowsCompact, validBlock) ← on_cache (Rows address 0);
    match rowsCompact, validBlock with
    | Some rowsCompact, Some _ => lift_row (MergeRows rowsCompact)
    | _, _ =>
      '(rows, err) ← updateAddressRows address;
      match err with
      | Some ERetry => AddressRowsMerged fuel address
      | Some e => raise e
      | None => lift_row (MergeRows (default [] rows))
      end
    end
  end.

Fixpoint AddressRowsCompact_ (fuel : nat) (address : string) (coinType : Z) : proc (option (list AddressRowCompact)) :=
  match fuel with
  | O => Done NoFuel
  | S fuel =>
    if negb (DecodeAddress address) then raise EDecode else
    '(rowsCompact, validBlock) ← on_cache (Rows address coinType);
    match rowsCompact, validBlock with
    | Some rowsCompact, Some _ => mret (Some rowsCompact)
    | _, _ =>
      '(rows, err) ← updateAddressRows address;
      match err with
      | Some ERetry => AddressRowsCompact_ fuel address coinType
      | Some e => raise e
      | None =>
        let compact := CompactRows (default [] rows) in
        if coinType =? CoinTypeAll then mret (Some compact)
        else mret (nil_if_empty (List.filter (λ r, c_CoinType r =? coinType) compact))
      end
    end
  end.

(** ** Counts *)
Definition retrieveMergedTxnCount (addr : string) (txnView : AddrTxnViewType) (coinType : Z) : proc Z :=
  match txnView with
  | AddrMergedTxnDebit | AddrMergedTxnCredit | AddrMergedTxn =>
    r ← look (λ w, CountMerged addr txnView coinType (w_db w)); match r with Some n => mret n | None => raise EQuery end
  | _ => raise EView
  end.
Definition mergedTxnCount (addr : string) (txnView : AddrTxnViewType) (coinType : Z) : proc Z :=
  '(rows, blockID) ← on_cache (Rows addr coinType);
  match blockID with
  | None => retrieveMergedTxnCount addr txnView coinType
  | Some _ => lift_row (CountMergedRows (default [] rows) txnView)
  end.

Definition num_spent (bal : AddressBalance) (coinType : Z) : Z :=
  if coinType =? CoinTypeAll then i64 (map_sum cb_NumSpent (b_Coins bal)) else from_option cb_NumSpent 0 (b_Coins bal !! coinType).

Definition nonMergedTxnCount (fuel : nat) (addr : string) (txnView : AddrTxnViewType) (coinType : Z) : proc Z :=
  r ← look (λ w, CountRows addr (if coinType =? CoinTypeAll then None else Some coinType) (w_db w));
  match r with
  | None => raise EQuery
  | Some count =>
    match txnView with
    | AddrTxnAll | AddrTxnCredit => mret count
    | AddrTxnDebit =>
      b ← ptry (pg_AddressBalance fuel addr);
      match b with inl (bal, _) => mret (num_spent bal coinType) | inr _ => mret count end
    | _ => raise EView
    end
  end.

Definition CountTransactions (fuel : nat) (addr : string) (txnView : AddrTxnViewType) (coinType : Z) : proc Z :=
  if negb (DecodeAddress addr) then raise EDecode else
  match IsMergedView txnView with
  | None => raise EView
  | Some true => mergedTxnCount addr txnView coinType
  | Some false => nonMergedTxnCount fuel addr txnView coinType
  end.

(** ** AddressHistory *)
Definition emptyBalance (address : string) : AddressBalance := mkBal address ∅ 0 0.
Definition set_address (address : string) (b : AddressBalance) : AddressBalance := mkBal address (b_Coins b) (b_TotalOutputs b) (b_TotalInputs b).

(** A failing balance is replaced by an empty one. *)
Definition balance_or_empty (fuel : nat) (address : string) : proc AddressBalance :=
  b ← ptry (pg_AddressBalance fuel address); match b with inl (bal, _) => mret bal | inr _ => mret (emptyBalance address) end.

(** The balance for rows that are present. *)
Definition history_balance (fuel : nat) (address : string) (best : Hash * Z) (rows : option (list AddressRow)) (N offset : Z)
    (txnView : AddrTxnViewType) : proc AddressBalance :=
  '(balance, _) ← on_cache (Balance address);
  match balance with
  | Some balance => mret balance
  | None =>
    let rs := default [] rows in
    if (zlen rs <? N) && (offset =? 0) && bool_decide (txnView = AddrTxnAll) then
      b ← match rs with
          | [] => mret (emptyBalance address)
          | _ => match (ReduceAddressHistory rs).1.1 with
                 | Some info => mret (set_address address (ai_Balance info))
                 | None => raise EReduce
                 end
          end;
      on_cache (StoreBalance address (Some b) (Some (NewBlockID best.1 best.2))) ≫= λ _, mret b
    else balance_or_empty fuel address
  end.

Fixpoint AddressHistory (fuel : nat) (address : string) (N offset : Z) (txnView : AddrTxnViewType) (coinType : Z)
    : proc (option (list AddressRow) * AddressBalance) :=
  match fuel with
  | O => Done NoFuel
  | S fuel =>
    if negb (DecodeAddress address) then raise EDecode else
    if negb (coinType =? CoinTypeAll) then
      '(compact, blockID) ← on_cache (Rows address coinType);
      '(fullRows, err) ← (match blockID with
        | Some _ => mret (UncompactRows compact, None)
        | None => '(allRows, err) ← updateAddressRows address;
                  mret (nil_if_empty (List.filter (λ r, CoinType r =? coinType) (default [] allRows)), err)
        end);
      match err with
      | Some ERetry => AddressHistory fuel address N offset txnView coinType
      | Some e => raise e
      | None =>
        pagedRows ← lift_row (SliceAddressRows fullRows N offset txnView);
        balance ← balance_or_empty (S fuel) address;
        mret (pagedRows, balance)
      end
    else
      best ← look w_best;
      '(addressRows, validBlock) ← on_cache (Transactions address N offset txnView);
      match addressRows, validBlock with
      | Some addressRows, Some _ =>
        b ← history_balance (S fuel) address best (Some addressRows) N offset txnView; mret (Some addressRows, b)
      | _, _ =>
        '(rows, err) ← updateAddressRows address;
        match err with
        | Some ERetry => AddressHistory fuel address N offset txnView CoinTypeAll
        | Some e => raise e
        | None =>
          addressRows ← lift_row (SliceAddressRows rows N offset txnView);
          b ← history_balance (S fuel) address best addressRows N offset txnView; mret (addressRows, b)
        end
      end
  end.

(** ** Requests, the storing of a block, and the scheduler *)
Inductive Request :=
| QBalance (addr : string)
| QMerged (addr : string)
| QCompact (addr : string) (coinType : Z)
| QCount (addr : string) (view : AddrTxnViewType) (coinType : Z)
| QHistory (addr : string) (N offset : Z) (view : AddrTxnViewType) (coinType : Z)
| QStoreBlock (writes : list (ADB → ADB)) (best : Hash * Z) (addrs : list string).
Inductive Reply :=
| RBalance (b : AddressBalance)
| RMerged (rows : list AddressRowMerged)
| RCompact (rows : option (list AddressRowCompact))
| RCount (n : Z)
| RHistory (rows : option (list AddressRow)) (b : AddressBalance)
| RStored.

(** StoreBlock, as far as these queries can see: the statements, the best block,
    and FreshenAddressCaches. *)
Fixpoint write_all (writes : list (ADB → ADB)) : proc unit :=
  match writes with
  | [] => mret tt
  | f :: writes => Act (λ w, Some (tt, mkWorld (f (w_db w)) (w_best w) (w_cache w) (w_rows w) (w_bal w))) (λ _, write_all writes)
  end.
Definition store_block (writes : list (ADB → ADB)) (best : Hash * Z) (addrs : list string) : proc unit :=
  write_all writes ≫= λ _,
  Act (λ w, Some (tt, mkWorld (w_db w) best (w_cache w) (w_rows w) (w_bal w))) (λ _,
  on_cache (Clear (Some addrs)) ≫= λ _, mret tt).

Definition serve (fuel : nat) (q : Request) : proc Reply :=
  match q with
  | QBalance addr => '(b, _) ← pg_AddressBalance fuel addr; mret (RBalance b)
  | QMerged addr => rows ← AddressRowsMerged fuel addr; mret (RMerged rows)
  | QCompact addr ct => rows ← AddressRowsCompact_ fuel addr ct; mret (RCompact rows)
  | QCount addr view ct => n ← CountTransactions fuel addr view ct; mret (RCount n)
  | QHistory addr N offset view ct => '(rows, b) ← AddressHistory fuel addr N offset view ct; mret (RHistory rows b)
  | QStoreBlock writes best addrs => store_block writes best addrs ≫= λ _, mret RStored
  end.

(** The limit of a page is an int64. *)
Definition int64_limit (q : Request) : Prop := match q with QHistory _ N _ _ _ => N <= MaxInt64 | _ => True end.

(** The requests with what is left of them, and the databases there have been. *)
Record Sys := mkSys { world : World; pool : gmap nat (Request * proc Reply); past : list ADB }.

Inductive sched : Sys → Sys → Prop :=
| sched_arrive s t q fuel : pool s !! t = None → int64_limit q → sched s (mkSys (world s) (<[t := (q, serve fuel q)]> (pool s)) (past s))
| sched_act s t q X (f : World → option (X * World)) k x w : pool s !! t = Some (q, Act f k) → f (world s) = Some (x, w) →
    sched s (mkSys w (<[t := (q, k x)]> (pool s)) (w_db w :: past s)).

Definition fresh_world (db : ADB) (best : Hash * Z) (c : AddressCache) : World := mkWorld db best c CacheLock.NewCacheLock CacheLock.NewCacheLock.
Inductive reached_sys (db : ADB) (best : Hash * Z) (rowCap addrCap utxoBytes : Z) : Sys → Prop :=
| reached_start : reached_sys db best rowCap addrCap utxoBytes (mkSys (fresh_world db best (NewAddressCache rowCap addrCap utxoBytes)) ∅ [db])
| reached_step s s' : reached_sys db best rowCap addrCap utxoBytes s → sched s s' → reached_sys db best rowCap addrCap utxoBytes s'.

(** One process alone. *)
Fixpoint prun {A} (p : proc A) (w : World) : option (res AddrErr A * World) :=
  match p with
  | Done r => Some (r, w)
  | Act f k => match f w with None => None | Some (x, w') => prun (k x) w' end
  end.
(** ** What was true of the database

    [H] is a set of databases of the past. *)
Definition was (H : list ADB) (addr : string) (rs : list AddressRowCompact) : Prop :=
  ∃ d l, d ∈ H ∧ SelectAddressRows addr d = Some l ∧ rs = CompactRows l.
(** The balance that AddressHistory computes from all rows. *)
Definition balance_of_rows (addr : string) (rs : list AddressRow) : AddressBalance :=
  match (ReduceAddressHistory rs).1.1 with Some info => set_address addr (ai_Balance info) | None => emptyBalance addr end.
Definition was_balance (H : list ADB) (addr : string) (b : AddressBalance) : Prop :=
  (∃ d, d ∈ H ∧ retrieveAddressBalance (SelectBalanceGroups addr d) addr = Ok b) ∨
  ∃ rs, was H addr (CompactRows rs) ∧ b = balance_of_rows addr rs.

Definition item_ok (H : list ADB) (addr : string) (it : AddressCacheItem) : Prop :=
  (∀ rs, rows it = Some rs → was H addr rs) ∧ (∀ b, balance it = Some b → was_balance H addr b).
Definition world_ok (H : list ADB) (w : World) : Prop := w_db w ∈ H ∧ good (item_ok H) (w_cache w).

Lemma was_mono H H' addr rs : H ⊆ H' → was H addr rs → was H' addr rs.
Proof. intros Hs (d & l & Hd & E). exists d, l. split; [by apply Hs|done]. Qed.
Lemma was_balance_mono H H' addr b : H ⊆ H' → was_balance H addr b → was_balance H' addr b.
Proof.
  intros Hs [(d & Hd & E)|(rs & Hw & E)]; [left; exists d; split; [by apply Hs|done]|right; exists rs; split; [by eapply was_mono|done]].
Qed.
Lemma item_ok_mono H H' addr it : H ⊆ H' → item_ok H addr it → item_ok H' addr it.
Proof. intros Hs [Hr Hb]. split; intros; [eapply was_mono; eauto|eapply was_balance_mono; eauto]. Qed.
Lemma good_mono H H' c : H ⊆ H' → good (item_ok H) c → good (item_ok H') c.
Proof. intros Hs [Hz Hi]. split; [done|]. intros k it Hk. eapply item_ok_mono; [done|by apply Hi]. Qed.

(** ** A logic of processes

    [safe Q p H]: whatever the others do between the actions of [p], as long
    as they keep the invariant, so does [p], and it ends with [Q]. *)
Fixpoint safe {A} (Q : A → list ADB → Prop) (p : proc A) (H : list ADB) : Prop :=
  match p with
  | Done r => ∀ a, r = Ok a → Q a H
  | Act f k => ∀ H' w x w', H ⊆ H' → world_ok H' w → f w = Some (x, w') → world_ok (w_db w' :: H') w' ∧ safe Q (k x) (w_db w' :: H')
  end.

Lemma safe_mono {A} (Q : A → list ADB → Prop) (p : proc A) H H' :
  (∀ a H H', H ⊆ H' → Q a H → Q a H') → H ⊆ H' → safe Q p H → safe Q p H'.
Proof.
  intros HQ Hs. destruct p as [r|X f k]; cbn; [intros Hp a Ha; eapply HQ; eauto|].
  intros Hp H2 w x w' Hs2. apply Hp. by etrans.
Qed.
Lemma proc_bind_safe {A B} (Q : A → list ADB → Prop) (Q2 : B → list ADB → Prop) (p : proc A) (k : A → proc B) : ∀ H,
  safe Q p H → (∀ a H', H ⊆ H' → Q a H' → safe Q2 (k a) H') → safe Q2 (p ≫= k) H.
Proof.
  unfold mbind, proc_bind. induction p as [r|X f p IH]; intros H Hp Hk.
  - cbn in *. destruct r as [a|e| |]; [by apply Hk; [|apply Hp]|by intros ? ?..].
  - intros H' w x w' Hs Hw Hf. destruct (Hp H' w x w' Hs Hw Hf) as [Hw' Hx]. split; [done|].
    apply IH; [done|]. intros a H2 Hs2. apply Hk. etrans; [exact Hs|]. etrans; [|exact Hs2]. by apply list_subseteq_skip || (intros y Hy; by right).
Qed.
Lemma proc_ret_safe {A} (Q : A → list ADB → Prop) a H : Q a H → safe Q (mret a) H.
Proof. intros HQ b [= <-]. done. Qed.
Lemma safe_raise {A} (Q : A → list ADB → Prop) e H : safe Q (raise e) H.
Proof. by intros ? ?. Qed.
Lemma safe_lift_row {A} (Q : A → list ADB → Prop) (r : res RowErr A) H : (∀ a, r = Ok a → Q a H) → safe Q (lift_row r) H.
Proof. intros HQ. destruct r; cbn; try by intros ? ?. intros b [= <-]. by apply HQ. Qed.
Lemma safe_try {A} (Q : A → list ADB → Prop) (p : proc A) : ∀ H,
  safe Q p H → safe (λ r H, match r with inl a => Q a H | inr _ => True end) (ptry p) H.
Proof.
  induction p as [r|X f p IH]; intros H Hp.
  - destruct r as [a|e| |]; cbn; intros b; try done; intros [= <-]; [by apply Hp|done].
  - intros H' w x w' Hs Hw Hf. destruct (Hp H' w x w' Hs Hw Hf) as [Hw' Hx]. split; [done|]. by apply IH.
Qed.
Lemma world_ok_cons H w : world_ok H w → world_ok (w_db w :: H) w.
Proof. intros [Hd Hg]. split; [by left|]. eapply good_mono; [|done]. intros y Hy. by right. Qed.
Lemma safe_look {A} (f : World → A) H : safe (λ x H, ∃ w, x = f w ∧ world_ok H w) (look f) H.
Proof.
  intros H' w x w' Hs Hw [= <- <-]. split; [by apply world_ok_cons|]. intros ? [= <-]. exists w. split; [done|by apply world_ok_cons].
Qed.
(** An action on a lock. *)
Lemma safe_lock l {A B} (f : World → option (A * World)) (k : A → proc B) (Q : B → list ADB → Prop) H :
  (∀ w x w', f w = Some (x, w') → ∃ c, w' = set_lock l c w) → (∀ x H', H ⊆ H' → safe Q (k x) H') → safe Q (Act f k) H.
Proof.
  intros Hf Hk H' w x w' Hs [Hd Hg] E. destruct (Hf _ _ _ E) as [c ->].
  assert (w_db (set_lock l c w) = w_db w ∧ w_cache (set_lock l c w) = w_cache w) as [-> Ec] by by destruct l.
  split; [split; [destruct l; by left|]|apply Hk; etrans; [exact Hs|]; intros y Hy; by right].
  rewrite Ec. eapply good_mono; [|exact Hg]. intros y Hy. by right.
Qed.
Lemma set_lock_id l w : set_lock l (lock_of l w) w = w.
Proof. by destruct l, w. Qed.
Lemma safe_try_lock l addr H : safe (λ _ _, True) (try_lock l addr) H.
Proof.
  apply (safe_lock l); [|by intros ? ? ? ? ?]. intros w x w' E. destruct (CacheLock.TryLock addr (lock_of l w)) as [[[[] [ch|]] [ch'|]] c];
    injection E as <- <- || discriminate; by exists c.
Qed.
Lemma safe_wait l ch H : safe (λ _ _, True) (wait l ch) H.
Proof.
  apply (safe_lock l); [|by intros ? ? ? ? ?]. intros w x w' E. destruct (decide _); [|done]. injection E as <- <-. exists (lock_of l w). by rewrite set_lock_id.
Qed.
Lemma safe_release l addr ch H : safe (λ _ _, True) (release l addr ch) H.
Proof.
  apply (safe_lock l); [intros w x w' [= <- <-]; by eexists|]. intros _ H' _. apply (safe_lock l); [|by intros ? ? ? ? ?].
  intros w x w' E. destruct (CacheLock.close ch (lock_of l w)) as [c|]; injection E as <- <-; [by exists c|]. exists (lock_of l w). by rewrite set_lock_id.
Qed.
(** A call of the cache, with what its result is. *)
Lemma safe_cache {A} (m : AC A) (Q : A → list ADB → Prop) H :
  (∀ H' c, H ⊆ H' → good (item_ok H') c → keeps (item_ok H') m c) →
  (∀ H' c a, H ⊆ H' → good (item_ok H') c → (m c).1 = Ok a → Q a H') → (∀ a H H', H ⊆ H' → Q a H → Q a H') →
  safe Q (on_cache m) H.
Proof.
  intros Hk HQ Hmono H' w x w' Hs [Hd Hg] E. destruct (m (w_cache w)) as [r c] eqn:Em. injection E as <- <-.
  destruct (Hk H' (w_cache w) Hs Hg Hg) as (Hg' & _). rewrite Em in Hg'. cbn [snd w_db set_cache] in *.
  assert (H' ⊆ w_db w :: H') as Hc by (intros y Hy; by right).
  split; [split; [by left|by eapply good_mono]|]. intros a Ha. apply (Hmono a H'); [done|]. apply (HQ H' (w_cache w)); [done..|].
  rewrite Em. destruct r; try discriminate Ha. injection Ha as ->. done.
Qed.

(** ** What the calls of the cache return *)
Lemma keeps_here {A} (m : AC A) I c : keeps I m c → good I c → good I (m c).2.
Proof. intros Hk Hg. by destruct (Hk Hg). Qed.

Lemma Balance_was H addr c b blk : good (item_ok H) c → (Balance addr c).1 = Ok (Some b, blk) → was_balance H addr b.
Proof.
  intros [_ Hi] E. unfold Balance, addressCacheItem in E. rewrite bind_gets in E. destruct (a c !! addr) as [it|] eqn:Ea; [|done].
  cbn in E. unfold item_Balance in E. destruct (balance it) as [b'|] eqn:Eb; [|done]. injection E as -> _. by apply (Hi addr it).
Qed.

(** The rows of a coin. *)
Definition of_coin_type (ct : Z) (rs : list AddressRowCompact) : list AddressRowCompact :=
  if ct =? CoinTypeAll then rs else List.filter (λ r, c_CoinType r =? ct) rs.

Lemma nil_if_empty_default {A} (l : list A) : default [] (nil_if_empty l) = l.
Proof. by destruct l. Qed.

Lemma Rows_was H addr ct c o blk : good (item_ok H) c → (Rows addr ct c).1 = Ok (o, Some blk) →
  ∃ rs, was H addr rs ∧ default [] o = of_coin_type ct rs.
Proof.
  intros [_ Hi] E. unfold Rows, addressCacheItem in E. rewrite bind_gets in E. destruct (a c !! addr) as [it|] eqn:Ea; [|done].
  unfold item_Rows in E. destruct (rows it) as [rs|] eqn:Er; [|done]. exists rs. split; [by apply (Hi addr it)|].
  unfold of_coin_type. cbn in E. destruct (ct =? CoinTypeAll); cbn in E; injection E as <- _; [done|]. by apply nil_if_empty_default.
Qed.

(** *** Pages of the all, credit and debit view *)
Definition plain_view (view : AddrTxnViewType) : option (AddressRowCompact → bool) :=
  match view with
  | AddrTxnAll => Some (λ _, true)
  | AddrTxnCredit => Some c_IsFunding
  | AddrTxnDebit => Some (λ r, negb (c_IsFunding r))
  | _ => None
  end.

Lemma CompactRows_page keep keepc rs N offset : (∀ r, keep r = keepc (CompactRow r)) →
  CompactRows (page keep rs N offset) = page keepc (CompactRows rs) N offset.
Proof.
  intros Hk. unfold page, CompactRows. rewrite fmap_take, fmap_drop. do 2 f_equal.
  induction rs as [|r rs IH]; [done|]. cbn [List.filter fmap list_fmap]. rewrite <- Hk. destruct (keep r); cbn; by rewrite IH.
Qed.
Lemma view_keep_compact view keep : view_keep view = Some keep → ∃ keepc, plain_view view = Some keepc ∧ ∀ r, keep r = keepc (CompactRow r).
Proof. destruct view; try done; intros [= <-]; by eexists. Qed.
Lemma plain_keep view keepc : plain_view view = Some keepc → ∃ keep, view_keep view = Some keep ∧ ∀ r, keep r = keepc (CompactRow r).
Proof. destruct view; try done; intros [= <-]; by eexists. Qed.

Lemma Slice_page rs N offset view keepc o : plain_view view = Some keepc → offset + N <= MaxInt64 → zlen rs <= 3000000 →
  SliceAddressRows (nil_if_empty rs) N offset view = Ok o → CompactRows (default [] o) = page keepc (CompactRows rs) N offset.
Proof.
  intros Hp Hmax Hlen E. destruct (plain_keep _ _ Hp) as (keep & Hv & Hk).
  assert (0 <= N ∧ 0 <= offset) as [HN Hoff].
  { unfold SliceAddressRows in E. destruct (Z.ltb_spec offset 0), (Z.ltb_spec N 0); try discriminate E; lia. }
  destruct rs as [|r rs].
  - cbn in E. unfold SliceAddressRows in E. destruct (_ || _); [done|]. cbn in E. rewrite orb_true_r in E. cbn in E. injection E as <-.
    unfold page. cbn. by rewrite drop_nil, take_nil.
  - cbn [nil_if_empty] in E. destruct (SliceAddressRows_page (r :: rs) N offset view keep Hv HN Hoff Hmax ltac:(lia)) as (o' & E' & Ho').
    rewrite E in E'. injection E' as <-. rewrite Ho'. by apply CompactRows_page.
Qed.

(** *** Pages of every view

    The merged views show the transactions, in order of their first row; the
    unspent view is the page of the unspent credits when it is served from the
    cache, and else a page of all credits. *)
Definition merged_page (wrong : bool → bool) (rs : list AddressRowCompact) (N offset : Z) : list AddressRow :=
  UncompactMergedRow <$> take (Z.to_nat N) (merged_by_tx (skip_distinct (Z.to_nat offset) ∅ (right_rows wrong rs))).
Definition unspent_page (rs : list AddressRowCompact) (N offset : Z) : list AddressRowCompact :=
  let n := zlen (List.filter (λ r, c_IsFunding r && bool_decide (c_MatchingTxHash r = None)) rs) in
  if n <=? offset then [] else page c_IsFunding rs (Z.min n N) offset.
Definition view_page (view : AddrTxnViewType) (rs : list AddressRowCompact) (N offset : Z) (o : list AddressRow) : Prop :=
  match plain_view view, wrongDirection view with
  | Some keepc, _ => CompactRows o = page keepc rs N offset
  | None, Some wrong => o = merged_page wrong rs N offset
  | None, None =>
    if decide (view = AddrUnspentTxn) then CompactRows o = page unspentCompact rs N offset ∨ CompactRows o = unspent_page rs N offset
    else o = []
  end.

Lemma skip_distinct_all {A} `{TxRow A} (rs : list A) : ∀ k seen, (length rs <= k)%nat → skip_distinct k seen rs = [].
Proof.
  induction rs as [|r rs IH]; intros [|k] seen Hk; cbn in *; try done; [lia|]. case_decide; apply IH; lia.
Qed.
Lemma merged_page_past wrong rs N offset : N = 0 ∨ zlen rs <= offset → merged_page wrong rs N offset = [].
Proof.
  unfold merged_page. intros [->|H]; [done|]. rewrite skip_distinct_all; [change (merged_by_tx _) with (@nil AddressRowMerged); by rewrite take_nil|].
  pose proof (length_filter_le (λ r : AddressRowCompact, negb (wrong (r_IsFunding r))) rs) as Hl. unfold right_rows, zlen in *. lia.
Qed.
Lemma page_past {A} (keep : A → bool) rs N offset : N = 0 ∨ zlen rs <= offset → page keep rs N offset = [].
Proof.
  unfold page. intros [->|H]; [done|]. pose proof (length_filter_le keep rs). unfold zlen in *. rewrite drop_ge by lia. by rewrite take_nil.
Qed.
Lemma view_page_past view rs N offset : N = 0 ∨ zlen rs <= offset → view_page view rs N offset [].
Proof.
  intros H. unfold view_page. destruct (plain_view view) as [keepc|]; [by rewrite page_past|].
  destruct (wrongDirection view) as [wrong|]; [by rewrite merged_page_past|]. case_decide; [left; by rewrite page_past|done].
Qed.

Lemma range_loop_compact wrong N offset rs : Forall (λ r, r_Merged r = false) rs → ∀ sk seen ms,
  MergeRowsRange_loop wrong N offset (CompactRows rs) sk seen ms = MergeRowsRange_loop wrong N offset rs sk seen ms.
Proof.
  intros Hm. induction Hm as [|r rs Hr _ IH]; intros sk seen ms; [done|].
  cbn [CompactRows fmap list_fmap MergeRowsRange_loop]. rewrite Hr. cbn [r_Merged AddressRowCompact_TxRow].
  change (r_TxHash (CompactRow r)) with (r_TxHash r). change (r_IsFunding (CompactRow r)) with (r_IsFunding r).
  destruct (wrong _); [apply IH|]. destruct (hashMap ms !! r_TxHash r); [apply IH|]. destruct (_ =? N); [apply IH|].
  destruct (sk <? offset); [|apply IH]. case_decide; apply IH.
Qed.
Lemma range_body_compact wrong N offset rs : Forall (λ r, r_Merged r = false) rs →
  MergeRowsRange_body wrong rs N offset = MergeRowsRange_body wrong (CompactRows rs) N offset.
Proof.
  intros Hm. unfold MergeRowsRange_body. rewrite range_loop_compact by done.
  assert (zlen (CompactRows rs) = zlen rs) as -> by (unfold zlen, CompactRows; by rewrite length_fmap). done.
Qed.
Lemma range_body_page wrong rs N offset ms : 0 <= N → 0 <= offset → MergeRowsRange_body wrong rs N offset = Ok ms →
  UncompactMergedRow <$> ms = merged_page wrong rs N offset.
Proof.
  intros HN Hoff E. pose proof E as E'. unfold MergeRowsRange_body in E'. destruct ((N =? 0) || (zlen rs =? 0)) eqn:E0.
  - injection E' as <-. rewrite merged_page_past; [done|]. rewrite orb_true_iff, !Z.eqb_eq in E0. destruct E0; [by left|right; lia].
  - destruct (cap_ok N) eqn:Hc; [|discriminate E']. rewrite MergeRowsRange_body_spec in E; [by injection E as <-|done..|by apply Forall_true].
Qed.

Lemma slice_unspent rs N offset o : 0 < N → 0 <= offset → offset < zlen rs → zlen rs <= 3000000 →
  SliceAddressUnspentCreditRows (Some rs) N offset = Ok o → CompactRows (default [] o) = unspent_page (CompactRows rs) N offset.
Proof.
  intros HN Hoff Hlt Hlen E. unfold SliceAddressUnspentCreditRows, slice_matching in E. rewrite (proj2 (Z.leb_gt _ _)) in E by lia.
  assert (CountUnspentCreditRows rs = zlen (List.filter (λ r, c_IsFunding r && bool_decide (c_MatchingTxHash r = None)) (CompactRows rs))) as Hn.
  { unfold CountUnspentCreditRows. rewrite CountUnspent_filter. unfold zlen. f_equal. clear. induction rs as [|r rs IH]; [done|]. cbn. destruct (IsFunding r && _); cbn; by rewrite IH. }
  unfold unspent_page. rewrite <- Hn. cbn zeta in *. set (n := CountUnspentCreditRows rs) in *. clearbody n. cbn [andb] in E.
  destruct (Z.leb_spec n offset); [by injection E as <-|]. destruct (cap_ok _); [|discriminate E]. injection E as <-. cbn [default].
  rewrite pick_loop_spec by (change (zlen []) with 0; destruct (Z.ltb_spec n N); lia). change (zlen []) with 0. rewrite !Z.sub_0_r. cbn [app].
  rewrite <- (CompactRows_page IsFunding) by done. unfold page. replace (if n <? N then n else N) with (Z.min n N); [done|]. destruct (Z.ltb_spec n N); lia.
Qed.

Lemma Slice_default o N offset view : SliceAddressRows o N offset view = SliceAddressRows (nil_if_empty (default [] o)) N offset view.
Proof. destruct o as [[|r l]|]; try done. unfold SliceAddressRows. cbn. destruct (_ || _); [done|]. by rewrite orb_true_r. Qed.

(** Any view of rows that are not merged. *)
Lemma Slice_view rows rs N offset view o : CompactRows (default [] rows) = rs → Forall (λ r, MergedCount r = 0) (default [] rows) →
  offset + N <= MaxInt64 → zlen rs <= 3000000 → SliceAddressRows rows N offset view = Ok o → view_page view rs N offset (default [] o).
Proof.
  intros <- Hm Hmax Hlen E. assert (zlen (CompactRows (default [] rows)) = zlen (default [] rows)) as Hz by (unfold zlen, CompactRows; by rewrite length_fmap).
  rewrite Hz in Hlen. pose proof E as Ep. rewrite Slice_default in Ep. rewrite Slice_default in E. unfold SliceAddressRows in E. rewrite nil_if_empty_default in E.
  destruct (_ || _) eqn:Earg in E; [done|]. apply orb_false_iff in Earg. rewrite !Z.ltb_ge in Earg. destruct Earg as [Hoff HN].
  destruct (_ || _) eqn:Epast in E.
  { injection E as <-. apply view_page_past. rewrite Hz. rewrite !orb_true_iff, !Z.eqb_eq, Z.leb_le in Epast. destruct Epast as [[?|?]|?]; [by left|right; lia|by right]. }
  rewrite !orb_false_iff, !Z.eqb_neq, Z.leb_gt in Epast. destruct Epast as [[HN0 _] Hpast].
  assert (∀ wrong, wrongDirection view = Some wrong →
    match MergeRowsRange (default [] rows) N offset view with
    | Ok mergedRows => Ok (UncompactMergedRows (Some mergedRows)) | Err e => Err e | Panic => Panic | NoFuel => NoFuel end = Ok o →
    default [] o = merged_page wrong (CompactRows (default [] rows)) N offset) as Hmerge.
  { intros wrong Hw Em. unfold MergeRowsRange in Em. rewrite Hw, (proj2 (Z.ltb_ge offset 0)), (proj2 (Z.ltb_ge N 0)) in Em by lia. cbn [orb] in Em.
    rewrite range_body_compact in Em by (eapply Forall_impl; [exact Hm|]; intros r Hr; cbn; by rewrite Hr).
    destruct (MergeRowsRange_body _ _ _ _) as [ms|e| |] eqn:Eb; try discriminate Em. injection Em as <-. cbn. by apply range_body_page. }
  destruct view; unfold view_page; cbn [plain_view wrongDirection]; try (eapply Slice_page; [|exact Hmax|exact Hlen|exact Ep]; reflexivity); try by apply Hmerge.
  - rewrite decide_True by done. right. apply slice_unspent; [lia..|]. destruct (default [] rows); [|exact E]. unfold zlen in Hpast. cbn in Hpast. lia.
  - discriminate E.
  - discriminate E.
Qed.

Lemma was_valid H addr rs : was H addr rs → List.filter c_ValidMainChain rs = rs ∧ zlen rs <= 3000000.
Proof.
  intros (d & l & _ & E & ->). split; [|unfold zlen, CompactRows; rewrite length_fmap; by apply (rows_limit _ _ _ E)].
  pose proof (rows_valid _ _ _ E) as Hv. clear E. induction Hv as [|r l [Hr _] _ IH]; [done|]. cbn. rewrite Hr. f_equal. exact IH.
Qed.
Lemma CompactRows_Uncompact c : CompactRows (UncompactRow <$> c) = c.
Proof. induction c as [|r c IH]; [done|]. cbn. f_equal; [by destruct r|exact IH]. Qed.

Lemma keep_view_page view keep rs N offset o : cache_keep view = Some keep → CompactRows o = page keep rs N offset → view_page view rs N offset o.
Proof. destruct view; intros [= <-] E; unfold view_page; cbn [plain_view wrongDirection]; try exact E. rewrite decide_True by done. by left. Qed.

Lemma TransactionsMerged_view H addr N offset view wrong c ms blk : good (item_ok H) c → wrongDirection view = Some wrong →
  (TransactionsMerged addr N offset view c).1 = Ok (Some ms, Some blk) →
  ∃ rs, was H addr rs ∧ view_page view rs N offset (UncompactMergedRow <$> ms).
Proof.
  intros [_ Hi] Hw E. unfold TransactionsMerged, addressCacheItem in E. rewrite bind_gets in E. destruct (a c !! addr) as [it|] eqn:Ea; [|done].
  cbn in E. assert (IsMergedView view = Some true) as Em by by destruct view. unfold item_Transactions in E. rewrite Em in E.
  destruct (_ || _) eqn:Earg in E; [done|]. apply orb_false_iff in Earg. rewrite !Z.ltb_ge in Earg. destruct Earg as [Hoff HN].
  destruct (rows it) as [rs|] eqn:Er; [|done]. assert (was H addr rs) as Hr by by apply (Hi addr it). destruct (was_valid _ _ _ Hr) as [Hval Hlen].
  rewrite Hval in E. exists rs. split; [done|]. destruct (_ || _) eqn:Epast in E.
  - cbn in E. injection E as <- _. apply view_page_past. rewrite !orb_true_iff, !Z.eqb_eq, Z.leb_le in Epast. destruct Epast as [[?|?]|?]; [by left|right; lia|by right].
  - assert (selectRows rs N offset view = match MergeRowsCompactRange rs N offset view with
      Ok a => Ok (RowsMerged a) | Err e => Err (ERows e) | Panic => Panic | NoFuel => NoFuel end) as Es by by destruct view.
    rewrite Es in E. unfold MergeRowsCompactRange in E. rewrite Hw, (proj2 (Z.ltb_ge offset 0)), (proj2 (Z.ltb_ge N 0)) in E by lia. cbn [orb] in E.
    destruct (MergeRowsRange_body wrong rs N offset) as [ms'|e| |] eqn:Eb; try discriminate E. cbn in E. injection E as -> _.
    assert (view_page view rs N offset = λ o, o = merged_page wrong rs N offset) as -> by (destruct view; try done; injection Hw as <-; done).
    by apply range_body_page.
Qed.

Lemma Transactions_page H addr N offset view c o blk : good (item_ok H) c → offset + N <= MaxInt64 →
  (Transactions addr N offset view c).1 = Ok (Some o, Some blk) →
  ∃ rs, was H addr rs ∧ view_page view rs N offset o.
Proof.
  intros Hg Hmax E. unfold Transactions in E. destruct (IsMergedView view) as [[]|] eqn:Em; [| |done].
  - destruct (TransactionsMerged addr N offset view c) as [r c'] eqn:Et. unfold mbind, goM_bind in E. rewrite Et in E.
    destruct r as [[[ms|] blk']|e| |]; try discriminate E. cbn in E. injection E as <- ->.
    assert (∃ wrong, wrongDirection view = Some wrong) as (wrong & Hw) by (destruct view; try discriminate Em; by eexists).
    eapply TransactionsMerged_view; [done..|]. by rewrite Et.
  - destruct (TransactionsCompact addr N offset view c) as [r c'] eqn:Et. unfold mbind, goM_bind in E. rewrite Et in E.
    destruct r as [[o' blk']|e| |]; try discriminate E. cbn in E. injection E as Eo ->. destruct Hg as [_ Hi].
    assert (∃ keep, cache_keep view = Some keep) as (keep & Hk) by (destruct view; try discriminate Em; by eexists).
    assert (a c !! addr = None ∨ ∃ it, a c !! addr = Some it) as [Ea|(it & Ea)] by (destruct (a c !! addr); eauto).
    { unfold TransactionsCompact, addressCacheItem in Et. rewrite bind_gets, Ea in Et. by injection Et as <- _ _. }
    destruct (rows it) as [rs|] eqn:Er.
    + assert (was H addr rs) as Hw by by apply (Hi addr it). destruct (was_valid _ _ _ Hw) as [Hval Hlen].
      assert (0 <= N ∧ 0 <= offset) as [HN Hoff].
      { unfold TransactionsCompact, addressCacheItem in Et. rewrite bind_gets, Ea in Et. unfold item_Transactions in Et.
        destruct (Z.ltb_spec offset 0), (Z.ltb_spec N 0); try discriminate Et; lia. }
      destruct (TransactionsCompact_page addr it rs N offset view keep c Ea Er Hk HN Hoff Hmax ltac:(lia)) as (o2 & E2 & Ho2).
      rewrite Et in E2. injection E2 as -> _. exists rs. split; [done|]. apply (keep_view_page _ keep); [done|]. rewrite Hval in Ho2. rewrite <- Ho2.
      destruct o2 as [o2|]; [|done]. injection Eo as <-. apply CompactRows_Uncompact.
    + unfold TransactionsCompact, addressCacheItem in Et. rewrite bind_gets, Ea in Et. unfold item_Transactions in Et. rewrite Er, Em in Et.
      destruct (_ || _); [done|]. by injection Et as <- _ _.
Qed.

(** *** What is stored *)
Lemma keeps_ClearRows H addr c : keeps (item_ok H) (ClearRows addr) c.
Proof.
  unfold ClearRows. apply keeps_gets. destruct (a c !! addr); [|apply keeps_ret]. apply keeps_write. intros it _ [_ Hb]. by split.
Qed.
Lemma keeps_store_rows H addr l b c : was H addr (CompactRows l) → keeps (item_ok H) (StoreRows addr (nil_if_empty l) (Some b)) c.
Proof.
  intros Hw. apply keeps_StoreRows. cbn. assert (match nil_if_empty l with Some rs => CompactRows rs | None => [] end = CompactRows l) as -> by by destruct l.
  split; [split; cbn; [by intros rs [= <-]|done]|]. intros it [_ Hb] _. split; cbn; [by intros rs [= <-]|done].
Qed.
Lemma keeps_store_balance H addr bal b c : was_balance H addr bal → keeps (item_ok H) (StoreBalance addr (Some bal) (Some b)) c.
Proof.
  intros Hw. apply keeps_StoreBalance. cbn. split; [split; cbn; [done|by intros x [= <-]]|].
  intros it [Hr _] _. split; cbn; [done|by intros x [= <-]].
Qed.
Lemma keeps_Balance H addr c : keeps (item_ok H) (Balance addr) c.
Proof. unfold Balance. apply keeps_gets. destruct (a c !! addr); apply keeps_count, keeps_ret. Qed.

(** ** The queries keep the invariant *)
Lemma safe_Balance addr H : safe (λ x H, ∀ b, x.1 = Some b → was_balance H addr b) (on_cache (Balance addr)) H.
Proof.
  apply safe_cache; [intros; apply keeps_Balance| |].
  - intros H' c [o blk] _ Hg E b [= ->]. by eapply Balance_was.
  - intros x H1 H2 Hs HQ b Hb. eapply was_balance_mono; [done|by apply HQ].
Qed.
Lemma safe_Rows addr ct H : safe (λ x H, ∀ blk, x.2 = Some blk → ∃ rs, was H addr rs ∧ default [] x.1 = of_coin_type ct rs) (on_cache (Rows addr ct)) H.
Proof.
  apply safe_cache; [intros; apply keeps_Rows| |].
  - intros H' c [o blk'] _ Hg E blk [= ->]. by eapply Rows_was.
  - intros x H1 H2 Hs HQ blk Hb. destruct (HQ blk Hb) as (rs & Hw & E). exists rs. split; [by eapply was_mono|done].
Qed.
Lemma safe_Transactions addr N offset view H :
  safe (λ x H, ∀ o blk, offset + N <= MaxInt64 → x = (Some o, Some blk) → ∃ rs, was H addr rs ∧ view_page view rs N offset o)
    (on_cache (Transactions addr N offset view)) H.
Proof.
  apply safe_cache; [intros; apply keeps_Transactions| |].
  - intros H' c x _ Hg E o blk Hmax ->. by eapply Transactions_page.
  - intros x H1 H2 Hs HQ o blk Hmax Hx. destruct (HQ o blk Hmax Hx) as (rs & Hw & E). exists rs. split; [by eapply was_mono|done].
Qed.
Lemma safe_store_balance addr bal b H : was_balance H addr bal → safe (λ _ _, True) (on_cache (StoreBalance addr (Some bal) (Some b))) H.
Proof. intros Hw. apply safe_cache; [|done..]. intros H' c Hs _. apply keeps_store_balance. by eapply was_balance_mono. Qed.

Lemma safe_weaken {A} (Q Q' : A → list ADB → Prop) (p : proc A) : ∀ H, (∀ a H, Q a H → Q' a H) → safe Q p H → safe Q' p H.
Proof.
  induction p as [r|X f p IH]; intros H HQ Hp; [intros a Ha; by apply HQ, Hp|].
  intros H' w x w' Hs Hw Hf. destruct (Hp H' w x w' Hs Hw Hf). split; [done|]. by apply IH.
Qed.

Lemma safe_balance fuel addr : ∀ H, safe (λ x H, was_balance H addr x.1) (pg_AddressBalance fuel addr) H.
Proof.
  induction fuel as [|fuel IH]; intros H; [by intros ? ?|]. cbn [pg_AddressBalance]. destruct (negb _); [apply safe_raise|].
  eapply proc_bind_safe; [apply safe_look|]. intros best H1 _ _. eapply proc_bind_safe; [apply safe_Balance|]. intros [bal blk] H2 _ Hb. cbn in Hb.
  assert (safe (λ x H, was_balance H addr x.1) (l ← try_lock LBal addr; match l with
    | inl ch => wait LBal ch ≫= λ _, pg_AddressBalance fuel addr
    | inr ch => r ← look (λ w, retrieveAddressBalance (SelectBalanceGroups addr (w_db w)) addr);
        match r with
        | Ok bal => updated ← on_cache (StoreBalance addr (Some bal) (Some (NewBlockID best.1 best.2))); release LBal addr ch ≫= λ _, mret (bal, updated)
        | Err e => release LBal addr ch ≫= λ _, raise (EBalance e)
        | Panic => Done Panic
        | NoFuel => Done NoFuel
        end end) H2) as Hmiss.
  { eapply proc_bind_safe; [apply safe_try_lock|]. intros [ch|ch] H3 _ _; [eapply proc_bind_safe; [apply safe_wait|]; intros; apply IH|].
    eapply proc_bind_safe; [apply safe_look|]. intros r H4 _ (w & -> & Hd & _). destruct (retrieveAddressBalance _ addr) as [b|e| |] eqn:E; try by intros ? ?.
    - assert (was_balance H4 addr b) as Hw by (left; by exists (w_db w)). eapply proc_bind_safe; [by apply safe_store_balance|]. intros u H5 Hs5 _.
      eapply proc_bind_safe; [apply safe_release|]. intros _ H6 Hs6 _. apply proc_ret_safe. cbn. eapply was_balance_mono; [|exact Hw]. by etrans.
    - eapply proc_bind_safe; [apply safe_release|]. intros; apply safe_raise. }
  destruct bal as [bal|], blk as [blk|]; try exact Hmiss. apply proc_ret_safe. by apply Hb.
Qed.

(** *** The calls of the cache return *)
Definition returns {A} (m : AC A) (c : AddressCache) : Prop := ∃ x c', m c = (Ok x, c').
Lemma returns_add addr it c : returns (addCacheItem addr it) c.
Proof.
  unfold returns. destruct (disabled c) eqn:Hd; [do 2 eexists; unfold addCacheItem; rewrite bind_gets, Hd; reflexivity|].
  destruct (addCacheItem_spec addr it c Hd) as (m & _ & _ & _ & E). rewrite E. destruct (_ <=? _); by do 2 eexists.
Qed.
Lemma returns_StoreBalance addr bal b c : returns (StoreBalance addr bal (Some b)) c.
Proof.
  unfold StoreBalance, returns. rewrite bind_gets. destruct (disabled c); [by do 2 eexists|]. rewrite bind_gets.
  destruct (stale _ b); [apply returns_add|]. by do 2 eexists.
Qed.
Lemma returns_Balance addr c : returns (Balance addr) c.
Proof. unfold Balance, addressCacheItem, returns. rewrite bind_gets. destruct (a c !! addr); by do 2 eexists. Qed.

(** [fails E p H]: whatever the others do, an error of [p] comes with [E]. *)
Fixpoint fails {A} (E : list ADB → Prop) (p : proc A) (H : list ADB) : Prop :=
  match p with
  | Done r => ∀ e, r = Err e → E H
  | Act f k => ∀ H' w x w', H ⊆ H' → f w = Some (x, w') → fails E (k x) (w_db w' :: H')
  end.
Lemma fails_bind {A B} E (p : proc A) (k : A → proc B) : ∀ H, fails E p H → (∀ a H', H ⊆ H' → fails E (k a) H') → fails E (p ≫= k) H.
Proof.
  unfold mbind, proc_bind. induction p as [r|X f p IH]; intros H Hp Hk.
  - destruct r as [a|e| |]; cbn; [by apply Hk|intros ? _; by apply (Hp e)|done..].
  - intros H' w x w' Hs Hf. apply IH; [by apply (Hp H' w)|]. intros a H2 Hs2. apply Hk. etrans; [exact Hs|]. etrans; [|exact Hs2]. intros y Hy; by right.
Qed.
Lemma fails_cache {A} E (m : AC A) H : (∀ c, returns m c) → fails E (on_cache m) H.
Proof. intros Hm H' w x w' _ Ef. destruct (Hm (w_cache w)) as (a & c & Em). rewrite Em in Ef. injection Ef as <- <-. done. Qed.
Lemma fails_look {A} E (f : World → A) H : fails E (look f) H.
Proof. by intros H' w x w' _ [= <- <-]. Qed.
Lemma fails_try_lock E l addr H : fails E (try_lock l addr) H.
Proof. by intros H' w x w' _ _. Qed.
Lemma fails_wait E l ch H : fails E (wait l ch) H.
Proof. by intros H' w x w' _ _. Qed.
Lemma fails_release E l addr ch H : fails E (release l addr ch) H.
Proof. intros H' w x w' _ _ H2 w2 x2 w2' _. destruct (CacheLock.close ch (lock_of l w2)); by intros [= <- <-]. Qed.
Lemma safe_try_fails {A} (Q : A → list ADB → Prop) E (p : proc A) : ∀ H,
  safe Q p H → fails E p H → safe (λ r H, match r with inl a => Q a H | inr _ => E H end) (ptry p) H.
Proof.
  induction p as [r|X f p IH]; intros H Hp He.
  - destruct r as [a|e| |]; cbn; intros b; try done; intros [= <-]; [by apply Hp|by apply (He e)].
  - intros H' w x w' Hs Hw Hf. destruct (Hp H' w x w' Hs Hw Hf) as [Hw' Hx]. split; [done|]. apply IH; [done|by apply (He H' w)].
Qed.

(** The query of the balance failed at one time. *)
Definition balance_failed (addr : string) (H : list ADB) : Prop :=
  ∃ d e, d ∈ H ∧ retrieveAddressBalance (SelectBalanceGroups addr d) addr = Err e.
Lemma balance_failed_mono H H' addr : H ⊆ H' → balance_failed addr H → balance_failed addr H'.
Proof. intros Hs (d & e & Hd & E). exists d, e. split; [by apply Hs|done]. Qed.
Lemma fails_balance fuel addr : DecodeAddress addr = true → ∀ H, fails (balance_failed addr) (pg_AddressBalance fuel addr) H.
Proof.
  intros Hd. induction fuel as [|fuel IH]; intros H; [by intros ? ?|]. cbn [pg_AddressBalance]. rewrite Hd. cbn [negb].
  apply fails_bind; [apply fails_look|]. intros best H1 _. apply fails_bind; [apply fails_cache; intros; apply returns_Balance|]. intros [bal blk] H2 _.
  assert (fails (balance_failed addr) (l ← try_lock LBal addr; match l with
    | inl ch => wait LBal ch ≫= λ _, pg_AddressBalance fuel addr
    | inr ch => r ← look (λ w, retrieveAddressBalance (SelectBalanceGroups addr (w_db w)) addr);
        match r with
        | Ok bal => updated ← on_cache (StoreBalance addr (Some bal) (Some (NewBlockID best.1 best.2))); release LBal addr ch ≫= λ _, mret (bal, updated)
        | Err e => release LBal addr ch ≫= λ _, raise (EBalance e)
        | Panic => Done Panic
        | NoFuel => Done NoFuel
        end end) H2) as Hmiss.
  { apply fails_bind; [apply fails_try_lock|]. intros [ch|ch] H3 _; [apply fails_bind; [apply fails_wait|]; intros; apply IH|].
    intros H4 w x w' _ [= <- <-]. cbn [pbind mbind proc_bind stop].
    destruct (retrieveAddressBalance (SelectBalanceGroups addr (w_db w)) addr) as [b|e| |] eqn:E; try by intros ? ?.
    - apply (fails_bind _ (on_cache _)); [apply fails_cache; intros; apply returns_StoreBalance|]. intros u H5 _.
      by apply (fails_bind _ (release _ _ _)); [apply fails_release|].
    - apply (fails_bind _ (release _ _ _)); [apply fails_release|]. intros _ H5 Hs5 e' _. exists (w_db w), e. split; [apply Hs5; by left|done]. }
  destruct bal as [bal|], blk as [blk|]; try exact Hmiss. by intros ? ?.
Qed.

(** An empty balance stands for one that could not be queried. *)
Definition was_balance_or_empty (addr : string) (b : AddressBalance) (H : list ADB) : Prop :=
  was_balance H addr b ∨ (b = emptyBalance addr ∧ balance_failed addr H).
Lemma was_balance_or_empty_mono H H' addr b : H ⊆ H' → was_balance_or_empty addr b H → was_balance_or_empty addr b H'.
Proof. intros Hs [Hb|[-> Hb]]; [left; by eapply was_balance_mono|right; split; [done|by eapply balance_failed_mono]]. Qed.
Lemma safe_try_balance fuel addr H : DecodeAddress addr = true →
  safe (λ r H, match r with inl x => was_balance H addr x.1 | inr _ => balance_failed addr H end) (ptry (pg_AddressBalance fuel addr)) H.
Proof. intros Hd. apply (safe_try_fails (λ x H, was_balance H addr x.1)); [apply safe_balance|by apply fails_balance]. Qed.
Lemma safe_balance_or_empty fuel addr H : DecodeAddress addr = true → safe (was_balance_or_empty addr) (balance_or_empty fuel addr) H.
Proof.
  intros Hd. unfold balance_or_empty. eapply proc_bind_safe; [by apply safe_try_balance|]. intros [[b u]|e] H1 _ Hb; apply proc_ret_safe; [by left|by right].
Qed.

(** Rows as they come from the database. *)
Definition db_rows (H : list ADB) (addr : string) (l : list AddressRow) : Prop :=
  was H addr (CompactRows l) ∧ Forall (λ r, ValidMainChain r = true ∧ MergedCount r = 0) l ∧ zlen l <= 3000000.
Lemma db_rows_mono H H' addr l : H ⊆ H' → db_rows H addr l → db_rows H' addr l.
Proof. intros Hs [Hw Hl]. split; [by eapply was_mono|done]. Qed.

Lemma safe_updateAddressRows addr H :
  safe (λ x H, x.2 = None → ∃ l, db_rows H addr l ∧ x.1 = nil_if_empty l) (updateAddressRows addr) H.
Proof.
  unfold updateAddressRows. eapply proc_bind_safe; [apply safe_try_lock|]. intros [ch|ch] H1 _ _.
  { eapply proc_bind_safe; [apply safe_wait|]. intros _ H2 _ _. by apply proc_ret_safe. }
  eapply (proc_bind_safe (λ _ _, True)); [apply safe_cache; [intros; apply keeps_ClearRows|done..]|]. intros _ H2 _ _.
  eapply proc_bind_safe; [apply safe_look|]. intros best H3 _ _. eapply proc_bind_safe; [apply safe_look|]. intros r H4 _ (w & -> & Hd & _).
  destruct (SelectAddressRows addr (w_db w)) as [l|] eqn:E.
  - assert (db_rows H4 addr l) as Hl.
    { split; [by exists (w_db w), l|]. split; [by eapply rows_valid|by eapply rows_limit]. }
    eapply (proc_bind_safe (λ _ _, True)).
    { apply safe_cache; [|done..]. intros H' c Hs _. apply keeps_store_rows. eapply was_mono; [done|apply Hl]. }
    intros _ H5 Hs5 _. eapply proc_bind_safe; [apply safe_release|]. intros _ H6 Hs6 _. apply proc_ret_safe. intros _. exists l. split; [|done].
    eapply db_rows_mono; [|done]. by etrans.
  - eapply proc_bind_safe; [apply safe_release|]. intros _ H5 _ _. by apply proc_ret_safe.
Qed.

(** *** The replies

    A count of rows is the database's, for each of the all and the credit view;
    that of the debit view is the number of spent outputs of the balance, or the
    count of rows when the query of the balance failed. *)
Definition counted (H : list ADB) (count : ADB → option Z) (n : Z) : Prop := ∃ d, d ∈ H ∧ count d = Some n.
Definition rows_counted (H : list ADB) (addr : string) (ct n : Z) : Prop :=
  counted H (CountRows addr (if ct =? CoinTypeAll then None else Some ct)) n.
Definition count_ok (H : list ADB) (addr : string) (view : AddrTxnViewType) (ct n : Z) : Prop :=
  match wrongDirection view, view with
  | Some wrong, _ => counted H (CountMerged addr view ct) n ∨
      ∃ rs, was H addr rs ∧ n = zlen (merged_by_tx (right_rows wrong (of_coin_type ct rs)))
  | None, (AddrTxnAll | AddrTxnCredit) => rows_counted H addr ct n
  | None, AddrTxnDebit => (∃ b, was_balance H addr b ∧ n = num_spent b ct) ∨ (balance_failed addr H ∧ rows_counted H addr ct n)
  | None, _ => False
  end.
Lemma counted_mono H H' count n : H ⊆ H' → counted H count n → counted H' count n.
Proof. intros Hs (d & Hd & E). exists d. split; [by apply Hs|done]. Qed.
Lemma count_ok_mono H H' addr view ct n : H ⊆ H' → count_ok H addr view ct n → count_ok H' addr view ct n.
Proof.
  intros Hs. unfold count_ok. destruct (wrongDirection view).
  - intros [Hc|(rs & Hw & E)]; [left; by eapply counted_mono|right; exists rs; split; [by eapply was_mono|done]].
  - destruct view; try done; try by apply counted_mono.
    intros [(b & Hb & E)|[Hf Hc]]; [left; exists b; split; [by eapply was_balance_mono|done]|right; split; [by eapply balance_failed_mono|by eapply counted_mono]].
Qed.
Definition reply_ok (H : list ADB) (q : Request) (r : Reply) : Prop :=
  match q, r with
  | QBalance addr, RBalance b => was_balance H addr b
  | QMerged addr, RMerged ms => ∃ rs, was H addr rs ∧ (MergeRows rs = Ok ms ∨ MergeRows (of_coin_type 0 rs) = Ok ms)
  | QCompact addr ct, RCompact o => ∃ rs, was H addr rs ∧ default [] o = of_coin_type ct rs
  | QCount addr view ct, RCount n => count_ok H addr view ct n
  | QHistory addr N offset view ct, RHistory o b =>
      was_balance_or_empty addr b H ∧
      (offset + N <= MaxInt64 → ∃ rs, was H addr rs ∧ view_page view (of_coin_type ct rs) N offset (default [] o))
  | QStoreBlock _ _ _, RStored => True
  | _, _ => False
  end.

Lemma MergeRows_db l : Forall (λ r, ValidMainChain r = true ∧ MergedCount r = 0) l → MergeRows (CompactRows l) = MergeRows l.
Proof.
  intros Hl. unfold MergeRows. rewrite MergeRows_loop_compact; [done|]. eapply Forall_impl; [exact Hl|]. intros r [_ Hr]. cbn. unfold IsMerged. by rewrite Hr.
Qed.

Lemma safe_merged fuel addr : ∀ H, safe (λ ms H, reply_ok H (QMerged addr) (RMerged ms)) (AddressRowsMerged fuel addr) H.
Proof.
  induction fuel as [|fuel IH]; intros H; [by intros ? ?|]. cbn [AddressRowsMerged]. destruct (negb _); [apply safe_raise|].
  eapply proc_bind_safe; [apply safe_Rows|]. intros [o blk] H1 _ Ho. cbn in Ho.
  assert (safe (λ ms H, reply_ok H (QMerged addr) (RMerged ms)) ('(rows, err) ← updateAddressRows addr;
    match err with Some ERetry => AddressRowsMerged fuel addr | Some e => raise e | None => lift_row (MergeRows (default [] rows)) end) H1) as Hmiss.
  { eapply proc_bind_safe; [apply safe_updateAddressRows|]. intros [rows err] H2 _ Hr. destruct err as [[]|]; try apply safe_raise; [apply IH|].
    destruct (Hr eq_refl) as (l & (Hw & Hl & _) & E). cbn in E. subst rows. rewrite nil_if_empty_default. apply safe_lift_row.
    intros ms E. exists (CompactRows l). split; [done|]. left. by rewrite MergeRows_db. }
  destruct o as [rs|], blk as [blk|]; try exact Hmiss. destruct (Ho blk eq_refl) as (rs0 & Hw & E). cbn in E. subst rs.
  apply safe_lift_row. intros ms E. exists rs0. split; [done|by right].
Qed.

Lemma filter_coin_compact ct l :
  CompactRows (List.filter (λ r, CoinType r =? ct) l) = List.filter (λ r, c_CoinType r =? ct) (CompactRows l).
Proof. induction l as [|r l IH]; [done|]. cbn. destruct (CoinType r =? ct); cbn; unfold CompactRows in *; by rewrite IH. Qed.

Lemma safe_compact fuel addr ct : ∀ H, safe (λ o H, reply_ok H (QCompact addr ct) (RCompact o)) (AddressRowsCompact_ fuel addr ct) H.
Proof.
  induction fuel as [|fuel IH]; intros H; [by intros ? ?|]. cbn [AddressRowsCompact_]. destruct (negb _); [apply safe_raise|].
  eapply proc_bind_safe; [apply safe_Rows|]. intros [o blk] H1 _ Ho. cbn in Ho.
  assert (safe (λ o H, reply_ok H (QCompact addr ct) (RCompact o)) ('(rows, err) ← updateAddressRows addr;
    match err with Some ERetry => AddressRowsCompact_ fuel addr ct | Some e => raise e
    | None => let compact := CompactRows (default [] rows) in
        if ct =? CoinTypeAll then mret (Some compact) else mret (nil_if_empty (List.filter (λ r, c_CoinType r =? ct) compact)) end) H1) as Hmiss.
  { eapply proc_bind_safe; [apply safe_updateAddressRows|]. intros [rows err] H2 _ Hr. destruct err as [[]|]; try apply safe_raise; [apply IH|].
    destruct (Hr eq_refl) as (l & (Hw & Hl & _) & E). cbn in E. subst rows. rewrite nil_if_empty_default.
    destruct (ct =? CoinTypeAll) eqn:Ec; apply proc_ret_safe; exists (CompactRows l); (split; [done|]); unfold of_coin_type; rewrite Ec; [done|].
    apply nil_if_empty_default. }
  destruct o as [rs|], blk as [blk|]; try exact Hmiss. apply proc_ret_safe. by apply (Ho blk).
Qed.

Lemma safe_true {A} (Q : A → list ADB → Prop) (p : proc A) H : safe Q p H → safe (λ _ _, True) p H.
Proof. by apply safe_weaken. Qed.

Lemma merged_count rows n view wrong : wrongDirection view = Some wrong → CountMergedRows (A:=AddressRowCompact) rows view = Ok n →
  n = zlen (merged_by_tx (right_rows wrong rows)).
Proof.
  intros Hw E. unfold CountMergedRows in E. rewrite Hw in E. apply (CountMerged_loop_spec wrong rows []) in E; [|by apply Forall_true].
  rewrite E. unfold zlen. by rewrite length_merged_by_tx.
Qed.
Lemma safe_mergedTxnCount addr view wrong ct H : wrongDirection view = Some wrong →
  safe (λ n H, count_ok H addr view ct n) (mergedTxnCount addr view ct) H.
Proof.
  intros Hw. unfold mergedTxnCount. eapply proc_bind_safe; [apply safe_Rows|]. intros [rows [blk|]] H1 _ Ho; cbn in Ho.
  - apply safe_lift_row. intros n En. destruct (Ho blk eq_refl) as (rs & Hrs & E). rewrite E in En. unfold count_ok. rewrite Hw.
    right. exists rs. split; [done|]. by eapply merged_count.
  - assert (retrieveMergedTxnCount addr view ct =
      (r ← look (λ w, CountMerged addr view ct (w_db w)); match r with Some n => mret n | None => raise EQuery end)) as -> by by destruct view.
    eapply proc_bind_safe; [apply safe_look|]. intros r H2 _ (w & -> & Hd & _). destruct (CountMerged addr view ct (w_db w)) as [n|] eqn:E; [|apply safe_raise].
    apply proc_ret_safe. unfold count_ok. rewrite Hw. left. by exists (w_db w).
Qed.
Lemma safe_nonMergedTxnCount fuel addr view ct H : DecodeAddress addr = true → wrongDirection view = None →
  safe (λ n H, count_ok H addr view ct n) (nonMergedTxnCount fuel addr view ct) H.
Proof.
  intros Hdec Hw. unfold nonMergedTxnCount. eapply proc_bind_safe; [apply safe_look|]. intros r H1 _ (w & -> & Hd & _).
  set (kind := if ct =? CoinTypeAll then None else Some ct). destruct (CountRows addr kind (w_db w)) as [n|] eqn:E; [|apply safe_raise].
  assert (rows_counted H1 addr ct n) as Hn by by exists (w_db w).
  destruct view; try apply safe_raise; try by apply proc_ret_safe.
  eapply proc_bind_safe; [by apply safe_try_balance|]. intros [[b u]|e] H2 Hs2 Hb; apply proc_ret_safe; [left; by exists b|].
  right. split; [done|]. by eapply counted_mono.
Qed.
Lemma safe_count fuel addr view ct H : safe (λ n H, count_ok H addr view ct n) (CountTransactions fuel addr view ct) H.
Proof.
  unfold CountTransactions. destruct (DecodeAddress addr) eqn:Hd; [|apply safe_raise]. cbn [negb].
  destruct (IsMergedView view) as [[]|] eqn:Em; [..|apply safe_raise].
  - assert (∃ wrong, wrongDirection view = Some wrong) as (wrong & Hw) by (destruct view; try discriminate Em; by eexists). by eapply safe_mergedTxnCount.
  - apply safe_nonMergedTxnCount; [done|]. by destruct view.
Qed.

(** All rows are on the page when it is not full. *)
Lemma whole_page {A} (rs : list A) N : zlen (page (λ _, true) rs N 0) < N → page (λ _, true) rs N 0 = rs.
Proof.
  unfold page. rewrite filter_all, drop_0. unfold zlen. rewrite length_take. intros H. apply take_ge. lia.
Qed.

Lemma safe_history_balance fuel addr best rows N offset view H : DecodeAddress addr = true →
  (view = AddrTxnAll → offset = 0 → ∃ rs, was H addr rs ∧ CompactRows (default [] rows) = page (λ _, true) rs N 0) →
  safe (was_balance_or_empty addr) (history_balance fuel addr best rows N offset view) H.
Proof.
  intros Hdec Hrows. unfold history_balance. eapply proc_bind_safe; [apply safe_Balance|]. intros [[b|] blk] H1 Hs1 Hb.
  { apply proc_ret_safe. left. by apply Hb. }
  destruct ((zlen (default [] rows) <? N) && (offset =? 0) && bool_decide (view = AddrTxnAll)) eqn:E; [|by apply safe_balance_or_empty].
  rewrite !andb_true_iff, bool_decide_eq_true, Z.eqb_eq, Z.ltb_lt in E. destruct E as [[Hlen Hoff] Hv].
  destruct (Hrows Hv Hoff) as (rs & Hw & Hp). set (l := default [] rows) in *.
  assert (CompactRows l = rs) as Hl. { rewrite Hp. apply whole_page. rewrite <- Hp. unfold zlen, CompactRows in *. by rewrite length_fmap. }
  apply (proc_bind_safe (λ b H, was_balance H addr b)).
  - assert (was_balance H1 addr (balance_of_rows addr l)) as Hwb.
    { right. exists l. split; [|done]. rewrite Hl. by eapply was_mono. }
    unfold balance_of_rows in Hwb. destruct l as [|r l]; [by apply proc_ret_safe|].
    destruct (ReduceAddressHistory (r :: l)).1.1 as [info|]; [by apply proc_ret_safe|apply safe_raise].
  - intros b H2 Hs2 Hwb. eapply proc_bind_safe; [by apply safe_store_balance|]. intros _ H3 Hs3 _. apply proc_ret_safe. left. by eapply was_balance_mono.
Qed.

Lemma of_coin_type_le ct l : zlen (of_coin_type ct l) <= zlen l.
Proof. unfold of_coin_type. destruct (ct =? CoinTypeAll); [done|]. apply length_filter_le. Qed.
Lemma CompactRows_default_Uncompact o : CompactRows (default [] (UncompactRows o)) = default [] o.
Proof. destruct o; [apply CompactRows_Uncompact|done]. Qed.

Definition history_ok (addr : string) (N offset : Z) (view : AddrTxnViewType) (ct : Z) (x : option (list AddressRow) * AddressBalance) (H : list ADB) : Prop :=
  reply_ok H (QHistory addr N offset view ct) (RHistory x.1 x.2).

(** The rows of a coin that are to be paged. *)
Definition coin_rows (addr : string) (ct : Z) (rows : option (list AddressRow)) (H : list ADB) : Prop :=
  ∃ rs, was H addr rs ∧ CompactRows (default [] rows) = of_coin_type ct rs ∧ Forall (λ r, MergedCount r = 0) (default [] rows).
Lemma coin_rows_page addr N offset view ct rows o H : coin_rows addr ct rows H → SliceAddressRows rows N offset view = Ok o →
  offset + N <= MaxInt64 → ∃ rs, was H addr rs ∧ view_page view (of_coin_type ct rs) N offset (default [] o).
Proof.
  intros (rs & Hw & E & Hm) Eo Hmax. exists rs. split; [done|]. eapply Slice_view; [done..| |done].
  pose proof (of_coin_type_le ct rs). destruct (was_valid _ _ _ Hw). lia.
Qed.
Lemma db_rows_merged H addr l (P : AddressRow → bool) : db_rows H addr l → Forall (λ r, MergedCount r = 0) (List.filter P l).
Proof.
  intros (_ & Hl & _). induction Hl as [|r l [_ Hr] _ IH]; [done|]. cbn. destruct (P r); [by constructor|done].
Qed.
Lemma db_rows_coin addr ct H l : db_rows H addr l →
  coin_rows addr ct (if ct =? CoinTypeAll then nil_if_empty l else nil_if_empty (List.filter (λ r, CoinType r =? ct) l)) H.
Proof.
  intros Hl. exists (CompactRows l). split; [apply Hl|]. unfold of_coin_type. destruct (ct =? CoinTypeAll); rewrite nil_if_empty_default.
  - split; [done|]. rewrite <- (filter_all l). by eapply db_rows_merged.
  - split; [apply filter_coin_compact|by eapply db_rows_merged].
Qed.

Lemma safe_history fuel addr N offset view ct : N <= MaxInt64 → ∀ H, safe (history_ok addr N offset view ct) (AddressHistory fuel addr N offset view ct) H.
Proof.
  intros Hmax. induction fuel as [|fuel IH]; intros H; [by intros ? ?|]. cbn [AddressHistory].
  destruct (DecodeAddress addr) eqn:Hdec; [|apply safe_raise]. cbn [negb].
  destruct (Z.eqb_spec ct CoinTypeAll) as [Hct|Hct]; cbn [negb].
  - eapply proc_bind_safe; [apply safe_look|]. intros best H1 _ _. eapply proc_bind_safe; [apply safe_Transactions|]. intros [o blk] H2 _ Ho.
    assert (∀ rows H, (offset + N <= MaxInt64 → ∃ rs, was H addr rs ∧ view_page view (of_coin_type ct rs) N offset (default [] rows)) →
      safe (history_ok addr N offset view ct) (b ← history_balance (S fuel) addr best rows N offset view; mret (rows, b)) H) as Hend.
    { intros rows H3 Hp. eapply proc_bind_safe.
      - apply safe_history_balance; [done|]. intros -> ->. destruct Hp as (rs & Hw & E); [lia|]. exists rs. split; [done|].
        unfold view_page, of_coin_type in E. rewrite Hct in E. exact E.
      - intros b H4 Hs4 Hb. apply proc_ret_safe. split; [done|]. intros Hm. destruct (Hp Hm) as (rs & Hw & E). exists rs. split; [by eapply was_mono|done]. }
    assert (safe (history_ok addr N offset view ct) ('(rows, err) ← updateAddressRows addr;
      match err with Some ERetry => AddressHistory fuel addr N offset view CoinTypeAll | Some e => raise e
      | None => addressRows ← lift_row (SliceAddressRows rows N offset view); b ← history_balance (S fuel) addr best addressRows N offset view; mret (addressRows, b) end) H2) as Hmiss.
    { eapply proc_bind_safe; [apply safe_updateAddressRows|]. intros [rows err] H3 _ Hr. destruct err as [[]|]; try apply safe_raise; [subst ct; apply IH|].
      destruct (Hr eq_refl) as (l & Hl & E). cbn in E. subst rows.
      eapply (proc_bind_safe (λ o H, SliceAddressRows (nil_if_empty l) N offset view = Ok o)); [by apply safe_lift_row|].
      intros o' H4 Hs4 Eo. apply Hend. intros Hm. pose proof (db_rows_coin addr ct H4 l (db_rows_mono _ _ _ _ Hs4 Hl)) as Hc.
      rewrite Hct, Z.eqb_refl in Hc. rewrite Hct. by eapply coin_rows_page. }
    destruct o as [o|], blk as [blk|]; try exact Hmiss.
    apply Hend. intros Hm. destruct (Ho o blk Hm eq_refl) as (rs & Hw & E). exists rs. split; [done|]. unfold of_coin_type. by rewrite Hct.
  - eapply proc_bind_safe; [apply safe_Rows|]. intros [o blk] H0 _ Ho. cbn in Ho.
    eapply (proc_bind_safe (λ (x : option (list AddressRow) * option AddrErr) H, x.2 = None → coin_rows addr ct x.1 H)).
    { destruct blk as [blk|].
      - apply proc_ret_safe. intros _. destruct (Ho blk eq_refl) as (rs & Hw & E). exists rs. split; [done|]. cbn.
        split; [by rewrite CompactRows_default_Uncompact|]. destruct o as [o|]; [|done]. cbn. apply Forall_fmap, Forall_true. done.
      - eapply proc_bind_safe; [apply safe_updateAddressRows|]. intros [rows err] H2 _ Hr. apply proc_ret_safe. intros Herr. cbn in *.
        destruct (Hr Herr) as (l & Hl & ->). pose proof (db_rows_coin addr ct H2 l Hl) as Hc. rewrite (proj2 (Z.eqb_neq _ _) Hct) in Hc.
        by rewrite nil_if_empty_default. }
    intros [rows err] H1 _ Hr. cbn in Hr. destruct err as [[]|]; try apply safe_raise; [apply IH|].
    eapply (proc_bind_safe (λ o H, SliceAddressRows rows N offset view = Ok o)); [by apply safe_lift_row|]. intros o2 H2 Hs2 Eo.
    eapply proc_bind_safe; [by apply safe_balance_or_empty|]. intros b H3 Hs3 Hb. apply proc_ret_safe. split; [done|]. intros Hm.
    destruct (coin_rows_page addr N offset view ct rows o2 H1 (Hr eq_refl) Eo Hm) as (rs & Hw & E). exists rs.
    split; [eapply was_mono; [|exact Hw]; by etrans|done].
Qed.

(** *** The storing of a block, and the scheduler *)
Lemma safe_set_db (f : World → World) {B} (k : unit → proc B) (Q : B → list ADB → Prop) H : (∀ w, w_cache (f w) = w_cache w) →
  (∀ H', safe Q (k tt) H') → safe Q (Act (λ w, Some (tt, f w)) k) H.
Proof.
  intros Hc Hk H' w x w' Hs [Hd Hg] [= <- <-]. split; [|apply Hk]. split; [by left|]. rewrite Hc. eapply good_mono; [|done]. intros y Hy. by right.
Qed.
Lemma safe_store_block writes best addrs H : safe (λ _ _, True) (store_block writes best addrs) H.
Proof.
  unfold store_block. apply (proc_bind_safe (λ _ _, True)).
  - revert H. induction writes as [|f writes IH]; intros H; [by apply proc_ret_safe|]. cbn [write_all]. by apply safe_set_db.
  - intros _ H1 _ _. apply safe_set_db; [done|]. intros H2. apply (proc_bind_safe (λ _ _, True)); [|by intros; apply proc_ret_safe].
    apply safe_cache; [intros; apply keeps_Clear|done..].
Qed.

Lemma safe_serve fuel q H : int64_limit q → safe (λ r H, reply_ok H q r) (serve fuel q) H.
Proof.
  intros Hq. destruct q as [addr|addr|addr ct|addr view ct|addr N offset view ct|writes best addrs]; cbn [serve].
  - eapply proc_bind_safe; [apply safe_balance|]. intros [b u] H1 _ Hb. by apply proc_ret_safe.
  - eapply proc_bind_safe; [apply safe_merged|]. intros ms H1 _ Hb. by apply proc_ret_safe.
  - eapply proc_bind_safe; [apply safe_compact|]. intros o H1 _ Hb. by apply proc_ret_safe.
  - eapply proc_bind_safe; [apply safe_count|]. intros n H1 _ Hn. by apply proc_ret_safe.
  - eapply proc_bind_safe; [by apply safe_history|]. intros [rows b] H1 _ Hb. by apply proc_ret_safe.
  - eapply proc_bind_safe; [apply safe_store_block|]. intros _ H1 _ _. by apply proc_ret_safe.
Qed.

Lemma reply_ok_mono q r H H' : H ⊆ H' → reply_ok H q r → reply_ok H' q r.
Proof.
  intros Hs. destruct q, r; cbn; try done; try (intros (rs & Hw & E); exists rs; split; [by eapply was_mono|exact E]); [by apply was_balance_mono|by apply count_ok_mono|].
  intros [Hb Hp]. split; [by eapply was_balance_or_empty_mono|].
  intros Hm. destruct (Hp Hm) as (rs & Hw & E). exists rs. split; [by eapply was_mono|done].
Qed.

(** Every request that is left is safe. *)
Definition sys_ok (s : Sys) : Prop :=
  world_ok (past s) (world s) ∧ ∀ t q p, pool s !! t = Some (q, p) → safe (λ r H, reply_ok H q r) p (past s).

Lemma sched_ok s s' : sys_ok s → sched s s' → sys_ok s'.
Proof.
  intros [Hw Hp] Hs. destruct Hs as [s t q fuel Ht Hq|s t q X f k x w Ht Hf].
  - split; [done|]. cbn. intros u q' p Hu. destruct (decide (u = t)) as [->|Hne].
    + rewrite lookup_insert_eq in Hu. injection Hu as <- <-. by apply safe_serve.
    + rewrite lookup_insert_ne in Hu by done. by eapply Hp.
  - pose proof (Hp t q _ Ht) as Hsafe. cbn in Hsafe. destruct (Hsafe (past s) (world s) x w (reflexivity _) Hw Hf) as [Hw' Hk].
    split; [done|]. cbn. intros u q' p Hu. destruct (decide (u = t)) as [->|Hne].
    + rewrite lookup_insert_eq in Hu. by injection Hu as <- <-.
    + rewrite lookup_insert_ne in Hu by done. apply (safe_mono _ _ (past s)); [intros; by eapply reply_ok_mono|intros y Hy; by right|]. by eapply Hp.
Qed.
Lemma system_ok db best rc ac ub s : reached_sys db best rc ac ub s → sys_ok s.
Proof.
  induction 1 as [|s s' _ IH Hs]; [|by eapply sched_ok]. split; [|intros t q p; cbn; by rewrite lookup_empty].
  split; [by apply list_elem_of_singleton|]. split; cbn; [rewrite map_size_empty; lia|apply map_Forall_empty].
Qed.

(** C11: However requests and the storing of blocks interleave, a reply is what the
    database had at one time: the rows, and the page of rows in each view, are
    of those that one query of the database, at some time until now, returned
    for the address; a count is one of the database, or of the transactions of
    such rows, or the spent outputs of such a balance; a balance is one that was
    summed by the query or computed from all such rows; only where a query of
    the balance failed does AddressHistory answer an empty balance, and the
    count of the debit view the number of all rows.  And so is everything in the
    cache. *)
Theorem replies_were_true db best rc ac ub s : reached_sys db best rc ac ub s →
  (∀ t q r, pool s !! t = Some (q, Done (Ok r)) → reply_ok (past s) q r) ∧
  ∀ addr it, a (w_cache (world s)) !! addr = Some it → item_ok (past s) addr it.
Proof.
  intros [[_ [_ Hi]] Hp]%system_ok. split; [|exact Hi]. intros t q r Ht. by apply (Hp t q _ Ht).
Qed.

(** ** A request alone *)
Lemma prun_bind {A B} (p : proc A) (k : A → proc B) : ∀ w,
  prun (p ≫= k) w = match prun p w with Some (r, w') => prun (stop r k) w' | None => None end.
Proof.
  unfold mbind, proc_bind. induction p as [r|X f p IH]; intros w; [by destruct r|]. cbn. destruct (f w) as [[x w']|]; [apply IH|done].
Qed.
Lemma prun_step {A B} (p : proc A) (k : A → proc B) w x w' : prun p w = Some (Ok x, w') → prun (p ≫= k) w = prun (k x) w'.
Proof. intros E. by rewrite prun_bind, E. Qed.
Lemma prun_try {A} (p : proc A) : ∀ w, prun (ptry p) w = match prun p w with
  | Some (Ok a, w') => Some (Ok (inl a), w') | Some (Err e, w') => Some (Ok (inr e), w')
  | Some (Panic, w') => Some (Panic, w') | Some (NoFuel, w') => Some (NoFuel, w') | None => None end.
Proof. induction p as [r|X f p IH]; intros w; [by destruct r|]. cbn. destruct (f w) as [[x w']|]; [apply IH|done]. Qed.
Lemma prun_cache {A} (m : AC A) x w c : m (w_cache w) = (Ok x, c) → prun (on_cache m) w = Some (Ok x, set_cache c w).
Proof. intros E. cbn. by rewrite E. Qed.

(** The locks of the address are free, and no channel to come is closed. *)
Definition free_lock (addr : string) (cl : CacheLock.CacheLock) : Prop :=
  CacheLock.addrs cl !! addr = None ∧ ∀ ch, ch ∈ closed (CacheLock.cs cl) → (ch < fresh (CacheLock.cs cl))%nat.
Definition free (addr : string) (w : World) : Prop := free_lock addr (w_rows w) ∧ free_lock addr (w_bal w).

(** Locking, some actions that leave the locks alone, and releasing. *)
Lemma lock_release l addr w : free addr w → ∃ ch w1, prun (try_lock l addr) w = Some (Ok (inr ch), w1) ∧ w_db w1 = w_db w ∧ w_best w1 = w_best w ∧ w_cache w1 = w_cache w ∧
  ∀ c, ∃ w2, prun (release l addr ch) (set_cache c w1) = Some (Ok tt, w2) ∧ free addr w2 ∧ w_db w2 = w_db w ∧ w_best w2 = w_best w ∧ w_cache w2 = c.
Proof.
  intros [[Hr Hrc] [Hb Hbc]]. destruct l; cbn; unfold CacheLock.TryLock; [rewrite Hr|rewrite Hb]; cbn; do 2 eexists; (split; [reflexivity|]);
    do 3 (split; [done|]); intros c; unfold CacheLock.close, CacheLock.done, close_chan; cbn.
  - rewrite decide_False by (intros Hin%Hrc; lia). eexists. split; [reflexivity|]. split; [|done]. split; [|done]. split; cbn.
    + apply lookup_delete_eq.
    + intros ch. rewrite elem_of_union, elem_of_singleton. intros [->|Hin%Hrc]; lia.
  - rewrite decide_False by (intros Hin%Hbc; lia). eexists. split; [reflexivity|]. split; [|done]. split; [done|]. split; cbn.
    + apply lookup_delete_eq.
    + intros ch. rewrite elem_of_union, elem_of_singleton. intros [->|Hin%Hbc]; lia.
Qed.

(** *** More calls of the cache return *)
Lemma returns_StoreRows addr l b c : returns (StoreRows addr l (Some b)) c.
Proof.
  unfold StoreRows, StoreRowsCompact, setCacheItemRows, returns. rewrite bind_gets, bool_decide_false by done. destruct (disabled c) eqn:Hd; [by do 2 eexists|].
  cbn [orb]. rewrite bind_gets, Hd. cbn [orb]. rewrite bind_gets, Hd, bind_gets.
  destruct (a c !! addr) as [it|]; [|apply returns_add]. destruct (stale _ b); [apply returns_add|]. destruct (_ && _); [by do 2 eexists|].
  match goal with |- context[purgeRowsToFit ?n] => destruct (purgeRowsToFit_spec n c Hd) as (m & E & _) end.
  rewrite (bind_Ok _ _ _ _ _ E). destruct (_ <=? _); by do 2 eexists.
Qed.
Lemma returns_ClearRows addr c : returns (ClearRows addr) c.
Proof. unfold ClearRows, returns. rewrite bind_gets. destruct (a c !! addr); by do 2 eexists. Qed.
Lemma returns_Rows addr ct c : returns (Rows addr ct) c.
Proof.
  unfold Rows, addressCacheItem, returns. rewrite bind_gets. destruct (a c !! addr) as [it|]; [|by do 2 eexists].
  destruct (fst (item_Rows it)); [|by do 2 eexists]. unfold count. rewrite bind_modify. destruct (ct =? CoinTypeAll); by do 2 eexists.
Qed.
(** A view there is; a merged or unspent page makes a slice of the size asked for. *)
Definition good_view (view : AddrTxnViewType) (N : Z) : Prop := is_Some (IsMergedView view) ∧ (plain_view view = None → cap_ok N = true).
Lemma view_cases view N : good_view view N →
  is_Some (plain_view view) ∨ (cap_ok N = true ∧ (is_Some (wrongDirection view) ∨ view = AddrUnspentTxn)).
Proof. intros [[m Hm] Hc]. destruct view; try discriminate Hm; try (left; by eexists); right; (split; [by apply Hc|]); try (by right); left; by eexists. Qed.
Lemma range_body_returns wrong rs N offset : 0 <= N → 0 <= offset → cap_ok N = true → ∃ ms, MergeRowsRange_body (A:=AddressRowCompact) wrong rs N offset = Ok ms.
Proof. intros HN Hoff Hc. rewrite MergeRowsRange_body_spec; [by eexists|done..|by apply Forall_true]. Qed.
Lemma CountUnspent_nonneg {A} (f : A → bool) rs : 0 <= CountUnspent f rs.
Proof. rewrite CountUnspent_filter. apply zlen_nonneg. Qed.

Lemma Slice_returns rows N offset view : good_view view N → 0 <= N → 0 <= offset → offset + N <= MaxInt64 →
  zlen (default [] rows) <= 3000000 → Forall (λ r, MergedCount r = 0) (default [] rows) →
  ∃ o, SliceAddressRows rows N offset view = Ok o.
Proof.
  intros Hv HN Hoff Hmax Hlen Hm. rewrite Slice_default. destruct rows as [[|r rs]|].
  1, 3: unfold SliceAddressRows; rewrite (proj2 (Z.ltb_ge offset 0)), (proj2 (Z.ltb_ge N 0)) by lia; cbn; rewrite orb_true_r; by eexists.
  cbn [default from_option id nil_if_empty] in *. destruct (view_cases view N Hv) as [[keepc Hk]|[Hc Hcase]].
  { destruct (plain_keep _ _ Hk) as (keep & Hvk & _). destruct (SliceAddressRows_page (r :: rs) N offset view keep Hvk HN Hoff Hmax) as (o' & E & _); [lia|]. by exists o'. }
  unfold SliceAddressRows. rewrite (proj2 (Z.ltb_ge offset 0)), (proj2 (Z.ltb_ge N 0)) by lia. cbn [orb default from_option id].
  destruct (_ || _); [by eexists|]. destruct Hcase as [[wrong Hw]| ->].
  - assert (∃ ms, MergeRowsRange (r :: rs) N offset view = Ok ms) as (ms & E).
    { unfold MergeRowsRange. rewrite (proj2 (Z.ltb_ge offset 0)), (proj2 (Z.ltb_ge N 0)), Hw by lia. cbn [orb].
      rewrite range_body_compact by (eapply Forall_impl; [exact Hm|]; intros x Hx; cbn; by rewrite Hx). by apply range_body_returns. }
    destruct view; try discriminate Hw; rewrite E; by eexists.
  - unfold SliceAddressUnspentCreditRows, slice_matching. destruct (_ <=? offset); [by eexists|]. destruct (_ && _); [by eexists|].
    pose proof (CountUnspent_nonneg (λ r, IsFunding r && bool_decide (MatchingTxHash r = None)) (r :: rs)) as Hn. unfold CountUnspentCreditRows.
    set (n := CountUnspent _ _) in *. assert (cap_ok (if n <? N then n else N) = true) as ->; [|by eexists].
    unfold cap_ok in *. rewrite andb_true_iff, !Z.leb_le in *. destruct (Z.ltb_spec n N); lia.
Qed.

Lemma item_returns H addr it N offset view m c : item_ok H addr it → a c !! addr = Some it → good_view view N → 0 <= N → 0 <= offset → offset + N <= MaxInt64 →
  IsMergedView view = Some m →
  ∃ rb b, item_Transactions it N offset view = Ok (rb, b) ∧ if m then ∃ ms, rb = RowsMerged ms else ∃ cs, rb = RowsCompact cs.
Proof.
  intros [Hi _] Ea Hv HN Hoff Hmax Em. destruct (rows it) as [rs|] eqn:Er.
  2: { unfold item_Transactions. rewrite (proj2 (Z.ltb_ge offset 0)), (proj2 (Z.ltb_ge N 0)), Em, Er by lia. cbn [orb].
       destruct m; do 2 eexists; (split; [done|]); by eexists. }
  destruct (was_valid _ _ _ (Hi _ eq_refl)) as [Hval Hlen]. destruct m.
  - unfold item_Transactions. rewrite (proj2 (Z.ltb_ge offset 0)), (proj2 (Z.ltb_ge N 0)), Em, Er, Hval by lia. cbn [orb].
    destruct (_ || _); [do 2 eexists; split; [done|by eexists]|].
    assert (∃ wrong, wrongDirection view = Some wrong) as (wrong & Hwr) by (destruct view; try discriminate Em; by eexists).
    assert (cap_ok N = true) as Hc by (apply Hv; by destruct view).
    destruct (range_body_returns wrong rs N offset HN Hoff Hc) as (ms & Eb).
    assert (MergeRowsCompactRange rs N offset view = Ok (Some ms)) as Ec.
    { unfold MergeRowsCompactRange. by rewrite (proj2 (Z.ltb_ge offset 0)), (proj2 (Z.ltb_ge N 0)), Hwr, Eb by lia. }
    assert (selectRows rs N offset view = Ok (RowsMerged (Some ms))) as ->; [|do 2 eexists; split; [done|by eexists]].
    destruct view; try discriminate Em; unfold selectRows; by rewrite Ec.
  - assert (∃ keep, cache_keep view = Some keep) as (keep & Hk) by (destruct view; try discriminate Em; by eexists).
    destruct (TransactionsCompact_page addr it rs N offset view keep c Ea Er Hk HN Hoff Hmax ltac:(lia)) as (o & E & _).
    unfold TransactionsCompact, addressCacheItem in E. rewrite bind_gets, Ea in E. cbn in E.
    destruct (item_Transactions it N offset view) as [[rb b]|e| |]; try discriminate E. cbn in E. destruct rb as [cs| |]; try discriminate E.
    do 2 eexists. split; [done|]. by eexists.
Qed.
Lemma returns_Transactions H addr N offset view c : good (item_ok H) c → good_view view N → 0 <= N → 0 <= offset → offset + N <= MaxInt64 →
  returns (Transactions addr N offset view) c.
Proof.
  intros [_ Hi] Hv HN Hoff Hmax. unfold Transactions, returns. pose proof Hv as [[m Em] _]. rewrite Em.
  assert (if m then ∃ x c', TransactionsMerged addr N offset view c = (Ok x, c') else ∃ x c', TransactionsCompact addr N offset view c = (Ok x, c')) as Ht.
  { unfold TransactionsCompact, TransactionsMerged, addressCacheItem. rewrite !bind_gets. destruct (a c !! addr) as [it|] eqn:Ea; [|destruct m; by do 2 eexists].
    destruct (item_returns H addr it N offset view m c (Hi _ _ Ea) Ea Hv HN Hoff Hmax Em) as (rb & b & E & Hrb).
    cbn. rewrite E. destruct m; destruct Hrb as [x ->]; by do 2 eexists. }
  destruct m; destruct Ht as (x & c' & E); rewrite (bind_Ok _ _ _ _ _ E); by do 2 eexists.
Qed.

(** *** Queries leave the database alone *)
Fixpoint quiet {A} (p : proc A) : Prop :=
  match p with
  | Done _ => True
  | Act f k => (∀ w x w', f w = Some (x, w') → w_db w' = w_db w) ∧ ∀ x, quiet (k x)
  end.
Lemma quiet_bind {A B} (p : proc A) (k : A → proc B) : quiet p → (∀ a, quiet (k a)) → quiet (p ≫= k).
Proof. unfold mbind, proc_bind. induction p as [[]|X f p IH]; cbn; [auto..|]. intros [Hf Hp] Hk. split; [done|]. intros x. by apply IH. Qed.
Lemma quiet_try {A} (p : proc A) : quiet p → quiet (ptry p).
Proof. induction p as [[]|X f p IH]; cbn; [done..|]. intros [Hf Hp]. split; [done|]. intros x. by apply IH. Qed.
Lemma quiet_look {A} (f : World → A) : quiet (look f).
Proof. split; [by intros w x w' [= <- <-]|done]. Qed.
Lemma quiet_cache {A} (m : AC A) : quiet (on_cache m).
Proof. split; [|done]. intros w x w'. destruct (m (w_cache w)) as [r c]. by intros [= <- <-]. Qed.
Lemma quiet_lock {A} l (f : World → option (A * World)) : (∀ w x w', f w = Some (x, w') → ∃ c, w' = set_lock l c w) → ∀ w x w', f w = Some (x, w') → w_db w' = w_db w.
Proof. intros Hf w x w' E. destruct (Hf _ _ _ E) as [c ->]. by destruct l. Qed.
Lemma quiet_try_lock l addr : quiet (try_lock l addr).
Proof.
  split; [|done]. apply (quiet_lock l). intros w x w' E.
  destruct (CacheLock.TryLock addr (lock_of l w)) as [[[[] [ch|]] [ch'|]] c]; injection E as <- <- || discriminate; by exists c.
Qed.
Lemma quiet_wait l ch : quiet (wait l ch).
Proof. split; [|done]. intros w x w'. destruct (decide _); [by intros [= <- <-]|done]. Qed.
Lemma quiet_release l addr ch : quiet (release l addr ch).
Proof.
  split; [intros w x w' [= <- <-]; by destruct l|]. intros _. split; [|done]. intros w x w'.
  destruct (CacheLock.close ch (lock_of l w)); intros [= <- <-]; by destruct l.
Qed.
Lemma quiet_lift_row {A} (r : res RowErr A) : quiet (lift_row r).
Proof. by destruct r. Qed.
Create HintDb quiet.
#[local] Hint Resolve quiet_look quiet_cache quiet_try_lock quiet_wait quiet_release quiet_lift_row quiet_try : quiet.
Ltac solve_quiet := repeat first
  [ exact I | solve [auto with quiet] | apply quiet_bind; [|intros ?] | match goal with |- quiet (match ?x with _ => _ end) => destruct x end ].

Lemma quiet_balance fuel addr : quiet (pg_AddressBalance fuel addr).
Proof. induction fuel as [|fuel IH]; [done|]. cbn [pg_AddressBalance]. solve_quiet. Qed.
#[local] Hint Resolve quiet_balance : quiet.
Lemma quiet_update addr : quiet (updateAddressRows addr).
Proof. unfold updateAddressRows. solve_quiet. Qed.
#[local] Hint Resolve quiet_update : quiet.
Lemma quiet_balance_or_empty fuel addr : quiet (balance_or_empty fuel addr).
Proof. unfold balance_or_empty. solve_quiet. Qed.
#[local] Hint Resolve quiet_balance_or_empty : quiet.
Lemma quiet_history_balance fuel addr best rows N offset view : quiet (history_balance fuel addr best rows N offset view).
Proof. unfold history_balance. cbv zeta. solve_quiet. Qed.
#[local] Hint Resolve quiet_history_balance : quiet.
Lemma quiet_history fuel addr N offset view : ∀ ct, quiet (AddressHistory fuel addr N offset view ct).
Proof. induction fuel as [|fuel IH]; intros ct; [done|]. cbn [AddressHistory]. solve_quiet. Qed.

(** What is safe is so alone. *)
Lemma safe_prun {A} (Q : A → list ADB → Prop) (p : proc A) : ∀ H w x w', safe Q p H → quiet p → world_ok H w → Forall (λ d, d = w_db w) H →
  prun p w = Some (Ok x, w') → ∃ H', Forall (λ d, d = w_db w) H' ∧ Q x H' ∧ world_ok H' w'.
Proof.
  induction p as [r|X f p IH]; intros H w x w' Hs Hq Hw HH E; cbn in E.
  - injection E as -> <-. exists H. split; [done|]. split; [by apply Hs|done].
  - destruct (f w) as [[y w1]|] eqn:Ef; [|done]. destruct Hq as [Hq Hqk]. destruct (Hs H w y w1 (reflexivity _) Hw Ef) as [Hw1 Hs1].
    pose proof (Hq _ _ _ Ef) as Hdb. rewrite <- Hdb in *. apply (IH y (w_db w1 :: H) w1 x w' Hs1 (Hqk y) Hw1); [|done]. by constructor.
Qed.

(** *** Queries end *)
Lemma prun_act {A B} (m : AC A) (k : A → proc B) w : returns m (w_cache w) →
  ∃ x c, m (w_cache w) = (Ok x, c) ∧ prun (on_cache m ≫= k) w = prun (k x) (set_cache c w).
Proof. intros (x & c & E). exists x, c. split; [done|]. by rewrite (prun_step _ _ _ _ _ (prun_cache m x w c E)). Qed.
Lemma prun_look {A B} (f : World → A) (k : A → proc B) w : prun (look f ≫= k) w = prun (k (f w)) w.
Proof. done. Qed.

Lemma prun_update addr l w : free addr w → SelectAddressRows addr (w_db w) = Some l →
  ∃ w', prun (updateAddressRows addr) w = Some (Ok (nil_if_empty l, None), w') ∧ free addr w' ∧ w_db w' = w_db w.
Proof.
  intros Hf Hl. destruct (lock_release LRows addr w Hf) as (ch & w1 & E1 & Hdb & _ & _ & Hrel). unfold updateAddressRows. rewrite (prun_step _ _ _ _ _ E1).
  destruct (prun_act (ClearRows addr) (λ _, best ← look w_best; r ← look (λ w, SelectAddressRows addr (w_db w));
    match r with
    | None => release LRows addr ch ≫= λ _, mret (None, Some EQuery)
    | Some rows => on_cache (StoreRows addr (nil_if_empty rows) (Some (NewBlockID best.1 best.2))) ≫= λ _, release LRows addr ch ≫= λ _, mret (nil_if_empty rows, None)
    end) w1 (returns_ClearRows _ _)) as (u & c & _ & ->).
  rewrite !prun_look. change (w_db (set_cache c w1)) with (w_db w1). rewrite Hdb, Hl.
  match goal with |- context[prun (on_cache ?m ≫= ?k) ?w2] => destruct (prun_act m k w2 (returns_StoreRows _ _ _ _)) as (u2 & c2 & _ & ->) end.
  destruct (Hrel c2) as (w2 & E2 & Hf2 & Hdb2 & _). change (set_cache c2 (set_cache c w1)) with (set_cache c2 w1). rewrite (prun_step _ _ _ _ _ E2).
  exists w2. by split_and!.
Qed.

Lemma retrieve_ends gs addr : retrieveAddressBalance gs addr ≠ Panic ∧ retrieveAddressBalance gs addr ≠ NoFuel.
Proof. unfold retrieveAddressBalance. destruct gs as [gs|]; [destruct (forallb scans gs)|]; done. Qed.

Lemma prun_balance fuel addr w : free addr w → ∃ r w', prun (pg_AddressBalance (S fuel) addr) w = Some (r, w') ∧ r ≠ Panic ∧ r ≠ NoFuel.
Proof.
  intros Hf. cbn [pg_AddressBalance]. destruct (negb _); [by do 2 eexists|]. rewrite prun_look.
  match goal with |- context[prun (on_cache ?m ≫= ?k) ?w2] => destruct (prun_act m k w2 (returns_Balance _ _)) as ([b blk] & c & _ & ->) end.
  set (w0 := set_cache c w). assert (free addr w0) as Hf0 by done. clearbody w0.
  assert (∀ best, ∃ r w', prun (l ← try_lock LBal addr; match l with
    | inl ch => wait LBal ch ≫= λ _, pg_AddressBalance fuel addr
    | inr ch => r ← look (λ w, retrieveAddressBalance (SelectBalanceGroups addr (w_db w)) addr);
        match r with
        | Ok bal => updated ← on_cache (StoreBalance addr (Some bal) (Some (NewBlockID (best : Hash * Z).1 best.2))); release LBal addr ch ≫= λ _, mret (bal, updated)
        | Err e => release LBal addr ch ≫= λ _, raise (EBalance e)
        | Panic => Done Panic
        | NoFuel => Done NoFuel
        end end) w0 = Some (r, w') ∧ r ≠ Panic ∧ r ≠ NoFuel) as Hmiss.
  { intros best. destruct (lock_release LBal addr w0 Hf0) as (ch & w1 & E1 & _ & _ & _ & Hrel). rewrite (prun_step _ _ _ _ _ E1), prun_look.
    destruct (retrieve_ends (SelectBalanceGroups addr (w_db w1)) addr) as [Hp Hn].
    destruct (retrieveAddressBalance _ addr) as [bal|e| |]; try done.
    - match goal with |- context[prun (on_cache ?m ≫= ?k) ?w2] => destruct (prun_act m k w2 (returns_StoreBalance _ _ _ _)) as (u & c2 & _ & ->) end.
      destruct (Hrel c2) as (w2 & E2 & _). rewrite (prun_step _ _ _ _ _ E2). by do 2 eexists.
    - destruct (Hrel (w_cache w1)) as (w2 & E2 & _). replace (set_cache (w_cache w1) w1) with w1 in E2 by by destruct w1.
      rewrite (prun_step _ _ _ _ _ E2). by do 2 eexists. }
  destruct b as [b|], blk as [blk|]; try apply Hmiss. by do 2 eexists.
Qed.

Lemma prun_balance_or_empty fuel addr w : free addr w → ∃ b w', prun (balance_or_empty (S fuel) addr) w = Some (Ok b, w').
Proof.
  intros Hf. destruct (prun_balance fuel addr w Hf) as (r & w' & E & Hp & Hn). unfold balance_or_empty. rewrite prun_bind, prun_try, E.
  destruct r as [[b u]|e| |]; try done; by do 2 eexists.
Qed.

Lemma prun_history_balance fuel addr best rows N offset view w : free addr w → ∃ b w', prun (history_balance (S fuel) addr best rows N offset view) w = Some (Ok b, w').
Proof.
  intros Hf. unfold history_balance.
  match goal with |- context[prun (on_cache ?m ≫= ?k) ?w2] => destruct (prun_act m k w2 (returns_Balance _ _)) as ([b blk] & c & _ & ->) end.
  destruct b as [b|]; [by do 2 eexists|]. cbv zeta. destruct (_ && _); [|by apply prun_balance_or_empty]. set (w0 := set_cache c w).
  assert (∃ b : AddressBalance, match default [] rows with [] => mret (emptyBalance addr) | _ :: _ =>
    match (ReduceAddressHistory (default [] rows)).1.1 with Some info => mret (set_address addr (ai_Balance info)) | None => raise EReduce end end = mret b) as [b ->]
    by (destruct (default [] rows); by eexists).
  cbn [mbind proc_bind pbind mret proc_ret stop].
  match goal with |- context[prun (on_cache ?m ≫= ?k) ?w2] => destruct (prun_act m k w2 (returns_StoreBalance _ _ _ _)) as (u & c2 & _ & ->) end.
  by do 2 eexists.
Qed.

Lemma prun_history fuel addr N offset view ct w l : DecodeAddress addr = true → free addr w → good (item_ok [w_db w]) (w_cache w) →
  SelectAddressRows addr (w_db w) = Some l → good_view view N → 0 <= N → 0 <= offset → offset + N <= MaxInt64 →
  ∃ x w', prun (AddressHistory (S fuel) addr N offset view ct) w = Some (Ok x, w').
Proof.
  intros Hd Hf Hg Hl Hv HN Hoff Hmax. cbn [AddressHistory]. rewrite Hd. cbn [negb].
  assert (∀ o, zlen (default [] o) <= 3000000 → Forall (λ r, MergedCount r = 0) (default [] o) → ∃ o', SliceAddressRows o N offset view = Ok o') as Hslice.
  { intros o Ho Hm. by apply Slice_returns. }
  assert (db_rows [w_db w] addr l) as Hdbl.
  { split; [exists (w_db w), l; split; [by left|done]|]. split; [by eapply rows_valid|by eapply rows_limit]. }
  pose proof (rows_limit _ _ _ Hl) as Hlim. destruct (negb (ct =? CoinTypeAll)) eqn:Hct.
  - match goal with |- context[prun (on_cache ?m ≫= ?k) ?w2] => destruct (prun_act m k w2 (returns_Rows _ _ _)) as ([o blk] & c & Eo & ->) end.
    set (w0 := set_cache c w). assert (∀ full w1, free addr w1 → zlen (default [] full) <= 3000000 → Forall (λ r, MergedCount r = 0) (default [] full) →
      ∃ x w', prun (pagedRows ← lift_row (SliceAddressRows full N offset view); balance ← balance_or_empty (S fuel) addr; mret (pagedRows, balance)) w1 = Some (Ok x, w')) as Hend.
    { intros full w1 Hf1 Hlen Hmc. destruct (Hslice full Hlen Hmc) as (o' & ->). cbn [lift_row]. destruct (prun_balance_or_empty fuel addr w1 Hf1) as (b & w' & E).
      cbn [mbind proc_bind pbind mret proc_ret stop lift_row]. rewrite (prun_step _ _ _ _ _ E). by do 2 eexists. }
    destruct blk as [blk|].
    + apply Hend; [done| |destruct o as [o|]; [|done]; cbn; apply Forall_fmap, Forall_true; done]. destruct (Rows_was [w_db w] addr ct (w_cache w) o blk Hg) as (rs & Hw & E); [by rewrite Eo|].
      assert (zlen (default [] (UncompactRows o)) = zlen (default [] o)) as -> by (destruct o; [cbn; unfold zlen; by rewrite length_fmap|done]).
      destruct (was_valid _ _ _ Hw) as [_ Hlen]. rewrite E. unfold of_coin_type. destruct (ct =? CoinTypeAll); [done|].
      pose proof (length_filter_le (λ r, c_CoinType r =? ct) rs). lia.
    + destruct (prun_update addr l w0 Hf Hl) as (w1 & E & Hf1 & _). rewrite prun_bind, (prun_step _ _ _ _ _ E). cbn [stop].
      apply Hend; [done| |rewrite !nil_if_empty_default; by eapply db_rows_merged]. rewrite !nil_if_empty_default. pose proof (length_filter_le (λ r, CoinType r =? ct) l). lia.
  - rewrite prun_look.
    match goal with |- context[prun (on_cache ?m ≫= ?k) ?w2] => destruct (prun_act m k w2 (returns_Transactions _ _ _ _ _ _ Hg Hv HN Hoff Hmax)) as ([o blk] & c & Eo & ->) end.
    set (w0 := set_cache c w). assert (∀ rows w1, free addr w1 → ∃ x w', prun (b ← history_balance (S fuel) addr (w_best w) rows N offset view; mret (rows, b)) w1 = Some (Ok x, w')) as Hend.
    { intros rows w1 Hf1. destruct (prun_history_balance fuel addr (w_best w) rows N offset view w1 Hf1) as (b & w' & E). rewrite (prun_step _ _ _ _ _ E). by do 2 eexists. }
    assert (∃ x w', prun ('(rows, err) ← updateAddressRows addr; match err with Some ERetry => AddressHistory fuel addr N offset view CoinTypeAll | Some e => raise e
      | None => addressRows ← lift_row (SliceAddressRows rows N offset view); b ← history_balance (S fuel) addr (w_best w) addressRows N offset view; mret (addressRows, b) end) w0 = Some (Ok x, w')) as Hmiss.
    { destruct (prun_update addr l w0 Hf Hl) as (w1 & E & Hf1 & _). rewrite (prun_step _ _ _ _ _ E).
      destruct (Hslice (nil_if_empty l)) as (o' & ->); [by rewrite nil_if_empty_default|rewrite nil_if_empty_default, <- (filter_all l); by eapply db_rows_merged|]. by apply Hend. }
    destruct o as [o|], blk as [blk|]; try exact Hmiss. by apply Hend.
Qed.

(** C13: Alone, AddressHistory answers what the database has, when the address
    is not cached and when what is cached of it is what the database has: it
    returns, with the page of the view of the rows of the database (those of the
    coin that is asked for): the N rows after the first offset for the all,
    credit and debit view; the transactions of the rows left after the skipped
    ones for the merged views; the unspent credits, or in their number credits
    whether unspent or not, for the unspent view.  And the balance, whose query
    works, is the one of the database.  One attempt is enough, and what is
    cached afterwards is again what the database has. *)
Theorem AddressHistory_alone fuel addr N offset view ct w l bal :
  DecodeAddress addr = true → free addr w → world_ok [w_db w] w → SelectAddressRows addr (w_db w) = Some l →
  retrieveAddressBalance (SelectBalanceGroups addr (w_db w)) addr = Ok bal →
  good_view view N → 0 <= N → 0 <= offset → offset + N <= MaxInt64 →
  ∃ rows b w', prun (AddressHistory (S fuel) addr N offset view ct) w = Some (Ok (rows, b), w') ∧
    view_page view (of_coin_type ct (CompactRows l)) N offset (default [] rows) ∧
    was_balance [w_db w] addr b ∧ good (item_ok [w_db w]) (w_cache w').
Proof.
  intros Hd Hf Hw Hl Hbal Hv HN Hoff Hmax.
  destruct (prun_history fuel addr N offset view ct w l Hd Hf (proj2 Hw) Hl Hv HN Hoff Hmax) as ([rows b] & w' & E).
  exists rows, b, w'. split; [exact E|].
  destruct (safe_prun _ _ _ _ _ _ (safe_history (S fuel) addr N offset view ct ltac:(lia) [w_db w]) (quiet_history _ _ _ _ _ _) Hw ltac:(by constructor) E) as (H' & HH & [Hb Hp] & [_ Hg]).
  rewrite Forall_forall in HH. assert (H' ⊆ [w_db w]) as Hs. { intros d Hin. apply list_elem_of_singleton. by apply HH. }
  split; [|split; [|by eapply good_mono]].
  - destruct (Hp Hmax) as (rs & (d & l' & Hin & El & ->) & Ep). change ((rows, b).1) with rows in Ep. rewrite (HH d Hin), Hl in El. by injection El as <-.
  - destruct Hb as [Hb|[_ (d & e & Hin & Ee)]]; [by eapply was_balance_mono|]. by rewrite (HH d Hin), Hbal in Ee.
Qed.

(** *** Schedules

    The next [n] actions of a process. *)
Fixpoint pstep {A} (n : nat) (p : proc A) (w : World) : option (proc A * World) :=
  match n, p with
  | O, _ => Some (p, w)
  | S n, Act f k => match f w with Some (x, w') => pstep n (k x) w' | None => None end
  | S _, Done _ => None
  end.
Lemma reached_pstep db best rc ac ub n : ∀ s t q p p' w', reached_sys db best rc ac ub s → pool s !! t = Some (q, p) → pstep n p (world s) = Some (p', w') →
  ∃ H, reached_sys db best rc ac ub (mkSys w' (<[t := (q, p')]> (pool s)) H).
Proof.
  induction n as [|n IH]; intros s t q p p' w' Hr Ht E.
  - injection E as <- <-. exists (past s). rewrite insert_id by done. by destruct s.
  - destruct p as [r|X f k]; [done|]. cbn in E. destruct (f (world s)) as [[x w1]|] eqn:Ef; [|done].
    destruct (IH (mkSys w1 (<[t := (q, k x)]> (pool s)) (w_db w1 :: past s)) t q (k x) p' w') as (H & Hr').
    + eapply reached_step; [exact Hr|]. by eapply sched_act.
    + apply lookup_insert_eq.
    + exact E.
    + exists H. cbn in Hr'. by rewrite insert_insert_eq in Hr'.
Qed.
End Queries.
Arguments Done {adb A} r.
Arguments Act {adb A X} f k.

(** ** Concrete instances *)
Module Witness.
#[local] Instance types : StakeTypes := {| stSStx := 1; stSSGen := 2; stSSRtx := 3; stSSFee := 7 |}.
#[local] Instance order : RangeOrder string AddressCacheItem := canonical_range.
(** The number of rows of address "a". *)
Definition row (h : Z) : AddressRow := mkRow "a" true None true (NewTimeDefFromUNIX h) [h] 0 10 0 0 0 10 0 0 "".
Definition table (n : Z) : list AddressRow := if n =? 1 then [row 1] else [row 2; row 1].
#[local] Program Instance db : AddrDB :=
  {| ADB := Z; SelectAddressRows := λ _ n, Some (table n); SelectBalanceGroups := λ _ n, SelectAddressSpentUnspentCountAndValue (λ _, None) (table n);
     CountMerged := λ _ _ _ _, None; CountRows := λ _ _ n, Some (zlen (table n)); DecodeAddress := λ s, bool_decide (s = "a"%string) |}.
Next Obligation. intros addr n l [= <-]. unfold table. by destruct (n =? 1); repeat constructor. Qed.
Next Obligation. intros addr n l [= <-]. unfold table. by destruct (n =? 1). Qed.

Definition start : World := fresh_world 1 ([1], 1) (NewAddressCache 100 10 100000).
(** A request for the rows, a block with another row, and a reply. *)
Definition request : Request := QCompact "a" CoinTypeAll.
Definition block : Request := QStoreBlock [λ _, 2] ([2], 2) ["a"%string].
Definition new_sys : Sys := mkSys start ∅ [1].

Definition get {A} (d : A) (o : option A) : A := default d o.
Definition after1 := get (serve 1 request, start) (pstep 5 (serve 1 request) start).
Definition after2 := get (serve 1 block, start) (pstep 3 (serve 1 block) after1.2).
Definition after3 := get after1 (pstep 3 after1.1 after2.2).

Lemma reached_request q t s : reached_sys 1 ([1], 1) 100 10 100000 s → pool s !! t = None → int64_limit q →
  reached_sys 1 ([1], 1) 100 10 100000 (mkSys (world s) (<[t := (q, serve 1 q)]> (pool s)) (past s)).
Proof. intros Hr Ht Hq. eapply reached_step; [exact Hr|]. by apply sched_arrive. Qed.

(** The request has read the rows, a block with a new row is stored, and the
    request goes on. *)
Lemma race_reached : ∃ H, reached_sys 1 ([1], 1) 100 10 100000 (mkSys after3.2 {[0%nat := (request, after3.1); 1%nat := (block, after2.1)]} H).
Proof.
  pose proof (reached_request request 0%nat new_sys (reached_start _ _ _ _ _) eq_refl I) as H0.
  destruct (reached_pstep _ _ _ _ _ 5 _ 0%nat request _ after1.1 after1.2 H0 (lookup_insert_eq _ _ _) eq_refl) as (P1 & H1).
  pose proof (reached_request block 1%nat _ H1 eq_refl I) as H2.
  destruct (reached_pstep _ _ _ _ _ 3 _ 1%nat block _ after2.1 after2.2 H2 (lookup_insert_eq _ _ _) eq_refl) as (P2 & H3).
  destruct (reached_pstep _ _ _ _ _ 3 _ 0%nat request after1.1 after3.1 after3.2 H3 eq_refl eq_refl) as (P3 & H4).
  exists P3. exact H4.
Qed.

(** Rows that a request read before a block was stored can be put into the
    cache after the block's storing has cleared it: then no request is left, the
    database has the block's row, and yet the address is served without it, for
    as long as nothing clears it. *)
Lemma stale_rows_stay : ∃ s, reached_sys 1 ([1], 1) 100 10 100000 s ∧
  (∀ t q p, pool s !! t = Some (q, p) → ∃ r, p = Done (Ok r)) ∧
  w_best (world s) = ([2], 2) ∧ SelectAddressRows "a" (w_db (world s)) = Some [row 2; row 1] ∧
  ∃ w', prun (AddressRowsCompact_ 1 "a" CoinTypeAll) (world s) = Some (Ok (Some (CompactRows [row 1])), w').
Proof.
  destruct race_reached as (H & Hr). eexists. split; [exact Hr|]. split.
  - intros t q p Ht. cbn [pool] in Ht. rewrite lookup_insert_Some in Ht. destruct Ht as [[<- [= <- <-]]|[_ Ht]]; [by eexists|].
    rewrite lookup_singleton_Some in Ht. destruct Ht as [<- [= <- <-]]. by eexists.
  - split; [vm_compute; reflexivity|]. split; [vm_compute; reflexivity|]. eexists. vm_compute. reflexivity.
Qed.

Definition reply_ok_here (s : Sys) : Prop := ∀ t q r, pool s !! t = Some (q, Done (Ok r)) → reply_ok (past s) q r.
Lemma replies_were_true_witness : ∃ s, reached_sys 1 ([1], 1) 100 10 100000 s ∧ pool s !! 0%nat = Some (request, Done (Ok (RCompact (Some (CompactRows [row 1]))))) ∧ reply_ok_here s.
Proof.
  destruct race_reached as (H & Hr). eexists. split; [exact Hr|]. split; [vm_compute; reflexivity|].
  exact (proj1 (replies_were_true _ _ _ _ _ _ Hr)).
Defined.

Lemma start_free : free "a" start.
Proof. split; split; [done|intros ch; cbn; set_solver|done|intros ch; cbn; set_solver]. Qed.
Lemma start_ok : world_ok [1] start.
Proof. split; [apply list_elem_of_singleton; done|]. split; cbn; [rewrite map_size_empty; lia|apply map_Forall_empty]. Qed.

Definition start_balance : AddressBalance :=
  match retrieveAddressBalance (SelectBalanceGroups "a" 1) "a" with Ok b => b | _ => emptyBalance "a" end.
Lemma start_balance_ok : retrieveAddressBalance (SelectBalanceGroups "a" (w_db start)) "a" = Ok start_balance.
Proof. vm_compute. reflexivity. Qed.
Lemma AddressHistory_alone_witness : ∃ rows b w', prun (AddressHistory 1 "a" 5 0 AddrTxnAll CoinTypeAll) start = Some (Ok (rows, b), w') ∧
  CompactRows (default [] rows) = CompactRows [row 1].
Proof.
  destruct (AddressHistory_alone 0 "a" 5 0 AddrTxnAll CoinTypeAll start (table 1) start_balance eq_refl start_free start_ok eq_refl start_balance_ok
    ltac:(split; [by eexists|done])    ltac:(lia) ltac:(lia) ltac:(unfold MaxInt64; lia)) as (rows & b & w' & E & Hp & _).
  exists rows, b, w'. split; [exact E|]. rewrite Hp. reflexivity.
Defined.
End Witness.
