(* ===== verification/Indexes.v ===== *)
(** * Table indexes (db/dcrpg/indexing.go, db/dcrpg/internal/indexes.go)

    The indexes of the tables, the statements that create and drop them, and
    the lists of statements that a synchronization runs.  Some statements say
    IF [NOT] EXISTS and some do not, and any may fail.  The theorem is that
    dropping all and creating them again ends with every index that the start
    of the program looks for but one, which nothing creates in new tables. *)
From stdpp Require Import gmap strings.
From S2P Require Import Prelude GoPost.
Open Scope Z_scope.

(** What the database is asked besides blocks: its indexes, whether the initial
    download is complete, and the heights of the blocks that were stored without
    noting their spending in the addresses table, and not updated since. *)
Record Meta := mkMeta { indexes : gset string; ibd_complete : bool; pending : gset Z; clock : nat }.
Definition set_indexes (i : gset string) (m : Meta) : Meta := mkMeta i (ibd_complete m) (pending m) (clock m).
Definition set_ibd (b : bool) (m : Meta) : Meta := mkMeta (indexes m) b (pending m) (clock m).
Definition set_pending (p : gset Z) (m : Meta) : Meta := mkMeta (indexes m) (ibd_complete m) p (clock m).
Definition tick (m : Meta) : Meta := mkMeta (indexes m) (ibd_complete m) (pending m) (S (clock m)).

(** Whether the statement at a time succeeds if it can. *)
Class Server := alive : nat → bool.
Inductive SqlErr := ENotExist | EExists | ESql.

Section Indexing.
Context {server : Server}.
Abbreviation AM := (goM Meta SqlErr).

Definition exec {A} (f : AM A) : AM A := λ m, if alive (clock m) then f (tick m) else (Err ESql, tick m).
(** CREATE INDEX and DROP INDEX, with IF NOT EXISTS or IF EXISTS. *)
Definition create_index (if_not : bool) (n : string) : AM unit := exec (λ m,
  if decide (n ∈ indexes m) then (if if_not then Ok tt else Err EExists, m) else (Ok tt, set_indexes ({[n]} ∪ indexes m) m)).
Definition drop_index (if_there : bool) (n : string) : AM unit := exec (λ m,
  if decide (n ∈ indexes m) then (Ok tt, set_indexes (indexes m ∖ {[n]}) m) else (if if_there then Ok tt else Err ENotExist, m)).
Definition ExistsIndex (n : string) : AM bool := exec (λ m, (Ok (bool_decide (n ∈ indexes m)), m)).

(** ** Names and statements *)
Definition IndexOfBlocksTableOnHash : string := "uix_block_hash".
Definition IndexOfBlocksTableOnHeight : string := "uix_block_height".
Definition IndexOfBlocksTableOnTime : string := "uix_block_time".
Definition IndexOfTransactionsTableOnHashes : string := "uix_tx_hashes".
Definition IndexOfTransactionsTableOnBlockInd : string := "uix_tx_block_in".
Definition IndexOfTransactionsTableOnBlockHeight : string := "ix_tx_block_height".
Definition IndexOfVinsTableOnVin : string := "uix_vin".
Definition IndexOfVinsTableOnPrevOut : string := "uix_vin_prevout".
Definition IndexOfVoutsTableOnTxHashInd : string := "uix_vout_txhash_ind".
Definition IndexOfVoutsTableOnSpendTxID : string := "uix_vout_spendtxid_ind".
Definition IndexOfAddressTableOnAddress : string := "uix_addresses_address".
Definition IndexOfAddressTableOnVoutID : string := "uix_addresses_vout_id".
Definition IndexOfAddressTableOnBlockTime : string := "block_time_index".
Definition IndexOfAddressTableOnTx : string := "uix_addresses_funding_tx".
Definition IndexOfAddressTableOnMatchingTx : string := "matching_tx_hash_index".
Definition IndexOfTicketsTableOnHashes : string := "uix_ticket_hashes_index".
Definition IndexOfTicketsTableOnTxRowID : string := "uix_ticket_ticket_db_id".
Definition IndexOfTicketsTableOnPoolStatus : string := "uix_tickets_pool_status".
Definition IndexOfVotesTableOnHashes : string := "uix_votes_hashes_index".
Definition IndexOfVotesTableOnBlockHash : string := "uix_votes_block_hash".
Definition IndexOfVotesTableOnCandBlock : string := "uix_votes_candidate_block".
Definition IndexOfVotesTableOnVersion : string := "uix_votes_vote_version".
Definition IndexOfVotesTableOnHeight : string := "uix_votes_height".
Definition IndexOfVotesTableOnBlockTime : string := "uix_votes_block_time".
Definition IndexOfMissesTableOnHashes : string := "uix_misses_hashes_index".
Definition IndexOfAgendasTableOnName : string := "uix_agendas_name".
Definition IndexOfAgendaVotesTableOnRowIDs : string := "uix_agenda_votes".
Definition IndexOfHeightOnStatsTable : string := "uix_stats_height".
Definition IndexOfMinersTableOnLastUsed : string := "ix_miners_last_used".

Definition IndexVinTableOnVins : AM unit := create_index false IndexOfVinsTableOnVin.
Definition IndexVinTableOnPrevOuts : AM unit := create_index false IndexOfVinsTableOnPrevOut.
Definition DeindexVinTableOnVins : AM unit := drop_index false IndexOfVinsTableOnVin.
Definition DeindexVinTableOnPrevOuts : AM unit := drop_index false IndexOfVinsTableOnPrevOut.
Definition IndexTransactionTableOnHashes : AM unit := create_index false IndexOfTransactionsTableOnHashes.
Definition DeindexTransactionTableOnHashes : AM unit := drop_index false IndexOfTransactionsTableOnHashes.
Definition IndexTransactionTableOnBlockIn : AM unit := create_index false IndexOfTransactionsTableOnBlockInd.
Definition DeindexTransactionTableOnBlockIn : AM unit := drop_index false IndexOfTransactionsTableOnBlockInd.
Definition IndexTransactionTableOnBlockHeight : AM unit := create_index false IndexOfTransactionsTableOnBlockHeight.
Definition DeindexTransactionTableOnBlockHeight : AM unit := drop_index false IndexOfTransactionsTableOnBlockHeight.
Definition IndexBlockTableOnHash : AM unit := create_index false IndexOfBlocksTableOnHash.
Definition IndexBlockTableOnHeight : AM unit := create_index false IndexOfBlocksTableOnHeight.
Definition IndexBlockTableOnTime : AM unit := create_index false IndexOfBlocksTableOnTime.
Definition DeindexBlockTableOnHash : AM unit := drop_index false IndexOfBlocksTableOnHash.
Definition DeindexBlockTableOnHeight : AM unit := drop_index false IndexOfBlocksTableOnHeight.
Definition DeindexBlockTableOnTime : AM unit := drop_index false IndexOfBlocksTableOnTime.
Definition IndexVoutTableOnTxHashIdx : AM unit := create_index true IndexOfVoutsTableOnTxHashInd.
Definition DeindexVoutTableOnTxHashIdx : AM unit := drop_index true IndexOfVoutsTableOnTxHashInd.
Definition IndexVoutTableOnSpendTxID : AM unit := create_index true IndexOfVoutsTableOnSpendTxID.
Definition DeindexVoutTableOnSpendTxID : AM unit := drop_index true IndexOfVoutsTableOnSpendTxID.
Definition IndexBlockTimeOnTableAddress : AM unit := create_index true IndexOfAddressTableOnBlockTime.
Definition DeindexBlockTimeOnTableAddress : AM unit := drop_index true IndexOfAddressTableOnBlockTime.
Definition IndexAddressTableOnMatchingTxHash : AM unit := create_index true IndexOfAddressTableOnMatchingTx.
Definition DeindexAddressTableOnMatchingTxHash : AM unit := drop_index true IndexOfAddressTableOnMatchingTx.
Definition IndexAddressTableOnAddress : AM unit := create_index true IndexOfAddressTableOnAddress.
Definition DeindexAddressTableOnAddress : AM unit := drop_index true IndexOfAddressTableOnAddress.
Definition IndexAddressTableOnVoutID : AM unit := create_index true IndexOfAddressTableOnVoutID.
Definition DeindexAddressTableOnVoutID : AM unit := drop_index true IndexOfAddressTableOnVoutID.
Definition IndexAddressTableOnTxHash : AM unit := create_index true IndexOfAddressTableOnTx.
Definition DeindexAddressTableOnTxHash : AM unit := drop_index true IndexOfAddressTableOnTx.
Definition IndexVotesTableOnHashes : AM unit := create_index false IndexOfVotesTableOnHashes.
Definition DeindexVotesTableOnHash : AM unit := drop_index false IndexOfVotesTableOnHashes.
Definition IndexVotesTableOnBlockHash : AM unit := create_index false IndexOfVotesTableOnBlockHash.
Definition DeindexVotesTableOnBlockHash : AM unit := drop_index false IndexOfVotesTableOnBlockHash.
Definition IndexVotesTableOnCandidate : AM unit := create_index false IndexOfVotesTableOnCandBlock.
Definition DeindexVotesTableOnCandidate : AM unit := drop_index false IndexOfVotesTableOnCandBlock.
Definition IndexVotesTableOnVoteVersion : AM unit := create_index false IndexOfVotesTableOnVersion.
Definition DeindexVotesTableOnVoteVersion : AM unit := drop_index false IndexOfVotesTableOnVersion.
Definition IndexVotesTableOnHeight : AM unit := create_index false IndexOfVotesTableOnHeight.
Definition DeindexVotesTableOnHeight : AM unit := drop_index false IndexOfVotesTableOnHeight.
Definition IndexVotesTableOnBlockTime : AM unit := create_index false IndexOfVotesTableOnBlockTime.
Definition DeindexVotesTableOnBlockTime : AM unit := drop_index false IndexOfVotesTableOnBlockTime.
Definition IndexTicketsTableOnHashes : AM unit := create_index true IndexOfTicketsTableOnHashes.
Definition DeindexTicketsTableOnHashes : AM unit := drop_index true IndexOfTicketsTableOnHashes.
Definition IndexTicketsTableOnTxDbID : AM unit := create_index true IndexOfTicketsTableOnTxRowID.
Definition DeindexTicketsTableOnTxDbID : AM unit := drop_index true IndexOfTicketsTableOnTxRowID.
Definition IndexTicketsTableOnPoolStatus : AM unit := create_index true IndexOfTicketsTableOnPoolStatus.
Definition DeindexTicketsTableOnPoolStatus : AM unit := drop_index true IndexOfTicketsTableOnPoolStatus.
Definition IndexMissesTableOnHashes : AM unit := create_index false IndexOfMissesTableOnHashes.
Definition DeindexMissesTableOnHash : AM unit := drop_index false IndexOfMissesTableOnHashes.
Definition IndexAgendasTableOnAgendaID : AM unit := create_index false IndexOfAgendasTableOnName.
Definition DeindexAgendasTableOnAgendaID : AM unit := drop_index false IndexOfAgendasTableOnName.
Definition IndexAgendaVotesTableOnAgendaID : AM unit := create_index false IndexOfAgendaVotesTableOnRowIDs.
Definition DeindexAgendaVotesTableOnAgendaID : AM unit := drop_index false IndexOfAgendaVotesTableOnRowIDs.
Definition IndexSwapsTableOnHeight : AM unit := create_index false "idx_swaps_height".
Definition DeindexSwapsTableOnHeight : AM unit := drop_index false "idx_swaps_height".
Definition DeindexStatsTableOnHeight : AM unit := drop_index true IndexOfHeightOnStatsTable.

(** ** Lists of statements *)
(** The errors are logged; the last one is left in [err]. *)
Fixpoint deindex_each (l : list (AM unit)) (err : option SqlErr) : AM (option SqlErr) :=
  match l with
  | [] => mret err
  | f :: l => λ m, match f m with
                   | (Ok _, m) => deindex_each l None m
                   | (Err e, m) => deindex_each l (Some e) m
                   | (Panic, m) => (Panic, m)
                   | (NoFuel, m) => (NoFuel, m)
                   end
  end.
(** With [err = nil] after each. *)
Definition deindex_quietly (l : list (AM unit)) : AM (option SqlErr) := deindex_each l None ≫= λ _, mret None.

Definition DeindexTicketsTable : AM (option SqlErr) := deindex_quietly [DeindexTicketsTableOnHashes; DeindexTicketsTableOnPoolStatus; DeindexTicketsTableOnTxDbID].
Definition DeindexAddressTable : AM (option SqlErr) := deindex_quietly
  [DeindexAddressTableOnAddress; DeindexAddressTableOnMatchingTxHash; DeindexBlockTimeOnTableAddress; DeindexAddressTableOnVoutID; DeindexAddressTableOnTxHash].
(** The error of the first loop is overwritten. *)
Definition DeindexAll : AM (option SqlErr) := deindex_each
  [DeindexBlockTableOnHash; DeindexBlockTableOnHeight; DeindexBlockTableOnTime; DeindexTransactionTableOnHashes;
   DeindexTransactionTableOnBlockIn; DeindexTransactionTableOnBlockHeight; DeindexVinTableOnVins; DeindexVinTableOnPrevOuts;
   DeindexVoutTableOnTxHashIdx; DeindexVoutTableOnSpendTxID; DeindexBlockTimeOnTableAddress; DeindexAddressTableOnMatchingTxHash;
   DeindexAddressTableOnAddress; DeindexAddressTableOnVoutID; DeindexAddressTableOnTxHash; DeindexVotesTableOnCandidate;
   DeindexVotesTableOnBlockHash; DeindexVotesTableOnHash; DeindexVotesTableOnVoteVersion; DeindexVotesTableOnHeight;
   DeindexVotesTableOnBlockTime; DeindexMissesTableOnHash; DeindexAgendasTableOnAgendaID; DeindexAgendaVotesTableOnAgendaID;
   DeindexStatsTableOnHeight; DeindexSwapsTableOnHeight] None
  ≫= λ _, DeindexTicketsTable ≫= λ e, match e with Some _ => mret None | None => mret None end.

Fixpoint index_each (l : list (AM unit)) : AM unit :=
  match l with [] => mret tt | f :: l => f ≫= λ _, index_each l end.
Definition IndexAll : AM unit := index_each
  [IndexBlockTableOnHash; IndexBlockTableOnHeight; IndexBlockTableOnTime; IndexTransactionTableOnHashes;
   IndexTransactionTableOnBlockIn; IndexTransactionTableOnBlockHeight; IndexVinTableOnVins; IndexVinTableOnPrevOuts;
   IndexVoutTableOnTxHashIdx; IndexVoutTableOnSpendTxID; IndexVotesTableOnCandidate; IndexVotesTableOnBlockHash;
   IndexVotesTableOnHashes; IndexVotesTableOnVoteVersion; IndexVotesTableOnHeight; IndexVotesTableOnBlockTime;
   IndexMissesTableOnHashes; IndexAgendasTableOnAgendaID; IndexAgendaVotesTableOnAgendaID; IndexAddressTableOnTxHash;
   IndexBlockTimeOnTableAddress; IndexAddressTableOnAddress; IndexAddressTableOnVoutID; IndexSwapsTableOnHeight].
Definition IndexTicketsTable : AM unit := index_each [IndexTicketsTableOnHashes; IndexTicketsTableOnPoolStatus; IndexTicketsTableOnTxDbID].
Definition IndexAddressTable : AM unit := index_each
  [IndexAddressTableOnAddress; IndexAddressTableOnMatchingTxHash; IndexBlockTimeOnTableAddress; IndexAddressTableOnVoutID; IndexAddressTableOnTxHash].
Definition ReindexAddressesBlockTime : AM unit := λ m,
  match DeindexBlockTimeOnTableAddress m with
  | (Err ENotExist, m) | (Ok _, m) => IndexBlockTimeOnTableAddress m
  | (r, m) => (r, m)
  end.

(** The keys of IndexDescriptions. *)
Definition IndexDescriptions : list string :=
  [IndexOfBlocksTableOnHash; IndexOfBlocksTableOnHeight; IndexOfTransactionsTableOnHashes; IndexOfTransactionsTableOnBlockInd;
   IndexOfTransactionsTableOnBlockHeight; IndexOfVinsTableOnVin; IndexOfVinsTableOnPrevOut; IndexOfVoutsTableOnTxHashInd;
   IndexOfVoutsTableOnSpendTxID; IndexOfAddressTableOnAddress; IndexOfAddressTableOnVoutID; IndexOfAddressTableOnBlockTime;
   IndexOfAddressTableOnTx; IndexOfAddressTableOnMatchingTx; IndexOfTicketsTableOnHashes; IndexOfTicketsTableOnTxRowID;
   IndexOfTicketsTableOnPoolStatus; IndexOfVotesTableOnHashes; IndexOfVotesTableOnBlockHash; IndexOfVotesTableOnCandBlock;
   IndexOfVotesTableOnVersion; IndexOfVotesTableOnHeight; IndexOfVotesTableOnBlockTime; IndexOfMissesTableOnHashes;
   IndexOfAgendasTableOnName; IndexOfAgendaVotesTableOnRowIDs; IndexOfMinersTableOnLastUsed].
Fixpoint missing_loop (l : list string) : AM (list string) :=
  match l with
  | [] => mret []
  | n :: l => b ← ExistsIndex n; r ← missing_loop l; mret (if b : bool then r else n :: r)
  end.
Definition MissingIndexes : AM (list string) := missing_loop IndexDescriptions.

(** ** Theorems

    What a list creates and drops: whether it minds, and the name. *)
Definition created : list (bool * string) := [(false, IndexOfBlocksTableOnHash); (false, IndexOfBlocksTableOnHeight); (false, IndexOfBlocksTableOnTime);
   (false, IndexOfTransactionsTableOnHashes); (false, IndexOfTransactionsTableOnBlockInd); (false, IndexOfTransactionsTableOnBlockHeight);
   (false, IndexOfVinsTableOnVin); (false, IndexOfVinsTableOnPrevOut); (true, IndexOfVoutsTableOnTxHashInd);
   (true, IndexOfVoutsTableOnSpendTxID); (false, IndexOfVotesTableOnCandBlock); (false, IndexOfVotesTableOnBlockHash);
   (false, IndexOfVotesTableOnHashes); (false, IndexOfVotesTableOnVersion); (false, IndexOfVotesTableOnHeight);
   (false, IndexOfVotesTableOnBlockTime); (false, IndexOfMissesTableOnHashes); (false, IndexOfAgendasTableOnName);
   (false, IndexOfAgendaVotesTableOnRowIDs); (true, IndexOfAddressTableOnTx); (true, IndexOfAddressTableOnBlockTime);
   (true, IndexOfAddressTableOnAddress); (true, IndexOfAddressTableOnVoutID); (false, "idx_swaps_height"%string)].
Definition created_tickets : list (bool * string) := [(true, IndexOfTicketsTableOnHashes); (true, IndexOfTicketsTableOnPoolStatus); (true, IndexOfTicketsTableOnTxRowID)].
Definition dropped : list (bool * string) := [(false, IndexOfBlocksTableOnHash); (false, IndexOfBlocksTableOnHeight); (false, IndexOfBlocksTableOnTime);
   (false, IndexOfTransactionsTableOnHashes); (false, IndexOfTransactionsTableOnBlockInd); (false, IndexOfTransactionsTableOnBlockHeight);
   (false, IndexOfVinsTableOnVin); (false, IndexOfVinsTableOnPrevOut); (true, IndexOfVoutsTableOnTxHashInd);
   (true, IndexOfVoutsTableOnSpendTxID); (true, IndexOfAddressTableOnBlockTime); (true, IndexOfAddressTableOnMatchingTx);
   (true, IndexOfAddressTableOnAddress); (true, IndexOfAddressTableOnVoutID); (true, IndexOfAddressTableOnTx);
   (false, IndexOfVotesTableOnCandBlock); (false, IndexOfVotesTableOnBlockHash); (false, IndexOfVotesTableOnHashes);
   (false, IndexOfVotesTableOnVersion); (false, IndexOfVotesTableOnHeight); (false, IndexOfVotesTableOnBlockTime);
   (false, IndexOfMissesTableOnHashes); (false, IndexOfAgendasTableOnName); (false, IndexOfAgendaVotesTableOnRowIDs);
   (true, IndexOfHeightOnStatsTable); (false, "idx_swaps_height"%string)].
Definition dropped_tickets : list (bool * string) := [(true, IndexOfTicketsTableOnHashes); (true, IndexOfTicketsTableOnPoolStatus); (true, IndexOfTicketsTableOnTxRowID)].
Definition names (l : list (bool * string)) : gset string := list_to_set l.*2.
Lemma IndexAll_created : IndexAll = index_each ((λ p, create_index p.1 p.2) <$> created).
Proof. reflexivity. Qed.
Lemma IndexTicketsTable_created : IndexTicketsTable = index_each ((λ p, create_index p.1 p.2) <$> created_tickets).
Proof. reflexivity. Qed.

(** Whatever fails, what was there besides the named indexes stays. *)
Lemma index_each_adds l : ∀ m m', index_each ((λ p, create_index p.1 p.2) <$> l) m = (Ok tt, m') →
  indexes m' = indexes m ∪ names l ∧ ibd_complete m' = ibd_complete m ∧ pending m' = pending m.
Proof.
  induction l as [|[b n] l IH]; intros m m' E.
  - injection E as <-. unfold names. cbn. by rewrite union_empty_r_L.
  - cbn [fmap list_fmap index_each] in E. apply bind_inv_Ok in E as ([] & m1 & E1 & (H & Hi & Hp)%IH). rewrite H, Hi, Hp.
    unfold create_index, exec in E1. destruct (alive _); [|done]. cbn [fst snd indexes tick] in E1.
    destruct (decide (n ∈ indexes m)) as [Hn|Hn]; [destruct b; [|done]|]; injection E1 as <-; cbn; (split; [|done]); unfold names; cbn; set_solver.
Qed.
(** Created in an alive database, where no index is there that minds. *)
Lemma index_each_works l : (∀ n, alive n = true) → NoDup l.*2 → ∀ m, (∀ n, (false, n) ∈ l → n ∉ indexes m) →
  ∃ m', index_each ((λ p, create_index p.1 p.2) <$> l) m = (Ok tt, m').
Proof.
  intros Ha. induction l as [|[b n] l IH]; intros Hnd m Hl; [by eexists|]. cbn [fmap list_fmap index_each fst snd] in *.
  apply NoDup_cons in Hnd as [Hn Hnd]. assert (∃ m1, create_index b n m = (Ok tt, m1) ∧ indexes m1 = {[n]} ∪ indexes m) as (m1 & E1 & H1).
  { unfold create_index, exec. rewrite Ha. cbn [indexes tick]. destruct (decide (n ∈ indexes m)) as [Hi|Hi].
    - destruct b; [|by destruct (Hl n); [left|]]. eexists. split; [done|]. cbn. set_solver.
    - eexists. by split. }
  rewrite (bind_Ok _ _ _ _ _ E1). apply IH; [done|]. intros n' Hn'. rewrite H1.
  assert (n' ≠ n) by (intros ->; apply Hn; apply list_elem_of_fmap; by exists (false, n)). specialize (Hl n' ltac:(by right)). set_solver.
Qed.
Lemma deindex_each_drops l : (∀ n, alive n = true) → ∀ e m,
  ∃ e' m', deindex_each ((λ p, drop_index p.1 p.2) <$> l) e m = (Ok e', m') ∧
    indexes m' = indexes m ∖ names l ∧ ibd_complete m' = ibd_complete m ∧ pending m' = pending m.
Proof.
  intros Ha. induction l as [|[b n] l IH]; intros e m.
  - exists e, m. unfold names. cbn. by rewrite difference_empty_L.
  - cbn [fmap list_fmap deindex_each fst snd]. unfold drop_index, exec. rewrite Ha. cbn [indexes tick].
    destruct (decide (n ∈ indexes m)) as [Hn|Hn].
    + destruct (IH None (set_indexes (indexes m ∖ {[n]}) (tick m))) as (e' & m' & E & H & ?). exists e', m'. split; [exact E|]. rewrite H. cbn. unfold names. cbn.
      split; [set_solver|done].
    + destruct b; [destruct (IH None (tick m)) as (e' & m' & E & H & ?)|destruct (IH (Some ENotExist) (tick m)) as (e' & m' & E & H & ?)];
        exists e', m'; (split; [exact E|]); rewrite H; cbn; unfold names; cbn; (split; [set_solver|done]).
Qed.
(** The lists, whatever each of their statements does. *)
Lemma drop_returns p m : ∃ r m', drop_index p.1 p.2 m = (r, m') ∧ (r = Ok tt ∨ ∃ e, r = Err e).
Proof.
  unfold drop_index, exec. destruct (alive _); [|by do 2 eexists; eauto]. destruct (decide _); [by do 2 eexists; eauto|]. destruct p.1; by do 2 eexists; eauto.
Qed.
Lemma deindex_each_returns l : ∀ e m, ∃ e' m', deindex_each ((λ p, drop_index p.1 p.2) <$> l) e m = (Ok e', m').
Proof.
  induction l as [|p l IH]; intros e m; [by do 2 eexists|]. cbn [fmap list_fmap deindex_each].
  destruct (drop_returns p m) as (r & m1 & -> & [->|(e1 & ->)]); apply IH.
Qed.
Lemma DeindexAll_runs e m m1 e2 m2 : deindex_each ((λ p, drop_index p.1 p.2) <$> dropped) None m = (Ok e, m1) →
  deindex_each ((λ p, drop_index p.1 p.2) <$> dropped_tickets) None m1 = (Ok e2, m2) → DeindexAll m = (Ok None, m2).
Proof.
  intros E1 E2. assert (DeindexTicketsTable m1 = (Ok None, m2)) as E3.
  { change (DeindexTicketsTable) with (deindex_quietly ((λ p, drop_index p.1 p.2) <$> dropped_tickets)). unfold deindex_quietly. by rewrite (bind_Ok _ _ _ _ _ E2). }
  change DeindexAll with (deindex_each ((λ p, drop_index p.1 p.2) <$> dropped) None ≫= λ _, DeindexTicketsTable ≫= λ e,
    match e with Some _ => mret (M:=AM) (@None SqlErr) | None => mret None end).
  rewrite (bind_Ok _ _ _ _ _ E1). by rewrite (bind_Ok _ _ _ _ _ E3).
Qed.
(** What statements about indexes leave alone. *)
Definition rest (m : Meta) : bool * gset Z := (ibd_complete m, pending m).
Lemma keeps_create b n : keeps rest (create_index b n).
Proof. intros m. unfold create_index, exec. destruct (alive _); [|done]. destruct (decide _); [by destruct b|done]. Qed.
Lemma keeps_drop b n : keeps rest (drop_index b n).
Proof. intros m. unfold drop_index, exec. destruct (alive _); [|done]. destruct (decide _); [done|by destruct b]. Qed.
Lemma keeps_index_each l : (∀ f, f ∈ l → keeps rest f) → keeps rest (index_each l).
Proof. induction l as [|f l IH]; intros Hl; [by intros m|]. apply kept_bind; [apply Hl; by left|]. intros _. apply IH. intros; apply Hl; by right. Qed.
Lemma keeps_created l : keeps rest (index_each ((λ p, create_index p.1 p.2) <$> l)).
Proof. apply keeps_index_each. intros f (p & -> & _)%list_elem_of_fmap. apply keeps_create. Qed.
Lemma keeps_IndexAll : keeps rest IndexAll.
Proof. exact (keeps_created created). Qed.
Lemma keeps_IndexTicketsTable : keeps rest IndexTicketsTable.
Proof. exact (keeps_created created_tickets). Qed.
Lemma keeps_deindex_each l : ∀ e, keeps rest (deindex_each ((λ p, drop_index p.1 p.2) <$> l) e).
Proof.
  induction l as [|p l IH]; intros e m; [done|]. cbn [fmap list_fmap deindex_each]. pose proof (keeps_drop p.1 p.2 m) as Hd.
  destruct (drop_index p.1 p.2 m) as [[u|e1| |] m1]; cbn in *; [by rewrite IH..|done|done].
Qed.
Lemma keeps_DeindexAll : keeps rest DeindexAll.
Proof.
  change DeindexAll with (deindex_each ((λ p, drop_index p.1 p.2) <$> dropped) None ≫= λ _,
    (deindex_each ((λ p, drop_index p.1 p.2) <$> dropped_tickets) None ≫= λ _, mret (M:=AM) (@None SqlErr)) ≫= λ e,
    match e with Some _ => mret (M:=AM) (@None SqlErr) | None => mret None end).
  apply kept_bind; [apply keeps_deindex_each|]. intros _. apply kept_bind; [|by intros []; apply kept_ret].
  apply kept_bind; [apply keeps_deindex_each|]. intros _. apply kept_ret.
Qed.
Lemma tickets_mind_not n : (false, n) ∈ created_tickets → False.
Proof. unfold created_tickets. rewrite !elem_of_cons, elem_of_nil. intuition congruence. Qed.
#[local] Opaque dropped dropped_tickets created created_tickets names.
(** No failure of a statement is reported. *)
Lemma DeindexAll_never_fails m : ∃ m', DeindexAll m = (Ok None, m').
Proof.
  destruct (deindex_each_returns dropped None m) as (e & m1 & E1). destruct (deindex_each_returns dropped_tickets None m1) as (e2 & m2 & E2).
  exists m2. exact (DeindexAll_runs _ _ _ _ _ E1 E2).
Qed.
Lemma DeindexAll_drops : (∀ n, alive n = true) → ∀ m, ∃ m', DeindexAll m = (Ok None, m') ∧
  indexes m' = indexes m ∖ (names dropped ∪ names dropped_tickets) ∧ ibd_complete m' = ibd_complete m ∧ pending m' = pending m.
Proof.
  intros Ha m. destruct (deindex_each_drops dropped Ha None m) as (e & m1 & E1 & H1 & I1 & P1).
  destruct (deindex_each_drops dropped_tickets Ha None m1) as (e2 & m2 & E2 & H2 & I2 & P2).
  exists m2. split; [exact (DeindexAll_runs _ _ _ _ _ E1 E2)|]. rewrite H2, H1, I2, I1, P2, P1. split; [set_solver|done].
Qed.

Lemma missing_loop_finds l : (∀ n, alive n = true) → ∀ m, ∃ m', missing_loop l m = (Ok (filter (.∉ indexes m) l), m') ∧ indexes m' = indexes m.
Proof.
  intros Ha. induction l as [|n l IH]; intros m; [by eexists|]. cbn [missing_loop].
  assert (ExistsIndex n m = (Ok (bool_decide (n ∈ indexes m)), tick m)) as E1 by (unfold ExistsIndex, exec; by rewrite Ha).
  rewrite (bind_Ok _ _ _ _ _ E1). destruct (IH (tick m)) as (m' & E & H). rewrite (bind_Ok _ _ _ _ _ E). exists m'. split; [|done].
  unfold mret, goM_ret. f_equal. f_equal. rewrite filter_cons. cbn [indexes tick]. case_bool_decide; [by rewrite decide_False by (intros Hx; by apply Hx)|by rewrite decide_True].
Qed.

(** The indexes that a synchronization creates. *)
Definition all_indexes : gset string := names created ∪ names created_tickets ∪ {[IndexOfAddressTableOnMatchingTx]}.
Definition reindex : AM unit :=
  DeindexAll ≫= λ _, IndexAll ≫= λ _, IndexAddressTableOnMatchingTxHash ≫= λ _, IndexTicketsTable.

Lemma created_NoDup : NoDup created.*2.
Proof. by apply (bool_decide_unpack _); vm_compute. Qed.
Lemma created_tickets_NoDup : NoDup created_tickets.*2.
Proof. by apply (bool_decide_unpack _); vm_compute. Qed.
(** What is created without IF NOT EXISTS is dropped before. *)
Lemma created_were_dropped n : (false, n) ∈ created → n ∈ names dropped ∪ names dropped_tickets.
Proof.
  revert n. assert (Forall (λ p, p.1 = false → p.2 ∈ names dropped ∪ names dropped_tickets) created) as H by (by apply (bool_decide_unpack _); vm_compute).
  intros n Hn. rewrite Forall_forall in H. by apply (H (false, n)).
Qed.
Lemma dropped_created : names dropped ∪ names dropped_tickets =
  {[IndexOfHeightOnStatsTable]} ∪ (names created ∪ names created_tickets ∪ {[IndexOfAddressTableOnMatchingTx]}).
Proof. by apply (bool_decide_unpack _); vm_compute. Qed.
Lemma described_are_created n : n ∈ IndexDescriptions → n = IndexOfMinersTableOnLastUsed ∨ n ∈ all_indexes.
Proof.
  assert (Forall (λ n, n = IndexOfMinersTableOnLastUsed ∨ n ∈ all_indexes) IndexDescriptions) as H by (by apply (bool_decide_unpack _); vm_compute).
  rewrite Forall_forall in H. apply H.
Qed.
(** Two indexes that are created are not looked for. *)
Lemma not_described : ∀ n, n ∈ all_indexes → n ∈ IndexDescriptions ∨ n = IndexOfBlocksTableOnTime ∨ n = "idx_swaps_height"%string.
Proof.
  assert (set_Forall (λ n, n ∈ IndexDescriptions ∨ n = IndexOfBlocksTableOnTime ∨ n = "idx_swaps_height"%string) all_indexes) as H
    by (by apply (bool_decide_unpack _); vm_compute).
  exact H.
Qed.
Lemma one_missing (l : list string) (X : gset string) a : NoDup l → a ∈ l → (∀ n, n ∈ l → n ≠ a → n ∈ X) →
  filter (.∉ X) l = if decide (a ∈ X) then [] else [a].
Proof.
  intros Hnd Ha HX. assert (∀ l', (∀ n, n ∈ l' → n ∈ X) → filter (.∉ X) l' = []) as Hnone.
  { induction l' as [|n l' IH]; intros H; [done|]. rewrite filter_cons, decide_False by (intros Hn; apply Hn, H; by left). apply IH. intros; apply H; by right. }
  apply list_elem_of_split in Ha as (l1 & l2 & ->). apply NoDup_app in Hnd as (_ & H1 & [H2 _]%NoDup_cons).
  rewrite filter_app, filter_cons, (Hnone l1), (Hnone l2).
  - destruct (decide (a ∈ X)); [by rewrite decide_False by tauto|by rewrite decide_True].
  - intros n Hn. apply HX; [apply elem_of_app; right; by right|]. by intros ->.
  - intros n Hn. apply HX; [apply elem_of_app; by left|]. intros ->. apply (H1 a Hn). by left.
Qed.
Lemma IndexDescriptions_NoDup : NoDup IndexDescriptions ∧ IndexOfMinersTableOnLastUsed ∈ IndexDescriptions.
Proof. by apply (bool_decide_unpack _); vm_compute. Qed.
(** The index of the miners is neither dropped nor created. *)
Lemma miners_alone : IndexOfMinersTableOnLastUsed ∉ ({[IndexOfHeightOnStatsTable]} ∪ all_indexes : gset string).
Proof. by apply (bool_decide_unpack _); vm_compute. Qed.

(** C9: If no statement fails for a reason of its own, dropping all indexes and
    creating them again works whatever indexes are there, and ends with all
    that the synchronization creates and with those that it leaves alone.  The
    check at the start then finds no index missing but that on the last use of
    the miners, if it was not there: nothing but an upgrade creates it. *)
Theorem reindex_complete m : (∀ n, alive n = true) →
  ∃ m' m2, reindex m = (Ok tt, m') ∧ indexes m' = indexes m ∖ {[IndexOfHeightOnStatsTable]} ∪ all_indexes ∧
    MissingIndexes m' = (Ok (if decide (IndexOfMinersTableOnLastUsed ∈ indexes m) then [] else [IndexOfMinersTableOnLastUsed]), m2).
Proof.
  intros Ha. destruct (DeindexAll_drops Ha m) as (m1 & E1 & H1 & _).
  assert (∃ m2, IndexAll m1 = (Ok tt, m2) ∧ indexes m2 = indexes m1 ∪ names created) as (m2 & E2 & H2).
  { destruct (index_each_works created Ha created_NoDup m1) as (m2 & E2).
    - intros n Hn%created_were_dropped. rewrite H1. set_solver.
    - exists m2. split; [done|]. by apply index_each_adds in E2 as [? _]. }
  assert (∃ m3, IndexAddressTableOnMatchingTxHash m2 = (Ok tt, m3) ∧ indexes m3 = {[IndexOfAddressTableOnMatchingTx]} ∪ indexes m2) as (m3 & E3 & H3).
  { unfold IndexAddressTableOnMatchingTxHash, create_index, exec. rewrite Ha. cbn [indexes tick]. destruct (decide _); eexists; (split; [done|]); cbn; set_solver. }
  assert (∃ m4, IndexTicketsTable m3 = (Ok tt, m4) ∧ indexes m4 = indexes m3 ∪ names created_tickets) as (m4 & E4 & H4).
  { destruct (index_each_works created_tickets Ha created_tickets_NoDup m3) as (m4 & E4); [intros n Hn; by apply tickets_mind_not in Hn|].
    exists m4. split; [done|]. by apply index_each_adds in E4 as [? _]. }
  assert (indexes m4 = indexes m ∖ {[IndexOfHeightOnStatsTable]} ∪ all_indexes) as H.
  { rewrite H4, H3, H2, H1. pose proof dropped_created as Hd. unfold all_indexes. set (A := names created) in *. set (B := names created_tickets) in *.
    set (D := names dropped ∪ names dropped_tickets) in *. clearbody A B D. clear -Hd.
    apply set_eq. intros x. destruct (decide (x ∈ D)) as [HD|HD]; set_solver. }
  destruct (missing_loop_finds IndexDescriptions Ha m4) as (m5 & E5 & _). exists m4, m5. split_and!; [|done|].
  - unfold reindex. rewrite (bind_Ok _ _ _ _ _ E1), (bind_Ok _ _ _ _ _ E2), (bind_Ok _ _ _ _ _ E3). exact E4.
  - unfold MissingIndexes. rewrite E5. f_equal. f_equal. destruct IndexDescriptions_NoDup as [Hnd Hin].
    rewrite (one_missing _ _ _ Hnd Hin) by (intros n [->|Hn]%described_are_created Hne; rewrite H; [done|by apply elem_of_union_r]).
    pose proof miners_alone as Hma. assert (IndexOfMinersTableOnLastUsed ∈ indexes m4 ↔ IndexOfMinersTableOnLastUsed ∈ indexes m) as Hiff.
    { rewrite H. rewrite elem_of_union, elem_of_difference. rewrite not_elem_of_union in Hma. tauto. }
    destruct (decide (_ ∈ indexes m4)), (decide (_ ∈ indexes m)); tauto.
Qed.
End Indexing.

(** ** Examples *)
Module Witness.
#[local] Instance steady : Server := λ _, true.
(** Tables that were just created have no index of the miners. *)
Definition bare : Meta := mkMeta {[IndexOfBlocksTableOnHash]} false ∅ 0.
Lemma reindex_complete_witness : ∃ m' m2, reindex bare = (Ok tt, m') ∧
  indexes m' = indexes bare ∖ {[IndexOfHeightOnStatsTable]} ∪ all_indexes ∧ MissingIndexes m' = (Ok [IndexOfMinersTableOnLastUsed], m2).
Proof.
  destruct (reindex_complete bare) as (m' & m2 & H1 & H2 & H3); [done|]. exists m', m2. split; [exact H1|]. split; [exact H2|].
  rewrite decide_False in H3 by (by apply (bool_decide_unpack _); vm_compute). exact H3.
Defined.
End Witness.
