(* ===== verification/SyncDB.v ===== *)
(** * Synchronizing the database (db/dcrpg/sync.go)

    SyncChainDB brings the tables from where they are to the node's best block:
    it rewinds the stake database if that is ahead, drops the indexes for a bulk
    load, imports block by block into the stake database and the tables,
    creates the indexes again, fills in the spending information of the
    addresses table, and catches up with what the node got meanwhile.  It is a
    client of two interfaces: of a database that follows a chain block by block,
    which the stake database is ([stake_chain]), and of a store of blocks.

    The theorems: when it succeeds both are at the node's chain up to the height
    it returns; it does succeed when its parts do; and the blocks of the last
    catching up are stored without the spending information that the bulk update
    before was to write. *)
From stdpp Require Import gmap strings.
From S2P Require Import Prelude PoolDiff TicketPool PoolInfoCache StakeTx StakeDatabase StakeSync GoPost Indexes.
Open Scope Z_scope.

(** ** Interfaces

    [follows bs b]: the block [b] may come after [bs], genesis first. *)
Class Follows (B : Type) := follows : list B → B → Prop.

Class StakeChain (S B : Type) `{Follows B} := {
  StakeError : Type;
  sHeight : S → Z;
  sConnect : B → goM S StakeError unit;
  sDisconnect : goM S StakeError unit;
  at_chain : S → list B → Prop;
  sHeight_at s bs : at_chain s bs → sHeight s = zlen bs - 1;
  sConnect_at s bs b s' : at_chain s bs → follows bs b → sConnect b s = (Ok tt, s') → at_chain s' (bs ++ [b]);
  sDisconnect_at s bs b s' : at_chain s (bs ++ [b]) → bs ≠ [] → sDisconnect s = (Ok tt, s') → at_chain s' bs
}.

(** [Stored] blocks, of which the last is the best; it may be stored again. *)
Class ChainStore (S B : Type) `{Follows B} := {
  ChainError : Type;
  cHeight : S → option Z;
  cStore : B → string → bool → goM S ChainError unit;
  cWarm : goM S ChainError unit;
  cBatch : bool → S → S;
  cDupChecks : bool → S → S;
  has_chain : S → list B → Prop;
  cHeight_has s bs h : has_chain s bs → cHeight s = Some h → h = zlen bs - 1;
  cStore_has s bs b w u s' : has_chain s bs → follows bs b → cStore b w u s = (Ok tt, s') → has_chain s' (bs ++ [b]);
  cStore_again s bs b w u s' : has_chain s (bs ++ [b]) → cStore b w u s = (Ok tt, s') → has_chain s' (bs ++ [b]);
  cWarm_has s bs s' : has_chain s bs → cWarm s = (Ok tt, s') → has_chain s' bs;
  cBatch_has s bs v : has_chain s bs → has_chain (cBatch v s) bs;
  cDupChecks_has s bs v : has_chain s bs → has_chain (cDupChecks v s) bs
}.

(** ** SyncChainDB *)
Section Sync.
Context {SS CS B : Type} `{!Follows B} {sc : StakeChain SS B} {cs : ChainStore CS B} {server : Server}.
(** The node, at the time of the call, and whether the context is done. *)
Context (GetBestBlock : nat → option Z) (GetBlock : nat → Z → option B) (GetChainWork : nat → B → option string) (cancelled : nat → bool).

Record PG := mkPG { stake : SS; store : CS; meta : Meta; now : nat; signals : list Z }.
Definition set_stake (x : SS) (s : PG) : PG := mkPG x (store s) (meta s) (now s) (signals s).
Definition set_store (x : CS) (s : PG) : PG := mkPG (stake s) x (meta s) (now s) (signals s).
Definition set_meta (x : Meta) (s : PG) : PG := mkPG (stake s) (store s) x (now s) (signals s).

Inductive SyncErr :=
| EBest | EHeight | ESqlStmt (e : SqlErr) | EDeleteStakeDB | ERewind (e : StakeError) | EWarm (e : ChainError) | ECancelled
| EGetBlock | EConnect (e : StakeError) | EChainWork | EStoreBlock (e : ChainError).
(** An error comes with the height that is returned beside it. *)
Abbreviation M := (goM PG (Z * SyncErr)).

Definition ask {A} (f : nat → A) : M A := λ s, (Ok (f (now s)), mkPG (stake s) (store s) (meta s) (S (now s)) (signals s)).
Definition part {S E A} (get : PG → S) (set : S → PG → PG) (err : E → Z * SyncErr) (m : goM S E A) : M A := λ s,
  match m (get s) with
  | (Ok a, x) => (Ok a, set x s)
  | (Err e, x) => (Err (err e), set x s)
  | (Panic, x) => (Panic, set x s)
  | (NoFuel, x) => (NoFuel, set x s)
  end.
(** A statement, with the height to return when it fails. *)
Definition stmt {A} (h : Z) (m : goM Meta SqlErr A) : M A := part meta set_meta (λ e, (h, ESqlStmt e)) m.
(** A statement that changes no index, flag or block: it deletes rows that are
    there twice, or gathers statistics for the planner. *)
Definition nop : goM Meta SqlErr unit := exec (λ m, (Ok tt, m)).
Definition best_block (h : Z) : M Z := r ← ask GetBestBlock; match r with Some n => mret n | None => fail (h, EBest) end.
Definition check_cancelled (h : Z) : M unit := b ← ask cancelled; if b : bool then fail (h, ECancelled) else mret tt.

Definition ibdComplete (h : Z) : M bool := stmt h (exec (λ m, (Ok (ibd_complete m), m))).
Definition setIBDComplete (h : Z) (b : bool) : M unit := stmt h (exec (λ m, (Ok tt, set_ibd b m))).
Definition EnableDuplicateCheckOnInsert (b : bool) : M unit := modify (λ s, set_store (cDupChecks b (store s)) s).
Definition HeightDB (h : Z) : M Z := r ← gets (λ s, cHeight (store s)); match r with Some n => mret n | None => fail (h, EHeight) end.

(** *** RewindStakeDB: the height that is reached, also when cancelled *)
Fixpoint rewind_loop (fuel : nat) (toHeight stakeDBHeight lastBlock : Z) : M Z :=
  if toHeight <? stakeDBHeight then
    match fuel with
    | O => λ s, (NoFuel, s)
    | S fuel =>
      c ← ask cancelled;
      if c : bool then mret stakeDBHeight else
      part stake set_stake (λ e, (lastBlock, ERewind e)) sDisconnect ≫= λ _,
      h ← gets (λ s, sHeight (stake s)); rewind_loop fuel toHeight h lastBlock
    end
  else mret stakeDBHeight.
Definition RewindStakeDB (toHeight lastBlock : Z) : M Z :=
  let toHeight := if toHeight <? 0 then 0 else toHeight in
  h ← gets (λ s, sHeight (stake s)); rewind_loop (Z.to_nat (h - toHeight)) toHeight h lastBlock.

(** *** importBlocks

    Storing a block without its spending information leaves that pending. *)
Definition store_block (ib : Z) (b : B) (w : string) (updateSpending : bool) : M unit :=
  (if updateSpending then mret tt else modify (λ s, set_meta (set_pending ({[ib]} ∪ pending (meta s)) (meta s)) s)) ≫= λ _,
  part store set_store (λ e, (ib - 1, EStoreBlock e)) (cStore b w updateSpending) ≫= λ _,
  (if updateSpending then modify (λ s, set_meta (set_pending (pending (meta s) ∖ {[ib]}) (meta s)) s) else mret tt).

Definition rescanLogBlockChunk : Z := 500.
(** The heights of the node and of the stake database are variables of the
    enclosing function; statistics, progress and page updates are left out. *)
Fixpoint import_loop (fuel : nat) (startHeight : Z) (updateAllAddresses : bool) (ib nodeHeight stakeDBHeight : Z) : M (Z * Z) :=
  if ib <=? nodeHeight then
    match fuel with
    | O => λ s, (NoFuel, s)
    | S fuel =>
      check_cancelled (ib - 1) ≫= λ _,
      nodeHeight ← (if (Z.rem (ib - 1) rescanLogBlockChunk =? 0) || (ib =? startHeight)
                    then if ib =? 0 then mret nodeHeight else best_block ib
                    else mret nodeHeight);
      r ← ask (λ t, GetBlock t ib);
      match r with
      | None => fail (ib - 1, EGetBlock)
      | Some block =>
        (if stakeDBHeight <? ib then
           if negb (ib - stakeDBHeight =? 1) then panic
           else part stake set_stake (λ e, (ib - 1, EConnect e)) (sConnect block)
         else mret tt) ≫= λ _,
        stakeDBHeight ← gets (λ s, sHeight (stake s));
        w ← ask (λ t, GetChainWork t block);
        match w with
        | None => fail (ib - 1, EChainWork)
        | Some chainWork =>
          store_block ib block chainWork (negb updateAllAddresses) ≫= λ _,
          nodeHeight ← (if ib =? nodeHeight then best_block ib else mret nodeHeight);
          import_loop fuel startHeight updateAllAddresses (ib + 1) nodeHeight stakeDBHeight
        end
      end
    end
  else mret (nodeHeight, stakeDBHeight).

(** *** The spending information of all addresses, by ranges of heights *)
Definition chunk : Z := 10000.
Definition UpdateAllAddressesMatchingTxHashRange (i e : Z) : goM Meta SqlErr unit :=
  exec (λ m, (Ok tt, set_pending (filter (λ h, ¬ (i <= h < e)) (pending m)) m)).
Fixpoint spending_loop (fuel : nat) (h i heightDB : Z) : M unit :=
  if i <=? heightDB then
    match fuel with
    | O => λ s, (NoFuel, s)
    | S fuel =>
      let end_ := if heightDB + 1 <? i + chunk then heightDB + 1 else i + chunk in
      stmt h (UpdateAllAddressesMatchingTxHashRange i end_) ≫= λ _, spending_loop fuel h (i + chunk) heightDB
    end
  else mret tt.
Definition updateSpendingInfoInAllAddresses (h : Z) : M unit :=
  heightDB ← HeightDB h; spending_loop (Z.to_nat (heightDB / chunk + 1)) h 0 heightDB.

Definition deleteDuplicates (h : Z) : M unit :=
  stmt h nop ≫= λ _, stmt h nop ≫= λ _, stmt h nop ≫= λ _, stmt h nop ≫= λ _, stmt h nop.
Definition idx_tmp : string := "idx_addresses_vinvout_id_tmp".
Definition AnalyzeTable (h : Z) : M unit := stmt h nop.
Definition AnalyzeAllTables (h : Z) : M unit := stmt h nop.

(** *** The stages, with the local variables they share *)
Record Plan := mkPlan { p_lastBlock : Z; p_node : Z; p_stake : Z; p_reindexing : bool; p_updateAll : bool; p_ibd : bool; p_analyze : bool }.

(** Up to the import: heights, rewinding, what there is to do. *)
Definition prepare (updateAllAddresses newIndexes : bool) : M Plan :=
  nodeHeight ← best_block (-1);
  lastBlock ← HeightDB (-1);
  ibd ← ibdComplete lastBlock;
  stakeDBHeight ← gets (λ s, sHeight (stake s));
  if lastBlock <? -1 then panic else
  stakeDBHeight ← (if (lastBlock <? stakeDBHeight) && (0 <? stakeDBHeight) then
                     if (lastBlock <? 0) || (2 * lastBlock <? stakeDBHeight) then fail (-1, EDeleteStakeDB)
                     else RewindStakeDB lastBlock lastBlock
                   else mret stakeDBHeight);
  let reindexing := newIndexes || (lastBlock =? -1) || negb ibd in
  let updateAll := updateAllAddresses || negb ibd in
  part store set_store (λ e, (-1, EWarm e)) cWarm ≫= λ _,
  (if reindexing then
     e ← stmt lastBlock DeindexAll;
     (match e with Some ENotExist | None => mret tt | Some e => fail (lastBlock, ESqlStmt e) end) ≫= λ _,
     stmt lastBlock (create_index true idx_tmp) ≫= λ _,
     EnableDuplicateCheckOnInsert false
   else EnableDuplicateCheckOnInsert true) ≫= λ _,
  (if ibd && (reindexing || updateAll) then setIBDComplete nodeHeight false else mret tt) ≫= λ _,
  mret (mkPlan lastBlock nodeHeight stakeDBHeight reindexing updateAll ibd (reindexing || (10000 <? nodeHeight - lastBlock))).

(** Indexing; whether the tables were analyzed. *)
Definition index_stage (p : Plan) (nodeHeight : Z) : M bool :=
  if p_reindexing p then
    stmt nodeHeight (drop_index true idx_tmp) ≫= λ _,
    deleteDuplicates 0 ≫= λ _,
    stmt nodeHeight IndexAll ≫= λ _,
    (if p_updateAll p then mret tt else stmt nodeHeight IndexAddressTableOnMatchingTxHash) ≫= λ _,
    stmt nodeHeight IndexTicketsTable ≫= λ _,
    AnalyzeAllTables nodeHeight ≫= λ _, mret true
  else mret false.

(** The error of dropping the index is ignored. *)
Definition ignore (m : M unit) : M unit := λ s, match m s with (Err _, s) => (Ok tt, s) | r => r end.
Definition spending_stage (p : Plan) (nodeHeight : Z) (analyzed : bool) : M unit :=
  if p_updateAll p then
    (if analyzed then mret tt else AnalyzeTable nodeHeight ≫= λ _, AnalyzeTable nodeHeight) ≫= λ _,
    ignore (stmt nodeHeight DeindexAddressTableOnMatchingTxHash) ≫= λ _,
    updateSpendingInfoInAllAddresses nodeHeight ≫= λ _,
    stmt nodeHeight IndexAddressTableOnMatchingTxHash ≫= λ _,
    AnalyzeTable nodeHeight
  else mret tt.

(** The import and what follows it. *)
Definition bulk (fuel : nat) (p : Plan) : M (Z * Z) :=
  let startHeight := p_lastBlock p + 1 in
  '(nodeHeight, stakeDBHeight) ← import_loop fuel startHeight (p_updateAll p) startHeight (p_node p) (p_stake p);
  modify (λ s, mkPG (stake s) (store s) (meta s) (now s) (signals s ++ [nodeHeight])) ≫= λ _,
  analyzed ← index_stage p nodeHeight;
  check_cancelled nodeHeight ≫= λ _,
  spending_stage p nodeHeight analyzed ≫= λ _,
  check_cancelled nodeHeight ≫= λ _,
  (if negb analyzed && p_analyze p then AnalyzeAllTables nodeHeight else mret tt) ≫= λ _,
  mret (nodeHeight, stakeDBHeight).
(** Until the download is noted as complete. *)
Definition stages (fuel : nat) (updateAllAddresses newIndexes : bool) : M (Plan * Z * Z) :=
  p ← prepare updateAllAddresses newIndexes;
  '(nodeHeight, stakeDBHeight) ← bulk fuel p;
  setIBDComplete nodeHeight true ≫= λ _, mret (p, nodeHeight, stakeDBHeight).

(** The import starts again at the last block that was imported.  A failing
    call of the client gives height 0. *)
Definition catch_up (fuel : nat) (p : Plan) (endHeight stakeDBHeight : Z) : M Z :=
  check_cancelled endHeight ≫= λ _,
  EnableDuplicateCheckOnInsert true ≫= λ _,
  nodeHeight ← best_block 0;
  if endHeight <? nodeHeight then
    '(nodeHeight, _) ← import_loop fuel (p_lastBlock p + 1) (p_updateAll p) endHeight nodeHeight stakeDBHeight;
    mret nodeHeight
  else mret nodeHeight.

(** [defer func() { pgb.InBatchSync = false }()] *)
Definition SyncChainDB (fuel : nat) (updateAllAddresses newIndexes : bool) : M Z := λ s,
  let '(r, s) := (stages fuel updateAllAddresses newIndexes ≫= λ '(p, h, hs), catch_up fuel p h hs) (set_store (cBatch true (store s)) s) in
  (r, set_store (cBatch false (store s)) s).

(** ** The node's chain

    The node serves the blocks of [chain], does not go back, and a context that
    is done stays so. *)
Context (chain : list B).
Hypothesis GetBlock_chain : ∀ t h b, 0 <= h → GetBlock t h = Some b → chain !! Z.to_nat h = Some b.
Hypothesis chain_follows : ∀ i b, chain !! i = Some b → follows (take i chain) b.
Hypothesis best_grows : ∀ t t' n n', (t <= t')%nat → GetBestBlock t = Some n → GetBestBlock t' = Some n' → n <= n'.
Hypothesis cancelled_stays : ∀ t t', (t <= t')%nat → cancelled t = true → cancelled t' = true.

(** The blocks up to a height. *)
Definition upto (h : Z) : list B := take (Z.to_nat (h + 1)) chain.
Lemma upto_next h b : 0 <= h → chain !! Z.to_nat h = Some b → upto h = upto (h - 1) ++ [b] ∧ follows (upto (h - 1)) b.
Proof.
  intros Hh Hb. unfold upto. replace (Z.to_nat (h + 1)) with (S (Z.to_nat h)) by lia. replace (h - 1 + 1) with h by lia.
  split; [by apply take_S_r|by apply chain_follows].
Qed.
Lemma zlen_upto h : -1 <= h < zlen chain → zlen (upto h) = h + 1.
Proof. unfold upto, zlen. rewrite length_take. lia. Qed.

(** The stake database and the tables, at their heights. *)
Record at_heights (h hs : Z) (s : PG) : Prop := {
  ah_store : has_chain (store s) (upto h);
  ah_stake : at_chain (stake s) (upto hs);
  ah_h : -1 <= h < zlen chain;
  ah_hs : 0 <= hs < zlen chain;
  ah_le : h <= hs
}.
(** From now on the node is at least there. *)
Definition node_from (n : Z) (s : PG) : Prop := ∀ t n', (now s <= t)%nat → GetBestBlock t = Some n' → n <= n'.

Lemma sHeight_upto h hs s : at_heights h hs s → sHeight (stake s) = hs.
Proof. intros Ha. rewrite (sHeight_at _ _ (ah_stake _ _ _ Ha)), zlen_upto; [lia|]. destruct (ah_hs _ _ _ Ha). lia. Qed.

(** *** Rules for what success means *)
Abbreviation okpost := (post True).
Lemma post_ask {A C} (f : nat → A) (k : A → M C) s Q :
  okpost (k (f (now s))) (mkPG (stake s) (store s) (meta s) (S (now s)) (signals s)) Q → okpost (ask f ≫= k) s Q.
Proof. done. Qed.
Lemma post_gets {A C} (f : PG → A) (k : A → M C) s Q : okpost (k (f s)) s Q → okpost (gets f ≫= k) s Q.
Proof. done. Qed.
Lemma post_modify {C} (f : PG → PG) (k : unit → M C) s Q : okpost (k tt) (f s) Q → okpost (modify f ≫= k) s Q.
Proof. done. Qed.
(** What a call of a part leaves: that part, and what it says on success. *)
Lemma post_part {T E A C} (get : PG → T) (set : T → PG → PG) err (m : goM T E A) (k : A → M C) s (Q : C → PG → Prop) :
  (∀ a x, m (get s) = (Ok a, x) → okpost (k a) (set x s) Q) → okpost (part get set err m ≫= k) s Q.
Proof. intros Hok. apply post_bind. unfold post, part. destruct (m (get s)) as [[a|e| |] x] eqn:Em; [by apply Hok|done..]. Qed.
Lemma post_best_block {C} h (k : Z → M C) s Q :
  (∀ n, GetBestBlock (now s) = Some n → okpost (k n) (mkPG (stake s) (store s) (meta s) (S (now s)) (signals s)) Q) → okpost (best_block h ≫= k) s Q.
Proof. intros H. unfold post, best_block, mbind, goM_bind, ask. cbn. destruct (GetBestBlock (now s)) as [n|]; [by apply H|done]. Qed.
Lemma post_check {C} h (k : unit → M C) s Q :
  (cancelled (now s) = false → okpost (k tt) (mkPG (stake s) (store s) (meta s) (S (now s)) (signals s)) Q) → okpost (check_cancelled h ≫= k) s Q.
Proof. intros H. unfold post, check_cancelled, mbind, goM_bind, ask. cbn. destruct (cancelled (now s)); [done|by apply H]. Qed.
Lemma post_assoc {A C D} (m : M A) (f : A → M C) (k : C → M D) s Q : okpost (m ≫= λ a, f a ≫= k) s Q → okpost ((m ≫= f) ≫= k) s Q.
Proof. unfold post, mbind, goM_bind. destruct (m s) as [[a|e| |] s']; auto. Qed.

(** A statement: tables and time. *)
Lemma node_from_mono n n' s s' : n' <= n → (now s <= now s')%nat → node_from n s → node_from n' s'.
Proof. intros Hn Hs H t m Ht E0. specialize (H t m ltac:(lia) E0). lia. Qed.
Lemma node_from_best n s : GetBestBlock (now s) = Some n → node_from n s.
Proof. intros E0 t n1 Ht E1. exact (best_grows _ _ _ _ Ht E0 E1). Qed.

(** Only the tables' meta data differ, and time. *)
Definition same_chains (s s' : PG) : Prop := stake s' = stake s ∧ store s' = store s ∧ (now s <= now s')%nat ∧ signals s' = signals s.
Lemma at_heights_same h hs s s' : same_chains s s' → at_heights h hs s → at_heights h hs s'.
Proof. intros (Hs & Hc & _) [? ? ? ? ?]. constructor; [by rewrite Hc|by rewrite Hs|done..]. Qed.
Lemma same_chains_refl s : same_chains s s.
Proof. done. Qed.
Lemma same_chains_trans s1 s2 s3 : same_chains s1 s2 → same_chains s2 s3 → same_chains s1 s3.
Proof. intros (? & ? & ? & ?) (? & ? & ? & ?). unfold same_chains. split_and!; congruence || lia. Qed.
#[local] Hint Resolve same_chains_refl : core.

(** The heights from [i] to [n]. *)
Definition heights (i n : Z) : gset Z := list_to_set (seqZ i (n - i + 1)).
Lemma elem_of_heights x i n : x ∈ heights i n ↔ i <= x <= n.
Proof. unfold heights. rewrite elem_of_list_to_set, elem_of_seqZ. lia. Qed.
Lemma heights_cons i n : i <= n → heights i n = {[i]} ∪ heights (i + 1) n.
Proof. intros H. apply set_eq. intros x. rewrite elem_of_union, elem_of_singleton, !elem_of_heights. lia. Qed.
Lemma heights_empty i n : n < i → heights i n = ∅.
Proof. intros H. apply set_eq. intros x. rewrite elem_of_heights, elem_of_empty. lia. Qed.

(** What importing does to the pending heights. *)
Definition noted (updateAll : bool) (P Q : gset Z) : gset Z := if updateAll then P ∪ Q else P ∖ Q.
Definition import_meta (updateAll : bool) (i n : Z) (m m' : Meta) : Prop :=
  indexes m' = indexes m ∧ ibd_complete m' = ibd_complete m ∧ pending m' = noted updateAll (pending m) (heights i n).

Lemma refresh_post (c1 c2 : bool) h node s : node_from node s →
  okpost (if c1 then if c2 then mret node else best_block h else mret node) s
    (λ n1 s1, node <= n1 ∧ node_from n1 s1 ∧ same_chains s s1 ∧ meta s1 = meta s).
Proof.
  intros Hn. destruct c1; [destruct c2|]; try by apply post_ret.
  unfold post, best_block, mbind, goM_bind, ask. cbn. destruct (GetBestBlock (now s)) as [n|] eqn:Eb; [|done]. cbn.
  split; [by apply (Hn (now s))|]. split; [|split; [split_and!; cbn; auto; lia|done]].
  intros t n' Ht. cbn in Ht. apply (best_grows (now s)); [lia|done].
Qed.

(** One block in the stake database, when it is not there yet. *)
Lemma connect_post {C} err ib h hs b s (k : unit → M C) Q : at_heights h hs s → chain !! Z.to_nat ib = Some b → 0 <= ib → ib - 1 <= hs →
  (∀ s1, at_heights h (Z.max hs ib) s1 → same_chains (set_stake (stake s1) s) s1 → meta s1 = meta s → okpost (k tt) s1 Q) →
  okpost ((if hs <? ib then if negb (ib - hs =? 1) then panic else part stake set_stake err (sConnect b) else mret tt) ≫= k) s Q.
Proof.
  intros Ha Hb Hib Hle Hk. destruct (Z.ltb_spec hs ib) as [Hlt|Hge].
  - destruct (Z.eqb_spec (ib - hs) 1) as [Heq|]; [|done]. cbn [negb]. apply post_part. intros [] x Ex.
    destruct Ha as [H1 H2 H3 H4 H5]. destruct (upto_next ib b Hib Hb) as [Eu Hf]. apply Hk; [|done..].
    apply lookup_lt_Some in Hb. constructor; cbn; try (unfold zlen; lia); [done|]. rewrite Z.max_r by lia. rewrite Eu.
    replace (ib - 1) with hs in * by lia. by eapply sConnect_at.
  - apply Hk; [|by destruct s|done]. by rewrite Z.max_l by lia.
Qed.

Lemma store_post {C} ib b w u h hs s (k : unit → M C) Q : at_heights h hs s → chain !! Z.to_nat ib = Some b → 0 <= ib → ib <= hs → h = ib - 1 ∨ h = ib →
  (∀ s1, at_heights ib hs s1 → now s1 = now s → signals s1 = signals s → import_meta (negb u) ib ib (meta s) (meta s1) → okpost (k tt) s1 Q) →
  okpost (store_block ib b w u ≫= k) s Q.
Proof.
  intros [H1 H2 H3 H4 H5] Hb Hib Hle Hh Hk. destruct (upto_next ib b Hib Hb) as [Eu Hf].
  assert (∀ x, cStore b w u (store s) = (Ok tt, x) → has_chain x (upto ib)) as Hst.
  { intros x Ex. rewrite Eu. destruct Hh as [->| ->]; [by eapply cStore_has|]. rewrite Eu in H1. by eapply cStore_again. }
  assert (heights ib ib = {[ib]}) as Hhh by (rewrite heights_cons, (heights_empty (ib + 1)) by lia; set_solver).
  unfold store_block. apply post_assoc. destruct u; cbn [negb].
  - apply post_bind, post_ret. apply post_assoc, post_part. intros [] x Ex. apply post_modify. apply Hk; cbn; [|done..|].
    + constructor; cbn; auto; lia.
    + split_and!; [done..|]. by rewrite Hhh.
  - apply post_modify. apply post_assoc, post_part. intros [] x Ex. apply post_bind, post_ret. apply Hk; cbn; [|done..|].
    + constructor; cbn; auto; lia.
    + split_and!; [done..|]. rewrite Hhh. cbn. set_solver.
Qed.

Lemma import_meta_trans u i n m1 m2 m3 : i <= n → import_meta u i i m1 m2 → import_meta u (i + 1) n m2 m3 → import_meta u i n m1 m3.
Proof.
  intros Hn (I1 & B1 & P1) (I2 & B2 & P2). split_and!; [congruence..|]. rewrite P2, P1. unfold noted.
  rewrite (heights_cons i n), (heights_cons i i), (heights_empty (i + 1) i) by lia. destruct u; set_solver.
Qed.

(** The import ends with everything at the height it returns. *)
Lemma import_post start u : ∀ fuel ib node hs h s, at_heights h hs s → h = ib - 1 ∨ (h = ib ∧ ib <= node) → 0 <= ib → ib - 1 <= node → node_from node s →
  okpost (import_loop fuel start u ib node hs) s (λ r s', node <= r.1 ∧ r.2 = Z.max hs r.1 ∧ at_heights r.1 r.2 s' ∧
    node_from r.1 s' ∧ (now s <= now s')%nat ∧ signals s' = signals s ∧ import_meta u ib r.1 (meta s) (meta s')).
Proof.
  induction fuel as [|fuel IH]; intros ib node hs h s Ha Hh Hib Hnode Hfrom; cbn [import_loop]; destruct (Z.leb_spec ib node) as [Hle|Hgt]; try done.
  1, 3: assert (h = node ∧ h = ib - 1) as [-> Hn] by lia; apply post_ret; cbn; pose proof (ah_le _ _ _ Ha); rewrite Z.max_l by lia; split_and!; [lia|done..|];
    split_and!; [done..|]; unfold noted; rewrite heights_empty by lia; destruct u; set_solver.
  apply post_check. intros _. set (s1 := mkPG _ _ _ _ _). assert (at_heights h hs s1) as Ha1 by (eapply at_heights_same; [|exact Ha]; split_and!; cbn; auto; lia).
  apply post_bind. eapply post_mono; [apply refresh_post; eapply node_from_mono; [reflexivity| |exact Hfrom]; cbn; lia|].
  intros n1 s2 (Hn1 & Hf2 & Hs2 & Hm2). apply post_ask. destruct (GetBlock (now s2) ib) as [b|] eqn:Eb; [|apply post_fail]. apply GetBlock_chain in Eb; [|done].
  set (s3 := mkPG _ _ _ _ _). assert (at_heights h hs s3) as Ha3.
  { eapply at_heights_same; [|exact Ha1]. destruct Hs2 as (? & ? & ? & ?). split_and!; cbn in *; auto; lia. }
  pose proof (ah_le _ _ _ Ha) as Hhs. eapply connect_post; [exact Ha3|exact Eb|done|lia|]. intros s4 Ha4 Hs4 Hm4. apply post_gets.
  rewrite (sHeight_upto _ _ _ Ha4). apply post_ask. destruct (GetChainWork (now s4) b) as [w|]; [|apply post_fail].
  set (s5 := mkPG _ _ _ _ _). eapply (store_post ib b w (negb u) h (Z.max hs ib) s5); [|exact Eb|done|lia|lia|].
  { eapply at_heights_same; [|exact Ha4]. split_and!; cbn; auto. }
  intros s6 Ha6 Hnow6 Hsig6 Hm6. rewrite negb_involutive in Hm6. apply post_bind.
  assert (now s <= now s6)%nat as Hnow. { destruct Hs2 as (_ & _ & Hx & _), Hs4 as (_ & _ & Hy & _). cbn in *. lia. }
  assert (signals s6 = signals s) as Hsig. { destruct Hs2 as (_ & _ & _ & Hx), Hs4 as (_ & _ & _ & Hy). cbn in *. congruence. }
  assert (import_meta u ib ib (meta s) (meta s6)) as Hmm. { cbn in Hm6, Hm2, Hm4. by rewrite Hm4, Hm2 in Hm6. }
  eapply post_mono; [exact (refresh_post (ib =? n1) false ib n1 s6 ltac:(eapply node_from_mono; [reflexivity| |exact Hf2]; destruct Hs4 as (_ & _ & Hy & _); cbn in *; lia))|].
  intros n2 s7 (Hn2 & Hf7 & Hs7 & Hm7). eapply post_mono; [eapply (IH (ib + 1) n2 (Z.max hs ib) ib s7)|].
  - by eapply at_heights_same.
  - left. lia.
  - lia.
  - lia.
  - done.
  - intros [n hs'] s' (Hn & Hhs' & Ha' & Hfr' & Hnow' & Hsig' & Hm'). cbn [fst snd] in *. destruct Hs7 as (_ & _ & Ht7 & Hsig7).
    split_and!; [lia|lia|exact Ha'|exact Hfr'|lia|congruence|]. rewrite Hm7 in Hm'. eapply import_meta_trans; [lia|exact Hmm|exact Hm'].
Qed.

(** *** Rewinding *)
Lemma rewind_post to lb h : 0 <= to → h <= to → ∀ fuel hs s, at_heights h hs s → to <= hs →
  okpost (rewind_loop fuel to hs lb) s (λ r s', at_heights h r s' ∧ to <= r ∧ (now s <= now s')%nat ∧ meta s' = meta s ∧ signals s' = signals s ∧
    (r = to ∨ ∃ t, (t < now s')%nat ∧ cancelled t = true)).
Proof.
  intros Hto Hh. induction fuel as [|fuel IH]; intros hs s Ha Hle; cbn [rewind_loop]; destruct (Z.ltb_spec to hs) as [Hlt|Hge]; try done.
  1, 3: apply post_ret; split_and!; auto; left; lia.
  apply post_ask. destruct (cancelled (now s)) eqn:Ec.
  - apply post_ret. split_and!; cbn; auto; [by eapply at_heights_same; [|exact Ha]; split_and!; cbn; auto; lia|]. right. exists (now s). split; [lia|done].
  - apply post_part. intros [] x Ex. apply post_gets. destruct Ha as [H1 H2 H3 H4 H5].
    destruct (lookup_lt_is_Some_2 chain (Z.to_nat hs)) as [b Hb]; [unfold zlen in H4; lia|]. destruct (upto_next hs b ltac:(lia) Hb) as [Eu _].
    assert (at_heights h (hs - 1) (set_stake x (mkPG (stake s) (store s) (meta s) (S (now s)) (signals s)))) as Ha'.
    { constructor; cbn; try lia; [done|]. rewrite Eu in H2. eapply sDisconnect_at; [exact H2| |exact Ex].
      intros E0. apply (f_equal zlen) in E0. rewrite zlen_upto in E0 by lia. change (zlen []) with 0 in E0. lia. }
    rewrite (sHeight_upto _ _ _ Ha'). eapply post_mono; [apply IH; [exact Ha'|lia]|]. intros r s' (Ha2 & Hr & Hn & Hm & Hs & Hc). cbn in *.
    split_and!; auto. lia.
Qed.

(** *** Statements *)
Lemma post_stmt {A C} h (m : goM Meta SqlErr A) (k : A → M C) s Q :
  (∀ a x, m (meta s) = (Ok a, x) → okpost (k a) (set_meta x s) Q) → okpost (stmt h m ≫= k) s Q.
Proof. apply post_part. Qed.
(** Statements that leave the flag and the pending heights alone. *)
Lemma post_stmt_rest {A C} h (m : goM Meta SqlErr A) (k : A → M C) s Q : keeps rest m →
  (∀ a s1, same_chains s s1 → rest (meta s1) = rest (meta s) → okpost (k a) s1 Q) → okpost (stmt h m ≫= k) s Q.
Proof. intros Hm Hk. apply post_stmt. intros a x Ex. apply Hk; [done|]. specialize (Hm (meta s)). by rewrite Ex in Hm. Qed.
Lemma keeps_exec_rest {A} (f : goM Meta SqlErr A) : keeps rest f → keeps rest (exec f).
Proof. intros Hf m. unfold exec. destruct (alive _); [by rewrite Hf|done]. Qed.
Lemma keeps_nop : keeps rest nop.
Proof. by apply keeps_exec_rest. Qed.
(** Statements that also leave the indexes alone. *)
Lemma nop_meta m u x : nop m = (Ok u, x) → indexes x = indexes m ∧ rest x = rest m.
Proof. unfold nop, exec. destruct (alive _); [|done]. by intros [= <- <-]. Qed.
Lemma post_nop {C} h (k : unit → M C) s Q :
  (∀ s1, same_chains s s1 → indexes (meta s1) = indexes (meta s) → rest (meta s1) = rest (meta s) → okpost (k tt) s1 Q) → okpost (stmt h nop ≫= k) s Q.
Proof. intros Hk. apply post_stmt. intros [] x Ex. apply nop_meta in Ex as [? ?]. by apply Hk. Qed.

Lemma nop_post h s : okpost (stmt h nop) s (λ _ s', same_chains s s' ∧ indexes (meta s') = indexes (meta s) ∧ rest (meta s') = rest (meta s)).
Proof. unfold post, stmt, part. destruct (nop (meta s)) as [[?|?| |] z] eqn:Ez; try done. by apply nop_meta in Ez. Qed.
Lemma rest_eq m m' : rest m = rest m' → ibd_complete m = ibd_complete m' ∧ pending m = pending m'.
Proof. by intros [= -> ->]. Qed.

(** *** Preparing *)
Record prepared (h : Z) (u nw : bool) (s : PG) (p : Plan) (s' : PG) : Prop := {
  pr_last : p_lastBlock p = h;
  pr_ibd : p_ibd p = ibd_complete (meta s);
  pr_reindexing : p_reindexing p = nw || (h =? -1) || negb (ibd_complete (meta s));
  pr_update : p_updateAll p = u || negb (ibd_complete (meta s));
  pr_heights : at_heights h (p_stake p) s';
  pr_stake : p_stake p = Z.max 0 h ∨ ∃ t, (t < now s')%nat ∧ cancelled t = true;
  pr_node : h <= p_node p ∧ 0 <= p_node p;
  pr_from : node_from (p_node p) s';
  pr_now : (now s <= now s')%nat;
  pr_signals : signals s' = signals s;
  pr_pending : pending (meta s') = pending (meta s);
  pr_flag : ibd_complete (meta s') = ibd_complete (meta s) && negb (p_reindexing p || p_updateAll p)
}.

Lemma rewound_post {C} h hs s (k : Z → M C) Q : at_heights h hs s →
  (∀ r s1, at_heights h r s1 → (r = Z.max 0 h ∨ ∃ t, (t < now s1)%nat ∧ cancelled t = true) → (now s <= now s1)%nat → meta s1 = meta s → signals s1 = signals s →
     okpost (k r) s1 Q) →
  okpost ((if (h <? hs) && (0 <? hs) then if (h <? 0) || (2 * h <? hs) then fail (-1, EDeleteStakeDB) else RewindStakeDB h h else mret hs) ≫= k) s Q.
Proof.
  intros Ha Hk. pose proof (ah_le _ _ _ Ha). pose proof (ah_hs _ _ _ Ha). apply post_bind. destruct (Z.ltb_spec h hs), (Z.ltb_spec 0 hs); cbn [andb]; try (apply post_ret, Hk; auto; left; lia).
  destruct (Z.ltb_spec h 0); cbn [orb]; [apply post_fail|]. destruct (Z.ltb_spec (2 * h) hs); [apply post_fail|].
  unfold RewindStakeDB. rewrite (proj2 (Z.ltb_ge h 0)) by lia. apply post_gets. rewrite (sHeight_upto _ _ _ Ha).
  eapply post_mono; [apply (rewind_post h h h); [lia|lia|exact Ha|lia]|]. intros r s1 (Ha1 & Hr & Hn & Hm & Hsg & Hc). apply Hk; auto. destruct Hc; [left; lia|by right].
Qed.

Lemma prepare_post h hs u nw s : at_heights h hs s → (∀ t n, GetBestBlock t = Some n → Z.max 0 h <= n) →
  okpost (prepare u nw) s (prepared h u nw s).
Proof.
  intros Ha Hbest. unfold prepare. apply post_best_block. intros n Hn. set (s1 := mkPG _ _ _ _ _).
  assert (at_heights h hs s1) as Ha1 by (eapply at_heights_same; [|exact Ha]; split_and!; cbn; auto; lia).
  apply post_assoc, post_gets. destruct (cHeight (store s1)) as [h0|] eqn:Eh; [|apply post_fail]. apply post_bind, post_ret.
  apply (cHeight_has _ _ _ (ah_store _ _ _ Ha1)) in Eh. pose proof (ah_h _ _ _ Ha1) as Hb. rewrite zlen_upto in Eh by lia. replace (h + 1 - 1) with h in Eh by lia. subst h0.
  apply post_stmt. intros ibd x Ex. assert (ibd = ibd_complete (meta s) ∧ indexes x = indexes (meta s) ∧ rest x = rest (meta s)) as (-> & _ & [Hx1 Hx2]%rest_eq).
  { unfold exec in Ex. destruct (alive _); [|done]. by injection Ex as <- <-. }
  apply post_gets. set (s2 := set_meta x s1). assert (at_heights h hs s2) as Ha2 by (by eapply at_heights_same; [|exact Ha1]).
  rewrite (proj2 (Z.ltb_ge h (-1))) by lia. rewrite (sHeight_upto _ _ _ Ha2). eapply rewound_post; [exact Ha2|]. intros r s3 Ha3 Hr Hn3 Hm3 Hsg3.
  apply post_part. intros [] y Ey. set (s4 := set_store y s3).
  assert (at_heights h r s4) as Ha4. { destruct Ha3 as [H1 ? ? ? ?]. constructor; cbn; auto. by eapply cWarm_has. }
  set (ibd := ibd_complete (meta s)) in *. set (re := nw || (h =? -1) || negb ibd). set (up := u || negb ibd).
  assert (∀ v s', at_heights h r s' → at_heights h r (set_store (cDupChecks v (store s')) s')) as Hdup.
  { intros v s' [H1 ? ? ? ?]. constructor; cbn; auto. by apply cDupChecks_has. }
  assert (∀ n1 s5, at_heights h r s5 → (now s4 <= now s5)%nat → signals s5 = signals s4 → rest (meta s5) = rest (meta s4) →
    okpost ((if ibd && (re || up) then setIBDComplete n1 false else mret tt) ≫= λ _, mret (mkPlan h n r re up ibd (re || (10000 <? n - h)))) s5 (prepared h u nw s)) as Hend.
  { intros n1 s5 Ha5 Hn5 Hsg5 [Hi5 Hp5]%rest_eq. pose proof (Hbest _ _ Hn) as Hn0.
    assert (∀ s', at_heights h r s' → (now s4 <= now s')%nat → signals s' = signals s4 → pending (meta s') = pending (meta s) → ibd_complete (meta s') = ibd && negb (re || up) →
      prepared h u nw s (mkPlan h n r re up ibd (re || (10000 <? n - h))) s') as Hdone.
    { intros s' Ha' Hn' Hsg' Hp' Hi'. cbn in *. constructor; cbn; auto; try lia; [destruct Hr as [?|(t & Ht & ?)]; [by left|right; exists t; split; [lia|done]]| |congruence].
      eapply node_from_mono; [reflexivity| |eapply node_from_best; exact Hn]. lia. }
    cbn in Hm3, Hi5, Hp5. destruct ibd eqn:Eibd; cbn [andb].
    - destruct (re || up) eqn:Er.
      + apply post_stmt. intros [] z Ez. unfold exec in Ez. destruct (alive _); [|done]. injection Ez as <-. apply post_ret, Hdone; cbn; auto; [|congruence].
        by eapply at_heights_same; [|exact Ha5].
      + apply post_bind, post_ret, post_ret, Hdone; auto; cbn; congruence.
    - apply post_bind, post_ret, post_ret, Hdone; auto; cbn; congruence. }
  destruct re eqn:Er.
  - apply post_assoc. apply post_stmt_rest; [apply keeps_DeindexAll|]. intros e s5 Hs5 Hr5. apply post_assoc. apply post_bind.
    assert (okpost (match e with Some ENotExist | None => mret tt | Some e => fail (h, ESqlStmt e) end : M unit) s5 (λ _ s6, s6 = s5)) as He.
    { destruct e as [[]|]; try apply post_fail; by apply post_ret. }
    eapply post_mono; [exact He|]. intros _ _ ->. apply post_assoc. apply post_stmt_rest; [apply keeps_create|]. intros _ s6 Hs6 Hr6. apply post_modify.
    destruct Hs5 as (? & ? & ? & ?), Hs6 as (? & ? & ? & ?). apply Hend; [apply Hdup; eapply at_heights_same; [|exact Ha4]; split_and!; (congruence || lia)|..].
    + cbn in *. lia.
    + cbn in *. congruence.
    + by rewrite <- Hr5, <- Hr6.
  - apply post_modify. apply Hend; [by apply Hdup|cbn; lia|done..].
Qed.

(** *** The bulk stages *)
Lemma check_post h s : okpost (check_cancelled h) s (λ _ s', same_chains s s' ∧ meta s' = meta s ∧ now s' = S (now s) ∧ cancelled (now s) = false).
Proof.
  unfold post, check_cancelled, mbind, goM_bind, ask. cbn. destruct (cancelled (now s)); [done|]. cbn.
  split; [split_and!; cbn; auto; lia|by split_and!].
Qed.

Lemma range_meta i e m u x : UpdateAllAddressesMatchingTxHashRange i e m = (Ok u, x) →
  indexes x = indexes m ∧ ibd_complete x = ibd_complete m ∧ ∀ y, y ∈ pending x ↔ y ∈ pending m ∧ ¬ (i <= y < e).
Proof.
  unfold UpdateAllAddressesMatchingTxHashRange, exec. destruct (alive _); [|done]. intros [= _ <-]. cbn. split_and!; [done..|].
  intros y. rewrite elem_of_filter. tauto.
Qed.
Lemma spending_post h H : ∀ fuel i s, okpost (spending_loop fuel h i H) s (λ _ s', same_chains s s' ∧ indexes (meta s') = indexes (meta s) ∧
  ibd_complete (meta s') = ibd_complete (meta s) ∧ ∀ y, y ∈ pending (meta s') ↔ y ∈ pending (meta s) ∧ ¬ (i <= y <= H)).
Proof.
  induction fuel as [|fuel IH]; intros i s; cbn [spending_loop]; destruct (Z.leb_spec i H) as [Hle|Hgt]; try done.
  1, 3: apply post_ret; split_and!; auto; intros y; split; [intros ?; split; [done|lia]|by intros [? _]].
  apply post_stmt. intros u x (Hi & Hb & Hp)%range_meta. eapply post_mono; [apply IH|]. intros _ s' (Hs & Hi' & Hb' & Hp').
  cbn [meta set_meta] in *. split_and!; [destruct Hs as (? & ? & ? & ?); split_and!; auto|congruence..|].
  intros y. rewrite Hp', Hp. destruct (Z.ltb_spec (H + 1) (i + chunk)); unfold chunk in *; (split; [intros [[? ?] ?]; split; [done|lia]|intros [? ?]; split; [split; [done|lia]|lia]]).
Qed.

(** What becomes of the meta data, all else as it was. *)
Definition to_meta (Q : Meta → Prop) (s s' : PG) : Prop := same_chains s s' ∧ Q (meta s').

Lemma deleteDuplicates_post {C} h (k : unit → M C) s Q :
  (∀ s1, same_chains s s1 → rest (meta s1) = rest (meta s) → okpost (k tt) s1 Q) → okpost (deleteDuplicates h ≫= k) s Q.
Proof.
  intros Hk. unfold deleteDuplicates. apply post_assoc, post_nop. intros s1 Hs1 _ Hr1. apply post_assoc, post_nop. intros s2 Hs2 _ Hr2. apply post_assoc, post_nop. intros s3 Hs3 _ Hr3.
  apply post_assoc, post_nop. intros s4 Hs4 _ Hr4. apply post_nop. intros s5 Hs5 _ Hr5. apply Hk; [|congruence].
  eapply same_chains_trans; [exact Hs1|]. eapply same_chains_trans; [exact Hs2|]. eapply same_chains_trans; [exact Hs3|]. by eapply same_chains_trans.
Qed.

Lemma index_each_all l m u x : index_each ((λ p, create_index p.1 p.2) <$> l) m = (Ok u, x) → indexes x = indexes m ∪ names l ∧ rest x = rest m.
Proof. destruct u. intros (? & H1 & H2)%index_each_adds. split; [done|]. unfold rest. by rewrite H1, H2. Qed.

Definition matching_index : gset string := {[IndexOfAddressTableOnMatchingTx]}.
Lemma matching_meta m u x : IndexAddressTableOnMatchingTxHash m = (Ok u, x) → indexes x = matching_index ∪ indexes m ∧ rest x = rest m.
Proof.
  unfold IndexAddressTableOnMatchingTxHash, create_index, exec. destruct (alive _); [|done]. cbn [indexes tick]. unfold matching_index.
  destruct (decide _); intros [= _ <-]; (split; [|done]); cbn; set_solver.
Qed.

Lemma index_stage_post p n s : okpost (index_stage p n) s (λ b s', same_chains s s' ∧ rest (meta s') = rest (meta s) ∧ b = p_reindexing p ∧
  (if p_reindexing p then names created ∪ names created_tickets ∪ (if p_updateAll p then ∅ else matching_index) ⊆ indexes (meta s') else indexes (meta s') = indexes (meta s))).
Proof.
  unfold index_stage. destruct (p_reindexing p); [|by apply post_ret]. apply post_stmt_rest; [apply keeps_drop|]. intros _ s1 Hs1 Hr1.
  apply deleteDuplicates_post. intros s2 Hs2 Hr2. apply post_stmt. intros u x [Hx Hrx]%(index_each_all created).
  assert (∀ s3 : PG, same_chains (set_meta x s2) s3 → rest (meta s3) = rest x → indexes x ∪ (if p_updateAll p then ∅ else matching_index) ⊆ indexes (meta s3) →
    okpost (stmt n IndexTicketsTable ≫= λ _, AnalyzeAllTables n ≫= λ _, mret true) s3 (λ b s', same_chains s s' ∧ rest (meta s') = rest (meta s) ∧ b = true ∧
      names created ∪ names created_tickets ∪ (if p_updateAll p then ∅ else matching_index) ⊆ indexes (meta s'))) as Hend.
  { intros s3 Hs3 Hr3 Hi3. apply post_stmt. intros u' y [Hy Hry]%(index_each_all created_tickets). unfold AnalyzeAllTables. apply post_nop. intros s4 Hs4 Hi4 Hr4. apply post_ret.
    split; [|split; [cbn in *; congruence|split; [done|]]].
    - eapply same_chains_trans; [exact Hs1|]. eapply same_chains_trans; [exact Hs2|]. eapply same_chains_trans; [exact Hs3|]. exact Hs4.
    - rewrite Hi4. cbn [meta set_meta]. rewrite Hy. rewrite Hx in Hi3. intros z [[Hz|Hz]%elem_of_union|Hz]%elem_of_union; apply elem_of_union; [left|by right|left]; apply Hi3, elem_of_union; [left; apply elem_of_union|]; by right. }
  destruct (p_updateAll p).
  - apply post_bind, post_ret, Hend; cbn [meta set_meta]; [done..|]. by rewrite union_empty_r_L.
  - apply post_stmt. intros u' y [Hy Hry]%matching_meta. apply Hend; cbn [meta set_meta] in *; [done..|]. rewrite Hy, (comm_L (∪)). reflexivity.
Qed.

Lemma ignore_post {C} (m : M unit) (k : unit → M C) s Q :
  (∀ r s1, m s = (r, s1) → okpost (k tt) s1 Q) → okpost (ignore m ≫= k) s Q.
Proof. intros Hk. apply post_bind. unfold post, ignore. destruct (m s) as [[[]|e| |] s1] eqn:Em; [by eapply Hk..|done|done]. Qed.

Lemma spending_stage_post p n b h hs s : at_heights h hs s →
  okpost (spending_stage p n b) s (λ _ s', same_chains s s' ∧ ibd_complete (meta s') = ibd_complete (meta s) ∧
    (if p_updateAll p then (∀ y, y ∈ pending (meta s') ↔ y ∈ pending (meta s) ∧ ¬ (0 <= y <= h)) ∧ indexes (meta s) ∪ matching_index ⊆ indexes (meta s') ∪ matching_index ∧ matching_index ⊆ indexes (meta s')
     else meta s' = meta s)).
Proof.
  intros Ha. unfold spending_stage. destruct (p_updateAll p); [|by apply post_ret].
  assert (∀ s1, same_chains s s1 → indexes (meta s1) = indexes (meta s) → rest (meta s1) = rest (meta s) →
    okpost (ignore (stmt n DeindexAddressTableOnMatchingTxHash) ≫= λ _, updateSpendingInfoInAllAddresses n ≫= λ _, stmt n IndexAddressTableOnMatchingTxHash ≫= λ _, AnalyzeTable n) s1
      (λ _ s', same_chains s s' ∧ ibd_complete (meta s') = ibd_complete (meta s) ∧ (∀ y, y ∈ pending (meta s') ↔ y ∈ pending (meta s) ∧ ¬ (0 <= y <= h)) ∧
        indexes (meta s) ∪ matching_index ⊆ indexes (meta s') ∪ matching_index ∧ matching_index ⊆ indexes (meta s'))) as Hend.
  { intros s1 Hs1 Hi1 Hr1. apply ignore_post. intros r s2 E2.
    assert (same_chains s1 s2 ∧ rest (meta s2) = rest (meta s1) ∧ indexes (meta s1) ∪ matching_index ⊆ indexes (meta s2) ∪ matching_index) as (Hs2 & Hr2 & Hi2).
    { unfold stmt, part in E2. pose proof (keeps_drop true IndexOfAddressTableOnMatchingTx (meta s1)) as Hk.
      unfold DeindexAddressTableOnMatchingTxHash in E2. assert (indexes (meta s1) ∪ matching_index ⊆ indexes (drop_index true IndexOfAddressTableOnMatchingTx (meta s1)).2 ∪ matching_index) as Hx.
      { unfold drop_index, exec, matching_index. destruct (alive _); [|done]. cbn [indexes tick]. destruct (decide _); cbn; [|done]. intros y. rewrite !elem_of_union, elem_of_difference. tauto || (destruct (decide (y ∈ ({[IndexOfAddressTableOnMatchingTx]} : gset string))); tauto). }
      destruct (drop_index true IndexOfAddressTableOnMatchingTx (meta s1)) as [[?|?| |] z]; injection E2 as <- <-; by split_and!. }
    unfold updateSpendingInfoInAllAddresses. assert (at_heights h hs s2) as Ha2 by (eapply at_heights_same; [|exact Ha]; by eapply same_chains_trans).
    apply post_assoc, post_assoc, post_gets. destruct (cHeight (store s2)) as [h0|] eqn:Eh; [|by apply post_bind, post_fail]. apply post_bind, post_ret.
    apply (cHeight_has _ _ _ (ah_store _ _ _ Ha2)) in Eh. pose proof (ah_h _ _ _ Ha2) as Hb. rewrite zlen_upto in Eh by lia. replace (h + 1 - 1) with h in Eh by lia. subst h0.
    apply post_bind. eapply post_mono; [apply spending_post|]. intros _ s3 (Hs3 & Hi3 & Hb3 & Hp3). apply post_stmt. intros u x [Hx [Hbx Hpx]%rest_eq]%matching_meta.
    unfold AnalyzeTable. eapply post_mono; [apply nop_post|]. intros _ s4 (Hs4 & Hi4 & [Hb4 Hp4]%rest_eq). cbn [meta set_meta] in *.
    apply rest_eq in Hr1 as [Hb1 Hp1]. apply rest_eq in Hr2 as [Hb2 Hp2]. split_and!.
    - eapply same_chains_trans; [exact Hs1|]. eapply same_chains_trans; [exact Hs2|]. by eapply same_chains_trans.
    - congruence.
    - intros y. by rewrite Hp4, Hpx, Hp3, Hp2, Hp1.
    - rewrite Hi4, Hx, Hi3. rewrite <- Hi1. clear -Hi2. intros y Hy%Hi2. revert Hy. rewrite !elem_of_union. tauto.
    - rewrite Hi4, Hx. apply union_subseteq_l. }
  destruct b.
  - by apply post_bind, post_ret, Hend.
  - unfold AnalyzeTable at 1 2. apply post_assoc, post_nop. intros s1 Hs1 Hi1 Hr1. apply post_nop. intros s2 Hs2 Hi2 Hr2. apply Hend; [by eapply same_chains_trans|congruence..].
Qed.

(** The tables, the stake database and the node, at the end of an import. *)
Record imported (p : Plan) (r : Z * Z) (s s' : PG) : Prop := {
  im_node : p_node p <= r.1;
  im_stake : r.2 = Z.max (p_stake p) r.1;
  im_heights : at_heights r.1 r.2 s';
  im_from : node_from r.1 s';
  im_now : (now s <= now s')%nat
}.
Record bulk_done (p : Plan) (r : Z * Z) (s s' : PG) : Prop := {
  bd_import : imported p r s s';
  bd_signals : signals s' = signals s ++ [r.1];
  bd_alive : ∃ t, (now s <= t)%nat ∧ cancelled t = false;
  bd_flag : ibd_complete (meta s') = ibd_complete (meta s);
  bd_pending : ∀ y, y ∈ pending (meta s') ↔ y ∈ pending (meta s) ∧ ¬ ((if p_updateAll p then 0 else p_lastBlock p + 1) <= y <= r.1);
  bd_indexes : p_reindexing p = true → all_indexes ⊆ indexes (meta s')
}.
Lemma imported_same p r s s1 s2 : same_chains s1 s2 → imported p r s s1 → imported p r s s2.
Proof.
  intros Hs [? ? Ha Hf ?]. constructor; auto; [by eapply at_heights_same|eapply node_from_mono; [reflexivity| |exact Hf]|]; destruct Hs as (_ & _ & ? & _); lia.
Qed.

Lemma bulk_post fuel h u nw s0 p s : prepared h u nw s0 p s → okpost (bulk fuel p) s (λ r s', bulk_done p r s s').
Proof.
  intros [Hl _ _ _ Ha _ Hnode Hfrom _ _ _ _]. unfold bulk. apply post_bind. rewrite Hl.
  eapply post_mono; [apply (import_post (h + 1) (p_updateAll p) fuel (h + 1) (p_node p) (p_stake p) h s); [exact Ha|left; lia| |lia|exact Hfrom]|].
  { pose proof (ah_h _ _ _ Ha). lia. }
  intros [n hs] s1 (Hn & Hhs & Ha1 & Hf1 & Hnow1 & Hsg1 & Hi1 & Hb1 & Hp1). cbn [fst snd] in *. apply post_modify. set (s2 := mkPG _ _ _ _ _).
  assert (imported p (n, hs) s s2) as Him.
  { constructor; cbn; auto. destruct Ha1. by constructor. }
  apply post_bind. eapply post_mono; [apply index_stage_post|]. intros b s3 (Hs3 & [Hb3 Hp3]%rest_eq & -> & Hi3).
  apply post_bind. eapply post_mono; [apply check_post|]. intros _ s4 (Hs4 & Hm4 & Hn4 & Hc4). assert (same_chains s2 s4) as Hs24 by by eapply same_chains_trans.
  assert (imported p (n, hs) s s4) as Him4 by by eapply imported_same. apply post_bind. eapply post_mono; [exact (spending_stage_post p n (p_reindexing p) n hs s4 (im_heights _ _ _ _ Him4))|].
  intros _ s5 (Hs5 & Hb5 & Hsp). cbn [fst snd] in Hsp. apply post_bind. eapply post_mono; [apply check_post|]. intros _ s6 (Hs6 & Hm6 & _ & _).
  assert (same_chains s2 s6) as Hs26 by (eapply same_chains_trans; [exact Hs24|]; by eapply same_chains_trans).
  assert (∀ s7, same_chains s6 s7 → indexes (meta s7) = indexes (meta s6) → rest (meta s7) = rest (meta s6) → okpost (mret (n, hs) : M (Z * Z)) s7 (λ r s', bulk_done p r s s')) as Hend.
  { intros s7 Hs7 Hi7 [Hb7 Hp7]%rest_eq. apply post_ret. assert (same_chains s2 s7) as Hs27 by by eapply same_chains_trans. constructor.
    - by eapply imported_same.
    - destruct Hs27 as (_ & _ & _ & ->). cbn. by rewrite Hsg1.
    - exists (now s3). split; [|done]. destruct Hs3 as (_ & _ & ? & _). cbn in *. lia.
    - rewrite Hb7, Hm6, Hb5, Hm4, Hb3. exact Hb1.
    - intros y. rewrite Hp7, Hm6. cbn [fst]. cbn [meta s2] in Hp3. pose proof (ah_h _ _ _ Ha). destruct (p_updateAll p).
      + destruct Hsp as (Hsp & _). rewrite Hsp, Hm4, Hp3, Hp1. cbn [noted]. rewrite elem_of_union, elem_of_heights. intuition lia.
      + rewrite Hsp, Hm4, Hp3, Hp1. cbn [noted]. rewrite elem_of_difference, elem_of_heights, Hl. done.
    - intros Hre. rewrite Hre in Hi3. rewrite Hi7, Hm6. unfold all_indexes. change ({[IndexOfAddressTableOnMatchingTx]}) with matching_index.
      destruct (p_updateAll p); [|by rewrite Hsp, Hm4]. destruct Hsp as (_ & Hsp & Hmi). rewrite Hm4 in Hsp. apply union_least; [|done].
      assert (indexes (meta s5) ∪ matching_index ⊆ indexes (meta s5)) as Hsub by by apply union_least.
      etrans; [|exact Hsub]. etrans; [|exact Hsp]. etrans; [|apply union_subseteq_l]. by rewrite union_empty_r_L in Hi3. }
  apply post_bind. unfold AnalyzeAllTables. destruct (negb (p_reindexing p) && p_analyze p).
  - eapply post_mono; [apply nop_post|]. intros _ s7 (? & ? & ?). by apply Hend.
  - apply post_ret. by apply Hend.
Qed.

(** *** Catching up *)
Lemma catch_up_post fuel p e hs s : at_heights e hs s → node_from e s → 0 <= e →
  okpost (catch_up fuel p e hs) s (λ n s', e <= n ∧ at_heights n (Z.max hs n) s' ∧ cancelled (now s) = false ∧ signals s' = signals s ∧
    indexes (meta s') = indexes (meta s) ∧ ibd_complete (meta s') = ibd_complete (meta s) ∧
    pending (meta s') = if e <? n then noted (p_updateAll p) (pending (meta s)) (heights e n) else pending (meta s)).
Proof.
  intros Ha Hf He. unfold catch_up. apply post_check. intros Hc. apply post_modify. set (s1 := set_store _ _).
  assert (at_heights e hs s1) as Ha1. { destruct Ha. constructor; cbn; auto. by apply cDupChecks_has. }
  apply post_best_block. intros n Hn. set (s2 := mkPG _ _ _ _ _). assert (e <= n) as Hen by (apply (Hf (now s1)); [cbn; lia|exact Hn]).
  assert (at_heights e hs s2) as Ha2 by (eapply at_heights_same; [|exact Ha1]; split_and!; cbn; auto; lia).
  destruct (Z.ltb_spec e n) as [Hlt|Hge].
  - apply post_bind. eapply post_mono; [apply (import_post (p_lastBlock p + 1) (p_updateAll p) fuel e n hs e s2); [done|right; lia|done|lia|]|].
    { eapply node_from_mono; [reflexivity| |eapply node_from_best; exact Hn]. cbn. lia. }
    intros [n' hs'] s' (Hn' & Hhs' & Ha' & _ & _ & Hsg & Hi & Hb & Hp). cbn [fst snd] in *. apply post_ret. subst hs'.
    rewrite (proj2 (Z.ltb_lt e n')) by lia. split_and!; auto. lia.
  - apply post_ret. assert (n = e) as -> by lia. rewrite Z.ltb_irrefl. rewrite Z.max_l by (pose proof (ah_le _ _ _ Ha); lia). by split_and!.
Qed.

Lemma setIBD_post {C} n b (k : unit → M C) s Q :
  (∀ s1, same_chains s s1 → indexes (meta s1) = indexes (meta s) → pending (meta s1) = pending (meta s) → ibd_complete (meta s1) = b → okpost (k tt) s1 Q) →
  okpost (setIBDComplete n b ≫= k) s Q.
Proof. intros Hk. apply post_stmt. intros [] x Ex. unfold exec in Ex. destruct (alive _); [|done]. injection Ex as <-. by apply Hk. Qed.

(** When the download is noted as complete. *)
Inductive staged (h : Z) (u nw : bool) (s : PG) (r : Plan * Z * Z) (s' : PG) : Prop :=
| Staged (s1 s2 : PG) : prepared h u nw s r.1.1 s1 → bulk_done r.1.1 (r.1.2, r.2) s1 s2 → same_chains s2 s' →
    indexes (meta s') = indexes (meta s2) → pending (meta s') = pending (meta s2) → ibd_complete (meta s') = true → staged h u nw s r s'.
Lemma stages_post fuel h hs u nw s : at_heights h hs s → (∀ t n, GetBestBlock t = Some n → Z.max 0 h <= n) →
  okpost (stages fuel u nw) s (staged h u nw s).
Proof.
  intros Ha Hbest. unfold stages. apply post_bind. eapply post_mono; [by eapply prepare_post|]. intros p s1 Hp. apply post_bind.
  eapply post_mono; [by eapply bulk_post|]. intros [n hs'] s2 Hb. apply setIBD_post. intros s3 Hs3 Hi3 Hp3 Hf3. apply post_ret. by apply (Staged _ _ _ _ _ _ s1 s2).
Qed.

(** Both at a height, apart from the flags of the store. *)
Lemma at_heights_batch h hs v s : at_heights h hs s → at_heights h hs (set_store (cBatch v (store s)) s).
Proof. intros [H1 ? ? ? ?]. constructor; cbn; auto. by apply cBatch_has. Qed.

Lemma Sync_ok fuel h hs u nw s n s' : at_heights h hs s → (∀ t m, GetBestBlock t = Some m → Z.max 0 h <= m) →
  SyncChainDB fuel u nw s = (Ok n, s') → ∃ p e, let s0 := set_store (cBatch true (store s)) s in
    p_updateAll p = u || negb (ibd_complete (meta s)) ∧ p_reindexing p = nw || (h =? -1) || negb (ibd_complete (meta s)) ∧
    h <= e <= n ∧ at_heights n n s' ∧ signals s' = signals s ++ [e] ∧ ibd_complete (meta s') = true ∧
    (p_reindexing p = true → all_indexes ⊆ indexes (meta s')) ∧
    ∃ P, (∀ y, y ∈ P ↔ y ∈ pending (meta s) ∧ ¬ ((if p_updateAll p then 0 else h + 1) <= y <= e)) ∧
      pending (meta s') = if e <? n then noted (p_updateAll p) P (heights e n) else P.
Proof.
  intros Ha Hbest E. unfold SyncChainDB in E. set (s0 := set_store (cBatch true (store s)) s) in *. apply (at_heights_batch h hs true) in Ha. fold s0 in Ha.
  assert (okpost (stages fuel u nw ≫= λ '(p, h, hs), catch_up fuel p h hs) s0 (λ n s1, ∃ p e,
    p_updateAll p = u || negb (ibd_complete (meta s)) ∧ p_reindexing p = nw || (h =? -1) || negb (ibd_complete (meta s)) ∧
    h <= e <= n ∧ at_heights n n s1 ∧ signals s1 = signals s ++ [e] ∧ ibd_complete (meta s1) = true ∧ (p_reindexing p = true → all_indexes ⊆ indexes (meta s1)) ∧
    ∃ P, (∀ y, y ∈ P ↔ y ∈ pending (meta s) ∧ ¬ ((if p_updateAll p then 0 else h + 1) <= y <= e)) ∧
      pending (meta s1) = if e <? n then noted (p_updateAll p) P (heights e n) else P)) as Hp.
  { apply post_bind. eapply post_mono; [by eapply stages_post|]. intros [[p e] hs'] s3 [s1 s2 Hp [[Hn Hst Hh Hfr Hnow] Hsg Hal Hfl Hpd Hix] Hs23 Hi3 Hp3 Hf3]. cbn [fst snd] in *.
    destruct (pr_node _ _ _ _ _ _ Hp) as [Hhn H0n]. assert (at_heights e hs' s3) as Ha3 by by eapply at_heights_same.
    eapply post_mono; [eapply catch_up_post; [exact Ha3| |lia]|].
    { eapply node_from_mono; [reflexivity| |exact Hfr]. destruct Hs23 as (_ & _ & ? & _). lia. }
    intros m s4 (Hem & Ha4 & Hc & Hsg4 & Hi4 & Hb4 & Hp4). exists p, e.
    assert (p_stake p = Z.max 0 h) as Hps.
    { destruct (pr_stake _ _ _ _ _ _ Hp) as [?|(t & Ht & Hct)]; [done|]. exfalso. apply (cancelled_stays t (now s3)) in Hct; [congruence|].
      destruct Hs23 as (_ & _ & ? & _). lia. }
    split_and!; [exact (pr_update _ _ _ _ _ _ Hp)|exact (pr_reindexing _ _ _ _ _ _ Hp)|lia|lia| | |congruence| |].
    - replace (Z.max hs' m) with m in Ha4 by lia. exact Ha4.
    - rewrite Hsg4. destruct Hs23 as (_ & _ & _ & ->). rewrite Hsg. by rewrite (pr_signals _ _ _ _ _ _ Hp).
    - intros Hre. rewrite Hi4, Hi3. by apply Hix.
    - exists (pending (meta s3)). split; [|exact Hp4]. intros y. rewrite Hp3, Hpd, (pr_pending _ _ _ _ _ _ Hp), (pr_last _ _ _ _ _ _ Hp). done. }
  unfold post in Hp. destruct ((stages fuel u nw ≫= _) s0) as [[m|x| |] s1]; try done. injection E as -> <-.
  destruct Hp as (p & e & H1 & H2 & H3 & H4 & H5 & H6 & H7 & P & H8 & H9). exists p, e. cbn. split_and!; auto; [lia|lia|by apply at_heights_batch|]. by exists P.
Qed.

(** C6: From tables and a stake database that are at the node's chain, the stake
    database not behind, with a node that is not behind the tables and does not
    reorganize meanwhile: when SyncChainDB succeeds, both are at the node's
    chain up to the height that it returns, which is not below where the tables
    were; the download is noted as complete; and if the tables were empty, or
    the download was not complete, or new indexes were asked for, all indexes
    that a synchronization creates are there (that on the last use of the
    miners is not one of them). *)
Theorem SyncChainDB_synced fuel h hs u nw s n s' : at_heights h hs s → (∀ t m, GetBestBlock t = Some m → Z.max 0 h <= m) →
  SyncChainDB fuel u nw s = (Ok n, s') →
  h <= n ∧ has_chain (store s') (upto n) ∧ at_chain (stake s') (upto n) ∧ zlen (upto n) = n + 1 ∧ ibd_complete (meta s') = true ∧
  (nw || (h =? -1) || negb (ibd_complete (meta s)) = true → all_indexes ⊆ indexes (meta s')).
Proof.
  intros Ha Hbest E. destruct (Sync_ok _ _ _ _ _ _ _ _ Ha Hbest E) as (p & e & _ & Hre & He & [H1 H2 H3 _ _] & _ & Hf & Hi & _).
  split_and!; auto; [lia|by apply zlen_upto|]. by rewrite <- Hre.
Qed.

(** C8: On the same conditions, when SyncChainDB succeeds and left the spending information of the
    addresses to a bulk update, the blocks that were stored without it after
    that update are exactly those that the last catching up imported, from the
    height that was announced on, if the node got more in between; the download
    is noted as complete all the same.  If it was written block by block and
    nothing was missing before, nothing is missing after. *)
Theorem SyncChainDB_unspent fuel h hs u nw s n s' : at_heights h hs s → (∀ t m, GetBestBlock t = Some m → Z.max 0 h <= m) →
  pending (meta s) ⊆ heights 0 h → SyncChainDB fuel u nw s = (Ok n, s') →
  ∃ e, signals s' = signals s ++ [e] ∧ e <= n ∧ ibd_complete (meta s') = true ∧
    (u || negb (ibd_complete (meta s)) = true → pending (meta s') = if e <? n then heights e n else ∅) ∧
    (u || negb (ibd_complete (meta s)) = false → pending (meta s) = ∅ → pending (meta s') = ∅).
Proof.
  intros Ha Hbest Hpend E. destruct (Sync_ok _ _ _ _ _ _ _ _ Ha Hbest E) as (p & e & Hu & _ & He & _ & Hsg & Hf & _ & P & HP & Hp').
  exists e. split_and!; auto; [lia|..]; intros Hup; rewrite Hup in Hu; rewrite Hu in *; cbn [noted] in Hp'.
  - assert (P = ∅) as ->. { apply set_eq. intros y. rewrite HP, elem_of_empty. split; [|done]. intros [Hy Hn]. apply Hpend, elem_of_heights in Hy. lia. }
    rewrite Hp'. destruct (e <? n); [by rewrite union_empty_l_L|done].
  - intros H0. assert (P = ∅) as ->. { apply set_eq. intros y. rewrite HP, H0, elem_of_empty. tauto. }
    rewrite Hp'. destruct (e <? n); [set_solver|done].
Qed.

(** ** That it returns

    Of the parts: the node answers, within [chain], and serves its blocks; the
    context is not cancelled; statements do not fail by themselves; and what a
    part may be asked, it does. *)
Record parts_work : Prop := {
  w_node t : ∃ n, GetBestBlock t = Some n ∧ 0 <= n < zlen chain;
  w_blocks t h : 0 <= h < zlen chain → is_Some (GetBlock t h);
  w_work t b : is_Some (GetChainWork t b);
  w_cancel t : cancelled t = false;
  w_alive t : alive t = true;
  w_connect x bs b : at_chain x bs → follows bs b → ∃ x', sConnect b x = (Ok tt, x');
  w_disconnect x bs b : at_chain x (bs ++ [b]) → bs ≠ [] → ∃ x', sDisconnect x = (Ok tt, x');
  w_store x bs b w u : has_chain x bs → follows bs b → ∃ x', cStore b w u x = (Ok tt, x');
  w_again x bs b w u : has_chain x (bs ++ [b]) → ∃ x', cStore b w u x = (Ok tt, x');
  w_warm x bs : has_chain x bs → ∃ x', cWarm x = (Ok tt, x');
  w_height x bs : has_chain x bs → is_Some (cHeight x)
}.

Definition returns {A} (m : M A) (s : PG) : Prop := ∃ a s', m s = (Ok a, s').

Lemma returns_ret {A} (a : A) s : returns (mret a) s.
Proof. by exists a, s. Qed.
(** A call that returns, with what its rule says, and then the rest. *)
Lemma returns_bind {A C} (m : M A) (k : A → M C) s (Q : A → PG → Prop) :
  returns m s → okpost m s Q → (∀ a s', Q a s' → returns (k a) s') → returns (m ≫= k) s.
Proof. intros (a & s1 & E) Hp Hk. unfold post in Hp. rewrite E in Hp. destruct (Hk _ _ Hp) as (c & s2 & E2). exists c, s2. by rewrite (bind_Ok _ _ _ _ _ E). Qed.
Lemma returns_any {A C} (m : M A) (k : A → M C) s : returns m s → (∀ a s', m s = (Ok a, s') → returns (k a) s') → returns (m ≫= k) s.
Proof. intros (a & s1 & E) Hk. destruct (Hk _ _ E) as (c & s2 & E2). exists c, s2. by rewrite (bind_Ok _ _ _ _ _ E). Qed.
Lemma returns_ask {A C} (f : nat → A) (k : A → M C) s : (∀ s1, same_chains s s1 → meta s1 = meta s → returns (k (f (now s))) s1) → returns (ask f ≫= k) s.
Proof. intros Hk. apply Hk; [split_and!; cbn; auto; lia|done]. Qed.
Lemma returns_part {T E A} (get : PG → T) set err (m : goM T E A) s : (∃ a x, m (get s) = (Ok a, x)) → returns (part get set err m) s.
Proof. intros (a & x & Ex). unfold returns, part. rewrite Ex. by eexists _, _. Qed.
Lemma post_is {A} (m : M A) s : okpost m s (λ a s', m s = (Ok a, s')).
Proof. unfold post. by destruct (m s) as [[]]. Qed.
Lemma post_alone {A} (m : M A) s Q : okpost (m ≫= mret) s Q → okpost m s Q.
Proof. unfold post, mbind, goM_bind. by destruct (m s) as [[]]. Qed.
Lemma stake_ext x y s1 s2 : set_stake x s1 = set_stake y s2 → x = y.
Proof. by intros [= ->]. Qed.

Section Returns.
Context (W : parts_work).

Lemma best_returns h s : returns (best_block h) s.
Proof. destruct (w_node W (now s)) as (n & E & _). exists n. eexists. unfold best_block, mbind, goM_bind, ask. cbn. by rewrite E. Qed.
Lemma check_returns h s : returns (check_cancelled h) s.
Proof. exists tt. eexists. unfold check_cancelled, mbind, goM_bind, ask. cbn. by rewrite (w_cancel W). Qed.
Lemma exec_returns {A} h (f : goM Meta SqlErr A) s : (∃ a x, f (tick (meta s)) = (Ok a, x)) → returns (stmt h (exec f)) s.
Proof. intros Hf. apply returns_part. unfold exec. by rewrite (w_alive W). Qed.
Lemma nop_returns h s : returns (stmt h nop) s.
Proof. apply exec_returns. by eexists _, _. Qed.
Lemma create_returns h n s : returns (stmt h (create_index true n)) s.
Proof. apply exec_returns. destruct (decide _); by eexists _, _. Qed.
Lemma drop_returns_ok h n s : returns (stmt h (drop_index true n)) s.
Proof. apply exec_returns. destruct (decide _); by eexists _, _. Qed.
Lemma setIBD_returns h b s : returns (setIBDComplete h b) s.
Proof. apply exec_returns. by eexists _, _. Qed.
Lemma HeightDB_returns h0 h hs s : at_heights h hs s → returns (HeightDB h0) s.
Proof. intros Ha. destruct (w_height W _ _ (ah_store _ _ _ Ha)) as [n E]. exists n. eexists. unfold HeightDB, mbind, goM_bind, gets. by rewrite E. Qed.

Lemma deleteDuplicates_returns h s : returns (deleteDuplicates h) s.
Proof. unfold deleteDuplicates. repeat (apply returns_any; [apply nop_returns|intros _ ? _]). apply nop_returns. Qed.
Lemma spending_returns h H : ∀ fuel i s, 0 <= i → (Z.to_nat ((H - i) / chunk + 1) <= fuel)%nat → returns (spending_loop fuel h i H) s.
Proof.
  induction fuel as [|fuel IH]; intros i s Hi Hf; cbn [spending_loop]; destruct (Z.leb_spec i H) as [Hle|Hgt]; try apply returns_ret.
  - exfalso. pose proof (Z.div_pos (H - i) chunk ltac:(lia) ltac:(unfold chunk; lia)). lia.
  - apply returns_any; [apply exec_returns; by eexists _, _|]. intros _ s1 _. apply IH; [unfold chunk; lia|].
    replace (H - (i + chunk)) with (H - i + -1 * chunk) by lia. rewrite Z.div_add by (unfold chunk; lia). lia.
Qed.

(** *** The import *)
Lemma connect_returns err ib h hs b s : at_heights h hs s → chain !! Z.to_nat ib = Some b → 0 <= ib → ib - 1 <= hs →
  returns (if hs <? ib then if negb (ib - hs =? 1) then panic else part stake set_stake err (sConnect b) else mret tt) s.
Proof.
  intros [_ H2 _ _ _] Hb Hib Hle. destruct (Z.ltb_spec hs ib) as [Hlt|]; [|apply returns_ret]. destruct (Z.eqb_spec (ib - hs) 1) as [|]; [|lia].
  apply returns_part. exists tt. apply (w_connect W _ (upto hs)); [done|]. replace hs with (ib - 1) by lia. by apply upto_next.
Qed.
Lemma store_returns ib b w u h hs s : at_heights h hs s → chain !! Z.to_nat ib = Some b → 0 <= ib → h = ib - 1 ∨ h = ib → returns (store_block ib b w u) s.
Proof.
  intros [H1 _ _ _ _] Hb Hib Hh. destruct (upto_next ib b Hib Hb) as [Eu Hf].
  assert (∃ x, cStore b w u (store s) = (Ok tt, x)) as (x & Ex).
  { destruct Hh as [->| ->]; [by eapply w_store|]. rewrite Eu in H1. by eapply w_again. }
  unfold store_block. destruct u.
  - apply returns_any; [apply returns_ret|]. intros ? s1 [= _ <-]. apply returns_any; [apply returns_part; by eexists _, _|]. intros. by eexists _, _.
  - apply returns_any; [by eexists _, _|]. intros ? s1 [= _ <-]. apply returns_any; [apply returns_part; by eexists _, _|]. intros. by eexists _, _.
Qed.
Lemma refresh_returns (c1 c2 : bool) h node s : node < zlen chain →
  returns (if c1 then if c2 then mret node else best_block h else mret node) s ∧
  okpost (if c1 then if c2 then mret node else best_block h else mret node) s (λ n _, n < zlen chain).
Proof.
  intros Hn. destruct c1; [destruct c2|]; (split; [try apply returns_ret; try apply best_returns|]); try by apply post_ret.
  unfold post, best_block, mbind, goM_bind, ask. cbn. destruct (w_node W (now s)) as (n & -> & ?). cbn. lia.
Qed.

Lemma import_returns start u : ∀ fuel ib node hs h s, at_heights h hs s → h = ib - 1 ∨ (h = ib ∧ ib <= node) → 0 <= ib → ib - 1 <= node < zlen chain → node_from node s →
  (Z.to_nat (zlen chain - ib) <= fuel)%nat → returns (import_loop fuel start u ib node hs) s.
Proof.
  induction fuel as [|fuel IH]; intros ib node hs h s Ha Hh Hib Hnode Hfrom Hfu; cbn [import_loop]; destruct (Z.leb_spec ib node) as [Hle|Hgt]; try apply returns_ret; [lia|].
  eapply returns_bind; [apply check_returns|apply check_post|]. intros _ s1 (Hs1 & Hm1 & _ & _).
  assert (at_heights h hs s1) as Ha1 by by eapply at_heights_same. assert (node_from node s1) as Hf1 by (eapply node_from_mono; [reflexivity| |exact Hfrom]; apply Hs1).
  match goal with |- returns ((if ?c1 then if ?c2 then _ else _ else _) ≫= _) _ => destruct (refresh_returns c1 c2 ib node s1 ltac:(lia)) as [Hr1 Hb1] end.
  eapply returns_bind; [exact Hr1|apply post_and; [by apply refresh_post|exact Hb1]|]. intros n1 s2 [(Hn1 & Hf2 & Hs2 & Hm2) Hlt1].
  destruct (w_blocks W (now s2) ib ltac:(lia)) as [b Eb]. pose proof (GetBlock_chain _ _ _ Hib Eb) as Hb.
  assert (at_heights h hs s2) as Ha2 by by eapply at_heights_same. pose proof (ah_le _ _ _ Ha) as Hhs.
  apply returns_ask. intros s3 Hs3 _. rewrite Eb. assert (at_heights h hs s3) as Ha3 by by eapply at_heights_same. eapply (returns_bind _ _ _ (λ _ s4, at_heights h (Z.max hs ib) s4 ∧ same_chains (set_stake (stake s4) s3) s4)); [eapply connect_returns; eauto; lia|apply post_alone; eapply connect_post; [exact Ha3|exact Hb|done|lia|]; intros s4 Ha4 Hs4 Hm4; apply post_ret; exact (conj Ha4 Hs4)|].
  intros _ s4 [Ha4 Hs4]. apply returns_any; [by eexists _, _|]. intros hs1 s5 [= <- <-]. rewrite (sHeight_upto _ _ _ Ha4).
  destruct (w_work W (now s4) b) as [w Ew]. apply returns_ask. intros s5 Hs5 _. rewrite Ew.
  assert (at_heights h (Z.max hs ib) s5) as Ha5 by by eapply at_heights_same. eapply (returns_bind _ _ _ (λ _ s6, at_heights ib (Z.max hs ib) s6 ∧ now s6 = now s5)); [eapply store_returns; eauto; lia|apply post_alone; eapply (store_post ib b w (negb u) h (Z.max hs ib)); [exact Ha5|exact Hb|done|lia|lia|]; intros s6 Ha6 Hn6 _ _; apply post_ret; exact (conj Ha6 Hn6)|].
  intros _ s6 [Ha6 Hn6]. assert (node_from n1 s6) as Hf6.
  { eapply node_from_mono; [reflexivity| |exact Hf2]. destruct Hs3 as (_ & _ & ? & _), Hs4 as (_ & _ & ? & _), Hs5 as (_ & _ & ? & _). cbn in *. lia. }
  destruct (refresh_returns (ib =? n1) false ib n1 s6 Hlt1) as [Hr6 Hb6].
  eapply returns_bind; [exact Hr6|apply post_and; [by apply (refresh_post _ false)|exact Hb6]|]. intros n2 s7 [(Hn2 & Hf7 & Hs7 & _) Hlt2].
  eapply (IH (ib + 1) n2 (Z.max hs ib) ib); [by eapply at_heights_same|left; lia|lia|lia|done|lia].
Qed.

(** *** Preparing *)
Lemma rewind_returns to lb h : 0 <= to → h <= to → ∀ fuel hs s, at_heights h hs s → (Z.to_nat (hs - to) <= fuel)%nat → returns (rewind_loop fuel to hs lb) s.
Proof.
  intros Hto Hh. induction fuel as [|fuel IH]; intros hs s Ha Hf; cbn [rewind_loop]; destruct (Z.ltb_spec to hs) as [Hlt|Hge]; try apply returns_ret; [lia|].
  apply returns_ask. intros s1 Hs1 _. rewrite (w_cancel W). assert (at_heights h hs s1) as [H1 H2 H3 H4 H5] by by eapply at_heights_same.
  destruct (lookup_lt_is_Some_2 chain (Z.to_nat hs)) as [b Hb]; [unfold zlen in H4; lia|]. destruct (upto_next hs b ltac:(lia) Hb) as [Eu _].
  assert (upto (hs - 1) ≠ []) as Hne. { intros E0. apply (f_equal zlen) in E0. rewrite zlen_upto in E0 by lia. change (zlen []) with 0 in E0. lia. }
  rewrite Eu in H2. apply (returns_bind _ _ _ (λ _ s2, at_heights h (hs - 1) s2)); [apply returns_part; exists tt; by eapply w_disconnect|apply post_alone, post_part; intros [] x Ex; apply post_ret|].
  - constructor; cbn; try lia; [done|]. by eapply sDisconnect_at.
  - intros _ s2 Ha2. apply returns_any; [by eexists _, _|]. intros h2 s3 [= <- <-]. rewrite (sHeight_upto _ _ _ Ha2). apply IH; [done|lia].
Qed.
Lemma rewound_returns h hs s : at_heights h hs s → hs <= 2 * Z.max 0 h →
  returns (if (h <? hs) && (0 <? hs) then if (h <? 0) || (2 * h <? hs) then fail (-1, EDeleteStakeDB) else RewindStakeDB h h else mret hs) s.
Proof.
  intros Ha Hnear. destruct (Z.ltb_spec h hs), (Z.ltb_spec 0 hs); cbn [andb]; try apply returns_ret.
  destruct (Z.ltb_spec h 0), (Z.ltb_spec (2 * h) hs); cbn [orb]; try lia. unfold RewindStakeDB. rewrite (proj2 (Z.ltb_ge h 0)) by lia.
  apply returns_any; [by eexists _, _|]. intros h2 s2 [= <- <-]. rewrite (sHeight_upto _ _ _ Ha). by apply (rewind_returns h h h).
Qed.

Definition yields {A} (m : M A) (s : PG) (Q : A → PG → Prop) : Prop := ∃ a s', m s = (Ok a, s') ∧ Q a s'.
Lemma yields_bind {A C} (m : M A) (k : A → M C) s (R : A → PG → Prop) Q :
  returns m s → okpost m s R → (∀ a s', R a s' → yields (k a) s' Q) → yields (m ≫= k) s Q.
Proof. intros (a & s1 & E) Hp Hk. unfold post in Hp. rewrite E in Hp. destruct (Hk _ _ Hp) as (c & s2 & E2 & HQ). exists c, s2. by rewrite (bind_Ok _ _ _ _ _ E). Qed.
Lemma yields_step {A C} (m : M A) (k : A → M C) s a s1 Q : m s = (Ok a, s1) → yields (k a) s1 Q → yields (m ≫= k) s Q.
Proof. intros E (c & s2 & E2 & HQ). exists c, s2. by rewrite (bind_Ok _ _ _ _ _ E). Qed.
Lemma yields_returns {A} (m : M A) s Q : yields m s Q → returns m s ∧ okpost m s Q.
Proof. intros (a & s' & E & HQ). split; [by eexists _, _|]. unfold post. by rewrite E. Qed.

Lemma stmt_heights {A} h0 (m : goM Meta SqlErr A) h hs s : at_heights h hs s → okpost (stmt h0 m) s (λ _ s', at_heights h hs s').
Proof. intros Ha. apply post_alone, post_stmt. intros a x Ex. apply post_ret. by eapply at_heights_same; [|exact Ha]. Qed.
Lemma stmt_meta {A} h0 (m : goM Meta SqlErr A) s a x : m (meta s) = (Ok a, x) → stmt h0 m s = (Ok a, set_meta x s).
Proof. intros E. unfold stmt, part. by rewrite E. Qed.
Lemma HeightDB_is h0 h hs s : at_heights h hs s → HeightDB h0 s = (Ok h, s).
Proof.
  intros Ha. destruct (w_height W _ _ (ah_store _ _ _ Ha)) as [n E]. unfold HeightDB, mbind, goM_bind, gets. rewrite E.
  apply (cHeight_has _ _ _ (ah_store _ _ _ Ha)) in E. pose proof (ah_h _ _ _ Ha). rewrite zlen_upto in E by lia. by replace h with n by lia.
Qed.

(** When the indexes are to be created again, all were dropped. *)
Definition clean (p : Plan) (m : Meta) : Prop := p_reindexing p = true → ∀ n, n ∈ names dropped ∪ names dropped_tickets → n = idx_tmp ∨ n ∉ indexes m.
Lemma all_but_one (I X D : gset string) t n : I = X ∖ D ∨ I = {[t]} ∪ X ∖ D → n ∈ D → n = t ∨ n ∉ I.
Proof. intros HI Hn. destruct (decide (n = t)) as [|Hne]; [by left|right]. destruct HI as [-> | ->]; rewrite ?elem_of_union, ?elem_of_singleton, elem_of_difference; tauto. Qed.
Lemma clean_meta p m m' : indexes m = indexes m' ∖ (names dropped ∪ names dropped_tickets) ∨ indexes m = {[idx_tmp]} ∪ indexes m' ∖ (names dropped ∪ names dropped_tickets) → clean p m.
Proof. intros Hm _ n. exact (all_but_one _ _ _ _ _ Hm). Qed.
Lemma prepare_yields h hs u nw s : at_heights h hs s → hs <= 2 * Z.max 0 h →
  yields (prepare u nw) s (λ p s', clean p (meta s') ∧ p_node p < zlen chain).
Proof.
  intros Ha Hnear. unfold prepare.
  apply (yields_bind _ _ _ (λ n s1, at_heights h hs s1 ∧ n < zlen chain)); [apply best_returns| |].
  { apply post_alone, post_best_block. intros n En. apply post_ret. split; [eapply at_heights_same; [|exact Ha]; split_and!; cbn; auto; lia|]. destruct (w_node W (now s)) as (n' & En' & ?). rewrite En in En'. injection En' as ->. lia. }
  intros n s1 [Ha1 Hn]. eapply yields_step; [by eapply HeightDB_is|].
  eapply yields_bind; [apply exec_returns; by eexists _, _|by apply stmt_heights|]. intros ibd s2 Ha2. eapply yields_step; [done|].
  rewrite (proj2 (Z.ltb_ge h (-1))) by (pose proof (ah_h _ _ _ Ha); lia). rewrite (sHeight_upto _ _ _ Ha2).
  apply (yields_bind _ _ _ (λ r s3, at_heights h r s3)); [by apply rewound_returns|apply post_alone; eapply rewound_post; [exact Ha2|]; intros r s3 Ha3 _ _ _ _; by apply post_ret|].
  intros r s3 Ha3. apply (yields_bind _ _ _ (λ _ _, True)); [apply returns_part; exists tt; eapply w_warm; [done|exact (ah_store _ _ _ Ha3)]|unfold post; by destruct (part _ _ _ _ _) as [[]]|].
  intros _ s4 _. assert (∀ n1 c p m s5, clean p m → p_node p < zlen chain → meta s5 = m → yields ((if c : bool then setIBDComplete n1 false else mret tt) ≫= λ _, mret p) s5 (λ p s', clean p (meta s') ∧ p_node p < zlen chain)) as Hend.
  { intros n1 c p m s5 Hp Hpn <-. destruct c; (eapply yields_step; [|eexists _, _; split; [done|split; [|done]]]); [apply stmt_meta; unfold exec; by rewrite (w_alive W)|exact Hp|done|exact Hp]. }
  set (re := nw || (h =? -1) || negb ibd). destruct re eqn:Ere.
  - destruct (DeindexAll_drops (w_alive W) (meta s4)) as (m5 & E5 & H5 & _).
    destruct (create_returns h idx_tmp (set_meta m5 s4)) as ([] & s6 & E6).
    assert (clean (mkPlan h n r true (u || negb ibd) ibd (true || (10000 <? n - h))) (meta s6)) as Hcl.
    { apply (clean_meta _ _ (meta s4)). rewrite <- H5. unfold stmt, part, create_index, exec in E6. rewrite (w_alive W) in E6. cbn [meta set_meta indexes tick] in E6.
      destruct (decide _); injection E6 as <-; [left; reflexivity|right; reflexivity]. }
    apply (yields_step _ _ _ tt (set_store (cDupChecks false (store s6)) s6)); [|by eapply Hend].
    rewrite (bind_Ok _ _ _ _ _ (stmt_meta _ _ _ _ _ E5)). rewrite (bind_Ok _ _ _ tt (set_meta m5 s4)) by done. rewrite (bind_Ok _ _ _ _ _ E6). done.
  - eapply yields_step; [done|]. eapply Hend; [|exact Hn|reflexivity]. intros [=].
Qed.

(** *** What follows the import *)
Lemma drop_tmp m x (D : gset string) y : drop_index true idx_tmp m = (Ok tt, x) → (∀ n, n ∈ D → n = idx_tmp ∨ n ∉ indexes m) → y ∈ D → y ∉ indexes x.
Proof.
  unfold drop_index, exec. destruct (alive _); [|done]. cbn [indexes tick]. intros Ex Hc Hy%Hc. revert Ex Hy. generalize idx_tmp as t. intros t.
  destruct (decide (t ∈ indexes m)); intros [= <-]; cbn [indexes set_indexes tick]; [|naive_solver]. rewrite not_elem_of_difference, elem_of_singleton. naive_solver.
Qed.
Lemma index_stage_returns p n s : clean p (meta s) → returns (index_stage p n) s.
Proof.
  intros Hc. unfold index_stage. destruct (p_reindexing p) eqn:Er; [|apply returns_ret]. specialize (Hc Er).
  apply (returns_bind _ _ _ (λ _ s1, ∀ x, (false, x) ∈ created → x ∉ indexes (meta s1))); [apply drop_returns_ok| |].
  { apply post_alone, post_stmt. intros [] x Ex. apply post_ret. intros y Hy%created_were_dropped. exact (drop_tmp _ _ _ _ Ex Hc Hy). }
  intros _ s1 Hc1. apply (returns_bind _ _ _ (λ _ s2, indexes (meta s2) = indexes (meta s1))); [apply deleteDuplicates_returns| |].
  { unfold deleteDuplicates. apply post_nop. intros s2 _ H2 _. apply post_nop. intros s3 _ H3 _. apply post_nop. intros s4 _ H4 _. apply post_nop. intros s5 _ H5 _.
    eapply post_mono; [apply nop_post|]. intros _ s6 (_ & H6 & _). congruence. }
  intros _ s2 H2. assert (∀ s3 : PG, returns (stmt n IndexTicketsTable ≫= λ _, AnalyzeAllTables n ≫= λ _, mret true) s3) as Hend.
  { intros s3. apply returns_any; [|intros _ s4 _; apply returns_any; [apply nop_returns|intros; apply returns_ret]].
    apply returns_part. exists tt. apply (index_each_works created_tickets (w_alive W) created_tickets_NoDup). by intros y Hy%tickets_mind_not. }
  apply returns_any; [apply returns_part; exists tt; apply (index_each_works created (w_alive W) created_NoDup); rewrite H2; exact Hc1|].
  intros _ s3 _. destruct (p_updateAll p); (apply returns_any; [|intros _ s4 _; apply Hend]); [apply returns_ret|apply create_returns].
Qed.
Lemma spending_stage_returns p n b h hs s : at_heights h hs s → returns (spending_stage p n b) s.
Proof.
  intros Ha. unfold spending_stage. destruct (p_updateAll p); [|apply returns_ret].
  apply (returns_bind _ _ _ (λ _ s1, at_heights h hs s1)).
  { destruct b; [apply returns_ret|]. apply returns_any; [apply nop_returns|intros; apply nop_returns]. }
  { destruct b; [by apply post_ret|]. apply post_bind. eapply post_mono; [by apply (stmt_heights _ _ h hs)|]. intros ? s1 Ha1. by apply stmt_heights. }
  intros _ s1 Ha1. destruct (drop_returns_ok n IndexOfAddressTableOnMatchingTx s1) as ([] & s2 & E2).
  assert (at_heights h hs s2) as Ha2. { pose proof (stmt_heights n (drop_index true IndexOfAddressTableOnMatchingTx) _ _ _ Ha1) as Hp. unfold post in Hp. by rewrite E2 in Hp. }
  assert (ignore (stmt n DeindexAddressTableOnMatchingTxHash) s1 = (Ok tt, s2)) as E2' by (unfold ignore, DeindexAddressTableOnMatchingTxHash; by rewrite E2).
  apply returns_any; [by eexists _, _|]. intros u s2' Eu. rewrite E2' in Eu. injection Eu as _ <-.
  apply returns_any; [|intros _ s3 _; apply returns_any; [apply create_returns|intros; apply nop_returns]].
  unfold updateSpendingInfoInAllAddresses. apply returns_any; [by eexists _, _; eapply HeightDB_is|]. intros h3 s3 E3. rewrite (HeightDB_is n _ _ _ Ha2) in E3. injection E3 as <- <-.
  apply spending_returns; [done|]. by rewrite Z.sub_0_r.
Qed.
Lemma bulk_returns fuel h u nw s0 p s : prepared h u nw s0 p s → clean p (meta s) → p_node p < zlen chain → (Z.to_nat (zlen chain) <= fuel)%nat → returns (bulk fuel p) s.
Proof.
  intros [Hl _ _ _ Ha _ Hnode Hfrom _ _ _ _] Hc Hn Hfu. unfold bulk. rewrite Hl. pose proof (ah_h _ _ _ Ha).
  eapply returns_bind; [eapply (import_returns _ _ _ _ _ _ h); [exact Ha|left; lia|lia|lia|exact Hfrom|lia]|eapply (import_post _ _ _ _ _ _ h); [exact Ha|left; lia|lia|lia|exact Hfrom]|].
  intros [n hs] s1 (_ & _ & Ha1 & _ & _ & _ & Hi1 & _). cbn [fst snd] in *. apply returns_any; [by eexists _, _|]. intros u2 s2 E2. injection E2 as _ E2.
  assert (at_heights n hs s2) as Ha2 by (rewrite <- E2; destruct Ha1; by constructor).
  eapply returns_bind; [apply index_stage_returns; unfold clean; rewrite <- E2; cbn; by rewrite Hi1|apply index_stage_post|]. intros b s3 (Hs3 & _ & _).
  eapply returns_bind; [apply check_returns|apply check_post|]. intros _ s4 (Hs4 & _). apply returns_any; [eapply spending_stage_returns; eapply at_heights_same; [|exact Ha2]; by eapply same_chains_trans|]. intros _ s5 _.
  apply returns_any; [apply check_returns|]. intros _ s6 _. apply returns_any; [|intros; apply returns_ret]. destruct (negb b && p_analyze p); [apply nop_returns|apply returns_ret].
Qed.
Lemma catch_up_returns fuel p e hs s : at_heights e hs s → node_from e s → 0 <= e → (Z.to_nat (zlen chain) <= fuel)%nat → returns (catch_up fuel p e hs) s.
Proof.
  intros Ha Hf He Hfu. unfold catch_up. eapply returns_bind; [apply check_returns|apply check_post|]. intros _ s1 (Hs1 & _). apply returns_any; [by eexists _, _|]. intros u2 s2 E2. injection E2 as _ E2.
  assert (at_heights e hs s2) as Ha2. { rewrite <- E2. apply (at_heights_same _ _ _ _ Hs1) in Ha. destruct Ha. constructor; cbn; auto. by apply cDupChecks_has. }
  apply (returns_bind _ _ _ (λ n s3, at_heights e hs s3 ∧ n < zlen chain ∧ node_from n s3)); [apply best_returns| |].
  { apply post_alone, post_best_block. intros n En. apply post_ret. split_and!; [eapply at_heights_same; [|exact Ha2]; split_and!; cbn; auto; lia| |].
    - destruct (w_node W (now s2)) as (n' & En' & ?). rewrite En in En'. injection En' as ->. lia.
    - eapply node_from_mono; [reflexivity| |eapply node_from_best; exact En]. cbn. lia. }
  intros n s3 (Ha3 & Hn & Hf3). destruct (Z.ltb_spec e n); [|apply returns_ret].
  apply returns_any; [eapply (import_returns _ _ _ _ _ _ e); [exact Ha3|right; lia|lia|lia|exact Hf3|lia]|]. intros [] s4 _. apply returns_ret.
Qed.

Lemma stages_returns fuel h hs u nw s : at_heights h hs s → (∀ t n, GetBestBlock t = Some n → Z.max 0 h <= n) → hs <= 2 * Z.max 0 h →
  (Z.to_nat (zlen chain) <= fuel)%nat → returns (stages fuel u nw) s.
Proof.
  intros Ha Hbest Hnear Hfu. unfold stages. destruct (yields_returns _ _ _ (prepare_yields h hs u nw s Ha Hnear)) as [Hr Hp].
  eapply returns_bind; [exact Hr|apply post_and; [by eapply prepare_post|exact Hp]|]. intros p s1 [Hpr [Hc Hn]].
  apply returns_any; [by eapply bulk_returns|]. intros [n hs'] s2 _. apply returns_any; [apply setIBD_returns|intros; apply returns_ret].
Qed.
End Returns.

(** C7: If the parts work, tables and stake database are at the node's chain, the
    stake database not behind the tables (else it panics) nor more than twice as
    high (else it gives up), and the node is not behind the tables, then
    SyncChainDB returns, with tables and stake database at the height
    that it returns, a height the node has; importing at most as many blocks as
    the node will ever have bounds its loops. *)
Theorem SyncChainDB_completes fuel h hs u nw s : parts_work → at_heights h hs s → (∀ t m, GetBestBlock t = Some m → Z.max 0 h <= m) →
  hs <= 2 * Z.max 0 h → (Z.to_nat (zlen chain) <= fuel)%nat →
  ∃ n s', SyncChainDB fuel u nw s = (Ok n, s') ∧ h <= n ∧ at_heights n n s'.
Proof.
  intros W Ha Hbest Hnear Hfu. set (s0 := set_store (cBatch true (store s)) s). pose proof (at_heights_batch h hs true s Ha) as Ha0.
  assert (returns (stages fuel u nw ≫= λ '(p, h, hs), catch_up fuel p h hs) s0) as (n & s1 & E).
  { eapply returns_bind; [by eapply stages_returns|by eapply stages_post|]. intros [[p e] hs'] s3 [s1 s2 Hp [[Hn Hst Hh Hfr Hnow] _ _ _ _ _] Hs23 _ _ _]. cbn [fst snd] in *.
    destruct (pr_node _ _ _ _ _ _ Hp) as [_ H0n]. eapply (catch_up_returns W); [by eapply at_heights_same| |lia|done].
    eapply node_from_mono; [reflexivity| |exact Hfr]. destruct Hs23 as (_ & _ & ? & _). lia. }
  assert (SyncChainDB fuel u nw s = (Ok n, set_store (cBatch false (store s1)) s1)) as E2 by (unfold SyncChainDB; fold s0; by rewrite E).
  exists n, (set_store (cBatch false (store s1)) s1). split; [exact E2|]. destruct (Sync_ok _ _ _ _ _ _ _ _ Ha Hbest E2) as (p & e & _ & _ & He & Ha' & _). split; [lia|done].
Qed.
End Sync.

(** ** The stake database follows a chain

    So it can be what SyncChainDB asks for: its tickets and its node agree at
    blocks about which the client tells nothing wrong, and the client has the
    tickets that left the pool with them, with their values. *)
Section Stake.
Context {DB : Type} {BDB : Badger DB} {ST : StakeTypes} {SL : StakeLib} {LW : StakeLaws}.
Context (params : NetParams) (val : Hash → Z) (client : NodeClient).

#[local] Instance next_served : Follows Block := λ bs b, bs = [] ∨ (next_block val bs b ∧ honest client [b] ∧
  ∀ (db : StakeDatabase DB) ds d, synced val db (bs ++ [b]) (ds ++ [d]) → knows_tickets val client (dOut d)).
Definition stake_at (db : StakeDatabase DB) (bs : list Block) : Prop :=
  (∃ ds, synced val db bs ds ∧ knows_tickets val client (concat (dOut <$> ds))) ∧ blocks_ok val client db ∧ honest client bs.

Lemma stake_at_height db bs : stake_at db bs → sd_Height db = zlen bs - 1.
Proof. intros [(ds & (Hna & _) & _) _]. apply node_at_len in Hna as [-> Hl]. unfold zlen. lia. Qed.
Lemma stake_at_next db bs b db' : stake_at db bs → follows bs b → ConnectBlock params client b db = (Ok tt, db') → stake_at db' (bs ++ [b]).
Proof.
  intros ((ds & Hs & Hk) & Hb & Hh) [->|(Hn & Hb1 & Hk1)] E.
  { destruct Hs as (Hna & _). by apply node_at_len in Hna as [_ ?]. }
  destruct (ConnectBlock_synced params val _ _ _ _ _ _ _ Hs Hn Hb E) as [Hb' [(_ & [? ?] & _)|(d & Hs' & _)]]; [done..|].
  split_and!; [exists (ds ++ [d]); split; [done|]|done|].
  { rewrite fmap_app, concat_app. intros h [Hh'|Hh']%elem_of_app; [by apply Hk|]. cbn in Hh'. rewrite app_nil_r in Hh'. by apply (Hk1 db' ds d Hs'). }
  intros x [Hx|Hx]%elem_of_app; [by apply Hh|by apply Hb1].
Qed.
Lemma stake_at_prev db bs b db' : stake_at db (bs ++ [b]) → bs ≠ [] → DisconnectBlock client false db = (Ok tt, db') → stake_at db' bs.
Proof.
  intros ((ds & Hs & Hk) & [Hb Hc] & Hh) Hne E. pose proof Hs as (Hna & _). apply node_at_len in Hna as [_ Hl]. rewrite length_app in Hl. cbn in Hl.
  destruct ds as [|d ds _] using rev_ind; [destruct bs; [done|cbn in Hl; lia]|].
  assert (∀ h, h ∈ dOut d → h ∈ concat (dOut <$> (ds ++ [d]))) as left_out.
  { intros h Hin. rewrite fmap_app, concat_app. apply elem_of_app. right. cbn. by rewrite app_nil_r. }
  destruct (DisconnectBlock_synced val _ _ _ _ _ _ _ _ Hs Hh (λ h Hin, Hk h (left_out h Hin)) E) as [(? & ? & _)|[(? & ? & _)|(_ & Hs' & Eb)]]; [done..|].
  split_and!; [exists ds; split; [done|]; intros h Hin; apply Hk; rewrite fmap_app, concat_app; apply elem_of_app; by left| |]; [split; [by rewrite Eb|done]|]. eapply honest_sub; [|exact Hh]. intros x Hx. apply elem_of_app. by left.
Qed.
Definition stake_chain : StakeChain (StakeDatabase DB) Block := {|
  StakeError := SDErr;
  sHeight := sd_Height;
  sConnect b := ConnectBlock params client b;
  sDisconnect := DisconnectBlock client false;
  at_chain := stake_at;
  sHeight_at := stake_at_height;
  sConnect_at := stake_at_next;
  sDisconnect_at := stake_at_prev
|}.
End Stake.

(** ** Examples

    Blocks that are numbers in order, in lists; a node that gets a block after
    it was asked five times. *)
Module Witness.
#[local] Instance nat_follows : Follows nat := λ bs b, b = length bs.
Definition pop (l : list nat) : list nat := take (length l - 1) l.
#[local, program] Instance list_stake : StakeChain (list nat) nat := {
  StakeError := unit;
  sHeight l := zlen l - 1;
  sConnect b l := if decide (b = length l) then (Ok tt, l ++ [b]) else (Err tt, l);
  sDisconnect l := (Ok tt, pop l);
  at_chain := eq
}.
Next Obligation. by intros s bs ->. Qed.
Next Obligation. intros s bs b s' -> H. unfold follows, nat_follows in H. destruct (decide _); [by intros [= <-]|done]. Qed.
Next Obligation. intros s bs b s' -> _ [= <-]. unfold pop. rewrite length_app. cbn. rewrite Nat.add_sub. by rewrite take_app_length. Qed.
#[local, program] Instance list_store : ChainStore (list nat) nat := {
  ChainError := unit;
  cHeight l := Some (zlen l - 1);
  cStore b _ _ l := if decide (b = length l) then (Ok tt, l ++ [b]) else if decide (S b = length l) then (Ok tt, l) else (Err tt, l);
  cWarm l := (Ok tt, l);
  cBatch _ l := l;
  cDupChecks _ l := l;
  has_chain l bs := l = bs ∧ ∀ i b, bs !! i = Some b → b = i
}.
Next Obligation. by intros s bs h [-> _] [= <-]. Qed.
Next Obligation.
  intros s bs b w u s' [-> Hn] H. unfold follows, nat_follows in H. rewrite decide_True by done. intros [= <-]. split; [done|].
  intros i c [?|[? ?]]%lookup_app_Some; [by apply Hn|]. apply list_lookup_singleton_Some in H1 as [? <-]. lia.
Qed.
Next Obligation.
  intros s bs b w u s' [-> Hn]. pose proof (Hn (length bs) b ltac:(by apply list_lookup_middle)) as ->. rewrite length_app. cbn.
  rewrite decide_False, decide_True by lia. by intros [= <-].
Qed.
Next Obligation. intros s bs s' H [= <-]. exact H. Qed.
Next Obligation. done. Qed.
Next Obligation. done. Qed.
#[local] Instance steady : Server := λ _, true.
Definition chain : list nat := [0; 1; 2; 3]%nat.
Definition node (t : nat) : option Z := Some (if decide (t < 12)%nat then 1 else 3).
Definition serve (_ : nat) (h : Z) : option nat := if decide (0 <= h) then chain !! Z.to_nat h else None.
Definition work (_ : nat) (_ : nat) : option string := Some "00"%string.
Definition fresh : PG (SS:=list nat) (CS:=list nat) := mkPG [0%nat] [] (mkMeta {[IndexOfMinersTableOnLastUsed]} false ∅ 0) 0 [].
Definition never (_ : nat) : bool := false.
Abbreviation sync := (SyncChainDB node serve work never 4 false false).
Definition after : PG := (sync fresh).2.

Lemma follows_chain i b : chain !! i = Some b → follows (take i chain) b.
Proof. do 4 (destruct i as [|i]; [by intros [= <-]|]). done. Qed.
Lemma serve_chain t h b : 0 <= h → serve t h = Some b → chain !! Z.to_nat h = Some b.
Proof. unfold serve. intros Hh. by rewrite decide_True by done. Qed.
Lemma node_grows t t' n n' : (t <= t')%nat → node t = Some n → node t' = Some n' → n <= n'.
Proof. unfold node. intros Ht [= <-] [= <-]. destruct (decide _), (decide _); lia. Qed.
Lemma never_done t t' : (t <= t')%nat → never t = true → never t' = true.
Proof. done. Qed.
Lemma above t m : node t = Some m → Z.max 0 (-1) <= m.
Proof. unfold node. intros [= <-]. destruct (decide _); lia. Qed.
Lemma numbered l i b : l = take (length l) chain → l !! i = Some b → b = i.
Proof. intros Hl Hb. rewrite Hl in Hb. apply lookup_take_Some in Hb as [Hb _]. do 4 (destruct i as [|i]; [by injection Hb|]). done. Qed.
Lemma fresh_at : at_heights chain (-1) 0 fresh.
Proof. constructor; cbn; try lia; try done; unfold zlen; cbn; lia. Qed.

Lemma SyncChainDB_synced_witness : sync fresh = (Ok 3, after) ∧ -1 <= 3 ∧ has_chain (store after) (upto chain 3) ∧
  at_chain (stake after) (upto chain 3) ∧ zlen (upto chain 3) = 3 + 1 ∧ ibd_complete (meta after) = true ∧
  (false || (-1 =? -1) || negb (ibd_complete (meta fresh)) = true → all_indexes ⊆ indexes (meta after)).
Proof.
  assert (sync fresh = (Ok 3, after)) as E by by vm_compute. split; [exact E|].
  exact (SyncChainDB_synced _ _ _ _ chain serve_chain follows_chain node_grows never_done _ _ _ _ _ _ _ _ fresh_at above E).
Defined.

(** Height 1 is announced, then the node gets two blocks. *)
Lemma SyncChainDB_unspent_witness : elements (pending (meta after)) = [3; 2; 1] ∧
  ∃ e, signals after = signals fresh ++ [e] ∧ e <= 3 ∧ ibd_complete (meta after) = true ∧
    (false || negb (ibd_complete (meta fresh)) = true → pending (meta after) = if e <? 3 then heights e 3 else ∅) ∧
    (false || negb (ibd_complete (meta fresh)) = false → pending (meta fresh) = ∅ → pending (meta after) = ∅).
Proof.
  split; [by vm_compute|]. assert (sync fresh = (Ok 3, after)) as E by by vm_compute.
  exact (SyncChainDB_unspent _ _ _ _ chain serve_chain follows_chain node_grows never_done _ _ _ _ _ _ _ _ fresh_at above (empty_subseteq _) E).
Defined.

Lemma parts_do : parts_work node serve work never chain.
Proof.
  constructor; try done.
  - intros t. eexists. split; [done|]. unfold zlen. cbn. destruct (decide _); lia.
  - intros t h Hh. unfold serve. rewrite decide_True by lia. apply lookup_lt_is_Some_2. unfold zlen in Hh. lia.
  - intros x bs b -> Hb. exists (bs ++ [b]). unfold follows, nat_follows in Hb. cbn. by rewrite decide_True.
  - intros x bs b -> _. by eexists.
  - intros x bs b w u [-> _] Hb. exists (bs ++ [b]). unfold follows, nat_follows in Hb. cbn. by rewrite decide_True.
  - intros x bs b w u [-> Hn]. pose proof (Hn (length bs) b ltac:(by apply list_lookup_middle)) as ->. exists (bs ++ [length bs]). cbn.
    rewrite length_app. cbn. by rewrite decide_False, decide_True by lia.
  - intros x bs _. by exists x.
Qed.
Lemma SyncChainDB_completes_witness : ∃ n s', sync fresh = (Ok n, s') ∧ -1 <= n ∧ at_heights chain n n s'.
Proof.
  apply (SyncChainDB_completes _ _ _ _ chain serve_chain follows_chain node_grows never_done 4 (-1) 0 false false fresh parts_do fresh_at above); [done|]. unfold zlen. cbn. lia.
Defined.
End Witness.
